(* ===== verification/_CoqProject ===== *)
-Q . S2P
Prelude.v
Bolt.v
Keys.v
Sha256.v
Domain.v
Concrete.v
Manager.v
ConfigRepo.v
ConfigReads.v
EtcdRepo.v
Repository.v
Effects.v
Store.v
WriteSpec.v
EtcdSpec.v
ReadSpec.v
ListSpec.v
EtcdKey.v
ConfigKV.v
TxnSpec.v
TxnRefine.v
EtcdKV.v
ApiSpec.v
Util.v
Publisher.v
WatchMatch.v
WatchServer.v
WatchSpec.v
WatchStream.v
Rbac.v
NamespaceRepo.v
Fusion.v
NamespaceSpec.v
Frame.v
PolicyRepo.v
Casbin.v
PolicySync.v
GroupRepo.v
Authz.v
GroupService.v
AuthConcrete.v
PdpSpec.v
GroupTrack.v
GroupSpec.v
UserRepo.v
