(* ===== verification/Prelude.v ===== *)
(** * Elara: prelude of the verification development (draft header) *)

From stdpp Require Import base list gmap strings sorting.
From Stdlib Require Import Ascii ZArith Lia.
From Stdlib Require String.

#[global] Set Default Goal Selector "!".

(** ** Go strings and byte slices

    Both [string] and [[]byte] are byte sequences in Go and the code converts
    between them freely, so both are [bytes] here. *)

Abbreviation bytes := (list ascii).

Declare Scope go_scope.
Delimit Scope go_scope with go.

(** A Go string literal. *)
Definition str (s : string) : bytes := String.list_ascii_of_string s.

(** The numeric value of a byte. *)
Definition byte_val (a : ascii) : Z := Z.of_N (N_of_ascii a).

(** The byte with a given value, modulo 256. *)
Definition byte_of (z : Z) : ascii := ascii_of_N (Z.to_N (z mod 256)).

(** [bytes.Compare]: lexicographic comparison by byte value. *)
Fixpoint bytes_compare (a b : bytes) : comparison :=
  match a, b with
  | [], [] => Eq
  | [], _ :: _ => Lt
  | _ :: _, [] => Gt
  | x :: a', y :: b' =>
      match N.compare (N_of_ascii x) (N_of_ascii y) with
      | Eq => bytes_compare a' b'
      | c => c
      end
  end.

Definition bytes_ltb (a b : bytes) : bool :=
  match bytes_compare a b with Lt => true | _ => false end.

Definition bytes_leb (a b : bytes) : bool :=
  match bytes_compare a b with Gt => false | _ => true end.

Definition bytes_eqb (a b : bytes) : bool := bool_decide (a = b).

(** The strict order of keys that [bytes.Compare] decides. *)
Definition blt (a b : bytes) : Prop := bytes_compare a b = Lt.

(** [bytes.HasPrefix(s, p)] / [strings.HasPrefix(s, p)]. *)
Fixpoint has_prefix (s p : bytes) {struct p} : bool :=
  match p, s with
  | [], _ => true
  | _ :: _, [] => false
  | y :: p', x :: s' => bool_decide (x = y) && has_prefix s' p'
  end.

(** [strings.HasSuffix(s, p)]. *)
Definition has_suffix (s p : bytes) : bool := has_prefix (rev s) (rev p).

(** [bytes.IndexByte(s, c)], [None] for -1. *)
Fixpoint index_byte (s : bytes) (c : ascii) : option nat :=
  match s with
  | [] => None
  | x :: s' => if bool_decide (x = c) then Some 0 else S <$> index_byte s' c
  end.

(** [bytes.Cut(s, []byte{c})]: [None] when [c] does not occur. *)
Fixpoint cut_byte (s : bytes) (c : ascii) : option (bytes * bytes) :=
  match s with
  | [] => None
  | x :: s' =>
      if bool_decide (x = c) then Some ([], s')
      else match cut_byte s' c with
           | Some (l, r) => Some (x :: l, r)
           | None => None
           end
  end.

(** [strings.Contains(s, sub)]. *)
Fixpoint contains (s sub : bytes) : bool :=
  has_prefix s sub ||
  match s with [] => false | _ :: s' => contains s' sub end.

(** ** Machine integers *)

Open Scope Z_scope.

Definition two63 : Z := 2 ^ 63.
Definition two64 : Z := 2 ^ 64.

(** Two's complement wrap-around of Go's [int64] arithmetic. *)
Definition int64 (z : Z) : Z := (z + two63) mod two64 - two63.

(** The conversion [uint64(x)]. *)
Definition uint64 (z : Z) : Z := z mod two64.

Definition in_int64 (z : Z) : Prop := - two63 <= z < two63.

(** [binary.BigEndian]: the [n]-byte big-endian encoding of [z] and back. *)
Fixpoint be_bytes (n : nat) (z : Z) : bytes :=
  match n with
  | O => []
  | S n' => byte_of (z / 256 ^ Z.of_nat n') :: be_bytes n' z
  end.

Definition be_value (b : bytes) : Z :=
  foldl (fun acc x => acc * 256 + byte_val x) 0 b.

(** ** Errors and outcomes

    An error value is the chain [errors.Is] walks: a sentinel, a typed error, a
    gRPC status, or a wrapper made by [fmt.Errorf("...: %w", ..., err)].  The
    text is kept as the format with its arguments and is never rendered. *)

Inductive farg :=
| FStr (s : bytes)
| FInt (z : Z).

(** The sentinel errors the modelled packages declare or receive. *)
Inductive sentinel :=
| BboltErrNotFound            (* pkg/bbolt.ErrNotFound *)
| BboltErrBucketNotFound      (* pkg/bbolt.ErrBucketNotFound *)
| BoltErrTxNotWritable        (* go.etcd.io/bbolt, write in a read-only tx *)
| BoltErrTxClosed             (* go.etcd.io/bbolt, operation on a finished tx *)
| BoltErr (msg : string)      (* any other error of go.etcd.io/bbolt *)
| CodecErr (msg : string)     (* an error of encoding/json *)
| StorageErrResourceNotFound
| StorageErrResourceAlreadyExists
| DomainErrNotFound
| DomainErrAlreadyExists
| DomainErrVersionConflict
| DomainErrLocked
| DomainErrInvalidFormat
| DomainErrInvalidContent
| DomainErrUnauthorized
| OtherErr (msg : string).

(** gRPC status codes the handlers use. *)
Inductive code :=
| InvalidArgument | PermissionDenied | Unauthenticated | FailedPrecondition | Internal | Unimplemented.

Inductive error :=
| ESentinel (s : sentinel)
| EValidation (field message : bytes)
| ESchemaValidation (violations : list (bytes * bytes * bytes))
| EStatus (c : code) (fmt : string) (args : list farg)
| EStatusOf (c : code) (fmt : string) (args : list farg) (cause : error)
| EWrap (fmt : string) (args : list farg) (e : error)
| EJoin (e : error).

#[global] Instance farg_eq_dec : EqDecision farg.
Proof. solve_decision. Defined.
#[global] Instance sentinel_eq_dec : EqDecision sentinel.
Proof. solve_decision. Defined.
#[global] Instance code_eq_dec : EqDecision code.
Proof. solve_decision. Defined.
#[global] Instance error_eq_dec : EqDecision error.
Proof. solve_decision. Defined.

(** [errors.Is(e, target)]: walks [Unwrap].  A gRPC status built with [%v] does
    not wrap its cause, and [errors.Join(err, nil)] wraps [err]. *)
Fixpoint errors_Is (e target : error) : bool :=
  bool_decide (e = target) ||
  match e with
  | EWrap _ _ e' => errors_Is e' target
  | EJoin e' => errors_Is e' target
  | _ => false
  end.

(** [errors.As(e, &*SchemaValidationError)]. *)
Fixpoint as_schema_validation (e : error) : bool :=
  match e with
  | ESchemaValidation _ => true
  | EWrap _ _ e' => as_schema_validation e'
  | EJoin e' => as_schema_validation e'
  | _ => false
  end.

(** A goroutine that does not return: it panicked, or waits for ever. *)
Inductive crash := GoPanic | Deadlock.

(** What a Go function that returns [(A, error)] did. *)
Inductive outcome (A : Type) :=
| Ok (a : A)
| Err (e : error)
| Crash (c : crash).
Arguments Ok {A} a.
Arguments Err {A} e.
Arguments Crash {A} c.

Definition is_Ok {A} (r : outcome A) : Prop := exists a, r = Ok a.

(** [fmt.Errorf(fmt, args..., err)] on the error path only. *)
Definition map_err {A} (f : error -> error) (r : outcome A) : outcome A :=
  match r with Err e => Err (f e) | r => r end.

#[global] Instance outcome_ret : MRet outcome := @Ok.
#[global] Instance outcome_bind : MBind outcome := fun A B f r =>
  match r with Ok a => f a | Err e => Err e | Crash c => Crash c end.

(** ** Library functions left open

    [strings.ToLower] depends on the Unicode tables and [sort.Slice] leaves the
    order of equal elements open: both are parameters. *)

Class UnicodeLower := ToLower : bytes -> bytes.

Class GoSort := sort_Slice : forall A : Type, (A -> A -> bool) -> list A -> list A.
Arguments sort_Slice {_ A} less l.

(** What sort.Slice requires of [less], and what it then guarantees. *)
Definition strict_weak {A} (less : A -> A -> bool) : Prop :=
  (forall x, less x x = false) /\
  (forall x y z, less x y = true -> less y z = true -> less x z = true) /\
  (forall x y z, less x y = false -> less y x = false ->
                 less y z = false -> less z y = false ->
                 less x z = false /\ less z x = false).

Class GoSortSpec `{GoSort} : Prop := {
  sort_Slice_perm A (less : A -> A -> bool) l : Permutation (sort_Slice less l) l;
  sort_Slice_sorted A (less : A -> A -> bool) l :
    strict_weak less ->
    StronglySorted (fun x y => less y x = false) (sort_Slice less l);
}.

(** [range] over a Go map visits its entries in an order the language leaves
    open: [rangeOrder] is any function that gives one. *)
Class RangeOrder := {
  rangeOrder {K A} `{Countable K} : gmap K A -> list (K * A);
  rangeOrder_perm {K A} `{Countable K} (m : gmap K A) : rangeOrder m ≡ₚ map_to_list m;
}.

(** The same for a [map[K]struct{}]. *)
Definition rangeSet `{RangeOrder} `{Countable K} (X : gset K) : list K := (rangeOrder (gset_to_gmap tt X)).*1.

(** [sort.SliceStable] has one possible result: insertion from the left. *)
Fixpoint insert_stable {A} (less : A -> A -> bool) (x : A) (l : list A) : list A :=
  match l with
  | [] => [x]
  | y :: l' => if less y x then y :: insert_stable less x l' else x :: l
  end.

Definition sort_SliceStable {A} (less : A -> A -> bool) (l : list A) : list A :=
  foldr (insert_stable less) [] l.

(** ** Lemmas: bytes and their order *)

(** Prove a decidable proposition by running its decision procedure. *)
Ltac by_decide :=
  match goal with |- ?P => apply (bool_decide_unpack P); vm_compute; exact I end.

(** A computed projection of a value found behind an option. *)
Lemma fmap_Some_eq {A B} (f : A -> B) (o : option A) a b : o = Some a -> f <$> o = Some b -> f a = b.
Proof. intros ->. by intros [= ->]. Qed.

(** A run whose result is known, with the state it leaves unnamed. *)
Lemma run_eq {A B} (x : A * B) a : x.1 = a -> x = (a, x.2).
Proof. intros <-. apply surjective_pairing. Qed.

Create HintDb elara.
Create Rewrite HintDb elara.

Lemma N_of_ascii_inj a b : N_of_ascii a = N_of_ascii b -> a = b.
Proof. intros H. by rewrite <- (ascii_N_embedding a), <- (ascii_N_embedding b), H. Qed.

Lemma bytes_compare_refl a : bytes_compare a a = Eq.
Proof. induction a as [|x a IH]; simpl; [done|]. by rewrite N.compare_refl. Qed.

Lemma bytes_compare_eq a b : bytes_compare a b = Eq <-> a = b.
Proof.
  split; [|intros ->; apply bytes_compare_refl].
  revert b. induction a as [|x a IH]; intros [|y b]; simpl; try done.
  destruct (N.compare_spec (N_of_ascii x) (N_of_ascii y)) as [E|E|E]; try done.
  intros H. f_equal; [by apply N_of_ascii_inj | by apply IH].
Qed.

Lemma bytes_compare_antisym a b : bytes_compare b a = CompOpp (bytes_compare a b).
Proof.
  revert b. induction a as [|x a IH]; intros [|y b]; simpl; try done.
  rewrite N.compare_antisym.
  by destruct (N.compare (N_of_ascii x) (N_of_ascii y)); simpl.
Qed.

Lemma blt_trans a b c : blt a b -> blt b c -> blt a c.
Proof.
  unfold blt. revert b c.
  induction a as [|x a IH]; intros [|y b] [|z c]; simpl; try done.
  destruct (N.compare_spec (N_of_ascii x) (N_of_ascii y)) as [E1|E1|E1]; try done;
  destruct (N.compare_spec (N_of_ascii y) (N_of_ascii z)) as [E2|E2|E2]; try done;
  destruct (N.compare_spec (N_of_ascii x) (N_of_ascii z)) as [E3|E3|E3];
  try done; try lia.
  apply IH.
Qed.

#[global] Instance blt_strict : StrictOrder blt.
Proof.
  split; [intros a H; unfold blt in H; by rewrite bytes_compare_refl in H|].
  intros a b c. apply blt_trans.
Qed.

Lemma blt_irrefl a : ~ blt a a.
Proof. apply StrictOrder_Irreflexive. Qed.

Lemma blt_total a b : blt a b \/ a = b \/ blt b a.
Proof.
  unfold blt. rewrite (bytes_compare_antisym a b).
  destruct (bytes_compare a b) eqn:E; simpl; [|by left|by auto].
  right; left. by apply bytes_compare_eq.
Qed.

Lemma bytes_ltb_lt a b : bytes_ltb a b = true <-> blt a b.
Proof. unfold bytes_ltb, blt. by destruct (bytes_compare a b). Qed.

Lemma bytes_ltb_ge a b : bytes_ltb a b = false <-> ~ blt a b.
Proof. unfold bytes_ltb, blt. by destruct (bytes_compare a b). Qed.

Lemma bytes_leb_le a b : bytes_leb a b = true <-> ~ blt b a.
Proof.
  unfold bytes_leb, blt. rewrite (bytes_compare_antisym a b).
  by destruct (bytes_compare a b).
Qed.

#[global] Instance blt_dec a b : Decision (blt a b).
Proof. refine (cast_if (decide (bytes_compare a b = Lt))); done. Defined.

Lemma nblt_trans a b c : ~ blt b a -> ~ blt c b -> ~ blt c a.
Proof.
  intros H1 H2 H3. destruct (blt_total b c) as [H|[->|H]]; [|done|done].
  apply H1. by transitivity c.
Qed.

Lemma blt_nblt_trans a b c : blt a b -> ~ blt c b -> blt a c.
Proof.
  intros H1 H2. destruct (blt_total b c) as [H|[->|H]]; [|done|done].
  by transitivity b.
Qed.

Lemma nblt_blt_trans a b c : ~ blt b a -> blt b c -> blt a c.
Proof.
  intros H1 H2. destruct (blt_total a b) as [H|[->|H]]; [|done|done].
  by transitivity b.
Qed.

Lemma bytes_compare_app p a b : bytes_compare (p ++ a) (p ++ b) = bytes_compare a b.
Proof. induction p as [|x p IH]; simpl; [done|]. by rewrite N.compare_refl. Qed.

Lemma blt_app p a b : blt (p ++ a) (p ++ b) <-> blt a b.
Proof. unfold blt. by rewrite bytes_compare_app. Qed.

Lemma nblt_app_r a b : ~ blt (a ++ b) a.
Proof.
  rewrite <- (app_nil_r a) at 2. rewrite blt_app. unfold blt. by destruct b.
Qed.

(** ** Lemmas: prefixes *)

Lemma has_prefix_spec s p : has_prefix s p = true <-> exists t, s = p ++ t.
Proof.
  revert s. induction p as [|y p IH]; intros s; simpl.
  { split; [by exists s|done]. }
  destruct s as [|x s]; [split; [done|by intros [t ?]]|].
  rewrite andb_true_iff, bool_decide_eq_true, IH. split.
  - intros [-> [t ->]]. by exists t.
  - intros [t [= -> ->]]. split; [done|by exists t].
Qed.

Lemma has_prefix_false s p : has_prefix s p = false <-> ~ exists t, s = p ++ t.
Proof. rewrite <- has_prefix_spec. by destruct (has_prefix s p). Qed.

Lemma has_prefix_app p t : has_prefix (p ++ t) p = true.
Proof. apply has_prefix_spec. by exists t. Qed.

Lemma has_prefix_refl p : has_prefix p p = true.
Proof. apply has_prefix_spec. exists []. by rewrite app_nil_r. Qed.

Lemma has_prefix_nil s : has_prefix s [] = true.
Proof. by destruct s. Qed.

Lemma has_prefix_ge s p : has_prefix s p = true -> ~ blt s p.
Proof. intros [t ->]%has_prefix_spec. apply nblt_app_r. Qed.

(** The keys with a given prefix are an interval of the key order: once a scan
    that started at the prefix meets a key without it, no later key has it. *)
Lemma has_prefix_interval p a b :
  ~ blt a p -> has_prefix a p = false -> ~ blt b a -> has_prefix b p = false.
Proof.
  unfold blt. revert a b.
  induction p as [|z p IH]; intros [|x a] [|y b]; simpl; try done.
  destruct (N.compare_spec (N_of_ascii x) (N_of_ascii z)) as [E1|E1|E1];
  destruct (N.compare_spec (N_of_ascii y) (N_of_ascii x)) as [E2|E2|E2]; try done;
  repeat case_bool_decide; subst; simpl in *; try done; try lia; eauto.
  intros _ _ _. apply N_of_ascii_inj in E1. congruence.
Qed.

Lemma has_prefix_length s p : has_prefix s p = true -> (length p <= length s)%nat.
Proof. intros [t ->]%has_prefix_spec. rewrite length_app. lia. Qed.

(** ** Lemmas: iteration over maps *)

Section range_order.
Context `{RangeOrder} `{Countable K} {A : Type}.
Implicit Types (m : gmap K A).

Lemma elem_of_order m k a : (k, a) ∈ rangeOrder m <-> m !! k = Some a.
Proof. by rewrite rangeOrder_perm, elem_of_map_to_list. Qed.

Lemma NoDup_order m : NoDup (rangeOrder m).
Proof. rewrite rangeOrder_perm. apply NoDup_map_to_list. Qed.

Lemma NoDup_order_keys m : NoDup (rangeOrder m).*1.
Proof. rewrite rangeOrder_perm. apply NoDup_fst_map_to_list. Qed.

End range_order.

Lemma elem_of_rangeSet `{RangeOrder} `{Countable K} (X : gset K) k : k ∈ rangeSet X <-> k ∈ X.
Proof.
  unfold rangeSet. rewrite list_elem_of_fmap. split.
  - intros ([k' []] & -> & Hin). apply elem_of_order in Hin. by apply lookup_gset_to_gmap_Some in Hin as [? _].
  - intros Hk. exists (k, tt). split; [done|]. apply elem_of_order. by apply lookup_gset_to_gmap_Some.
Qed.

Lemma NoDup_rangeSet `{RangeOrder} `{Countable K} (X : gset K) : NoDup (rangeSet X).
Proof. apply NoDup_order_keys. Qed.

(** ** Lemmas: separators *)

Lemma cut_byte_app c l r : c ∉ l -> cut_byte (l ++ c :: r) c = Some (l, r).
Proof.
  induction l as [|x l IH]; simpl; intros Hc.
  - by rewrite bool_decide_true.
  - rewrite bool_decide_false by set_solver. rewrite IH by set_solver. done.
Qed.

Lemma cut_byte_None c s : cut_byte s c = None <-> c ∉ s.
Proof.
  induction s as [|x s IH]; simpl; [set_solver|].
  case_bool_decide; [set_solver|].
  destruct (cut_byte s c) as [[]|]; [|set_solver].
  split; [done|]. intros Hc. exfalso.
  assert (Some (l, l0) = None); [|done]. apply IH. set_solver.
Qed.

Lemma cut_byte_Some c s l r : cut_byte s c = Some (l, r) -> s = l ++ c :: r /\ c ∉ l.
Proof.
  revert l. induction s as [|x s IH]; simpl; intros l; [done|].
  case_bool_decide; [intros [= <- <-]; subst; split; [done|set_solver]|].
  destruct (cut_byte s c) as [[l' r']|]; [|done]. intros [= <- <-].
  destruct (IH l') as [-> ?]; [done|]. split; [done|set_solver].
Qed.

Lemma index_byte_app c l r : c ∉ l -> index_byte (l ++ c :: r) c = Some (length l).
Proof.
  induction l as [|x l IH]; simpl; intros Hc.
  - by rewrite bool_decide_true.
  - rewrite bool_decide_false by set_solver. rewrite IH by set_solver. done.
Qed.

Lemma index_byte_None c s : index_byte s c = None <-> c ∉ s.
Proof.
  induction s as [|x s IH]; simpl; [set_solver|].
  case_bool_decide; [set_solver|].
  destruct (index_byte s c) as [n|]; simpl; [|set_solver].
  split; [done|]. intros Hc. exfalso.
  assert (Some n = None); [|done]. apply IH. set_solver.
Qed.

Lemma index_byte_Some c s i :
  index_byte s c = Some i -> s = take i s ++ c :: drop (S i) s /\ c ∉ take i s.
Proof.
  revert i. induction s as [|x s IH]; simpl; intros i; [done|].
  case_bool_decide; [intros [= <-]; subst; split; [done|set_solver]|].
  destruct (index_byte s c) as [n|]; [|done]. intros [= <-].
  destruct (IH n) as [E ?]; [done|]. simpl. split; [by rewrite <- E|set_solver].
Qed.

(** Two strings that agree up to their first separator. *)
Lemma app_sep_inj (c : ascii) a a' b b' :
  c ∉ a -> c ∉ a' -> a ++ c :: b = a' ++ c :: b' -> a = a' /\ b = b'.
Proof.
  intros Ha Ha' E. pose proof (cut_byte_app c a b Ha) as H1.
  rewrite E, (cut_byte_app c a' b' Ha') in H1. by injection H1 as -> ->.
Qed.

(** ** Lemmas: machine integers *)

Lemma int64_id z : in_int64 z -> int64 z = z.
Proof.
  unfold in_int64, int64, two63, two64. intros H. rewrite Z.mod_small; lia.
Qed.

Lemma int64_range z : in_int64 (int64 z).
Proof.
  unfold in_int64, int64, two63, two64.
  pose proof (Z.mod_pos_bound (z + 2 ^ 63) (2 ^ 64)). lia.
Qed.

Lemma int64_uint64 z : in_int64 z -> int64 (uint64 z) = z.
Proof.
  intros H. unfold int64, uint64, two64, two63.
  rewrite Z.add_mod_idemp_l by lia. rewrite Z.mod_small; unfold in_int64, two63 in H; lia.
Qed.

Lemma uint64_id z : 0 <= z < two64 -> uint64 z = z.
Proof. apply Z.mod_small. Qed.

Lemma byte_val_range a : 0 <= byte_val a < 256.
Proof. unfold byte_val. pose proof (N_ascii_bounded a). lia. Qed.

Lemma byte_val_of z : byte_val (byte_of z) = z mod 256.
Proof.
  unfold byte_val, byte_of. pose proof (Z.mod_pos_bound z 256).
  rewrite N_ascii_embedding by lia. lia.
Qed.

Lemma length_be_bytes n z : length (be_bytes n z) = n.
Proof. induction n; simpl; congruence. Qed.

Lemma be_value_acc b acc :
  foldl (fun acc x => acc * 256 + byte_val x) acc b =
  acc * 256 ^ Z.of_nat (length b) + be_value b.
Proof.
  unfold be_value. revert acc.
  induction b as [|x b IH]; intros acc; simpl; [lia|].
  rewrite (IH (acc * 256 + byte_val x)), (IH (0 * 256 + byte_val x)).
  rewrite Nat2Z.inj_succ, Z.pow_succ_r by lia. nia.
Qed.

Lemma be_value_cons x b :
  be_value (x :: b) = byte_val x * 256 ^ Z.of_nat (length b) + be_value b.
Proof. unfold be_value at 1. simpl. rewrite be_value_acc. lia. Qed.

Lemma be_value_bytes n z : be_value (be_bytes n z) = z mod 256 ^ Z.of_nat n.
Proof.
  induction n as [|n IH]; simpl be_bytes; [by rewrite Z.mod_1_r|].
  rewrite be_value_cons, length_be_bytes, byte_val_of, IH.
  rewrite Nat2Z.inj_succ, Z.pow_succ_r by lia.
  assert (0 < 256 ^ Z.of_nat n) by (apply Z.pow_pos_nonneg; lia).
  rewrite (Z.mul_comm 256), Z.rem_mul_r by lia. lia.
Qed.

Lemma be_value_bound b : 0 <= be_value b < 256 ^ Z.of_nat (length b).
Proof.
  induction b as [|x b IH]; [done|].
  rewrite be_value_cons. simpl length. rewrite Nat2Z.inj_succ, Z.pow_succ_r by lia.
  pose proof (byte_val_range x). nia.
Qed.

Lemma be_value_inj a b : length a = length b -> be_value a = be_value b -> a = b.
Proof.
  revert b. induction a as [|x a IH]; intros [|y b]; simpl; try done.
  intros [= Hlen]. rewrite !be_value_cons, Hlen. intros E.
  pose proof (be_value_bound a) as Ba. pose proof (be_value_bound b) as Bb.
  rewrite Hlen in Ba. pose proof (byte_val_range x). pose proof (byte_val_range y).
  assert (byte_val x = byte_val y) as Exy by nia.
  f_equal; [|apply IH; [done|nia]].
  apply N_of_ascii_inj. unfold byte_val in Exy. lia.
Qed.

(** Big-endian strings of one length are ordered as their values. *)
Lemma be_compare a b :
  length a = length b -> bytes_compare a b = Z.compare (be_value a) (be_value b).
Proof.
  revert b. induction a as [|x a IH]; intros [|y b]; simpl; try done.
  intros [= Hlen]. rewrite !be_value_cons, Hlen, (IH b Hlen).
  pose proof (be_value_bound a) as Ba. pose proof (be_value_bound b) as Bb.
  rewrite Hlen in Ba. unfold byte_val.
  destruct (N.compare_spec (N_of_ascii x) (N_of_ascii y)) as [E|E|E].
  - rewrite E. symmetry. destruct (Z.compare_spec (be_value a) (be_value b));
      [apply Z.compare_eq_iff|apply Z.compare_lt_iff|apply Z.compare_gt_iff]; lia.
  - symmetry. apply Z.compare_lt_iff. nia.
  - symmetry. apply Z.compare_gt_iff. nia.
Qed.

(** ** Lemmas: sorted lists *)

Lemma StronglySorted_fmap_inv {A B} (f : A -> B) (R : relation B) l :
  StronglySorted R (f <$> l) -> StronglySorted (fun x y => R (f x) (f y)) l.
Proof.
  induction l as [|x l IH]; simpl; intros Hs; constructor;
    inversion_clear Hs as [|? ? Hs' Hx]; [by apply IH|].
  by rewrite Forall_fmap in Hx.
Qed.

Lemma filter_all {A} (P : A -> Prop) `{!forall x, Decision (P x)} l :
  Forall P l -> filter P l = l.
Proof.
  induction 1 as [|x l Hx _ IH]; [done|]. rewrite filter_cons_True by done. by rewrite IH.
Qed.

Lemma filter_none {A} (P : A -> Prop) `{!forall x, Decision (P x)} l :
  Forall (fun x => ~ P x) l -> filter P l = [].
Proof.
  induction 1 as [|x l Hx _ IH]; [done|]. by rewrite filter_cons_False.
Qed.
