(* ===== verification/Bolt.v ===== *)
(** * The key-value layer: [pkg/bbolt]

    The storage engine [go.etcd.io/bbolt] is a parameter, the class [Bolt], with
    its documented behaviour in [BoltSpec]; [encoding/json] is a parameter, the
    class [JSON], with its documented behaviour in [JSONSpec].  On top of them
    this file models the code of pkg/bbolt that runs against a [Querier]: the
    three bucket implementations (bucket.go, querier.go), the codec (codec.go)
    and the generic executors (executor.go).  Transactions are in Manager.v. *)

From S2P Require Import Prelude.
From stdpp Require Import base list gmap strings sorting.
From Stdlib Require Import Ascii ZArith Lia.
Open Scope Z_scope.

(** ** The engine and the codec, as parameters *)

(** One top-level bucket of the engine. *)
Class Bolt := {
  bucket : Type;
  bolt_empty : bucket;
  bolt_Get : bucket -> bytes -> option bytes;
  bolt_Put : bucket -> bytes -> bytes -> error + bucket;
  bolt_Delete : bucket -> bytes -> error + bucket;
  (** every pair, in the order [ForEach] and a cursor visit them *)
  bolt_pairs : bucket -> list (bytes * bytes);
}.

(** bbolt.MaxKeySize and bbolt.MaxValueSize. *)
Definition MaxKeySize : Z := 32768.
Definition MaxValueSize : Z := 2 ^ 31 - 2.

(** What a bucket holds. *)
Definition bview `{Bolt} (b : bucket) : gmap bytes bytes := list_to_map (bolt_pairs b).

Class BoltSpec `{Bolt} : Prop := {
  bolt_pairs_empty : bolt_pairs bolt_empty = [];
  bolt_pairs_sorted b : StronglySorted blt (bolt_pairs b).*1;
  bolt_Get_view b k : bolt_Get b k = bview b !! k;
  bolt_Put_view b k v b' :
    bolt_Put b k v = inr b' -> bview b' = <[k:=v]> (bview b);
  bolt_Put_ok b k v :
    k <> [] -> Z.of_nat (length k) <= MaxKeySize ->
    Z.of_nat (length v) <= MaxValueSize -> exists b', bolt_Put b k v = inr b';
  bolt_Delete_view b k b' :
    bolt_Delete b k = inr b' -> bview b' = delete k (bview b);
  bolt_Delete_ok b k : exists b', bolt_Delete b k = inr b';
}.

(** [json.Marshal] and [json.Unmarshal] at one type. *)
Class JSON (A : Type) := {
  json_Marshal : A -> error + bytes;
  json_Unmarshal : bytes -> error + A;
}.

(** The values of a type that encoding/json writes and reads back unchanged up
    to [json_canon] (an [omitempty] field that is empty comes back as nil). *)
Class Representable (A : Type) := {
  json_wf : A -> Prop;
  json_canon : A -> A;
}.

Class JSONSpec (A : Type) `{JSON A, Representable A} : Prop := {
  json_Marshal_ok v : json_wf v -> exists d, json_Marshal v = inr d;
  json_roundtrip v d :
    json_wf v -> json_Marshal v = inr d -> json_Unmarshal d = inr (json_canon v);
}.

(** The readings of [time.Now()], in order, in nanoseconds. *)
Class Clock := now_at : nat -> Z.

(** Whether the engine refuses to begin or to commit the [n]-th transaction
    (a closed database, a failed disk write). *)
Class Disk := {
  begin_fault : nat -> option error;
  commit_fault : nat -> option error;
}.

(** ** Code that runs against a Querier

    A [Querier] is backed by a transaction or opens a transaction per call
    ([QAuto]).  An auto write waits for the single writer, so it deadlocks when
    the same goroutine already holds a writable transaction ([busy]). *)

Inductive qkind :=
| QTx (writable : bool)
| QAuto (busy : bool).

Abbreviation DB := (gmap string bucket).

Record TS `{Bolt} := mkTS { ts_db : DB; ts_tick : nat }.

Definition TxM `{Bolt} (A : Type) : Type := qkind -> TS -> outcome A * TS.

Section monad.
Context `{Bolt}.

#[global] Instance TxM_ret : MRet TxM := fun A a q s => (Ok a, s).
#[global] Instance TxM_bind : MBind TxM := fun A B f m q s =>
  match m q s with
  | (Ok a, s') => f a q s'
  | (Err e, s') => (Err e, s')
  | (Crash c, s') => (Crash c, s')
  end.

Definition txfail {A} (e : error) : TxM A := fun q s => (Err e, s).

(** [if err != nil { return fmt.Errorf(fmt, args..., err) }] *)
Definition wrapE {A} (fmt : string) (args : list farg) (m : TxM A) : TxM A :=
  fun q s => let '(r, s') := m q s in (map_err (EWrap fmt args) r, s').

(** The error as a value, for code that inspects it. *)
Definition attempt {A} (m : TxM A) : TxM (error + A) := fun q s =>
  match m q s with
  | (Ok a, s') => (Ok (inr a), s')
  | (Err e, s') => (Ok (inl e), s')
  | (Crash c, s') => (Crash c, s')
  end.

(** [time.Now()] *)
Definition Now `{Clock} : TxM Z := fun q s =>
  (Ok (now_at (ts_tick s)), mkTS _ (ts_db s) (S (ts_tick s))).

(** A [for] loop over a list, with [continue] and [break]. *)
Inductive flow (A : Type) := Continue (a : A) | Break (a : A).

Fixpoint forM {A X} (l : list X) (body : X -> A -> TxM (flow A)) (acc : A) : TxM A :=
  match l with
  | [] => mret acc
  | x :: l' =>
      r ← body x acc;
      match r with
      | Continue _ a => forM l' body a
      | Break _ a => mret a
      end
  end.
End monad.
Arguments Continue {A} a.
Arguments Break {A} a.
Arguments mkTS {_} ts_db ts_tick.

(** ** Buckets and cursors *)

(** A cursor: the pairs before its position, nearest first, and the pairs from
    its position on. *)
Record cursor := mkCursor {
  cur_before : list (bytes * bytes);
  cur_after : list (bytes * bytes);
}.

(** The pair at the cursor; [None] is Go's [(nil, nil)]. *)
Definition cur_kv (c : cursor) : option (bytes * bytes) := head (cur_after c).

Definition emptyCursor : cursor := mkCursor [] [].

Definition cur_all (c : cursor) : list (bytes * bytes) := rev (cur_before c) ++ cur_after c.

Definition cursor_First (c : cursor) : cursor := mkCursor [] (cur_all c).

Definition cursor_Next (c : cursor) : cursor :=
  match cur_after c with
  | [] => c
  | x :: r => mkCursor (x :: cur_before c) r
  end.

Definition cursor_Prev (c : cursor) : cursor :=
  match cur_before c with
  | [] => mkCursor [] []
  | x :: r => mkCursor r (x :: cur_after c)
  end.

(** The last pair, with everything before it behind the cursor. *)
Definition cursor_Last (c : cursor) : cursor :=
  cursor_Prev (mkCursor (rev (cur_all c)) []).

(** The split of a pair list at the first key [>= k]. *)
Fixpoint seek_split (k : bytes) (before after : list (bytes * bytes)) : cursor :=
  match after with
  | [] => mkCursor before []
  | x :: r =>
      if bytes_ltb x.1 k then seek_split k (x :: before) r
      else mkCursor before after
  end.

Definition cursor_Seek (k : bytes) (c : cursor) : cursor := seek_split k [] (cur_all c).

Section bucket.
Context `{Bolt}.

Definition lookup_bucket (name : string) (s : TS) : option bucket := ts_db s !! name.

Definition set_bucket (name : string) (b : bucket) (s : TS) : TS :=
  mkTS (<[name:=b]> (ts_db s)) (ts_tick s).

Definition bucketNotFound (name : string) : error :=
  EWrap "bucket %q: %w" [FStr (str name)] (ESentinel BboltErrBucketNotFound).

(** [q.Bucket(name).Get(key)] for txBucket, missingBucket and autoBucket. *)
Definition bucket_Get (name : string) (key : bytes) : TxM (option bytes) := fun q s =>
  match lookup_bucket name s with
  | None => (Ok None, s)
  | Some b => (Ok (bolt_Get b key), s)
  end.

(** A write of one bucket, shared by Put and Delete: [fmt] is the wrapper's text
    and [op] the engine's operation.  txBucket writes through, missingBucket
    refuses, autoBucket opens its own writable transaction. *)
Definition bucket_write (fmt : string) (op : bucket -> error + bucket) (name : string) :
    TxM unit := fun q s =>
  match q with
  | QTx writable =>
      match lookup_bucket name s with
      | None => (Err (bucketNotFound name), s)
      | Some b =>
          if writable then
            match op b with
            | inl e => (Err (EWrap fmt [] e), s)
            | inr b' => (Ok tt, set_bucket name b' s)
            end
          else (Err (EWrap fmt [] (ESentinel BoltErrTxNotWritable)), s)
      end
  | QAuto busy =>
      if busy then (Crash Deadlock, s) else
      match lookup_bucket name s with
      | None => (Err (EWrap fmt [] (bucketNotFound name)), s)
      | Some b =>
          match op b with
          | inl e => (Err (EWrap fmt [] e), s)
          | inr b' => (Ok tt, set_bucket name b' s)
          end
      end
  end.

Definition bucket_Put (name : string) (key value : bytes) : TxM unit :=
  bucket_write "bbolt put: %w" (fun b => bolt_Put b key value) name.

Definition bucket_Delete (name : string) (key : bytes) : TxM unit :=
  bucket_write "bbolt delete: %w" (fun b => bolt_Delete b key) name.

(** [q.Bucket(name).ForEach(fn)], [fn] folding an accumulator. *)
Definition bucket_ForEach {A} (name : string) (fn : bytes -> bytes -> A -> TxM A) (acc : A) :
    TxM A := fun q s =>
  match lookup_bucket name s with
  | None =>
      match q with
      | QTx _ => (Err (bucketNotFound name), s)
      | QAuto _ => (Err (EWrap "bbolt foreach: %w" [] (bucketNotFound name)), s)
      end
  | Some b =>
      wrapE "bbolt foreach: %w" []
        (forM (bolt_pairs b) (fun kv a => a' ← fn kv.1 kv.2 a; mret (Continue a')) acc) q s
  end.

(** [q.Bucket(name).Cursor()]: cursors exist only inside a transaction. *)
Definition bucket_Cursor (name : string) : TxM cursor := fun q s =>
  match q with
  | QTx _ =>
      match lookup_bucket name s with
      | None => (Ok emptyCursor, s)
      | Some b => (Ok (mkCursor [] (bolt_pairs b)), s)
      end
  | QAuto _ => (Ok emptyCursor, s)
  end.
End bucket.

(** The hand-written [hasPrefix] of executor.go: a length test, then a loop over
    the positions of the prefix. *)
Fixpoint hasPrefix_loop (s prefix : bytes) (i n : nat) : bool :=
  match n with
  | O => true
  | S n' =>
      if decide (s !! i = prefix !! i) then hasPrefix_loop s prefix (S i) n' else false
  end.

Definition hasPrefix (s prefix : bytes) : bool :=
  if (length s <? length prefix)%nat then false
  else hasPrefix_loop s prefix 0 (length prefix).

(** ** The codec and the generic executors (codec.go, executor.go) *)

(** Used qualified, as in Go: [bbolt.Get], [bbolt.Put], ... *)
Module bbolt.

Section executor.
Context `{Bolt} {T : Type} `{JSON T}.

Definition JSONCodec_Marshal (v : T) : error + bytes :=
  match json_Marshal v with
  | inl e => inl (EWrap "json marshal: %w" [] e)
  | inr d => inr d
  end.

Definition JSONCodec_Unmarshal (d : bytes) : error + T :=
  match json_Unmarshal d with
  | inl e => inl (EWrap "json unmarshal: %w" [] e)
  | inr v => inr v
  end.

(** [Get[T]] / [GetWithCodec[T]] with the JSON codec. *)
Definition Get (bkt : string) (key : bytes) : TxM T :=
  data ← bucket_Get bkt key;
  match data with
  | None =>
      txfail (EWrap "key %q in bucket %q: %w" [FStr key; FStr (str bkt)]
                (ESentinel BboltErrNotFound))
  | Some d =>
      match JSONCodec_Unmarshal d with
      | inl e => txfail (EWrap "decode %q: %w" [FStr key] e)
      | inr out => mret out
      end
  end.

(** [Put[T]] / [PutWithCodec[T]]. *)
Definition Put (bkt : string) (key : bytes) (value : T) : TxM unit :=
  match JSONCodec_Marshal value with
  | inl e => txfail (EWrap "encode %q: %w" [FStr key] e)
  | inr data => wrapE "put %q: %w" [FStr key] (bucket_Put bkt key data)
  end.

(** [List[T]] / [ListWithCodec[T]]. *)
Definition List (bkt : string) : TxM (list T) :=
  wrapE "list bucket %q: %w" [FStr (str bkt)]
    (bucket_ForEach bkt (fun _ v out =>
       match JSONCodec_Unmarshal v with
       | inl e => txfail (EWrap "decode: %w" [] e)
       | inr item => mret (out ++ [item])
       end) []).

(** [Scan[T]] / [ScanWithCodec[T]]. *)
Definition Scan (bkt : string) (prefix : bytes) : TxM (list T) :=
  c ← bucket_Cursor bkt;
  forM (cur_after (cursor_Seek prefix c)) (fun kv out =>
    if hasPrefix kv.1 prefix then
      match JSONCodec_Unmarshal kv.2 with
      | inl e => txfail (EWrap "decode %q: %w" [FStr kv.1] e)
      | inr item => mret (Continue (out ++ [item]))
      end
    else mret (Break out)) [].
End executor.

Section executor_untyped.
Context `{Bolt}.

(** [Delete] of executor.go. *)
Definition Delete (bkt : string) (key : bytes) : TxM unit :=
  wrapE "delete %q: %w" [FStr key] (bucket_Delete bkt key).

(** [Exists]. *)
Definition Exists (bkt : string) (key : bytes) : TxM bool :=
  data ← bucket_Get bkt key;
  mret (match data with Some _ => true | None => false end).
End executor_untyped.

End bbolt.

(** ** The view of a database

    All that the code can observe of a database: which buckets exist and which
    value each (bucket, key) holds.  Writes are inserts and deletes of one map. *)

Abbreviation View := (gmap (string * bytes) bytes).

Definition view `{Bolt} (db : DB) : View := map_uncurry (bview <$> db).

(** The pairs of one bucket in key order; none when the bucket is missing. *)
Definition db_pairs `{Bolt} (db : DB) (name : string) : list (bytes * bytes) :=
  match db !! name with Some b => bolt_pairs b | None => [] end.

Section view_facts.
Context `{BoltSpec}.
Implicit Types (s : TS) (db : DB).

Lemma lookup_view db n k : view db !! (n, k) = db !! n ≫= fun b => bview b !! k.
Proof.
  unfold view. rewrite lookup_map_uncurry, lookup_fmap. by destruct (db !! n).
Qed.

Lemma NoDup_keys b : NoDup (bolt_pairs b).*1.
Proof.
  generalize (bolt_pairs_sorted b). generalize ((bolt_pairs b).*1).
  induction 1 as [|x l ? IH Hx]; constructor; [|done].
  rewrite Forall_forall in Hx. intros Hin. by apply Hx, blt_irrefl in Hin.
Qed.

Lemma db_pairs_sorted db n : StronglySorted blt (db_pairs db n).*1.
Proof. unfold db_pairs. destruct (db !! n); [apply bolt_pairs_sorted|constructor]. Qed.

Lemma elem_of_db_pairs db n k v : (k, v) ∈ db_pairs db n <-> view db !! (n, k) = Some v.
Proof.
  rewrite lookup_view. unfold db_pairs. destruct (db !! n) as [b|]; simpl; [|set_solver].
  unfold bview. apply elem_of_list_to_map, NoDup_keys.
Qed.

(** A bucket's pairs are determined by the view. *)
Lemma db_pairs_view db db' n : view db = view db' -> db_pairs db n = db_pairs db' n.
Proof.
  intros E.
  assert (Hnd : forall d, NoDup (db_pairs d n)).
  { intros d. apply (NoDup_fmap_1 fst). unfold db_pairs.
    destruct (d !! n); [apply NoDup_keys|constructor]. }
  apply (StronglySorted_unique_strong (fun x y => blt x.1 y.1)).
  - intros x y _ _ H1 H2. exfalso. by eapply blt_irrefl, blt_trans.
  - apply StronglySorted_fmap_inv, db_pairs_sorted.
  - apply StronglySorted_fmap_inv, db_pairs_sorted.
  - apply NoDup_Permutation; [done..|]. intros [k v]. by rewrite !elem_of_db_pairs, E.
Qed.

Lemma view_insert db n b b' k v :
  db !! n = Some b -> bview b' = <[k:=v]> (bview b) ->
  view (<[n:=b']> db) = <[(n, k):=v]> (view db).
Proof.
  intros Hn Hb. apply map_eq. intros [n' k'].
  rewrite lookup_view, !lookup_insert, lookup_view.
  case_decide as D1; case_decide as D2; simplify_eq/=; rewrite ?Hn, ?Hb; simpl;
    by rewrite ?lookup_insert_eq, ?lookup_insert_ne by congruence.
Qed.

Lemma view_delete db n b b' k :
  db !! n = Some b -> bview b' = delete k (bview b) ->
  view (<[n:=b']> db) = delete (n, k) (view db).
Proof.
  intros Hn Hb. apply map_eq. intros [n' k'].
  rewrite lookup_view, !lookup_insert, lookup_delete, lookup_view.
  case_decide as D1; case_decide as D2; simplify_eq/=; rewrite ?Hn, ?Hb; simpl;
    by rewrite ?lookup_delete_eq, ?lookup_delete_ne by congruence.
Qed.

(** ** Running code: evaluation and inversion lemmas *)

Lemma bind_Ok {A B} (m : TxM A) (f : A -> TxM B) q s b s' :
  (m ≫= f) q s = (Ok b, s') <->
  exists a s1, m q s = (Ok a, s1) /\ f a q s1 = (Ok b, s').
Proof.
  unfold mbind, TxM_bind. destruct (m q s) as [[a|e|c] s1]; split; intros Hr.
  all: repeat match goal with Hx : exists _, _ |- _ => destruct Hx | Hx : _ /\ _ |- _ => destruct Hx end.
  all: simplify_eq; eauto.
Qed.

Lemma bind_eval {A B} (m : TxM A) (f : A -> TxM B) q s a s1 :
  m q s = (Ok a, s1) -> (m ≫= f) q s = f a q s1.
Proof. unfold mbind, TxM_bind. by intros ->. Qed.

Lemma ret_Ok {A} (a b : A) q s s' : (mret a : TxM A) q s = (Ok b, s') <-> b = a /\ s' = s.
Proof. unfold mret, TxM_ret. naive_solver. Qed.

Lemma wrapE_Ok {A} fmt args (m : TxM A) q s a s' :
  wrapE fmt args m q s = (Ok a, s') <-> m q s = (Ok a, s').
Proof. unfold wrapE. destruct (m q s) as [[]]; simpl; naive_solver. Qed.

Lemma wrapE_state {A} fmt args (m : TxM A) q s : (wrapE fmt args m q s).2 = (m q s).2.
Proof. unfold wrapE. by destruct (m q s). Qed.

Lemma bucket_Get_eval n k q s :
  bucket_Get n k q s = (Ok (view (ts_db s) !! (n, k)), s).
Proof.
  unfold bucket_Get, lookup_bucket. rewrite lookup_view.
  destruct (ts_db s !! n); simpl; [by rewrite bolt_Get_view|done].
Qed.

Lemma bucket_Cursor_eval n w s :
  bucket_Cursor n (QTx w) s = (Ok (mkCursor [] (db_pairs (ts_db s) n)), s).
Proof.
  unfold bucket_Cursor, lookup_bucket, db_pairs. by destruct (ts_db s !! n).
Qed.

(** A successful write changes one key of the view and nothing else. *)
Lemma bucket_Put_Ok n k v q s u s' :
  bucket_Put n k v q s = (Ok u, s') ->
  view (ts_db s') = <[(n, k):=v]> (view (ts_db s)) /\ ts_tick s' = ts_tick s /\
  dom (ts_db s') = dom (ts_db s).
Proof.
  unfold bucket_Put, bucket_write, lookup_bucket, set_bucket. intros Hr.
  destruct q as [w|busy]; [destruct (ts_db s !! n) as [b|] eqn:Hn, w
                          |destruct busy, (ts_db s !! n) as [b|] eqn:Hn]; try done;
    destruct (bolt_Put b k v) as [e|b'] eqn:Hp; simplify_eq/=;
    (split; [|split]); [|done| |  |done|]; try (by eapply view_insert, bolt_Put_view).
  all: rewrite dom_insert_L; apply elem_of_dom_2 in Hn; set_solver.
Qed.

Lemma bucket_Delete_Ok n k q s u s' :
  bucket_Delete n k q s = (Ok u, s') ->
  view (ts_db s') = delete (n, k) (view (ts_db s)) /\ ts_tick s' = ts_tick s /\
  dom (ts_db s') = dom (ts_db s).
Proof.
  unfold bucket_Delete, bucket_write, lookup_bucket, set_bucket. intros Hr.
  destruct q as [w|busy]; [destruct (ts_db s !! n) as [b|] eqn:Hn, w
                          |destruct busy, (ts_db s !! n) as [b|] eqn:Hn]; try done;
    destruct (bolt_Delete b k) as [e|b'] eqn:Hp; simplify_eq/=;
    (split; [|split]); [|done| |  |done|]; try (by eapply view_delete, bolt_Delete_view).
  all: rewrite dom_insert_L; apply elem_of_dom_2 in Hn; set_solver.
Qed.

(** A write within the engine's limits, to an existing bucket of a writable
    transaction, succeeds. *)
Lemma bucket_Put_succeeds n k v s :
  is_Some (ts_db s !! n) -> k <> [] -> Z.of_nat (length k) <= MaxKeySize ->
  Z.of_nat (length v) <= MaxValueSize ->
  exists s', bucket_Put n k v (QTx true) s = (Ok tt, s').
Proof.
  intros [b Hn] Hk Hl Hv. unfold bucket_Put, bucket_write, lookup_bucket. rewrite Hn.
  destruct (bolt_Put_ok b k v Hk Hl Hv) as [b' ->]. eauto.
Qed.

Lemma bucket_Delete_succeeds n k s :
  is_Some (ts_db s !! n) -> exists s', bucket_Delete n k (QTx true) s = (Ok tt, s').
Proof.
  intros [b Hn]. unfold bucket_Delete, bucket_write, lookup_bucket. rewrite Hn.
  destruct (bolt_Delete_ok b k) as [b' ->]. eauto.
Qed.

Lemma bucket_write_fail_state fmt op n q s e s' :
  bucket_write fmt op n q s = (Err e, s') -> s' = s.
Proof.
  unfold bucket_write. intros Hr. repeat (case_match; simplify_eq/=; try done).
Qed.

Lemma Now_eval `{Clock} q s :
  Now q s = (Ok (now_at (ts_tick s)), mkTS (ts_db s) (S (ts_tick s))).
Proof. done. Qed.

Section typed.
Context {T : Type} `{JSON T}.

Lemma Get_eval n k q s :
  bbolt.Get (T:=T) n k q s =
  (match view (ts_db s) !! (n, k) with
   | None => Err (EWrap "key %q in bucket %q: %w" [FStr k; FStr (str n)]
                    (ESentinel BboltErrNotFound))
   | Some d => match bbolt.JSONCodec_Unmarshal d with
               | inl e => Err (EWrap "decode %q: %w" [FStr k] e)
               | inr v => Ok v
               end
   end, s).
Proof.
  unfold bbolt.Get. rewrite (bind_eval _ _ _ _ _ _ (bucket_Get_eval n k q s)).
  destruct (view (ts_db s) !! (n, k)) as [d|]; [|done].
  by destruct (bbolt.JSONCodec_Unmarshal d).
Qed.

Lemma Put_Ok n k (v : T) q s u s' :
  bbolt.Put n k v q s = (Ok u, s') ->
  exists d, json_Marshal v = inr d /\
    view (ts_db s') = <[(n, k):=d]> (view (ts_db s)) /\ ts_tick s' = ts_tick s /\
    dom (ts_db s') = dom (ts_db s).
Proof.
  unfold bbolt.Put, bbolt.JSONCodec_Marshal. destruct (json_Marshal v) as [e|d]; [done|].
  rewrite wrapE_Ok. intros Hr%bucket_Put_Ok. eauto.
Qed.

Lemma Put_succeeds n k (v : T) d s :
  json_Marshal v = inr d -> is_Some (ts_db s !! n) -> k <> [] ->
  Z.of_nat (length k) <= MaxKeySize -> Z.of_nat (length d) <= MaxValueSize ->
  exists s', bbolt.Put n k v (QTx true) s = (Ok tt, s').
Proof.
  intros Hd Hn Hk Hl Hv. unfold bbolt.Put, bbolt.JSONCodec_Marshal. rewrite Hd.
  destruct (bucket_Put_succeeds n k d s) as [s' Hs']; [done..|].
  exists s'. by rewrite wrapE_Ok.
Qed.
End typed.

Lemma Delete_Ok n k q s u s' :
  bbolt.Delete n k q s = (Ok u, s') ->
  view (ts_db s') = delete (n, k) (view (ts_db s)) /\ ts_tick s' = ts_tick s /\
  dom (ts_db s') = dom (ts_db s).
Proof. unfold bbolt.Delete. rewrite wrapE_Ok. apply bucket_Delete_Ok. Qed.

Lemma Exists_eval n k q s :
  bbolt.Exists n k q s = (Ok (bool_decide (is_Some (view (ts_db s) !! (n, k)))), s).
Proof.
  unfold bbolt.Exists. rewrite (bind_eval _ _ _ _ _ _ (bucket_Get_eval n k q s)).
  by destruct (view (ts_db s) !! (n, k)).
Qed.
End view_facts.

(** ** Cursors and loops *)

Fixpoint take_while {X} (P : X -> bool) (l : list X) : list X :=
  match l with
  | [] => []
  | x :: l' => if P x then x :: take_while P l' else []
  end.

Section cursor_facts.
Implicit Types (l : list (bytes * bytes)) (k p : bytes).

Lemma seek_split_sorted k before l :
  StronglySorted blt l.*1 ->
  seek_split k before l =
  mkCursor (rev (filter (fun kv => blt kv.1 k) l) ++ before)
           (filter (fun kv => ~ blt kv.1 k) l).
Proof.
  revert before. induction l as [|x l IH]; simpl; intros before Hs; [done|].
  inversion_clear Hs as [|? ? Hs' Hx]. destruct (bytes_ltb x.1 k) eqn:E.
  - apply bytes_ltb_lt in E. rewrite IH by done.
    rewrite filter_cons_True, filter_cons_False by auto. simpl. by rewrite <- app_assoc.
  - apply bytes_ltb_ge in E.
    assert (Hge : Forall (fun kv => ~ blt kv.1 k) l).
    { apply Forall_forall. intros y Hy Hlt. apply E.
      rewrite Forall_fmap, Forall_forall in Hx. by etransitivity; [apply Hx|]. }
    rewrite filter_cons_False, filter_cons_True by done.
    rewrite (filter_all (fun kv => ~ blt kv.1 k) l) by done.
    by rewrite (filter_none (fun kv => blt kv.1 k) l) by done.
Qed.

Lemma cursor_Seek_sorted k l :
  StronglySorted blt l.*1 ->
  cursor_Seek k (mkCursor [] l) =
  mkCursor (rev (filter (fun kv => blt kv.1 k) l)) (filter (fun kv => ~ blt kv.1 k) l).
Proof.
  intros Hs. unfold cursor_Seek, cur_all. simpl.
  rewrite seek_split_sorted by done. by rewrite app_nil_r.
Qed.

(** The pairs a prefix scan visits are exactly those whose key has the prefix. *)
Lemma seek_prefix_filter p l :
  StronglySorted blt l.*1 ->
  take_while (fun kv => has_prefix kv.1 p) (filter (fun kv => ~ blt kv.1 p) l) =
  filter (fun kv => has_prefix kv.1 p) l.
Proof.
  induction l as [|x l IH]; intros Hs; [done|].
  inversion_clear Hs as [|? ? Hs' Hx]. destruct (decide (blt x.1 p)) as [E|E].
  - rewrite filter_cons_False by auto. rewrite IH by done.
    rewrite (filter_cons_False (fun kv => has_prefix kv.1 p)); [done|].
    intros Hp%Is_true_true. by apply has_prefix_ge in Hp.
  - rewrite filter_cons_True by done. simpl take_while.
    destruct (has_prefix x.1 p) eqn:Ep.
    + rewrite filter_cons_True by by rewrite Ep. by rewrite IH.
    + symmetry. apply filter_none. constructor; [rewrite Ep; simpl; tauto|].
      rewrite Forall_fmap in Hx. eapply Forall_impl; [done|]. intros y Hy.
      rewrite (has_prefix_interval p x.1 y.1); [simpl; tauto|done|done|].
      intros Hlt. eapply blt_irrefl, blt_trans; done.
Qed.
End cursor_facts.

Lemma hasPrefix_loop_spec s p i n :
  hasPrefix_loop s p i n = true <-> forall j, (i <= j < i + n)%nat -> s !! j = p !! j.
Proof.
  revert i. induction n as [|n IH]; intros i; simpl; [split; [lia|done]|].
  case_decide as E.
  - rewrite IH. split; intros Hj j ?; [|apply Hj; lia].
    destruct (decide (j = i)) as [->|]; [done|apply Hj; lia].
  - split; [done|]. intros Hj. exfalso. apply E, Hj. lia.
Qed.

(** The hand-written prefix test decides the prefix relation. *)
Lemma hasPrefix_has_prefix s p : hasPrefix s p = has_prefix s p.
Proof.
  apply eq_true_iff_eq. rewrite has_prefix_spec. unfold hasPrefix.
  destruct (Nat.ltb_spec (length s) (length p)) as [E|E].
  { split; [done|]. intros [t ->]. rewrite length_app in E. lia. }
  rewrite hasPrefix_loop_spec. split.
  - intros Hj. exists (drop (length p) s). rewrite <- (take_drop (length p) s) at 1.
    f_equal. apply list_eq. intros i. destruct (decide (i < length p)%nat).
    + rewrite lookup_take_lt by done. apply Hj. lia.
    + rewrite !lookup_ge_None_2; [done|lia|]. rewrite length_take. lia.
  - intros [t ->] j ?. apply lookup_app_l. lia.
Qed.

Section loop_facts.
Context `{Bolt}.

(** A loop whose body only extends the accumulator is a fold. *)
Lemma forM_pure {A X} (f : A -> X -> A) (body : X -> A -> TxM (flow A)) l acc q s :
  (forall x a, body x a q s = (Ok (Continue (f a x)), s)) ->
  forM l body acc q s = (Ok (foldl f acc l), s).
Proof.
  intros Hb. revert acc. induction l as [|x l IH]; intros acc; simpl; [done|].
  unfold mbind, TxM_bind. by rewrite Hb.
Qed.

(** A loop that appends one result per element, and stops at the first error. *)
Fixpoint collect {X Y} (g : X -> error + Y) (l : list X) : outcome (list Y) :=
  match l with
  | [] => Ok []
  | x :: l' =>
      match g x with
      | inl e => Err e
      | inr y => match collect g l' with
                 | Ok ys => Ok (y :: ys)
                 | Err e => Err e
                 | Crash c => Crash c
                 end
      end
  end.

(** The loop may also break at the first element that fails a test. *)
Lemma forM_collect_while {X Y} (P : X -> bool) (g : X -> error + Y)
    (body : X -> list Y -> TxM (flow (list Y))) l acc q s :
  (forall x a, P x = true -> body x a q s =
     (match g x with inl e => Err e | inr y => Ok (Continue (a ++ [y])) end, s)) ->
  (forall x a, P x = false -> body x a q s = (Ok (Break a), s)) ->
  forM l body acc q s =
  (match collect g (take_while P l) with
   | Ok ys => Ok (acc ++ ys) | Err e => Err e | Crash c => Crash c end, s).
Proof.
  intros HT HF. revert acc. induction l as [|x l IH]; intros acc; simpl.
  { by rewrite app_nil_r. }
  unfold mbind, TxM_bind. destruct (P x) eqn:E.
  - rewrite (HT x acc E). simpl. destruct (g x) as [e|y]; [done|].
    rewrite IH. destruct (collect g _); try done. by rewrite <- app_assoc.
  - rewrite (HF x acc E). simpl. by rewrite app_nil_r.
Qed.

Lemma take_while_true {X} (l : list X) : take_while (fun _ => true) l = l.
Proof. induction l; simpl; congruence. Qed.

Lemma forM_collect {X Y} (g : X -> error + Y) (body : X -> list Y -> TxM (flow (list Y)))
    l acc q s :
  (forall x a, body x a q s =
     (match g x with inl e => Err e | inr y => Ok (Continue (a ++ [y])) end, s)) ->
  forM l body acc q s =
  (match collect g l with Ok ys => Ok (acc ++ ys) | Err e => Err e | Crash c => Crash c end, s).
Proof.
  intros Hb. rewrite (forM_collect_while (fun _ => true) g); [|auto|done].
  by rewrite take_while_true.
Qed.

Lemma collect_Ok {X Y} (g : X -> error + Y) l ys :
  collect g l = Ok ys <-> Forall2 (fun x y => g x = inr y) l ys.
Proof.
  revert ys. induction l as [|x l IH]; intros ys; simpl.
  { split; [by intros [= <-]|]. intros ->%Forall2_nil_inv_l. done. }
  destruct (g x) as [e|y] eqn:Ex.
  { split; [done|]. inversion 1; congruence. }
  destruct (collect g l) as [zs|e|c] eqn:Ec; split; intros Hr; simplify_eq.
  - constructor; [done|by apply IH].
  - inversion Hr as [|? z ? zs' Hz Hzs]; subst.
    apply IH in Hzs. rewrite Ex in Hz. congruence.
  - inversion Hr as [|? z ? zs' Hz Hzs]; subst. by apply IH in Hzs.
  - inversion Hr as [|? z ? zs' Hz Hzs]; subst. by apply IH in Hzs.
Qed.
End loop_facts.
