(* ===== verification/Keys.v ===== *)
(** * Storage keys: internal/storage/bbolt/config/keys.go

    The encoding of (namespace, path) and (namespace, path, revision) as bucket
    keys, and of revisions as 8 big-endian bytes.  The same three functions are
    repeated in internal/storage/bbolt/namespace/keys.go and store.go. *)

From S2P Require Import Prelude.
From stdpp Require Import base list gmap strings.
From Stdlib Require Import Ascii ZArith Lia.
Open Scope Z_scope.

Definition keySep : ascii := Ascii.zero.

Definition revisionSize : nat := 8.

Definition configKey (namespace path : bytes) : bytes := namespace ++ [keySep] ++ path.

Definition parseConfigKey (key : bytes) : bytes * bytes :=
  match cut_byte key keySep with
  | None => ([], key)
  | Some (before, after) => (before, after)
  end.

(** [None] is Go's nil: scan every key. *)
Definition configKeyPrefix (namespace pathPrefix : bytes) : option bytes :=
  if bool_decide (namespace = []) then None
  else Some (namespace ++ [keySep] ++ pathPrefix).

Definition historyPrefix (namespace path : bytes) : bytes :=
  namespace ++ [keySep] ++ path ++ [keySep].

Definition revisionBytes (rev : Z) : bytes := be_bytes revisionSize (uint64 rev).

Definition parseRevision (b : bytes) : Z :=
  if (length b <? revisionSize)%nat then 0
  else int64 (be_value (take revisionSize b)).

Definition historyKey (namespace path : bytes) (revision : Z) : bytes :=
  historyPrefix namespace path ++ revisionBytes revision.

(** A Go string without the separator byte. *)
Definition nul_free (s : bytes) : Prop := keySep ∉ s.

#[global] Instance nul_free_dec s : Decision (nul_free s).
Proof. unfold nul_free. apply _. Defined.

(** ** Facts *)

Lemma length_revisionBytes r : length (revisionBytes r) = revisionSize.
Proof. apply length_be_bytes. Qed.

Lemma parseRevision_bytes r : in_int64 r -> parseRevision (revisionBytes r) = r.
Proof.
  intros Hr. unfold parseRevision. rewrite length_revisionBytes, Nat.ltb_irrefl.
  rewrite take_ge by by rewrite length_revisionBytes.
  unfold revisionBytes. rewrite be_value_bytes.
  change (256 ^ Z.of_nat revisionSize) with two64.
  unfold uint64 at 1. rewrite Z.mod_mod by done. by apply int64_uint64.
Qed.

Lemma revisionBytes_inj r r' :
  in_int64 r -> in_int64 r' -> revisionBytes r = revisionBytes r' -> r = r'.
Proof.
  intros H H' E. by rewrite <- (parseRevision_bytes r), E, parseRevision_bytes by done.
Qed.

Lemma be_value_revisionBytes r : 0 <= r < two63 -> be_value (revisionBytes r) = r.
Proof.
  intros Hr. unfold revisionBytes. rewrite be_value_bytes.
  change (256 ^ Z.of_nat revisionSize) with two64. unfold two63, two64 in *.
  rewrite uint64_id; unfold two64; [|lia]. apply Z.mod_small. lia.
Qed.

Lemma revisionBytes_compare a b :
  0 <= a < two63 -> 0 <= b < two63 ->
  bytes_compare (revisionBytes a) (revisionBytes b) = Z.compare a b.
Proof.
  intros Ha Hb. rewrite be_compare by by rewrite !length_revisionBytes.
  by rewrite !be_value_revisionBytes.
Qed.

Lemma revisionBytes_lt a b :
  0 <= a < two63 -> 0 <= b < two63 -> blt (revisionBytes a) (revisionBytes b) <-> a < b.
Proof.
  intros Ha Hb. unfold blt. rewrite revisionBytes_compare by done. apply Z.compare_lt_iff.
Qed.

Lemma parseConfigKey_configKey ns path :
  nul_free ns -> parseConfigKey (configKey ns path) = (ns, path).
Proof.
  intros Hns. unfold parseConfigKey, configKey. simpl. by rewrite cut_byte_app.
Qed.

Lemma configKey_inj ns path ns' path' :
  nul_free ns -> nul_free ns' -> configKey ns path = configKey ns' path' ->
  ns = ns' /\ path = path'.
Proof. intros ??. apply app_sep_inj; done. Qed.

Lemma configKey_parse key :
  keySep ∈ key -> configKey (parseConfigKey key).1 (parseConfigKey key).2 = key.
Proof.
  intros Hk. unfold parseConfigKey.
  destruct (cut_byte key keySep) as [[l r]|] eqn:E; simpl.
  - by apply cut_byte_Some in E as [-> _].
  - by apply cut_byte_None in E.
Qed.

Lemma parseConfigKey_nul_free key : keySep ∈ key -> nul_free (parseConfigKey key).1.
Proof.
  intros Hk. unfold parseConfigKey, nul_free.
  destruct (cut_byte key keySep) as [[l r]|] eqn:E; simpl; [|set_solver].
  by apply cut_byte_Some in E as [_ ?].
Qed.

Lemma configKey_has_sep ns path : keySep ∈ configKey ns path.
Proof. unfold configKey. set_solver. Qed.

Lemma configKey_not_nil ns path : configKey ns path <> [].
Proof. unfold configKey. destruct ns; done. Qed.

Lemma historyPrefix_inj ns path ns' path' t t' :
  nul_free ns -> nul_free ns' -> nul_free path -> nul_free path' ->
  historyPrefix ns path ++ t = historyPrefix ns' path' ++ t' ->
  ns = ns' /\ path = path' /\ t = t'.
Proof.
  unfold historyPrefix. intros H1 H2 H3 H4. simpl. rewrite <- !app_assoc. simpl.
  rewrite <- !app_assoc. simpl.
  intros [-> E]%app_sep_inj; [|done..]. by apply app_sep_inj in E as [-> ->].
Qed.

Lemma historyKey_inj ns path r ns' path' r' :
  nul_free ns -> nul_free ns' -> nul_free path -> nul_free path' ->
  in_int64 r -> in_int64 r' ->
  historyKey ns path r = historyKey ns' path' r' -> ns = ns' /\ path = path' /\ r = r'.
Proof.
  intros ?????? (?&?&E)%historyPrefix_inj; [|done..]. by apply revisionBytes_inj in E.
Qed.

Lemma historyPrefix_matches ns path ns' path' t :
  nul_free ns -> nul_free ns' -> nul_free path -> nul_free path' ->
  has_prefix (historyPrefix ns' path' ++ t) (historyPrefix ns path) = true <->
  ns = ns' /\ path = path'.
Proof.
  intros ????. rewrite has_prefix_spec. split.
  - intros [u E]. apply historyPrefix_inj in E; naive_solver.
  - intros [-> ->]. by exists t.
Qed.

Lemma historyKey_drop ns path r :
  drop (length (historyPrefix ns path)) (historyKey ns path r) = revisionBytes r.
Proof. apply drop_app_length. Qed.

#[export] Hint Rewrite length_revisionBytes historyKey_drop : elara.
#[export] Hint Resolve configKey_has_sep configKey_not_nil : elara.

#[global] Opaque revisionBytes parseRevision.

(** ** Properties *)

(** ParseConfigKey inverts configKey for every namespace without a zero
    byte, whatever the path, so two configs never share a bucket key. *)
Theorem configKey_roundtrip ns path ns' path' :
  nul_free ns -> nul_free ns' ->
  parseConfigKey (configKey ns path) = (ns, path) /\
  (configKey ns path = configKey ns' path' <-> (ns, path) = (ns', path')).
Proof.
  intros H1 H2. split; [by apply parseConfigKey_configKey|]. split; [|by intros [= -> ->]].
  intros [-> ->]%configKey_inj; done.
Qed.

Lemma configKey_roundtrip_witness :
  parseConfigKey (configKey (str "prod") (str "/a.json")) = (str "prod", str "/a.json") /\
  configKey (str "prod") (str "/a.json") <> configKey (str "dev") (str "/a.json").
Proof.
  destruct (configKey_roundtrip (str "prod") (str "/a.json") (str "dev") (str "/a.json"))
    as [H1 H2]; [by_decide|by_decide|]. split; [done|]. by intros E%H2.
Defined.
