(* ===== verification/Sha256.v ===== *)
(** * Content hashes: crypto/sha256 and encoding/hex

    The standard library functions behind [computeHash] and
    [Config.GenerateHash] (internal/domain/config.go,
    internal/storage/bbolt/config/repository.go): FIPS 180-4 SHA-256 over 32-bit
    words, and lower-case hexadecimal. *)

From S2P Require Import Prelude.
From stdpp Require Import base list strings.
From Stdlib Require Import Ascii ZArith Lia.
Open Scope Z_scope.

Definition w32 (z : Z) : Z := Z.land z 4294967295.
Definition rotr (n x : Z) : Z := Z.lor (Z.shiftr x n) (w32 (Z.shiftl x (32 - n))).

Definition sha256_K : list Z :=
  [1116352408; 1899447441; 3049323471; 3921009573; 961987163; 1508970993; 2453635748;
   2870763221; 3624381080; 310598401; 607225278; 1426881987; 1925078388; 2162078206;
   2614888103; 3248222580; 3835390401; 4022224774; 264347078; 604807628; 770255983;
   1249150122; 1555081692; 1996064986; 2554220882; 2821834349; 2952996808; 3210313671;
   3336571891; 3584528711; 113926993; 338241895; 666307205; 773529912; 1294757372;
   1396182291; 1695183700; 1986661051; 2177026350; 2456956037; 2730485921; 2820302411;
   3259730800; 3345764771; 3516065817; 3600352804; 4094571909; 275423344; 430227734;
   506948616; 659060556; 883997877; 958139571; 1322822218; 1537002063; 1747873779;
   1955562222; 2024104815; 2227730452; 2361852424; 2428436474; 2756734187; 3204031479;
   3329325298].

Record hstate := mkH { hA : Z; hB : Z; hC : Z; hD : Z; hE : Z; hF : Z; hG : Z; hH : Z }.

Definition sha256_init : hstate :=
  mkH 1779033703 3144134277 1013904242 2773480762 1359893119 2600822924 528734635 1541459225.

(** One round, with round constant [k] and schedule word [w]. *)
Definition sha256_round (s : hstate) (kw : Z * Z) : hstate :=
  let '(k, w) := kw in
  let '(mkH a b c d e f g h) := s in
  let S1 := Z.lxor (Z.lxor (rotr 6 e) (rotr 11 e)) (rotr 25 e) in
  let ch := Z.lxor (Z.land e f) (Z.land (Z.lxor e 4294967295) g) in
  let t1 := w32 (h + S1 + ch + k + w) in
  let S0 := Z.lxor (Z.lxor (rotr 2 a) (rotr 13 a)) (rotr 22 a) in
  let maj := Z.lxor (Z.lxor (Z.land a b) (Z.land a c)) (Z.land b c) in
  let t2 := w32 (S0 + maj) in
  mkH (w32 (t1 + t2)) a b c (w32 (d + t1)) e f g.

(** The message schedule: [window] is the last 16 words, oldest first. *)
Fixpoint sha256_extend (n : nat) (window : list Z) : list Z :=
  match n with
  | O => []
  | S n' =>
      let w i := nth i window 0 in
      let s0 := Z.lxor (Z.lxor (rotr 7 (w 1%nat)) (rotr 18 (w 1%nat))) (Z.shiftr (w 1%nat) 3) in
      let s1 := Z.lxor (Z.lxor (rotr 17 (w 14%nat)) (rotr 19 (w 14%nat))) (Z.shiftr (w 14%nat) 10) in
      let x := w32 (w 0%nat + s0 + w 9%nat + s1) in
      x :: sha256_extend n' (drop 1 window ++ [x])
  end.

(** Big-endian 32-bit words of a block. *)
Fixpoint words32 (n : nat) (b : bytes) : list Z :=
  match n with
  | O => []
  | S n' => be_value (take 4 b) :: words32 n' (drop 4 b)
  end.

Definition sha256_block (s : hstate) (block : bytes) : hstate :=
  let w := words32 16 block in
  let s' := foldl sha256_round s (zip sha256_K (w ++ sha256_extend 48 w)) in
  mkH (w32 (hA s + hA s')) (w32 (hB s + hB s')) (w32 (hC s + hC s')) (w32 (hD s + hD s'))
      (w32 (hE s + hE s')) (w32 (hF s + hF s')) (w32 (hG s + hG s')) (w32 (hH s + hH s')).

Fixpoint sha256_blocks (n : nat) (s : hstate) (b : bytes) : hstate :=
  match n with
  | O => s
  | S n' => sha256_blocks n' (sha256_block s (take 64 b)) (drop 64 b)
  end.

(** Padding: a one bit, zeros up to 56 modulo 64, the bit length in 8 bytes. *)
Definition sha256_pad (m : bytes) : bytes :=
  let l := Z.of_nat (length m) in
  m ++ byte_of 128 :: replicate (Z.to_nat ((55 - l) mod 64)) (byte_of 0) ++ be_bytes 8 (8 * l).

Definition sha256_Sum256 (m : bytes) : bytes :=
  let p := sha256_pad m in
  let s := sha256_blocks (length p / 64) sha256_init p in
  be_bytes 4 (hA s) ++ be_bytes 4 (hB s) ++ be_bytes 4 (hC s) ++ be_bytes 4 (hD s) ++
  be_bytes 4 (hE s) ++ be_bytes 4 (hF s) ++ be_bytes 4 (hG s) ++ be_bytes 4 (hH s).

Definition hex_digit (z : Z) : ascii :=
  nth (Z.to_nat z) (str "0123456789abcdef") "0"%char.

Definition hex_EncodeToString (b : bytes) : bytes :=
  flat_map (fun a => [hex_digit (byte_val a / 16); hex_digit (byte_val a mod 16)]) b.

(** The FIPS 180-4 test vectors, and one message of two blocks. *)
Example sha256_abc :
  hex_EncodeToString (sha256_Sum256 (str "abc")) =
  str "ba7816bf8f01cfea414140de5dae2223b00361a396177a9cb410ff61f20015ad".
Proof. vm_compute. reflexivity. Qed.

Example sha256_empty :
  hex_EncodeToString (sha256_Sum256 []) =
  str "e3b0c44298fc1c149afbf4c8996fb92427ae41e4649b934ca495991b7852b855".
Proof. vm_compute. reflexivity. Qed.

Example sha256_two_blocks :
  hex_EncodeToString (sha256_Sum256 (str "abcdbcdecdefdefgefghfghighijhijkijkljklmklmnlmnomnopnopq")) =
  str "248d6a61d20638b8e5c026930c3e6039a33ce45964ff2167f6ecedd419db06c1".
Proof. vm_compute. reflexivity. Qed.

Lemma length_hex b : length (hex_EncodeToString b) = (2 * length b)%nat.
Proof. induction b; simpl; [done|]. rewrite IHb. lia. Qed.

Lemma length_sha256 m : length (sha256_Sum256 m) = 32%nat.
Proof. unfold sha256_Sum256. rewrite !length_app, !length_be_bytes. done. Qed.
