(* ===== verification/Domain.v ===== *)
(** * Domain values and their stored form

    internal/domain (config.go, common.go, watch.go, errors.go, name.go,
    namespace.go) and internal/storage/internal (config.go, namespace.go,
    lock_history.go): the records the components exchange, the records the
    buckets hold, and the conversions between them.

    A Go [time.Time] is the instant in nanoseconds since the Unix epoch; a Go map
    is [None] for nil or [Some] of a finite map; an [EventType] is its integer. *)

From S2P Require Import Prelude.
From S2P Require Import Bolt.
From S2P Require Import Sha256.
From stdpp Require Import base list gmap strings.
From Stdlib Require Import Ascii ZArith Lia.
Open Scope Z_scope.

Abbreviation time := Z (only parsing).
Abbreviation strmap := (option (gmap bytes bytes)).

(** The zero [time.Time], January 1 of year 1. *)
Definition timeZero : time := -62135596800 * 10 ^ 9.

(** ** domain/config.go *)

Abbreviation Format := bytes (only parsing).
Definition FormatJSON : Format := str "json".
Definition FormatYAML : Format := str "yaml".
Definition FormatOther : Format := str "other".

Definition NewInvalidFormatError (format : bytes) : error :=
  EWrap "%w: %s (supported: json, yaml)" [FStr format] (ESentinel DomainErrInvalidFormat).

Definition ParseFormat (s : bytes) : outcome Format :=
  if bool_decide (s = str "json") then Ok FormatJSON
  else if bool_decide (s = str "yaml" \/ s = str "yml") then Ok FormatYAML
  else if bool_decide (s = str "other") then Ok FormatOther
  else Err (NewInvalidFormatError s).

Definition DetectFormatFromPath (path : bytes) : Format :=
  if has_suffix path (str ".json") then FormatJSON
  else if has_suffix path (str ".yaml") || has_suffix path (str ".yml") then FormatYAML
  else FormatOther.

Definition NewValidationError (field message : bytes) : error := EValidation field message.

Definition ValidatePath (path : bytes) : outcome unit :=
  if bool_decide (path = []) then
    Err (NewValidationError (str "path") (str "path is required"))
  else if negb (has_prefix path (str "/")) then
    Err (NewValidationError (str "path") (str "path must start with /"))
  else if contains path (str "//") then
    Err (NewValidationError (str "path") (str "path must not contain //"))
  else if has_suffix path (str "/") then
    Err (NewValidationError (str "path") (str "path must not end with /"))
  else Ok tt.

Record Config := mkConfig {
  cfg_Path : bytes;
  cfg_Content : bytes;
  cfg_ContentHash : bytes;
  cfg_Format : bytes;
  cfg_Version : Z;
  cfg_Revision : Z;
  cfg_CreateRevision : Z;
  cfg_Namespace : bytes;
  cfg_Metadata : strmap;
  cfg_Locked : bool;
  cfg_NamespaceLocked : bool;
  cfg_CreatedAt : Z;
  cfg_UpdatedAt : Z;
}.

Record ConfigSummary := mkConfigSummary {
  sum_Path : bytes;
  sum_ContentHash : bytes;
  sum_Format : bytes;
  sum_Version : Z;
  sum_Revision : Z;
  sum_Namespace : bytes;
  sum_Metadata : strmap;
  sum_Locked : bool;
  sum_NamespaceLocked : bool;
  sum_CreatedAt : Z;
  sum_UpdatedAt : Z;
}.

(** [hex.EncodeToString(sha256.Sum256(data))]: computeHash of the repository. *)
Definition computeHash (data : bytes) : bytes := hex_EncodeToString (sha256_Sum256 data).

Definition GenerateHash (c : Config) : Config :=
  mkConfig (cfg_Path c) (cfg_Content c) (computeHash (cfg_Content c)) (cfg_Format c)
    (cfg_Version c) (cfg_Revision c) (cfg_CreateRevision c) (cfg_Namespace c)
    (cfg_Metadata c) (cfg_Locked c) (cfg_NamespaceLocked c) (cfg_CreatedAt c) (cfg_UpdatedAt c).

Definition SetDefaults (c : Config) : Config :=
  match cfg_Metadata c with
  | Some _ => c
  | None =>
      mkConfig (cfg_Path c) (cfg_Content c) (cfg_ContentHash c) (cfg_Format c)
        (cfg_Version c) (cfg_Revision c) (cfg_CreateRevision c) (cfg_Namespace c)
        (Some ∅) (cfg_Locked c) (cfg_NamespaceLocked c) (cfg_CreatedAt c) (cfg_UpdatedAt c)
  end.

(** The assignments the repository makes to a config it writes. *)
Definition stamp (c : Config) (version revision createRevision createdAt updatedAt : Z) : Config :=
  mkConfig (cfg_Path c) (cfg_Content c) (cfg_ContentHash c) (cfg_Format c)
    version revision createRevision (cfg_Namespace c)
    (cfg_Metadata c) (cfg_Locked c) (cfg_NamespaceLocked c) createdAt updatedAt.

Definition setNamespaceLocked (b : bool) (c : Config) : Config :=
  mkConfig (cfg_Path c) (cfg_Content c) (cfg_ContentHash c) (cfg_Format c)
    (cfg_Version c) (cfg_Revision c) (cfg_CreateRevision c) (cfg_Namespace c)
    (cfg_Metadata c) (cfg_Locked c) b (cfg_CreatedAt c) (cfg_UpdatedAt c).

Definition setSummaryNamespaceLocked (b : bool) (c : ConfigSummary) : ConfigSummary :=
  mkConfigSummary (sum_Path c) (sum_ContentHash c) (sum_Format c) (sum_Version c)
    (sum_Revision c) (sum_Namespace c) (sum_Metadata c) (sum_Locked c) b
    (sum_CreatedAt c) (sum_UpdatedAt c).

(** ** domain/common.go *)

(** [KVPair.Value] is [None] for a nil slice, which the code leaves in place when
    it does not read the value. *)
Record KVPair := mkKVPair {
  kv_Namespace : bytes;
  kv_Path : bytes;
  kv_Value : option bytes;
  kv_CreateRevision : Z;
  kv_ModRevision : Z;
  kv_Version : Z;
}.

Record SortParams := mkSortParams { sort_Field : bytes; sort_Desc : bool }.

(** ** domain/watch.go *)

Definition EventTypeCreated : Z := 1.
Definition EventTypeUpdated : Z := 2.
Definition EventTypeDeleted : Z := 3.
Definition EventTypeLocked : Z := 4.
Definition EventTypeUnlocked : Z := 5.
Definition EventTypeNamespaceLocked : Z := 6.
Definition EventTypeNamespaceUnlocked : Z := 7.

Definition EventType_String (e : Z) : bytes :=
  if e =? EventTypeCreated then str "CREATED"
  else if e =? EventTypeUpdated then str "UPDATED"
  else if e =? EventTypeDeleted then str "DELETED"
  else if e =? EventTypeLocked then str "LOCKED"
  else if e =? EventTypeUnlocked then str "UNLOCKED"
  else if e =? EventTypeNamespaceLocked then str "NAMESPACE_LOCKED"
  else if e =? EventTypeNamespaceUnlocked then str "NAMESPACE_UNLOCKED"
  else str "UNKNOWN".

Record WatchEvent := mkWatchEvent {
  ev_Type : Z;
  ev_Path : bytes;
  ev_Namespace : bytes;
  ev_Revision : Z;
  ev_Config : option Config;
  ev_Timestamp : Z;
}.

Record ChangelogEntry := mkChangelogEntry {
  cl_Revision : Z;
  cl_Type : Z;
  cl_Path : bytes;
  cl_Namespace : bytes;
  cl_Version : Z;
  cl_Timestamp : Z;
}.

Record HistoryEntry := mkHistoryEntry {
  he_Revision : Z;
  he_Content : bytes;
  he_ContentHash : bytes;
  he_EventType : Z;
  he_Timestamp : Z;
}.

(** ** domain/errors.go *)

Definition ErrLocked : error := ESentinel DomainErrLocked.
Definition ErrNamespaceLocked : error := EWrap "namespace is locked: %w" [] ErrLocked.
Definition ErrNotFound : error := ESentinel DomainErrNotFound.
Definition ErrAlreadyExists : error := ESentinel DomainErrAlreadyExists.
Definition ErrVersionConflict : error := ESentinel DomainErrVersionConflict.
Definition ErrResourceNotFound : error := ESentinel StorageErrResourceNotFound.
Definition ErrResourceAlreadyExists : error := ESentinel StorageErrResourceAlreadyExists.

Definition NewLockedError (path : bytes) : error := EWrap "config %q: %w" [FStr path] ErrLocked.

Definition NewNotFoundError (resource identifier : bytes) : error :=
  EWrap "%s %q: %w" [FStr resource; FStr identifier] ErrNotFound.

Definition NewAlreadyExistsError (resource identifier : bytes) : error :=
  EWrap "%s %q: %w" [FStr resource; FStr identifier] ErrAlreadyExists.

Definition NewConflictError (expected actual : Z) : error :=
  EWrap "expected version %d, got %d: %w" [FInt expected; FInt actual] ErrVersionConflict.

Definition CheckVersion (expected : option Z) (current : Z) : outcome unit :=
  match expected with
  | None => Ok tt
  | Some v => if v =? current then Ok tt else Err ErrVersionConflict
  end.

(** ** domain/name.go, domain/namespace.go *)

Definition maxCanonicalNameLen : nat := 63.
Definition maxDisplayNameLen : nat := 128.

Definition is_alnum (a : ascii) : bool :=
  let v := byte_val a in
  ((97 <=? v) && (v <=? 122)) || ((48 <=? v) && (v <=? 57)).

(** The language of [^[a-z0-9]([a-z0-9-]*[a-z0-9])?$]. *)
Definition canonicalNameMatch (s : bytes) : bool :=
  match s with
  | [] => false
  | x :: _ =>
      is_alnum x && match last s with Some y => is_alnum y | None => false end &&
      forallb (fun a => is_alnum a || bool_decide (a = "-"%char)) s
  end.

Definition ValidateCanonicalName (field value : bytes) : outcome unit :=
  if bool_decide (value = []) then
    Err (NewValidationError field (field ++ str " is required"))
  else if (maxCanonicalNameLen <? length value)%nat then
    Err (NewValidationError field (field ++ str " must be at most 63 characters"))
  else if negb (canonicalNameMatch value) then
    Err (NewValidationError field (field ++ str " must be a valid DNS-1123 label (lowercase alphanumeric and hyphens, starting/ending with alphanumeric)"))
  else Ok tt.

Record Namespace := mkNamespace {
  ns_Name : bytes;
  ns_DisplayName : bytes;
  ns_Description : bytes;
  ns_ConfigCount : Z;
  ns_Locked : bool;
  ns_CreatedAt : Z;
  ns_UpdatedAt : Z;
  ns_CanRead : bool;
  ns_CanWrite : bool;
}.

Definition Namespace_Validate (n : Namespace) : outcome unit :=
  match ValidateCanonicalName (str "name") (ns_Name n) with
  | Ok _ =>
      if (maxDisplayNameLen <? length (ns_DisplayName n))%nat then
        Err (NewValidationError (str "displayName")
               (str "display name must be at most 128 characters"))
      else Ok tt
  | r => r
  end.

(** ** storage/internal: what the buckets hold *)

Record ConfigMeta := mkConfigMeta {
  m_ContentHash : bytes;
  m_Format : bytes;
  m_Version : Z;
  m_Revision : Z;
  m_CreateRevision : Z;
  m_Metadata : strmap;
  m_Locked : bool;
  m_CreatedAt : Z;
  m_UpdatedAt : Z;
}.

Record NamespaceMeta := mkNamespaceMeta {
  nm_Description : bytes;
  nm_Locked : bool;
  nm_CreatedAt : Z;
  nm_UpdatedAt : Z;
}.

Record LockHistoryEntry := mkLockHistoryEntry { lh_Type : Z; lh_Timestamp : Z }.

(** internal.ChangelogEntry, the stored form of domain.ChangelogEntry. *)
Record StoredChange := mkStoredChange {
  sc_Type : Z;
  sc_Path : bytes;
  sc_Namespace : bytes;
  sc_Version : Z;
  sc_Timestamp : Z;
}.

Definition DomainToConfigMeta (cfg : Config) : ConfigMeta :=
  mkConfigMeta (cfg_ContentHash cfg) (cfg_Format cfg) (cfg_Version cfg) (cfg_Revision cfg)
    (cfg_CreateRevision cfg) (cfg_Metadata cfg) (cfg_Locked cfg) (cfg_CreatedAt cfg)
    (cfg_UpdatedAt cfg).

(** The stored format, or [FormatOther] with a log line when it is unknown. *)
Definition storedFormat (s : bytes) : bytes :=
  match ParseFormat s with Ok f => f | _ => FormatOther end.

Definition orEmpty (m : strmap) : strmap := match m with None => Some ∅ | _ => m end.

Definition ConfigMetaToDomain (m : ConfigMeta) (content path namespace : bytes) : Config :=
  mkConfig path content (m_ContentHash m) (storedFormat (m_Format m)) (m_Version m)
    (m_Revision m) (m_CreateRevision m) namespace (orEmpty (m_Metadata m)) (m_Locked m)
    false (m_CreatedAt m) (m_UpdatedAt m).

Definition ConfigMetaToSummary (m : ConfigMeta) (path namespace : bytes) : ConfigSummary :=
  mkConfigSummary path (m_ContentHash m) (storedFormat (m_Format m)) (m_Version m)
    (m_Revision m) namespace (orEmpty (m_Metadata m)) (m_Locked m) false
    (m_CreatedAt m) (m_UpdatedAt m).

Definition ChangelogEntryToDomain (e : StoredChange) (revision : Z) : ChangelogEntry :=
  mkChangelogEntry revision (sc_Type e) (sc_Path e) (sc_Namespace e) (sc_Version e)
    (sc_Timestamp e).

Definition DomainToNamespaceMeta (ns : Namespace) : NamespaceMeta :=
  mkNamespaceMeta (ns_Description ns) (ns_Locked ns) (ns_CreatedAt ns) (ns_UpdatedAt ns).

Definition NamespaceMetaToDomain (m : NamespaceMeta) (name : bytes) : Namespace :=
  mkNamespace name [] (nm_Description m) 0 (nm_Locked m) (nm_CreatedAt m) (nm_UpdatedAt m)
    false false.

(** ** What encoding/json preserves

    Strings that are valid UTF-8 ([utf8.Valid]; other bytes are replaced),
    instants of the years 0 to 9999 ([Time.MarshalJSON] refuses others) and
    64-bit integers.  An empty map under [omitempty] is read back as nil. *)

Definition between (lo hi : Z) (a : ascii) : bool :=
  (lo <=? byte_val a) && (byte_val a <=? hi).

Definition cont (a : ascii) : bool := between 128 191 a.

Fixpoint utf8_valid (b : bytes) : bool :=
  match b with
  | [] => true
  | x :: r =>
      if between 0 127 x then utf8_valid r else
      match r with
      | y :: r2 =>
          if between 194 223 x && cont y then utf8_valid r2 else
          match r2 with
          | z :: r3 =>
              if (bool_decide (byte_val x = 224) && between 160 191 y ||
                  bool_decide (byte_val x = 237) && between 128 159 y ||
                  (between 225 236 x || between 238 239 x) && cont y) && cont z
              then utf8_valid r3 else
              match r3 with
              | t :: r4 =>
                  if (bool_decide (byte_val x = 240) && between 144 191 y ||
                      between 241 243 x && cont y ||
                      bool_decide (byte_val x = 244) && between 128 143 y) && cont z && cont t
                  then utf8_valid r4 else false
              | [] => false
              end
          | [] => false
          end
      | [] => false
      end
  end.

Definition time_ok (t : Z) : bool :=
  (-62167219200 * 10 ^ 9 <=? t) && (t <? 253402300800 * 10 ^ 9).

Definition int64_ok (z : Z) : bool := (- two63 <=? z) && (z <? two63).

Definition strmap_ok (m : strmap) : bool :=
  match m with
  | None => true
  | Some m => forallb (fun kv => utf8_valid kv.1 && utf8_valid kv.2) (map_to_list m)
  end.

(** [map[string]string] with [omitempty]. *)
Definition omitempty (m : strmap) : strmap :=
  match m with Some m => if decide (m = ∅) then None else Some m | None => None end.

Definition meta_ok (m : ConfigMeta) : bool :=
  utf8_valid (m_ContentHash m) && utf8_valid (m_Format m) && int64_ok (m_Version m) &&
  int64_ok (m_Revision m) && int64_ok (m_CreateRevision m) && strmap_ok (m_Metadata m) &&
  time_ok (m_CreatedAt m) && time_ok (m_UpdatedAt m).

Definition meta_canon (m : ConfigMeta) : ConfigMeta :=
  mkConfigMeta (m_ContentHash m) (m_Format m) (m_Version m) (m_Revision m)
    (m_CreateRevision m) (omitempty (m_Metadata m)) (m_Locked m) (m_CreatedAt m) (m_UpdatedAt m).

#[global] Instance ConfigMeta_repr : Representable ConfigMeta :=
  {| json_wf m := meta_ok m = true; json_canon := meta_canon |}.

#[global] Instance NamespaceMeta_repr : Representable NamespaceMeta :=
  {| json_wf m := (utf8_valid (nm_Description m) && time_ok (nm_CreatedAt m) &&
                   time_ok (nm_UpdatedAt m)) = true;
     json_canon m := m |}.

#[global] Instance LockHistoryEntry_repr : Representable LockHistoryEntry :=
  {| json_wf e := (int64_ok (lh_Type e) && time_ok (lh_Timestamp e)) = true;
     json_canon e := e |}.

#[global] Instance StoredChange_repr : Representable StoredChange :=
  {| json_wf e := (int64_ok (sc_Type e) && utf8_valid (sc_Path e) &&
                   utf8_valid (sc_Namespace e) && int64_ok (sc_Version e) &&
                   time_ok (sc_Timestamp e)) = true;
     json_canon e := e |}.

(** The instants the clock reports can be stored. *)
Class ClockSpec `{Clock} : Prop := now_ok : forall n, time_ok (now_at n) = true.

(** The codec instances every repository below relies on. *)
Class Codecs := {
  json_ConfigMeta :: JSON ConfigMeta;
  json_NamespaceMeta :: JSON NamespaceMeta;
  json_LockHistoryEntry :: JSON LockHistoryEntry;
  json_StoredChange :: JSON StoredChange;
}.

Class CodecsSpec `{Codecs} : Prop := {
  spec_ConfigMeta :: JSONSpec ConfigMeta;
  spec_NamespaceMeta :: JSONSpec NamespaceMeta;
  spec_LockHistoryEntry :: JSONSpec LockHistoryEntry;
  spec_StoredChange :: JSONSpec StoredChange;
}.

(** ** Facts *)

Lemma int64_ok_spec z : int64_ok z = true <-> in_int64 z.
Proof. unfold int64_ok, in_int64, two63. rewrite andb_true_iff, Z.leb_le, Z.ltb_lt. done. Qed.

Lemma storedFormat_known s f : ParseFormat s = Ok f -> storedFormat s = f.
Proof. unfold storedFormat. by intros ->. Qed.

Lemma storedFormat_detect path : storedFormat (DetectFormatFromPath path) = DetectFormatFromPath path.
Proof. unfold DetectFormatFromPath. repeat case_match; vm_compute; done. Qed.

Lemma orEmpty_omitempty m : orEmpty (omitempty m) = orEmpty m.
Proof. unfold orEmpty, omitempty. destruct m as [m|]; [|done]. by case_decide; subst. Qed.

Lemma utf8_valid_detect path : utf8_valid (DetectFormatFromPath path) = true.
Proof. unfold DetectFormatFromPath. repeat case_match; done. Qed.

Lemma utf8_valid_ascii b : Forall (fun a => between 0 127 a = true) b -> utf8_valid b = true.
Proof. induction 1 as [|x b Hx _ IH]; simpl; [done|]. by rewrite Hx. Qed.

Lemma hex_digit_ascii z : between 0 127 (hex_digit z) = true.
Proof.
  unfold hex_digit. generalize (Z.to_nat z). intros n.
  do 16 (destruct n as [|n]; [done|]). by destruct n.
Qed.

Lemma utf8_valid_hash data : utf8_valid (computeHash data) = true.
Proof.
  apply utf8_valid_ascii. unfold computeHash.
  induction (sha256_Sum256 data) as [|x b IH]; simpl; [constructor|].
  constructor; [apply hex_digit_ascii|]. constructor; [apply hex_digit_ascii|done].
Qed.

Lemma errors_Is_refl e : errors_Is e e = true.
Proof. destruct e; simpl; by rewrite bool_decide_true. Qed.

Lemma errors_Is_wrap fmt args e t : errors_Is e t = true -> errors_Is (EWrap fmt args e) t = true.
Proof. intros H. simpl. rewrite H. apply orb_true_r. Qed.

#[export] Hint Resolve errors_Is_refl errors_Is_wrap utf8_valid_hash utf8_valid_detect : elara.

#[global] Opaque computeHash.
