(* ===== verification/Concrete.v ===== *)
(** * Executable instances of the parameters

    The engine, the codec, the clock, the disk and the library functions the
    model leaves open, each as a concrete function with the proof of its laws.
    They show that the laws of Bolt.v, Domain.v and Prelude.v hold together, and
    the examples of the other files run the model on them.

    A bucket is a finite map listed in key order.  The codec is not JSON: it
    writes the fields one after the other, byte by byte, and reads them back. *)

From S2P Require Import Prelude.
From S2P Require Import Bolt.
From S2P Require Import Domain.
From stdpp Require Import base list gmap strings sorting.
From Stdlib Require Import Ascii ZArith Lia.
Open Scope Z_scope.

(** ** A bucket *)

(** Pairs in key order. *)
Definition pair_le (x y : bytes * bytes) : Prop := ~ blt y.1 x.1.

#[global] Instance pair_le_dec x y : Decision (pair_le x y).
Proof. unfold pair_le. apply _. Defined.

#[global] Instance pair_le_total : Total pair_le.
Proof.
  intros x y. unfold pair_le. destruct (blt_total x.1 y.1) as [E|[E|E]].
  - left. intros E2. eapply blt_irrefl, blt_trans; done.
  - left. rewrite E. apply blt_irrefl.
  - right. intros E2. eapply blt_irrefl, blt_trans; done.
Qed.

#[global] Instance pair_le_trans : Transitive pair_le.
Proof. intros x y z. unfold pair_le. intros ??. by eapply nblt_trans. Qed.

Definition sorted_pairs (m : gmap bytes bytes) : list (bytes * bytes) :=
  merge_sort pair_le (map_to_list m).

Definition map_Put (m : gmap bytes bytes) (k v : bytes) : error + gmap bytes bytes :=
  if bool_decide (k = []) then inl (ESentinel (BoltErr "key required"))
  else if MaxKeySize <? Z.of_nat (length k) then inl (ESentinel (BoltErr "key too large"))
  else if MaxValueSize <? Z.of_nat (length v) then inl (ESentinel (BoltErr "value too large"))
  else inr (<[k:=v]> m).

#[global] Instance map_bolt : Bolt := {|
  bucket := gmap bytes bytes;
  bolt_empty := ∅;
  bolt_Get m k := m !! k;
  bolt_Put := map_Put;
  bolt_Delete m k := inr (delete k m);
  bolt_pairs := sorted_pairs;
|}.

Lemma sorted_pairs_perm m : sorted_pairs m ≡ₚ map_to_list m.
Proof. apply merge_sort_Permutation. Qed.

Lemma sorted_pairs_NoDup m : NoDup (sorted_pairs m).*1.
Proof. rewrite sorted_pairs_perm. apply NoDup_fst_map_to_list. Qed.

Lemma StronglySorted_strict (l : list (bytes * bytes)) :
  NoDup l.*1 -> StronglySorted pair_le l -> StronglySorted blt l.*1.
Proof.
  induction l as [|x l IH]; intros Hnd Hs; simpl; [constructor|].
  inversion_clear Hnd. inversion_clear Hs. constructor; [by apply IH|].
  apply Forall_forall. intros k Hk. apply list_elem_of_fmap in Hk as (y & -> & Hy).
  pose proof (proj1 (Forall_forall _ _) H2 _ Hy) as Hle. unfold pair_le in Hle.
  destruct (blt_total x.1 y.1) as [E|[E|E]]; [done| |done].
  destruct H. rewrite E. by apply list_elem_of_fmap_2.
Qed.

Lemma bview_map (m : gmap bytes bytes) : bview m = m.
Proof.
  unfold bview. simpl. rewrite <- (list_to_map_to_list m) at 2.
  apply list_to_map_proper; [apply sorted_pairs_NoDup|apply sorted_pairs_perm].
Qed.

#[global] Instance map_bolt_spec : BoltSpec.
Proof.
  split.
  - vm_compute. done.
  - intros m. apply StronglySorted_strict; [apply sorted_pairs_NoDup|].
    apply StronglySorted_merge_sort; apply _.
  - intros m k. by rewrite bview_map.
  - intros m k v m'. rewrite !bview_map. simpl. unfold map_Put.
    repeat case_match; by intros [= <-].
  - intros m k v Hk Hl Hv. simpl. unfold map_Put.
    rewrite bool_decide_false by done.
    rewrite (proj2 (Z.ltb_ge _ _)) by done. rewrite (proj2 (Z.ltb_ge _ _)) by done. by eexists.
  - intros m k m'. rewrite !bview_map. by intros [= <-].
  - intros m k. by eexists.
Qed.

(** ** A codec *)

(** A byte string: each byte after a 1, then a 0. *)
Definition put_bytes (b : bytes) : bytes :=
  foldr (fun a r => Ascii.one :: a :: r) [Ascii.zero] b.

Fixpoint get_bytes (s : bytes) : option (bytes * bytes) :=
  match s with
  | [] => None
  | x :: r =>
      if bool_decide (x = Ascii.zero) then Some ([], r)
      else match r with
           | [] => None
           | a :: r' => '(b, rest) ← get_bytes r'; Some (a :: b, rest)
           end
  end.

Definition put_Z (z : Z) : bytes := put_bytes (be_bytes 12 (z + 2 ^ 80)).

Definition get_Z (s : bytes) : option (Z * bytes) :=
  '(b, r) ← get_bytes s; Some (be_value b - 2 ^ 80, r).

Definition put_bool (b : bool) : bytes := [if b then Ascii.one else Ascii.zero].

Definition get_bool (s : bytes) : option (bool * bytes) :=
  match s with [] => None | x :: r => Some (bool_decide (x = Ascii.one), r) end.

Definition put_pairs (l : list (bytes * bytes)) : bytes :=
  foldr (fun kv r => Ascii.one :: put_bytes kv.1 ++ put_bytes kv.2 ++ r) [Ascii.zero] l.

(** Enough fuel is the length of the input. *)
Fixpoint get_pairs (fuel : nat) (s : bytes) : option (list (bytes * bytes) * bytes) :=
  match fuel, s with
  | S fuel', x :: r =>
      if bool_decide (x = Ascii.zero) then Some ([], r)
      else '(k, r) ← get_bytes r; '(v, r) ← get_bytes r;
           '(l, r) ← get_pairs fuel' r; Some ((k, v) :: l, r)
  | _, _ => None
  end.

Definition put_strmap (m : strmap) : bytes :=
  match m with
  | None => put_bool false
  | Some m => put_bool true ++ put_pairs (map_to_list m)
  end.

Definition get_strmap (s : bytes) : option (strmap * bytes) :=
  '(b, r) ← get_bool s;
  if (b : bool) then '(l, r) ← get_pairs (length r) r; Some (Some (list_to_map l), r)
  else Some (None, r).

(** A field [get] reads back what [put] wrote, whatever follows. *)
Definition reads {A} (put : A -> bytes) (get : bytes -> option (A * bytes)) (a : A) : Prop :=
  forall r, get (put a ++ r) = Some (a, r).

Lemma reads_bytes b : reads put_bytes get_bytes b.
Proof. intros r. induction b as [|x b IH]; simpl; [done|]. by rewrite IH. Qed.

Lemma reads_Z z : - 2 ^ 80 <= z < 2 ^ 80 -> reads put_Z get_Z z.
Proof.
  intros Hz r. unfold get_Z, put_Z. rewrite reads_bytes. cbn [mbind option_bind].
  rewrite be_value_bytes, Z.mod_small by lia. do 2 f_equal. lia.
Qed.

Lemma reads_bool b : reads put_bool get_bool b.
Proof. intros r. by destruct b. Qed.

Lemma reads_pairs l r n : (length l < n)%nat -> get_pairs n (put_pairs l ++ r) = Some (l, r).
Proof.
  revert n. induction l as [|[k v] l IH]; intros [|n] Hn; simpl in *; try lia; [done|].
  rewrite <- !app_assoc, reads_bytes. simpl. rewrite reads_bytes. simpl.
  by rewrite IH by lia.
Qed.

Lemma length_put_pairs l : (length l < length (put_pairs l))%nat.
Proof. induction l as [|x l IH]; simpl; [lia|]. rewrite !length_app. lia. Qed.

Lemma reads_strmap m : reads put_strmap get_strmap m.
Proof.
  intros r. unfold get_strmap. destruct m as [m|]; simpl; [|done].
  rewrite reads_pairs by (rewrite length_app; pose proof (length_put_pairs (map_to_list m)); lia).
  simpl. by rewrite list_to_map_to_list.
Qed.

(** A codec from a field-by-field writer and reader: values that encoding/json
    would not preserve are refused. *)
Definition mk_json {A} `{Representable A} (ok : A -> bool) (put : A -> bytes)
    (get : bytes -> option (A * bytes)) : JSON A := {|
  json_Marshal v := if ok v then inr (put (json_canon v))
                    else inl (ESentinel (CodecErr "unsupported value"));
  json_Unmarshal d := match get d with
                      | Some (v, []) => inr v
                      | _ => inl (ESentinel (CodecErr "invalid input"))
                      end;
|}.

Lemma mk_json_spec {A} `{Representable A} ok (put : A -> bytes) get :
  (forall v, json_wf v -> ok v = true) ->
  (forall v, ok v = true -> get (put (json_canon v)) = Some (json_canon v, [])) ->
  @JSONSpec A (mk_json ok put get) _.
Proof.
  intros Hok Hrt. split; simpl.
  - intros v Hv. rewrite Hok by done. by eexists.
  - intros v d Hv. rewrite Hok by done. intros [= <-]. by rewrite Hrt by auto.
Qed.

Definition put_meta (m : ConfigMeta) : bytes :=
  put_bytes (m_ContentHash m) ++ put_bytes (m_Format m) ++ put_Z (m_Version m) ++
  put_Z (m_Revision m) ++ put_Z (m_CreateRevision m) ++ put_strmap (m_Metadata m) ++
  put_bool (m_Locked m) ++ put_Z (m_CreatedAt m) ++ put_Z (m_UpdatedAt m).

Definition get_meta (s : bytes) : option (ConfigMeta * bytes) :=
  '(h, s) ← get_bytes s; '(f, s) ← get_bytes s; '(v, s) ← get_Z s; '(rv, s) ← get_Z s;
  '(cr, s) ← get_Z s; '(md, s) ← get_strmap s; '(l, s) ← get_bool s; '(ca, s) ← get_Z s;
  '(ua, s) ← get_Z s; Some (mkConfigMeta h f v rv cr md l ca ua, s).

Definition put_nsmeta (m : NamespaceMeta) : bytes :=
  put_bytes (nm_Description m) ++ put_bool (nm_Locked m) ++ put_Z (nm_CreatedAt m) ++
  put_Z (nm_UpdatedAt m).

Definition get_nsmeta (s : bytes) : option (NamespaceMeta * bytes) :=
  '(d, s) ← get_bytes s; '(l, s) ← get_bool s; '(ca, s) ← get_Z s; '(ua, s) ← get_Z s;
  Some (mkNamespaceMeta d l ca ua, s).

Definition put_lock (e : LockHistoryEntry) : bytes := put_Z (lh_Type e) ++ put_Z (lh_Timestamp e).

Definition get_lock (s : bytes) : option (LockHistoryEntry * bytes) :=
  '(t, s) ← get_Z s; '(ts, s) ← get_Z s; Some (mkLockHistoryEntry t ts, s).

Definition put_change (e : StoredChange) : bytes :=
  put_Z (sc_Type e) ++ put_bytes (sc_Path e) ++ put_bytes (sc_Namespace e) ++
  put_Z (sc_Version e) ++ put_Z (sc_Timestamp e).

Definition get_change (s : bytes) : option (StoredChange * bytes) :=
  '(t, s) ← get_Z s; '(p, s) ← get_bytes s; '(n, s) ← get_bytes s; '(v, s) ← get_Z s;
  '(ts, s) ← get_Z s; Some (mkStoredChange t p n v ts, s).

#[global] Instance field_codecs : Codecs := {|
  json_ConfigMeta := mk_json meta_ok put_meta get_meta;
  json_NamespaceMeta := mk_json (fun m => utf8_valid (nm_Description m) &&
    time_ok (nm_CreatedAt m) && time_ok (nm_UpdatedAt m)) put_nsmeta get_nsmeta;
  json_LockHistoryEntry := mk_json (fun e => int64_ok (lh_Type e) && time_ok (lh_Timestamp e))
    put_lock get_lock;
  json_StoredChange := mk_json (fun e => int64_ok (sc_Type e) && utf8_valid (sc_Path e) &&
    utf8_valid (sc_Namespace e) && int64_ok (sc_Version e) && time_ok (sc_Timestamp e))
    put_change get_change;
|}.

Lemma reads_int64 z : int64_ok z = true -> reads put_Z get_Z z.
Proof. rewrite int64_ok_spec. unfold in_int64, two63. intros. apply reads_Z. lia. Qed.

Lemma reads_time z : time_ok z = true -> reads put_Z get_Z z.
Proof. unfold time_ok. rewrite andb_true_iff, Z.leb_le, Z.ltb_lt. intros. apply reads_Z. lia. Qed.

(** Read the fields of a record one after the other. *)
Ltac read_fields :=
  repeat first
    [ rewrite reads_bytes | rewrite reads_bool | rewrite reads_strmap
    | rewrite reads_int64 by done | rewrite reads_time by done
    | rewrite <- app_assoc | progress cbn [mbind option_bind] ].

Lemma app_nil_reads {A} (get : bytes -> option (A * bytes)) s a :
  get (s ++ []) = Some (a, []) -> get s = Some (a, []).
Proof. by rewrite app_nil_r. Qed.

#[global] Instance field_codecs_spec : CodecsSpec.
Proof.
  split; apply mk_json_spec; try done; intros v; unfold meta_ok; rewrite ?andb_true_iff;
    intros Hv; repeat match type of Hv with _ /\ _ => destruct Hv as [Hv ?] end;
    apply app_nil_reads.
  - unfold put_meta, get_meta.
    cbn [json_canon ConfigMeta_repr meta_canon m_ContentHash m_Format m_Version m_Revision
      m_CreateRevision m_Metadata m_Locked m_CreatedAt m_UpdatedAt].
    read_fields. by destruct v.
  - unfold put_nsmeta, get_nsmeta. cbn [json_canon NamespaceMeta_repr]. read_fields. by destruct v.
  - unfold put_lock, get_lock. cbn [json_canon LockHistoryEntry_repr]. read_fields. by destruct v.
  - unfold put_change, get_change. cbn [json_canon StoredChange_repr]. read_fields. by destruct v.
Qed.

Lemma length_put_bytes b : length (put_bytes b) = (2 * length b + 1)%nat.
Proof. induction b as [|x b IH]; simpl; [done|]. rewrite IH. lia. Qed.

(** The size of a changelog row depends on its names only. *)
Lemma change_length (ch : StoredChange) d :
  json_Marshal ch = inr d ->
  length d = (2 * (length (sc_Path ch) + length (sc_Namespace ch)) + 77)%nat.
Proof.
  simpl. case_match; [|done]. intros [= <-]. unfold put_change, put_Z.
  rewrite !length_app, !length_put_bytes, !length_be_bytes. lia.
Qed.

(** ** Clock, disk, sorting, case folding *)

(** One nanosecond per reading, from the start of 2024, for some thirty years. *)
#[global] Instance step_clock : Clock := fun n => 1704067200 * 10 ^ 9 + Z.min (Z.of_nat n) (10 ^ 18).

#[global] Instance step_clock_spec : ClockSpec.
Proof.
  intros n. unfold time_ok, now_at, step_clock. rewrite andb_true_iff, Z.leb_le, Z.ltb_lt. lia.
Qed.

#[global] Instance good_disk : Disk := {| begin_fault _ := None; commit_fault _ := None |}.

(** One order in which a run of the program may see a map. *)
Definition list_order : RangeOrder :=
  {| rangeOrder K A _ _ := map_to_list; rangeOrder_perm K A _ _ m := Permutation_refl _ |}.

#[global] Instance insertion_sort : GoSort := fun A less l => sort_SliceStable less l.

Definition ascii_lower (a : ascii) : ascii :=
  if Domain.between 65 90 a then byte_of (byte_val a + 32) else a.

#[global] Instance ascii_tolower : UnicodeLower := map ascii_lower.

Section sorting.
Context {A : Type} (less : A -> A -> bool) (Hless : strict_weak less).

Lemma insert_stable_perm x l : insert_stable less x l ≡ₚ x :: l.
Proof.
  clear Hless. induction l as [|y l IH]; simpl; [done|]. case_match; [|done].
  rewrite IH. apply Permutation_swap.
Qed.

Lemma insert_stable_sorted x l :
  StronglySorted (fun x y => less y x = false) l ->
  StronglySorted (fun x y => less y x = false) (insert_stable less x l).
Proof.
  destruct Hless as (Hirr & Htr & Hneg). clear Hless.
  induction 1 as [|y l Hs IH Hy]; simpl; [by repeat constructor|].
  destruct (less y x) eqn:E.
  - constructor; [done|]. rewrite insert_stable_perm. constructor; [|done].
    destruct (less x y) eqn:E2; [|done]. rewrite <- (Hirr x). by rewrite (Htr x y x).
  - constructor; [by constructor|]. constructor; [done|].
    eapply Forall_impl; [done|]. simpl. intros z Hz.
    destruct (less z x) eqn:Ezx; [|done]. exfalso.
    destruct (less x y) eqn:Exy.
    { rewrite (Htr z x y) in Hz by done. done. }
    destruct (less y z) eqn:Eyz.
    { rewrite (Htr y z x) in E by done. done. }
    destruct (Hneg x y z) as [_ ?]; congruence.
Qed.
End sorting.

#[global] Instance insertion_sort_spec : GoSortSpec.
Proof.
  split; unfold sort_Slice, insertion_sort, sort_SliceStable.
  - intros A less l. induction l as [|x l IH]; simpl; [done|].
    rewrite insert_stable_perm. by constructor.
  - intros A less l Hl. induction l as [|x l IH]; simpl; [constructor|].
    by apply insert_stable_sorted.
Qed.
