(* ===== verification/Manager.v ===== *)
(** * Transactions: pkg/bbolt/manager.go and internal/storage/bbolt/manager.go

    The state of one process that serves requests one after the other: the
    committed database, every transaction begun so far, the clock, the buffers
    of pending watch notifications and the log of published ones.  A Go context
    is a record of the values the code reads from it.

    bbolt grants one writable transaction at a time.  A goroutine that begins a
    second one while it holds the first waits for itself: [Crash Deadlock]. *)

From S2P Require Import Prelude.
From S2P Require Import Bolt.
From S2P Require Import Domain.
From S2P Require Import Concrete.
From stdpp Require Import base list gmap strings.
From Stdlib Require Import Ascii ZArith Lia.
Open Scope Z_scope.

(** ** State *)

Inductive tx_status := TxOpen | TxCommitted | TxRolledBack.

Record Tx `{Bolt} := mkTx { tx_writable : bool; tx_status_of : tx_status; tx_db : DB }.

(** A buffered call of the watch publisher. *)
Inductive notification :=
| NotifyCreated (cfg : Config)
| NotifyUpdated (cfg : Config)
| NotifyDeleted (path namespace : bytes) (revision : Z)
| NotifyConfigLocked (cfg : Config)
| NotifyConfigUnlocked (cfg : Config)
| NotifyNamespaceLocked (namespace : bytes)
| NotifyNamespaceUnlocked (namespace : bytes).

Record World `{Bolt} := mkWorld {
  w_db : DB;
  w_txs : list Tx;
  w_tick : nat;
  (** the [pendingEvents] collectors, by allocation order *)
  w_pending : list (list notification);
  (** what the publisher received, oldest first *)
  w_log : list notification;
}.

Record Claims := mkClaims {
  claims_Email : bytes;
  claims_Name : bytes;
  claims_Namespaces : list bytes;
  claims_Role : bytes;
}.

Record Context_ := mkContext {
  ctx_tx : option nat;
  ctx_pending : option nat;
  ctx_claims : option Claims;
}.

Definition with_tx_handle (h : nat) (ctx : Context_) : Context_ :=
  mkContext (Some h) (ctx_pending ctx) (ctx_claims ctx).

Definition with_pending_handle (h : nat) (ctx : Context_) : Context_ :=
  mkContext (ctx_tx ctx) (Some h) (ctx_claims ctx).

Definition App `{Bolt} (A : Type) : Type := World -> outcome A * World.

Section manager.
Context `{Bolt} `{Disk}.

#[global] Instance App_ret : MRet App := fun A a w => (Ok a, w).
#[global] Instance App_bind : MBind App := fun A B f m w =>
  match m w with
  | (Ok a, w') => f a w'
  | (Err e, w') => (Err e, w')
  | (Crash c, w') => (Crash c, w')
  end.

Definition appfail {A} (e : error) : App A := fun w => (Err e, w).

Definition wrapA {A} (fmt : string) (args : list farg) (m : App A) : App A :=
  fun w => let '(r, w') := m w in (map_err (EWrap fmt args) r, w').

(** [if err != nil { return f(err) }] *)
Definition mapErrA {A} (f : error -> error) (m : App A) : App A :=
  fun w => let '(r, w') := m w in (map_err f r, w').

Definition attemptA {A} (m : App A) : App (error + A) := fun w =>
  match m w with
  | (Ok a, w') => (Ok (inr a), w')
  | (Err e, w') => (Ok (inl e), w')
  | (Crash c, w') => (Crash c, w')
  end.

Definition liftO {A} (r : outcome A) : App A := fun w => (r, w).

Definition NowA `{Clock} : App Z := fun w =>
  (Ok (now_at (w_tick w)),
   mkWorld _ (w_db w) (w_txs w) (S (w_tick w)) (w_pending w) (w_log w)).

Definition set_txs (txs : list Tx) (w : World) : World :=
  mkWorld _ (w_db w) txs (w_tick w) (w_pending w) (w_log w).

Definition set_db (db : DB) (w : World) : World :=
  mkWorld _ db (w_txs w) (w_tick w) (w_pending w) (w_log w).

Definition set_tick (t : nat) (w : World) : World :=
  mkWorld _ (w_db w) (w_txs w) t (w_pending w) (w_log w).

Definition is_open (tx : Tx) : bool :=
  match tx_status_of tx with TxOpen => true | _ => false end.

(** Some writable transaction is open: the engine's writer lock is taken. *)
Definition busy (w : World) : bool := existsb (fun tx => tx_writable tx && is_open tx) (w_txs w).

(** ** Transactions *)

(** [db.Begin(writable)]: the new transaction's handle. *)
Definition Begin (writable : bool) : App nat := fun w =>
  match begin_fault (length (w_txs w)) with
  | Some e => (Err e, w)
  | None =>
      if writable && busy w then (Crash Deadlock, w)
      else (Ok (length (w_txs w)),
            set_txs (w_txs w ++ [mkTx _ writable TxOpen (w_db w)]) w)
  end.

Definition set_status (st : tx_status) (tx : Tx) : Tx := mkTx _ (tx_writable tx) st (tx_db tx).

(** [tx.Rollback()]: the transaction's writes are dropped. *)
Definition Rollback (h : nat) (w : World) : World :=
  set_txs (alter (set_status TxRolledBack) h (w_txs w)) w.

(** [tx.Commit()]: the transaction's writes become the database, or an error and
    none of them do. *)
Definition Commit (h : nat) : App unit := fun w =>
  match commit_fault h with
  | Some e => (Err e, Rollback h w)
  | None =>
      match w_txs w !! h with
      | Some tx =>
          (Ok tt, set_db (tx_db tx) (set_txs (alter (set_status TxCommitted) h (w_txs w)) w))
      | None => (Crash GoPanic, w)
      end
  end.

(** [TxFromContext] *)
Definition TxFromContext (ctx : Context_) : option nat := ctx_tx ctx.

Definition Writable (h : nat) (w : World) : bool :=
  match w_txs w !! h with Some tx => tx_writable tx | None => false end.

(** runTx of manager.go: roll back on error and on panic, commit a writable
    transaction, release a read-only one. *)
Definition runTx {A} (ctx : Context_) (h : nat) (callback : Context_ -> App A) : App A := fun w =>
  match callback (with_tx_handle h ctx) w with
  | (Err e, w') => (Err (EJoin e), Rollback h w')
  | (Crash GoPanic, w') => (Crash GoPanic, Rollback h w')
  | (Crash Deadlock, w') => (Crash Deadlock, w')
  | (Ok a, w') =>
      if Writable h w' then
        match Commit h w' with
        | (Ok _, w'') => (Ok a, w'')
        | (Err e, w'') => (Err (EWrap "commit tx: %w" [] e), w'')
        | (Crash c, w'') => (Crash c, w'')
        end
      else (Ok a, Rollback h w')
  end.

Definition WithTx {A} (ctx : Context_) (callback : Context_ -> App A) : App A := fun w =>
  match TxFromContext ctx with
  | Some h =>
      if Writable h w then callback ctx w
      else (h' ← wrapA "begin tx: %w" [] (Begin true); runTx ctx h' callback) w
  | None => (h' ← wrapA "begin tx: %w" [] (Begin true); runTx ctx h' callback) w
  end.

Definition WithReadTx {A} (ctx : Context_) (callback : Context_ -> App A) : App A :=
  match TxFromContext ctx with
  | Some _ => callback ctx
  | None => h' ← wrapA "begin read tx: %w" [] (Begin false); runTx ctx h' callback
  end.

(** storage/bbolt.Manager.WithTx, the facade the use cases hold. *)
Definition Manager_WithTx {A} (ctx : Context_) (callback : Context_ -> App A) : App A :=
  wrapA "bbolt: with tx: %w" [] (WithTx ctx callback).

(** [r.dbm.GetQuerier(ctx)] and the code that runs against the result: inside the
    context's transaction, or one transaction per operation on the database. *)
Definition GetQuerier {A} (ctx : Context_) (code : TxM A) : App A := fun w =>
  match TxFromContext ctx with
  | Some h =>
      match w_txs w !! h with
      | None => (Crash GoPanic, w)
      | Some tx =>
          if is_open tx then
            let '(r, s) := code (QTx (tx_writable tx)) (mkTS (tx_db tx) (w_tick w)) in
            (r, set_tick (ts_tick s)
                  (set_txs (<[h := mkTx _ (tx_writable tx) TxOpen (ts_db s)]> (w_txs w)) w))
          else (Err (ESentinel BoltErrTxClosed), w)
      end
  | None =>
      let '(r, s) := code (QAuto (busy w)) (mkTS (w_db w) (w_tick w)) in
      (r, set_tick (ts_tick s) (set_db (ts_db s) w))
  end.
End manager.

(** ** Code confined to one transaction

    [in_tx wr h w]: handle [h] is an open transaction.  A program is [confined]
    to it when it leaves the committed database, the publisher and every other
    transaction alone and does not finish [h]. *)

Section confined.
Context `{Bolt} `{Disk}.

Definition in_tx (wr : bool) (h : nat) (w : World) : Prop :=
  exists db, w_txs w !! h = Some (mkTx _ wr TxOpen db).

Definition tx_local (wr : bool) (h : nat) (w w' : World) : Prop :=
  w_db w' = w_db w /\ w_log w' = w_log w /\
  exists db', w_txs w' = <[h := mkTx _ wr TxOpen db']> (w_txs w).

Definition confined {A} (wr : bool) (h : nat) (m : App A) : Prop :=
  forall w, in_tx wr h w -> tx_local wr h w (m w).2.

Lemma in_tx_lt wr h w : in_tx wr h w -> (h < length (w_txs w))%nat.
Proof. intros [db Hh]. by apply lookup_lt_Some in Hh. Qed.

Lemma tx_local_refl wr h w : in_tx wr h w -> tx_local wr h w w.
Proof.
  intros [db Hh]. split; [done|]. split; [done|]. exists db. by rewrite list_insert_id.
Qed.

Lemma tx_local_trans wr h w1 w2 w3 :
  tx_local wr h w1 w2 -> tx_local wr h w2 w3 -> tx_local wr h w1 w3.
Proof.
  intros (E1&L1&db1&T1) (E2&L2&db2&T2). split; [congruence|]. split; [congruence|].
  exists db2. rewrite T2, T1. apply list_insert_insert_eq.
Qed.

Lemma tx_local_in wr h w w' : in_tx wr h w -> tx_local wr h w w' -> in_tx wr h w'.
Proof.
  intros Hw (_&_&db&T). exists db. rewrite T. apply list_lookup_insert_eq. by eapply in_tx_lt.
Qed.

Lemma confined_ret {A} wr h (a : A) : confined wr h (mret a).
Proof. intros w Hw. by apply tx_local_refl. Qed.

Lemma confined_fail {A} wr h e : confined wr h (appfail (A:=A) e).
Proof. intros w Hw. by apply tx_local_refl. Qed.

Lemma confined_bind {A B} wr h (m : App A) (f : A -> App B) :
  confined wr h m -> (forall a, confined wr h (f a)) -> confined wr h (m ≫= f).
Proof.
  intros Hm Hf w Hw. pose proof (Hm w Hw) as H1. unfold mbind, App_bind.
  destruct (m w) as [[a|e|c] w1]; simpl in *; try done.
  eapply tx_local_trans; [done|]. by apply Hf, (tx_local_in _ _ w).
Qed.

Lemma confined_wrap {A} wr h fmt args (m : App A) :
  confined wr h m -> confined wr h (wrapA fmt args m).
Proof. intros Hm w Hw. specialize (Hm w Hw). unfold wrapA. by destruct (m w). Qed.

Lemma confined_mapErr {A} wr h f (m : App A) : confined wr h m -> confined wr h (mapErrA f m).
Proof. intros Hm w Hw. specialize (Hm w Hw). unfold mapErrA. by destruct (m w). Qed.

Lemma confined_attempt {A} wr h (m : App A) : confined wr h m -> confined wr h (attemptA m).
Proof. intros Hm w Hw. specialize (Hm w Hw). unfold attemptA. by destruct (m w) as [[] ?]. Qed.

Lemma confined_Now `{Clock} wr h : confined wr h NowA.
Proof.
  intros w Hw. destruct (tx_local_refl _ _ _ Hw) as (?&?&db&?). split; [done|].
  split; [done|]. by exists db.
Qed.

Lemma confined_GetQuerier {A} wr h ctx (code : TxM A) :
  ctx_tx ctx = Some h -> confined wr h (GetQuerier ctx code).
Proof.
  intros Hc w [db Hh]. unfold GetQuerier, TxFromContext. rewrite Hc, Hh. simpl.
  destruct (code _ _) as [r s]. split; [done|]. split; [done|]. by eexists.
Qed.

Lemma in_tx_Writable wr h w : in_tx wr h w -> Writable h w = wr.
Proof. intros [db Hh]. unfold Writable. by rewrite Hh. Qed.

(** Inside a writable transaction WithTx runs its callback in place. *)
Lemma WithTx_in {A} h ctx (cb : Context_ -> App A) w :
  ctx_tx ctx = Some h -> in_tx true h w -> WithTx ctx cb w = cb ctx w.
Proof.
  intros Hc Hw. unfold WithTx, TxFromContext. by rewrite Hc, (in_tx_Writable true).
Qed.

Lemma confined_WithTx {A} h ctx (cb : Context_ -> App A) :
  ctx_tx ctx = Some h -> confined true h (cb ctx) -> confined true h (WithTx ctx cb).
Proof. intros Hc Hcb w Hw. rewrite (WithTx_in h) by done. by apply Hcb. Qed.

Lemma confined_WithReadTx {A} wr h ctx (cb : Context_ -> App A) :
  ctx_tx ctx = Some h -> confined wr h (cb ctx) -> confined wr h (WithReadTx ctx cb).
Proof. intros Hc Hcb w Hw. unfold WithReadTx, TxFromContext. rewrite Hc. by apply Hcb. Qed.

(** The world with a new transaction appended. *)
Definition begun (wr : bool) (w : World) : World :=
  set_txs (w_txs w ++ [mkTx _ wr TxOpen (w_db w)]) w.

Lemma begun_in_tx wr w : in_tx wr (length (w_txs w)) (begun wr w).
Proof. exists (w_db w). simpl. by rewrite lookup_app_r, Nat.sub_diag by lia. Qed.

Lemma busy_app w tx : busy (set_txs (w_txs w ++ [tx]) w) = busy w || (tx_writable tx && is_open tx).
Proof. unfold busy. simpl. rewrite existsb_app. simpl. by rewrite orb_false_r. Qed.

(** The transactions after a confined callback and the end of its own one. *)
Lemma alter_last {A} (f : A -> A) (l : list A) x y :
  alter f (length l) (<[length l := y]> (l ++ [x])) = l ++ [f y].
Proof.
  rewrite insert_app_r_alt by lia. rewrite Nat.sub_diag. simpl.
  induction l as [|z l IH]; simpl; [done|]. f_equal. apply IH.
Qed.

Lemma begun_local wr w w' :
  tx_local wr (length (w_txs w)) (begun wr w) w' ->
  w_db w' = w_db w /\ w_log w' = w_log w /\
  exists db, w_txs w' = w_txs w ++ [mkTx _ wr TxOpen db].
Proof.
  intros (E&L&db&T). split; [done|]. split; [done|]. exists db. rewrite T. simpl.
  rewrite insert_app_r_alt by lia. by rewrite Nat.sub_diag.
Qed.

Lemma Begin_eval wr w :
  begin_fault (length (w_txs w)) = None -> wr && busy w = false ->
  Begin wr w = (Ok (length (w_txs w)), begun wr w).
Proof. unfold Begin. by intros -> ->. Qed.

End confined.

#[export] Hint Resolve confined_ret confined_fail confined_bind confined_wrap confined_mapErr
  confined_attempt confined_Now confined_GetQuerier confined_WithTx confined_WithReadTx : elara.

(** ** Running a callback in its own transaction *)

Section toplevel.
Context `{Bolt} `{Disk}.

(** The world once the transaction begun last ended with status [st], the
    database being [db] and the clock at [t]. *)
Definition ended (wr : bool) (st : tx_status) (txdb db : DB) (t : nat) (w : World) : World :=
  mkWorld _ db (w_txs w ++ [mkTx _ wr st txdb]) t (w_pending w) (w_log w).

(** What a top-level WithTx makes of transaction code: it is run on the committed
    database and its result is installed only when it succeeded and the commit
    went through. *)
Definition tx_outcome {A} (code : TxM A) (w : World) : outcome A * World :=
  let h := length (w_txs w) in
  match code (QTx true) (mkTS (w_db w) (w_tick w)) with
  | (Ok a, s) =>
      match commit_fault h with
      | None => (Ok a, ended true TxCommitted (ts_db s) (ts_db s) (ts_tick s) w)
      | Some e => (Err (EWrap "commit tx: %w" [] e),
                   ended true TxRolledBack (ts_db s) (w_db w) (ts_tick s) w)
      end
  | (Err e, s) => (Err (EJoin e), ended true TxRolledBack (ts_db s) (w_db w) (ts_tick s) w)
  | (Crash GoPanic, s) =>
      (Crash GoPanic, ended true TxRolledBack (ts_db s) (w_db w) (ts_tick s) w)
  | (Crash Deadlock, s) => (Crash Deadlock, ended true TxOpen (ts_db s) (w_db w) (ts_tick s) w)
  end.

(** The same for a top-level WithReadTx. *)
Definition read_outcome {A} (code : TxM A) (w : World) : outcome A * World :=
  match code (QTx false) (mkTS (w_db w) (w_tick w)) with
  | (Ok a, s) => (Ok a, ended false TxRolledBack (ts_db s) (w_db w) (ts_tick s) w)
  | (Err e, s) => (Err (EJoin e), ended false TxRolledBack (ts_db s) (w_db w) (ts_tick s) w)
  | (Crash GoPanic, s) =>
      (Crash GoPanic, ended false TxRolledBack (ts_db s) (w_db w) (ts_tick s) w)
  | (Crash Deadlock, s) => (Crash Deadlock, ended false TxOpen (ts_db s) (w_db w) (ts_tick s) w)
  end.

(** A world in which the next transaction begins without waiting or failing. *)
Definition idle (w : World) : Prop := busy w = false /\ begin_fault (length (w_txs w)) = None.

#[global] Instance idle_dec w : Decision (idle w).
Proof. unfold idle. apply _. Defined.

Lemma begun_last {X} (l : list X) x y : <[length l := y]> (l ++ [x]) = l ++ [y].
Proof. rewrite insert_app_r_alt by lia. by rewrite Nat.sub_diag. Qed.

Lemma alter_app_last {X} (f : X -> X) (l : list X) x : alter f (length l) (l ++ [x]) = l ++ [f x].
Proof. rewrite <- (begun_last l x x) at 1. apply alter_last. Qed.

Lemma lookup_app_last {X} (l : list X) x : (l ++ [x]) !! length l = Some x.
Proof. rewrite lookup_app_r by lia. by rewrite Nat.sub_diag. Qed.

Lemma GetQuerier_begun {A} wr ctx (code : TxM A) w :
  GetQuerier (with_tx_handle (length (w_txs w)) ctx) code (begun wr w) =
  let '(r, s) := code (QTx wr) (mkTS (w_db w) (w_tick w)) in
  (r, ended wr TxOpen (ts_db s) (w_db w) (ts_tick s) w).
Proof.
  unfold GetQuerier, TxFromContext, begun. simpl. rewrite lookup_app_last. simpl.
  destruct (code _ _) as [r s]. unfold ended, set_tick, set_txs. simpl. by rewrite begun_last.
Qed.

Lemma Rollback_ended wr txdb db t w :
  Rollback (length (w_txs w)) (ended wr TxOpen txdb db t w) = ended wr TxRolledBack txdb db t w.
Proof. unfold Rollback, ended, set_txs. simpl. by rewrite alter_app_last. Qed.

Lemma Writable_ended wr st txdb db t w :
  Writable (length (w_txs w)) (ended wr st txdb db t w) = wr.
Proof. unfold Writable, ended. simpl. by rewrite lookup_app_last. Qed.

Lemma Commit_ended txdb db t w :
  Commit (length (w_txs w)) (ended true TxOpen txdb db t w) =
  match commit_fault (length (w_txs w)) with
  | Some e => (Err e, ended true TxRolledBack txdb db t w)
  | None => (Ok tt, ended true TxCommitted txdb txdb t w)
  end.
Proof.
  unfold Commit. destruct (commit_fault _) as [e|]; [by rewrite Rollback_ended|].
  unfold ended at 1. simpl. rewrite lookup_app_last. unfold set_db, set_txs, ended. simpl.
  by rewrite alter_app_last.
Qed.

(** A repository method at top level runs as [tx_outcome] says. *)
Lemma WithTx_top {A} ctx (code : TxM A) w :
  ctx_tx ctx = None -> idle w ->
  WithTx ctx (fun ctx => GetQuerier ctx code) w = tx_outcome code w.
Proof.
  intros Hc [Hb Hf]. unfold WithTx, TxFromContext, tx_outcome. rewrite Hc.
  unfold mbind, App_bind, wrapA. rewrite Begin_eval by (rewrite ?Hb; done). simpl.
  unfold runTx. rewrite GetQuerier_begun.
  destruct (code _ _) as [[a|e|[]] s]; rewrite ?Rollback_ended; try done.
  rewrite Writable_ended, Commit_ended. by destruct (commit_fault _).
Qed.

Lemma WithReadTx_top {A} ctx (code : TxM A) w :
  ctx_tx ctx = None -> begin_fault (length (w_txs w)) = None ->
  WithReadTx ctx (fun ctx => GetQuerier ctx code) w = read_outcome code w.
Proof.
  intros Hc Hf. unfold WithReadTx, TxFromContext, read_outcome. rewrite Hc.
  unfold mbind, App_bind, wrapA. rewrite Begin_eval by done. simpl.
  unfold runTx. rewrite GetQuerier_begun.
  destruct (code _ _) as [[a|e|[]] s]; rewrite ?Rollback_ended; try done.
  by rewrite Writable_ended.
Qed.

(** Joining the caller's transaction: the same code runs in place. *)
Lemma GetQuerier_in {A} wr h ctx (code : TxM A) w db :
  ctx_tx ctx = Some h -> w_txs w !! h = Some (mkTx _ wr TxOpen db) ->
  GetQuerier ctx code w =
  let '(r, s) := code (QTx wr) (mkTS db (w_tick w)) in
  (r, set_tick (ts_tick s) (set_txs (<[h := mkTx _ wr TxOpen (ts_db s)]> (w_txs w)) w)).
Proof. intros Hc Hh. unfold GetQuerier, TxFromContext. by rewrite Hc, Hh. Qed.

Lemma busy_ended wr st txdb db t w :
  busy (ended wr st txdb db t w) =
  busy w || (wr && match st with TxOpen => true | _ => false end).
Proof. unfold busy, ended, is_open. simpl. rewrite existsb_app. simpl. by rewrite orb_false_r. Qed.

(** The parts of the world after a confined callback in a new transaction. *)
Lemma runTx_confined_at {A} wr ctx (cb : Context_ -> App A) w r w' :
  tx_local wr (length (w_txs w)) (begun wr w)
    (cb (with_tx_handle (length (w_txs w)) ctx) (begun wr w)).2 ->
  runTx ctx (length (w_txs w)) cb (begun wr w) = (r, w') ->
  w_log w' = w_log w /\
  (exists st db, w_txs w' = w_txs w ++ [mkTx _ wr st db] /\
     w_txs (cb (with_tx_handle (length (w_txs w)) ctx) (begun wr w)).2 !! length (w_txs w) =
       Some (mkTx _ wr TxOpen db) /\
     (r <> Crash Deadlock -> st <> TxOpen) /\
     (st = TxCommitted -> w_db w' = db) /\ (st <> TxCommitted -> w_db w' = w_db w) /\
     (st = TxCommitted <-> wr = true /\ is_Ok r)).
Proof.
  intros Hcb. unfold runTx.
  destruct (cb _ (begun wr w)) as [r0 w1]. cbn [snd] in *.
  apply begun_local in Hcb as (Edb & Elog & db & Etx).
  assert (Hl : w_txs w1 !! length (w_txs w) = Some (mkTx _ wr TxOpen db))
    by by rewrite Etx, lookup_app_last.
  assert (Hrb : w_txs (Rollback (length (w_txs w)) w1) = w_txs w ++ [mkTx _ wr TxRolledBack db])
    by by (simpl; rewrite Etx, alter_app_last).
  assert (Hend : forall x : outcome A, wr = false \/ (forall a, x <> Ok a) ->
            w_txs (Rollback (length (w_txs w)) w1) = w_txs w ++ [mkTx _ wr TxRolledBack db] /\
            w_txs w1 !! length (w_txs w) = Some (mkTx _ wr TxOpen db) /\
            (x <> Crash Deadlock -> TxRolledBack <> TxOpen) /\
            (TxRolledBack = TxCommitted -> w_db (Rollback (length (w_txs w)) w1) = db) /\
            (TxRolledBack <> TxCommitted -> w_db (Rollback (length (w_txs w)) w1) = w_db w) /\
            (TxRolledBack = TxCommitted <-> wr = true /\ is_Ok x)).
  { intros x Hx. do 5 (split; [done|]).
    split; [done|]. intros [-> [a ->]]. destruct Hx as [Hx|Hx]; [done|]. by destruct (Hx a). }
  destruct r0 as [a|e|[]].
  - rewrite (in_tx_Writable wr) by by exists db. destruct wr.
    + unfold Commit. destruct (commit_fault _) as [e|].
      * intros [= <- <-]. split; [done|]. exists TxRolledBack, db. apply Hend; auto.
      * rewrite Hl. intros [= <- <-]. split; [done|]. exists TxCommitted, db.
        cbn [w_txs w_db set_db set_txs tx_db]. rewrite Etx, alter_app_last.
        do 5 (split; [done|]). by split; [split; [done|by eexists]|].
    + intros [= <- <-]. split; [done|]. exists TxRolledBack, db. apply Hend; auto.
  - intros [= <- <-]. split; [done|]. exists TxRolledBack, db. apply Hend; auto.
  - intros [= <- <-]. split; [done|]. exists TxRolledBack, db. apply Hend; auto.
  - intros [= <- <-]. split; [done|]. exists TxOpen, db. rewrite Etx, lookup_app_last.
    do 5 (split; [done|]). split; [done|]. by intros [_ [a Ha]].
Qed.

Lemma runTx_confined {A} wr ctx (cb : Context_ -> App A) w r w' :
  confined wr (length (w_txs w)) (cb (with_tx_handle (length (w_txs w)) ctx)) ->
  runTx ctx (length (w_txs w)) cb (begun wr w) = (r, w') ->
  w_log w' = w_log w /\
  (exists st db, w_txs w' = w_txs w ++ [mkTx _ wr st db] /\
     w_txs (cb (with_tx_handle (length (w_txs w)) ctx) (begun wr w)).2 !! length (w_txs w) =
       Some (mkTx _ wr TxOpen db) /\
     (r <> Crash Deadlock -> st <> TxOpen) /\
     (st = TxCommitted -> w_db w' = db) /\ (st <> TxCommitted -> w_db w' = w_db w) /\
     (st = TxCommitted <-> wr = true /\ is_Ok r)).
Proof. intros Hcb. apply runTx_confined_at. apply Hcb, begun_in_tx. Qed.

Lemma WithTx_begins {A} ctx (cb : Context_ -> App A) w :
  ctx_tx ctx = None -> idle w -> WithTx ctx cb w = runTx ctx (length (w_txs w)) cb (begun true w).
Proof.
  intros Hc [Hb Hf]. unfold WithTx, TxFromContext. rewrite Hc.
  unfold mbind, App_bind, wrapA. by rewrite Begin_eval by (rewrite ?Hb; done).
Qed.

Lemma WithTx_busy {A} ctx (cb : Context_ -> App A) w :
  ctx_tx ctx = None -> ~ idle w -> exists r, WithTx ctx cb w = (r, w) /\ ~ is_Ok r.
Proof.
  intros Hc Hi. unfold WithTx, TxFromContext. rewrite Hc. unfold mbind, App_bind, wrapA, Begin.
  destruct (begin_fault _) eqn:Ef; [eexists; split; [done|by intros [? ?]]|].
  destruct (busy w) eqn:Eb; [eexists; split; [done|by intros [? ?]]|]. by destruct Hi.
Qed.

Lemma WithReadTx_begins {A} ctx (cb : Context_ -> App A) w :
  ctx_tx ctx = None -> begin_fault (length (w_txs w)) = None ->
  WithReadTx ctx cb w = runTx ctx (length (w_txs w)) cb (begun false w).
Proof.
  intros Hc Hf. unfold WithReadTx, TxFromContext. rewrite Hc.
  unfold mbind, App_bind, wrapA. by rewrite Begin_eval by done.
Qed.

(** Callbacks that agree inside writable transactions are interchangeable. *)
Lemma WithTx_ext {A} ctx (cb cb' : Context_ -> App A) w :
  (forall c h w, ctx_tx c = Some h -> Writable h w = true -> cb c w = cb' c w) ->
  WithTx ctx cb w = WithTx ctx cb' w.
Proof.
  intros Hcb.
  assert (Hnew : (h' ← wrapA "begin tx: %w" [] (Begin true); runTx ctx h' cb) w =
                 (h' ← wrapA "begin tx: %w" [] (Begin true); runTx ctx h' cb') w).
  { unfold mbind, App_bind, wrapA, Begin.
    destruct (begin_fault _); [done|]. destruct (true && busy w); [done|].
    cbn [map_err]. unfold runTx. cbv beta.
    rewrite (Hcb _ (length (w_txs w))); [done|done|].
    by apply (in_tx_Writable true), (begun_in_tx true). }
  unfold WithTx, TxFromContext. destruct (ctx_tx ctx) as [h|] eqn:Ec; [|done].
  destruct (Writable h w) eqn:Ew; [|done]. by apply (Hcb _ h).
Qed.
End toplevel.

(** ** Properties *)

(** C3: WithTx is atomic.  Called outside a transaction with a callback confined
    to the transaction it is given, it either returns Ok and the committed
    database is the one the callback left in its transaction, or (error, failed
    commit or panic) the committed database is unchanged; nothing is published
    either way, and unless the callback deadlocked the writer lock is free
    again. *)
Theorem WithTx_atomic `{Bolt} `{Disk} {A} ctx (cb : Context_ -> App A) w r w' :
  let h := length (w_txs w) in
  ctx_tx ctx = None -> idle w -> confined true h (cb (with_tx_handle h ctx)) ->
  WithTx ctx cb w = (r, w') ->
  w_log w' = w_log w /\
  (r <> Crash Deadlock -> busy w' = false) /\
  (is_Ok r -> exists db,
     w_txs (cb (with_tx_handle h ctx) (begun true w)).2 !! h = Some (mkTx _ true TxOpen db) /\
     w_db w' = db) /\
  (~ is_Ok r -> w_db w' = w_db w).
Proof.
  intros h Hc Hi Hcb Hr. rewrite WithTx_begins in Hr by done.
  apply runTx_confined in Hr as (Hlog & st & db & Htx & Hin & Hst & Hcom & Hrb & Hiff); [|done].
  split; [done|]. split; [|split].
  - intros Hd. unfold busy. rewrite Htx, existsb_app. destruct Hi as [Hb _]. unfold busy in Hb.
    rewrite Hb. simpl. unfold is_open. simpl. by destruct st; specialize (Hst Hd).
  - intros Hok. exists db. split; [done|]. by apply Hcom, Hiff.
  - intros Hno. apply Hrb. intros E. by apply Hno, Hiff.
Qed.

(** A world with one bucket, nothing begun and nothing published. *)
Definition world_with (db : DB) : World := mkWorld _ db [] 0 [] [].

Definition ctx_background : Context_ := mkContext None None None.

Lemma WithTx_atomic_witness :
  let cb ctx := GetQuerier ctx (bucket_Put "content" (str "k") (str "v")) in
  let '(r, w') := WithTx ctx_background cb (world_with {["content" := bolt_empty]}) in
  r = Ok tt /\ view (w_db w') !! ("content", str "k") = Some (str "v") /\ busy w' = false.
Proof.
  intros cb. pose (w := world_with {["content" := bolt_empty]}).
  change (world_with {["content" := bolt_empty]}) with w.
  destruct (WithTx ctx_background cb w) as [r w'] eqn:E.
  assert (Er : r = Ok tt) by (apply (f_equal fst) in E; vm_compute in E; done).
  destruct (WithTx_atomic ctx_background cb w r w') as (_ & Hb & Hok & _); [done|done| |done|].
  { by apply confined_GetQuerier. }
  destruct Hok as (db & Hdb & Ew); [by exists tt|].
  split; [done|]. split; [|by apply Hb; rewrite Er].
  rewrite Ew. apply (f_equal (fmap (fun tx => view (tx_db tx) !! ("content", str "k")))) in Hdb.
  cbn [fmap option_fmap option_map tx_db] in Hdb. apply (inj Some). rewrite <- Hdb. by vm_compute.
Defined.

(** C20: nesting flattens.  A WithTx or a WithReadTx inside a WithTx runs its
    callback in the outer transaction, for every context and every world. *)
Theorem WithTx_flatten `{Bolt} `{Disk} {A} ctx (cb : Context_ -> App A) w :
  WithTx ctx (fun ctx' => WithTx ctx' cb) w = WithTx ctx cb w /\
  WithTx ctx (fun ctx' => WithReadTx ctx' cb) w = WithTx ctx cb w.
Proof.
  split; apply WithTx_ext; intros c h w' Hc Hw.
  - unfold WithTx, TxFromContext. by rewrite Hc, Hw.
  - unfold WithReadTx, TxFromContext. by rewrite Hc.
Qed.

(** WithReadTx never changes the database: whatever its callback attempts in
    the read-only transaction, the committed database, the publisher and the
    writer lock are as before. *)
Theorem WithReadTx_preserves `{Bolt} `{Disk} {A} ctx (cb : Context_ -> App A) w r w' :
  let h := length (w_txs w) in
  ctx_tx ctx = None -> confined false h (cb (with_tx_handle h ctx)) ->
  WithReadTx ctx cb w = (r, w') ->
  w_db w' = w_db w /\ w_log w' = w_log w /\ busy w' = busy w.
Proof.
  intros h Hc Hcb Hr. destruct (begin_fault (length (w_txs w))) as [e|] eqn:Hf.
  { unfold WithReadTx, TxFromContext, mbind, App_bind, wrapA, Begin in Hr.
    rewrite Hc, Hf in Hr. by injection Hr as <- <-. }
  rewrite WithReadTx_begins in Hr by done.
  apply runTx_confined in Hr as (Hlog & st & db & Htx & Hin & Hst & Hcom & Hrb & Hiff); [|done].
  split; [|split; [done|]].
  - apply Hrb. intros E. by apply Hiff in E as [? _].
  - unfold busy. rewrite Htx, existsb_app. simpl. by rewrite orb_false_r.
Qed.

Lemma WithReadTx_preserves_witness :
  let cb ctx := GetQuerier ctx (bucket_Put "content" (str "k") (str "v")) in
  let w := world_with {["content" := bolt_empty]} in
  let '(r, w') := WithReadTx ctx_background cb w in
  w_db w' = w_db w /\ w_log w' = w_log w /\ busy w' = busy w.
Proof.
  intros cb w. destruct (WithReadTx ctx_background cb w) as [r w'] eqn:E.
  eapply (WithReadTx_preserves ctx_background cb); [done| |done]. by apply confined_GetQuerier.
Defined.
