(* ===== verification/ConfigRepo.v ===== *)
(** * The config repository: internal/storage/bbolt/config

    repository.go and etcd.go: configs live in the buckets [content] and [meta]
    under [configKey], every written content in [history] under [historyKey],
    one row per revision in [changelog], lock events in [lock_history] and
    [lock_changelog], and the two counters in [sys].

    The functions that take a [bbolt.Querier] are [TxM] programs; the methods of
    [Repository] wrap them in a transaction of the manager and are [App]
    programs.  A method that assigns to its [*domain.Config] argument returns
    the assigned config. *)

From S2P Require Import Prelude.
From S2P Require Import Bolt.
From S2P Require Import Keys.
From S2P Require Import Domain.
From S2P Require Import Manager.
From stdpp Require Import base list gmap strings.
From Stdlib Require Import Ascii ZArith Lia.
Open Scope Z_scope.

Definition bucketContent : string := "content".
Definition bucketMeta : string := "meta".
Definition bucketNamespaces : string := "namespaces".
Definition bucketChangelog : string := "changelog".
Definition bucketHistory : string := "history".
Definition bucketSys : string := "sys".
Definition bucketLockHistory : string := "lock_history".
Definition bucketLockChangelog : string := "lock_changelog".

Definition sysRevisionKeyName : string := "revision".
Definition sysLockSeqKeyName : string := "lock_event_seq".

Section repository.
Context `{Bolt} `{Clock} `{Codecs}.

(** ** Counters *)

(** The body shared by nextRevision and nextLockSeq: read, add one, write. *)
Definition nextCounter (name : string) (fmt : string) : TxM Z :=
  b ← bucket_Get bucketSys (str name);
  let current := parseRevision (default [] b) in
  let next := int64 (current + 1) in
  _ ← wrapE fmt [] (bucket_Put bucketSys (str name) (revisionBytes next));
  mret next.

Definition nextRevision : TxM Z := nextCounter sysRevisionKeyName "update revision: %w".

Definition nextLockSeq : TxM Z := nextCounter sysLockSeqKeyName "update lock seq: %w".

(** ** Namespace locks *)

Definition isNamespaceLocked (namespace : bytes) : TxM bool :=
  data ← bucket_Get bucketNamespaces namespace;
  match data with
  | None => mret false
  | Some d =>
      match bbolt.JSONCodec_Unmarshal (T:=NamespaceMeta) d with
      | inl e => txfail (EWrap "unmarshal namespace meta: %w" [] e)
      | inr m => mret (nm_Locked m)
      end
  end.

Definition validateNamespaceUnlocked (namespace : bytes) : TxM unit :=
  locked ← isNamespaceLocked namespace;
  if (locked : bool) then txfail (EWrap "namespace %q: %w" [FStr namespace] ErrNamespaceLocked)
  else mret tt.

(** nsLockCache.get: the answer and the cache after it. *)
Definition nsLockCache_get (c : gmap bytes bool) (namespace : bytes) : TxM (bool * gmap bytes bool) :=
  match c !! namespace with
  | Some v => mret (v, c)
  | None =>
      v ← isNamespaceLocked namespace;
      mret (v, <[namespace := v]> c)
  end.

(** ** Writes of one revision *)

Definition writeHistory (namespace path : bytes) (revision : Z) (content : bytes) : TxM unit :=
  wrapE "put history: %w" []
    (bucket_Put bucketHistory (historyKey namespace path revision) content).

Definition writeChangelog (revision eventType : Z) (path namespace : bytes) (version : Z) :
    TxM unit :=
  now ← Now;
  let entry := mkStoredChange eventType path namespace version now in
  wrapE "put changelog: %w" [] (bbolt.Put bucketChangelog (revisionBytes revision) entry).

Definition writeConfigEntry (key : bytes) (cfg : Config) (revision eventType : Z) : TxM unit :=
  _ ← wrapE "put content: %w" [] (bucket_Put bucketContent key (cfg_Content cfg));
  _ ← wrapE "put meta: %w" [] (bbolt.Put bucketMeta key (DomainToConfigMeta cfg));
  _ ← writeHistory (cfg_Namespace cfg) (cfg_Path cfg) revision (cfg_Content cfg);
  writeChangelog revision eventType (cfg_Path cfg) (cfg_Namespace cfg) (cfg_Version cfg).

Definition writeLockHistory (namespace path : bytes) (eventType : Z) : TxM unit :=
  seq ← nextLockSeq;
  now ← Now;
  let entry := mkLockHistoryEntry eventType now in
  let histKey := historyPrefix namespace path ++ revisionBytes seq in
  _ ← wrapE "put lock history: %w" [] (bbolt.Put bucketLockHistory histKey entry);
  let cl := mkStoredChange eventType path namespace 0 now in
  wrapE "put lock changelog: %w" [] (bbolt.Put bucketLockChangelog (revisionBytes seq) cl).

(** bbolt.Get of a meta record with ErrNotFound mapped to a storage error. *)
Definition getMeta (path key : bytes) (fmt : string) : TxM ConfigMeta :=
  r ← attempt (bbolt.Get (T:=ConfigMeta) bucketMeta key);
  match r with
  | inr m => mret m
  | inl e =>
      if errors_Is e (ESentinel BboltErrNotFound)
      then txfail (EWrap "config %s: %w" [FStr path] ErrResourceNotFound)
      else txfail (EWrap fmt [] e)
  end.

(** ** Create, Update, Delete *)

Definition createConfigTx (cfg : Config) : TxM Config :=
  _ ← validateNamespaceUnlocked (cfg_Namespace cfg);
  let key := configKey (cfg_Namespace cfg) (cfg_Path cfg) in
  exists_ ← bbolt.Exists bucketMeta key;
  if (exists_ : bool)
  then txfail (EWrap "config %s: %w" [FStr (cfg_Path cfg)] ErrResourceAlreadyExists)
  else
    let cfg := SetDefaults (GenerateHash cfg) in
    now ← Now;
    revision ← nextRevision;
    let cfg := stamp cfg 1 revision revision now now in
    _ ← writeConfigEntry key cfg revision EventTypeCreated;
    mret cfg.

Definition validateUpdatePreconditions (existing : ConfigMeta) (cfg : Config) : outcome unit :=
  if m_Locked existing then
    Err (EWrap "update precondition: %w" [] (NewLockedError (cfg_Path cfg)))
  else if negb (m_Version existing =? cfg_Version cfg) then
    Err (EWrap "update precondition: %w" []
           (NewConflictError (cfg_Version cfg) (m_Version existing)))
  else Ok tt.

Definition liftT {A} (r : outcome A) : TxM A := fun q s => (r, s).

Definition updateConfigTx (cfg : Config) : TxM Config :=
  _ ← validateNamespaceUnlocked (cfg_Namespace cfg);
  let key := configKey (cfg_Namespace cfg) (cfg_Path cfg) in
  existing ← getMeta (cfg_Path cfg) key "get existing meta: %w";
  _ ← liftT (validateUpdatePreconditions existing cfg);
  let cfg := GenerateHash cfg in
  now ← Now;
  revision ← nextRevision;
  let cfg := stamp cfg (int64 (m_Version existing + 1)) revision (m_CreateRevision existing)
               (m_CreatedAt existing) now in
  _ ← writeConfigEntry key cfg revision EventTypeUpdated;
  mret cfg.

Definition deleteConfigTx (path namespace : bytes) : TxM Z :=
  _ ← validateNamespaceUnlocked namespace;
  let key := configKey namespace path in
  existing ← getMeta path key "get existing meta: %w";
  if m_Locked existing then txfail (EWrap "config %q: %w" [FStr path] ErrLocked)
  else
    revision ← nextRevision;
    _ ← wrapE "delete content: %w" [] (bbolt.Delete bucketContent key);
    _ ← wrapE "delete meta: %w" [] (bbolt.Delete bucketMeta key);
    _ ← writeChangelog revision EventTypeDeleted path namespace 0;
    mret revision.

Definition setLocked (b : bool) (m : ConfigMeta) : ConfigMeta :=
  mkConfigMeta (m_ContentHash m) (m_Format m) (m_Version m) (m_Revision m)
    (m_CreateRevision m) (m_Metadata m) b (m_CreatedAt m) (m_UpdatedAt m).

Definition toggleConfigLockTx (namespace path : bytes) (locked : bool) : TxM unit :=
  _ ← validateNamespaceUnlocked namespace;
  let key := configKey namespace path in
  m ← getMeta path key "get meta: %w";
  if Bool.eqb (m_Locked m) locked then mret tt
  else
    _ ← wrapE "put meta: %w" [] (bbolt.Put bucketMeta key (setLocked locked m));
    writeLockHistory namespace path (if locked then EventTypeLocked else EventTypeUnlocked).
End repository.
