(* ===== verification/ConfigReads.v ===== *)
(** * Reads of the config repository

    The read methods of internal/storage/bbolt/config/repository.go: lookups,
    prefix scans of the [meta] bucket with pagination, the history and changelog
    queries. *)

From S2P Require Import Prelude.
From S2P Require Import Bolt.
From S2P Require Import Keys.
From S2P Require Import Domain.
From S2P Require Import Manager.
From S2P Require Import ConfigRepo.
From stdpp Require Import base list gmap strings.
From Stdlib Require Import Ascii ZArith Lia.
Open Scope Z_scope.

(** The pairs [for k, v := c.Last(); k != nil; k, v = c.Prev()] visits. *)
Definition cur_backward (c : cursor) : list (bytes * bytes) :=
  match cur_after c with [] => [] | kv :: _ => kv :: cur_before c end.

Definition shouldSkipByPath (k namespace pathPrefix : bytes) : bool :=
  if bool_decide (namespace <> [] \/ pathPrefix = [] \/ pathPrefix = str "/") then false
  else negb (has_prefix (parseConfigKey k).2 pathPrefix).

Section reads.
Context `{Bolt} `{Codecs} `{GoSort} `{UnicodeLower}.

(** The body of Get. *)
Definition getConfigTx (path namespace : bytes) : TxM Config :=
  let key := configKey namespace path in
  m ← getMeta path key "get meta: %w";
  content ← bucket_Get bucketContent key;
  let cfg := ConfigMetaToDomain m (default [] content) path namespace in
  nsLocked ← isNamespaceLocked namespace;
  mret (setNamespaceLocked nsLocked cfg).

(** scanMeta, with the accumulator its callback closes over. *)
Definition scanMeta {A} (namespace pathPrefix : bytes)
    (fn : bytes -> ConfigMeta -> A -> TxM A) (acc : A) : TxM A :=
  c ← bucket_Cursor bucketMeta;
  let prefix := configKeyPrefix namespace pathPrefix in
  let c := match prefix with Some p => cursor_Seek p c | None => cursor_First c end in
  forM (cur_after c) (fun kv acc =>
    if match prefix with Some p => negb (has_prefix kv.1 p) | None => false end
    then mret (Break acc)
    else if shouldSkipByPath kv.1 namespace pathPrefix then mret (Continue acc)
    else
      match bbolt.JSONCodec_Unmarshal (T:=ConfigMeta) kv.2 with
      | inl e => txfail (EWrap "unmarshal meta for key %s: %w" [FStr kv.1] e)
      | inr m => a ← fn kv.1 m acc; mret (Continue a)
      end) acc.

(** The config a scan callback builds from one meta row. *)
Definition hydrate (key : bytes) (m : ConfigMeta) (cache : gmap bytes bool) :
    TxM (Config * gmap bytes bool) :=
  let '(ns, path) := parseConfigKey key in
  contentBytes ← bucket_Get bucketContent key;
  let cfg := ConfigMetaToDomain m (default [] contentBytes) path ns in
  '(nsLocked, cache) ← nsLockCache_get cache ns;
  mret (setNamespaceLocked nsLocked cfg, cache).

Definition summarize (key : bytes) (m : ConfigMeta) (cache : gmap bytes bool) :
    TxM (ConfigSummary * gmap bytes bool) :=
  let '(ns, path) := parseConfigKey key in
  let s := ConfigMetaToSummary m path ns in
  '(nsLocked, cache) ← nsLockCache_get cache ns;
  mret (setSummaryNamespaceLocked nsLocked s, cache).

Definition listByPrefixTx (pathPrefix namespace : bytes) : TxM (list Config) :=
  '(configs, _) ← scanMeta namespace pathPrefix (fun key m '(configs, cache) =>
     '(cfg, cache) ← hydrate key m cache;
     mret (configs ++ [cfg], cache)) ([], ∅);
  mret configs.

Definition listSummariesByPrefixTx (pathPrefix namespace : bytes) : TxM (list ConfigSummary) :=
  '(summaries, _) ← scanMeta namespace pathPrefix (fun key m '(summaries, cache) =>
     '(s, cache) ← summarize key m cache;
     mret (summaries ++ [s], cache)) ([], ∅);
  mret summaries.

(** One step of a paginated scan: the page so far, the cache and the index. *)
Definition pageStep {X} (build : bytes -> ConfigMeta -> gmap bytes bool -> TxM (X * gmap bytes bool))
    (limit offset : Z) (key : bytes) (m : ConfigMeta) (st : list X * gmap bytes bool * Z) :
    TxM (list X * gmap bytes bool * Z) :=
  let '(page, cache, idx) := st in
  if (offset <=? idx) && (Z.of_nat (length page) <? limit) then
    '(x, cache) ← build key m cache;
    mret (page ++ [x], cache, idx + 1)
  else mret (page, cache, idx + 1).

Definition listSummaryPageTx (pathPrefix namespace : bytes) (limit offset : Z) :
    TxM (list ConfigSummary * Z) :=
  '(page, _, total) ← scanMeta namespace pathPrefix (pageStep summarize limit offset) ([], ∅, 0);
  mret (page, total).

Definition listConfigPageTx (pathPrefix namespace : bytes) (limit offset : Z) :
    TxM (list Config * Z) :=
  '(page, _, total) ← scanMeta namespace pathPrefix (pageStep hydrate limit offset) ([], ∅, 0);
  mret (page, total).

Definition countByNamespaceTx (namespace : bytes) : TxM Z :=
  scanMeta namespace (str "/") (fun _ _ count => mret (count + 1)) 0.

Definition searchByPathTx (query namespace : bytes) : TxM (list ConfigSummary) :=
  let queryLower := ToLower query in
  c ← bucket_Cursor bucketMeta;
  let prefix := default [] (configKeyPrefix namespace []) in
  let c := if bool_decide (namespace <> []) then cursor_Seek prefix c else cursor_First c in
  forM (cur_after c) (fun kv results =>
    if bool_decide (namespace <> []) && negb (has_prefix kv.1 prefix) then mret (Break results)
    else
      let '(ns, path) := parseConfigKey kv.1 in
      if negb (contains (ToLower path) queryLower) then mret (Continue results)
      else
        match bbolt.JSONCodec_Unmarshal (T:=ConfigMeta) kv.2 with
        | inl e => txfail (EWrap "unmarshal meta: %w" [] e)
        | inr m => mret (Continue (results ++ [ConfigMetaToSummary m path ns]))
        end) [].

(** ** History and changelog *)

(** The event type and time a changelog row adds to a history entry; a missing
    or unreadable row leaves both zero. *)
Definition changeInfo (revision : Z) : TxM (Z * Z) :=
  clData ← bucket_Get bucketChangelog (revisionBytes revision);
  mret (match clData with
        | None => (0, timeZero)
        | Some d =>
            match bbolt.JSONCodec_Unmarshal (T:=StoredChange) d with
            | inr cl => (sc_Type cl, sc_Timestamp cl)
            | inl _ => (0, timeZero)
            end
        end).

Definition historyEntryAt (rev : Z) (content : bytes) : TxM HistoryEntry :=
  '(ty, ts) ← changeInfo rev;
  mret (mkHistoryEntry rev content (computeHash content) ty ts).

Definition collectContentHistory (prefix : bytes) : TxM (list HistoryEntry) :=
  c ← bucket_Cursor bucketHistory;
  forM (cur_after (cursor_Seek prefix c)) (fun kv entries =>
    if negb (has_prefix kv.1 prefix) then mret (Break entries)
    else
      content ← bucket_Get bucketHistory kv.1;
      let rev := parseRevision (drop (length prefix) kv.1) in
      entry ← historyEntryAt rev (default [] content);
      mret (Continue (entries ++ [entry]))) [].

Definition lockEntry (e : LockHistoryEntry) : HistoryEntry :=
  mkHistoryEntry 0 [] [] (lh_Type e) (lh_Timestamp e).

Definition collectConfigLockHistory (prefix : bytes) : TxM (list HistoryEntry) :=
  c ← bucket_Cursor bucketLockHistory;
  forM (cur_after (cursor_Seek prefix c)) (fun kv entries =>
    if negb (has_prefix kv.1 prefix) then mret (Break entries)
    else
      match bbolt.JSONCodec_Unmarshal (T:=LockHistoryEntry) kv.2 with
      | inl _ => mret (Continue entries)
      | inr lhe => mret (Continue (entries ++ [lockEntry lhe]))
      end) [].

Definition collectNamespaceLockHistory (namespace : bytes) : TxM (list HistoryEntry) :=
  let nsPrefix := historyPrefix namespace [] in
  c ← bucket_Cursor bucketLockHistory;
  forM (cur_after (cursor_Seek nsPrefix c)) (fun kv entries =>
    if negb (has_prefix kv.1 nsPrefix) then mret (Break entries)
    else if negb (Nat.eqb (length kv.1 - length nsPrefix) revisionSize) then mret (Continue entries)
    else
      match bbolt.JSONCodec_Unmarshal (T:=LockHistoryEntry) kv.2 with
      | inl _ => mret (Continue entries)
      | inr lhe => mret (Continue (entries ++ [lockEntry lhe]))
      end) [].

(** [sort.Slice] by descending time, then the first [limit]. *)
Definition mergeHistoryEntries (content lock : list HistoryEntry) (limit : Z) : list HistoryEntry :=
  let merged := sort_Slice (fun a b => he_Timestamp b <? he_Timestamp a) (content ++ lock) in
  if limit <? Z.of_nat (length merged) then take (Z.to_nat limit) merged else merged.

Definition getConfigHistoryTx (path namespace : bytes) (limit : Z) : TxM (list HistoryEntry) :=
  let prefix := historyPrefix namespace path in
  contentEntries ← collectContentHistory prefix;
  lockEntries ← collectConfigLockHistory prefix;
  nsEntries ← collectNamespaceLockHistory namespace;
  mret (mergeHistoryEntries contentEntries (lockEntries ++ nsEntries) limit).

(** The cursor positioning shared by GetAtRevision and lookupHistoryAtRevision:
    the row at the revision, or the one before it. *)
Definition seekRevision (prefix seekKey : bytes) (c : cursor) : cursor :=
  let c := cursor_Seek seekKey c in
  match cur_kv c with
  | None => cursor_Prev c
  | Some (k, _) =>
      if negb (has_prefix k prefix) then cursor_Prev c
      else if negb (bytes_eqb k seekKey) then cursor_Prev c
      else c
  end.

Definition getAtRevisionTx (path namespace : bytes) (revision : Z) : TxM HistoryEntry :=
  let seekKey := historyKey namespace path revision in
  let prefix := historyPrefix namespace path in
  let notFound := EWrap "config history %s: %w" [FStr path] ErrResourceNotFound in
  c ← bucket_Cursor bucketHistory;
  match cur_kv (seekRevision prefix seekKey c) with
  | None => txfail notFound
  | Some (k, v) =>
      if negb (has_prefix k prefix) then txfail notFound
      else historyEntryAt (parseRevision (drop (length prefix) k)) v
  end.

Definition currentRevisionTx : TxM Z :=
  b ← bucket_Get bucketSys (str sysRevisionKeyName);
  mret (match b with Some b => parseRevision b | None => 0 end).

Definition listChangesTx (sinceRevision limit : Z) : TxM (list ChangelogEntry) :=
  let seekKey := revisionBytes (int64 (sinceRevision + 1)) in
  c ← bucket_Cursor bucketChangelog;
  forM (cur_after (cursor_Seek seekKey c)) (fun kv entries =>
    if negb (Z.of_nat (length entries) <? limit) then mret (Break entries)
    else
      match bbolt.JSONCodec_Unmarshal (T:=StoredChange) kv.2 with
      | inl e => txfail (EWrap "unmarshal changelog entry: %w" [] e)
      | inr e => mret (Continue (entries ++ [ChangelogEntryToDomain e (parseRevision kv.1)]))
      end) [].

Definition collectRecentChangelog (bkt : string) (limit : Z) : TxM (list ChangelogEntry) :=
  c ← bucket_Cursor bkt;
  forM (cur_backward (cursor_Last c)) (fun kv entries =>
    if negb (Z.of_nat (length entries) <? limit) then mret (Break entries)
    else
      match bbolt.JSONCodec_Unmarshal (T:=StoredChange) kv.2 with
      | inl _ => mret (Continue entries)
      | inr e => mret (Continue (entries ++ [ChangelogEntryToDomain e (parseRevision kv.1)]))
      end) [].

Definition listRecentChangesTx (limit : Z) : TxM (list ChangelogEntry) :=
  let limit := if limit <=? 0 then 50 else limit in
  contentEntries ← collectRecentChangelog bucketChangelog limit;
  lockEntries ← collectRecentChangelog bucketLockChangelog limit;
  let all := sort_Slice (fun a b => cl_Timestamp b <? cl_Timestamp a)
               (contentEntries ++ lockEntries) in
  mret (if limit <? Z.of_nat (length all) then take (Z.to_nat limit) all else all).
End reads.
