(* ===== verification/EtcdRepo.v ===== *)
(** * The etcd-shaped operations of the config repository

    internal/storage/bbolt/config/etcd.go: range reads, upserts and range
    deletes over the same buckets as ConfigRepo.v. *)

From S2P Require Import Prelude.
From S2P Require Import Bolt.
From S2P Require Import Keys.
From S2P Require Import Domain.
From S2P Require Import Manager.
From S2P Require Import ConfigRepo.
From S2P Require Import ConfigReads.
From stdpp Require Import base list gmap strings.
From Stdlib Require Import Ascii ZArith Lia.
Open Scope Z_scope.

Record rangeParams := mkRangeParams {
  startKey : bytes;
  endKey : bytes;        (* empty for Go's nil *)
  singleKey : bool;
  scanAll : bool;
}.

(** The Go string with the one byte 0, etcd's "all keys from here". *)
Definition zeroString : bytes := [Ascii.zero].

Definition buildRangeParams (startNS startPath endNS endPath : bytes) : rangeParams :=
  let singleKey := bool_decide (endNS = []) && bool_decide (endPath = []) in
  let scanAll := bool_decide (endNS = zeroString) in
  let startKey := configKey startNS startPath in
  let endKey := if negb singleKey && negb scanAll then configKey endNS endPath else [] in
  mkRangeParams startKey endKey singleKey scanAll.

Definition shouldBreakRange (k : bytes) (rp : rangeParams) : bool :=
  if singleKey rp then negb (bytes_eqb k (startKey rp))
  else if negb (scanAll rp) && (0 <? length (endKey rp))%nat then negb (bytes_ltb k (endKey rp))
  else false.

Record existingKeyInfo := mkExistingKeyInfo {
  ex_meta : ConfigMeta;
  ex_prevValueCopy : option bytes;
}.

Record deleteTarget := mkDeleteTarget { dt_key : bytes; dt_kv : KVPair }.

(** A zero [ConfigMeta], for the zero [existingKeyInfo]. *)
Definition zeroMeta : ConfigMeta := mkConfigMeta [] [] 0 0 0 None false timeZero timeZero.
Definition zeroExisting : existingKeyInfo := mkExistingKeyInfo zeroMeta None.

Definition buildPrevKV (existing : existingKeyInfo) (found : bool) (namespace path : bytes) :
    option KVPair :=
  if negb found then None
  else Some (mkKVPair namespace path (ex_prevValueCopy existing)
               (m_CreateRevision (ex_meta existing)) (m_Revision (ex_meta existing))
               (m_Version (ex_meta existing))).

Definition checkPutAllowed (existing : existingKeyInfo) (found : bool) (path : bytes) : outcome unit :=
  if found && m_Locked (ex_meta existing)
  then Err (EWrap "put: %w" [] (NewLockedError path))
  else Ok tt.

Section etcd.
Context `{Bolt} `{Clock} `{Codecs}.

Definition lookupHistoryAtRevision (namespace path : bytes) (revision : Z) : TxM (option bytes) :=
  let seekKey := historyKey namespace path revision in
  let prefix := historyPrefix namespace path in
  c ← bucket_Cursor bucketHistory;
  mret (match cur_kv (seekRevision prefix seekKey c) with
        | None => None
        | Some (k, v) => if negb (has_prefix k prefix) then None else Some v
        end).

(** Value, mod revision; [None] when the key is to be skipped. *)
Definition readKVValue (k ns path : bytes) (m : ConfigMeta) (revision : Z) (keysOnly : bool) :
    TxM (option (option bytes * Z)) :=
  if keysOnly then mret (Some (None, m_Revision m))
  else if (0 <? revision) && (revision <? m_Revision m) then
    histVal ← lookupHistoryAtRevision ns path revision;
    match histVal with
    | None => mret None
    | Some v => mret (Some (Some v, revision))
    end
  else
    raw ← bucket_Get bucketContent k;
    mret (Some (Some (default [] raw), m_Revision m)).

(** The loop of RangeQuery over the pairs from the cursor on. *)
Fixpoint rangeLoop (rp : rangeParams) (limit revision : Z) (keysOnly : bool)
    (l : list (bytes * bytes)) (results : list KVPair) : TxM (list KVPair * bool) :=
  match l with
  | [] => mret (results, false)
  | (k, v) :: rest =>
      if shouldBreakRange k rp then mret (results, false)
      else
        match bbolt.JSONCodec_Unmarshal (T:=ConfigMeta) v with
        | inl e => txfail (EWrap "unmarshal meta: %w" [] e)
        | inr m =>
            let '(ns, path) := parseConfigKey k in
            r ← readKVValue k ns path m revision keysOnly;
            match r with
            | None => rangeLoop rp limit revision keysOnly rest results
            | Some (val, modRev) =>
                let results := results ++ [mkKVPair ns path val (m_CreateRevision m) modRev (m_Version m)] in
                if (0 <? limit) && (limit <=? Z.of_nat (length results))
                then mret (results, match rest with [] => false | _ :: _ => true end)
                else rangeLoop rp limit revision keysOnly rest results
            end
        end
  end.

Definition rangeQueryTx (startNS startPath endNS endPath : bytes) (limit revision : Z)
    (keysOnly : bool) : TxM (list KVPair * bool) :=
  let rp := buildRangeParams startNS startPath endNS endPath in
  c ← bucket_Cursor bucketMeta;
  rangeLoop rp limit revision keysOnly (cur_after (cursor_Seek (startKey rp) c)) [].

Definition resolveExistingKey (key : bytes) : TxM (existingKeyInfo * bool) :=
  r ← attempt (bbolt.Get (T:=ConfigMeta) bucketMeta key);
  match r with
  | inl e =>
      if errors_Is e (ESentinel BboltErrNotFound) then mret (zeroExisting, false)
      else txfail (EWrap "unmarshal existing meta: %w" [] e)
  | inr m =>
      prevVal ← bucket_Get bucketContent key;
      mret (mkExistingKeyInfo m prevVal, true)
  end.

Definition buildPutMeta (path value : bytes) (revision : Z) (existing : existingKeyInfo)
    (found : bool) : TxM (ConfigMeta * Z) :=
  now ← Now;
  let hash := computeHash value in
  let format := DetectFormatFromPath path in
  let m := ex_meta existing in
  if found then
    mret (mkConfigMeta hash format (int64 (m_Version m + 1)) revision (m_CreateRevision m)
            (m_Metadata m) (m_Locked m) (m_CreatedAt m) now, EventTypeUpdated)
  else
    mret (mkConfigMeta hash format 1 revision revision None false now now, EventTypeCreated).

Definition putKeyTx (namespace path value : bytes) : TxM (option KVPair * Z) :=
  let key := configKey namespace path in
  '(existing, found) ← resolveExistingKey key;
  _ ← validateNamespaceUnlocked namespace;
  _ ← liftT (checkPutAllowed existing found path);
  revision ← nextRevision;
  '(newMeta, eventType) ← buildPutMeta path value revision existing found;
  let prev := buildPrevKV existing found namespace path in
  _ ← wrapE "put content: %w" [] (bucket_Put bucketContent key value);
  _ ← wrapE "put meta: %w" [] (bbolt.Put bucketMeta key newMeta);
  _ ← writeHistory namespace path revision value;
  _ ← writeChangelog revision eventType path namespace (m_Version newMeta);
  mret (prev, revision).

Definition collectDeleteTargets (rp : rangeParams) (returnPrev : bool) : TxM (list deleteTarget) :=
  c ← bucket_Cursor bucketMeta;
  forM (cur_after (cursor_Seek (startKey rp) c)) (fun kv targets =>
    let '(k, v) := kv in
    if shouldBreakRange k rp then mret (Break targets)
    else
      let '(ns, path) := parseConfigKey k in
      match bbolt.JSONCodec_Unmarshal (T:=ConfigMeta) v with
      | inl e => txfail (EWrap "unmarshal meta: %w" [] e)
      | inr m =>
          if m_Locked m then txfail (EWrap "delete range: %w" [] (NewLockedError path))
          else if returnPrev then
            val ← bucket_Get bucketContent k;
            mret (Continue (targets ++
              [mkDeleteTarget k (mkKVPair ns path val (m_CreateRevision m) (m_Revision m) (m_Version m))]))
          else
            mret (Continue (targets ++ [mkDeleteTarget k (mkKVPair ns path None 0 0 0)]))
      end) [].

(** The loop that deletes the collected keys, all at one revision. *)
Fixpoint deleteTargets (revision : Z) (targets : list deleteTarget) : TxM unit :=
  match targets with
  | [] => mret tt
  | t :: rest =>
      _ ← wrapE "delete content: %w" [] (bucket_Delete bucketContent (dt_key t));
      _ ← wrapE "delete meta: %w" [] (bucket_Delete bucketMeta (dt_key t));
      _ ← writeChangelog revision EventTypeDeleted (kv_Path (dt_kv t)) (kv_Namespace (dt_kv t)) 0;
      deleteTargets revision rest
  end.

Definition deleteRangeKeysTx (rp : rangeParams) (startNS : bytes) (returnPrev : bool) :
    TxM (list KVPair * Z) :=
  _ ← validateNamespaceUnlocked startNS;
  targets ← collectDeleteTargets rp returnPrev;
  match targets with
  | [] => mret ([], 0)
  | _ :: _ =>
      revision ← nextRevision;
      _ ← deleteTargets revision targets;
      mret (dt_kv <$> targets, revision)
  end.
End etcd.
