(* ===== verification/Repository.v ===== *)
(** * The methods of config.Repository

    internal/storage/bbolt/config/repository.go and etcd.go: each public method
    runs one of the programs of ConfigRepo.v, ConfigReads.v and EtcdRepo.v in a
    transaction of the manager and wraps its error.  Inside a caller's
    transaction (a use case's WithTx) the same method joins it. *)

From S2P Require Import Prelude.
From S2P Require Import Bolt.
From S2P Require Import Keys.
From S2P Require Import Domain.
From S2P Require Import Manager.
From S2P Require Import ConfigRepo.
From S2P Require Import ConfigReads.
From S2P Require Import EtcdRepo.
From stdpp Require Import base list gmap strings.
From Stdlib Require Import Ascii ZArith Lia.
Open Scope Z_scope.

Module Repository.

Section methods.
Context `{Bolt} `{Disk} `{Clock} `{Codecs} `{GoSort} `{UnicodeLower}.

(** [r.dbm.WithTx(ctx, func(ctx) { q := r.dbm.GetQuerier(ctx); ... })] with its
    error wrapper, and the read-only form. *)
Definition write {A} (fmt : string) (ctx : Context_) (code : TxM A) : App A :=
  wrapA fmt [] (WithTx ctx (fun ctx => GetQuerier ctx code)).

Definition read {A} (fmt : string) (ctx : Context_) (code : TxM A) : App A :=
  wrapA fmt [] (WithReadTx ctx (fun ctx => GetQuerier ctx code)).

Definition Create (ctx : Context_) (cfg : Config) : App Config :=
  write "create config: %w" ctx (createConfigTx cfg).

Definition Get (ctx : Context_) (path namespace : bytes) : App Config :=
  read "get config: %w" ctx (getConfigTx path namespace).

Definition Update (ctx : Context_) (cfg : Config) : App Config :=
  write "update config: %w" ctx (updateConfigTx cfg).

Definition Delete (ctx : Context_) (path namespace : bytes) : App Z :=
  write "delete config: %w" ctx (deleteConfigTx path namespace).

Definition ListByPrefix (ctx : Context_) (pathPrefix namespace : bytes) : App (list Config) :=
  read "list configs by prefix: %w" ctx (listByPrefixTx pathPrefix namespace).

Definition ListAllByNamespace (ctx : Context_) (namespace : bytes) : App (list Config) :=
  ListByPrefix ctx [] namespace.

Definition ListSummariesByPrefix (ctx : Context_) (pathPrefix namespace : bytes) :
    App (list ConfigSummary) :=
  read "list config summaries by prefix: %w" ctx (listSummariesByPrefixTx pathPrefix namespace).

Definition ListSummaryPage (ctx : Context_) (pathPrefix namespace : bytes) (limit offset : Z) :
    App (list ConfigSummary * Z) :=
  read "list config summary page: %w" ctx (listSummaryPageTx pathPrefix namespace limit offset).

Definition ListConfigPage (ctx : Context_) (pathPrefix namespace : bytes) (limit offset : Z) :
    App (list Config * Z) :=
  read "list config page: %w" ctx (listConfigPageTx pathPrefix namespace limit offset).

Definition CountByNamespace (ctx : Context_) (namespace : bytes) : App Z :=
  read "count configs by namespace: %w" ctx (countByNamespaceTx namespace).

Definition SearchByPath (ctx : Context_) (query namespace : bytes) : App (list ConfigSummary) :=
  read "search configs by path: %w" ctx (searchByPathTx query namespace).

Definition GetConfigHistory (ctx : Context_) (path namespace : bytes) (limit : Z) :
    App (list HistoryEntry) :=
  read "get config history: %w" ctx (getConfigHistoryTx path namespace limit).

Definition GetAtRevision (ctx : Context_) (path namespace : bytes) (revision : Z) :
    App HistoryEntry :=
  read "get config at revision: %w" ctx (getAtRevisionTx path namespace revision).

Definition CurrentRevision (ctx : Context_) : App Z :=
  read "get current revision: %w" ctx currentRevisionTx.

Definition ListChanges (ctx : Context_) (sinceRevision limit : Z) : App (list ChangelogEntry) :=
  read "list changes: %w" ctx (listChangesTx sinceRevision limit).

Definition ListRecentChanges (ctx : Context_) (limit : Z) : App (list ChangelogEntry) :=
  read "list recent changes: %w" ctx (listRecentChangesTx limit).

Definition toggleConfigLock (ctx : Context_) (namespace path : bytes) (locked : bool) : App unit :=
  write "wrap tx: %w" ctx (toggleConfigLockTx namespace path locked).

Definition LockConfig (ctx : Context_) (namespace path : bytes) : App unit :=
  wrapA "lock config: %w" [] (toggleConfigLock ctx namespace path true).

Definition UnlockConfig (ctx : Context_) (namespace path : bytes) : App unit :=
  wrapA "unlock config: %w" [] (toggleConfigLock ctx namespace path false).

(** ** etcd.go *)

Definition GetKVAtRevision (ctx : Context_) (namespace path : bytes) (revision : Z) :
    App (option bytes) :=
  read "get kv at revision: %w" ctx (lookupHistoryAtRevision namespace path revision).

Definition CurrentRevisionValue (ctx : Context_) : App Z := CurrentRevision ctx.

Definition RangeQuery (ctx : Context_) (startNS startPath endNS endPath : bytes)
    (limit revision : Z) (keysOnly : bool) : App (list KVPair * bool) :=
  read "range query: %w" ctx (rangeQueryTx startNS startPath endNS endPath limit revision keysOnly).

Definition PutKey (ctx : Context_) (namespace path value : bytes) : App (option KVPair * Z) :=
  write "put key: %w" ctx (putKeyTx namespace path value).

Definition DeleteRangeKeys (ctx : Context_) (startNS startPath endNS endPath : bytes)
    (returnPrev : bool) : App (list KVPair * Z) :=
  let rp := buildRangeParams startNS startPath endNS endPath in
  write "delete range keys: %w" ctx (deleteRangeKeysTx rp startNS returnPrev).

End methods.
End Repository.

(** ** Methods at top level and inside a caller's transaction *)

Section facts.
Context `{Bolt} `{Disk}.

Lemma confined_write {A} h fmt ctx (code : TxM A) :
  ctx_tx ctx = Some h -> confined true h (Repository.write fmt ctx code).
Proof.
  intros Hc. apply confined_wrap, (confined_WithTx h); [done|]. by apply confined_GetQuerier.
Qed.

Lemma confined_read {A} wr h fmt ctx (code : TxM A) :
  ctx_tx ctx = Some h -> confined wr h (Repository.read fmt ctx code).
Proof.
  intros Hc. apply confined_wrap, (confined_WithReadTx wr h); [done|]. by apply confined_GetQuerier.
Qed.

Lemma wrapA_Ok {A} fmt args (m : App A) w a w' :
  wrapA fmt args m w = (Ok a, w') <-> m w = (Ok a, w').
Proof. unfold wrapA. destruct (m w) as [[]]; simpl; naive_solver. Qed.

Lemma appbind_Ok {A B} (m : App A) (f : A -> App B) w b w' :
  (m ≫= f) w = (Ok b, w') <-> exists a w1, m w = (Ok a, w1) /\ f a w1 = (Ok b, w').
Proof.
  unfold mbind, App_bind. destruct (m w) as [[a|e|c] w1]; split; intros Hr.
  all: repeat match goal with Hx : exists _, _ |- _ => destruct Hx | Hx : _ /\ _ |- _ => destruct Hx end.
  all: simplify_eq; eauto.
Qed.

Lemma runTx_Ok {A} ctx h (cb : Context_ -> App A) w a w' :
  runTx ctx h cb w = (Ok a, w') -> (cb (with_tx_handle h ctx) w).1 = Ok a.
Proof.
  unfold runTx. destruct (cb _ w) as [[x|e|[]] w1]; simpl; try congruence.
  destruct (Writable h w1); [|congruence].
  destruct (Commit h w1) as [[]]; congruence.
Qed.

Lemma mapErrA_Ok {A} f (m : App A) w a w' : mapErrA f m w = (Ok a, w') <-> m w = (Ok a, w').
Proof. unfold mapErrA. destruct (m w) as [[] ?]; naive_solver. Qed.

Lemma appbind_eval {A B} (m : App A) (f : A -> App B) w a w' : m w = (Ok a, w') -> (m ≫= f) w = f a w'.
Proof. intros E. unfold mbind, App_bind. by rewrite E. Qed.

(** Whatever [m] returns satisfies [Q]. *)
Definition returns {A} (m : App A) (Q : A -> Prop) : Prop := forall w a w', m w = (Ok a, w') -> Q a.

Lemma returns_ret {A} (a : A) (Q : A -> Prop) : Q a -> returns (mret a) Q.
Proof. by intros HQ w x w' [= <- _]. Qed.

Lemma returns_any {A} (m : App A) : returns m (fun _ => True).
Proof. done. Qed.

Lemma returns_bind {A B} (m : App A) (f : A -> App B) Q1 Q :
  returns m Q1 -> (forall a, Q1 a -> returns (f a) Q) -> returns (m ≫= f) Q.
Proof. intros Hm Hf w b w' (a & w1 & Ha & Hb)%appbind_Ok. by eapply Hf; [eapply Hm|]. Qed.

Lemma returns_wrap {A} fmt args (m : App A) Q : returns m Q -> returns (wrapA fmt args m) Q.
Proof. intros Hm w a w' Hr%wrapA_Ok. by eapply Hm. Qed.


(** A method that succeeds at top level committed what its code wrote. *)
Lemma write_top_Ok {A} fmt ctx (code : TxM A) w a w' :
  ctx_tx ctx = None -> idle w ->
  Repository.write fmt ctx code w = (Ok a, w') <->
  commit_fault (length (w_txs w)) = None /\
  exists s, code (QTx true) (mkTS (w_db w) (w_tick w)) = (Ok a, s) /\
            w' = ended true TxCommitted (ts_db s) (ts_db s) (ts_tick s) w.
Proof.
  intros Hc Hi. unfold Repository.write. rewrite wrapA_Ok, WithTx_top by done. unfold tx_outcome.
  destruct (code _ _) as [[x|e|[]] s]; [|naive_solver..].
  destruct (commit_fault _); naive_solver.
Qed.

Lemma read_top_Ok {A} fmt ctx (code : TxM A) w a w' :
  ctx_tx ctx = None -> begin_fault (length (w_txs w)) = None ->
  Repository.read fmt ctx code w = (Ok a, w') <->
  exists s, code (QTx false) (mkTS (w_db w) (w_tick w)) = (Ok a, s) /\
            w' = ended false TxRolledBack (ts_db s) (w_db w) (ts_tick s) w.
Proof.
  intros Hc Hi. unfold Repository.read. rewrite wrapA_Ok, WithReadTx_top by done.
  unfold read_outcome. destruct (code _ _) as [[x|e|[]] s]; naive_solver.
Qed.
End facts.

#[export] Hint Resolve confined_write confined_read : elara.
