(* ===== verification/Effects.v ===== *)
(** * What the repository's programs read and write

    For every program of ConfigRepo.v and EtcdRepo.v that changes the store, the
    view after it as an explicit update of the view before it.  Three shapes are
    enough: [view_write] (Create, Update, PutKey), [view_delete] (Delete, each
    key of DeleteRange) and [view_lock] (LockConfig, UnlockConfig). *)

From S2P Require Import Prelude.
From S2P Require Import Bolt.
From S2P Require Import Keys.
From S2P Require Import Domain.
From S2P Require Import Manager.
From S2P Require Import ConfigRepo.
From S2P Require Import ConfigReads.
From S2P Require Import EtcdRepo.
From stdpp Require Import base list gmap strings sorting.
From Stdlib Require Import Ascii ZArith Lia.
Open Scope Z_scope.

Abbreviation revKey := ((bucketSys, str sysRevisionKeyName) : string * bytes).
Abbreviation lockSeqKey := ((bucketSys, str sysLockSeqKeyName) : string * bytes).

(** The counters of a view. *)
Definition counter (v : View) (k : string * bytes) : Z := parseRevision (default [] (v !! k)).
Definition cur_rev (v : View) : Z := counter v revKey.
Definition cur_seq (v : View) : Z := counter v lockSeqKey.

(** One content write at a new revision: counter, content, meta, history and
    changelog. *)
Definition view_write (ns path : bytes) (rev : Z) (content dmeta dlog : bytes) (v : View) : View :=
  <[(bucketChangelog, revisionBytes rev) := dlog]>
  (<[(bucketHistory, historyKey ns path rev) := content]>
   (<[(bucketMeta, configKey ns path) := dmeta]>
    (<[(bucketContent, configKey ns path) := content]>
     (<[revKey := revisionBytes rev]> v)))).

(** One key removed, with its changelog row. *)
Definition view_remove (key : bytes) (rev : Z) (dlog : bytes) (v : View) : View :=
  <[(bucketChangelog, revisionBytes rev) := dlog]>
  (delete (bucketMeta, key) (delete (bucketContent, key) v)).

Definition view_delete (key : bytes) (rev : Z) (dlog : bytes) (v : View) : View :=
  view_remove key rev dlog (<[revKey := revisionBytes rev]> v).

(** A lock event, with the meta row it changes. *)
Definition view_lock (ns path : bytes) (seq : Z) (dmeta dlock dlog : bytes) (v : View) : View :=
  <[(bucketLockChangelog, revisionBytes seq) := dlog]>
  (<[(bucketLockHistory, historyKey ns path seq) := dlock]>
   (<[lockSeqKey := revisionBytes seq]>
    (<[(bucketMeta, configKey ns path) := dmeta]> v))).

Section effects.
Context `{BoltSpec} `{Clock} `{Codecs}.
Implicit Types (s : TS) (q : qkind).

(** The decoded meta row of a key. *)
Definition meta_row (v : View) (key : bytes) : option ConfigMeta :=
  v !! (bucketMeta, key) ≫= fun d =>
    match json_Unmarshal d with inr m => Some m | inl _ => None end.

(** Whether a namespace is locked, as isNamespaceLocked reads it; [None] when
    its record does not decode. *)
Definition ns_lock (v : View) (ns : bytes) : option bool :=
  match v !! (bucketNamespaces, ns) with
  | None => Some false
  | Some d => match json_Unmarshal (A:=NamespaceMeta) d with
              | inr m => Some (nm_Locked m)
              | inl _ => None
              end
  end.

(** ** Sub-steps *)

Lemma attempt_Ok {A} (m : TxM A) q s r s' :
  attempt m q s = (Ok r, s') <->
  match r with inr a => m q s = (Ok a, s') | inl e => m q s = (Err e, s') end.
Proof. unfold attempt. destruct (m q s) as [[a|e|c] s1], r; naive_solver. Qed.

Lemma liftT_Ok {A} (r : outcome A) q s a s' : liftT r q s = (Ok a, s') <-> r = Ok a /\ s' = s.
Proof. unfold liftT. naive_solver. Qed.

Lemma nextCounter_Ok name fmt q s r s' :
  nextCounter name fmt q s = (Ok r, s') ->
  r = int64 (counter (view (ts_db s)) (bucketSys, str name) + 1) /\
  view (ts_db s') = <[(bucketSys, str name) := revisionBytes r]> (view (ts_db s)) /\
  ts_tick s' = ts_tick s /\ dom (ts_db s') = dom (ts_db s).
Proof.
  unfold nextCounter. rewrite (bind_eval _ _ _ _ _ _ (bucket_Get_eval _ _ q s)).
  rewrite bind_Ok. intros (u & s1 & Hp & Hr).
  apply wrapE_Ok, bucket_Put_Ok in Hp as (Hv & Ht & Hd). apply ret_Ok in Hr as [-> ->]. done.
Qed.

Lemma isNamespaceLocked_Ok ns q s b s' :
  isNamespaceLocked ns q s = (Ok b, s') <-> ns_lock (view (ts_db s)) ns = Some b /\ s' = s.
Proof.
  unfold isNamespaceLocked, ns_lock. rewrite (bind_eval _ _ _ _ _ _ (bucket_Get_eval _ _ q s)).
  destruct (view (ts_db s) !! _) as [d|]; [|rewrite ret_Ok; naive_solver].
  unfold bbolt.JSONCodec_Unmarshal. destruct (json_Unmarshal d) as [e|m].
  - unfold txfail. naive_solver.
  - rewrite ret_Ok. naive_solver.
Qed.

Lemma validateNamespaceUnlocked_Ok ns q s u s' :
  validateNamespaceUnlocked ns q s = (Ok u, s') <->
  ns_lock (view (ts_db s)) ns = Some false /\ s' = s.
Proof.
  unfold validateNamespaceUnlocked. rewrite bind_Ok. split.
  - intros (b & s1 & Hl & Hr). apply isNamespaceLocked_Ok in Hl as [Hl ->].
    destruct b; [done|]. by apply ret_Ok in Hr as [_ ->].
  - intros [Hl ->]. exists false, s. rewrite isNamespaceLocked_Ok. by destruct u.
Qed.

Lemma Get_meta_Ok key q s m s' :
  bbolt.Get (T:=ConfigMeta) bucketMeta key q s = (Ok m, s') <->
  meta_row (view (ts_db s)) key = Some m /\ s' = s.
Proof.
  rewrite Get_eval. unfold meta_row, bbolt.JSONCodec_Unmarshal.
  destruct (view (ts_db s) !! _) as [d|]; simpl; [|naive_solver].
  destruct (json_Unmarshal d); naive_solver.
Qed.

Lemma getMeta_Ok path key fmt q s m s' :
  getMeta path key fmt q s = (Ok m, s') <->
  meta_row (view (ts_db s)) key = Some m /\ s' = s.
Proof.
  unfold getMeta. rewrite bind_Ok. setoid_rewrite attempt_Ok. split.
  - intros ([e|a] & s1 & Hg & Hr); [by case_match|].
    apply Get_meta_Ok in Hg as [? ->]. by apply ret_Ok in Hr as [-> ->].
  - intros Hm. exists (inr m), s'. by rewrite Get_meta_Ok, ret_Ok.
Qed.

(** The changelog row writeChangelog stores. *)
Definition change_of (s : TS) (eventType : Z) (path ns : bytes) (version : Z) : StoredChange :=
  mkStoredChange eventType path ns version (now_at (ts_tick s)).

Lemma writeChangelog_Ok rev ty path ns version q s u s' :
  writeChangelog rev ty path ns version q s = (Ok u, s') ->
  exists d, json_Marshal (change_of s ty path ns version) = inr d /\
    view (ts_db s') = <[(bucketChangelog, revisionBytes rev) := d]> (view (ts_db s)) /\
    ts_tick s' = S (ts_tick s) /\ dom (ts_db s') = dom (ts_db s).
Proof.
  unfold writeChangelog. rewrite (bind_eval _ _ _ _ _ _ (Now_eval q s)), wrapE_Ok.
  intros (d & Hd & Hv & Ht & Hdom)%Put_Ok. eauto.
Qed.

(** ** The shape of a content write *)

Inductive wrote (ns path content : bytes) (m : ConfigMeta) (ty : Z) (v : View) (s s' : TS) : Prop :=
| mkWrote dmeta dlog tick :
    json_Marshal m = inr dmeta ->
    json_Marshal (mkStoredChange ty path ns (m_Version m) (now_at tick)) = inr dlog ->
    view (ts_db s') = view_write ns path (m_Revision m) content dmeta dlog v ->
    dom (ts_db s') = dom (ts_db s) ->
    wrote ns path content m ty v s s'.

Lemma writeConfigEntry_Ok cfg ty q s u s' v :
  view (ts_db s) = <[revKey := revisionBytes (cfg_Revision cfg)]> v ->
  writeConfigEntry (configKey (cfg_Namespace cfg) (cfg_Path cfg)) cfg (cfg_Revision cfg) ty q s
    = (Ok u, s') ->
  wrote (cfg_Namespace cfg) (cfg_Path cfg) (cfg_Content cfg) (DomainToConfigMeta cfg) ty v s s'.
Proof.
  intros Hv. unfold writeConfigEntry. rewrite bind_Ok. intros (u1 & s1 & W1 & Hr).
  rewrite bind_Ok in Hr. destruct Hr as (u2 & s2 & W2 & Hr).
  rewrite bind_Ok in Hr. destruct Hr as (u3 & s3 & W3 & Hr).
  apply wrapE_Ok, bucket_Put_Ok in W1 as (V1 & T1 & D1).
  apply wrapE_Ok, Put_Ok in W2 as (dm & Hm & V2 & T2 & D2).
  unfold writeHistory in W3. apply wrapE_Ok, bucket_Put_Ok in W3 as (V3 & T3 & D3).
  apply writeChangelog_Ok in Hr as (dl & Hl & V4 & T4 & D4).
  apply (mkWrote _ _ _ _ _ _ _ _ dm dl (ts_tick s3)); [done|done| |congruence].
  unfold view_write. by rewrite V4, V3, V2, V1, Hv.
Qed.

(** ** Create, Update, Delete, lock *)

(** The config Create writes. *)
Definition created (cfg : Config) (rev now : Z) : Config :=
  stamp (SetDefaults (GenerateHash cfg)) 1 rev rev now now.

Lemma created_key cfg rev now :
  cfg_Namespace (created cfg rev now) = cfg_Namespace cfg /\
  cfg_Path (created cfg rev now) = cfg_Path cfg /\
  cfg_Content (created cfg rev now) = cfg_Content cfg /\
  cfg_ContentHash (created cfg rev now) = computeHash (cfg_Content cfg) /\
  cfg_Format (created cfg rev now) = cfg_Format cfg /\
  cfg_Locked (created cfg rev now) = cfg_Locked cfg.
Proof. unfold created, SetDefaults. simpl. by case_match. Qed.

Lemma createConfigTx_Ok cfg q s cfg' s' :
  createConfigTx cfg q s = (Ok cfg', s') ->
  let v := view (ts_db s) in
  let rev := int64 (cur_rev v + 1) in
  ns_lock v (cfg_Namespace cfg) = Some false /\
  v !! (bucketMeta, configKey (cfg_Namespace cfg) (cfg_Path cfg)) = None /\
  cfg' = created cfg rev (now_at (ts_tick s)) /\
  wrote (cfg_Namespace cfg) (cfg_Path cfg) (cfg_Content cfg) (DomainToConfigMeta cfg')
    EventTypeCreated v s s'.
Proof.
  unfold createConfigTx. rewrite bind_Ok. intros (u & s1 & W1 & Hr).
  apply validateNamespaceUnlocked_Ok in W1 as [Hns ->].
  rewrite (bind_eval _ _ _ _ _ _ (Exists_eval _ _ q s)) in Hr.
  case_bool_decide as Hex; [done|].
  rewrite (bind_eval _ _ _ _ _ _ (Now_eval q s)), bind_Ok in Hr.
  destruct Hr as (rev & s2 & Hrev & Hr). rewrite bind_Ok in Hr.
  destruct Hr as (u3 & s3 & Hw & Hr). apply ret_Ok in Hr as [-> ->].
  apply nextCounter_Ok in Hrev as (Er & V2 & T2 & D2).
  fold (cur_rev (view (ts_db s))) in Er. cbn [ts_db] in Er, V2, D2. fold (cur_rev (view (ts_db s))) in Er.
  rewrite <- Er. split; [done|]. split; [by apply eq_None_not_Some|].
  fold (created cfg rev (now_at (ts_tick s))) in *. split; [done|].
  destruct (created_key cfg rev (now_at (ts_tick s))) as (En & Ep & Ec & _).
  rewrite <- En, <- Ep in Hw.
  pose proof (writeConfigEntry_Ok (created cfg rev (now_at (ts_tick s))) EventTypeCreated q s2 u3 s3
    (view (ts_db s)) V2 Hw) as [dm dl t Hm Hl Hv Hd].
  rewrite En, Ep, Ec in *. econstructor; [done|done|done|congruence].
Qed.

(** The config Update writes over [m]. *)
Definition updated (cfg : Config) (m : ConfigMeta) (rev now : Z) : Config :=
  stamp (GenerateHash cfg) (int64 (m_Version m + 1)) rev (m_CreateRevision m) (m_CreatedAt m) now.

Lemma validateUpdatePreconditions_Ok m cfg u :
  validateUpdatePreconditions m cfg = Ok u <-> m_Locked m = false /\ m_Version m = cfg_Version cfg.
Proof.
  unfold validateUpdatePreconditions. destruct u, (m_Locked m); [naive_solver|].
  destruct (Z.eqb_spec (m_Version m) (cfg_Version cfg)); naive_solver.
Qed.

Lemma updateConfigTx_Ok cfg q s cfg' s' :
  updateConfigTx cfg q s = (Ok cfg', s') ->
  let v := view (ts_db s) in
  let rev := int64 (cur_rev v + 1) in
  exists m, ns_lock v (cfg_Namespace cfg) = Some false /\
    meta_row v (configKey (cfg_Namespace cfg) (cfg_Path cfg)) = Some m /\
    m_Locked m = false /\ m_Version m = cfg_Version cfg /\
    cfg' = updated cfg m rev (now_at (ts_tick s)) /\
    wrote (cfg_Namespace cfg) (cfg_Path cfg) (cfg_Content cfg) (DomainToConfigMeta cfg')
      EventTypeUpdated v s s'.
Proof.
  unfold updateConfigTx. rewrite bind_Ok. intros (u & s1 & W1 & Hr).
  apply validateNamespaceUnlocked_Ok in W1 as [Hns ->].
  rewrite bind_Ok in Hr. destruct Hr as (m & s1 & W1 & Hr). apply getMeta_Ok in W1 as [Hm ->].
  rewrite bind_Ok in Hr. destruct Hr as (u1 & s1 & W1 & Hr).
  apply liftT_Ok in W1 as [Hpre ->]. apply validateUpdatePreconditions_Ok in Hpre as [Hl Hver].
  rewrite (bind_eval _ _ _ _ _ _ (Now_eval q s)), bind_Ok in Hr.
  destruct Hr as (rev & s2 & Hrev & Hr). rewrite bind_Ok in Hr.
  destruct Hr as (u3 & s3 & Hw & Hr). apply ret_Ok in Hr as [-> ->].
  apply nextCounter_Ok in Hrev as (Er & V2 & T2 & D2). cbn [ts_db] in Er, V2, D2.
  fold (cur_rev (view (ts_db s))) in Er. cbv zeta. rewrite <- Er.
  exists m. do 4 (split; [done|]). split; [done|].
  pose proof (writeConfigEntry_Ok (updated cfg m rev (now_at (ts_tick s))) EventTypeUpdated q s2 u3 s3
    (view (ts_db s)) V2 Hw) as [dm dl t Hdm Hdl Hv Hd].
  econstructor; [done|done|done|congruence].
Qed.

(** A removal: the view, and the changelog row of [key]. *)
Inductive removed (key ns path : bytes) (rev : Z) (v : View) (s s' : TS) : Prop :=
| mkRemoved dlog tick :
    json_Marshal (mkStoredChange EventTypeDeleted path ns 0 (now_at tick)) = inr dlog ->
    view (ts_db s') = view_remove key rev dlog v ->
    dom (ts_db s') = dom (ts_db s) ->
    removed key ns path rev v s s'.

Lemma remove_Ok key ns path rev q s u1 s1 u2 s2 u3 s' :
  bucket_Delete bucketContent key q s = (Ok u1, s1) ->
  bucket_Delete bucketMeta key q s1 = (Ok u2, s2) ->
  writeChangelog rev EventTypeDeleted path ns 0 q s2 = (Ok u3, s') ->
  removed key ns path rev (view (ts_db s)) s s'.
Proof.
  intros (V1 & T1 & D1)%bucket_Delete_Ok (V2 & T2 & D2)%bucket_Delete_Ok
    (dl & Hl & V4 & T4 & D4)%writeChangelog_Ok.
  apply (mkRemoved _ _ _ _ _ _ _ dl (ts_tick s2)); [done| |congruence].
  unfold view_remove. by rewrite V4, V2, V1.
Qed.

Lemma deleteConfigTx_Ok path ns q s rev s' :
  deleteConfigTx path ns q s = (Ok rev, s') ->
  let v := view (ts_db s) in
  exists m, ns_lock v ns = Some false /\ meta_row v (configKey ns path) = Some m /\
    m_Locked m = false /\ rev = int64 (cur_rev v + 1) /\
    removed (configKey ns path) ns path rev (<[revKey := revisionBytes rev]> v) s s'.
Proof.
  unfold deleteConfigTx. rewrite bind_Ok. intros (u & s1 & W1 & Hr).
  apply validateNamespaceUnlocked_Ok in W1 as [Hns ->].
  rewrite bind_Ok in Hr. destruct Hr as (m & s1 & W1 & Hr). apply getMeta_Ok in W1 as [Hm ->].
  destruct (m_Locked m) eqn:Hl; [done|].
  rewrite bind_Ok in Hr. destruct Hr as (r & s1 & W1 & Hr).
  apply nextCounter_Ok in W1 as (-> & V1 & T1 & D1).
  rewrite bind_Ok in Hr. destruct Hr as (u1 & s2 & W2 & Hr).
  rewrite bind_Ok in Hr. destruct Hr as (u2 & s3 & W3 & Hr).
  rewrite bind_Ok in Hr. destruct Hr as (u3 & s4 & W4 & Hr). apply ret_Ok in Hr as [-> ->].
  exists m. do 4 (split; [done|]). rewrite <- V1.
  apply wrapE_Ok, wrapE_Ok in W2. apply wrapE_Ok, wrapE_Ok in W3.
  destruct (remove_Ok _ _ _ _ _ _ _ _ _ _ _ _ W2 W3 W4) as [dl t Hd Hv Hdom].
  econstructor; [done|done|congruence].
Qed.

(** ** PutKey *)

(** The meta row PutKey writes. *)
Definition put_meta_of (path value : bytes) (rev : Z) (old : option ConfigMeta) (now : Z) : ConfigMeta :=
  match old with
  | Some m => mkConfigMeta (computeHash value) (DetectFormatFromPath path) (int64 (m_Version m + 1))
                rev (m_CreateRevision m) (m_Metadata m) (m_Locked m) (m_CreatedAt m) now
  | None => mkConfigMeta (computeHash value) (DetectFormatFromPath path) 1 rev rev None false now now
  end.

(** The previous pair PutKey returns. *)
Definition prev_kv_of (v : View) (ns path : bytes) : option KVPair :=
  (fun m => mkKVPair ns path (v !! (bucketContent, configKey ns path))
              (m_CreateRevision m) (m_Revision m) (m_Version m)) <$>
  meta_row v (configKey ns path).

Lemma resolveExistingKey_Ok key q s ex found s' :
  resolveExistingKey key q s = (Ok (ex, found), s') ->
  s' = s /\
  match found with
  | true => ex_prevValueCopy ex = view (ts_db s) !! (bucketContent, key) /\
  meta_row (view (ts_db s)) key = Some (ex_meta ex)
  | false => meta_row (view (ts_db s)) key = None
  end.
Proof.
  unfold resolveExistingKey. rewrite bind_Ok. intros ([e|m] & s1 & Ha & Hr); apply attempt_Ok in Ha.
  - rewrite Get_eval in Ha. destruct (errors_Is e _) eqn:Ee; [|done].
    apply ret_Ok in Hr as [[= -> ->] ->]. unfold meta_row.
    destruct (view (ts_db s) !! _) as [d|]; simpl; [|by injection Ha as <- <-].
    unfold bbolt.JSONCodec_Unmarshal in Ha. destruct (json_Unmarshal d); [|done].
    by injection Ha as <- <-.
  - apply Get_meta_Ok in Ha as [Hm ->].
    rewrite (bind_eval _ _ _ _ _ _ (bucket_Get_eval _ _ q s)) in Hr.
    by apply ret_Ok in Hr as [[= -> ->] ->].
Qed.

Lemma buildPutMeta_Ok path value rev ex found q s m ty s' :
  buildPutMeta path value rev ex found q s = (Ok (m, ty), s') ->
  m = put_meta_of path value rev (if found then Some (ex_meta ex) else None) (now_at (ts_tick s)) /\
  ty = (if found then EventTypeUpdated else EventTypeCreated) /\
  s' = mkTS (ts_db s) (S (ts_tick s)).
Proof.
  unfold buildPutMeta. rewrite (bind_eval _ _ _ _ _ _ (Now_eval q s)).
  destruct found; rewrite ret_Ok; naive_solver.
Qed.

Lemma putKeyTx_Ok ns path value q s prev rev s' :
  putKeyTx ns path value q s = (Ok (prev, rev), s') ->
  let v := view (ts_db s) in
  let old := meta_row v (configKey ns path) in
  let m := put_meta_of path value rev old (now_at (ts_tick s)) in
  ns_lock v ns = Some false /\
  (forall m0, old = Some m0 -> m_Locked m0 = false) /\
  prev = prev_kv_of v ns path /\ rev = int64 (cur_rev v + 1) /\
  wrote ns path value m (match old with Some _ => EventTypeUpdated | None => EventTypeCreated end)
    v s s'.
Proof.
  unfold putKeyTx. rewrite bind_Ok. intros ([ex found] & s1 & W1 & Hr).
  apply resolveExistingKey_Ok in W1 as [-> Hex].
  rewrite bind_Ok in Hr. destruct Hr as (u & s1 & W1 & Hr).
  apply validateNamespaceUnlocked_Ok in W1 as [Hns ->].
  rewrite bind_Ok in Hr. destruct Hr as (u1 & s1 & W1 & Hr). apply liftT_Ok in W1 as [Hal ->].
  rewrite bind_Ok in Hr. destruct Hr as (r & s1 & W1 & Hr).
  apply nextCounter_Ok in W1 as (Er & V1 & T1 & D1).
  rewrite bind_Ok in Hr. destruct Hr as ([m ty] & s2 & W2 & Hr).
  apply buildPutMeta_Ok in W2 as (Em & Ety & ->).
  rewrite bind_Ok in Hr. destruct Hr as (u2 & s3 & W3 & Hr).
  rewrite bind_Ok in Hr. destruct Hr as (u3 & s4 & W4 & Hr).
  rewrite bind_Ok in Hr. destruct Hr as (u4 & s5 & W5 & Hr).
  rewrite bind_Ok in Hr. destruct Hr as (u5 & s6 & W6 & Hr). apply ret_Ok in Hr as [[= -> ->] ->].
  apply wrapE_Ok, bucket_Put_Ok in W3 as (V3 & T3 & D3).
  apply wrapE_Ok, Put_Ok in W4 as (dm & Hm & V4 & T4 & D4).
  unfold writeHistory in W5. apply wrapE_Ok, bucket_Put_Ok in W5 as (V5 & T5 & D5).
  apply writeChangelog_Ok in W6 as (dl & Hl & V6 & T6 & D6).
  cbn [ts_db ts_tick] in *. fold (cur_rev (view (ts_db s))) in Er. rewrite T1 in Em.
  assert (Hold : meta_row (view (ts_db s)) (configKey ns path) =
                 (if found then Some (ex_meta ex) else None)) by (destruct found; [apply Hex|done]).
  cbv zeta. rewrite Hold, <- Em. split; [done|]. split.
  { intros m0. destruct found; [|done]. intros [= <-]. unfold checkPutAllowed in Hal.
    simpl in Hal. by destruct (m_Locked _). }
  split.
  { unfold prev_kv_of, buildPrevKV. rewrite Hold. destruct found; [|done]. simpl.
    by destruct Hex as [-> _]. }
  split; [done|].
  assert (Emr : m_Revision m = r) by by rewrite Em; destruct found.
  apply (mkWrote _ _ _ _ _ _ _ _ dm dl (ts_tick s5)); [done| | |congruence].
  - rewrite <- Hl. unfold change_of. by destruct found; rewrite Ety.
  - unfold view_write. by rewrite V6, V5, V4, V3, V1, Emr.
Qed.

(** ** LockConfig, UnlockConfig *)

Lemma writeLockHistory_Ok ns path ty q s u s' :
  writeLockHistory ns path ty q s = (Ok u, s') ->
  let seq := int64 (cur_seq (view (ts_db s)) + 1) in
  exists dlock dlog,
    json_Marshal (mkLockHistoryEntry ty (now_at (ts_tick s))) = inr dlock /\
    json_Marshal (mkStoredChange ty path ns 0 (now_at (ts_tick s))) = inr dlog /\
    view (ts_db s') =
      <[(bucketLockChangelog, revisionBytes seq) := dlog]>
      (<[(bucketLockHistory, historyKey ns path seq) := dlock]>
       (<[lockSeqKey := revisionBytes seq]> (view (ts_db s)))) /\
    dom (ts_db s') = dom (ts_db s).
Proof.
  unfold writeLockHistory. rewrite bind_Ok. intros (seq & s1 & W1 & Hr).
  apply nextCounter_Ok in W1 as (Er & V1 & T1 & D1). fold (cur_seq (view (ts_db s))) in Er.
  rewrite (bind_eval _ _ _ _ _ _ (Now_eval q s1)), bind_Ok in Hr.
  destruct Hr as (u2 & s2 & W2 & Hr).
  apply wrapE_Ok, Put_Ok in W2 as (dk & Hk & V2 & T2 & D2).
  apply wrapE_Ok, Put_Ok in Hr as (dl & Hl & V3 & T3 & D3). cbn [ts_db ts_tick] in *.
  rewrite T1 in Hk, Hl. cbv zeta. rewrite <- Er. exists dk, dl. do 2 (split; [done|]).
  split; [|congruence]. by rewrite V3, V2, V1.
Qed.

Lemma toggleConfigLockTx_Ok ns path locked q s u s' :
  toggleConfigLockTx ns path locked q s = (Ok u, s') ->
  let v := view (ts_db s) in
  exists m, ns_lock v ns = Some false /\ meta_row v (configKey ns path) = Some m /\
    ((m_Locked m = locked /\ s' = s) \/
     (m_Locked m <> locked /\ dom (ts_db s') = dom (ts_db s) /\
      exists dm dk dl, json_Marshal (setLocked locked m) = inr dm /\
        view (ts_db s') = view_lock ns path (int64 (cur_seq v + 1)) dm dk dl v)).
Proof.
  unfold toggleConfigLockTx. rewrite bind_Ok. intros (u1 & s1 & W1 & Hr).
  apply validateNamespaceUnlocked_Ok in W1 as [Hns ->].
  rewrite bind_Ok in Hr. destruct Hr as (m & s1 & W1 & Hr). apply getMeta_Ok in W1 as [Hm ->].
  exists m. do 2 (split; [done|]). destruct (Bool.eqb (m_Locked m) locked) eqn:El.
  { apply Bool.eqb_prop in El. apply ret_Ok in Hr as [_ ->]. by left. }
  right. split; [by apply Bool.eqb_false_iff in El|].
  rewrite bind_Ok in Hr. destruct Hr as (u2 & s2 & W2 & Hr).
  apply wrapE_Ok, Put_Ok in W2 as (dm & Hdm & V2 & T2 & D2).
  apply writeLockHistory_Ok in Hr as (dk & dl & _ & _ & V3 & D3).
  split; [congruence|]. exists dm, dk, dl. split; [done|].
  assert (Hseq : cur_seq (view (ts_db s2)) = cur_seq (view (ts_db s))).
  { unfold cur_seq, counter. rewrite V2. by rewrite lookup_insert_ne. }
  rewrite Hseq in V3. unfold view_lock. by rewrite V3, V2.
Qed.

(** ** Ranges *)

(** The keys of a range. *)
Definition in_range (rp : rangeParams) (k : bytes) : Prop :=
  ~ blt k (startKey rp) /\ shouldBreakRange k rp = false.

#[global] Instance in_range_dec rp k : Decision (in_range rp k).
Proof. unfold in_range. apply _. Defined.

(** What the parameters say about the range. *)
Lemma in_range_build startNS startPath endNS endPath k :
  in_range (buildRangeParams startNS startPath endNS endPath) k <->
  if decide (endNS = [] /\ endPath = []) then k = configKey startNS startPath
  else ~ blt k (configKey startNS startPath) /\
       (endNS = zeroString \/ blt k (configKey endNS endPath)).
Proof.
  unfold in_range, shouldBreakRange, buildRangeParams. cbn [startKey singleKey scanAll endKey].
  case_decide as Hs.
  - destruct Hs as [-> ->]. rewrite !bool_decide_true by done. simpl.
    unfold bytes_eqb. case_bool_decide as E; simpl; [|naive_solver].
    subst. split; [done|]. intros _. split; [apply blt_irrefl|done].
  - rewrite <- bool_decide_and. rewrite (bool_decide_false _ Hs). simpl.
    case_bool_decide as Ez; simpl; [naive_solver|].
    assert (Hl : (0 <? length (configKey endNS endPath))%nat = true).
    { apply Nat.ltb_lt. unfold configKey. rewrite length_app. simpl. lia. }
    rewrite Hl. destruct (bytes_ltb k _) eqn:E; simpl.
    + apply bytes_ltb_lt in E. naive_solver.
    + apply bytes_ltb_ge in E. naive_solver.
Qed.

(** Past the first key that ends a range, no later key is in it. *)
Lemma shouldBreakRange_mono rp a b :
  ~ blt a (startKey rp) -> shouldBreakRange a rp = true -> blt a b -> shouldBreakRange b rp = true.
Proof.
  unfold shouldBreakRange. intros Ha Hb Hlt. destruct (singleKey rp).
  - unfold bytes_eqb in *. apply negb_true_iff, bool_decide_eq_false in Hb.
    apply negb_true_iff, bool_decide_eq_false. intros ->. by destruct Ha.
  - destruct (negb (scanAll rp) && _)%nat; [|done].
    apply negb_true_iff, bytes_ltb_ge in Hb. apply negb_true_iff, bytes_ltb_ge.
    intros Hc. apply Hb. by transitivity b.
Qed.

(** The pairs a range loop visits are the pairs of the range. *)
Lemma range_pairs rp (l : list (bytes * bytes)) :
  StronglySorted blt l.*1 ->
  take_while (fun kv => negb (shouldBreakRange kv.1 rp))
    (filter (fun kv => ~ blt kv.1 (startKey rp)) l) =
  filter (fun kv => in_range rp kv.1) l.
Proof.
  induction l as [|x l IH]; intros Hs; [done|].
  inversion_clear Hs as [|? ? Hs' Hx]. destruct (decide (blt x.1 (startKey rp))) as [E|E].
  - rewrite filter_cons_False by auto. rewrite IH by done.
    rewrite (filter_cons_False (fun kv => in_range rp kv.1)); [done|]. intros [? _]. done.
  - rewrite filter_cons_True by done. simpl take_while.
    destruct (shouldBreakRange x.1 rp) eqn:Eb; simpl.
    + symmetry. apply filter_none. constructor; [intros [_ ?]; congruence|].
      rewrite Forall_fmap in Hx. eapply Forall_impl; [done|]. intros y Hy [_ Hn].
      by rewrite (shouldBreakRange_mono rp x.1 y.1) in Hn.
    + rewrite (filter_cons_True (fun kv => in_range rp kv.1)) by done. by rewrite IH.
Qed.

(** ** DeleteRangeKeys *)

(** What collectDeleteTargets makes of one meta row. *)
Definition target_of (v : View) (returnPrev : bool) (kv : bytes * bytes) : error + deleteTarget :=
  let '(ns, path) := parseConfigKey kv.1 in
  match bbolt.JSONCodec_Unmarshal (T:=ConfigMeta) kv.2 with
  | inl e => inl (EWrap "unmarshal meta: %w" [] e)
  | inr m =>
      if m_Locked m then inl (EWrap "delete range: %w" [] (NewLockedError path))
      else inr (mkDeleteTarget kv.1
                  (if returnPrev
                   then mkKVPair ns path (v !! (bucketContent, kv.1)) (m_CreateRevision m)
                          (m_Revision m) (m_Version m)
                   else mkKVPair ns path None 0 0 0))
  end.

(** The meta rows of a range, in key order. *)
Definition range_rows (db : DB) (rp : rangeParams) : list (bytes * bytes) :=
  filter (fun kv => in_range rp kv.1) (db_pairs db bucketMeta).

Lemma collectDeleteTargets_eval rp returnPrev w s :
  collectDeleteTargets rp returnPrev (QTx w) s =
  (collect (target_of (view (ts_db s)) returnPrev) (range_rows (ts_db s) rp), s).
Proof.
  unfold collectDeleteTargets, range_rows.
  rewrite (bind_eval _ _ _ _ _ _ (bucket_Cursor_eval _ w s)).
  rewrite cursor_Seek_sorted by apply db_pairs_sorted. cbn [cur_after].
  rewrite <- range_pairs by apply db_pairs_sorted.
  rewrite (forM_collect_while (fun kv => negb (shouldBreakRange kv.1 rp))
             (target_of (view (ts_db s)) returnPrev)).
  - simpl. by destruct (collect _ _).
  - intros [k d] a Hb. apply negb_true_iff in Hb. simpl in Hb. rewrite Hb. unfold target_of.
    cbn [fst snd]. destruct (parseConfigKey k) as [ns path].
    destruct (bbolt.JSONCodec_Unmarshal d) as [e|m]; [done|]. destruct (m_Locked m); [done|].
    destruct returnPrev; [|done]. by rewrite (bind_eval _ _ _ _ _ _ (bucket_Get_eval _ _ _ s)).
  - intros [k d] a Hb. apply negb_false_iff in Hb. simpl in Hb. by rewrite Hb.
Qed.

(** The rows a removal loop writes, one after the other at one revision. *)
Definition view_removes (rev : Z) (l : list (bytes * bytes)) (v : View) : View :=
  foldl (fun v kd => view_remove kd.1 rev kd.2 v) v l.

Definition delete_row (t : deleteTarget) (d : bytes) : Prop :=
  exists tick, json_Marshal (mkStoredChange EventTypeDeleted (kv_Path (dt_kv t))
                               (kv_Namespace (dt_kv t)) 0 (now_at tick)) = inr d.

Lemma deleteTargets_Ok rev ts q s u s' :
  deleteTargets rev ts q s = (Ok u, s') ->
  exists ds, Forall2 delete_row ts ds /\
    view (ts_db s') = view_removes rev (zip (dt_key <$> ts) ds) (view (ts_db s)) /\
    dom (ts_db s') = dom (ts_db s).
Proof.
  revert s. induction ts as [|t ts IH]; intros s Hr.
  { injection Hr as _ <-. exists []. by repeat constructor. }
  simpl in Hr. rewrite bind_Ok in Hr. destruct Hr as (u1 & s1 & W1 & Hr).
  rewrite bind_Ok in Hr. destruct Hr as (u2 & s2 & W2 & Hr).
  rewrite bind_Ok in Hr. destruct Hr as (u3 & s3 & W3 & Hr).
  apply wrapE_Ok in W1. apply wrapE_Ok in W2.
  destruct (remove_Ok _ _ _ _ _ _ _ _ _ _ _ _ W1 W2 W3) as [d t' Hd Hv Hdom].
  apply IH in Hr as (ds & Hds & Hv' & Hdom'). exists (d :: ds).
  split; [constructor; [by exists t'|done]|]. split; [|congruence]. simpl. by rewrite <- Hv.
Qed.

Lemma deleteRangeKeysTx_Ok rp startNS returnPrev w s kvs rev s' :
  deleteRangeKeysTx rp startNS returnPrev (QTx w) s = (Ok (kvs, rev), s') ->
  let v := view (ts_db s) in
  ns_lock v startNS = Some false /\
  exists ts, collect (target_of v returnPrev) (range_rows (ts_db s) rp) = Ok ts /\
    kvs = dt_kv <$> ts /\
    ((ts = [] /\ rev = 0 /\ s' = s) \/
     (ts <> [] /\ rev = int64 (cur_rev v + 1) /\ dom (ts_db s') = dom (ts_db s) /\
      exists ds, Forall2 delete_row ts ds /\
        view (ts_db s') =
          view_removes rev (zip (dt_key <$> ts) ds) (<[revKey := revisionBytes rev]> v))).
Proof.
  unfold deleteRangeKeysTx. rewrite bind_Ok. intros (u & s1 & W1 & Hr).
  apply validateNamespaceUnlocked_Ok in W1 as [Hns ->].
  rewrite bind_Ok in Hr. destruct Hr as (ts & s1 & W1 & Hr).
  rewrite collectDeleteTargets_eval in W1. injection W1 as Hts <-.
  split; [done|]. exists ts. split; [done|]. destruct ts as [|t ts].
  { apply ret_Ok in Hr as [[= -> ->] ->]. naive_solver. }
  rewrite bind_Ok in Hr. destruct Hr as (r & s1 & W1 & Hr).
  apply nextCounter_Ok in W1 as (Er & V1 & T1 & D1).
  rewrite bind_Ok in Hr. destruct Hr as (u2 & s2 & W2 & Hr). apply ret_Ok in Hr as [[= -> ->] ->].
  apply deleteTargets_Ok in W2 as (ds & Hds & Hv & Hdom). rewrite V1 in Hv.
  split; [done|]. right. split; [done|]. split; [done|]. split; [congruence|]. eauto.
Qed.
End effects.
