(* ===== verification/Store.v ===== *)
(** * The store invariant

    What the buckets of internal/storage/bbolt/config always satisfy: content and
    meta hold the same keys, every meta row describes its content and its last
    history row, history rows and changelog rows correspond, and the changelog
    has exactly one row per revision from 1 to the counter.  Every write of the
    repository keeps it, from the database initBuckets (store.go) leaves. *)

From S2P Require Import Prelude.
From S2P Require Import Bolt.
From S2P Require Import Keys.
From S2P Require Import Domain.
From S2P Require Import Concrete.
From S2P Require Import Manager.
From S2P Require Import ConfigRepo.
From S2P Require Import ConfigReads.
From S2P Require Import EtcdRepo.
From S2P Require Import Repository.
From S2P Require Import Effects.
From stdpp Require Import base list gmap strings sorting.
From Stdlib Require Import Ascii ZArith Lia.
From Stdlib Require String.
Open Scope Z_scope.

(** ** initBuckets of storage/bbolt/store.go *)

Definition buckets : list string :=
  ["content"; "meta"; "namespaces"; "changelog"; "history"; "client_history"; "sys";
   "lock_history"; "lock_changelog"; "schemas"; "webhooks"; "auth_users"; "users_by_identity";
   "users_by_email"; "auth_groups"; "auth_tokens"; "auth_token_by_id"; "auth_policy"; "sessions";
   "sessions_by_user"; "session_events"; "session_events_by_session"; "session_events_by_user"].

Definition sysSchemaKey : string := "schema".
Definition schemaVersion : Z := 1.

Section init.
Context `{Bolt}.

(** [tx.CreateBucketIfNotExists] for every name. *)
Definition createBuckets (names : list string) (db : DB) : DB :=
  foldl (fun db name => match db !! name with Some _ => db | None => <[name := bolt_empty]> db end)
    db names.

(** [if sys.Get(key) == nil { sys.Put(key, revisionBytes(rev)) }] *)
Definition initSysKey (name fmt : string) (rev : Z) : TxM unit :=
  b ← bucket_Get bucketSys (str name);
  match b with
  | None => wrapE fmt [] (bucket_Put bucketSys (str name) (revisionBytes rev))
  | Some _ => mret tt
  end.

(** The transaction initBuckets runs. *)
Definition initBucketsTx : TxM unit := fun q s =>
  (_ ← initSysKey sysRevisionKeyName "init revision: %w" 0;
   initSysKey sysSchemaKey "init schema version: %w" schemaVersion) q
    (mkTS (createBuckets buckets (ts_db s)) (ts_tick s)).
End init.

(** ** Lookups in the updated views *)

Section lookups.
Implicit Types (v : View) (k : bytes).

(** Solve a lookup in a stack of inserts and deletes on distinct buckets. *)
Ltac view_lookup :=
  unfold view_write, view_delete, view_remove, view_lock;
  repeat first
    [ rewrite lookup_insert_eq | rewrite lookup_delete_eq
    | rewrite lookup_insert_ne by (intros ?; simplify_eq; done)
    | rewrite lookup_delete_ne by (intros ?; simplify_eq; done) ];
  try done.

Lemma write_meta ns path rev c dm dl v k :
  view_write ns path rev c dm dl v !! (bucketMeta, k) =
  if decide (k = configKey ns path) then Some dm else v !! (bucketMeta, k).
Proof. case_decide; subst; view_lookup. Qed.

Lemma write_content ns path rev c dm dl v k :
  view_write ns path rev c dm dl v !! (bucketContent, k) =
  if decide (k = configKey ns path) then Some c else v !! (bucketContent, k).
Proof. case_decide; subst; view_lookup. Qed.

Lemma write_history ns path rev c dm dl v k :
  view_write ns path rev c dm dl v !! (bucketHistory, k) =
  if decide (k = historyKey ns path rev) then Some c else v !! (bucketHistory, k).
Proof. case_decide; subst; view_lookup. Qed.

Lemma write_changelog ns path rev c dm dl v k :
  view_write ns path rev c dm dl v !! (bucketChangelog, k) =
  if decide (k = revisionBytes rev) then Some dl else v !! (bucketChangelog, k).
Proof. case_decide; subst; view_lookup. Qed.

Lemma write_namespaces ns path rev c dm dl v k :
  view_write ns path rev c dm dl v !! (bucketNamespaces, k) = v !! (bucketNamespaces, k).
Proof. view_lookup. Qed.

Lemma write_rev ns path rev c dm dl v :
  in_int64 rev -> cur_rev (view_write ns path rev c dm dl v) = rev.
Proof.
  intros Hr. unfold cur_rev, counter.
  assert (E : view_write ns path rev c dm dl v !! revKey = Some (revisionBytes rev)) by view_lookup.
  rewrite E. by apply parseRevision_bytes.
Qed.

Lemma remove_meta key rev d v k :
  view_remove key rev d v !! (bucketMeta, k) =
  if decide (k = key) then None else v !! (bucketMeta, k).
Proof. case_decide; subst; view_lookup. Qed.

Lemma remove_content key rev d v k :
  view_remove key rev d v !! (bucketContent, k) =
  if decide (k = key) then None else v !! (bucketContent, k).
Proof. case_decide; subst; view_lookup. Qed.

Lemma remove_changelog key rev d v k :
  view_remove key rev d v !! (bucketChangelog, k) =
  if decide (k = revisionBytes rev) then Some d else v !! (bucketChangelog, k).
Proof. case_decide; subst; view_lookup. Qed.

Lemma remove_other key rev d v b k :
  b <> bucketMeta -> b <> bucketContent -> b <> bucketChangelog ->
  view_remove key rev d v !! (b, k) = v !! (b, k).
Proof. intros. unfold view_remove. view_lookup. Qed.

(** A run of removals at one revision: the keys are gone, and the changelog keeps
    one row, the last. *)
Lemma removes_meta rev l v k :
  view_removes rev l v !! (bucketMeta, k) =
  if decide (k ∈ l.*1) then None else v !! (bucketMeta, k).
Proof.
  revert v. induction l as [|[key d] l IH]; intros v; [by rewrite decide_False by set_solver|]. simpl.
  rewrite IH, remove_meta. simpl. repeat case_decide; set_solver.
Qed.

Lemma removes_content rev l v k :
  view_removes rev l v !! (bucketContent, k) =
  if decide (k ∈ l.*1) then None else v !! (bucketContent, k).
Proof.
  revert v. induction l as [|[key d] l IH]; intros v; [by rewrite decide_False by set_solver|]. simpl.
  rewrite IH, remove_content. simpl. repeat case_decide; set_solver.
Qed.

Lemma removes_changelog rev l v k :
  view_removes rev l v !! (bucketChangelog, k) =
  if decide (k = revisionBytes rev) then
    match last l with Some kd => Some kd.2 | None => v !! (bucketChangelog, k) end
  else v !! (bucketChangelog, k).
Proof.
  revert v. induction l as [|[key d] l IH]; intros v; [by case_decide|].
  change (view_removes rev ((key, d) :: l) v) with (view_removes rev l (view_remove key rev d v)).
  rewrite IH, remove_changelog, last_cons. case_decide; [|done]. by destruct (last l).
Qed.

Lemma removes_other rev l v b k :
  b <> bucketMeta -> b <> bucketContent -> b <> bucketChangelog ->
  view_removes rev l v !! (b, k) = v !! (b, k).
Proof.
  intros. revert v. induction l as [|[key d] l IH]; intros v; simpl; [done|].
  by rewrite IH, remove_other.
Qed.

Lemma lock_meta ns path seq dm dk dl v k :
  view_lock ns path seq dm dk dl v !! (bucketMeta, k) =
  if decide (k = configKey ns path) then Some dm else v !! (bucketMeta, k).
Proof. case_decide; subst; view_lookup. Qed.

Lemma lock_other ns path seq dm dk dl v b k :
  b <> bucketMeta -> b <> bucketLockHistory -> b <> bucketLockChangelog -> (b, k) <> lockSeqKey ->
  view_lock ns path seq dm dk dl v !! (b, k) = v !! (b, k).
Proof. intros. unfold view_lock. view_lookup. Qed.

Lemma counter_ext v v' (k : string * bytes) : v !! k = v' !! k -> counter v k = counter v' k.
Proof. unfold counter. by intros ->. Qed.

Lemma set_rev v rev : in_int64 rev -> cur_rev (<[revKey := revisionBytes rev]> v) = rev.
Proof. intros Hr. unfold cur_rev, counter. rewrite lookup_insert_eq. by apply parseRevision_bytes. Qed.

Lemma set_rev_other v rev b k :
  b <> bucketSys -> <[revKey := revisionBytes rev]> v !! (b, k) = v !! (b, k).
Proof. intros. view_lookup. Qed.
End lookups.

(** ** The invariant *)

Section inv.
Context `{Codecs}.
Implicit Types (v : View).

(** The decoded changelog row of a revision. *)
Definition change_row (v : View) (r : Z) : option StoredChange :=
  v !! (bucketChangelog, revisionBytes r) ≫= fun d =>
    match json_Unmarshal d with inr e => Some e | inl _ => None end.

(** A meta row agrees with the content it describes and with the history. *)
Definition meta_agrees (v : View) (ns path : bytes) (m : ConfigMeta) : Prop :=
  exists c, v !! (bucketContent, configKey ns path) = Some c /\
    m_ContentHash m = computeHash c /\
    v !! (bucketHistory, historyKey ns path (m_Revision m)) = Some c /\
    (forall r, 1 <= r <= cur_rev v -> is_Some (v !! (bucketHistory, historyKey ns path r)) ->
               r <= m_Revision m) /\
    1 <= m_CreateRevision m <= m_Revision m /\ m_Revision m <= cur_rev v /\
    1 <= m_Version m <= m_Revision m - m_CreateRevision m + 1.

Record store_inv (v : View) : Prop := {
  inv_rev : 0 <= cur_rev v < two63;
  inv_key k : is_Some (v !! (bucketMeta, k)) ->
    exists ns path, nul_free ns /\ nul_free path /\ utf8_valid ns = true /\
      utf8_valid path = true /\ k = configKey ns path;
  inv_same k : is_Some (v !! (bucketContent, k)) <-> is_Some (v !! (bucketMeta, k));
  inv_meta ns path : nul_free ns -> nul_free path ->
    is_Some (v !! (bucketMeta, configKey ns path)) ->
    exists m, meta_row v (configKey ns path) = Some m /\ meta_ok m = true /\
              meta_agrees v ns path m;
  inv_hist k : is_Some (v !! (bucketHistory, k)) ->
    exists ns path r e, nul_free ns /\ nul_free path /\ k = historyKey ns path r /\
      1 <= r <= cur_rev v /\ change_row v r = Some e /\ sc_Namespace e = ns /\ sc_Path e = path;
  inv_log k : is_Some (v !! (bucketChangelog, k)) <->
    exists r, 1 <= r <= cur_rev v /\ k = revisionBytes r;
  inv_change r : 1 <= r <= cur_rev v -> exists e, change_row v r = Some e /\
    (sc_Type e = EventTypeDeleted \/
     is_Some (v !! (bucketHistory, historyKey (sc_Namespace e) (sc_Path e) r)));
}.
End inv.

(** ** Preservation *)

Section preserve.
Context `{CodecsSpec}.
Implicit Types (v : View).

Lemma row_roundtrip {A} `{JSONSpec A} (a : A) d :
  json_wf a -> json_Marshal a = inr d -> json_Unmarshal d = inr (json_canon a).
Proof. intros. by eapply json_roundtrip. Qed.

Lemma revision_bounds r cur : 1 <= r <= cur -> cur < two63 -> in_int64 r.
Proof. unfold in_int64, two63. lia. Qed.

Lemma change_row_ne v v' r :
  v' !! (bucketChangelog, revisionBytes r) = v !! (bucketChangelog, revisionBytes r) ->
  change_row v' r = change_row v r.
Proof. unfold change_row. by intros ->. Qed.

(** Rows of different revisions have different keys. *)
Lemma revisionBytes_ne r r' : in_int64 r -> in_int64 r' -> r <> r' -> revisionBytes r <> revisionBytes r'.
Proof. intros ? ? Hne E. by apply revisionBytes_inj in E. Qed.

(** What a write must bring for the invariant: a meta row at the next revision
    over the previous one, and a changelog row that names the key. *)
Record good_write (v : View) (ns path c : bytes) (m : ConfigMeta) (ch : StoredChange) : Prop := {
  gw_ns : nul_free ns;
  gw_path : nul_free path;
  gw_meta : meta_ok m = true;
  gw_hash : m_ContentHash m = computeHash c;
  gw_rev : m_Revision m = cur_rev v + 1;
  gw_create : 1 <= m_CreateRevision m <= m_Revision m;
  gw_version : 1 <= m_Version m <= m_Revision m - m_CreateRevision m + 1;
  gw_change : (int64_ok (sc_Type ch) && utf8_valid (sc_Path ch) && utf8_valid (sc_Namespace ch) &&
               int64_ok (sc_Version ch) && time_ok (sc_Timestamp ch)) = true;
  gw_cns : sc_Namespace ch = ns;
  gw_cpath : sc_Path ch = path;
}.

Lemma meta_ok_canon m : meta_ok m = true -> meta_ok (meta_canon m) = true.
Proof.
  unfold meta_ok, meta_canon. simpl. rewrite !andb_true_iff. intros Hm. destruct_and!.
  repeat split; try done. unfold omitempty. destruct (m_Metadata m) as [mm|]; [|done].
  by case_decide.
Qed.

Section write.
Context (v : View) (ns path c : bytes) (m : ConfigMeta) (ch : StoredChange) (dm dl : bytes).
Context (Hinv : store_inv v) (Hw : good_write v ns path c m ch).
Context (Hmax : cur_rev v + 1 < two63).
Context (Hdm : json_Marshal m = inr dm) (Hdl : json_Marshal ch = inr dl).
Let v' := view_write ns path (cur_rev v + 1) c dm dl v.

Lemma next_in_int64 : in_int64 (cur_rev v + 1).
Proof. unfold in_int64, two63 in *. pose proof (inv_rev _ Hinv). lia. Qed.

Lemma write_cur : cur_rev v' = cur_rev v + 1.
Proof. apply write_rev, next_in_int64. Qed.

Lemma old_in_int64 r : 1 <= r <= cur_rev v -> in_int64 r.
Proof. intros ?. pose proof (inv_rev _ Hinv). eapply revision_bounds; [done|lia]. Qed.

Lemma write_change_old r : 1 <= r <= cur_rev v -> change_row v' r = change_row v r.
Proof.
  intros Hr. apply change_row_ne. unfold v'. rewrite write_changelog, decide_False; [done|].
  apply revisionBytes_ne; [by apply old_in_int64|apply next_in_int64|lia].
Qed.

Lemma write_change_new : change_row v' (cur_rev v + 1) = Some ch.
Proof.
  unfold change_row, v'. rewrite write_changelog, decide_True by done. simpl.
  rewrite (row_roundtrip ch dl); [done| |done]. apply Hw.
Qed.

Lemma write_hist_old ns' path' r :
  nul_free ns' -> nul_free path' -> 1 <= r <= cur_rev v ->
  v' !! (bucketHistory, historyKey ns' path' r) = v !! (bucketHistory, historyKey ns' path' r).
Proof.
  intros Hn Hp Hr. unfold v'. rewrite write_history, decide_False; [done|]. intros E.
  apply historyKey_inj in E as (_ & _ & E);
    [lia|done|apply Hw|done|apply Hw|by apply old_in_int64|apply next_in_int64].
Qed.

Lemma write_hist_new : v' !! (bucketHistory, historyKey ns path (cur_rev v + 1)) = Some c.
Proof. unfold v'. by rewrite write_history, decide_True. Qed.

Lemma write_meta_new : meta_row v' (configKey ns path) = Some (meta_canon m).
Proof.
  unfold meta_row, v'. rewrite write_meta, decide_True by done. simpl.
  rewrite (row_roundtrip m dm); [done| |done]. apply Hw.
Qed.

Lemma write_meta_inv ns' path' :
  nul_free ns' -> nul_free path' -> is_Some (v' !! (bucketMeta, configKey ns' path')) ->
  exists m', meta_row v' (configKey ns' path') = Some m' /\ meta_ok m' = true /\
             meta_agrees v' ns' path' m'.
Proof.
  intros Hn Hp Hs. destruct (decide (configKey ns' path' = configKey ns path)) as [E|E].
  - apply configKey_inj in E as [-> ->]; [|done|apply Hw].
    exists (meta_canon m). split; [apply write_meta_new|]. split; [by apply meta_ok_canon, Hw|].
    destruct Hw. exists c. unfold v' at 1. rewrite write_content, decide_True by done.
    simpl. rewrite write_cur. rewrite gw_rev0 in *.
    repeat split; [done|apply write_hist_new|lia..].
  - unfold v' in Hs. rewrite write_meta, decide_False in Hs by done.
    destruct (inv_meta _ Hinv ns' path') as (m' & Hm & Hok & c' & Hc & Hh & Hhist & Hlast & Hb1 & Hb2 & Hb3);
      [done..|].
    exists m'. split; [unfold meta_row, v'; by rewrite write_meta, decide_False|]. split; [done|].
    exists c'. unfold v' at 1. rewrite write_content, decide_False by done.
    do 2 (split; [done|]). rewrite write_hist_old by (try done; lia). split; [done|].
    split; [|rewrite write_cur; lia]. rewrite write_cur. intros r Hr Hsr.
    destruct (decide (r = cur_rev v + 1)) as [->|Hne].
    + unfold v' in Hsr. rewrite write_history in Hsr. case_decide as Ek.
      * apply historyKey_inj in Ek as (-> & -> & _);
          [done|done|apply Hw|done|apply Hw|apply next_in_int64..].
      * apply (inv_hist _ Hinv) in Hsr as (n1 & p1 & r1 & e & ? & ? & Ek1 & Hr1 & _).
        apply historyKey_inj in Ek1 as (_ & _ & Er1);
          [lia|done..|apply next_in_int64|by apply old_in_int64].
    + apply Hlast; [lia|]. rewrite <- write_hist_old by (done || lia). done.
Qed.

Lemma inv_write : store_inv v'.
Proof.
  pose proof (inv_rev _ Hinv) as Hrev. split.
  - rewrite write_cur. lia.
  - intros k. unfold v'. rewrite write_meta. case_decide as E; [|apply Hinv].
    intros _. exists ns, path. destruct Hw as [? ? ? ? ? ? ? Hch Hcn Hcp].
    rewrite !andb_true_iff in Hch. destruct_and!. by rewrite <- Hcn, <- Hcp in *.
  - intros k. unfold v'. rewrite write_meta, write_content. case_decide; [|apply Hinv].
    by split; eexists.
  - apply write_meta_inv.
  - intros k Hk. rewrite write_cur. destruct (decide (k = historyKey ns path (cur_rev v + 1))) as [->|Hne].
    + exists ns, path, (cur_rev v + 1), ch. rewrite write_change_new. destruct Hw.
      repeat split; try done; lia.
    + unfold v' in Hk. rewrite write_history, decide_False in Hk by done.
      apply (inv_hist _ Hinv) in Hk as (n1 & p1 & r1 & e & ? & ? & Ek1 & Hr1 & Hc & ?).
      exists n1, p1, r1, e. rewrite write_change_old by done. repeat split; try done; try lia.
      all: naive_solver.
  - intros k. rewrite write_cur. unfold v'. rewrite write_changelog. case_decide as E.
    + split; [|by eexists]. intros _. exists (cur_rev v + 1). split; [lia|done].
    + rewrite (inv_log _ Hinv). split; intros (r & Hr & ->); exists r; [split; [lia|done]|].
      split; [|done]. destruct (decide (r = cur_rev v + 1)) as [->|]; [done|lia].
  - intros r. rewrite write_cur. intros Hr.
    destruct (decide (r = cur_rev v + 1)) as [->|Hne].
    + exists ch. split; [apply write_change_new|]. right. destruct Hw as [? ? ? ? ? ? ? ? -> ->].
      rewrite write_hist_new. by eexists.
    + destruct (inv_change _ Hinv r) as (e & He & Ht); [lia|]. exists e.
      rewrite write_change_old by lia. split; [done|]. destruct Ht as [Ht|Ht]; [by left|right].
      unfold v'. rewrite write_history. by case_decide; [eexists|].
Qed.
End write.

Section remove.
Context (v : View) (l : list (bytes * bytes)) (k0 d : bytes) (ch : StoredChange).
Context (Hinv : store_inv v) (Hmax : cur_rev v + 1 < two63).
Context (Hlast : last l = Some (k0, d)) (Hd : json_Marshal ch = inr d) (Hwf : json_wf ch).
Context (Hty : sc_Type ch = EventTypeDeleted).
Let v' := view_removes (cur_rev v + 1) l (<[revKey := revisionBytes (cur_rev v + 1)]> v).

Lemma removes_cur : cur_rev v' = cur_rev v + 1.
Proof.
  unfold v'. transitivity (cur_rev (<[revKey := revisionBytes (cur_rev v + 1)]> v)).
  - apply counter_ext. by rewrite removes_other.
  - apply set_rev, next_in_int64; done.
Qed.

Lemma removes_change r :
  1 <= r <= cur_rev v + 1 ->
  change_row v' r = if decide (r = cur_rev v + 1) then Some ch else change_row v r.
Proof.
  intros Hr. unfold change_row, v'. rewrite removes_changelog, Hlast. case_decide as E.
  - destruct (decide (r = cur_rev v + 1)) as [->|Hne].
    + simpl. by rewrite (row_roundtrip ch d Hwf Hd).
    + apply revisionBytes_inj in E; [done| |apply next_in_int64; done].
      apply (old_in_int64 v Hinv Hmax). lia.
  - rewrite decide_False by congruence. by rewrite set_rev_other.
Qed.

Lemma removes_history k : v' !! (bucketHistory, k) = v !! (bucketHistory, k).
Proof. unfold v'. by rewrite removes_other, set_rev_other. Qed.

Lemma inv_removes : store_inv v'.
Proof.
  pose proof (inv_rev _ Hinv) as Hrev. split.
  - rewrite removes_cur. lia.
  - intros k. unfold v'. rewrite removes_meta. case_decide; [by intros []|].
    rewrite set_rev_other by done. apply Hinv.
  - intros k. unfold v'. rewrite removes_meta, removes_content.
    case_decide; [by split; intros []|]. rewrite !set_rev_other by done. apply Hinv.
  - intros ns path Hn Hp. unfold v', meta_row. rewrite removes_meta.
    case_decide as Ek; [by intros []|]. rewrite set_rev_other by done. intros Hs.
    destruct (inv_meta _ Hinv ns path) as (m & Hm & Hok & c & Hc & Hh & Hhist & Hl & Hb); [done..|].
    exists m. split; [done|]. split; [done|]. exists c. fold v'. rewrite !removes_history, removes_cur.
    unfold v'. rewrite removes_content, decide_False, set_rev_other by done.
    do 3 (split; [done|]). split; [|lia]. intros r Hr. fold v'. rewrite removes_history. intros Hsr.
    pose proof Hsr as Hsr'. apply (inv_hist _ Hinv) in Hsr' as (n1 & p1 & r1 & e & ? & ? & Ek1 & Hr1 & _).
    destruct (decide (r = cur_rev v + 1)) as [->|]; [|by apply Hl; [lia|]].
    apply historyKey_inj in Ek1 as (_ & _ & E);
      [lia|done..|apply next_in_int64; done|by apply (old_in_int64 v Hinv Hmax)].
  - intros k. rewrite removes_history. intros Hk.
    apply (inv_hist _ Hinv) in Hk as (n1 & p1 & r1 & e & ? & ? & Ek1 & Hr1 & Hc & ? & ?).
    exists n1, p1, r1, e. rewrite removes_cur, removes_change, decide_False by lia.
    repeat split; done || lia.
  - intros k. rewrite removes_cur. unfold v'. rewrite removes_changelog, Hlast. case_decide as E.
    + split; [|by eexists]. intros _. exists (cur_rev v + 1). split; [lia|done].
    + rewrite set_rev_other, (inv_log _ Hinv) by done.
      split; intros (r & Hr & ->); exists r; (split; [|done]); [lia|].
      destruct (decide (r = cur_rev v + 1)) as [->|]; [done|lia].
  - intros r. rewrite removes_cur. intros Hr. rewrite removes_change by done. case_decide as E.
    + exists ch. by split; [|left].
    + destruct (inv_change _ Hinv r) as (e & He & Ht); [lia|]. exists e.
      by rewrite removes_history.
Qed.
End remove.

(** Rewriting one meta row with the same hash, revisions and version. *)
Lemma inv_relock v ns path seq m b dm dk dl :
  store_inv v -> nul_free ns -> nul_free path -> meta_row v (configKey ns path) = Some m ->
  json_Marshal (setLocked b m) = inr dm -> store_inv (view_lock ns path seq dm dk dl v).
Proof.
  intros Hinv Hn Hp Hrow Hdm.
  assert (Hs : is_Some (v !! (bucketMeta, configKey ns path))).
  { unfold meta_row in Hrow. destruct (v !! _); [by eexists|done]. }
  destruct (inv_meta _ Hinv ns path Hn Hp Hs) as (m' & Hm' & Hok & Hag).
  rewrite Hrow in Hm'. injection Hm' as <-.
  set (v' := view_lock ns path seq dm dk dl v).
  assert (Hcur : cur_rev v' = cur_rev v) by (apply counter_ext; by apply lock_other).
  assert (Hoth : forall bk k, bk <> bucketMeta -> bk <> bucketLockHistory ->
            bk <> bucketLockChangelog -> bk <> bucketSys -> v' !! (bk, k) = v !! (bk, k)).
  { intros. apply lock_other; try done. congruence. }
  assert (Hch : forall r, change_row v' r = change_row v r)
    by (intros; apply change_row_ne; by apply Hoth).
  assert (Hagr : forall n p x, meta_agrees v n p x -> meta_agrees v' n p x).
  { intros n p x. unfold meta_agrees. rewrite Hcur. intros (c & Hc & ? & Hh & Hl & ?).
    exists c. rewrite !Hoth by done. do 3 (split; [done|]). split; [|done].
    intros r. rewrite Hoth by done. apply Hl. }
  split.
  - rewrite Hcur. apply Hinv.
  - intros k. unfold v'. rewrite lock_meta. case_decide; [|apply Hinv]. intros _. subst.
    by apply Hinv.
  - intros k. rewrite Hoth by done. unfold v'. rewrite lock_meta. case_decide; [|apply Hinv].
    subst. split; [by eexists|]. intros _. by apply Hinv.
  - intros n p Hn' Hp' Hs'. destruct (decide (configKey n p = configKey ns path)) as [E|E].
    + apply configKey_inj in E as [-> ->]; [|done..].
      exists (meta_canon (setLocked b m)). unfold meta_row, v'. rewrite lock_meta, decide_True by done.
      simpl. rewrite (row_roundtrip (setLocked b m) dm); [|exact Hok|done].
      split; [done|]. split; [by apply (meta_ok_canon (setLocked b m))|]. by apply Hagr.
    + unfold v' in Hs'. rewrite lock_meta, decide_False in Hs' by done.
      destruct (inv_meta _ Hinv n p Hn' Hp' Hs') as (m2 & Hm2 & Hok2 & Hag2). exists m2.
      unfold meta_row, v'. rewrite lock_meta, decide_False by done. split; [done|].
      split; [done|]. by apply Hagr.
  - intros k. rewrite Hoth, Hcur by done. setoid_rewrite Hch. apply Hinv.
  - intros k. rewrite Hoth, Hcur by done. apply Hinv.
  - intros r. rewrite Hcur, Hch. setoid_rewrite Hoth; [|done..]. apply Hinv.
Qed.
End preserve.

(** ** The repository's writes *)

(** The calls that change the store. *)
Inductive write_op :=
| OpCreate (cfg : Config)
| OpUpdate (cfg : Config)
| OpDelete (path namespace : bytes)
| OpLock (namespace path : bytes) (locked : bool)
| OpPut (namespace path value : bytes)
| OpDeleteRange (startNS startPath endNS endPath : bytes) (returnPrev : bool).

(** Names the keys and the codec keep apart: no zero byte, valid UTF-8. *)
Definition name_ok (s : bytes) : Prop := nul_free s /\ utf8_valid s = true.

Definition config_ok (cfg : Config) : Prop :=
  name_ok (cfg_Namespace cfg) /\ name_ok (cfg_Path cfg) /\
  utf8_valid (cfg_Format cfg) = true /\ strmap_ok (cfg_Metadata cfg) = true.

Definition op_ok (o : write_op) : Prop :=
  match o with
  | OpCreate cfg | OpUpdate cfg => config_ok cfg
  | OpDelete path ns | OpLock ns path _ | OpPut ns path _ => name_ok ns /\ name_ok path
  | OpDeleteRange _ _ _ _ _ => True
  end.

#[global] Instance name_ok_dec s : Decision (name_ok s).
Proof. unfold name_ok. apply _. Defined.

#[global] Instance config_ok_dec cfg : Decision (config_ok cfg).
Proof. unfold config_ok. apply _. Defined.

#[global] Instance op_ok_dec o : Decision (op_ok o).
Proof. destruct o; simpl; apply _. Defined.

Section steps.
Context `{Bolt} `{Clock} `{Codecs}.

Definition discard {A} (m : TxM A) : TxM unit := _ ← m; mret tt.

Definition run_op (o : write_op) : TxM unit :=
  match o with
  | OpCreate cfg => discard (createConfigTx cfg)
  | OpUpdate cfg => discard (updateConfigTx cfg)
  | OpDelete path ns => discard (deleteConfigTx path ns)
  | OpLock ns path locked => toggleConfigLockTx ns path locked
  | OpPut ns path value => discard (putKeyTx ns path value)
  | OpDeleteRange sn sp en ep prev =>
      discard (deleteRangeKeysTx (buildRangeParams sn sp en ep) sn prev)
  end.
End steps.

Section ops_preserve.
Context `{BoltSpec} `{CodecsSpec} `{ClockSpec}.
Implicit Types (s : TS).

Lemma discard_Ok {A} (m : TxM A) q s u s' :
  discard m q s = (Ok u, s') -> exists a, m q s = (Ok a, s').
Proof. unfold discard. rewrite bind_Ok. intros (a & s1 & Hm & [_ ->]%ret_Ok). eauto. Qed.

Lemma next_rev v : store_inv v -> cur_rev v + 1 < two63 -> int64 (cur_rev v + 1) = cur_rev v + 1.
Proof. intros Hi Hm. apply int64_id. by apply next_in_int64. Qed.

Lemma meta_ok_version m : meta_ok m = true -> int64_ok (m_Version m) = true.
Proof. unfold meta_ok. rewrite !andb_true_iff. intros Hm. by destruct_and!. Qed.

(** A write with a good meta row keeps the invariant and advances the revision. *)
Lemma inv_wrote v ns path c m ty s s' :
  store_inv v -> cur_rev v + 1 < two63 -> wrote ns path c m ty v s s' ->
  name_ok ns -> name_ok path -> meta_ok m = true -> m_ContentHash m = computeHash c ->
  m_Revision m = cur_rev v + 1 -> 1 <= m_CreateRevision m <= m_Revision m ->
  1 <= m_Version m <= m_Revision m - m_CreateRevision m + 1 ->
  int64_ok ty = true -> store_inv (view (ts_db s')) /\ cur_rev (view (ts_db s')) = cur_rev v + 1.
Proof.
  intros Hinv Hmax [dm dl t Hdm Hdl Hv Hdom] [Hn1 Hn2] [Hp1 Hp2] Hok Hh Hr Hc Hver Hty.
  rewrite Hv, Hr.
  pose proof (meta_ok_version m Hok) as Hvo.
  split; [|by apply write_cur]. eapply inv_write; [done| |done..].
  constructor; try done. cbn [sc_Type sc_Path sc_Namespace sc_Version sc_Timestamp].
  by rewrite Hty, Hn2, Hp2, Hvo, now_ok.
Qed.

Lemma meta_ok_intro m :
  utf8_valid (m_ContentHash m) = true -> utf8_valid (m_Format m) = true ->
  in_int64 (m_Version m) -> in_int64 (m_Revision m) -> in_int64 (m_CreateRevision m) ->
  strmap_ok (m_Metadata m) = true -> time_ok (m_CreatedAt m) = true ->
  time_ok (m_UpdatedAt m) = true -> meta_ok m = true.
Proof.
  unfold meta_ok. rewrite <- !int64_ok_spec. intros -> -> -> -> -> -> -> ->. done.
Qed.

Lemma meta_ok_elim m :
  meta_ok m = true -> strmap_ok (m_Metadata m) = true /\ time_ok (m_CreatedAt m) = true.
Proof. unfold meta_ok. rewrite !andb_true_iff. intros Hm. by destruct_and!. Qed.

(** What the invariant says of an existing row. *)
Lemma existing_meta v ns path m :
  store_inv v -> nul_free ns -> nul_free path -> meta_row v (configKey ns path) = Some m ->
  meta_ok m = true /\ meta_agrees v ns path m.
Proof.
  intros Hinv Hn Hp Hm. destruct (inv_meta _ Hinv ns path Hn Hp) as (m' & Hm' & Hok & Hag).
  { unfold meta_row in Hm. destruct (v !! _); [by eexists|done]. }
  rewrite Hm in Hm'. by injection Hm' as <-.
Qed.

Lemma created_meta_ok cfg rev n :
  config_ok cfg -> in_int64 rev -> meta_ok (DomainToConfigMeta (created cfg rev (now_at n))) = true.
Proof.
  intros (Hn & Hp & Hf & Hmd) Hr.
  destruct (created_key cfg rev (now_at n)) as (En & Ep & Ec & Eh & Ef & El).
  apply meta_ok_intro; try (simpl; done); try (simpl; apply now_ok).
  - unfold DomainToConfigMeta. cbn [m_ContentHash]. rewrite Eh. apply utf8_valid_hash.
  - unfold DomainToConfigMeta. cbn [m_Format]. by rewrite Ef.
  - unfold created, SetDefaults, GenerateHash. simpl. by destruct (cfg_Metadata cfg).
Qed.

Lemma inv_create cfg q s cfg' s' :
  let v := view (ts_db s) in
  store_inv v -> cur_rev v + 1 < two63 -> config_ok cfg ->
  createConfigTx cfg q s = (Ok cfg', s') ->
  store_inv (view (ts_db s')) /\ cur_rev (view (ts_db s')) = cur_rev v + 1.
Proof.
  intros v Hinv Hmax (Hn & Hp & Hf & Hmd) (_ & _ & -> & Hw)%createConfigTx_Ok.
  pose proof (inv_rev _ Hinv) as Hrev. fold v in Hw. rewrite next_rev in Hw by done.
  destruct (created_key cfg (cur_rev v + 1) (now_at (ts_tick s))) as (En & Ep & Ec & Eh & Ef & El).
  assert (Hi : in_int64 (cur_rev v + 1)) by by apply next_in_int64.
  eapply inv_wrote; [done|done|exact Hw|done|done| |exact Eh|done|simpl; lia..|done].
  by apply created_meta_ok.
Qed.

Lemma updated_meta_ok v ns path cfg m n :
  store_inv v -> cur_rev v + 1 < two63 -> config_ok cfg ->
  meta_ok m = true -> meta_agrees v ns path m ->
  meta_ok (DomainToConfigMeta (updated cfg m (cur_rev v + 1) (now_at n))) = true /\
  int64 (m_Version m + 1) = m_Version m + 1.
Proof.
  intros Hinv Hmax (_ & _ & Hf & Hmd) Hok (c & _ & _ & _ & _ & Hb1 & Hb2 & Hb3).
  pose proof (inv_rev _ Hinv) as Hrev.
  assert (Hi : in_int64 (cur_rev v + 1)) by by apply next_in_int64.
  assert (Hvi : int64 (m_Version m + 1) = m_Version m + 1)
    by (apply int64_id; unfold in_int64, two63 in *; lia).
  split; [|done]. apply meta_ok_intro; simpl; try done; try apply now_ok.
  - apply utf8_valid_hash.
  - rewrite Hvi. unfold in_int64, two63 in *. lia.
  - unfold in_int64, two63 in *. lia.
  - by apply meta_ok_elim.
Qed.

Lemma inv_update cfg q s cfg' s' :
  let v := view (ts_db s) in
  store_inv v -> cur_rev v + 1 < two63 -> config_ok cfg ->
  updateConfigTx cfg q s = (Ok cfg', s') ->
  store_inv (view (ts_db s')) /\ cur_rev (view (ts_db s')) = cur_rev v + 1.
Proof.
  intros v Hinv Hmax Hcfg (m & _ & Hm & _ & _ & -> & Hw)%updateConfigTx_Ok.
  fold v in Hm, Hw. rewrite next_rev in Hw by done. destruct Hcfg as (Hn & Hp & Hcfg).
  destruct (existing_meta v _ _ m Hinv (proj1 Hn) (proj1 Hp) Hm) as [Hok Hag].
  destruct (updated_meta_ok v _ _ cfg m (ts_tick s) Hinv Hmax (conj Hn (conj Hp Hcfg)) Hok Hag)
    as [Hok' Hvi].
  destruct Hag as (c & _ & _ & _ & _ & Hb1 & Hb2 & Hb3).
  eapply inv_wrote; [done|done|exact Hw|done|done|done|done|done|simpl; lia|simpl; lia|done].
Qed.

(** The row PutKey writes is good, and its version does not wrap. *)
Lemma put_meta_of_ok v ns path value n :
  store_inv v -> cur_rev v + 1 < two63 -> nul_free ns -> nul_free path ->
  let old := meta_row v (configKey ns path) in
  meta_ok (put_meta_of path value (cur_rev v + 1) old (now_at n)) = true /\
  (forall m, old = Some m -> int64 (m_Version m + 1) = m_Version m + 1).
Proof.
  intros Hinv Hmax Hn Hp old. pose proof (inv_rev _ Hinv) as Hrev.
  assert (Hi : in_int64 (cur_rev v + 1)) by by apply next_in_int64.
  assert (Hb : forall m, old = Some m -> meta_ok m = true /\ 1 <= m_CreateRevision m <= cur_rev v /\
            1 <= m_Version m <= cur_rev v).
  { intros m Hm. destruct (existing_meta v ns path m Hinv Hn Hp Hm)
      as [Hok (c & _ & _ & _ & _ & ? & ? & ?)]. split; [done|lia]. }
  assert (Hv : forall m, old = Some m -> int64 (m_Version m + 1) = m_Version m + 1).
  { intros m Hm. destruct (Hb m Hm) as (_ & ? & ?). apply int64_id. unfold in_int64, two63 in *. lia. }
  split; [|done]. destruct old as [m|] eqn:Hm; apply meta_ok_intro; simpl; try done;
    try apply now_ok; try apply utf8_valid_hash; try apply utf8_valid_detect.
  all: destruct (Hb m eq_refl) as (Hok & ? & ?); rewrite ?(Hv m) by done;
    try (by apply meta_ok_elim); unfold in_int64, two63 in *; lia.
Qed.

Lemma inv_put ns path value q s r s' :
  let v := view (ts_db s) in
  store_inv v -> cur_rev v + 1 < two63 -> name_ok ns -> name_ok path ->
  putKeyTx ns path value q s = (Ok r, s') ->
  store_inv (view (ts_db s')) /\ cur_rev (view (ts_db s')) = cur_rev v + 1.
Proof.
  destruct r as [prev rev]. intros v Hinv Hmax Hn Hp (_ & _ & _ & Er & Hw)%putKeyTx_Ok.
  fold v in Er, Hw. rewrite next_rev in Er by done. pose proof (inv_rev _ Hinv) as Hrev. subst rev.
  destruct (put_meta_of_ok v ns path value (ts_tick s) Hinv Hmax (proj1 Hn) (proj1 Hp)) as [Hok Hver].
  destruct (meta_row v (configKey ns path)) as [m|] eqn:Hm.
  - destruct (existing_meta v _ _ m Hinv (proj1 Hn) (proj1 Hp) Hm)
      as [_ (c & _ & _ & _ & _ & Hb1 & Hb2 & Hb3)]. specialize (Hver m eq_refl).
    eapply inv_wrote; [done|done|exact Hw|done|done|done|done|done|simpl; lia|simpl; lia|done].
  - eapply inv_wrote; [done|done|exact Hw|done|done|done|done|done|simpl; lia|simpl; lia|done].
Qed.

Lemma delete_change_wf ns path t :
  utf8_valid ns = true -> utf8_valid path = true ->
  json_wf (mkStoredChange EventTypeDeleted path ns 0 (now_at t)).
Proof. intros Hn Hp. simpl. by rewrite Hn, Hp, now_ok. Qed.

Lemma inv_delete path ns q s rev s' :
  let v := view (ts_db s) in
  store_inv v -> cur_rev v + 1 < two63 -> name_ok ns -> name_ok path ->
  deleteConfigTx path ns q s = (Ok rev, s') ->
  store_inv (view (ts_db s')) /\ cur_rev (view (ts_db s')) = cur_rev v + 1.
Proof.
  intros v Hinv Hmax [_ Hn] [_ Hp] (m & _ & _ & _ & -> & [d t Hd Hv Hdom])%deleteConfigTx_Ok.
  fold v in Hv. rewrite next_rev in Hv by done.
  change (view_remove ?k ?r d ?x) with (view_removes r [(k, d)] x) in Hv. rewrite Hv.
  split; [|by apply removes_cur]. by eapply inv_removes; [..|apply delete_change_wf|].
Qed.

Lemma inv_lock ns path locked q s u s' :
  let v := view (ts_db s) in
  store_inv v -> nul_free ns -> nul_free path ->
  toggleConfigLockTx ns path locked q s = (Ok u, s') ->
  store_inv (view (ts_db s')) /\ cur_rev (view (ts_db s')) = cur_rev v.
Proof.
  intros v Hinv Hn Hp (m & _ & Hm & [[_ ->]|(_ & _ & dm & dk & dl & Hdm & Hv)])%toggleConfigLockTx_Ok;
    [done|]. rewrite Hv. split; [by eapply inv_relock|]. apply counter_ext. by apply lock_other.
Qed.

Lemma target_of_key v prev kv t : target_of v prev kv = inr t -> dt_key t = kv.1 /\
  kv_Namespace (dt_kv t) = (parseConfigKey kv.1).1 /\ kv_Path (dt_kv t) = (parseConfigKey kv.1).2.
Proof.
  unfold target_of. destruct (parseConfigKey kv.1), (bbolt.JSONCodec_Unmarshal kv.2); [done|].
  destruct (m_Locked _); [done|]. intros [= <-]. by destruct prev.
Qed.

Lemma collect_keys v prev rows ts :
  collect (target_of v prev) rows = Ok ts -> dt_key <$> ts = rows.*1.
Proof.
  rewrite collect_Ok. induction 1 as [|x t rows ts Hx _ IH]; [done|]. rewrite !fmap_cons, IH.
  f_equal. by apply target_of_key in Hx as [-> _].
Qed.

(** The rows of a range are rows of the bucket. *)
Lemma range_rows_elem db rp k d :
  (k, d) ∈ range_rows db rp <-> in_range rp k /\ view db !! (bucketMeta, k) = Some d.
Proof. unfold range_rows. by rewrite list_elem_of_filter, elem_of_db_pairs. Qed.

Lemma Forall2_last {A B} (R : A -> B -> Prop) l l' x :
  Forall2 R l l' -> last l = Some x -> exists y, last l' = Some y /\ R x y.
Proof.
  induction 1 as [|a b l l' Hab Hl IH]; [done|]. rewrite !last_cons.
  destruct (last l) as [z|] eqn:E.
  - intros [= ->]. destruct IH as (y & -> & Hy); [done|]. eauto.
  - intros [= <-]. apply last_None in E as ->. apply Forall2_nil_inv_l in Hl as ->. by exists b.
Qed.

Lemma last_zip {A B} (l : list A) (l' : list B) a b :
  length l = length l' -> last l = Some a -> last l' = Some b -> last (zip l l') = Some (a, b).
Proof.
  revert l'. induction l as [|x l IH]; intros [|y l'] Hlen; simpl zip; try done.
  rewrite !last_cons. injection Hlen as Hlen.
  destruct (last l) as [z|] eqn:E, (last l') as [z'|] eqn:E'.
  - intros [= ->] [= ->]. by rewrite (IH l').
  - apply last_None in E' as ->. by destruct l.
  - apply last_None in E as ->. by destruct l'.
  - apply last_None in E as ->. intros [= ->] [= ->]. done.
Qed.

(** The last row of a removal loop is the changelog row of its last target. *)
Lemma targets_last db rp prev ts ds :
  store_inv (view db) -> collect (target_of (view db) prev) (range_rows db rp) = Ok ts ->
  Forall2 delete_row ts ds -> ts <> [] ->
  exists t d ch, last ts = Some t /\ last (zip (dt_key <$> ts) ds) = Some (dt_key t, d) /\
    json_Marshal ch = inr d /\ json_wf ch /\ sc_Type ch = EventTypeDeleted /\
    sc_Namespace ch = kv_Namespace (dt_kv t) /\ sc_Path ch = kv_Path (dt_kv t).
Proof.
  intros Hinv Hts Hds Hne. destruct (last ts) as [t|] eqn:Et; [|by apply last_None in Et].
  destruct (Forall2_last _ _ _ _ Hds Et) as (d & Ed & tick & Hd).
  eexists t, d, _. split; [done|]. split; [|split; [exact Hd|]].
  { apply last_zip; [|by rewrite fmap_last, Et|done].
    rewrite length_fmap. by eapply Forall2_length. }
  split; [|done]. apply collect_Ok in Hts. apply last_Some_elem_of in Et.
  apply list_elem_of_lookup in Et as [i Hi].
  destruct (Forall2_lookup_r _ _ _ _ _ Hts Hi) as ([k x] & Hk & Ht).
  apply target_of_key in Ht as (_ & -> & ->). simpl.
  apply list_elem_of_lookup_2, range_rows_elem in Hk as [_ Hk].
  destruct (inv_key _ Hinv k) as (n & p & ? & ? & ? & ? & ->); [by eexists|].
  rewrite parseConfigKey_configKey by done. by apply delete_change_wf.
Qed.

Lemma inv_delete_range rp ns prev w s r s' :
  let v := view (ts_db s) in
  store_inv v -> cur_rev v + 1 < two63 ->
  deleteRangeKeysTx rp ns prev (QTx w) s = (Ok r, s') ->
  store_inv (view (ts_db s')) /\
  cur_rev v <= cur_rev (view (ts_db s')) <= cur_rev v + 1.
Proof.
  destruct r as [kvs rev]. intros v Hinv Hmax (_ & ts & Hts & _ & Hcase)%deleteRangeKeysTx_Ok.
  fold v in Hts, Hcase.
  destruct Hcase as [(-> & -> & ->)|(Hne & Er & _ & ds & Hds & Hv)]; [split; [done|unfold v; lia]|].
  rewrite next_rev in Er by done. subst rev.
  destruct (targets_last _ _ _ _ _ Hinv Hts Hds Hne) as (t & d & ch & _ & Hl & Hd & Hwf & Hty & _).
  rewrite Hv. split; [by eapply inv_removes|]. erewrite removes_cur by done. lia.
Qed.

(** Every write of the repository keeps the invariant and moves the revision by
    at most one. *)
Lemma run_op_inv o s s' :
  let v := view (ts_db s) in
  store_inv v -> cur_rev v + 1 < two63 -> op_ok o ->
  run_op o (QTx true) s = (Ok tt, s') ->
  store_inv (view (ts_db s')) /\ cur_rev v <= cur_rev (view (ts_db s')) <= cur_rev v + 1.
Proof.
  intros v Hinv Hmax Hok Hr. destruct o; simpl in Hok, Hr; unfold v in *.
  - apply discard_Ok in Hr as [? Hr]. apply inv_create in Hr as [? ->]; [split; [done|lia]|done..].
  - apply discard_Ok in Hr as [? Hr]. apply inv_update in Hr as [? ->]; [split; [done|lia]|done..].
  - apply discard_Ok in Hr as [? Hr].
    apply inv_delete in Hr as [? ->]; [split; [done|lia]|done|done|apply Hok..].
  - apply inv_lock in Hr as [? ->]; [split; [done|lia]|done|apply Hok..].
  - apply discard_Ok in Hr as [? Hr].
    apply inv_put in Hr as [? ->]; [split; [done|lia]|done|done|apply Hok..].
  - apply discard_Ok in Hr as [? Hr]. by eapply inv_delete_range.
Qed.

(** ** The initial database *)

Lemma inv_empty : store_inv ∅.
Proof.
  assert (Hz : cur_rev ∅ = 0) by by vm_compute.
  split; rewrite ?Hz.
  - unfold two63. lia.
  - intros k [? Hk]. by rewrite lookup_empty in Hk.
  - intros k. by rewrite !lookup_empty.
  - intros ? ? _ _ [? Hk]. by rewrite lookup_empty in Hk.
  - intros k [? Hk]. by rewrite lookup_empty in Hk.
  - intros k. rewrite lookup_empty. split; [by intros []|]. intros (r & Hr & _). lia.
  - lia.
Qed.

Lemma inv_empty_view : store_inv (view ∅).
Proof.
  replace (view ∅) with (∅ : View); [apply inv_empty|]. apply map_eq. intros [n k].
  by rewrite lookup_view, !lookup_empty.
Qed.

Lemma bview_empty : bview bolt_empty = ∅.
Proof. unfold bview. by rewrite bolt_pairs_empty. Qed.

(** Creating missing buckets does not change what is stored. *)
Lemma createBuckets_view names db : view (createBuckets names db) = view db.
Proof.
  revert db. induction names as [|n names IH]; intros db; [done|]. simpl. rewrite IH.
  destruct (db !! n) eqn:E; [done|]. apply map_eq. intros [n' k].
  rewrite !lookup_view, lookup_insert. case_decide; [|done]. subst. simpl.
  by rewrite E, bview_empty, lookup_empty.
Qed.

Lemma initSysKey_Ok name fmt rev q s u s' :
  initSysKey name fmt rev q s = (Ok u, s') ->
  view (ts_db s') = view (ts_db s) \/
  (view (ts_db s) !! (bucketSys, str name) = None /\
   view (ts_db s') = <[(bucketSys, str name) := revisionBytes rev]> (view (ts_db s))).
Proof.
  unfold initSysKey. rewrite (bind_eval _ _ _ _ _ _ (bucket_Get_eval _ _ q s)).
  destruct (view (ts_db s) !! _) eqn:E; intros Hr.
  - apply ret_Ok in Hr as [_ ->]. by left.
  - apply wrapE_Ok, bucket_Put_Ok in Hr as [-> _]. by right.
Qed.

(** The invariant only reads the counter and four buckets. *)
Lemma store_inv_ext v v' :
  cur_rev v' = cur_rev v ->
  (forall b k, b ∈ [bucketMeta; bucketContent; bucketHistory; bucketChangelog] ->
     v' !! (b, k) = v !! (b, k)) ->
  store_inv v -> store_inv v'.
Proof.
  intros Hc Hv Hi. destruct Hi as [I1 I2 I3 I4 I5 I6 I7].
  assert (Hm : forall k, v' !! (bucketMeta, k) = v !! (bucketMeta, k)) by (intros; apply Hv; set_solver).
  assert (Hn : forall k, v' !! (bucketContent, k) = v !! (bucketContent, k)) by (intros; apply Hv; set_solver).
  assert (Hh : forall k, v' !! (bucketHistory, k) = v !! (bucketHistory, k)) by (intros; apply Hv; set_solver).
  assert (Hl : forall k, v' !! (bucketChangelog, k) = v !! (bucketChangelog, k)) by (intros; apply Hv; set_solver).
  assert (Hch : forall r, change_row v' r = change_row v r) by (intros; by apply change_row_ne).
  split; rewrite ?Hc; try done.
  - intros k. rewrite Hm. apply I2.
  - intros k. rewrite Hm, Hn. apply I3.
  - intros ns path ? ?. rewrite Hm. intros Hs.
    destruct (I4 ns path) as (m & Hr & Hok & c & Hx & Hy & Hz & Hg & Hb); [done..|].
    exists m. unfold meta_row. rewrite Hm. split; [done|]. split; [done|].
    exists c. rewrite Hc, Hn, Hh. do 3 (split; [done|]). split; [|done].
    intros r Hr'. rewrite Hh. by apply Hg.
  - intros k. rewrite Hh. setoid_rewrite Hch. apply I5.
  - intros k. rewrite Hl. apply I6.
  - intros r Hr. rewrite Hch. destruct (I7 r Hr) as (e & He & Ht). exists e. by rewrite Hh.
Qed.

Lemma inv_initSys name rev q s fmt u s' :
  counter ∅ (bucketSys, str name) = parseRevision (revisionBytes rev) \/ name <> sysRevisionKeyName ->
  store_inv (view (ts_db s)) -> initSysKey name fmt rev q s = (Ok u, s') ->
  store_inv (view (ts_db s')).
Proof.
  intros Hz Hi [->|[Hn ->]]%initSysKey_Ok; [done|]. eapply store_inv_ext; [| |exact Hi].
  - unfold cur_rev. destruct (decide (name = sysRevisionKeyName)) as [->|Hne].
    + destruct Hz as [Hz|]; [|done]. unfold counter in *. rewrite lookup_empty in Hz.
      rewrite Hn, lookup_insert_eq. by symmetry.
    + apply counter_ext. rewrite lookup_insert_ne; [done|]. intros [= E].
      by apply (f_equal String.string_of_list_ascii) in E;
        unfold str in E; rewrite !String.string_of_list_ascii_of_string in E.
  - intros b k Hb. rewrite lookup_insert_ne by (intros [= <- _]; set_solver). done.
Qed.

(** initBuckets keeps the invariant of the database it opens. *)
Lemma inv_init q s u s' :
  store_inv (view (ts_db s)) -> initBucketsTx q s = (Ok u, s') -> store_inv (view (ts_db s')).
Proof.
  intros Hi. unfold initBucketsTx. rewrite bind_Ok. intros (u1 & s1 & W1 & W2).
  eapply inv_initSys in W1; [|by left; vm_compute|].
  - eapply inv_initSys in W2; [done|by right|done].
  - cbn [ts_db]. by rewrite createBuckets_view.
Qed.
End ops_preserve.

(** ** Runs of a server *)

Section runs.
Context `{BoltSpec} `{Disk} `{CodecsSpec} `{ClockSpec}.

Definition forget {A} (m : App A) : App unit := _ ← m; mret tt.

(** The repository method behind each write. *)
Definition call (o : write_op) (ctx : Context_) : App unit :=
  match o with
  | OpCreate cfg => forget (Repository.Create ctx cfg)
  | OpUpdate cfg => forget (Repository.Update ctx cfg)
  | OpDelete path ns => forget (Repository.Delete ctx path ns)
  | OpLock ns path true => Repository.LockConfig ctx ns path
  | OpLock ns path false => Repository.UnlockConfig ctx ns path
  | OpPut ns path value => forget (Repository.PutKey ctx ns path value)
  | OpDeleteRange sn sp en ep prev => forget (Repository.DeleteRangeKeys ctx sn sp en ep prev)
  end.

(** The worlds a server reaches: it opens an empty database and serves writes,
    whatever each of them returns. *)
Inductive reachable : World -> Prop :=
| reach_open s :
    initBucketsTx (QTx true) (mkTS ∅ 0) = (Ok tt, s) -> reachable (mkWorld _ (ts_db s) [] 0 [] [])
| reach_call w o ctx :
    reachable w -> op_ok o -> ctx_tx ctx = None -> cur_rev (view (w_db w)) + 1 < two63 ->
    reachable (call o ctx w).2.

(** A write method at top level leaves the committed database as it was, or as
    its code left it. *)
Lemma write_db {A} fmt ctx (code : TxM A) w :
  ctx_tx ctx = None ->
  w_db (Repository.write fmt ctx code w).2 = w_db w \/
  exists a s, code (QTx true) (mkTS (w_db w) (w_tick w)) = (Ok a, s) /\
              w_db (Repository.write fmt ctx code w).2 = ts_db s.
Proof.
  intros Hc. unfold Repository.write, wrapA.
  destruct (decide (idle w)) as [Hi|Hi].
  - rewrite WithTx_top by done. unfold tx_outcome.
    destruct (code _ _) as [[a|e|[]] s]; simpl; [|by left..].
    destruct (commit_fault _); simpl; [by left|]. right. eauto.
  - left. unfold WithTx, TxFromContext. rewrite Hc. unfold mbind, App_bind, wrapA, Begin.
    destruct (begin_fault _) eqn:Ef; [done|]. destruct (busy w) eqn:Eb; [done|].
    by destruct Hi.
Qed.

Lemma forget_world {A} (m : App A) w : (forget m w).2 = (m w).2.
Proof. unfold forget, mbind, App_bind. by destruct (m w) as [[]]. Qed.

Lemma wrap_world {A} fmt args (m : App A) w : (wrapA fmt args m w).2 = (m w).2.
Proof. unfold wrapA. by destruct (m w). Qed.

Lemma call_db o ctx w :
  ctx_tx ctx = None ->
  w_db (call o ctx w).2 = w_db w \/
  exists s, run_op o (QTx true) (mkTS (w_db w) (w_tick w)) = (Ok tt, s) /\
            w_db (call o ctx w).2 = ts_db s.
Proof.
  intros Hc.
  assert (Hdis : forall A fmt (code : TxM A),
    w_db (forget (Repository.write fmt ctx code) w).2 = w_db w \/
    exists s, discard code (QTx true) (mkTS (w_db w) (w_tick w)) = (Ok tt, s) /\
              w_db (forget (Repository.write fmt ctx code) w).2 = ts_db s).
  { intros A fmt code. rewrite forget_world.
    destruct (write_db fmt ctx code w Hc) as [?|(a & s & Hs & ?)]; [by left|right].
    exists s. split; [|done]. unfold discard. by rewrite (bind_eval _ _ _ _ _ _ Hs). }
  destruct o as [| | |ns path []| |]; try apply Hdis; simpl; unfold Repository.LockConfig,
    Repository.UnlockConfig, Repository.toggleConfigLock; rewrite wrap_world.
  - destruct (write_db "wrap tx: %w" ctx (toggleConfigLockTx ns path true) w Hc)
      as [E|([] & s & Hs & E)]; [by left|right; eauto].
  - destruct (write_db "wrap tx: %w" ctx (toggleConfigLockTx ns path false) w Hc)
      as [E|([] & s & Hs & E)]; [by left|right; eauto].
Qed.

(** Everything a server can reach satisfies the invariant. *)
Lemma reachable_store_inv w : reachable w -> store_inv (view (w_db w)).
Proof.
  induction 1 as [s Hs|w o ctx Hw IH Hok Hc Hmax].
  - eapply (inv_init (QTx true)) in Hs; [done|]. apply inv_empty_view.
  - destruct (call_db o ctx w Hc) as [->|(s & Hs & ->)]; [done|].
    by eapply run_op_inv in Hs as [? _].
Qed.
End runs.

(** ** A concrete store *)

(** The store as initBuckets leaves an empty file. *)
Definition store0 : TS := (initBucketsTx (QTx true) (mkTS ∅ 0)).2.

Definition world0 : World := mkWorld _ (ts_db store0) [] 0 [] [].

Lemma store0_init : initBucketsTx (QTx true) (mkTS ∅ 0) = (Ok tt, store0).
Proof. apply run_eq. by vm_compute. Qed.

Lemma world0_reachable : reachable world0.
Proof. apply reach_open, store0_init. Qed.

(** ** Properties *)

(** C1: the store invariant holds in every world a server reaches by repository
    writes from an empty file, whether each write succeeds, fails or panics, and
    the next write keeps it: content and meta hold the same keys, each meta row
    has the hash of its content and its content is the newest history row of the
    key, versions and revisions are bounded, and the changelog has one readable
    row for every revision from 1 to the counter.  A write moves the revision
    counter by at most one, and never back. *)
Theorem repository_invariant `{BoltSpec} `{Disk} `{CodecsSpec} `{ClockSpec} w o ctx :
  reachable w -> op_ok o -> ctx_tx ctx = None -> cur_rev (view (w_db w)) + 1 < two63 ->
  let v := view (w_db w) in
  let v' := view (w_db (call o ctx w).2) in
  store_inv v /\ store_inv v' /\ cur_rev v <= cur_rev v' <= cur_rev v + 1.
Proof.
  intros Hw Hok Hc Hmax v v'. unfold v, v'. pose proof (reachable_store_inv w Hw) as Hi.
  split; [done|]. destruct (call_db o ctx w Hc) as [->|(s & Hs & ->)]; [split; [done|lia]|].
  by eapply run_op_inv in Hs.
Qed.

Lemma repository_invariant_witness :
  let w := (call (OpPut (str "prod") (str "/a.json") (str "{}")) ctx_background world0).2 in
  store_inv (view (w_db w)) /\ cur_rev (view (w_db w)) = 1.
Proof.
  intros w.
  destruct (repository_invariant world0 (OpPut (str "prod") (str "/a.json") (str "{}"))
              ctx_background) as (_ & Hi & _).
  - apply world0_reachable.
  - by_decide.
  - done.
  - by vm_compute.
  - split; [done|]. by vm_compute.
Defined.
