(* ===== verification/WriteSpec.v ===== *)
(** * What the repository's writes promise

    Read-your-writes, optimistic locking, lock safety and the exact effect of a
    range delete, for config.Repository at top level; and the refinement of
    PutKey and DeleteRangeKeys to the key-value machine of the etcd API
    is in EtcdSpec.v. *)

From S2P Require Import Prelude.
From S2P Require Import Bolt.
From S2P Require Import Keys.
From S2P Require Import Domain.
From S2P Require Import Concrete.
From S2P Require Import Manager.
From S2P Require Import ConfigRepo.
From S2P Require Import ConfigReads.
From S2P Require Import EtcdRepo.
From S2P Require Import Repository.
From S2P Require Import Effects.
From S2P Require Import Store.
From stdpp Require Import base list gmap strings sorting.
From Stdlib Require Import Ascii ZArith Lia.
Open Scope Z_scope.

Section get.
Context `{BoltSpec} `{CodecsSpec} `{Clock}.
Implicit Types (s : TS).

Lemma getConfigTx_eval path ns q s m b :
  let v := view (ts_db s) in
  meta_row v (configKey ns path) = Some m -> ns_lock v ns = Some b ->
  getConfigTx path ns q s =
  (Ok (setNamespaceLocked b (ConfigMetaToDomain m
         (default [] (v !! (bucketContent, configKey ns path))) path ns)), s).
Proof.
  intros v Hm Hb. unfold getConfigTx.
  assert (Hg : getMeta path (configKey ns path) "get meta: %w" q s = (Ok m, s)) by by apply getMeta_Ok.
  rewrite (bind_eval _ _ _ _ _ _ Hg), (bind_eval _ _ _ _ _ _ (bucket_Get_eval _ _ q s)).
  assert (Hl : isNamespaceLocked ns q s = (Ok b, s)) by by apply isNamespaceLocked_Ok.
  by rewrite (bind_eval _ _ _ _ _ _ Hl).
Qed.

(** What a content write makes of the key it wrote. *)
Lemma wrote_lookup ns path c m ty v s s' :
  wrote ns path c m ty v s s' -> meta_ok m = true ->
  meta_row (view (ts_db s')) (configKey ns path) = Some (meta_canon m) /\
  view (ts_db s') !! (bucketContent, configKey ns path) = Some c /\
  (forall n, ns_lock (view (ts_db s')) n = ns_lock v n).
Proof.
  intros [dm dl t Hdm Hdl Hv Hdom] Hok. rewrite Hv. split; [|split].
  - unfold meta_row. rewrite write_meta, decide_True by done. simpl.
    by rewrite (row_roundtrip m dm).
  - by rewrite write_content, decide_True.
  - intros n. unfold ns_lock. by rewrite write_namespaces.
Qed.

(** The stored form of a config reads back as the config. *)
Lemma stored_config cfg :
  ParseFormat (cfg_Format cfg) = Ok (cfg_Format cfg) -> cfg_Metadata cfg <> None ->
  ConfigMetaToDomain (meta_canon (DomainToConfigMeta cfg)) (cfg_Content cfg) (cfg_Path cfg)
    (cfg_Namespace cfg) = setNamespaceLocked false cfg.
Proof.
  intros Hf Hm. unfold ConfigMetaToDomain, meta_canon, DomainToConfigMeta, setNamespaceLocked.
  simpl. rewrite (storedFormat_known _ _ Hf), orEmpty_omitempty. f_equal.
  unfold orEmpty. by destruct (cfg_Metadata cfg).
Qed.

Lemma setNamespaceLocked_twice b b' c : setNamespaceLocked b (setNamespaceLocked b' c) = setNamespaceLocked b c.
Proof. by destruct c. Qed.
End get.

Section create.
Context `{BoltSpec} `{Disk} `{CodecsSpec} `{ClockSpec} `{GoSort} `{UnicodeLower}.

Lemma created_metadata cfg rev now : cfg_Metadata (created cfg rev now) <> None.
Proof. unfold created, SetDefaults. simpl. by destruct (cfg_Metadata cfg) eqn:E; simpl; rewrite ?E. Qed.

(** Reading a key at top level after a committed write to it. *)
Lemma read_after_write ctx w w' s c m ty ns path :
  ctx_tx ctx = None ->
  w' = ended true TxCommitted (ts_db s) (ts_db s) (ts_tick s) w ->
  wrote ns path c m ty (view (w_db w)) (mkTS (w_db w) (w_tick w)) s ->
  meta_ok m = true -> ns_lock (view (w_db w)) ns = Some false ->
  begin_fault (length (w_txs w')) = None ->
  exists w'', Repository.Get ctx path ns w' =
    (Ok (setNamespaceLocked false (ConfigMetaToDomain (meta_canon m) c path ns)), w'').
Proof.
  intros Hc -> Hw Hok Hns Hb.
  destruct (wrote_lookup _ _ _ _ _ _ _ _ Hw Hok) as (Hm & Hv & Hl).
  eexists. apply read_top_Ok; [done|done|]. eexists. split; [|done]. cbn [w_db w_tick ended].
  rewrite (getConfigTx_eval path ns _ _ (meta_canon m) false).
  - cbn [ts_db]. by rewrite Hv.
  - done.
  - by rewrite Hl.
Qed.
End create.

(** C6: read your writes.  When Create of a config with a known format succeeds
    at top level, the Get that follows returns the config Create handed back:
    version 1, the new revision, the hash of the content, the caller's metadata
    (an empty map for none), and a namespace that is not locked. *)
Theorem create_then_get `{BoltSpec} `{Disk} `{CodecsSpec} `{ClockSpec} ctx cfg cfg' w w' :
  ctx_tx ctx = None -> idle w -> store_inv (view (w_db w)) ->
  cur_rev (view (w_db w)) + 1 < two63 -> config_ok cfg ->
  ParseFormat (cfg_Format cfg) = Ok (cfg_Format cfg) ->
  Repository.Create ctx cfg w = (Ok cfg', w') -> begin_fault (length (w_txs w')) = None ->
  cfg_Version cfg' = 1 /\ cfg_Revision cfg' = cur_rev (view (w_db w)) + 1 /\
  cfg_Content cfg' = cfg_Content cfg /\ cfg_ContentHash cfg' = computeHash (cfg_Content cfg) /\
  exists w'', Repository.Get ctx (cfg_Path cfg) (cfg_Namespace cfg) w' =
                (Ok (setNamespaceLocked false cfg'), w'').
Proof.
  intros Hc Hi Hinv Hmax Hcfg Hf Hr Hb. apply write_top_Ok in Hr as (_ & s & Hs & Ew); [|done..].
  apply createConfigTx_Ok in Hs as (Hns & _ & Ecfg & Hw). cbn [ts_db ts_tick] in *.
  rewrite next_rev in Ecfg by done.
  set (rev := cur_rev (view (w_db w)) + 1) in *.
  destruct (created_key cfg rev (now_at (w_tick w))) as (En & Ep & Ec & Eh & Ef & El).
  assert (Hok : meta_ok (DomainToConfigMeta cfg') = true).
  { subst cfg'. apply created_meta_ok; [done|]. by apply next_in_int64. }
  rewrite <- Ecfg in *. split; [by subst cfg'|]. split; [by subst cfg'|]. split; [done|]. split; [done|].
  destruct (read_after_write ctx w w' s _ _ _ _ _ Hc Ew Hw Hok Hns Hb) as [w'' Hg].
  exists w''. rewrite Hg. rewrite <- En, <- Ep, <- Ec.
  rewrite stored_config, setNamespaceLocked_twice; [done|by rewrite Ef|].
  subst cfg'. apply created_metadata.
Qed.

Lemma create_then_get_witness :
  let cfg := mkConfig (str "/a.json") (str "{}") [] FormatJSON 0 0 0 (str "prod") None false false 0 0 in
  exists cfg' w' w'',
    Repository.Create ctx_background cfg world0 = (Ok cfg', w') /\ cfg_Version cfg' = 1 /\
    Repository.Get ctx_background (str "/a.json") (str "prod") w' =
      (Ok (setNamespaceLocked false cfg'), w'').
Proof.
  intros cfg. destruct (Repository.Create ctx_background cfg world0) as [r w'] eqn:E.
  assert (Hr : exists cfg', r = Ok cfg').
  { apply (f_equal fst) in E. vm_compute in E. subst r. by eexists. }
  destruct Hr as [cfg' ->]. exists cfg', w'.
  destruct (create_then_get ctx_background cfg cfg' world0 w') as (Hv & _ & _ & _ & w'' & Hg);
    [done|by_decide|apply reachable_store_inv, world0_reachable|by vm_compute|by_decide|done|done|done|].
  exists w''. split; [reflexivity|]. split; [exact Hv|exact Hg].
Defined.

(** ** Error branches *)

Section errors.
Context `{BoltSpec} `{Disk} `{CodecsSpec} `{ClockSpec}.
Implicit Types (s : TS).

Lemma bind_Err {A B} (m : TxM A) (f : A -> TxM B) q s e s' :
  m q s = (Err e, s') -> (m ≫= f) q s = (Err e, s').
Proof. unfold mbind, TxM_bind. by intros ->. Qed.

Lemma validate_locked ns q s :
  ns_lock (view (ts_db s)) ns = Some true ->
  validateNamespaceUnlocked ns q s =
  (Err (EWrap "namespace %q: %w" [FStr ns] ErrNamespaceLocked), s).
Proof.
  intros Hl. unfold validateNamespaceUnlocked.
  assert (Hi : isNamespaceLocked ns q s = (Ok true, s)) by by apply isNamespaceLocked_Ok.
  by rewrite (bind_eval _ _ _ _ _ _ Hi).
Qed.

Lemma validate_unlocked ns q s :
  ns_lock (view (ts_db s)) ns = Some false -> validateNamespaceUnlocked ns q s = (Ok tt, s).
Proof. intros Hl. by apply validateNamespaceUnlocked_Ok. Qed.

Lemma getMeta_missing path key fmt q s :
  view (ts_db s) !! (bucketMeta, key) = None ->
  getMeta path key fmt q s = (Err (EWrap "config %s: %w" [FStr path] ErrResourceNotFound), s).
Proof.
  intros Hn. unfold getMeta, mbind, TxM_bind, attempt. rewrite Get_eval, Hn.
  unfold errors_Is. by rewrite bool_decide_false, bool_decide_true.
Qed.

Lemma getMeta_found path key fmt q s m :
  meta_row (view (ts_db s)) key = Some m -> getMeta path key fmt q s = (Ok m, s).
Proof. intros Hm. by apply getMeta_Ok. Qed.

Lemma resolve_row key q s :
  (forall d, view (ts_db s) !! (bucketMeta, key) = Some d -> is_Some (meta_row (view (ts_db s)) key)) ->
  resolveExistingKey key q s =
  (Ok (match meta_row (view (ts_db s)) key with
       | Some m => (mkExistingKeyInfo m (view (ts_db s) !! (bucketContent, key)), true)
       | None => (zeroExisting, false)
       end), s).
Proof.
  intros Hd. unfold resolveExistingKey. destruct (meta_row (view (ts_db s)) key) as [m|] eqn:Hm.
  - assert (Ha : attempt (bbolt.Get (T:=ConfigMeta) bucketMeta key) q s = (Ok (inr m), s))
      by by apply attempt_Ok, Get_meta_Ok.
    rewrite (bind_eval _ _ _ _ _ _ Ha).
    by rewrite (bind_eval _ _ _ _ _ _ (bucket_Get_eval _ _ q s)).
  - destruct (view (ts_db s) !! (bucketMeta, key)) as [d|] eqn:Ed.
    { destruct (Hd d) as [? ?]; done. }
    unfold mbind, TxM_bind, attempt. rewrite Get_eval, Ed.
    unfold errors_Is. by rewrite bool_decide_false, bool_decide_true.
Qed.

(** Under the invariant every stored row decodes. *)
Lemma inv_row_decodes v key d :
  store_inv v -> v !! (bucketMeta, key) = Some d -> is_Some (meta_row v key).
Proof.
  intros Hi Hd. destruct (inv_key _ Hi key) as (ns & path & ? & ? & _ & _ & ->); [by eexists|].
  destruct (inv_meta _ Hi ns path) as (m & Hm & _); [done|done|by eexists|]. by exists m.
Qed.

(** A method whose code fails at top level returns the code's error, wrapped, and
    leaves the database alone. *)
Lemma write_top_Err {A} fmt ctx (code : TxM A) w e s :
  ctx_tx ctx = None -> idle w ->
  code (QTx true) (mkTS (w_db w) (w_tick w)) = (Err e, s) ->
  exists w', Repository.write fmt ctx code w = (Err (EWrap fmt [] (EJoin e)), w') /\ w_db w' = w_db w.
Proof.
  intros Hc Hi Hr. unfold Repository.write, wrapA. rewrite WithTx_top by done.
  unfold tx_outcome. rewrite Hr. simpl. eexists. done.
Qed.

Lemma errors_Is_join e t : errors_Is e t = true -> errors_Is (EJoin e) t = true.
Proof. intros Ht. simpl. rewrite Ht. apply orb_true_r. Qed.

(** A write call that fails with an error of class [t] and changes nothing. *)
Definition refused {A} (m : App A) (t : error) (w : World) : Prop :=
  exists e w', m w = (Err e, w') /\ errors_Is e t = true /\ w_db w' = w_db w.

Lemma write_refused {A} fmt ctx (code : TxM A) w e t s :
  ctx_tx ctx = None -> idle w ->
  code (QTx true) (mkTS (w_db w) (w_tick w)) = (Err e, s) -> errors_Is e t = true ->
  refused (Repository.write fmt ctx code) t w.
Proof.
  intros Hc Hi Hr Ht. destruct (write_top_Err fmt ctx code w e s Hc Hi Hr) as (w' & Hw & Hd).
  eexists _, w'. split; [done|]. split; [|done]. by apply errors_Is_wrap, errors_Is_join.
Qed.

Lemma forget_refused {A} (m : App A) t w : refused m t w -> refused (forget m) t w.
Proof.
  intros (e & w' & Hm & Hr). exists e, w'. split; [|done].
  unfold forget, mbind, App_bind. by rewrite Hm.
Qed.

Lemma wrap_refused {A} fmt args (m : App A) t w : refused m t w -> refused (wrapA fmt args m) t w.
Proof.
  intros (e & w' & Hm & Ht & Hd). eexists _, w'. unfold wrapA. rewrite Hm.
  split; [done|]. split; [by apply errors_Is_wrap|done].
Qed.

(** The code of a write, as [call] runs it. *)
Lemma call_refused o ctx w e t s :
  ctx_tx ctx = None -> idle w ->
  run_op o (QTx true) (mkTS (w_db w) (w_tick w)) = (Err e, s) -> errors_Is e t = true ->
  refused (call o ctx) t w.
Proof.
  intros Hc Hi Hr Ht.
  assert (Hd : forall A fmt (code : TxM A),
    discard code (QTx true) (mkTS (w_db w) (w_tick w)) = (Err e, s) ->
    refused (forget (Repository.write fmt ctx code)) t w).
  { intros A fmt code Hcode. apply forget_refused. eapply write_refused; [done|done| |done].
    unfold discard, mbind, TxM_bind in Hcode. destruct (code _ _) as [[a|e'|c] s1]; simplify_eq. done. }
  destruct o as [| | |ns path []| |]; simpl in Hr |- *; try (by apply Hd).
  - apply wrap_refused. by eapply write_refused.
  - apply wrap_refused. by eapply write_refused.
Qed.
End errors.

(** The namespace whose lock a write respects: a range delete only looks at the
    one its start key names. *)
Definition op_namespace (o : write_op) : bytes :=
  match o with
  | OpCreate cfg | OpUpdate cfg => cfg_Namespace cfg
  | OpDelete _ ns | OpLock ns _ _ | OpPut ns _ _ | OpDeleteRange ns _ _ _ _ => ns
  end.

Section refusals.
Context `{BoltSpec} `{Disk} `{CodecsSpec} `{ClockSpec}.

Lemma locked_namespace_err o s :
  store_inv (view (ts_db s)) -> ns_lock (view (ts_db s)) (op_namespace o) = Some true ->
  exists e s', run_op o (QTx true) s = (Err e, s') /\ errors_Is e ErrNamespaceLocked = true.
Proof.
  intros Hi Hl. pose proof (validate_locked _ (QTx true) s Hl) as Hv.
  exists (EWrap "namespace %q: %w" [FStr (op_namespace o)] ErrNamespaceLocked), s.
  split; [|by apply errors_Is_wrap, errors_Is_refl].
  destruct o; simpl in Hl, Hv |- *; unfold discard.
  - apply bind_Err. unfold createConfigTx. by apply bind_Err.
  - apply bind_Err. unfold updateConfigTx. by apply bind_Err.
  - apply bind_Err. unfold deleteConfigTx. by apply bind_Err.
  - unfold toggleConfigLockTx. by apply bind_Err.
  - apply bind_Err. unfold putKeyTx.
    erewrite bind_eval; [|apply resolve_row; intros d; by apply inv_row_decodes].
    destruct (meta_row _ _); by apply bind_Err.
  - apply bind_Err. unfold deleteRangeKeysTx. by apply bind_Err.
Qed.

(** What a write does to a key whose row is [m]: the writes a config lock or the
    version check stops. *)
Inductive hits (k : bytes) : write_op -> Prop :=
| hits_update cfg : k = configKey (cfg_Namespace cfg) (cfg_Path cfg) -> hits k (OpUpdate cfg)
| hits_delete path ns : k = configKey ns path -> hits k (OpDelete path ns)
| hits_put ns path value : k = configKey ns path -> hits k (OpPut ns path value)
| hits_range sn sp en ep prev :
    in_range (buildRangeParams sn sp en ep) k -> hits k (OpDeleteRange sn sp en ep prev).

Lemma collect_Err_or {X Y} (g : X -> error + Y) (P : error -> Prop) l :
  Forall (fun x => match g x with inl e => P e | inr _ => True end) l ->
  Exists (fun x => exists e, g x = inl e) l -> exists e, collect g l = Err e /\ P e.
Proof.
  induction 1 as [|x l Hx _ IH]; inversion 1 as [? ? [e He]|? ? He]; subst; simpl.
  - rewrite He in *. eauto.
  - destruct (g x) as [e|y]; [eauto|]. destruct IH as (e & -> & ?); [done|]. eauto.
Qed.

Lemma target_of_row v prev k d m :
  meta_row v k = Some m -> v !! (bucketMeta, k) = Some d ->
  if m_Locked m
  then target_of v prev (k, d) = inl (EWrap "delete range: %w" [] (NewLockedError (parseConfigKey k).2))
  else exists t, target_of v prev (k, d) = inr t.
Proof.
  intros Hm Hd. unfold meta_row in Hm. rewrite Hd in Hm. simpl in Hm. unfold target_of. simpl.
  unfold bbolt.JSONCodec_Unmarshal. destruct (parseConfigKey k) as [ns path].
  destruct (json_Unmarshal d) as [|m']; [done|]. injection Hm as ->.
  destruct (m_Locked m); [done|by eexists].
Qed.

Lemma locked_config_err o k m s :
  let v := view (ts_db s) in
  store_inv v -> ns_lock v (op_namespace o) = Some false ->
  meta_row v k = Some m -> m_Locked m = true -> hits k o ->
  exists e s', run_op o (QTx true) s = (Err e, s') /\ errors_Is e ErrLocked = true.
Proof.
  intros v Hi Hl Hm Hlk Hh. pose proof (validate_unlocked _ (QTx true) s Hl) as Hv.
  destruct Hh as [cfg ->|path ns ->|ns path value ->|sn sp en ep prev Hr]; simpl in Hv |- *;
    unfold discard.
  - eexists _, s. split.
    + apply bind_Err. unfold updateConfigTx. rewrite (bind_eval _ _ _ _ _ _ Hv).
      erewrite bind_eval; [|by apply getMeta_found]. apply bind_Err.
      unfold liftT, validateUpdatePreconditions. by rewrite Hlk.
    + by apply errors_Is_wrap, errors_Is_wrap, errors_Is_refl.
  - eexists _, s. split.
    + apply bind_Err. unfold deleteConfigTx. rewrite (bind_eval _ _ _ _ _ _ Hv).
      erewrite bind_eval; [|by apply getMeta_found]. by rewrite Hlk.
    + by apply errors_Is_wrap, errors_Is_refl.
  - eexists _, s. split.
    + apply bind_Err. unfold putKeyTx.
      erewrite bind_eval; [|apply resolve_row; intros d; by apply inv_row_decodes].
      fold v. rewrite Hm. simpl. rewrite (bind_eval _ _ _ _ _ _ Hv). apply bind_Err.
      unfold liftT, checkPutAllowed. simpl. by rewrite Hlk.
    + by apply errors_Is_wrap, errors_Is_wrap, errors_Is_refl.
  - destruct (v !! (bucketMeta, k)) as [d|] eqn:Hd; [|by unfold meta_row in Hm; rewrite Hd in Hm].
    destruct (collect_Err_or (target_of v prev) (fun e => errors_Is e ErrLocked = true)
                (range_rows (ts_db s) (buildRangeParams sn sp en ep))) as (e & He & Hle).
    + apply Forall_forall. intros [k' d'] Hin%range_rows_elem. destruct Hin as [_ Hd'].
      destruct (inv_row_decodes v k' d' Hi Hd') as [m' Hm'].
      pose proof (target_of_row v prev k' d' m' Hm' Hd') as Ht.
      destruct (m_Locked m'); [rewrite Ht|by destruct Ht as [t ->]].
      by apply errors_Is_wrap, errors_Is_wrap, errors_Is_refl.
    + apply Exists_exists. exists (k, d). split; [by apply range_rows_elem|].
      pose proof (target_of_row v prev k d m Hm Hd) as Ht. rewrite Hlk in Ht. rewrite Ht. by eexists.
    + exists e, s. split; [|done]. apply bind_Err. unfold deleteRangeKeysTx.
      rewrite (bind_eval _ _ _ _ _ _ Hv). apply bind_Err. rewrite collectDeleteTargets_eval.
      fold v. by rewrite He.
Qed.
End refusals.


(** The store after one config was created and locked. *)
Definition world_locked : World :=
  (call (OpLock (str "prod") (str "/a.json") true) ctx_background
     (call (OpPut (str "prod") (str "/a.json") (str "{}")) ctx_background world0).2).2.

Lemma world_locked_reachable : reachable world_locked.
Proof.
  apply reach_call; [apply reach_call; [apply world0_reachable|..]|..]; try by_decide; done.
Qed.


(** ** Update *)

Section update.
Context `{BoltSpec} `{Disk} `{CodecsSpec} `{ClockSpec}.

Lemma update_missing cfg s :
  ns_lock (view (ts_db s)) (cfg_Namespace cfg) = Some false ->
  view (ts_db s) !! (bucketMeta, configKey (cfg_Namespace cfg) (cfg_Path cfg)) = None ->
  updateConfigTx cfg (QTx true) s =
  (Err (EWrap "config %s: %w" [FStr (cfg_Path cfg)] ErrResourceNotFound), s).
Proof.
  intros Hl Hn. unfold updateConfigTx.
  rewrite (bind_eval _ _ _ _ _ _ (validate_unlocked _ (QTx true) s Hl)).
  apply bind_Err. by apply getMeta_missing.
Qed.

Lemma update_conflict cfg m s :
  ns_lock (view (ts_db s)) (cfg_Namespace cfg) = Some false ->
  meta_row (view (ts_db s)) (configKey (cfg_Namespace cfg) (cfg_Path cfg)) = Some m ->
  m_Locked m = false -> m_Version m <> cfg_Version cfg ->
  updateConfigTx cfg (QTx true) s =
  (Err (EWrap "update precondition: %w" [] (NewConflictError (cfg_Version cfg) (m_Version m))), s).
Proof.
  intros Hl Hm Hk Hv. unfold updateConfigTx.
  rewrite (bind_eval _ _ _ _ _ _ (validate_unlocked _ (QTx true) s Hl)).
  erewrite bind_eval; [|by apply getMeta_found]. apply bind_Err.
  unfold liftT, validateUpdatePreconditions. rewrite Hk. by rewrite (proj2 (Z.eqb_neq _ _) Hv).
Qed.
End update.

(** C5: optimistic locking.  In an unlocked namespace, Update of a config that is
    not stored fails with ErrResourceNotFound and Update with a version other
    than the stored one fails with ErrVersionConflict, both without a change.
    An Update that succeeds had the stored version: it stores that version plus
    one at the next revision, keeps the creation revision and time, and the Get
    that follows returns exactly the config it handed back. *)
Theorem update_optimistic `{BoltSpec} `{Disk} `{CodecsSpec} `{ClockSpec} ctx cfg w :
  let v := view (w_db w) in
  let key := configKey (cfg_Namespace cfg) (cfg_Path cfg) in
  ctx_tx ctx = None -> idle w -> store_inv v -> cur_rev v + 1 < two63 -> config_ok cfg ->
  ns_lock v (cfg_Namespace cfg) = Some false ->
  (v !! (bucketMeta, key) = None -> refused (Repository.Update ctx cfg) ErrResourceNotFound w) /\
  (forall m, meta_row v key = Some m -> m_Locked m = false -> m_Version m <> cfg_Version cfg ->
     refused (Repository.Update ctx cfg) ErrVersionConflict w) /\
  (forall cfg' w', Repository.Update ctx cfg w = (Ok cfg', w') ->
     exists m, meta_row v key = Some m /\ m_Locked m = false /\ m_Version m = cfg_Version cfg /\
       cfg_Version cfg' = m_Version m + 1 /\ cfg_Revision cfg' = cur_rev v + 1 /\
       cfg_CreateRevision cfg' = m_CreateRevision m /\ cfg_CreatedAt cfg' = m_CreatedAt m /\
       (ParseFormat (cfg_Format cfg) = Ok (cfg_Format cfg) -> cfg_Metadata cfg <> None ->
        begin_fault (length (w_txs w')) = None ->
        exists w'', Repository.Get ctx (cfg_Path cfg) (cfg_Namespace cfg) w' =
                      (Ok (setNamespaceLocked false cfg'), w''))).
Proof.
  intros v key Hc Hi Hinv Hmax Hcfg Hl. split; [|split].
  - intros Hn. eapply write_refused; [done|done|by apply update_missing|].
    by apply errors_Is_wrap, errors_Is_refl.
  - intros m Hm Hk Hv. eapply write_refused; [done|done|by eapply update_conflict|].
    by apply errors_Is_wrap, errors_Is_wrap, errors_Is_refl.
  - intros cfg' w' Hr. apply write_top_Ok in Hr as (_ & s & Hs & Ew); [|done..].
    apply updateConfigTx_Ok in Hs as (m & Hns & Hm & Hk & Hv & Ecfg & Hw). cbn [ts_db ts_tick] in *.
    rewrite next_rev in Ecfg by done. destruct Hcfg as (Hn & Hp & Hf & Hmd).
    destruct (existing_meta _ _ _ m Hinv (proj1 Hn) (proj1 Hp) Hm) as [Hok Hag].
    destruct (updated_meta_ok _ _ _ cfg m (w_tick w) Hinv Hmax (conj Hn (conj Hp (conj Hf Hmd))) Hok Hag)
      as [Hok' Hver].
    exists m. do 3 (split; [done|]).
    split; [by rewrite Ecfg; simpl|]. do 3 (split; [by rewrite Ecfg|]). intros Hpf Hmn Hb.
    destruct (read_after_write ctx w w' s _ _ _ _ _ Hc Ew Hw) as [w'' Hg];
      [by rewrite Ecfg|done|done|].
    exists w''. rewrite Hg. replace (cfg_Path cfg) with (cfg_Path cfg') by by rewrite Ecfg.
    replace (cfg_Namespace cfg) with (cfg_Namespace cfg') by by rewrite Ecfg.
    replace (cfg_Content cfg) with (cfg_Content cfg') by by rewrite Ecfg.
    by rewrite stored_config, setNamespaceLocked_twice; [|rewrite Ecfg..].
Qed.

(** A config as a client that read version 1 sends it back. *)
Definition cfg_a (version : Z) : Config :=
  mkConfig (str "/a.json") (str "[1]") [] FormatJSON version 0 0 (str "prod") (Some ∅) false false 0 0.

Definition world_a : World := (call (OpCreate (cfg_a 0)) ctx_background world0).2.

Lemma world_a_reachable : reachable world_a.
Proof. apply reach_call; [apply world0_reachable|by_decide|done|by vm_compute]. Qed.

Lemma update_optimistic_witness :
  refused (Repository.Update ctx_background (cfg_a 7)) ErrVersionConflict world_a /\
  exists cfg' w', Repository.Update ctx_background (cfg_a 1) world_a = (Ok cfg', w') /\
                  cfg_Version cfg' = 2.
Proof.
  assert (Hinv : store_inv (view (w_db world_a))) by apply reachable_store_inv, world_a_reachable.
  destruct (meta_row (view (w_db world_a)) (configKey (str "prod") (str "/a.json")))
    as [m|] eqn:Hm; [|by vm_compute in Hm].
  assert (Hv : m_Version m = 1) by (eapply fmap_Some_eq; [exact Hm|by vm_compute]).
  assert (Hk : m_Locked m = false) by (eapply fmap_Some_eq; [exact Hm|by vm_compute]).
  split.
  - eapply (update_optimistic ctx_background (cfg_a 7) world_a); [done|by_decide|done|
      by vm_compute|by_decide|by vm_compute|exact Hm|done|]. simpl. lia.
  - destruct (Repository.Update ctx_background (cfg_a 1) world_a) as [r w'] eqn:E.
    assert (Hr : exists cfg', r = Ok cfg').
    { apply (f_equal fst) in E. vm_compute in E. subst r. by eexists. }
    destruct Hr as [cfg' ->]. exists cfg', w'. split; [reflexivity|].
    eapply (update_optimistic ctx_background (cfg_a 1) world_a) in E
      as (m' & Hm' & _ & Ev & -> & _); [|done|by_decide|done|by vm_compute|by_decide|by vm_compute].
    rewrite Ev. done.
Defined.

(** ** DeleteRangeKeys *)

Definition kv_name (kv : KVPair) : bytes * bytes := (kv_Namespace kv, kv_Path kv).

Section delete_range.
Context `{BoltSpec} `{Disk} `{CodecsSpec} `{ClockSpec}.
Implicit Types (v : View).

Lemma collect_names v prev rows ts :
  collect (target_of v prev) rows = Ok ts -> kv_name <$> (dt_kv <$> ts) = parseConfigKey <$> rows.*1.
Proof.
  rewrite collect_Ok. induction 1 as [|x t rows ts Hx _ IH]; [done|]. rewrite !fmap_cons, IH.
  f_equal. apply target_of_key in Hx as (_ & E1 & E2). unfold kv_name. rewrite E1, E2.
  by destruct (parseConfigKey _).
Qed.

(** The view after a committed range delete. *)
Lemma delete_range_view rp ns prev wr s kvs rev s' :
  let v := view (ts_db s) in
  let v' := view (ts_db s') in
  store_inv v -> cur_rev v + 1 < two63 ->
  deleteRangeKeysTx rp ns prev (QTx wr) s = (Ok (kvs, rev), s') ->
  (forall k, v' !! (bucketMeta, k) = if decide (in_range rp k) then None else v !! (bucketMeta, k)) /\
  (forall k, v' !! (bucketContent, k) =
     if decide (in_range rp k) then None else v !! (bucketContent, k)) /\
  (forall k, v' !! (bucketHistory, k) = v !! (bucketHistory, k)) /\
  (forall n, ns_lock v' n = ns_lock v n) /\
  kv_name <$> kvs = parseConfigKey <$> (range_rows (ts_db s) rp).*1 /\
  (kvs = [] /\ rev = 0 /\ cur_rev v' = cur_rev v \/
   kvs <> [] /\ rev = cur_rev v + 1 /\ cur_rev v' = cur_rev v + 1 /\
   exists kv e, last kvs = Some kv /\ change_row v' rev = Some e /\
     sc_Type e = EventTypeDeleted /\ sc_Namespace e = kv_Namespace kv /\ sc_Path e = kv_Path kv).
Proof.
  intros v v' Hinv Hmax (_ & ts & Hts & -> & Hcase)%deleteRangeKeysTx_Ok. fold v in Hts, Hcase.
  pose proof (collect_keys _ _ _ _ Hts) as Hk. pose proof (collect_names _ _ _ _ Hts) as Hnames.
  assert (Hback : forall k, k ∈ dt_key <$> ts -> in_range rp k).
  { intros k. rewrite Hk. intros ([k' d] & -> & Hin)%list_elem_of_fmap. by apply range_rows_elem in Hin as [? _]. }
  assert (Hin : forall b k, b = bucketMeta \/ b = bucketContent -> in_range rp k ->
            k ∉ dt_key <$> ts -> v !! (b, k) = None).
  { intros b k Hb Hr Hn. apply eq_None_not_Some. intros Hs. apply Hn. rewrite Hk.
    assert (Hs' : is_Some (v !! (bucketMeta, k))) by (destruct Hb; subst; [done|by apply Hinv]).
    destruct Hs' as [d Hd]. apply list_elem_of_fmap. exists (k, d). by rewrite range_rows_elem. }
  destruct Hcase as [(-> & -> & ->)|(Hne & Er & _ & ds & Hds & Hv)].
  - unfold v'. fold v. repeat split; try done; [..|by left]; intros k; case_decide as D; try done;
      apply Hin; auto; set_solver.
  - rewrite next_rev in Er by done. subst rev.
    destruct (targets_last _ _ _ _ _ Hinv Hts Hds Hne)
      as (t & d & ch & Ht & Hl & Hd & Hwf & Hty & Hcn & Hcp).
    assert (Hz : (zip (dt_key <$> ts) ds).*1 = dt_key <$> ts).
    { apply fst_zip. rewrite length_fmap. apply Forall2_length in Hds. lia. }
    unfold v'. rewrite Hv. repeat split; [..|done|].
    + intros k. rewrite removes_meta, Hz, set_rev_other by done.
      destruct (decide (k ∈ _)) as [D1|D1], (decide (in_range rp k)) as [D2|D2];
        [done|by apply Hback in D1|apply Hin; auto|done].
    + intros k. rewrite removes_content, Hz, set_rev_other by done.
      destruct (decide (k ∈ _)) as [D1|D1], (decide (in_range rp k)) as [D2|D2];
        [done|by apply Hback in D1|apply Hin; auto|done].
    + intros k. by rewrite removes_other, set_rev_other.
    + intros n. unfold ns_lock. by rewrite removes_other, set_rev_other.
    + right. split; [by destruct ts|]. split; [done|]. split; [by eapply removes_cur|].
      exists (dt_kv t), ch. split; [by rewrite fmap_last, Ht|]. split; [|done].
      pose proof (inv_rev _ Hinv). erewrite removes_change by (done || lia). by rewrite decide_True.
Qed.

(** The changelog rows of other revisions stay. *)
Lemma delete_range_old_log rp ns prev wr s kvs rev s' r :
  let v := view (ts_db s) in
  store_inv v -> cur_rev v + 1 < two63 -> in_int64 r ->
  deleteRangeKeysTx rp ns prev (QTx wr) s = (Ok (kvs, rev), s') -> r <> rev ->
  change_row (view (ts_db s')) r = change_row v r.
Proof.
  intros v Hinv Hmax Hr (_ & ts & Hts & -> & Hcase)%deleteRangeKeysTx_Ok Hne. fold v in Hcase.
  destruct Hcase as [(-> & -> & ->)|(_ & Er & _ & ds & _ & Hv)]; [done|].
  rewrite next_rev in Er by done. subst rev. apply change_row_ne.
  rewrite Hv, removes_changelog, decide_False, set_rev_other; [done|done|].
  apply revisionBytes_ne; [done|by apply next_in_int64|done].
Qed.
End delete_range.

(** C14: DeleteRangeKeys is exact.  When it succeeds at top level, the keys of the
    range are gone from content and meta, every other key, all history and all
    namespace locks are as before, the returned pairs name exactly the stored
    keys of the range in key order, and the revision advances by one, or stays
    when the range was empty. *)
Theorem delete_range_exact `{BoltSpec} `{Disk} `{CodecsSpec} `{ClockSpec}
    ctx sn sp en ep prev kvs rev w w' :
  let v := view (w_db w) in
  let v' := view (w_db w') in
  let rp := buildRangeParams sn sp en ep in
  ctx_tx ctx = None -> idle w -> store_inv v -> cur_rev v + 1 < two63 ->
  Repository.DeleteRangeKeys ctx sn sp en ep prev w = (Ok (kvs, rev), w') ->
  (forall k, in_range rp k -> v' !! (bucketMeta, k) = None /\ v' !! (bucketContent, k) = None) /\
  (forall k, ~ in_range rp k -> v' !! (bucketMeta, k) = v !! (bucketMeta, k) /\
                                v' !! (bucketContent, k) = v !! (bucketContent, k)) /\
  (forall k, v' !! (bucketHistory, k) = v !! (bucketHistory, k)) /\
  (forall n, ns_lock v' n = ns_lock v n) /\
  kv_name <$> kvs = parseConfigKey <$> (range_rows (w_db w) rp).*1 /\
  (kvs = [] /\ rev = 0 /\ cur_rev v' = cur_rev v \/
   kvs <> [] /\ rev = cur_rev v + 1 /\ cur_rev v' = cur_rev v + 1).
Proof.
  intros v v' rp Hc Hi Hinv Hmax Hr. apply write_top_Ok in Hr as (_ & s & Hs & ->); [|done..].
  apply delete_range_view in Hs as (H1' & H2' & H3' & H4' & H5' & H6'); [|done..].
  split; [|split; [|split; [|split; [|split; [done|]]]]]; try done.
  - intros k Hk. unfold v'. cbn [w_db ended]. by rewrite H1', H2', !decide_True.
  - intros k Hk. unfold v'. cbn [w_db ended]. by rewrite H1', H2', !decide_False.
  - naive_solver.
Qed.

(** The store with two configs of one namespace. *)
Definition world_ab : World :=
  (call (OpPut (str "prod") (str "/b") (str "2")) ctx_background
    (call (OpPut (str "prod") (str "/a") (str "1")) ctx_background world0).2).2.

Lemma world_ab_reachable : reachable world_ab.
Proof.
  apply reach_call; [apply reach_call; [apply world0_reachable|..]|..]; try by_decide; done.
Qed.

(** The range "/prod/" to the end of the namespace, on [world_ab]. *)
Abbreviation delete_ab :=
  (Repository.DeleteRangeKeys ctx_background (str "prod") (str "/") (str "prod0") [] false world_ab).

Lemma delete_ab_Ok : delete_ab.1 =
  Ok ([mkKVPair (str "prod") (str "/a") None 0 0 0; mkKVPair (str "prod") (str "/b") None 0 0 0], 3).
Proof. by vm_compute. Qed.

Lemma delete_range_exact_witness :
  let v' := view (w_db delete_ab.2) in
  v' !! (bucketMeta, configKey (str "prod") (str "/a")) = None /\ cur_rev v' = 3.
Proof.
  destruct (delete_range_exact ctx_background (str "prod") (str "/") (str "prod0") [] false
    [mkKVPair (str "prod") (str "/a") None 0 0 0; mkKVPair (str "prod") (str "/b") None 0 0 0] 3
    world_ab delete_ab.2) as (Hin & _ & _ & _ & _ & Hrev).
  - done.
  - by_decide.
  - apply reachable_store_inv, world_ab_reachable.
  - by vm_compute.
  - apply run_eq, delete_ab_Ok.
  - destruct (Hin (configKey (str "prod") (str "/a"))) as [Hm _]; [by_decide|].
    split; [exact Hm|]. destruct Hrev as [[? _]|(_ & Hrev & ->)]; [done|by rewrite <- Hrev].
Defined.


