(* ===== verification/EtcdSpec.v ===== *)
(** * The key-value machine behind the etcd API

    What an etcd client is promised of Put and DeleteRange, as a small machine:
    a revision and a map from keys to values with their creation revision,
    modification revision and version.  The buckets of the config repository
    refine it: each PutKey and DeleteRangeKeys of etcd.go that succeeds is a step
    of the machine, with the same answer. *)

From S2P Require Import Prelude.
From S2P Require Import Bolt.
From S2P Require Import Keys.
From S2P Require Import Domain.
From S2P Require Import Concrete.
From S2P Require Import Manager.
From S2P Require Import ConfigRepo.
From S2P Require Import EtcdRepo.
From S2P Require Import Repository.
From S2P Require Import Effects.
From S2P Require Import Store.
From S2P Require Import WriteSpec.
From stdpp Require Import base list gmap strings sorting.
From Stdlib Require Import Ascii ZArith Lia.
Open Scope Z_scope.

(** ** The machine *)

Record entry := mkEntry { e_value : bytes; e_create : Z; e_mod : Z; e_version : Z }.

#[global] Instance entry_eq_dec : EqDecision entry.
Proof. solve_decision. Defined.

Record kvstate := mkKV { kv_rev : Z; kv_map : gmap (bytes * bytes) entry }.

(** Put: the next revision; a new key starts at version 1. *)
Definition spec_put (key : bytes * bytes) (value : bytes) (st : kvstate) : kvstate :=
  let rev := kv_rev st + 1 in
  let e := match kv_map st !! key with
           | Some old => mkEntry value (e_create old) rev (e_version old + 1)
           | None => mkEntry value rev rev 1
           end in
  mkKV rev (<[key := e]> (kv_map st)).

(** DeleteRange: the keys of the range go, at the next revision if there were any. *)
Definition spec_delete (range : bytes * bytes -> Prop) `{!forall k, Decision (range k)}
    (st : kvstate) : kvstate :=
  if decide (filter (fun kv => range kv.1) (kv_map st) = ∅) then st
  else mkKV (kv_rev st + 1) (filter (fun kv => ~ range kv.1) (kv_map st)).

(** The pair an etcd response carries for an entry. *)
Definition entry_kv (key : bytes * bytes) (e : entry) : KVPair :=
  mkKVPair key.1 key.2 (Some (e_value e)) (e_create e) (e_mod e) (e_version e).

(** ** The refinement *)

Section refinement.
Context `{BoltSpec} `{Disk} `{CodecsSpec} `{ClockSpec}.
Implicit Types (v : View) (st : kvstate).

(** The entry the buckets hold for a config. *)
Definition entry_of (v : View) (ns path : bytes) : option entry :=
  m ← meta_row v (configKey ns path);
  c ← v !! (bucketContent, configKey ns path);
  Some (mkEntry c (m_CreateRevision m) (m_Revision m) (m_Version m)).

Record refines (v : View) (st : kvstate) : Prop := {
  ref_rev : kv_rev st = cur_rev v;
  ref_names key : is_Some (kv_map st !! key) -> nul_free key.1 /\ nul_free key.2;
  ref_map ns path : nul_free ns -> nul_free path -> kv_map st !! (ns, path) = entry_of v ns path;
}.

(** Every store that satisfies the invariant refines a state. *)
Lemma refines_content v st ns path m :
  store_inv v -> refines v st -> nul_free ns -> nul_free path ->
  meta_row v (configKey ns path) = Some m ->
  exists c, v !! (bucketContent, configKey ns path) = Some c /\
    kv_map st !! (ns, path) = Some (mkEntry c (m_CreateRevision m) (m_Revision m) (m_Version m)).
Proof.
  intros Hi Hr Hn Hp Hm. destruct (existing_meta v ns path m Hi Hn Hp Hm) as [_ (c & Hc & _)].
  exists c. split; [done|]. rewrite (ref_map _ _ Hr) by done. unfold entry_of. rewrite Hm. simpl.
  by rewrite Hc.
Qed.

Lemma entry_of_None v ns path : meta_row v (configKey ns path) = None -> entry_of v ns path = None.
Proof. unfold entry_of. by intros ->. Qed.

(** A write of [ns, path] changes the entry of that key only. *)
Lemma entry_of_wrote ns path c m ty v s s' ns' path' :
  wrote ns path c m ty v s s' -> meta_ok m = true ->
  nul_free ns -> nul_free ns' ->
  entry_of (view (ts_db s')) ns' path' =
  if decide ((ns', path') = (ns, path))
  then Some (mkEntry c (m_CreateRevision m) (m_Revision m) (m_Version m))
  else entry_of v ns' path'.
Proof.
  intros Hw Hok Hn Hn'. destruct (wrote_lookup _ _ _ _ _ _ _ _ Hw Hok) as (Hm & Hc & _).
  case_decide as E.
  - injection E as -> ->. unfold entry_of. rewrite Hm. simpl. by rewrite Hc.
  - destruct Hw as [dm dl t _ _ Hv _]. unfold entry_of, meta_row. rewrite Hv.
    rewrite write_meta, write_content, !decide_False; [done| |];
      intros [-> ->]%configKey_inj; done.
Qed.

Lemma put_refines v st ns path value s prev rev s' :
  v = view (ts_db s) -> store_inv v -> cur_rev v + 1 < two63 -> refines v st ->
  name_ok ns -> name_ok path ->
  putKeyTx ns path value (QTx true) s = (Ok (prev, rev), s') ->
  prev = entry_kv (ns, path) <$> kv_map st !! (ns, path) /\
  rev = kv_rev st + 1 /\ refines (view (ts_db s')) (spec_put (ns, path) value st).
Proof.
  intros -> Hinv Hmax Hst [Hn Hun] [Hp Hup] Hr. pose proof Hr as Hr'.
  apply putKeyTx_Ok in Hr as (_ & _ & -> & Er & Hw). rewrite next_rev in Er by done. subst rev.
  set (v := view (ts_db s)) in *. pose proof (ref_rev _ _ Hst) as Erev.
  assert (Hcur : cur_rev (view (ts_db s')) = cur_rev v + 1) by (eapply inv_put in Hr' as [_ ?]; done).
  destruct (put_meta_of_ok v ns path value (ts_tick s) Hinv Hmax Hn Hp) as [Hok Hver].
  split; [|split; [by rewrite Erev|]].
  - unfold prev_kv_of. destruct (meta_row v (configKey ns path)) as [m|] eqn:Hm; simpl.
    + destruct (refines_content v st ns path m) as (c & Hc & ->); [done..|]. by rewrite Hc.
    + by rewrite (ref_map _ _ Hst), entry_of_None.
  - split.
    + simpl. by rewrite Erev, Hcur.
    + intros key. simpl. destruct (decide (key = (ns, path))) as [->|Hne]; [done|].
      rewrite lookup_insert_ne by done. apply Hst.
    + intros ns' path' Hn' Hp'. rewrite (entry_of_wrote _ _ _ _ _ _ _ _ ns' path' Hw Hok Hn Hn').
      simpl. case_decide as E.
      * injection E as -> ->. rewrite lookup_insert_eq, Erev. f_equal.
        destruct (meta_row v (configKey ns path)) as [m|] eqn:Hm.
        -- destruct (refines_content v st ns path m) as (c & Hc & ->); [done..|]. simpl.
           by rewrite (Hver m).
        -- by rewrite (ref_map _ _ Hst), entry_of_None.
      * rewrite lookup_insert_ne by congruence. by apply Hst.
Qed.

(** The configs of a storage range. *)
Definition range_of (rp : rangeParams) (key : bytes * bytes) : Prop := in_range rp (configKey key.1 key.2).

#[global] Instance range_of_dec rp key : Decision (range_of rp key).
Proof. unfold range_of. apply _. Defined.

(** The pairs a range delete with prevKV returns are the entries of the range. *)
Lemma targets_entries db st rp ts kv :
  let v := view db in
  store_inv v -> refines v st -> collect (target_of v true) (range_rows db rp) = Ok ts ->
  kv ∈ dt_kv <$> ts <->
  exists key e, kv_map st !! key = Some e /\ range_of rp key /\ kv = entry_kv key e.
Proof.
  intros v Hinv Hst Hts. apply collect_Ok in Hts. rewrite list_elem_of_fmap. split.
  - intros (t & -> & Ht). apply list_elem_of_lookup in Ht as [i Hi].
    destruct (Forall2_lookup_r _ _ _ _ _ Hts Hi) as ([k d] & Hk & Hx).
    apply list_elem_of_lookup_2, range_rows_elem in Hk as [Hr Hd].
    destruct (inv_key _ Hinv k) as (ns & path & ? & ? & _ & _ & ->); [by eexists|].
    destruct (inv_row_decodes _ _ _ Hinv Hd) as [m Hm].
    destruct (refines_content v st ns path m) as (c & Hc & He); [done..|].
    exists (ns, path), (mkEntry c (m_CreateRevision m) (m_Revision m) (m_Version m)).
    split; [done|]. split; [done|]. unfold target_of in Hx. simpl in Hx.
    rewrite parseConfigKey_configKey in Hx by done.
    unfold meta_row in Hm. fold v in Hd. rewrite Hd in Hm. simpl in Hm.
    unfold bbolt.JSONCodec_Unmarshal in Hx. destruct (json_Unmarshal d); simplify_eq.
    destruct (m_Locked m); [done|]. injection Hx as <-. unfold entry_kv. simpl. by rewrite Hc.
  - intros ([ns path] & e & He & Hr & ->). destruct (ref_names _ _ Hst (ns, path)) as [Hn Hp]; [by eexists|].
    simpl in Hn, Hp. rewrite (ref_map _ _ Hst) in He by done. unfold entry_of in He.
    destruct (meta_row v (configKey ns path)) as [m|] eqn:Hm; [|done].
    destruct (v !! (bucketContent, configKey ns path)) as [c|] eqn:Hc; [|done]. injection He as <-.
    destruct (v !! (bucketMeta, configKey ns path)) as [d|] eqn:Hd;
      [|by unfold meta_row in Hm; rewrite Hd in Hm].
    assert (Hin : (configKey ns path, d) ∈ range_rows db rp) by by apply range_rows_elem.
    apply list_elem_of_lookup in Hin as [i Hi].
    destruct (Forall2_lookup_l _ _ _ _ _ Hts Hi) as (t & Ht & Hx).
    exists t. split; [|by eapply list_elem_of_lookup_2].
    unfold target_of in Hx. simpl in Hx. rewrite parseConfigKey_configKey in Hx by done.
    unfold meta_row in Hm. rewrite Hd in Hm. simpl in Hm.
    unfold bbolt.JSONCodec_Unmarshal in Hx. destruct (json_Unmarshal d); simplify_eq.
    destruct (m_Locked m); [done|]. injection Hx as <-. unfold entry_kv. simpl. by rewrite Hc.
Qed.

(** A stored row is an entry of the machine, and an entry is a stored row. *)
Lemma row_entry db st rp ns path d :
  let v := view db in
  store_inv v -> refines v st -> nul_free ns -> nul_free path ->
  (configKey ns path, d) ∈ range_rows db rp ->
  exists m c, json_Unmarshal d = inr m /\ v !! (bucketContent, configKey ns path) = Some c /\
    range_of rp (ns, path) /\
    kv_map st !! (ns, path) = Some (mkEntry c (m_CreateRevision m) (m_Revision m) (m_Version m)).
Proof.
  intros v Hinv Hst Hn Hp [Hr Hd]%range_rows_elem. fold v in Hd.
  destruct (inv_row_decodes _ _ _ Hinv Hd) as [m Hm].
  destruct (refines_content v st ns path m) as (c & Hc & He); [done..|].
  exists m, c. split; [|done]. unfold meta_row in Hm. rewrite Hd in Hm. simpl in Hm.
  destruct (json_Unmarshal d); [done|]. by injection Hm as ->.
Qed.

Lemma entry_row db st rp ns path e :
  let v := view db in
  refines v st -> kv_map st !! (ns, path) = Some e -> range_of rp (ns, path) ->
  nul_free ns /\ nul_free path /\ exists d, (configKey ns path, d) ∈ range_rows db rp.
Proof.
  intros v Hst He Hr. destruct (ref_names _ _ Hst (ns, path)) as [Hn Hp]; [by eexists|].
  simpl in Hn, Hp. split; [done|]. split; [done|].
  rewrite (ref_map _ _ Hst) in He by done. unfold entry_of in He.
  destruct (meta_row v (configKey ns path)) as [m|] eqn:Hm; [|done].
  destruct (v !! (bucketMeta, configKey ns path)) as [d|] eqn:Hd;
    [|by unfold meta_row in Hm; rewrite Hd in Hm].
  exists d. by apply range_rows_elem.
Qed.

Lemma range_rows_nil db st rp :
  let v := view db in
  store_inv v -> refines v st ->
  filter (fun kv => range_of rp kv.1) (kv_map st) = ∅ <-> range_rows db rp = [].
Proof.
  intros v Hinv Hst. split; intros E.
  - destruct (range_rows db rp) as [|[k d] rows] eqn:Er; [done|]. exfalso.
    assert (Hin : (k, d) ∈ range_rows db rp) by (rewrite Er; set_solver).
    pose proof Hin as [_ Hd]%range_rows_elem.
    destruct (inv_key _ Hinv k) as (ns & path & ? & ? & _ & _ & ->); [by eexists|].
    destruct (row_entry db st rp ns path d) as (m & c & _ & _ & Hr & He); [done..|].
    assert (Hf : filter (fun kv => range_of rp kv.1) (kv_map st) !! (ns, path) =
                 Some (mkEntry c (m_CreateRevision m) (m_Revision m) (m_Version m)))
      by by apply map_lookup_filter_Some.
    by rewrite E, lookup_empty in Hf.
  - apply map_empty. intros [ns path]. apply eq_None_not_Some. intros [e He].
    apply map_lookup_filter_Some in He as [He Hr]. simpl in Hr.
    destruct (entry_row db st rp ns path e) as (_ & _ & d & Hd); [done..|]. rewrite E in Hd. set_solver.
Qed.

Lemma delete_refines v st rp ns prev s kvs rev s' :
  v = view (ts_db s) -> store_inv v -> cur_rev v + 1 < two63 -> refines v st ->
  deleteRangeKeysTx rp ns prev (QTx true) s = (Ok (kvs, rev), s') ->
  (prev = true -> forall kv, kv ∈ kvs <->
     exists key e, kv_map st !! key = Some e /\ range_of rp key /\ kv = entry_kv key e) /\
  (filter (fun kv => range_of rp kv.1) (kv_map st) = ∅ <-> kvs = []) /\
  (kvs = [] -> rev = 0) /\ (kvs <> [] -> rev = kv_rev st + 1) /\
  refines (view (ts_db s')) (spec_delete (range_of rp) st).
Proof.
  intros -> Hinv Hmax Hst Hr. pose proof Hr as (_ & ts & Hts & Ekv & Hz)%deleteRangeKeysTx_Ok.
  apply delete_range_view in Hr as (Hmeta & Hcont & _ & _ & _ & Hcase); [|done..].
  set (v := view (ts_db s)) in *. pose proof (ref_rev _ _ Hst) as Erev.
  assert (Hent : forall ns' path', entry_of (view (ts_db s')) ns' path' =
            if decide (range_of rp (ns', path')) then None else entry_of v ns' path').
  { intros ns' path'. unfold entry_of, meta_row. rewrite Hmeta, Hcont.
    case_decide as D; [by rewrite decide_True|by rewrite !decide_False]. }
  assert (Hgone : filter (fun kv => range_of rp kv.1) (kv_map st) = ∅ <-> kvs = []).
  { rewrite (range_rows_nil (ts_db s) st rp) by done. apply collect_keys in Hts. rewrite Ekv.
    split; intros E.
    - rewrite E in Hts. simpl in Hts. by apply fmap_nil_inv in Hts as ->.
    - apply fmap_nil_inv in E as ->. simpl in Hts. symmetry in Hts. by apply fmap_nil_inv in Hts. }
  split. { intros -> kv. rewrite Ekv. by apply (targets_entries (ts_db s) st rp ts kv). }
  split; [done|]. split. { intros E. rewrite Ekv in E. apply fmap_nil_inv in E as ->. naive_solver. }
  split; [naive_solver lia|].
  assert (Hnew : forall ns' path', nul_free ns' -> nul_free path' ->
    filter (fun kv => ~ range_of rp kv.1) (kv_map st) !! (ns', path') =
    if decide (range_of rp (ns', path')) then None else entry_of v ns' path').
  { intros ns' path' Hn Hp. rewrite <- (ref_map _ _ Hst) by done. case_decide as D.
    - apply map_lookup_filter_None. right. intros e _ Hc. by apply Hc.
    - destruct (kv_map st !! (ns', path')) eqn:E.
      + by apply map_lookup_filter_Some.
      + apply map_lookup_filter_None. by left. }
  unfold spec_delete. case_decide as D.
  - pose proof D as E0. apply Hgone in D as ->.
    destruct Hcase as [(_ & _ & Hc)|[? _]]; [|done]. split.
    + by rewrite Hc.
    + apply Hst.
    + intros ns' path' Hn Hp. rewrite Hent, (ref_map _ _ Hst) by done. case_decide as D2; [|done].
      rewrite <- (ref_map _ _ Hst) by done. destruct (kv_map st !! (ns', path')) as [e|] eqn:E; [|done].
      assert (Hf : filter (fun kv => range_of rp kv.1) (kv_map st) !! (ns', path') = Some e)
        by by apply map_lookup_filter_Some. by rewrite E0, lookup_empty in Hf.
  - destruct Hcase as [(-> & _)|(_ & _ & Hc & _)]; [by destruct D; apply Hgone|]. split.
    + simpl. by rewrite Erev, Hc.
    + intros key [e He]. simpl in He. apply map_lookup_filter_Some in He as [He _].
      apply Hst. by eexists.
    + intros ns' path' Hn Hp. simpl. by rewrite Hnew, Hent.
Qed.
End refinement.

(** ** Progress *)

Section progress.
Context `{BoltSpec} `{Disk} `{CodecsSpec} `{ClockSpec}.

(** The buckets a content write needs. *)
Definition has_buckets (db : DB) : Prop :=
  Forall (fun b => is_Some (db !! b)) [bucketContent; bucketMeta; bucketHistory; bucketChangelog; bucketSys].

#[global] Instance has_buckets_dec db : Decision (has_buckets db).
Proof. unfold has_buckets. apply _. Defined.

Lemma bucket_here (db db' : DB) b : dom db' = dom db -> is_Some (db !! b) -> is_Some (db' !! b).
Proof. rewrite <- !elem_of_dom. by intros ->. Qed.

(** The sizes of a PutKey within the engine's limits. *)
Record put_fits (ns path value : bytes) (m : ConfigMeta) : Prop := {
  pf_key : Z.of_nat (length (historyKey ns path 0)) <= MaxKeySize;
  pf_value : Z.of_nat (length value) <= MaxValueSize;
  pf_meta d : json_Marshal m = inr d -> Z.of_nat (length d) <= MaxValueSize;
  pf_log ch d : sc_Path ch = path -> sc_Namespace ch = ns -> json_Marshal ch = inr d ->
                Z.of_nat (length d) <= MaxValueSize;
}.

Lemma length_configKey ns path : (length (configKey ns path) <= length (historyKey ns path 0))%nat.
Proof.
  unfold historyKey, historyPrefix, configKey. rewrite !length_app, length_revisionBytes. simpl. lia.
Qed.

Lemma length_historyKey ns path r r' : length (historyKey ns path r) = length (historyKey ns path r').
Proof. unfold historyKey. by rewrite !length_app, !length_revisionBytes. Qed.

Lemma historyKey_not_nil ns path r : historyKey ns path r <> [].
Proof. unfold historyKey, historyPrefix. destruct ns; done. Qed.

Lemma revisionBytes_not_nil r : revisionBytes r <> [].
Proof. intros E. apply (f_equal length) in E. by rewrite length_revisionBytes in E. Qed.

Lemma nextRevision_succeeds s :
  is_Some (ts_db s !! bucketSys) -> exists r s', nextRevision (QTx true) s = (Ok r, s').
Proof.
  intros Hb. unfold nextRevision, nextCounter.
  rewrite (bind_eval _ _ _ _ _ _ (bucket_Get_eval _ _ _ s)).
  edestruct (bucket_Put_succeeds bucketSys (str sysRevisionKeyName)) as [s' Hs']; [done|done|done| |].
  { rewrite length_revisionBytes. done. }
  erewrite bind_eval; [|by apply wrapE_Ok]. by do 2 eexists.
Qed.

Lemma putKeyTx_succeeds ns path value s :
  let v := view (ts_db s) in
  store_inv v -> cur_rev v + 1 < two63 -> name_ok ns -> name_ok path -> has_buckets (ts_db s) ->
  ns_lock v ns = Some false ->
  (forall m, meta_row v (configKey ns path) = Some m -> m_Locked m = false) ->
  put_fits ns path value (put_meta_of path value (cur_rev v + 1)
    (meta_row v (configKey ns path)) (now_at (ts_tick s))) ->
  exists r s', putKeyTx ns path value (QTx true) s = (Ok r, s').
Proof.
  intros v Hinv Hmax [Hn Hun] [Hp Hup] Hbk Hl Hlk [Fk Fv Fm Fl].
  unfold has_buckets in Hbk. rewrite !Forall_cons in Hbk. destruct Hbk as (B1 & B2 & B3 & B4 & B5 & _).
  destruct (put_meta_of_ok v ns path value (ts_tick s) Hinv Hmax Hn Hp) as [Hok Hver].
  unfold putKeyTx. erewrite bind_eval; [|apply resolve_row; intros d; by apply inv_row_decodes].
  fold v. set (old := meta_row v (configKey ns path)) in *.
  assert (Hpair : exists ex found, match old with
      | Some m => (mkExistingKeyInfo m (v !! (bucketContent, configKey ns path)), true)
      | None => (zeroExisting, false) end = (ex, found) /\
      old = (if found then Some (ex_meta ex) else None) /\ checkPutAllowed ex found path = Ok tt).
  { destruct old as [m|] eqn:Eo; do 2 eexists; (split; [done|]); (split; [done|]); [|done].
    unfold checkPutAllowed. simpl. by rewrite (Hlk m). }
  destruct Hpair as (ex & found & -> & Hold & Hal). cbv beta iota.
  rewrite (bind_eval _ _ _ _ _ _ (validate_unlocked _ (QTx true) s Hl)).
  erewrite bind_eval; [|apply liftT_Ok; by split].
  destruct (nextRevision_succeeds s B5) as (r & s1 & Hr). rewrite (bind_eval _ _ _ _ _ _ Hr).
  apply nextCounter_Ok in Hr as (Er & _ & T1 & D1). change (r = int64 (cur_rev v + 1)) in Er.
  rewrite next_rev in Er by done.
  destruct (buildPutMeta path value r ex found (QTx true) s1) as [[[m ty]|e|c] s2] eqn:Eb;
    [|by unfold buildPutMeta in Eb; destruct found..].
  rewrite (bind_eval _ _ _ _ _ _ Eb). apply buildPutMeta_Ok in Eb as (Em & Ety & ->).
  rewrite <- Hold, T1, Er in Em. rewrite <- Em in *. cbv beta iota.
  pose proof (length_configKey ns path) as Lk.
  destruct (bucket_Put_succeeds bucketContent (configKey ns path) value (mkTS (ts_db s1) (S (ts_tick s1))))
    as [s3 Hs3]; [by eapply bucket_here|apply configKey_not_nil|lia|done|].
  erewrite bind_eval; [|by apply wrapE_Ok]. apply bucket_Put_Ok in Hs3 as (_ & _ & D3). cbn [ts_db] in D3.
  destruct (json_Marshal_ok m) as [dm Hdm]; [done|].
  destruct (Put_succeeds bucketMeta (configKey ns path) m dm s3)
    as [s4 Hs4]; [done|eapply bucket_here; [|exact B2]; congruence|apply configKey_not_nil|lia|auto|].
  erewrite bind_eval; [|by apply wrapE_Ok]. apply Put_Ok in Hs4 as (_ & _ & _ & _ & D4).
  destruct (bucket_Put_succeeds bucketHistory (historyKey ns path r) value s4)
    as [s5 Hs5]; [eapply bucket_here; [|exact B3]; congruence|apply historyKey_not_nil| |done|].
  { by rewrite (length_historyKey ns path r 0). }
  erewrite bind_eval; [|unfold writeHistory; by apply wrapE_Ok].
  apply bucket_Put_Ok in Hs5 as (_ & _ & D5).
  destruct (json_Marshal_ok (change_of s5 ty path ns (m_Version m))) as [dl Hdl].
  { simpl. rewrite Hun, Hup, now_ok, (meta_ok_version m Hok). by destruct found; subst ty. }
  destruct (Put_succeeds bucketChangelog (revisionBytes r) (change_of s5 ty path ns (m_Version m)) dl
              (mkTS (ts_db s5) (S (ts_tick s5))))
    as [s6 Hs6]; [done|eapply bucket_here; [|exact B4]; simpl; congruence
                 |apply revisionBytes_not_nil|by rewrite length_revisionBytes|by eapply (Fl (change_of s5 ty path ns (m_Version m)))|].
  do 2 eexists. erewrite bind_eval; [done|]. unfold writeChangelog.
  rewrite (bind_eval _ _ _ _ _ _ (Now_eval _ s5)). apply wrapE_Ok, Hs6.
Qed.
End progress.

(** ** Properties *)

(** C2: the repository refines the etcd key-value machine.  If the committed
    store satisfies the invariant and refines a machine state, a PutKey that
    succeeds answers with the previous entry and the next revision and leaves a
    store that refines the machine after Put, and a DeleteRangeKeys with prevKV
    that succeeds returns exactly the entries of the range and leaves a store
    that refines the machine after DeleteRange. *)
Theorem kv_refinement `{BoltSpec} `{Disk} `{CodecsSpec} `{ClockSpec} ctx w st :
  let v := view (w_db w) in
  ctx_tx ctx = None -> idle w -> store_inv v -> cur_rev v + 1 < two63 -> refines v st ->
  (forall ns path value prev rev w', name_ok ns -> name_ok path ->
     Repository.PutKey ctx ns path value w = (Ok (prev, rev), w') ->
     prev = entry_kv (ns, path) <$> kv_map st !! (ns, path) /\ rev = kv_rev st + 1 /\
     refines (view (w_db w')) (spec_put (ns, path) value st)) /\
  (forall sn sp en ep kvs rev w',
     let rp := buildRangeParams sn sp en ep in
     Repository.DeleteRangeKeys ctx sn sp en ep true w = (Ok (kvs, rev), w') ->
     (forall kv, kv ∈ kvs <->
        exists key e, kv_map st !! key = Some e /\ range_of rp key /\ kv = entry_kv key e) /\
     (kvs <> [] -> rev = kv_rev st + 1) /\
     refines (view (w_db w')) (spec_delete (range_of rp) st)).
Proof.
  intros v Hc Hi Hinv Hmax Hst. split.
  - intros ns path value prev rev w' Hn Hp Hr.
    apply write_top_Ok in Hr as (_ & s & Hs & ->); [|done..].
    by eapply (put_refines v st) in Hs.
  - intros sn sp en ep kvs rev w' rp Hr.
    apply write_top_Ok in Hr as (_ & s & Hs & ->); [|done..].
    eapply (delete_refines v st) in Hs as (Hkv & _ & _ & Hrev & Href); [|done..].
    split; [by apply Hkv|]. done.
Qed.

Lemma meta_row_empty `{BoltSpec} `{Codecs} (db : DB) k :
  db_pairs db bucketMeta = [] -> meta_row (view db) k = None.
Proof.
  intros Hm. unfold meta_row. destruct (view db !! (bucketMeta, k)) eqn:Ev; [|done].
  apply elem_of_db_pairs in Ev. rewrite Hm in Ev. set_solver.
Qed.

Lemma refines_empty `{BoltSpec} `{Codecs} (db : DB) :
  db_pairs db bucketMeta = [] -> cur_rev (view db) = 0 -> refines (view db) (mkKV 0 ∅).
Proof.
  intros Hm Hr. split; [done|intros key [? Hk]; simpl in Hk; by rewrite lookup_empty in Hk|].
  intros ns path _ _. simpl. rewrite lookup_empty. unfold entry_of. by rewrite meta_row_empty.
Qed.

Lemma world0_refines : refines (view (w_db world0)) (mkKV 0 ∅).
Proof. apply refines_empty; by vm_compute. Qed.

Lemma kv_refinement_witness :
  refines (view (w_db (Repository.PutKey ctx_background (str "prod") (str "/a") (str "1") world0).2))
    (mkKV 1 {[(str "prod", str "/a") := mkEntry (str "1") 1 1 1]}).
Proof.
  destruct (kv_refinement ctx_background world0 (mkKV 0 ∅)) as [Hput _];
    [done|by_decide|apply reachable_store_inv, world0_reachable|by vm_compute|apply world0_refines|].
  destruct (Hput (str "prod") (str "/a") (str "1") None 1
    (Repository.PutKey ctx_background (str "prod") (str "/a") (str "1") world0).2) as (_ & _ & Hr);
    [by_decide|by_decide|apply run_eq; by vm_compute|]. exact Hr.
Defined.

(** C19: PutKey makes progress.  In an idle world whose store satisfies the
    invariant, with the buckets in place, the namespace and the config unlocked,
    and keys and rows within the engine's limits, PutKey succeeds unless the
    disk refuses the commit. *)
Theorem put_key_succeeds `{BoltSpec} `{Disk} `{CodecsSpec} `{ClockSpec} ctx ns path value w :
  let v := view (w_db w) in
  let old := meta_row v (configKey ns path) in
  ctx_tx ctx = None -> idle w -> store_inv v -> cur_rev v + 1 < two63 ->
  name_ok ns -> name_ok path -> has_buckets (w_db w) -> ns_lock v ns = Some false ->
  (forall m, old = Some m -> m_Locked m = false) ->
  put_fits ns path value (put_meta_of path value (cur_rev v + 1) old (now_at (w_tick w))) ->
  commit_fault (length (w_txs w)) = None ->
  exists r w', Repository.PutKey ctx ns path value w = (Ok r, w').
Proof.
  intros v old Hc Hi Hinv Hmax Hn Hp Hb Hl Hk Hf Hcf.
  destruct (putKeyTx_succeeds ns path value (mkTS (w_db w) (w_tick w))) as (r & s & Hs); [done..|].
  eexists r, _. apply write_top_Ok; [done|done|]. split; [done|]. by exists s.
Qed.

Lemma put_key_succeeds_witness :
  exists r w', Repository.PutKey ctx_background (str "prod") (str "/a") (str "1") world0 = (Ok r, w').
Proof.
  apply (put_key_succeeds ctx_background (str "prod") (str "/a") (str "1") world0);
    [done|by_decide|apply reachable_store_inv, world0_reachable|by vm_compute|by_decide|by_decide
    |by_decide|by vm_compute| | |done].
  - intros m Hm. by vm_compute in Hm.
  - split.
    + by vm_compute.
    + by vm_compute.
    + intros d Hd. vm_compute in Hd. injection Hd as <-. by vm_compute.
    + intros ch d Hp Hn Hd. apply change_length in Hd as ->. rewrite Hp, Hn. by vm_compute.
Defined.
