(* ===== verification/ReadSpec.v ===== *)
(** * What the repository's reads promise

    Point-in-time lookups return the newest history row at or before the
    revision, the changelog is read without gaps, a page is a slice of the full
    listing and a range query returns the range.  Cursor loops are compared with
    filters and slices of the stored rows. *)

From S2P Require Import Prelude.
From S2P Require Import Bolt.
From S2P Require Import Keys.
From S2P Require Import Domain.
From S2P Require Import Concrete.
From S2P Require Import Manager.
From S2P Require Import ConfigRepo.
From S2P Require Import ConfigReads.
From S2P Require Import EtcdRepo.
From S2P Require Import Repository.
From S2P Require Import Effects.
From S2P Require Import Store.
From S2P Require Import WriteSpec.
From stdpp Require Import base list gmap strings sorting.
From Stdlib Require Import Ascii ZArith Lia.
Open Scope Z_scope.

(** ** The greatest key at or below a bound *)

Lemma last_greatest (l : list (bytes * bytes)) x y :
  StronglySorted blt l.*1 -> last l = Some x -> y ∈ l -> ~ blt x.1 y.1.
Proof.
  induction l as [|z l IH]; [done|]. intros Hs. inversion_clear Hs as [|? ? Hs' Hz].
  rewrite last_cons, elem_of_cons. destruct (last l) as [u|] eqn:El.
  - intros [= ->] [->|Hy]; [|by apply IH]. apply last_Some_elem_of in El.
    rewrite Forall_fmap, Forall_forall in Hz. intros Hlt. eapply blt_irrefl, blt_trans; [done|].
    by apply Hz.
  - apply last_None in El as ->. intros [= ->] [->|Hy]; [apply blt_irrefl|set_solver].
Qed.

Lemma sorted_filter (P : bytes * bytes -> Prop) `{!forall x, Decision (P x)} l :
  StronglySorted blt l.*1 -> StronglySorted blt (filter P l).*1.
Proof.
  induction l as [|x l IH]; [done|]. intros Hs. inversion_clear Hs as [|? ? Hs' Hx].
  destruct (decide (P x)); [rewrite filter_cons_True by done|rewrite filter_cons_False by done; auto].
  constructor; [auto|]. change (Forall (blt x.1) (filter P l).*1).
  rewrite Forall_fmap, Forall_forall. rewrite Forall_fmap, Forall_forall in Hx.
  intros y Hy. apply Hx. by apply list_elem_of_filter in Hy as [_ ?].
Qed.

(** seekRevision stops at the greatest key that is at most the sought one. *)
Lemma seekRevision_spec p k l :
  StronglySorted blt l.*1 -> has_prefix k p = true ->
  match cur_kv (seekRevision p k (mkCursor [] l)) with
  | Some x => x ∈ l /\ ~ blt k x.1 /\ forall y, y ∈ l -> ~ blt k y.1 -> ~ blt x.1 y.1
  | None => forall y, y ∈ l -> blt k y.1
  end.
Proof.
  intros Hs Hp. unfold seekRevision. rewrite cursor_Seek_sorted by done.
  set (lo := filter (fun kv => blt kv.1 k) l). set (hi := filter (fun kv => ~ blt kv.1 k) l).
  assert (Hlo : forall after, (forall y, y ∈ hi -> blt k y.1) ->
    match cur_kv (cursor_Prev (mkCursor (rev lo) after)) with
    | Some x => x ∈ l /\ ~ blt k x.1 /\ forall y, y ∈ l -> ~ blt k y.1 -> ~ blt x.1 y.1
    | None => forall y, y ∈ l -> blt k y.1
    end).
  { intros after Hhi.
    assert (Hin : forall y, y ∈ l -> ~ blt k y.1 -> y ∈ lo).
    { intros y Hy Hk. apply list_elem_of_filter. split; [|done].
      destruct (decide (blt y.1 k)) as [|Hn]; [done|]. destruct Hk. apply Hhi.
      by apply list_elem_of_filter. }
    unfold cursor_Prev. cbn [cur_before cur_after]. destruct (rev lo) as [|x r] eqn:Er; simpl.
    - apply (f_equal (@rev _)) in Er. rewrite rev_involutive in Er. simpl in Er.
      intros y Hy. destruct (decide (blt k y.1)) as [|Hn]; [done|].
      apply Hin in Hn; [|done]. rewrite Er in Hn. set_solver.
    - assert (Hl : last lo = Some x).
      { rewrite <- (rev_involutive lo), Er. simpl. apply last_snoc. }
      pose proof (last_Some_elem_of _ _ Hl) as Hx. apply list_elem_of_filter in Hx as [Hxk Hxl].
      split; [done|]. split; [intros Hk; by eapply blt_irrefl, blt_trans|].
      intros y Hy Hk. eapply last_greatest; [apply (sorted_filter (fun kv => blt kv.1 k)), Hs|done|auto]. }
  pose proof (sorted_filter (fun kv => ~ blt kv.1 k) l Hs) as Hsh. fold hi in Hsh.
  assert (Hhi : forall y, y ∈ hi -> ~ blt y.1 k /\ y ∈ l)
    by (intros y Hy; by apply list_elem_of_filter in Hy).
  clearbody hi. cbv zeta. change (cur_kv (mkCursor (rev lo) hi)) with (head hi).
  destruct hi as [|[k1 v1] rest]; cbn [head]; [apply Hlo; set_solver|].
  destruct (Hhi (k1, v1)) as [Hge Hl1]; [set_solver|]. simpl in Hge.
  destruct (decide (k1 = k)) as [->|Hne].
  - rewrite Hp. unfold bytes_eqb. rewrite bool_decide_true by done. simpl.
    split; [done|]. split; [apply blt_irrefl|done].
  - assert (Hgt : forall y, y ∈ (k1, v1) :: rest -> blt k y.1).
    { assert (Hk1 : blt k k1) by (destruct (blt_total k k1) as [|[|]]; done).
      intros y [->|Hy]%elem_of_cons; [done|]. simpl in Hsh. inversion_clear Hsh as [|? ? _ Hf].
      change (Forall (blt k1) rest.*1) in Hf.
      rewrite Forall_fmap, Forall_forall in Hf. eapply blt_trans; [done|]. by apply Hf. }
    unfold bytes_eqb. rewrite bool_decide_false by done. cbn [negb].
    destruct (negb (has_prefix k1 p)); by apply Hlo.
Qed.

(** ** Point-in-time reads *)

Section history.
Context `{BoltSpec} `{CodecsSpec}.
Implicit Types (v : View) (s : TS).

(** The newest history row of a config at or before a revision. *)
Definition newest_at (v : View) (ns path : bytes) (r r0 : Z) (c : bytes) : Prop :=
  1 <= r0 <= r /\ v !! (bucketHistory, historyKey ns path r0) = Some c /\
  forall r1, r0 < r1 <= r -> v !! (bucketHistory, historyKey ns path r1) = None.

Lemma historyKey_lt ns path a b :
  0 <= a < two63 -> 0 <= b < two63 -> blt (historyKey ns path a) (historyKey ns path b) <-> a < b.
Proof. intros Ha Hb. unfold historyKey. rewrite blt_app. by apply revisionBytes_lt. Qed.

(** The history row seekRevision finds for a config and a revision. *)
Lemma seek_history db ns path r :
  let v := view db in
  let p := historyPrefix ns path in
  store_inv v -> nul_free ns -> nul_free path -> 0 <= r < two63 ->
  match cur_kv (seekRevision p (historyKey ns path r) (mkCursor [] (db_pairs db bucketHistory))) with
  | Some (k, c) =>
      if has_prefix k p
      then exists r0, k = historyKey ns path r0 /\ newest_at v ns path r r0 c
      else forall r0, 1 <= r0 <= r -> v !! (bucketHistory, historyKey ns path r0) = None
  | None => forall r0, 1 <= r0 <= r -> v !! (bucketHistory, historyKey ns path r0) = None
  end.
Proof.
  intros v p Hinv Hn Hp Hr.
  pose proof (seekRevision_spec p (historyKey ns path r) (db_pairs db bucketHistory)
    (db_pairs_sorted db bucketHistory)) as Hseek.
  assert (Hpre : forall x, has_prefix (historyKey ns path x) p = true) by (intros; apply has_prefix_app).
  specialize (Hseek (Hpre r)). pose proof (inv_rev _ Hinv) as Hcur.
  assert (Hle : forall r0 c, 1 <= r0 <= r -> v !! (bucketHistory, historyKey ns path r0) = Some c ->
            ~ blt (historyKey ns path r) (historyKey ns path r0)).
  { intros r0 c H0' _. rewrite historyKey_lt by lia. lia. }
  destruct (cur_kv _) as [[k c]|].
  - destruct Hseek as (Hin & Hk & Hmax). apply elem_of_db_pairs in Hin. simpl in Hk, Hmax.
    destruct (inv_hist _ Hinv k) as (n1 & p1 & r1 & e & ? & ? & -> & Hr1 & _); [by eexists|].
    destruct (has_prefix (historyKey n1 p1 r1) p) eqn:Ep.
    + apply historyPrefix_matches in Ep as [<- <-]; [|done..].
      exists r1. split; [done|]. rewrite historyKey_lt in Hk by lia. split; [lia|]. split; [done|].
      intros r2 Hr2. apply eq_None_not_Some. intros [c2 Hc2].
      eapply (Hmax (historyKey ns path r2, c2)); simpl;
        [by apply elem_of_db_pairs|by eapply Hle; [lia|]|]. apply historyKey_lt; lia.
    + intros r0 Hr0. apply eq_None_not_Some. intros [c0 Hc0].
      assert (Hnot : ~ blt (historyKey n1 p1 r1) (historyKey ns path r0)).
      { apply (Hmax (historyKey ns path r0, c0)); simpl; [by apply elem_of_db_pairs|by eapply Hle]. }
      assert (Hge : ~ blt (historyKey n1 p1 r1) p).
      { intros Hlt. apply Hnot. eapply blt_nblt_trans; [exact Hlt|]. by apply has_prefix_ge. }
      pose proof (has_prefix_interval p _ (historyKey ns path r) Hge Ep Hk) as Hx.
      by rewrite Hpre in Hx.
  - intros r0 Hr0. apply eq_None_not_Some. intros [c0 Hc0]. eapply Hle; [done|done|].
    apply (Hseek (historyKey ns path r0, c0)). by apply elem_of_db_pairs.
Qed.
End history.

Section history_reads.
Context `{BoltSpec} `{Disk} `{CodecsSpec}.
Implicit Types (v : View) (s : TS).

Lemma historyEntryAt_eval rev content q s :
  exists ty t, historyEntryAt rev content q s =
    (Ok (mkHistoryEntry rev content (computeHash content) ty t), s) /\
    (forall e, change_row (view (ts_db s)) rev = Some e -> ty = sc_Type e /\ t = sc_Timestamp e).
Proof.
  unfold historyEntryAt, changeInfo. unfold mbind, TxM_bind. rewrite bucket_Get_eval.
  unfold change_row, bbolt.JSONCodec_Unmarshal.
  destruct (view (ts_db s) !! _) as [d|]; simpl; [|by do 2 eexists].
  destruct (json_Unmarshal d) as [e|cl]; simpl; (do 2 eexists; split; [done|]); [done|].
  by intros e [= ->].
Qed.

Lemma lookupHistory_eval ns path r w s :
  lookupHistoryAtRevision ns path r (QTx w) s =
  (Ok (match cur_kv (seekRevision (historyPrefix ns path) (historyKey ns path r)
               (mkCursor [] (db_pairs (ts_db s) bucketHistory))) with
       | None => None
       | Some (k, c) => if negb (has_prefix k (historyPrefix ns path)) then None else Some c
       end), s).
Proof.
  unfold lookupHistoryAtRevision. by rewrite (bind_eval _ _ _ _ _ _ (bucket_Cursor_eval _ w s)).
Qed.

Lemma read_refused {A} fmt ctx (code : TxM A) w e t s :
  ctx_tx ctx = None -> begin_fault (length (w_txs w)) = None ->
  code (QTx false) (mkTS (w_db w) (w_tick w)) = (Err e, s) -> errors_Is e t = true ->
  refused (Repository.read fmt ctx code) t w.
Proof.
  intros Hc Hi Hr Ht. eexists _, _. unfold Repository.read, wrapA. rewrite WithReadTx_top by done.
  unfold read_outcome. rewrite Hr. simpl. split; [done|].
  split; [by apply errors_Is_wrap, errors_Is_join|done].
Qed.

Lemma getAtRevision_eval ns path r w s k c :
  cur_kv (seekRevision (historyPrefix ns path) (historyKey ns path r)
            (mkCursor [] (db_pairs (ts_db s) bucketHistory))) = Some (k, c) ->
  has_prefix k (historyPrefix ns path) = true ->
  getAtRevisionTx path ns r (QTx w) s =
  historyEntryAt (parseRevision (drop (length (historyPrefix ns path)) k)) c (QTx w) s.
Proof.
  intros Hk Hp. unfold getAtRevisionTx.
  rewrite (bind_eval _ _ _ _ _ _ (bucket_Cursor_eval _ w s)), Hk, Hp. done.
Qed.

Lemma getAtRevision_missing ns path r w s :
  lookupHistoryAtRevision ns path r (QTx w) s = (Ok None, s) ->
  getAtRevisionTx path ns r (QTx w) s =
  (Err (EWrap "config history %s: %w" [FStr path] ErrResourceNotFound), s).
Proof.
  rewrite lookupHistory_eval. unfold getAtRevisionTx.
  rewrite (bind_eval _ _ _ _ _ _ (bucket_Cursor_eval _ w s)).
  destruct (cur_kv _) as [[k c]|]; [|done]. by destruct (has_prefix k _).
Qed.
End history_reads.

(** C15: point-in-time reads.  For every revision, GetKVAtRevision returns the
    newest history row of the config at or before it, or nothing when there is
    none; GetAtRevision returns that row with its own revision, the hash of its
    content and the type and time of its changelog row, or ErrResourceNotFound. *)
Theorem at_revision_newest `{BoltSpec} `{Disk} `{CodecsSpec} ctx ns path r w :
  let v := view (w_db w) in
  ctx_tx ctx = None -> begin_fault (length (w_txs w)) = None -> store_inv v ->
  nul_free ns -> nul_free path -> 0 <= r < two63 ->
  (exists c r0 w1 w2 he e, newest_at v ns path r r0 c /\
     Repository.GetKVAtRevision ctx ns path r w = (Ok (Some c), w1) /\
     Repository.GetAtRevision ctx path ns r w = (Ok he, w2) /\
     change_row v r0 = Some e /\
     he = mkHistoryEntry r0 c (computeHash c) (sc_Type e) (sc_Timestamp e)) \/
  ((forall r0, 1 <= r0 <= r -> v !! (bucketHistory, historyKey ns path r0) = None) /\
   (exists w1, Repository.GetKVAtRevision ctx ns path r w = (Ok None, w1)) /\
   refused (Repository.GetAtRevision ctx path ns r) ErrResourceNotFound w).
Proof.
  intros v Hc Hb Hinv Hn Hp Hr. set (s := mkTS (w_db w) (w_tick w)).
  pose proof (seek_history (w_db w) ns path r Hinv Hn Hp Hr) as Hseek.
  pose proof (lookupHistory_eval ns path r false s) as Hl. cbn [ts_db s] in Hl.
  assert (Hnone : (forall r0, 1 <= r0 <= r -> v !! (bucketHistory, historyKey ns path r0) = None) ->
    lookupHistoryAtRevision ns path r (QTx false) s = (Ok None, s) ->
    (forall r0, 1 <= r0 <= r -> v !! (bucketHistory, historyKey ns path r0) = None) /\
    (exists w1, Repository.GetKVAtRevision ctx ns path r w = (Ok None, w1)) /\
    refused (Repository.GetAtRevision ctx path ns r) ErrResourceNotFound w).
  { intros Hno Hl'. split; [done|]. split.
    - eexists. apply read_top_Ok; [done|done|]. eexists. split; [exact Hl'|done].
    - eapply read_refused; [done|done|by apply getAtRevision_missing|].
      by apply errors_Is_wrap, errors_Is_refl. }
  destruct (cur_kv _) as [[k c]|] eqn:Ek; [|right; by apply Hnone].
  destruct (has_prefix k (historyPrefix ns path)) eqn:Ep; [|right; by apply Hnone].
  left. destruct Hseek as (r0 & -> & Hnew). pose proof Hnew as (Hr0 & Hrow & _).
  destruct (inv_hist _ Hinv (historyKey ns path r0)) as (n1 & p1 & r1 & e & ? & ? & Ek1 & Hr1 & He & _);
    [by eexists|].
  pose proof (inv_rev _ Hinv) as Hcur.
  apply historyKey_inj in Ek1 as (_ & _ & <-);
    [|done|done|done|done|unfold in_int64, two63 in *; lia..].
  destruct (historyEntryAt_eval r0 c (QTx false) s) as (ty & t & Hhe & Hte).
  destruct (Hte e He) as [-> ->].
  eexists c, r0, _, _, _, e. split; [done|]. split; [|split; [|by split]].
  - apply read_top_Ok; [done|done|]. eexists. split; [exact Hl|done].
  - apply read_top_Ok; [done|done|]. exists s. split; [|reflexivity].
    erewrite getAtRevision_eval by done.
    by rewrite historyKey_drop, parseRevision_bytes by (unfold in_int64, two63 in *; lia).
Qed.

Lemma at_revision_newest_witness :
  exists c r0 w1, newest_at (view (w_db world_ab)) (str "prod") (str "/a") 5 r0 c /\
    Repository.GetKVAtRevision ctx_background (str "prod") (str "/a") 5 world_ab = (Ok (Some c), w1).
Proof.
  destruct (at_revision_newest ctx_background (str "prod") (str "/a") 5 world_ab)
    as [(c & r0 & w1 & w2 & he & e & Hnew & Hget & _)|(_ & [w1 Hget] & _)];
    [done|done|apply reachable_store_inv, world_ab_reachable|by_decide|by_decide|by vm_compute| |].
  - exists c, r0, w1. split; [exact Hnew|exact Hget].
  - apply (f_equal fst) in Hget. by vm_compute in Hget.
Defined.

Section deleted.
Context `{BoltSpec} `{Disk} `{CodecsSpec} `{ClockSpec}.

Lemma newest_after_delete ns path s rev s' :
  let v := view (ts_db s) in
  store_inv v -> cur_rev v + 1 < two63 -> name_ok ns -> name_ok path ->
  deleteConfigTx path ns (QTx true) s = (Ok rev, s') ->
  exists m c, meta_row v (configKey ns path) = Some m /\
    v !! (bucketContent, configKey ns path) = Some c /\
    view (ts_db s') !! (bucketMeta, configKey ns path) = None /\ rev = cur_rev v + 1 /\
    forall r, rev <= r < two63 -> newest_at (view (ts_db s')) ns path r (m_Revision m) c.
Proof.
  intros v Hinv Hmax Hn Hp Hd.
  apply deleteConfigTx_Ok in Hd as (m & _ & Hm & _ & Er & [d t Hd Hv Hdom]).
  fold v in Hm, Hv, Er. rewrite next_rev in Er by done. subst rev.
  destruct (existing_meta v ns path m Hinv (proj1 Hn) (proj1 Hp) Hm)
    as [_ (c & Hc & _ & Hh & Hlast & Hb1 & Hb2 & _)].
  assert (Hhist : forall k, view (ts_db s') !! (bucketHistory, k) = v !! (bucketHistory, k)).
  { intros k. by rewrite Hv, remove_other, set_rev_other. }
  exists m, c. do 2 (split; [done|]). split; [|split; [done|]].
  { by rewrite Hv, remove_meta, decide_True. }
  intros r Hr. unfold newest_at. rewrite Hhist. split; [lia|]. split; [done|].
  intros r1 Hr1. rewrite Hhist. apply eq_None_not_Some. intros Hs.
  destruct (inv_hist _ Hinv _ Hs) as (n1 & p1 & r2 & e & ? & ? & Ek & Hr2 & _).
  pose proof (inv_rev _ Hinv).
  apply historyKey_inj in Ek as (-> & -> & ->);
    [|apply Hn|done|apply Hp|done|unfold in_int64, two63 in *; lia..].
  specialize (Hlast r2 Hr2 Hs). lia.
Qed.
End deleted.

(** A deletion is not part of the history.  After a Delete that succeeds at
    revision [rev], the key is gone, and yet GetKVAtRevision at [rev] or any
    later revision still returns the content the deletion removed: the history
    bucket has no row for a deletion. *)
Theorem deleted_value_still_read `{BoltSpec} `{Disk} `{CodecsSpec} `{ClockSpec} ctx ns path rev w w' :
  let v := view (w_db w) in
  ctx_tx ctx = None -> idle w -> store_inv v -> cur_rev v + 1 < two63 -> name_ok ns -> name_ok path ->
  Repository.Delete ctx path ns w = (Ok rev, w') -> begin_fault (length (w_txs w')) = None ->
  exists c, v !! (bucketContent, configKey ns path) = Some c /\
    view (w_db w') !! (bucketMeta, configKey ns path) = None /\
    forall r, rev <= r < two63 ->
      exists w'', Repository.GetKVAtRevision ctx ns path r w' = (Ok (Some c), w'').
Proof.
  intros v Hc Hi Hinv Hmax Hn Hp Hr Hb. apply write_top_Ok in Hr as (_ & s & Hs & ->); [|done..].
  assert (Hinv' : store_inv (view (ts_db s))) by (eapply inv_delete in Hs as [? _]; done).
  pose proof (inv_rev _ Hinv) as Hcur.
  apply newest_after_delete in Hs as (m & c & _ & Hcc & Hgone & Er & Hnew); [|done..].
  exists c. do 2 (split; [done|]). intros r Hr. cbn [w_db ended] in *.
  pose proof (seek_history (ts_db s) ns path r Hinv' (proj1 Hn) (proj1 Hp)) as Hseek.
  eexists. apply read_top_Ok; [done|done|]. eexists. split; [|done].
  rewrite lookupHistory_eval. cbn [ts_db w_db ended]. destruct (Hnew r Hr) as (Hr0 & Hrow & Hno).
  cbn [ts_db] in *. simpl in Er.
  destruct (cur_kv _) as [[k c']|]; [|by rewrite Hseek in Hrow by lia].
  destruct (has_prefix k _); [|by rewrite Hseek in Hrow by lia]. simpl.
  destruct Hseek as (r1 & -> & Hr1 & Hrow1 & Hno1); [lia|].
  destruct (Z.lt_trichotomy r1 (m_Revision m)) as [Hlt|[->|Hgt]].
  - by rewrite Hno1 in Hrow by lia.
  - rewrite Hrow in Hrow1. injection Hrow1 as ->. reflexivity.
  - by rewrite Hno in Hrow1 by lia.
Qed.

Lemma deleted_value_still_read_witness :
  let del := Repository.Delete ctx_background (str "/a") (str "prod") world_ab in
  exists w'', Repository.GetKVAtRevision ctx_background (str "prod") (str "/a") 3 del.2 =
    (Ok (Some (str "1")), w'').
Proof.
  intros del.
  destruct (deleted_value_still_read ctx_background (str "prod") (str "/a") 3 world_ab del.2)
    as (c & Hcc & _ & Hget);
    [done|by_decide|apply reachable_store_inv, world_ab_reachable|by vm_compute|by_decide|by_decide
    |apply run_eq; by vm_compute|done|].
  destruct (Hget 3) as [w'' Hw]; [split; by vm_compute|]. exists w''.
  replace (str "1") with c; [exact Hw|]. eapply (inj Some). rewrite <- Hcc. by vm_compute.
Defined.

(** ** The changelog *)

(** A loop that stops once it has [limit] results returns a prefix. *)
Lemma forM_limited `{Bolt} {X Y} (g : X -> error + Y) (limit : Z)
    (body : X -> list Y -> TxM (flow (list Y))) l ys acc q s :
  (forall x a, body x a q s =
     if negb (Z.of_nat (length a) <? limit) then (Ok (Break a), s)
     else (match g x with inl e => Err e | inr y => Ok (Continue (a ++ [y])) end, s)) ->
  Forall2 (fun x y => g x = inr y) l ys ->
  forM l body acc q s = (Ok (acc ++ take (Z.to_nat (limit - Z.of_nat (length acc))) ys), s).
Proof.
  intros Hb Hl. revert acc. induction Hl as [|x y l ys Hx _ IH]; intros acc; simpl.
  { by rewrite take_nil, app_nil_r. }
  unfold mbind, TxM_bind. rewrite Hb, Hx.
  destruct (Z.ltb_spec (Z.of_nat (length acc)) limit) as [Hlt|Hge]; simpl.
  - rewrite IH, length_app, <- app_assoc. simpl.
    replace (Z.to_nat (limit - Z.of_nat (length acc)))
      with (S (Z.to_nat (limit - Z.of_nat (length acc + 1)))) by lia. done.
  - replace (Z.to_nat (limit - Z.of_nat (length acc))) with O by lia. by rewrite take_0, app_nil_r.
Qed.

Lemma sorted_unique (l l' : list bytes) :
  StronglySorted blt l -> StronglySorted blt l' -> (forall k, k ∈ l <-> k ∈ l') -> l = l'.
Proof.
  intros Hs Hs' Hel.
  assert (Hnd : forall l, StronglySorted blt l -> NoDup l).
  { induction 1 as [|x l0 _ IH Hx]; constructor; [|done].
    intros Hin. rewrite Forall_forall in Hx. by apply Hx, blt_irrefl in Hin. }
  apply (StronglySorted_unique_strong blt); [|done|done|].
  - intros x y _ _ H1 H2. exfalso. by eapply blt_irrefl, blt_trans.
  - apply NoDup_Permutation; auto.
Qed.

Lemma seqZ_revisions_sorted a n :
  0 <= a -> a + n <= two63 -> StronglySorted blt (revisionBytes <$> seqZ a n).
Proof.
  intros Ha Hn. destruct (Z.le_gt_cases n 0) as [Hle|Hgt]; [by rewrite seqZ_nil by lia; constructor|].
  remember (Z.to_nat n) as k eqn:Ek. revert a n Ha Hn Hgt Ek.
  induction k as [|k IH]; intros a n Ha Hn Hgt Ek; [lia|].
  rewrite seqZ_cons by lia. rewrite fmap_cons. constructor.
  - destruct (Z.le_gt_cases (Z.pred n) 0); [by rewrite seqZ_nil by lia; constructor|]. apply IH; lia.
  - apply Forall_forall. intros x (r & -> & Hr)%list_elem_of_fmap. apply elem_of_seqZ in Hr.
    apply revisionBytes_lt; unfold two63 in *; lia.
Qed.

Section changelog.
Context `{BoltSpec} `{Disk} `{CodecsSpec}.
Implicit Types (v : View) (s : TS).

(** The changelog rows from a revision on, in order. *)
Lemma changelog_rows db a :
  let v := view db in
  store_inv v -> 1 <= a < two63 ->
  (filter (fun kv => ~ blt kv.1 (revisionBytes a)) (db_pairs db bucketChangelog)).*1 =
  revisionBytes <$> seqZ a (cur_rev v + 1 - a).
Proof.
  intros v Hinv Ha. pose proof (inv_rev _ Hinv) as Hcur. apply sorted_unique.
  - apply sorted_filter, db_pairs_sorted.
  - destruct (Z.le_gt_cases (cur_rev v + 1 - a) 0); [by rewrite seqZ_nil by lia; constructor|].
    apply seqZ_revisions_sorted; lia.
  - intros k. rewrite !list_elem_of_fmap. split.
    + intros ([k' d] & -> & Hk). apply list_elem_of_filter in Hk as [Hge Hk]. simpl in *.
      apply elem_of_db_pairs in Hk. destruct (proj1 (inv_log _ Hinv k')) as (r & Hr & ->); [by eexists|].
      exists r. split; [done|]. apply elem_of_seqZ. rewrite revisionBytes_lt in Hge by lia. lia.
    + intros (r & -> & Hr). apply elem_of_seqZ in Hr.
      destruct (proj2 (inv_log _ Hinv (revisionBytes r))) as [d Hd]; [exists r; split; [lia|done]|].
      exists (revisionBytes r, d). split; [done|]. apply list_elem_of_filter.
      split; [simpl; rewrite revisionBytes_lt by lia; lia|]. by apply elem_of_db_pairs.
Qed.

(** What listChangesTx makes of one row. *)
Definition change_of_row (kv : bytes * bytes) : error + ChangelogEntry :=
  match bbolt.JSONCodec_Unmarshal (T:=StoredChange) kv.2 with
  | inl e => inl (EWrap "unmarshal changelog entry: %w" [] e)
  | inr e => inr (ChangelogEntryToDomain e (parseRevision kv.1))
  end.

(** The entry of one revision. *)
Definition change_at (v : View) (r : Z) (e : ChangelogEntry) : Prop :=
  exists row, change_row v r = Some row /\ e = ChangelogEntryToDomain row r.

Lemma listChanges_rows db a rows :
  let v := view db in
  store_inv v -> 1 <= a -> rows.*1 = revisionBytes <$> seqZ a (cur_rev v + 1 - a) ->
  (forall kv, kv ∈ rows -> v !! (bucketChangelog, kv.1) = Some kv.2) ->
  exists es, Forall2 (fun kv e => change_of_row kv = inr e) rows es /\
             Forall2 (change_at v) (seqZ a (cur_rev v + 1 - a)) es.
Proof.
  intros v Hinv Ha Hk Hin. pose proof (inv_rev _ Hinv) as Hcur.
  assert (Hall : Forall (fun r => 1 <= r <= cur_rev v) (seqZ a (cur_rev v + 1 - a))).
  { apply Forall_forall. intros r Hr%elem_of_seqZ. lia. }
  revert rows Hk Hin Hall. generalize (seqZ a (cur_rev v + 1 - a)). clear a Ha.
  induction l as [|r l IH]; intros [|kv rows] Hk Hin Hall; try done.
  { exists []. by split; constructor. }
  rewrite !fmap_cons in Hk. injection Hk as Hk1 Hk2. inversion_clear Hall as [|? ? Hr Hall'].
  destruct (IH rows) as (es & He1 & He2); [done|set_solver|done|].
  destruct (inv_change _ Hinv r Hr) as (row & Hrow & _).
  exists (ChangelogEntryToDomain row r :: es). split; (constructor; [|done]); [|by exists row].
  pose proof (Hin kv) as Hv. rewrite Hk1 in Hv. unfold change_row in Hrow.
  rewrite Hv in Hrow by set_solver. simpl in Hrow. unfold change_of_row, bbolt.JSONCodec_Unmarshal.
  destruct (json_Unmarshal kv.2); [done|]. injection Hrow as ->.
  rewrite Hk1, parseRevision_bytes by (unfold in_int64, two63 in *; lia). done.
Qed.

Lemma listChangesTx_eval since limit w s :
  let v := view (ts_db s) in
  store_inv v -> 0 <= since -> since + 1 < two63 ->
  exists es, listChangesTx since limit (QTx w) s = (Ok (take (Z.to_nat limit) es), s) /\
             Forall2 (change_at v) (seqZ (since + 1) (cur_rev v - since)) es.
Proof.
  intros v Hinv H0' Hs. unfold listChangesTx. rewrite int64_id by (unfold in_int64, two63 in *; lia).
  set (rows := filter (fun kv => ~ blt kv.1 (revisionBytes (since + 1))) (db_pairs (ts_db s) bucketChangelog)).
  destruct (listChanges_rows (ts_db s) (since + 1) rows) as (es & He1 & He2); [done|lia| |..].
  - apply changelog_rows; [done|lia].
  - intros [k d] [_ Hin]%list_elem_of_filter. by apply elem_of_db_pairs.
  - exists es. fold v in He2. replace (cur_rev v + 1 - (since + 1)) with (cur_rev v - since) in He2 by lia.
    split; [|done]. rewrite (bind_eval _ _ _ _ _ _ (bucket_Cursor_eval _ w s)).
    rewrite cursor_Seek_sorted by apply db_pairs_sorted. cbn [cur_after]. fold rows.
    rewrite (forM_limited change_of_row limit _ rows es).
    + simpl. by rewrite Z.sub_0_r.
    + intros kv a. case_match; [done|]. unfold change_of_row. by destruct (bbolt.JSONCodec_Unmarshal kv.2).
    + done.
Qed.
End changelog.

(** C16: the changelog is read without gaps.  In a store that satisfies the
    invariant, ListChanges since a revision succeeds and returns, in order, one
    entry for each of the next revisions up to the limit or the counter, each
    with the contents of its row. *)
Theorem list_changes_complete `{BoltSpec} `{Disk} `{CodecsSpec} ctx since limit w :
  let v := view (w_db w) in
  ctx_tx ctx = None -> begin_fault (length (w_txs w)) = None -> store_inv v ->
  0 <= since -> since + 1 < two63 -> 0 <= limit ->
  exists es w', Repository.ListChanges ctx since limit w = (Ok es, w') /\
    Forall2 (change_at v) (seqZ (since + 1) (Z.min limit (cur_rev v - since))) es.
Proof.
  intros v Hc Hb Hinv Hs0 Hs Hlim.
  destruct (listChangesTx_eval since limit false (mkTS (w_db w) (w_tick w))) as (es & He & Hf); [done..|].
  eexists (take (Z.to_nat limit) es), _. split.
  - apply read_top_Ok; [done|done|]. eexists. split; [exact He|reflexivity].
  - apply (Forall2_take _ _ _ (Z.to_nat limit)) in Hf. fold v in Hf.
    replace (seqZ (since + 1) (Z.min limit (cur_rev v - since)))
      with (take (Z.to_nat limit) (seqZ (since + 1) (cur_rev v - since))); [done|].
    apply list_eq. intros i. destruct (decide (i < Z.to_nat limit)%nat) as [Hi|Hi].
    + rewrite lookup_take_lt by done. destruct (decide (Z.of_nat i < cur_rev v - since)).
      * rewrite !lookup_seqZ_lt by lia. done.
      * rewrite !lookup_seqZ_ge by lia. done.
    + rewrite lookup_take_ge, lookup_seqZ_ge by lia. done.
Qed.

Lemma list_changes_complete_witness :
  exists es w', Repository.ListChanges ctx_background 1 10 world_ab = (Ok es, w') /\
    Forall2 (change_at (view (w_db world_ab))) [2] es.
Proof.
  destruct (list_changes_complete ctx_background 1 10 world_ab) as (es & w' & Hl & Hf);
    [done|done|apply reachable_store_inv, world_ab_reachable|lia|by vm_compute|lia|].
  exists es, w'. split; [exact Hl|].
  replace [2] with (seqZ (1 + 1) (Z.min 10 (cur_rev (view (w_db world_ab)) - 1))); [exact Hf|].
  by vm_compute.
Defined.
