(* ===== verification/ListSpec.v ===== *)
(** * Listings, pages and ranges

    Prefix scans compared with filters of the stored rows: bbolt.Scan, the
    paginated listings of the config repository (a page is a slice of the whole
    listing, whatever the namespace-lock cache holds) and RangeQuery. *)

From S2P Require Import Prelude.
From S2P Require Import Bolt.
From S2P Require Import Keys.
From S2P Require Import Domain.
From S2P Require Import Concrete.
From S2P Require Import Manager.
From S2P Require Import ConfigRepo.
From S2P Require Import ConfigReads.
From S2P Require Import EtcdRepo.
From S2P Require Import Repository.
From S2P Require Import Effects.
From S2P Require Import Store.
From S2P Require Import WriteSpec.
From S2P Require Import ReadSpec.
From stdpp Require Import base list gmap strings sorting.
From Stdlib Require Import Ascii ZArith Lia.
Open Scope Z_scope.

(** ** Loops *)

Section loops.
Context `{Bolt} {A X : Type}.
Implicit Types (body : X -> A -> TxM (flow A)).

(** A loop that breaks at the first element that fails a test. *)
Lemma forM_take_while (P : X -> bool) body body' l acc q s :
  (forall x a s, P x = true -> body x a q s = body' x a q s) ->
  (forall x a s, P x = false -> body x a q s = (Ok (Break a), s)) ->
  forM l body acc q s = forM (take_while P l) body' acc q s.
Proof.
  intros HT HF. revert acc s. induction l as [|x l IH]; intros acc s; simpl; [done|].
  destruct (P x) eqn:E; simpl; unfold mbind, TxM_bind.
  - rewrite (HT x acc s E). by destruct (body' x acc q s) as [[[a|a]|e|c] s'].
  - by rewrite (HF x acc s E).
Qed.

(** A loop that skips the elements that fail a test. *)
Lemma forM_filter (P : X -> bool) body body' l acc q s :
  (forall x a s, P x = true -> body x a q s = body' x a q s) ->
  (forall x a s, P x = false -> body x a q s = (Ok (Continue a), s)) ->
  forM l body acc q s = forM (filter (fun x => P x) l) body' acc q s.
Proof.
  intros HT HF. revert acc s. induction l as [|x l IH]; intros acc s; [done|].
  destruct (P x) eqn:E.
  - rewrite filter_cons_True by by rewrite E. simpl. unfold mbind, TxM_bind.
    rewrite (HT x acc s E). by destruct (body' x acc q s) as [[[a|a]|e|c] s'].
  - rewrite filter_cons_False by (rewrite E; intros []). simpl. unfold mbind, TxM_bind. by rewrite (HF x acc s E).
Qed.
End loops.

(** ** bbolt.Scan *)

(** What Scan makes of one pair. *)
Definition scan_item {T} `{JSON T} (kv : bytes * bytes) : error + T :=
  match bbolt.JSONCodec_Unmarshal kv.2 with
  | inl e => inl (EWrap "decode %q: %w" [FStr kv.1] e)
  | inr item => inr item
  end.

Lemma Scan_eval `{BoltSpec} {T} `{JSON T} bkt prefix w s :
  bbolt.Scan (T:=T) bkt prefix (QTx w) s =
  (collect scan_item
     (filter (fun kv => has_prefix kv.1 prefix) (db_pairs (ts_db s) bkt)), s).
Proof.
  unfold bbolt.Scan. rewrite (bind_eval _ _ _ _ _ _ (bucket_Cursor_eval _ w s)).
  rewrite cursor_Seek_sorted by apply db_pairs_sorted. cbn [cur_after].
  rewrite <- seek_prefix_filter by apply db_pairs_sorted.
  rewrite (forM_collect_while (fun kv => has_prefix kv.1 prefix) scan_item).
  - by destruct (collect _ _).
  - intros [k d] a Hp. rewrite hasPrefix_has_prefix. unfold scan_item. simpl in *. rewrite Hp.
    by destruct (bbolt.JSONCodec_Unmarshal d).
  - intros [k d] a Hp. rewrite hasPrefix_has_prefix. simpl in *. by rewrite Hp.
Qed.

(** Bbolt.Scan is exact.  Inside a transaction, Scan returns the decoded
    values of exactly the pairs whose key has the prefix, in key order; it
    leaves the store alone, and fails only when one of those values does not
    decode.  The hand-written prefix test is the prefix relation on bytes. *)
Theorem scan_prefix_exact `{BoltSpec} {T} `{JSON T} bkt prefix w s r s' :
  bbolt.Scan (T:=T) bkt prefix (QTx w) s = (r, s') ->
  let rows := filter (fun kv => has_prefix kv.1 prefix) (db_pairs (ts_db s) bkt) in
  s' = s /\
  (forall k d, (k, d) ∈ rows <->
     view (ts_db s) !! (bkt, k) = Some d /\ exists t, k = prefix ++ t) /\
  StronglySorted blt rows.*1 /\
  (forall items, r = Ok items <-> Forall2 (fun kv item => json_Unmarshal kv.2 = inr item) rows items).
Proof.
  rewrite Scan_eval. intros [= <- <-]. split; [done|]. split; [|split].
  - intros k d. rewrite list_elem_of_filter, elem_of_db_pairs, <- has_prefix_spec. simpl.
    rewrite Is_true_true. naive_solver.
  - apply sorted_filter, db_pairs_sorted.
  - intros items. rewrite collect_Ok. unfold scan_item, bbolt.JSONCodec_Unmarshal.
    split; intros Hf; eapply Forall2_impl; try exact Hf; intros [k d] item; simpl;
      by destruct (json_Unmarshal d).
Qed.

Definition state_ab : TS := mkTS (w_db world_ab) 0.

Lemma scan_prefix_exact_witness :
  exists items, bbolt.Scan (T:=ConfigMeta) bucketMeta (configKey (str "prod") []) (QTx false)
    state_ab = (Ok items, state_ab) /\
    Forall2 (fun kv item => json_Unmarshal kv.2 = inr item)
      (filter (fun kv => has_prefix kv.1 (configKey (str "prod") [])) (db_pairs (ts_db state_ab) bucketMeta))
      items.
Proof.
  destruct (bbolt.Scan (T:=ConfigMeta) bucketMeta (configKey (str "prod") []) (QTx false)
    state_ab) as [r s'] eqn:E.
  assert (Hr : exists items, r = Ok items).
  { apply (f_equal fst) in E. vm_compute in E. subst r. by eexists. }
  destruct Hr as [items ->]. exists items.
  destruct (scan_prefix_exact bucketMeta (configKey (str "prod") []) false _ _ _ E) as (-> & _ & _ & Hit).
  split; [reflexivity|]. exact (proj1 (Hit items) eq_refl).
Defined.

(** ** scanMeta *)

(** The keys a scan of (namespace, path prefix) covers. *)
Definition scan_match (namespace pathPrefix k : bytes) : bool :=
  match configKeyPrefix namespace pathPrefix with
  | Some p => has_prefix k p
  | None => negb (shouldSkipByPath k namespace pathPrefix)
  end.

Definition scan_rows `{Bolt} (db : DB) (namespace pathPrefix : bytes) : list (bytes * bytes) :=
  filter (fun kv => scan_match namespace pathPrefix kv.1) (db_pairs db bucketMeta).

Section scan.
Context `{BoltSpec} `{Codecs}.
Implicit Types (s : TS).

(** The loop body of scanMeta once the key is known to match. *)
Definition scan_body {A} (fn : bytes -> ConfigMeta -> A -> TxM A) (kv : bytes * bytes) (acc : A) :
    TxM (flow A) :=
  match bbolt.JSONCodec_Unmarshal (T:=ConfigMeta) kv.2 with
  | inl e => txfail (EWrap "unmarshal meta for key %s: %w" [FStr kv.1] e)
  | inr m => a ← fn kv.1 m acc; mret (Continue a)
  end.

Lemma configKeyPrefix_skip ns pp p k :
  configKeyPrefix ns pp = Some p -> shouldSkipByPath k ns pp = false.
Proof.
  unfold configKeyPrefix, shouldSkipByPath. case_bool_decide as E; [done|]. intros _.
  by rewrite bool_decide_true by auto.
Qed.

(** scanMeta visits exactly the matching rows, in key order. *)
Lemma scanMeta_eval {A} ns pp (fn : bytes -> ConfigMeta -> A -> TxM A) acc w s :
  scanMeta ns pp fn acc (QTx w) s = forM (scan_rows (ts_db s) ns pp) (scan_body fn) acc (QTx w) s.
Proof.
  unfold scanMeta, scan_rows, scan_match.
  rewrite (bind_eval _ _ _ _ _ _ (bucket_Cursor_eval _ w s)).
  destruct (configKeyPrefix ns pp) as [p|] eqn:Ep.
  - rewrite cursor_Seek_sorted by apply db_pairs_sorted. cbn [cur_after].
    rewrite <- seek_prefix_filter by apply db_pairs_sorted.
    apply forM_take_while; intros kv a s' Hp; rewrite Hp; [|done].
    cbn [negb]. by rewrite (configKeyPrefix_skip _ _ _ _ Ep).
  - unfold cursor_First, cur_all. cbn [cur_after cur_before rev app].
    apply forM_filter; intros kv a s' Hp.
    + apply negb_true_iff in Hp. by rewrite Hp.
    + apply negb_false_iff in Hp. by rewrite Hp.
Qed.
End scan.

(** ** Listings and pages *)

(** A cache that agrees with the stored namespace records. *)
Definition cache_ok `{Codecs} (v : View) (c : gmap bytes bool) : Prop :=
  forall n b, c !! n = Some b -> ns_lock v n = Some b.

Section pages.
Context `{BoltSpec} `{Disk} `{Codecs}.
Context {X : Type} (build : bytes -> ConfigMeta -> gmap bytes bool -> TxM (X * gmap bytes bool)).
(** The value [build] makes of a row. *)
Context (row_val : View -> bytes -> ConfigMeta -> bool -> X).
Implicit Types (s : TS).

(** [build] reads the namespace lock through the cache and nothing else of it. *)
Definition build_spec : Prop := forall key m c q s, cache_ok (view (ts_db s)) c ->
  match ns_lock (view (ts_db s)) (parseConfigKey key).1 with
  | Some b => exists c', build key m c q s = (Ok (row_val (view (ts_db s)) key m b, c'), s) /\
                         cache_ok (view (ts_db s)) c'
  | None => forall x s', build key m c q s <> (Ok x, s')
  end.

Context (Hbuild : build_spec).

(** What a row of the listing is. *)
Definition listed (v : View) (kv : bytes * bytes) (x : X) : Prop :=
  exists m b, json_Unmarshal kv.2 = inr m /\ ns_lock v (parseConfigKey kv.1).1 = Some b /\
              x = row_val v kv.1 m b.

Definition list_step (key : bytes) (m : ConfigMeta) (st : list X * gmap bytes bool) :
    TxM (list X * gmap bytes bool) :=
  let '(xs, cache) := st in '(x, cache) ← build key m cache; mret (xs ++ [x], cache).

Lemma list_step_Ok k d acc c q s f s1 :
  cache_ok (view (ts_db s)) c ->
  scan_body list_step (k, d) (acc, c) q s = (Ok f, s1) ->
  exists x c', listed (view (ts_db s)) (k, d) x /\ cache_ok (view (ts_db s)) c' /\
               f = Continue (acc ++ [x], c') /\ s1 = s.
Proof.
  intros Hc. unfold scan_body, bbolt.JSONCodec_Unmarshal, list_step. cbn [fst snd].
  destruct (json_Unmarshal d) as [e|m] eqn:Ed; [done|]. intros Hr.
  rewrite bind_Ok in Hr. destruct Hr as (p1 & s2 & Hx & Hr). apply ret_Ok in Hr as [-> ->].
  rewrite bind_Ok in Hx. destruct Hx as ([x c'] & s3 & Hx & Hr). apply ret_Ok in Hr as [-> ->].
  pose proof (Hbuild k m c q s Hc) as Hb.
  destruct (ns_lock (view (ts_db s)) (parseConfigKey k).1) as [b|] eqn:El; [|by destruct (Hb (x, c') s3)].
  destruct Hb as (c1 & Hb & Hc1). rewrite Hb in Hx. injection Hx as <- <- <-.
  eexists _, c1. split; [by exists m, b|done].
Qed.

Lemma list_loop rows acc c q s out c' s' :
  cache_ok (view (ts_db s)) c ->
  forM rows (scan_body list_step) (acc, c) q s = (Ok (out, c'), s') ->
  s' = s /\ exists xs, Forall2 (listed (view (ts_db s))) rows xs /\ out = acc ++ xs.
Proof.
  revert acc c. induction rows as [|[k d] rows IH]; intros acc c Hc; simpl.
  { intros [= -> -> ->]. split; [done|]. exists []. by rewrite app_nil_r. }
  rewrite bind_Ok. intros (f & s1 & Hf & Hr).
  apply list_step_Ok in Hf as (x & c1 & Hx & Hc1 & -> & ->); [|done].
  apply IH in Hr as (-> & xs & Hxs & ->); [|done]. split; [done|].
  exists (x :: xs). rewrite <- app_assoc. by split; [constructor|].
Qed.

Lemma page_step_eval limit offset kv x page c idx q s :
  cache_ok (view (ts_db s)) c -> listed (view (ts_db s)) kv x ->
  exists c', cache_ok (view (ts_db s)) c' /\
    scan_body (pageStep build limit offset) kv (page, c, idx) q s =
    (Ok (Continue (if (offset <=? idx) && (Z.of_nat (length page) <? limit) then page ++ [x] else page,
                   c', idx + 1)), s).
Proof.
  intros Hc (m & b & Hm & Hl & ->). unfold scan_body, bbolt.JSONCodec_Unmarshal, pageStep. rewrite Hm.
  destruct ((offset <=? idx) && (Z.of_nat (length page) <? limit)); [|by exists c].
  pose proof (Hbuild kv.1 m c q s Hc) as Hb. rewrite Hl in Hb. destruct Hb as (c1 & Hb & Hc1).
  exists c1. split; [done|]. unfold mbind, TxM_bind. by rewrite Hb.
Qed.

Lemma page_loop limit offset rows xs page c idx q s :
  cache_ok (view (ts_db s)) c -> Forall2 (listed (view (ts_db s))) rows xs ->
  0 <= limit -> (idx < offset -> page = []) ->
  exists c', forM rows (scan_body (pageStep build limit offset)) (page, c, idx) q s =
    (Ok (page ++ take (Z.to_nat limit - length page) (drop (Z.to_nat (offset - idx)) xs), c',
         idx + Z.of_nat (length xs)), s).
Proof.
  intros Hc Hxs Hlim. revert page c idx Hc.
  induction Hxs as [|kv x rows xs Hx _ IH]; intros page c idx Hc Hpage.
  { exists c. simpl. by rewrite drop_nil, take_nil, app_nil_r, Z.add_0_r. }
  destruct (page_step_eval limit offset kv x page c idx q s Hc Hx) as (c1 & Hc1 & Hb).
  simpl forM. rewrite (bind_eval _ _ _ _ _ _ Hb). cbv beta iota.
  destruct (Z.leb_spec offset idx) as [Hof|Hof]; cbn [andb].
  - replace (Z.to_nat (offset - idx)) with O by lia. rewrite drop_0.
    destruct (Z.ltb_spec (Z.of_nat (length page)) limit) as [Hlt|Hge].
    + destruct (IH (page ++ [x]) c1 (idx + 1)) as [c' ->]; [done|lia|].
      exists c'. replace (Z.to_nat (offset - (idx + 1))) with O by lia. rewrite drop_0, length_app.
      simpl. rewrite <- app_assoc. replace (Z.to_nat limit - length page)%nat
        with (S (Z.to_nat limit - (length page + 1))) by lia. simpl. do 3 f_equal. lia.
    + destruct (IH page c1 (idx + 1)) as [c' ->]; [done|lia|]. exists c'.
      replace (Z.to_nat limit - length page)%nat with O by lia. rewrite !take_0. simpl length.
      do 3 f_equal. lia.
  - destruct (IH page c1 (idx + 1)) as [c' ->]; [done|intros; apply Hpage; lia|]. exists c'.
    replace (Z.to_nat (offset - idx)) with (S (Z.to_nat (offset - (idx + 1)))) by lia.
    simpl. do 3 f_equal. lia.
Qed.

(** A page is a slice of the listing. *)
Lemma page_of_list ns pp limit offset w s all c s' :
  0 <= limit -> 0 <= offset ->
  scanMeta ns pp list_step ([], ∅) (QTx w) s = (Ok (all, c), s') ->
  exists c', scanMeta ns pp (pageStep build limit offset) ([], ∅, 0) (QTx w) s =
    (Ok (take (Z.to_nat limit) (drop (Z.to_nat offset) all), c', Z.of_nat (length all)), s).
Proof.
  intros Hlim Hoff. rewrite !scanMeta_eval. intros Hr.
  apply list_loop in Hr as (_ & xs & Hxs & ->); [|done].
  edestruct (page_loop limit offset (scan_rows (ts_db s) ns pp) xs [] ∅ 0 (QTx w) s) as [c' Hp]; [done|exact Hxs|done|done|].
  exists c'. rewrite Hp. simpl. by rewrite Nat.sub_0_r, Z.sub_0_r.
Qed.
End pages.

Section instances.
Context `{BoltSpec} `{Codecs}.

Definition config_row (v : View) (key : bytes) (m : ConfigMeta) (b : bool) : Config :=
  let '(ns, path) := parseConfigKey key in
  setNamespaceLocked b (ConfigMetaToDomain m (default [] (v !! (bucketContent, key))) path ns).

Definition summary_row (v : View) (key : bytes) (m : ConfigMeta) (b : bool) : ConfigSummary :=
  let '(ns, path) := parseConfigKey key in
  setSummaryNamespaceLocked b (ConfigMetaToSummary m path ns).

(** The cache answers as isNamespaceLocked does. *)
Lemma nsLockCache_get_spec c n q s :
  cache_ok (view (ts_db s)) c ->
  match ns_lock (view (ts_db s)) n with
  | Some b => exists c', nsLockCache_get c n q s = (Ok (b, c'), s) /\ cache_ok (view (ts_db s)) c'
  | None => forall x s', nsLockCache_get c n q s <> (Ok x, s')
  end.
Proof.
  intros Hc. unfold nsLockCache_get. destruct (c !! n) as [b|] eqn:E.
  - rewrite (Hc n b E). by exists c.
  - destruct (ns_lock (view (ts_db s)) n) as [b|] eqn:El.
    + exists (<[n := b]> c). split.
      * by rewrite (bind_eval _ _ _ _ b s) by by apply isNamespaceLocked_Ok.
      * intros n' b'. rewrite lookup_insert. case_decide; [|by apply Hc]. subst. by intros [= <-].
    + intros x s'. rewrite bind_Ok. intros (b & s1 & Hb & _). apply isNamespaceLocked_Ok in Hb as [Hb _].
      congruence.
Qed.

Lemma hydrate_spec : build_spec hydrate config_row.
Proof.
  intros key m c q s Hc. unfold hydrate, config_row. destruct (parseConfigKey key) as [ns path] eqn:E.
  cbn [fst]. pose proof (nsLockCache_get_spec c ns q s Hc) as Hg.
  rewrite (bind_eval _ _ _ _ _ _ (bucket_Get_eval _ _ q s)).
  destruct (ns_lock (view (ts_db s)) ns) as [b|].
  - destruct Hg as (c' & Hg & Hc'). exists c'. split; [|done]. by rewrite (bind_eval _ _ _ _ _ _ Hg).
  - intros x s'. rewrite bind_Ok. intros (y & s1 & Hy & _). by destruct (Hg y s1).
Qed.

Lemma summarize_spec : build_spec summarize summary_row.
Proof.
  intros key m c q s Hc. unfold summarize, summary_row. destruct (parseConfigKey key) as [ns path] eqn:E.
  cbn [fst]. pose proof (nsLockCache_get_spec c ns q s Hc) as Hg.
  destruct (ns_lock (view (ts_db s)) ns) as [b|].
  - destruct Hg as (c' & Hg & Hc'). exists c'. split; [|done]. by rewrite (bind_eval _ _ _ _ _ _ Hg).
  - intros x s'. rewrite bind_Ok. intros (y & s1 & Hy & _). by destruct (Hg y s1).
Qed.

Lemma listByPrefix_scan pp ns q s all s' :
  listByPrefixTx pp ns q s = (Ok all, s') ->
  exists c, scanMeta ns pp (list_step hydrate) ([], ∅) q s = (Ok (all, c), s').
Proof.
  unfold listByPrefixTx. rewrite bind_Ok. intros ([xs c] & s1 & Hx & Hr).
  apply ret_Ok in Hr as [-> ->]. by exists c.
Qed.

Lemma listSummaries_scan pp ns q s all s' :
  listSummariesByPrefixTx pp ns q s = (Ok all, s') ->
  exists c, scanMeta ns pp (list_step summarize) ([], ∅) q s = (Ok (all, c), s').
Proof.
  unfold listSummariesByPrefixTx. rewrite bind_Ok. intros ([xs c] & s1 & Hx & Hr).
  apply ret_Ok in Hr as [-> ->]. by exists c.
Qed.
End instances.

(** C18: a page is a slice of the listing.  Whenever ListByPrefix (or
    ListSummariesByPrefix) succeeds, ListConfigPage (ListSummaryPage) with the
    same prefix and namespace succeeds with the elements from [offset] to
    [offset + limit] of that listing, in the same order, and with the length of
    the whole listing as its total: skipping rows and caching namespace locks
    change nothing that is returned. *)
Theorem page_is_slice `{BoltSpec} `{Disk} `{Codecs} ctx pp ns limit offset w :
  ctx_tx ctx = None -> begin_fault (length (w_txs w)) = None -> 0 <= limit -> 0 <= offset ->
  (forall all w1, Repository.ListByPrefix ctx pp ns w = (Ok all, w1) ->
     exists w2, Repository.ListConfigPage ctx pp ns limit offset w =
       (Ok (take (Z.to_nat limit) (drop (Z.to_nat offset) all), Z.of_nat (length all)), w2)) /\
  (forall all w1, Repository.ListSummariesByPrefix ctx pp ns w = (Ok all, w1) ->
     exists w2, Repository.ListSummaryPage ctx pp ns limit offset w =
       (Ok (take (Z.to_nat limit) (drop (Z.to_nat offset) all), Z.of_nat (length all)), w2)).
Proof.
  intros Hc Hb Hlim Hoff. split; intros all w1 Hr; apply read_top_Ok in Hr as (s & Hs & _); try done;
    eexists; (apply read_top_Ok; [done|done|]); eexists; (split; [|reflexivity]).
  - apply listByPrefix_scan in Hs as [c Hs].
    edestruct (page_of_list _ _ hydrate_spec ns pp limit offset) as [c' Hp]; [done|done|exact Hs|].
    unfold listConfigPageTx. by rewrite (bind_eval _ _ _ _ _ _ Hp).
  - apply listSummaries_scan in Hs as [c Hs].
    edestruct (page_of_list _ _ summarize_spec ns pp limit offset) as [c' Hp]; [done|done|exact Hs|].
    unfold listSummaryPageTx. by rewrite (bind_eval _ _ _ _ _ _ Hp).
Qed.

Lemma page_is_slice_witness :
  exists all w1 w2, Repository.ListByPrefix ctx_background [] (str "prod") world_ab = (Ok all, w1) /\
    Repository.ListConfigPage ctx_background [] (str "prod") 1 1 world_ab =
      (Ok (take 1 (drop 1 all), Z.of_nat (length all)), w2).
Proof.
  destruct (Repository.ListByPrefix ctx_background [] (str "prod") world_ab) as [r w1] eqn:E.
  assert (Hr : exists all, r = Ok all).
  { apply (f_equal fst) in E. vm_compute in E. subst r. by eexists. }
  destruct Hr as [all ->]. exists all, w1.
  destruct (page_is_slice ctx_background [] (str "prod") 1 1 world_ab) as [Hp _]; [done|done|lia|lia|].
  destruct (Hp all w1 E) as [w2 Hw]. exists w2. split; [reflexivity|exact Hw].
Defined.

(** ** RangeQuery *)

Section range.
Context `{BoltSpec} `{Disk} `{CodecsSpec}.
Implicit Types (s : TS).

(** The pair RangeQuery returns for a row at the current revision. *)
Definition current_kv (v : View) (keysOnly : bool) (k : bytes) (m : ConfigMeta) : KVPair :=
  let '(ns, path) := parseConfigKey k in
  mkKVPair ns path (if keysOnly then None else Some (default [] (v !! (bucketContent, k))))
    (m_CreateRevision m) (m_Revision m) (m_Version m).

Definition current_row (v : View) (keysOnly : bool) (kv : bytes * bytes) (x : KVPair) : Prop :=
  exists m, json_Unmarshal kv.2 = inr m /\ x = current_kv v keysOnly kv.1 m.

Lemma readKVValue_current k ns path m revision keysOnly q s :
  revision <= 0 ->
  readKVValue k ns path m revision keysOnly q s =
  (Ok (Some (if keysOnly then None else Some (default [] (view (ts_db s) !! (bucketContent, k))),
             m_Revision m)), s).
Proof.
  intros Hr. unfold readKVValue. destruct keysOnly; [done|].
  destruct (Z.ltb_spec 0 revision); [lia|]. simpl.
  by rewrite (bind_eval _ _ _ _ _ _ (bucket_Get_eval _ _ q s)).
Qed.

(** The loop over the rows from the start key on. *)
Lemma rangeLoop_current rp limit revision keysOnly l xs acc q s :
  revision <= 0 -> (0 < limit -> Z.of_nat (length acc) < limit) ->
  Forall2 (current_row (view (ts_db s)) keysOnly)
    (take_while (fun kv => negb (shouldBreakRange kv.1 rp)) l) xs ->
  exists more, rangeLoop rp limit revision keysOnly l acc q s =
    (Ok (acc ++ (if 0 <? limit then take (Z.to_nat limit - length acc) xs else xs), more), s) /\
    (more = true -> 0 < limit /\ limit <= Z.of_nat (length (acc ++ xs))) /\
    (more = false -> limit <= 0 \/ Z.of_nat (length (acc ++ xs)) <= limit).
Proof.
  intros Hrev. revert acc xs. induction l as [|[k d] l IH]; intros acc xs Hacc Hxs; simpl in Hxs.
  { apply Forall2_nil_inv_l in Hxs as ->. exists false. simpl. rewrite take_nil, app_nil_r.
    split; [by destruct (0 <? limit); rewrite app_nil_r|]. split; [done|]. intros _. lia. }
  simpl rangeLoop. destruct (shouldBreakRange k rp) eqn:Eb; simpl in Hxs.
  { apply Forall2_nil_inv_l in Hxs as ->. exists false. rewrite take_nil, app_nil_r.
    split; [by destruct (0 <? limit); rewrite app_nil_r|]. split; [done|]. intros _. lia. }
  apply Forall2_cons_inv_l in Hxs as (x & xs' & (m & Hm & ->) & Hxs & ->). simpl in Hm.
  unfold bbolt.JSONCodec_Unmarshal. rewrite Hm. unfold current_kv. simpl fst.
  destruct (parseConfigKey k) as [ns path].
  rewrite (bind_eval _ _ _ _ _ _ (readKVValue_current k ns path m revision keysOnly q s Hrev)).
  set (x := mkKVPair ns path _ _ _ _). cbv beta iota.
  rewrite length_app. change (length [x]) with 1%nat.
  assert (Hlen : length ((acc ++ [x]) ++ xs') = length (acc ++ x :: xs'))
    by (rewrite !length_app; simpl; lia).
  destruct (Z.ltb_spec 0 limit) as [Hl|Hl]; cbn [andb].
  - destruct (Z.leb_spec limit (Z.of_nat (length acc + 1))) as [Hge|Hlt].
    + assert (El : limit = Z.of_nat (length acc) + 1) by lia.
      replace (Z.to_nat limit - length acc)%nat with 1%nat by lia. simpl take. rewrite take_0.
      exists (match l with [] => false | _ => true end). split; [by destruct l|].
      rewrite length_app. simpl. split; [lia|]. destruct l; [|done]. intros _. simpl in Hxs.
      apply Forall2_nil_inv_l in Hxs as ->. simpl. lia.
    + destruct (IH (acc ++ [x]) xs') as (more & Hr & H1' & H2'); [rewrite length_app; simpl; lia|done|].
      rewrite Hlen in H1', H2'. exists more. rewrite Hr, <- app_assoc, length_app.
      replace (Z.to_nat limit - length acc)%nat with (S (Z.to_nat limit - (length acc + 1))) by lia.
      done.
  - destruct (IH (acc ++ [x]) xs') as (more & Hr & H1' & H2'); [lia|done|].
    exists more. rewrite Hr, <- app_assoc.
    split; [done|]. split; [intros Hm1; apply H1' in Hm1; lia|]. intros _. by left.
Qed.

Lemma rows_decode db keysOnly l :
  let v := view db in
  store_inv v -> (forall kv, kv ∈ l -> v !! (bucketMeta, kv.1) = Some kv.2) ->
  exists xs, Forall2 (current_row v keysOnly) l xs.
Proof.
  intros v Hinv. induction l as [|[k d] l IH]; intros Hl; [by exists []|].
  destruct IH as [xs Hxs]; [set_solver|].
  assert (Hd : v !! (bucketMeta, k) = Some d) by (apply (Hl (k, d)); set_solver).
  destruct (inv_row_decodes v k d Hinv Hd) as [m Hm]. unfold meta_row in Hm. rewrite Hd in Hm.
  simpl in Hm. exists (current_kv v keysOnly k m :: xs). constructor; [|done].
  exists m. split; [|done]. simpl. destruct (json_Unmarshal d); [done|]. by injection Hm as ->.
Qed.

Lemma rangeQueryTx_current sn sp en ep limit revision keysOnly w s :
  let v := view (ts_db s) in
  let rp := buildRangeParams sn sp en ep in
  store_inv v -> revision <= 0 ->
  exists xs more, Forall2 (current_row v keysOnly) (range_rows (ts_db s) rp) xs /\
    rangeQueryTx sn sp en ep limit revision keysOnly (QTx w) s =
      (Ok (if 0 <? limit then take (Z.to_nat limit) xs else xs, more), s) /\
    (more = true -> 0 < limit /\ limit <= Z.of_nat (length xs)) /\
    (more = false -> limit <= 0 \/ Z.of_nat (length xs) <= limit).
Proof.
  intros v rp Hinv Hrev. destruct (rows_decode (ts_db s) keysOnly (range_rows (ts_db s) rp)) as [xs Hxs];
    [done|intros [k d] [_ Hd]%range_rows_elem; done|]. fold v in Hxs. exists xs.
  unfold range_rows in Hxs. rewrite <- range_pairs in Hxs by apply db_pairs_sorted.
  edestruct (rangeLoop_current rp limit revision keysOnly
    (filter (fun kv => ~ blt kv.1 (startKey rp)) (db_pairs (ts_db s) bucketMeta)) xs [] (QTx w) s Hrev)
    as (more & Hr & H1' & H2');
    [simpl; lia|exact Hxs|].
  exists more. unfold range_rows. rewrite <- range_pairs by apply db_pairs_sorted. split; [done|].
  split; [|done]. unfold rangeQueryTx. fold rp.
  rewrite (bind_eval _ _ _ _ _ _ (bucket_Cursor_eval _ w s)).
  rewrite cursor_Seek_sorted by apply db_pairs_sorted. cbn [cur_after]. rewrite Hr. simpl.
  by rewrite Nat.sub_0_r.
Qed.
End range.

(** C17: RangeQuery returns the range.  At the current revision (revision 0), in a
    store that satisfies the invariant, RangeQuery succeeds with one pair per
    stored key of the range, in key order, with the content (none when
    keysOnly), creation revision, modification revision and version that are
    stored; a positive limit keeps the first ones.  It never truncates in
    silence: when it does not report more, nothing of the range is missing. *)
Theorem range_query_exact `{BoltSpec} `{Disk} `{CodecsSpec} ctx sn sp en ep limit keysOnly w :
  let v := view (w_db w) in
  let rp := buildRangeParams sn sp en ep in
  ctx_tx ctx = None -> begin_fault (length (w_txs w)) = None -> store_inv v ->
  exists all kvs more w', Repository.RangeQuery ctx sn sp en ep limit 0 keysOnly w = (Ok (kvs, more), w') /\
    Forall2 (current_row v keysOnly) (range_rows (w_db w) rp) all /\
    kvs = (if 0 <? limit then take (Z.to_nat limit) all else all) /\
    (more = true -> 0 < limit /\ Z.of_nat (length kvs) = limit) /\
    (more = false -> kvs = all).
Proof.
  intros v rp Hc Hb Hinv.
  destruct (rangeQueryTx_current sn sp en ep limit 0 keysOnly false (mkTS (w_db w) (w_tick w)) Hinv)
    as (xs & more & Hxs & Hr & Hm1 & Hm2); [lia|].
  eexists xs, _, more, _. split; [|split; [exact Hxs|split; [reflexivity|]]].
  - apply read_top_Ok; [done|done|]. eexists. split; [exact Hr|reflexivity].
  - destruct (Z.ltb_spec 0 limit); split; intros Hm.
    + apply Hm1 in Hm. rewrite length_take. lia.
    + apply Hm2 in Hm. apply take_ge. lia.
    + apply Hm1 in Hm. lia.
    + done.
Qed.

Lemma range_query_exact_witness :
  exists all kvs more w', Repository.RangeQuery ctx_background (str "prod") (str "/") (str "prod0") [] 1 0 false
      world_ab = (Ok (kvs, more), w') /\ kvs = take 1 all /\
    Forall2 (current_row (view (w_db world_ab)) false)
      (range_rows (w_db world_ab) (buildRangeParams (str "prod") (str "/") (str "prod0") [])) all.
Proof.
  destruct (range_query_exact ctx_background (str "prod") (str "/") (str "prod0") [] 1 false world_ab)
    as (all & kvs & more & w' & Hr & Hall & Hk & _);
    [done|done|apply reachable_store_inv, world_ab_reachable|].
  exists all, kvs, more, w'. split; [exact Hr|]. split; [exact Hk|exact Hall].
Defined.

(** RangeQuery may report more when there is none.  With a limit equal to the
    number of keys of the range it looks at the next stored key without asking
    whether that key is still in the range: here the range of one key is
    complete and "more" is set, because a later key exists. *)
Theorem range_more_outside :
  exists kvs w', Repository.RangeQuery ctx_background (str "prod") (str "/a") (str "prod") (str "/b") 1 0 false
    world_ab = (Ok (kvs, true), w') /\
  length kvs = length (range_rows (w_db world_ab)
    (buildRangeParams (str "prod") (str "/a") (str "prod") (str "/b"))).
Proof.
  eexists _, _. split; [apply run_eq; by vm_compute|by vm_compute].
Qed.
