(* ===== verification/EtcdKey.v ===== *)
(** * Wire keys and access checks of the etcd API

    internal/handler/etcdv3/keyencoding.go and access.go, with the two checks of
    kv_server.go that use them: how an etcd key [/{namespace}/{path}] becomes the
    pair the store is addressed with, and which claims may read or write it. *)

From S2P Require Import Prelude.
From S2P Require Import Keys.
From S2P Require Import Domain.
From S2P Require Import Manager.
From S2P Require Import EtcdRepo.
From stdpp Require Import base list gmap strings.
From Stdlib Require Import Ascii ZArith Lia.
Open Scope Z_scope.

Definition slash : ascii := "/"%char.

(** ** keyencoding.go *)

(** [None] is the Go result with [ok == false]. *)
Definition SplitKey (etcdKey : bytes) : option (bytes * bytes) :=
  match etcdKey with
  | [] => None
  | c :: rest =>
      if negb (bool_decide (c = slash)) then None
      else
        match index_byte rest slash with
        | None => if bool_decide (rest = []) then None else Some (rest, str "/")
        | Some idx =>
            let namespace := take idx rest in
            if bool_decide (namespace = []) then None else Some (namespace, drop idx rest)
        end
  end.

Definition JoinKey (namespace path : bytes) : bytes :=
  let path := if bool_decide (path = []) || negb (has_prefix path (str "/")) then str "/" ++ path
              else path in
  [slash] ++ namespace ++ path.

Record keyRange := mkKeyRange {
  r_startNS : bytes;
  r_startPath : bytes;
  r_endNS : bytes;
  r_endPath : bytes;
}.

Definition SplitRange (key rangeEnd : bytes) : option keyRange :=
  match SplitKey key with
  | None => None
  | Some (startNS, startPath) =>
      if bool_decide (rangeEnd = []) then Some (mkKeyRange startNS startPath [] [])
      else if bytes_eqb rangeEnd zeroString then Some (mkKeyRange startNS startPath zeroString [])
      else
        match SplitKey rangeEnd with
        | None => None
        | Some (eNS, ePath) => Some (mkKeyRange startNS startPath eNS ePath)
        end
  end.

(** ** access.go *)

Abbreviation Action := bytes (only parsing).
Definition ActionRead : Action := str "read".
Definition ActionWrite : Action := str "write".
Definition RoleWriter : bytes := str "writer".

(** [None] claims: authentication is disabled. *)
Definition namespaceAllowed (claims : option Claims) (namespace : bytes) (action : Action) : bool :=
  match claims with
  | None => true
  | Some claims =>
      let allowedNS :=
        existsb (fun ns => bytes_eqb ns namespace || bytes_eqb ns (str "*"))
                (claims_Namespaces claims) in
      if negb allowedNS then false
      else if bytes_eqb action ActionWrite && negb (bytes_eqb (claims_Role claims) RoleWriter)
      then false
      else true
  end.

Definition namespaceAllScoped (claims : option Claims) : bool :=
  match claims with
  | None => true
  | Some claims => existsb (fun ns => bytes_eqb ns (str "*")) (claims_Namespaces claims)
  end.

Definition permissionDenied (namespace : bytes) : error :=
  EStatus PermissionDenied "permission denied for namespace %q" [FStr namespace].

Definition checkWatchAccess (claims : option Claims) (scanAll : bool) (startNS endNS : bytes) :
    outcome unit :=
  if scanAll then
    if negb (namespaceAllScoped claims)
    then Err (EStatus PermissionDenied "scanAll watch requires an unrestricted token" [])
    else Ok tt
  else if negb (namespaceAllowed claims startNS ActionRead) then Err (permissionDenied startNS)
  else if negb (bool_decide (endNS = [])) && negb (bytes_eqb endNS startNS) then
    if negb (namespaceAllowed claims endNS ActionRead) then Err (permissionDenied endNS)
    else Ok tt
  else Ok tt.

(** ** The checks of KVServer *)

Definition checkAccess (ctx : Context_) (namespace : bytes) (action : Action) : outcome unit :=
  if negb (namespaceAllowed (ctx_claims ctx) namespace action)
  then Err (permissionDenied namespace)
  else Ok tt.

Definition checkRangeAccess (ctx : Context_) (startNS endNS : bytes) (action : Action) :
    outcome unit :=
  _ ← checkAccess ctx startNS action;
  if negb (bool_decide (endNS = [])) && negb (bytes_eqb endNS zeroString)
  then checkAccess ctx endNS action
  else Ok tt.

(** ** Facts: key encoding *)

(** What a namespace and a path must look like to survive the encoding. *)
Definition wire_ns (ns : bytes) : Prop := ns <> [] /\ slash ∉ ns.
Definition wire_path (path : bytes) : Prop := exists t, path = slash :: t.

#[global] Instance wire_ns_dec ns : Decision (wire_ns ns).
Proof. unfold wire_ns. apply _. Defined.

Lemma JoinKey_slash ns t : JoinKey ns (slash :: t) = slash :: ns ++ slash :: t.
Proof. reflexivity. Qed.

Lemma SplitKey_sep ns t : wire_ns ns -> SplitKey (slash :: ns ++ slash :: t) = Some (ns, slash :: t).
Proof.
  intros [Hne Hns]. unfold SplitKey. simpl.
  rewrite index_byte_app by done. rewrite take_app_length, drop_app_length.
  by rewrite bool_decide_false.
Qed.

(** What SplitKey returns, and what it was given. *)
Lemma SplitKey_Some key ns path :
  SplitKey key = Some (ns, path) ->
  wire_ns ns /\ wire_path path /\
  (key = slash :: ns ++ path \/ key = slash :: ns /\ path = str "/").
Proof.
  unfold SplitKey. destruct key as [|c rest]; [done|].
  case_bool_decide as Hc; [|done]. subst c. simpl.
  destruct (index_byte rest slash) as [idx|] eqn:E.
  - case_bool_decide as Hn; [done|]. intros [= <- <-].
    apply index_byte_Some in E as [E Hs].
    assert (drop idx rest = slash :: drop (S idx) rest) as Ed.
    { rewrite <- (take_drop idx rest) in E at 1. by apply app_inv_head in E. }
    split; [done|]. split; [by eexists|]. left. by rewrite take_drop.
  - apply index_byte_None in E. case_bool_decide; [done|]. intros [= <- <-].
    split; [done|]. split; [by eexists|]. by right.
Qed.

Lemma SplitKey_JoinKey ns path :
  wire_ns ns -> wire_path path -> SplitKey (JoinKey ns path) = Some (ns, path).
Proof. intros Hns [t ->]. rewrite JoinKey_slash. by apply SplitKey_sep. Qed.

(** Within one namespace, and between namespaces whose bytes are all above the
    slash, the order of wire keys is the order of bucket keys. *)
Lemma JoinKey_compare_same ns p q :
  wire_path p -> wire_path q ->
  bytes_compare (JoinKey ns p) (JoinKey ns q) = bytes_compare (configKey ns p) (configKey ns q).
Proof.
  intros [t ->] [u ->]. rewrite !JoinKey_slash. unfold configKey.
  rewrite !app_comm_cons, !bytes_compare_app. done.
Qed.

Definition above_slash (ns : bytes) : Prop := Forall (fun c => (N_of_ascii slash < N_of_ascii c)%N) ns.

Lemma sep_compare (c : ascii) p q : forall a b,
  Forall (fun x => (N_of_ascii c < N_of_ascii x)%N) a ->
  Forall (fun x => (N_of_ascii c < N_of_ascii x)%N) b ->
  bytes_compare (a ++ c :: p) (b ++ c :: q) =
  match bytes_compare a b with Eq => bytes_compare p q | r => r end.
Proof.
  induction a as [|x a IH]; intros [|y b] Ha Hb; simpl.
  - by rewrite N.compare_refl.
  - inversion_clear Hb as [|?? Hy]. apply N.compare_lt_iff in Hy. by rewrite Hy.
  - inversion_clear Ha as [|?? Hx]. rewrite N.compare_antisym.
    apply N.compare_lt_iff in Hx. by rewrite Hx.
  - inversion_clear Ha. inversion_clear Hb.
    destruct (N_of_ascii x ?= N_of_ascii y)%N; [|done..]. by apply IH.
Qed.

Lemma above_slash_above ns c :
  above_slash ns -> (N_of_ascii c <= N_of_ascii slash)%N ->
  Forall (fun x => (N_of_ascii c < N_of_ascii x)%N) ns.
Proof. intros H Hc. eapply Forall_impl; [done|]. intros x Hx. simpl in *. lia. Qed.

Lemma JoinKey_compare ns ns' p q :
  above_slash ns -> above_slash ns' -> wire_path p -> wire_path q ->
  bytes_compare (JoinKey ns p) (JoinKey ns' q) = bytes_compare (configKey ns p) (configKey ns' q).
Proof.
  intros H H' [t ->] [u ->]. rewrite !JoinKey_slash. simpl. unfold configKey. simpl.
  rewrite !sep_compare by by apply above_slash_above.
  destruct (bytes_compare ns ns'); simpl; by rewrite ?N.compare_refl.
Qed.
