(* ===== verification/ConfigKV.v ===== *)
(** * The key-value use case: usecase/config

    internal/usecase/config/kv_events.go, service_kv.go and service_txn.go: the
    buffered watch notifications, the reads and writes the etcd API is served
    from, and transactions with a guard and two branches.

    The Service's collaborators are its interfaces: the repository is the module
    Repository, the transaction manager is Manager.v, the schema validator is the
    class below.  The watcher is what it has received: [w_log]. *)

From S2P Require Import Prelude.
From S2P Require Import Bolt.
From S2P Require Import Domain.
From S2P Require Import Manager.
From S2P Require Import Repository.
From stdpp Require Import base list gmap strings.
From Stdlib Require Import Ascii ZArith Lia.
Open Scope Z_scope.

#[local] Set Warnings "-register-all".

(** The interface [schemaValidator] of service.go. *)
Class SchemaValidator `{Bolt} :=
  Validate : Context_ -> bytes -> bytes -> bytes -> bytes -> App unit.

(** ** Values: service_kv.go, service_txn.go *)

Record KVRangeOpts := mkKVRangeOpts {
  opts_Limit : Z;
  opts_Revision : Z;
  opts_KeysOnly : bool;
}.

(** The Go enumerations are integers that start at 1; the first constructor
    stands for the zero value and every other integer without a name. *)
Inductive KVCompareTarget :=
| KVCompareTarget_unknown
| KVCompareVersion
| KVCompareCreateRevision
| KVCompareModRevision
| KVCompareValue.

Inductive KVCompareResult :=
| KVCompareResult_unknown
| KVCompareEqual
| KVCompareNotEqual
| KVCompareGreater
| KVCompareLess.

Inductive KVOpKind :=
| KVOpKind_unknown
| KVOpRange
| KVOpPut
| KVOpDeleteRange
| KVOpTxn.

(** [WantValue] is [None] for a nil slice; [bytes.Compare] reads nil as empty. *)
Record KVCompare := mkKVCompare {
  cmp_StartNS : bytes;
  cmp_StartPath : bytes;
  cmp_EndNS : bytes;
  cmp_EndPath : bytes;
  cmp_Target : KVCompareTarget;
  cmp_Result : KVCompareResult;
  cmp_WantRevision : Z;
  cmp_WantValue : bytes;
}.

Record KVRangeOp := mkKVRangeOp {
  rop_StartNS : bytes;
  rop_StartPath : bytes;
  rop_EndNS : bytes;
  rop_EndPath : bytes;
  rop_Opts : KVRangeOpts;
}.

Record KVPutOp := mkKVPutOp {
  pop_Namespace : bytes;
  pop_Path : bytes;
  pop_Value : bytes;
}.

Record KVDeleteRangeOp := mkKVDeleteRangeOp {
  dop_StartNS : bytes;
  dop_StartPath : bytes;
  dop_EndNS : bytes;
  dop_EndPath : bytes;
  dop_ReturnPrev : bool;
}.

(** KVOp and KVTxnInput refer to each other: the operation is a record over the
    type of its nested transaction.  A pointer is an option. *)
Record KVOpOf (T : Type) := mkKVOp {
  op_Kind : KVOpKind;
  op_Range : option KVRangeOp;
  op_Put : option KVPutOp;
  op_DeleteRange : option KVDeleteRangeOp;
  op_Txn : option T;
}.
Arguments mkKVOp {T}.
Arguments op_Kind {T}.
Arguments op_Range {T}.
Arguments op_Put {T}.
Arguments op_DeleteRange {T}.
Arguments op_Txn {T}.

Inductive KVTxnInput :=
  mkKVTxnInput (compare : list KVCompare) (success failure : list (KVOpOf KVTxnInput)).

Definition KVOp : Type := KVOpOf KVTxnInput.

Definition in_Compare (i : KVTxnInput) : list KVCompare := let 'mkKVTxnInput c _ _ := i in c.
Definition in_Success (i : KVTxnInput) : list KVOp := let 'mkKVTxnInput _ s _ := i in s.
Definition in_Failure (i : KVTxnInput) : list KVOp := let 'mkKVTxnInput _ _ f := i in f.

Record KVRangeResult := mkKVRangeResult {
  rr_KVs : list KVPair;
  rr_Revision : Z;
  rr_More : bool;
}.

Record KVPutResult := mkKVPutResult { pr_Prev : option KVPair; pr_Revision : Z }.

Record KVDeleteRangeResult := mkKVDeleteRangeResult {
  dr_Deleted : list KVPair;
  dr_Revision : Z;
}.

Record KVOpResultOf (T : Type) := mkKVOpResult {
  res_Kind : KVOpKind;
  res_Range : option KVRangeResult;
  res_Put : option KVPutResult;
  res_DeleteRange : option KVDeleteRangeResult;
  res_Txn : option T;
}.
Arguments mkKVOpResult {T}.
Arguments res_Kind {T}.
Arguments res_Range {T}.
Arguments res_Put {T}.
Arguments res_DeleteRange {T}.
Arguments res_Txn {T}.

Inductive KVTxnResult :=
  mkKVTxnResult (responses : list (KVOpResultOf KVTxnResult)) (revision : Z) (succeeded : bool).

Definition KVOpResult : Type := KVOpResultOf KVTxnResult.

Definition txr_Responses (r : KVTxnResult) : list KVOpResult := let 'mkKVTxnResult x _ _ := r in x.
Definition txr_Revision (r : KVTxnResult) : Z := let 'mkKVTxnResult _ x _ := r in x.
Definition txr_Succeeded (r : KVTxnResult) : bool := let 'mkKVTxnResult _ _ x := r in x.

(** ** kv_events.go

    A collector is allocated once per outermost write and shared through the
    context: [w_pending] is the heap of collectors, a handle an index of it. *)

Section events.
Context `{Bolt}.

Definition set_pending (ps : list (list notification)) (w : World) : World :=
  mkWorld _ (w_db w) (w_txs w) (w_tick w) ps (w_log w).

Definition set_log (l : list notification) (w : World) : World :=
  mkWorld _ (w_db w) (w_txs w) (w_tick w) (w_pending w) l.

Definition pending_add (p : nat) (fn : notification) : App unit := fun w =>
  (Ok tt, set_pending (alter (fun notify => notify ++ [fn]) p (w_pending w)) w).

(** The call [fn(ctx)] of one buffered notification. *)
Definition publish (fn : notification) (w : World) : World := set_log (w_log w ++ [fn]) w.

Definition pending_flush (p : nat) : App unit := fun w =>
  let w' := foldl (fun w fn => publish fn w) w (default [] (w_pending w !! p)) in
  (Ok tt, set_pending (<[p := []]> (w_pending w')) w').

Definition withPendingEvents (ctx : Context_) : App (Context_ * nat * bool) := fun w =>
  match ctx_pending ctx with
  | Some existing => (Ok (ctx, existing, false), w)
  | None =>
      let p := length (w_pending w) in
      (Ok (with_pending_handle p ctx, p, true), set_pending (w_pending w ++ [[]]) w)
  end.

(** [for _, kv := range d { pending.add(...) }] *)
Fixpoint pending_add_all (p : nat) (l : list notification) : App unit :=
  match l with
  | [] => mret tt
  | fn :: l => _ ← pending_add p fn; pending_add_all p l
  end.
End events.

(** ** service_kv.go *)

Definition kvPutConfig (namespace path value format : bytes) (prev : option KVPair)
    (newRev now : Z) : Config :=
  match prev with
  | Some prev =>
      mkConfig path value [] format (int64 (kv_Version prev + 1)) newRev (kv_CreateRevision prev)
        namespace None false false timeZero now
  | None =>
      mkConfig path value [] format 1 newRev newRev namespace None false false now now
  end.

Module Service.

Section kv.
Context `{Bolt} `{Disk} `{Clock} `{Codecs} `{GoSort} `{UnicodeLower} `{!SchemaValidator}.

Definition CurrentRevisionValue (ctx : Context_) : App Z :=
  wrapA "current revision: %w" [] (Repository.CurrentRevisionValue ctx).

Definition RangeKVs (ctx : Context_) (startNS startPath endNS endPath : bytes) (opts : KVRangeOpts) :
    App (list KVPair * bool) :=
  wrapA "range query: %w" []
    (Repository.RangeQuery ctx startNS startPath endNS endPath
       (opts_Limit opts) (opts_Revision opts) (opts_KeysOnly opts)).

Definition RangeQuery (ctx : Context_) (startNS startPath endNS endPath : bytes)
    (opts : KVRangeOpts) : App (list KVPair * Z * bool) :=
  '(kvs, more) ← RangeKVs ctx startNS startPath endNS endPath opts;
  rev ← wrapA "current revision: %w" [] (Repository.CurrentRevisionValue ctx);
  mret (kvs, rev, more).

Definition PutKey (ctx : Context_) (namespace path value : bytes) : App (option KVPair * Z) :=
  let format := DetectFormatFromPath path in
  _ ← wrapA "schema validation: %w" [] (Validate ctx namespace path value format);
  '(outer, pending, owner) ← withPendingEvents ctx;
  r ← wrapA "put key tx: %w" [] (Manager_WithTx outer (fun ctx =>
        '(p, rev) ← wrapA "put key: %w" [] (Repository.PutKey ctx namespace path value);
        now ← NowA;
        let cfg := kvPutConfig namespace path value format p rev now in
        _ ← pending_add pending
              (match p with Some _ => NotifyUpdated cfg | None => NotifyCreated cfg end);
        mret (p, rev)));
  _ ← (if owner : bool then pending_flush pending else mret tt);
  mret r.

Definition DeleteRangeKeys (ctx : Context_) (startNS startPath endNS endPath : bytes)
    (returnPrev : bool) : App (list KVPair * Z) :=
  '(outer, pending, owner) ← withPendingEvents ctx;
  r ← wrapA "delete range keys tx: %w" [] (Manager_WithTx outer (fun ctx =>
        '(d, rev) ← wrapA "delete range keys: %w" []
                      (Repository.DeleteRangeKeys ctx startNS startPath endNS endPath returnPrev);
        _ ← pending_add_all pending
              ((fun kv => NotifyDeleted (kv_Path kv) (kv_Namespace kv) rev) <$> d);
        mret (d, rev)));
  _ ← (if owner : bool then pending_flush pending else mret tt);
  mret r.

(** ** service_txn.go *)

Definition compareInt64 (op : KVCompareResult) (got want : Z) : bool :=
  match op with
  | KVCompareEqual => got =? want
  | KVCompareNotEqual => negb (got =? want)
  | KVCompareGreater => want <? got
  | KVCompareLess => got <? want
  | KVCompareResult_unknown => false
  end.

Definition compareBytes (op : KVCompareResult) (got want : bytes) : bool :=
  match op with
  | KVCompareEqual => match bytes_compare got want with Eq => true | _ => false end
  | KVCompareNotEqual => match bytes_compare got want with Eq => false | _ => true end
  | KVCompareGreater => match bytes_compare got want with Gt => true | _ => false end
  | KVCompareLess => match bytes_compare got want with Lt => true | _ => false end
  | KVCompareResult_unknown => false
  end.

Definition compareKV (cmp : KVCompare) (kv : option KVPair) : bool :=
  let version := match kv with Some kv => kv_Version kv | None => 0 end in
  let createRev := match kv with Some kv => kv_CreateRevision kv | None => 0 end in
  let modRev := match kv with Some kv => kv_ModRevision kv | None => 0 end in
  let value := match kv with Some kv => default [] (kv_Value kv) | None => [] end in
  match cmp_Target cmp with
  | KVCompareVersion => compareInt64 (cmp_Result cmp) version (cmp_WantRevision cmp)
  | KVCompareCreateRevision => compareInt64 (cmp_Result cmp) createRev (cmp_WantRevision cmp)
  | KVCompareModRevision => compareInt64 (cmp_Result cmp) modRev (cmp_WantRevision cmp)
  | KVCompareValue => compareBytes (cmp_Result cmp) value (cmp_WantValue cmp)
  | KVCompareTarget_unknown => false
  end.

Definition opWrites (hasWrites : KVTxnInput -> bool) (op : KVOp) : bool :=
  match op_Kind op with
  | KVOpPut | KVOpDeleteRange => true
  | KVOpTxn => match op_Txn op with Some t => hasWrites t | None => false end
  | KVOpRange | KVOpKind_unknown => false
  end.

Definition opsWrite (hasWrites : KVTxnInput -> bool) (ops : list KVOp) : bool :=
  existsb (opWrites hasWrites) ops.

Fixpoint hasWrites (i : KVTxnInput) : bool :=
  let 'mkKVTxnInput _ success failure := i in
  opsWrite hasWrites success || opsWrite hasWrites failure.

Fixpoint revisionFromResponses (responses : list KVOpResult) : Z :=
  match responses with
  | [] => 0
  | res :: rest =>
      match res_Kind res with
      | KVOpRange =>
          match res_Range res with
          | Some r => if 0 <? rr_Revision r then rr_Revision r else revisionFromResponses rest
          | None => revisionFromResponses rest
          end
      | KVOpTxn =>
          match res_Txn res with
          | Some t => if 0 <? txr_Revision t then txr_Revision t else revisionFromResponses rest
          | None => revisionFromResponses rest
          end
      | _ => revisionFromResponses rest
      end
  end.

Definition evalCompare (ctx : Context_) (cmp : KVCompare) : App bool :=
  '(kvs, _) ← wrapA "compare range: %w" []
    (RangeKVs ctx (cmp_StartNS cmp) (cmp_StartPath cmp) (cmp_EndNS cmp) (cmp_EndPath cmp)
       (mkKVRangeOpts 0 0 false));
  mret (match kvs with
        | [] => compareKV cmp None
        | _ :: _ => forallb (fun kv => compareKV cmp (Some kv)) kvs
        end).

Fixpoint evalCompares (ctx : Context_) (compares : list KVCompare) : App bool :=
  match compares with
  | [] => mret true
  | cmp :: rest =>
      ok ← evalCompare ctx cmp;
      if ok : bool then evalCompares ctx rest else mret false
  end.

Definition runRangeOp (ctx : Context_) (op : option KVRangeOp) : App (KVOpResult * Z) :=
  match op with
  | None => liftO (Crash GoPanic)
  | Some op =>
      '(kvs, rev, more) ← wrapA "txn range: %w" []
        (RangeQuery ctx (rop_StartNS op) (rop_StartPath op) (rop_EndNS op) (rop_EndPath op)
           (rop_Opts op));
      mret (mkKVOpResult KVOpRange (Some (mkKVRangeResult kvs rev more)) None None None, 0)
  end.

Definition runPutOp (ctx : Context_) (op : option KVPutOp) : App (KVOpResult * Z) :=
  match op with
  | None => liftO (Crash GoPanic)
  | Some op =>
      '(prev, rev) ← wrapA "txn put: %w" []
        (PutKey ctx (pop_Namespace op) (pop_Path op) (pop_Value op));
      mret (mkKVOpResult KVOpPut None (Some (mkKVPutResult prev rev)) None None, rev)
  end.

Definition runDeleteRangeOp (ctx : Context_) (op : option KVDeleteRangeOp) : App (KVOpResult * Z) :=
  match op with
  | None => liftO (Crash GoPanic)
  | Some op =>
      '(deleted, rev) ← wrapA "txn delete range: %w" []
        (DeleteRangeKeys ctx (dop_StartNS op) (dop_StartPath op) (dop_EndNS op) (dop_EndPath op)
           (dop_ReturnPrev op));
      mret (mkKVOpResult KVOpDeleteRange None None (Some (mkKVDeleteRangeResult deleted rev)) None, rev)
  end.

(** Txn, runTxn, runOps, runOp and runNestedTxnOp call each other: each takes
    the call of Txn on a nested transaction as an argument. *)
Definition runNestedTxnOp (Txn : Context_ -> KVTxnInput -> App KVTxnResult) (ctx : Context_)
    (i : option KVTxnInput) : App (KVOpResult * Z) :=
  match i with
  | None =>
      appfail (EWrap "run op: %w" []
                 (NewValidationError (str "txn") (str "nested transaction is empty")))
  | Some i =>
      res ← wrapA "txn nested: %w" [] (Txn ctx i);
      mret (mkKVOpResult KVOpTxn None None None (Some res), txr_Revision res)
  end.

Definition runOp (Txn : Context_ -> KVTxnInput -> App KVTxnResult) (ctx : Context_) (op : KVOp) :
    App (KVOpResult * Z) :=
  match op_Kind op with
  | KVOpRange => runRangeOp ctx (op_Range op)
  | KVOpPut => runPutOp ctx (op_Put op)
  | KVOpDeleteRange => runDeleteRangeOp ctx (op_DeleteRange op)
  | KVOpTxn => runNestedTxnOp Txn ctx (op_Txn op)
  | KVOpKind_unknown =>
      appfail (EWrap "run op: %w" []
                 (NewValidationError (str "op") (str "unknown transaction operation")))
  end.

Definition runOps (Txn : Context_ -> KVTxnInput -> App KVTxnResult) (ctx : Context_) :
    list KVOp -> list KVOpResult -> Z -> App (list KVOpResult * Z) :=
  fix loop ops results lastRev :=
    match ops with
    | [] => mret (results, lastRev)
    | op :: rest =>
        '(res, rev) ← runOp Txn ctx op;
        loop rest (results ++ [res]) (if lastRev <? rev then rev else lastRev)
    end.

Definition runTxn (Txn : Context_ -> KVTxnInput -> App KVTxnResult) (ctx : Context_)
    (i : KVTxnInput) : App KVTxnResult :=
  let 'mkKVTxnInput compare success failure := i in
  succeeded ← evalCompares ctx compare;
  '(responses, lastRev) ← runOps Txn ctx (if succeeded : bool then success else failure) [] 0;
  let lastRev := if lastRev =? 0 then revisionFromResponses responses else lastRev in
  lastRev ← (if lastRev =? 0
             then wrapA "current revision: %w" [] (Repository.CurrentRevisionValue ctx)
             else mret lastRev);
  mret (mkKVTxnResult responses lastRev succeeded).

Definition txnBody (Txn : Context_ -> KVTxnInput -> App KVTxnResult) (ctx : Context_)
    (i : KVTxnInput) : App KVTxnResult :=
  if negb (hasWrites i) then runTxn Txn ctx i
  else
    '(outer, pending, owner) ← withPendingEvents ctx;
    res ← wrapA "txn tx: %w" [] (Manager_WithTx outer (fun ctx => runTxn Txn ctx i));
    _ ← (if owner : bool then pending_flush pending else mret tt);
    mret res.

Fixpoint Txn (ctx : Context_) (i : KVTxnInput) {struct i} : App KVTxnResult := txnBody Txn ctx i.
End kv.
End Service.
