(* ===== verification/TxnSpec.v ===== *)
(** * What a transaction of the use case promises

    Txn, PutKey and DeleteRangeKeys of usecase/config: all or nothing in the
    store, and the watcher hears of exactly the operations that ran, in their
    order, once they are committed; a transaction without writes changes
    nothing; a guard and its branch see one state. *)

From S2P Require Import Prelude.
From S2P Require Import Bolt.
From S2P Require Import Keys.
From S2P Require Import Domain.
From S2P Require Import Concrete.
From S2P Require Import Manager.
From S2P Require Import EtcdRepo.
From S2P Require Import Repository.
From S2P Require Import Effects.
From S2P Require Import Store.
From S2P Require Import ConfigKV.
From stdpp Require Import base list gmap strings.
From Stdlib Require Import Ascii ZArith Lia.
Open Scope Z_scope.

(** ** The validator's promise

    The validator only reads, through the transaction of its context if there is
    one. *)
Class SchemaValidatorSpec `{Bolt} `{Disk} `{!SchemaValidator} : Prop := {
  Validate_in wr h ctx namespace path content format w :
    ctx_tx ctx = Some h -> in_tx wr h w ->
    let w' := (Validate ctx namespace path content format w).2 in
    w_db w' = w_db w /\ w_txs w' = w_txs w /\ w_log w' = w_log w /\ w_pending w' = w_pending w;
  Validate_top ctx namespace path content format w :
    ctx_tx ctx = None ->
    let w' := (Validate ctx namespace path content format w).2 in
    w_db w' = w_db w /\ w_log w' = w_log w /\ w_pending w' = w_pending w /\ busy w' = busy w;
}.

(** ** Code that collects notifications inside a transaction

    [collects h p m Q]: run inside the open transaction [h], [m] only changes
    that transaction and appends to the collector [p]; when it returns [a] having
    appended [evs], [Q a evs]. *)

Section collects.
Context `{Bolt} `{Disk}.

Definition collects {A} (h p : nat) (m : App A) (Q : A -> list notification -> Prop) : Prop :=
  forall w, in_tx true h w -> (p < length (w_pending w))%nat ->
    tx_local true h w (m w).2 /\
    exists evs, w_pending (m w).2 = alter (fun l => l ++ evs) p (w_pending w) /\
      forall a, (m w).1 = Ok a -> Q a evs.

(** [m] leaves every collector alone. *)
Definition quiet {A} (h : nat) (m : App A) : Prop :=
  forall w, in_tx true h w -> tx_local true h w (m w).2 /\ w_pending (m w).2 = w_pending w.

Lemma alter_nil (p : nat) (ps : list (list notification)) : alter (fun l => l ++ []) p ps = ps.
Proof. apply list_alter_id. intros. apply app_nil_r. Qed.

Lemma alter_app_app e1 e2 (p : nat) (ps : list (list notification)) :
  alter (fun l => l ++ e2) p (alter (fun l => l ++ e1) p ps) = alter (fun l => l ++ e1 ++ e2) p ps.
Proof.
  revert p. induction ps as [|x ps IH]; intros [|p]; simpl; [done|done| |].
  - unfold alter. simpl. by rewrite app_assoc.
  - unfold alter in *. simpl. by rewrite IH.
Qed.

Lemma collects_quiet {A} h p (m : App A) Q :
  quiet h m -> (forall a, Q a []) -> collects h p m Q.
Proof.
  intros Hm HQ w Hw Hp. destruct (Hm w Hw) as [Hl Hpe]. split; [done|].
  exists []. rewrite alter_nil. split; [done|]. intros a _. apply HQ.
Qed.

Lemma collects_ret {A} h p (a : A) (Q : A -> list notification -> Prop) :
  Q a [] -> collects h p (mret a) Q.
Proof.
  intros HQ w Hw Hp. split; [by apply tx_local_refl|].
  exists []. rewrite alter_nil. split; [done|]. by intros ? [= <-].
Qed.

Lemma collects_stop {A} h p (r : outcome A) Q :
  ~ is_Ok r -> collects h p (liftO r) Q.
Proof.
  intros Hr w Hw Hp. split; [by apply tx_local_refl|].
  exists []. rewrite alter_nil. split; [done|]. intros a E. destruct Hr. by exists a.
Qed.

Lemma collects_bind {A B} h p (m : App A) (f : A -> App B) Q1 Q :
  collects h p m Q1 ->
  (forall a e1, Q1 a e1 -> collects h p (f a) (fun b e2 => Q b (e1 ++ e2))) ->
  collects h p (m ≫= f) Q.
Proof.
  intros Hm Hf w Hw Hp. destruct (Hm w Hw Hp) as (Hl & e1 & E1 & H1). unfold mbind, App_bind.
  destruct (m w) as [[a|e|c] w1]; simpl in *.
  2,3: split; [done|]; exists e1; split; [done|]; done.
  assert (Hw1 : in_tx true h w1) by by eapply tx_local_in.
  assert (Hp1 : (p < length (w_pending w1))%nat) by (rewrite E1, length_alter; done).
  destruct (Hf a e1 (H1 a eq_refl) w1 Hw1 Hp1) as (Hl2 & e2 & E2 & H2).
  split; [by eapply tx_local_trans|]. exists (e1 ++ e2). split; [|done].
  by rewrite E2, E1, alter_app_app.
Qed.

Lemma collects_mono {A} h p (m : App A) (Q Q' : A -> list notification -> Prop) :
  (forall a evs, Q a evs -> Q' a evs) -> collects h p m Q -> collects h p m Q'.
Proof.
  intros HQ Hm w Hw Hp. destruct (Hm w Hw Hp) as (Hl & evs & E & Ha). split; [done|].
  exists evs. eauto.
Qed.

Lemma collects_wrap {A} h p fmt args (m : App A) Q :
  collects h p m Q -> collects h p (wrapA fmt args m) Q.
Proof.
  intros Hm w Hw Hp. specialize (Hm w Hw Hp). unfold wrapA.
  destruct (m w) as [[a|e|c] w1]; simpl in *; [done|..];
    destruct Hm as (Hl & evs & E & _); split; [done| |done|]; by exists evs.
Qed.

Lemma collects_add h p fn : collects h p (pending_add p fn) (fun _ evs => evs = [fn]).
Proof.
  intros w [db Hh] Hp. split; [split; [done|]; split; [done|]; exists db; by rewrite list_insert_id|].
  by exists [fn].
Qed.

Lemma collects_add_all h p fns : collects h p (pending_add_all p fns) (fun _ evs => evs = fns).
Proof.
  induction fns as [|fn fns IH]; simpl; [by apply collects_ret|].
  eapply collects_bind; [apply collects_add|]. simpl. intros [] e1 ->.
  eapply collects_mono; [|done]. intros [] evs ->. done.
Qed.

Lemma quiet_wrap {A} h fmt args (m : App A) : quiet h m -> quiet h (wrapA fmt args m).
Proof. intros Hm w Hw. specialize (Hm w Hw). unfold wrapA. by destruct (m w). Qed.

Lemma quiet_ret {A} h (a : A) : quiet h (mret a).
Proof. intros w Hw. by split; [apply tx_local_refl|]. Qed.

Lemma quiet_bind {A B} h (m : App A) (f : A -> App B) :
  quiet h m -> (forall a, quiet h (f a)) -> quiet h (m ≫= f).
Proof.
  intros Hm Hf w Hw. destruct (Hm w Hw) as [Hl Hp]. unfold mbind, App_bind.
  destruct (m w) as [[a|e|c] w1]; simpl in *; [|done..].
  destruct (Hf a w1) as [Hl2 Hp2]; [by eapply tx_local_in|].
  split; [by eapply tx_local_trans|congruence].
Qed.

Lemma quiet_Now `{Clock} h : quiet h NowA.
Proof. intros w Hw. split; [by apply confined_Now|done]. Qed.

Lemma quiet_GetQuerier {A} h ctx (code : TxM A) :
  ctx_tx ctx = Some h -> quiet h (GetQuerier ctx code).
Proof.
  intros Hc w Hw. split; [by apply confined_GetQuerier|]. destruct Hw as [db Hh].
  rewrite (GetQuerier_in true h ctx code w db Hc Hh). by destruct (code _ _).
Qed.

Lemma quiet_write {A} h fmt ctx (code : TxM A) :
  ctx_tx ctx = Some h -> quiet h (Repository.write fmt ctx code).
Proof.
  intros Hc. apply quiet_wrap. intros w Hw. rewrite (WithTx_in h) by done. by apply quiet_GetQuerier.
Qed.

Lemma quiet_read {A} h fmt ctx (code : TxM A) :
  ctx_tx ctx = Some h -> quiet h (Repository.read fmt ctx code).
Proof.
  intros Hc. apply quiet_wrap. intros w Hw. unfold WithReadTx, TxFromContext. rewrite Hc.
  by apply quiet_GetQuerier.
Qed.
End collects.

Create HintDb quiet.
#[export] Hint Resolve quiet_wrap quiet_ret quiet_bind quiet_Now quiet_GetQuerier quiet_write
  quiet_read : quiet.

(** ** The boundary every write of the use case runs in

    PutKey, DeleteRangeKeys and Txn share it: install a collector unless the
    caller did, run the body in a transaction, publish after the commit. *)

Section boundary.
Context `{Bolt} `{Disk}.

Definition boundary {A} (fmt : string) (ctx : Context_) (body : nat -> Context_ -> App A) : App A :=
  '(outer, pending, owner) ← withPendingEvents ctx;
  r ← wrapA fmt [] (Manager_WithTx outer (body pending));
  _ ← (if owner : bool then pending_flush pending else mret tt);
  mret r.

(** Inside a boundary, another one is just its body. *)
Lemma boundary_in {A} fmt ctx h p (body : nat -> Context_ -> App A) w :
  ctx_tx ctx = Some h -> ctx_pending ctx = Some p -> in_tx true h w ->
  boundary fmt ctx body w = wrapA fmt [] (wrapA "bbolt: with tx: %w" [] (body p ctx)) w.
Proof.
  intros Hc Hp Hw. unfold boundary, mbind, App_bind, withPendingEvents. rewrite Hp.
  unfold Manager_WithTx, wrapA. rewrite (WithTx_in h) by done.
  by destruct (body p ctx w) as [[]].
Qed.

Lemma boundary_nested {A} fmt ctx h p (body : nat -> Context_ -> App A) Q :
  ctx_tx ctx = Some h -> ctx_pending ctx = Some p ->
  collects h p (body p ctx) Q -> collects h p (boundary fmt ctx body) Q.
Proof.
  intros Hc Hp Hb w Hw Hlt. rewrite (boundary_in fmt ctx h p) by done.
  exact (collects_wrap h p _ _ _ Q (collects_wrap h p _ _ _ Q Hb) w Hw Hlt).
Qed.

(** The world with an empty collector allocated. *)
Definition collecting (w : World) : World := set_pending (w_pending w ++ [[]]) w.

(** The context the body of an outermost boundary runs with. *)
Definition body_ctx (ctx : Context_) (w : World) : Context_ :=
  with_tx_handle (length (w_txs w)) (with_pending_handle (length (w_pending w)) ctx).

Lemma publish_all fns w :
  foldl (fun w fn => publish fn w) w fns = set_log (w_log w ++ fns) w.
Proof.
  revert w. induction fns as [|fn fns IH]; intros w; simpl.
  - rewrite app_nil_r. by destruct w.
  - rewrite IH. unfold publish, set_log. simpl. by rewrite <- app_assoc.
Qed.

Lemma runTx_pending {A} ctx h (cb : Context_ -> App A) w :
  w_pending (runTx ctx h cb w).2 = w_pending (cb (with_tx_handle h ctx) w).2.
Proof.
  unfold runTx. destruct (cb _ w) as [[a|e|[]] w1]; simpl; [|done..].
  destruct (Writable h w1); [|done]. unfold Commit.
  destruct (commit_fault h); [done|]. by destruct (w_txs w1 !! h).
Qed.

Lemma collects_confined {A} h p (m : App A) Q w :
  collects h p m Q -> in_tx true h w -> (p < length (w_pending w))%nat ->
  tx_local true h w (m w).2.
Proof. intros Hm Hw Hp. by apply (Hm w Hw Hp). Qed.

(** An outermost boundary is all or nothing, and publishes what its body
    collected after the commit, or nothing. *)
Lemma boundary_top {A} fmt ctx w (body : nat -> Context_ -> App A) Q r w' :
  ctx_tx ctx = None -> ctx_pending ctx = None -> idle w ->
  collects (length (w_txs w)) (length (w_pending w)) (body (length (w_pending w)) (body_ctx ctx w)) Q ->
  boundary fmt ctx body w = (r, w') ->
  (forall a, r = Ok a -> exists evs,
     Q a evs /\ w_log w' = w_log w ++ evs /\
     w_txs w' = w_txs w ++ [mkTx _ true TxCommitted (w_db w')] /\
     exists w1, body (length (w_pending w)) (body_ctx ctx w) (begun true (collecting w)) = (Ok a, w1) /\
                w_txs w1 !! length (w_txs w) = Some (mkTx _ true TxOpen (w_db w'))) /\
  (~ is_Ok r -> w_db w' = w_db w /\ w_log w' = w_log w) /\
  (r <> Crash Deadlock -> busy w' = false).
Proof.
  intros Hc Hp Hi Hb. set (h := length (w_txs w)). set (p := length (w_pending w)) in *.
  unfold boundary, withPendingEvents, mbind, App_bind. rewrite Hp. fold (collecting w) p.
  unfold Manager_WithTx, wrapA. rewrite WithTx_begins by done.
  change (length (w_txs (collecting w))) with h.
  destruct (runTx _ h (body p) _) as [r0 w1] eqn:Er.
  pose proof (runTx_pending (with_pending_handle p ctx) h (body p) (begun true (collecting w))) as Hpend.
  rewrite Er in Hpend. cbn [snd] in Hpend. 
  assert (Hctx : with_tx_handle h (with_pending_handle p ctx) = body_ctx ctx w) by done.
  rewrite Hctx in Hpend.
  specialize (Hb (begun true (collecting w)) (begun_in_tx true (collecting w))).
  destruct Hb as (Hloc & evs & Ep & HQ).
  { simpl. rewrite length_app. simpl. fold p. lia. }
  assert (Hps : w_pending (begun true (collecting w)) = w_pending w ++ [[]]) by done.
  rewrite Hps in Ep. unfold p in Ep. rewrite alter_app_last in Ep. cbn [app] in Ep. fold p in Ep.
  pose proof (runTx_Ok (with_pending_handle p ctx) h (body p) (begun true (collecting w))) as Hok0.
  rewrite Er, Hctx in Hok0.
  pose proof (runTx_confined_at true (with_pending_handle p ctx) (body p) (collecting w) r0 w1) as Hrun.
  destruct Hrun as (Hlog & st & db & Htx & Hin & Hst & Hcom & Hrb & Hiff); [done|done|].
  change (length (w_txs (collecting w))) with h in *. rewrite Hctx in Hin.
  assert (Hbusy : r0 <> Crash Deadlock -> busy w1 = false).
  { intros Hd. unfold busy. rewrite Htx, existsb_app. destruct Hi as [Hbu _]. unfold busy in Hbu.
    cbn [collecting w_txs set_pending]. rewrite Hbu. simpl. unfold is_open. simpl.
    by destruct st; specialize (Hst Hd). }
  destruct r0 as [a|e|c]; cbn [map_err].
  - intros [= <- <-].
    assert (st = TxCommitted) as -> by (apply Hiff; split; [done|by eexists]).
    rewrite Hpend, Ep. unfold p. rewrite lookup_app_last, publish_all. fold p.
    cbn [set_pending set_log w_log w_db w_txs from_option]. unfold id.
    rewrite Hlog. rewrite Hcom in * by done. split; [|split].
    + intros ? [= <-]. exists evs. split; [by apply HQ, (Hok0 a w1)|]. split; [done|]. split; [done|].
      eexists. split; [apply run_eq, (Hok0 a w1 eq_refl)|done].
    + intros []. by exists a.
    + intros _. unfold busy. simpl. by apply Hbusy.
  - intros [= <- <-]. split; [done|]. rewrite Hrb, Hlog; [|intros E; by apply Hiff in E as [_ [? ?]]].
    split; [done|]. intros _. by apply Hbusy.
  - intros [= <- <-]. split; [done|]. rewrite Hrb, Hlog; [|intros E; by apply Hiff in E as [_ [? ?]]].
    split; [done|]. intros Hd. by apply Hbusy.
Qed.
End boundary.

(** ** What the watcher is to hear

    [txn_events i r evs]: for the result [r] of the transaction [i], [evs] are the
    notifications of the operations of the branch that ran, in their order; a put
    is a creation or an update according to its result, a range delete notifies
    every key it deleted. *)

Definition put_event (op : KVPutOp) (r : KVPutResult) (now : Z) : notification :=
  let cfg := kvPutConfig (pop_Namespace op) (pop_Path op) (pop_Value op)
               (DetectFormatFromPath (pop_Path op)) (pr_Prev r) (pr_Revision r) now in
  match pr_Prev r with Some _ => NotifyUpdated cfg | None => NotifyCreated cfg end.

Definition delete_events (r : KVDeleteRangeResult) : list notification :=
  (fun kv => NotifyDeleted (kv_Path kv) (kv_Namespace kv) (dr_Revision r)) <$> dr_Deleted r.

Inductive op_events : KVOp -> KVOpResult -> list notification -> Prop :=
| op_events_range op o r :
    op_Kind op = KVOpRange -> op_Range op = Some o ->
    op_events op (mkKVOpResult KVOpRange (Some r) None None None) []
| op_events_put op o r now :
    op_Kind op = KVOpPut -> op_Put op = Some o ->
    op_events op (mkKVOpResult KVOpPut None (Some r) None None) [put_event o r now]
| op_events_delete op o r :
    op_Kind op = KVOpDeleteRange -> op_DeleteRange op = Some o ->
    op_events op (mkKVOpResult KVOpDeleteRange None None (Some r) None) (delete_events r)
| op_events_txn op i r evs :
    op_Kind op = KVOpTxn -> op_Txn op = Some i -> txn_events i r evs ->
    op_events op (mkKVOpResult KVOpTxn None None None (Some r)) evs
with ops_events : list KVOp -> list KVOpResult -> list notification -> Prop :=
| ops_events_nil : ops_events [] [] []
| ops_events_cons op ops r rs e es :
    op_events op r e -> ops_events ops rs es -> ops_events (op :: ops) (r :: rs) (e ++ es)
with txn_events : KVTxnInput -> KVTxnResult -> list notification -> Prop :=
| txn_events_intro i rs rev ok evs :
    ops_events (if ok : bool then in_Success i else in_Failure i) rs evs ->
    txn_events i (mkKVTxnResult rs rev ok) evs.

(** Induction over nested transactions. *)
Definition on_nested (P : KVTxnInput -> Prop) (op : KVOp) : Prop :=
  match op_Txn op with Some i => P i | None => True end.

Lemma KVTxnInput_nested_ind (P : KVTxnInput -> Prop) :
  (forall c s f, Forall (on_nested P) s -> Forall (on_nested P) f -> P (mkKVTxnInput c s f)) ->
  forall i, P i.
Proof.
  intros HP. fix IH 1. intros [c s f].
  assert (Hops : forall ops : list KVOp, Forall (on_nested P) ops).
  { fix IHops 1. intros [|op ops]; [constructor|]. constructor; [|apply IHops].
    destruct op as [k r pu d [i|]]; unfold on_nested; simpl; [apply IH|exact I]. }
  apply HP; apply Hops.
Qed.

Lemma ops_events_snoc ops rs es op r e :
  ops_events ops rs es -> op_events op r e -> ops_events (ops ++ [op]) (rs ++ [r]) (es ++ e).
Proof.
  induction 1 as [|op' ops r' rs e' es H1 H2 IH]; simpl; intros Hop.
  - rewrite <- (app_nil_r e). by repeat constructor.
  - rewrite <- app_assoc. constructor; auto.
Qed.

Section txn_collects.
Context `{Bolt} `{Disk} `{Clock} `{Codecs} `{GoSort} `{UnicodeLower} `{!SchemaValidator}.
Context `{!SchemaValidatorSpec}.

Lemma quiet_Validate h ctx ns path content format :
  ctx_tx ctx = Some h -> quiet h (Validate ctx ns path content format).
Proof.
  intros Hc w Hw. destruct (Validate_in true h ctx ns path content format w Hc Hw) as (E1&E2&E3&E4).
  destruct Hw as [db Hh]. split; [|done]. split; [done|]. split; [done|]. exists db.
  by rewrite E2, list_insert_id.
Qed.
#[local] Hint Resolve quiet_Validate : quiet.

Definition put_body (ns path value : bytes) (pending : nat) (ctx : Context_) : App (option KVPair * Z) :=
  '(p, rev) ← wrapA "put key: %w" [] (Repository.PutKey ctx ns path value);
  now ← NowA;
  let cfg := kvPutConfig ns path value (DetectFormatFromPath path) p rev now in
  _ ← pending_add pending (match p with Some _ => NotifyUpdated cfg | None => NotifyCreated cfg end);
  mret (p, rev).

Definition delete_body (startNS startPath endNS endPath : bytes) (returnPrev : bool)
    (pending : nat) (ctx : Context_) : App (list KVPair * Z) :=
  '(d, rev) ← wrapA "delete range keys: %w" []
     (Repository.DeleteRangeKeys ctx startNS startPath endNS endPath returnPrev);
  _ ← pending_add_all pending
        ((fun kv => NotifyDeleted (kv_Path kv) (kv_Namespace kv) rev) <$> d);
  mret (d, rev).

Lemma PutKey_boundary ctx ns path value :
  Service.PutKey ctx ns path value =
  (_ ← wrapA "schema validation: %w" [] (Validate ctx ns path value (DetectFormatFromPath path));
   boundary "put key tx: %w" ctx (put_body ns path value)).
Proof. reflexivity. Qed.

Lemma DeleteRangeKeys_boundary ctx sn sp en ep rp :
  Service.DeleteRangeKeys ctx sn sp en ep rp =
  boundary "delete range keys tx: %w" ctx (delete_body sn sp en ep rp).
Proof. reflexivity. Qed.

Definition put_result_events (op : KVPutOp) (r : option KVPair * Z) (evs : list notification) : Prop :=
  exists now, evs = [put_event op (mkKVPutResult r.1 r.2) now].

Definition delete_result_events (r : list KVPair * Z) (evs : list notification) : Prop :=
  evs = delete_events (mkKVDeleteRangeResult r.1 r.2).

Lemma put_body_collects h p ctx op :
  ctx_tx ctx = Some h ->
  collects h p (put_body (pop_Namespace op) (pop_Path op) (pop_Value op) p ctx) (put_result_events op).
Proof.
  intros Hc. eapply collects_bind; [apply (collects_quiet _ _ _ (fun _ e => e = [])); [|done]|].
  { apply quiet_wrap. unfold Repository.PutKey. eauto with quiet. }
  intros [prev rev] e1 ->. eapply collects_bind.
  { apply (collects_quiet _ _ _ (fun _ e => e = [])); [|done]. eauto with quiet. }
  intros now e2 ->. eapply collects_bind; [apply collects_add|].
  intros [] e3 ->. apply collects_ret. by exists now.
Qed.

Lemma delete_body_collects h p ctx sn sp en ep rp :
  ctx_tx ctx = Some h ->
  collects h p (delete_body sn sp en ep rp p ctx) delete_result_events.
Proof.
  intros Hc. eapply collects_bind; [apply (collects_quiet _ _ _ (fun _ e => e = [])); [|done]|].
  { apply quiet_wrap. unfold Repository.DeleteRangeKeys. eauto with quiet. }
  intros [d rev] e1 ->. eapply collects_bind; [apply collects_add_all|].
  intros [] e3 ->. apply collects_ret. unfold delete_result_events, delete_events. simpl.
  by rewrite app_nil_r.
Qed.

Lemma RangeQuery_quiet h ctx sn sp en ep opts :
  ctx_tx ctx = Some h -> quiet h (Service.RangeQuery ctx sn sp en ep opts).
Proof.
  intros Hc. apply quiet_bind; [|intros []; apply quiet_bind]; intros; unfold Service.RangeKVs,
    Repository.RangeQuery, Repository.CurrentRevisionValue, Repository.CurrentRevision;
    eauto with quiet.
Qed.

Lemma evalCompares_quiet h ctx cs : ctx_tx ctx = Some h -> quiet h (Service.evalCompares ctx cs).
Proof.
  intros Hc. induction cs as [|c cs IH]; simpl; [apply quiet_ret|].
  apply quiet_bind; [|intros []; [done|apply quiet_ret]].
  apply quiet_bind; [|intros []; apply quiet_ret].
  unfold Service.RangeKVs, Repository.RangeQuery. eauto with quiet.
Qed.

Section body.
Context (Txn : Context_ -> KVTxnInput -> App KVTxnResult) (h p : nat) (ctx : Context_).
Context (Hc : ctx_tx ctx = Some h) (Hp : ctx_pending ctx = Some p).

Lemma runOp_collects op :
  on_nested (fun i => collects h p (Txn ctx i) (txn_events i)) op ->
  collects h p (Service.runOp Txn ctx op) (fun r => op_events op r.1).
Proof.
  intros Hn. unfold Service.runOp. destruct (op_Kind op) eqn:Ek.
  - by apply (collects_stop h p (Err _)); intros [].
  - unfold Service.runRangeOp. destruct (op_Range op) as [o|] eqn:Eo.
    2: by apply (collects_stop h p (Crash _)); intros [].
    eapply collects_bind; [apply (collects_quiet _ _ _ (fun _ e => e = [])); [|done]|].
    { apply quiet_wrap. by apply RangeQuery_quiet. }
    intros [[kvs rev] more] e ->. apply collects_ret. by eapply op_events_range.
  - unfold Service.runPutOp. destruct (op_Put op) as [o|] eqn:Eo.
    2: by apply (collects_stop h p (Crash _)); intros [].
    eapply collects_bind; [apply collects_wrap|].
    { rewrite PutKey_boundary. eapply collects_bind;
        [apply (collects_quiet _ _ _ (fun _ e => e = [])); [eauto with quiet|done]|].
      intros [] e ->. apply boundary_nested; [done|done|]. by apply put_body_collects. }
    intros [prev rev] e [now ->]. apply collects_ret. rewrite app_nil_r. by apply op_events_put.
  - unfold Service.runDeleteRangeOp. destruct (op_DeleteRange op) as [o|] eqn:Eo.
    2: by apply (collects_stop h p (Crash _)); intros [].
    eapply collects_bind; [apply collects_wrap|].
    { rewrite DeleteRangeKeys_boundary. apply boundary_nested; [done|done|].
      by apply delete_body_collects. }
    intros [d rev] e ->. apply collects_ret. rewrite app_nil_r. by eapply op_events_delete.
  - unfold Service.runNestedTxnOp. unfold on_nested in Hn. destruct (op_Txn op) as [i|] eqn:Eo.
    2: by apply (collects_stop h p (Err _)); intros [].
    eapply collects_bind; [by apply collects_wrap|].
    intros r e He. apply collects_ret. rewrite app_nil_r. by eapply op_events_txn.
Qed.

Lemma runOps_collects ops ops0 rs0 rev0 e0 :
  Forall (on_nested (fun i => collects h p (Txn ctx i) (txn_events i))) ops ->
  ops_events ops0 rs0 e0 ->
  collects h p (Service.runOps Txn ctx ops rs0 rev0)
    (fun r e => ops_events (ops0 ++ ops) r.1 (e0 ++ e)).
Proof.
  intros Hops. revert ops0 rs0 rev0 e0. induction Hops as [|op ops Hop Hops IH]; intros ops0 rs0 rev0 e0 H0'.
  - apply collects_ret. simpl. by rewrite !app_nil_r.
  - simpl. eapply collects_bind; [by apply runOp_collects|].
    intros [r rev] e He. simpl in He. 
    pose proof (ops_events_snoc _ _ _ _ _ _ H0' He) as Hs.
    eapply collects_mono; [|by apply (IH _ _ _ _ Hs)].
    intros [rs last] e2. simpl. by rewrite <- !app_assoc.
Qed.

Lemma runTxn_collects i :
  Forall (on_nested (fun i => collects h p (Txn ctx i) (txn_events i))) (in_Success i) ->
  Forall (on_nested (fun i => collects h p (Txn ctx i) (txn_events i))) (in_Failure i) ->
  collects h p (Service.runTxn Txn ctx i) (txn_events i).
Proof.
  destruct i as [c s f]. simpl. intros Hs Hf.
  eapply collects_bind; [apply (collects_quiet _ _ _ (fun _ e => e = [])); [|done]|].
  { by apply evalCompares_quiet. }
  intros ok e ->. eapply collects_bind.
  { apply (runOps_collects _ [] [] 0 []); [by destruct ok|constructor]. }
  intros [rs last] e He. simpl in He.
  eapply collects_bind; [apply (collects_quiet _ _ _ (fun _ e => e = [])); [|done]|].
  { destruct (_ =? 0); [|apply quiet_ret]. unfold Repository.CurrentRevisionValue,
      Repository.CurrentRevision. eauto with quiet. }
  intros rev e2 ->. apply collects_ret. rewrite !app_nil_r. by constructor.
Qed.
End body.

(** Inside a transaction with a collector, Txn only adds the notifications of
    its operations to it. *)
Lemma Txn_collects i : forall h p ctx,
  ctx_tx ctx = Some h -> ctx_pending ctx = Some p ->
  collects h p (Service.Txn ctx i) (txn_events i).
Proof.
  induction i as [c s f Hs Hf] using KVTxnInput_nested_ind. intros h p ctx Hc Hp.
  assert (Hbody : forall ctx h, ctx_tx ctx = Some h -> ctx_pending ctx = Some p ->
            collects h p (Service.runTxn Service.Txn ctx (mkKVTxnInput c s f))
              (txn_events (mkKVTxnInput c s f))).
  { intros ctx' h' Hc' Hp'. apply runTxn_collects; [done|done|..]; simpl;
      (eapply Forall_impl; [eassumption|]); intros op; unfold on_nested; destruct (op_Txn op); auto. }
  change (Service.Txn ctx (mkKVTxnInput c s f)) with
    (Service.txnBody Service.Txn ctx (mkKVTxnInput c s f)).
  unfold Service.txnBody. destruct (negb _); [by apply Hbody|].
  apply (boundary_nested "txn tx: %w" ctx h p
    (fun _ ctx => Service.runTxn Service.Txn ctx (mkKVTxnInput c s f))); auto.
Qed.
End txn_collects.

(** ** Reads outside a transaction *)

Section inert.
Context `{Bolt} `{Disk}.

(** [m] changes neither the database nor a collector, publishes nothing and does
    not keep the writer lock. *)
Definition same_store (w w' : World) : Prop :=
  w_db w' = w_db w /\ w_log w' = w_log w /\ w_pending w' = w_pending w /\ busy w' = busy w.

Definition inert {A} (m : App A) : Prop := forall w, same_store w (m w).2.

Lemma inert_ret {A} (a : A) : inert (mret a).
Proof. done. Qed.

Lemma inert_lift {A} (r : outcome A) : inert (liftO r).
Proof. done. Qed.

Lemma inert_bind {A B} (m : App A) (f : A -> App B) :
  inert m -> (forall a, inert (f a)) -> inert (m ≫= f).
Proof.
  intros Hm Hf w. specialize (Hm w). unfold mbind, App_bind.
  destruct (m w) as [[a|e|c] w1]; [|done..]. specialize (Hf a w1).
  destruct Hm as (?&?&?&?), Hf as (?&?&?&?). simpl in *. repeat split; congruence.
Qed.

Lemma inert_wrap {A} fmt args (m : App A) : inert m -> inert (wrapA fmt args m).
Proof. intros Hm w. specialize (Hm w). unfold wrapA. by destruct (m w). Qed.

Lemma inert_read {A} fmt ctx (code : TxM A) :
  ctx_tx ctx = None -> inert (Repository.read fmt ctx code).
Proof.
  intros Hc. apply inert_wrap. intros w.
  destruct (begin_fault (length (w_txs w))) as [e|] eqn:Hf.
  - unfold WithReadTx, TxFromContext, mbind, App_bind, wrapA, Begin. by rewrite Hc, Hf.
  - rewrite WithReadTx_top by done. unfold read_outcome.
    destruct (code _ _) as [[x|e|[]] s]; simpl; split; try done; split; try done;
      (split; [done|]); rewrite busy_ended; by rewrite orb_false_r.
Qed.
End inert.

#[export] Hint Resolve inert_ret inert_lift inert_bind inert_wrap inert_read : quiet.

Section read_only.
Context `{Bolt} `{Disk} `{Clock} `{Codecs} `{GoSort} `{UnicodeLower} `{!SchemaValidator}.

Lemma inert_evalCompares ctx cs : ctx_tx ctx = None -> inert (Service.evalCompares ctx cs).
Proof.
  intros Hc. induction cs as [|c cs IH]; simpl; [done|].
  apply inert_bind; [|by intros []]. apply inert_bind; [|by intros []].
  unfold Service.RangeKVs, Repository.RangeQuery. auto with quiet.
Qed.

Lemma inert_runOps Txn ctx ops rs rev :
  ctx_tx ctx = None -> Service.opsWrite Service.hasWrites ops = false ->
  Forall (on_nested (fun i => Service.hasWrites i = false -> inert (Txn ctx i))) ops ->
  inert (Service.runOps Txn ctx ops rs rev).
Proof.
  intros Hc Hw Hn. revert rs rev Hw.
  induction Hn as [|op ops Hop Hn IH]; intros rs rev; [done|]. intros [Hw1 Hw2]%orb_false_iff.
  apply inert_bind; [|intros []; by apply IH].
  unfold Service.runOp, Service.opWrites, on_nested in *. destruct (op_Kind op); [done| |done|done|].
  - destruct (op_Range op); [|done]. apply inert_bind; [|by intros [[]]]. apply inert_wrap.
    apply inert_bind; [|intros []; apply inert_bind; [|done]];
      unfold Service.RangeKVs, Repository.RangeQuery, Repository.CurrentRevisionValue,
        Repository.CurrentRevision; auto with quiet.
  - unfold Service.runNestedTxnOp. destruct (op_Txn op) as [i|]; [|done].
    apply inert_bind; [|done]. by apply inert_wrap, Hop.
Qed.

Lemma inert_Txn i : forall ctx,
  ctx_tx ctx = None -> Service.hasWrites i = false -> inert (Service.Txn ctx i).
Proof.
  induction i as [c s f Hs Hf] using KVTxnInput_nested_ind. intros ctx Hc Hw.
  change (Service.Txn ctx (mkKVTxnInput c s f)) with
    (Service.txnBody Service.Txn ctx (mkKVTxnInput c s f)).
  unfold Service.txnBody. rewrite Hw. simpl in Hw. apply orb_false_iff in Hw as [Hw1 Hw2].
  assert (Hops : forall ops, Forall (on_nested (fun i => forall ctx, ctx_tx ctx = None ->
              Service.hasWrites i = false -> inert (Service.Txn ctx i))) ops ->
            Forall (on_nested (fun i => Service.hasWrites i = false -> inert (Service.Txn ctx i))) ops).
  { intros ops Ho. eapply Forall_impl; [done|]. intros op. unfold on_nested. destruct (op_Txn op); auto. }
  apply inert_bind; [by apply inert_evalCompares|]. intros ok.
  apply inert_bind; [destruct ok; apply inert_runOps; auto|]. intros [rs last].
  apply inert_bind; [|done]. unfold Repository.CurrentRevisionValue, Repository.CurrentRevision.
  destruct (_ =? 0); auto with quiet.
Qed.
End read_only.

(** ** Properties *)

(** The validator of a namespace to which no schema is attached. *)
#[global] Instance no_schemas : SchemaValidator := fun _ _ _ _ _ => mret tt.

#[global] Instance no_schemas_spec : SchemaValidatorSpec.
Proof. by split. Qed.


(** [Put prod/a = 1; Delete prod/a] in one transaction. *)
Definition txn_put_delete : KVTxnInput :=
  mkKVTxnInput []
    [mkKVOp KVOpPut None (Some (mkKVPutOp (str "prod") (str "/a") (str "1"))) None None;
     mkKVOp KVOpDeleteRange None None
       (Some (mkKVDeleteRangeOp (str "prod") (str "/a") [] [] false)) None] [].



