(* ===== verification/TxnRefine.v ===== *)
(** * Transactions refine the key-value machine

    The machine of EtcdSpec.v extended with guarded transactions: evaluate the
    guard on the state, run the operations of one branch in order.  Txn of the
    use case, with everything below it down to the buckets, is a step of it. *)

From S2P Require Import Prelude.
From S2P Require Import Bolt.
From S2P Require Import Keys.
From S2P Require Import Domain.
From S2P Require Import Concrete.
From S2P Require Import Manager.
From S2P Require Import ConfigRepo.
From S2P Require Import ConfigReads.
From S2P Require Import EtcdRepo.
From S2P Require Import Repository.
From S2P Require Import Effects.
From S2P Require Import Store.
From S2P Require Import EtcdSpec.
From S2P Require Import ListSpec.
From S2P Require Import ConfigKV.
From S2P Require Import TxnSpec.
From stdpp Require Import base list gmap strings.
From Stdlib Require Import Ascii ZArith Lia.
Open Scope Z_scope.

(** ** The machine's transactions *)

(** What a condition asks of an entry, or of its absence (all numbers zero and no
    content): how the field stands to the wanted value in its order. *)
Definition field_order (cmp : KVCompare) (kv : option KVPair) : option comparison :=
  let num (f : KVPair -> Z) := Some (Z.compare (from_option f 0 kv) (cmp_WantRevision cmp)) in
  match cmp_Target cmp with
  | KVCompareVersion => num kv_Version
  | KVCompareCreateRevision => num kv_CreateRevision
  | KVCompareModRevision => num kv_ModRevision
  | KVCompareValue => Some (bytes_compare (default [] (kv ≫= kv_Value)) (cmp_WantValue cmp))
  | KVCompareTarget_unknown => None
  end.

Definition agrees (r : KVCompareResult) (c : comparison) : bool :=
  match r, c with
  | KVCompareEqual, Eq | KVCompareGreater, Gt | KVCompareLess, Lt
  | KVCompareNotEqual, Gt | KVCompareNotEqual, Lt => true
  | _, _ => false
  end.

Definition satisfied (cmp : KVCompare) (kv : option KVPair) : bool :=
  match field_order cmp kv with Some c => agrees (cmp_Result cmp) c | None => false end.

Lemma compareInt64_agrees r a b : Service.compareInt64 r a b = agrees r (Z.compare a b).
Proof.
  destruct r; cbn; try done; destruct (Z.compare_spec a b);
    repeat match goal with |- context [?x =? ?y] => destruct (Z.eqb_spec x y) | |- context [?x <? ?y] => destruct (Z.ltb_spec x y) end;
    done || lia.
Qed.

Lemma compareKV_satisfied cmp kv : Service.compareKV cmp kv = satisfied cmp kv.
Proof.
  unfold Service.compareKV, satisfied, field_order.
  destruct (cmp_Target cmp), kv; rewrite ?compareInt64_agrees; try done;
    unfold Service.compareBytes; cbn; by destruct (cmp_Result cmp), (bytes_compare _ _).
Qed.

(** A condition holds of every key of its range, or of absence if there is none. *)
Definition spec_compare (st : kvstate) (cmp : KVCompare) : bool :=
  let rp := buildRangeParams (cmp_StartNS cmp) (cmp_StartPath cmp) (cmp_EndNS cmp) (cmp_EndPath cmp) in
  let m := filter (fun kv => range_of rp kv.1) (kv_map st) in
  if decide (m = ∅) then satisfied cmp None
  else bool_decide (map_Forall (fun key e => satisfied cmp (Some (entry_kv key e)) = true) m).

Definition spec_guard (st : kvstate) (i : KVTxnInput) : bool := forallb (spec_compare st) (in_Compare i).

Definition spec_op (txn : KVTxnInput -> kvstate -> kvstate) (op : KVOp) (st : kvstate) : kvstate :=
  match op_Kind op with
  | KVOpPut =>
      match op_Put op with
      | Some o => spec_put (pop_Namespace o, pop_Path o) (pop_Value o) st
      | None => st
      end
  | KVOpDeleteRange =>
      match op_DeleteRange op with
      | Some o => spec_delete (range_of (buildRangeParams (dop_StartNS o) (dop_StartPath o)
                                           (dop_EndNS o) (dop_EndPath o))) st
      | None => st
      end
  | KVOpTxn => match op_Txn op with Some i => txn i st | None => st end
  | KVOpRange | KVOpKind_unknown => st
  end.

Fixpoint spec_txn (i : KVTxnInput) (st : kvstate) : kvstate :=
  let 'mkKVTxnInput compare success failure := i in
  foldl (fun st op => spec_op spec_txn op st) st
    (if forallb (spec_compare st) compare then success else failure).

(** The writes a transaction has at most, and that its puts name storable keys. *)
Definition sumZ (l : list Z) : Z := foldr Z.add 0 l.

Definition op_writes (rec : KVTxnInput -> Z) (op : KVOp) : Z :=
  match op_Kind op with
  | KVOpPut | KVOpDeleteRange => 1
  | KVOpTxn => match op_Txn op with Some i => rec i | None => 0 end
  | KVOpRange | KVOpKind_unknown => 0
  end.

Fixpoint txn_writes (i : KVTxnInput) : Z :=
  let 'mkKVTxnInput _ success failure := i in
  sumZ (map (op_writes txn_writes) success) + sumZ (map (op_writes txn_writes) failure).

Definition op_names (rec : KVTxnInput -> bool) (op : KVOp) : bool :=
  match op_Kind op with
  | KVOpPut =>
      match op_Put op with
      | Some o => bool_decide (name_ok (pop_Namespace o) /\ name_ok (pop_Path o))
      | None => true
      end
  | KVOpTxn => match op_Txn op with Some i => rec i | None => true end
  | _ => true
  end.

Fixpoint txn_names (i : KVTxnInput) : bool :=
  let 'mkKVTxnInput _ success failure := i in
  forallb (op_names txn_names) success && forallb (op_names txn_names) failure.

(** ** Steps inside a transaction *)

Section steps.
Context `{BoltSpec} `{Disk} `{CodecsSpec} `{ClockSpec}.

(** The open transaction [h] holds a store that refines [st]. *)
Definition stands (h : nat) (w : World) (st : kvstate) : Prop :=
  exists db, w_txs w !! h = Some (mkTx _ true TxOpen db) /\ store_inv (view db) /\ refines (view db) st.

(** A program that, when it returns [a], has taken the transaction's store from
    [st] to some [st'] with [R st a st'], in at most [n] revisions. *)
Definition steps {A} (h : nat) (n : Z) (m : App A) (R : kvstate -> A -> kvstate -> Prop) : Prop :=
  forall w st a w', stands h w st -> kv_rev st + n < two63 -> m w = (Ok a, w') ->
    exists st', stands h w' st' /\ R st a st' /\ kv_rev st <= kv_rev st' <= kv_rev st + n.

Lemma stands_rev h w st : stands h w st -> 0 <= kv_rev st < two63.
Proof. intros (db & _ & Hi & Hr). rewrite (ref_rev _ _ Hr). apply Hi. Qed.

Lemma steps_ret {A} h (a : A) (R : kvstate -> A -> kvstate -> Prop) :
  (forall st, R st a st) -> steps h 0 (mret a) R.
Proof. intros HR w st x w' Hst _ [= <- <-]. exists st. split; [done|]. split; [done|lia]. Qed.

Lemma steps_bind {A B} h n k (m : App A) (f : A -> App B) R1 R2 R :
  0 <= n -> 0 <= k -> steps h n m R1 -> (forall a, steps h k (f a) (R2 a)) ->
  (forall st a st1 b st', R1 st a st1 -> R2 a st1 b st' ->
     0 <= kv_rev st /\ kv_rev st <= kv_rev st1 <= kv_rev st + n -> R st b st') ->
  steps h (n + k) (m ≫= f) R.
Proof.
  intros Hn Hk Hm Hf HR w st b w' Hst Hb (a & w1 & Ha & Hfa)%appbind_Ok.
  destruct (Hm w st a w1) as (st1 & Hst1 & HR1 & Hrev1); [done|lia|done|].
  destruct (Hf a w1 st1 b w') as (st' & Hst' & HR2 & Hrev2); [done|lia|done|].
  pose proof (stands_rev h w st Hst). exists st'. split; [done|].
  split; [eapply HR; [done|done|lia]|lia].
Qed.

Lemma steps_wrap {A} h n fmt args (m : App A) R : steps h n m R -> steps h n (wrapA fmt args m) R.
Proof. intros Hm w st a w' Hst Hb Hr%wrapA_Ok. by eapply Hm. Qed.

Lemma steps_mono {A} h n (m : App A) (R R' : kvstate -> A -> kvstate -> Prop) :
  (forall st a st', R st a st' -> R' st a st') -> steps h n m R -> steps h n m R'.
Proof. intros HR Hm w st a w' Hst Hb Hr. destruct (Hm w st a w') as (st'&?&?&?); eauto. Qed.

Lemma steps_never {A} h (m : App A) R : (forall w, ~ is_Ok (m w).1) -> steps h 0 m R.
Proof. intros Hm w st a w' _ _ Hr. destruct (Hm w). rewrite Hr. by exists a. Qed.

Lemma steps_le {A} h n k (m : App A) R : n <= k -> steps h n m R -> steps h k m R.
Proof.
  intros Hle Hm w st a w' Hst Hb Hr. destruct (Hm w st a w') as (st'&?&?&?); [done|lia|done|].
  exists st'. split; [done|]. split; [done|lia].
Qed.

(** A program that leaves the transactions alone keeps its store. *)
Lemma steps_same {A} h (m : App A) :
  (forall w, in_tx true h w -> w_txs (m w).2 = w_txs w) -> steps h 0 m (fun st _ st' => st' = st).
Proof.
  intros Hm w st a w' (db & Hh & Hi & Hr) _ E. exists st.
  assert (Hin : in_tx true h w) by by exists db. specialize (Hm w Hin). rewrite E in Hm. simpl in Hm.
  split; [exists db; by rewrite Hm|]. split; [done|lia].
Qed.

(** The same for one that always returns the same value. *)
Lemma steps_same' {A} h (m : App A) a :
  (forall w, (m w).1 = Ok a /\ w_txs (m w).2 = w_txs w) ->
  steps h 0 m (fun st x st' => st' = st /\ x = a).
Proof.
  intros Hm w st x w' (db & Hh & Hi & Hr) _ E. exists st. specialize (Hm w). rewrite E in Hm.
  simpl in Hm. destruct Hm as [[= ->] Ht]. split; [exists db; by rewrite Ht|]. split; [done|lia].
Qed.

Lemma pending_add_all_eval p fns w :
  exists ps, pending_add_all p fns w = (Ok tt, set_pending ps w).
Proof.
  revert w. induction fns as [|fn fns IH]; intros w; simpl.
  - exists (w_pending w). by destruct w.
  - unfold mbind, App_bind. simpl. destruct (IH (pending_add p fn w).2) as [ps Hps].
    exists ps. exact Hps.
Qed.

(** Repository code inside the transaction, as a step of its store. *)
Lemma steps_code {A} h n ctx (code : TxM A) wr fmt (R : kvstate -> A -> kvstate -> Prop) :
  ctx_tx ctx = Some h ->
  (forall s a s' st, store_inv (view (ts_db s)) -> refines (view (ts_db s)) st ->
     kv_rev st + n < two63 -> code (QTx true) s = (Ok a, s') ->
     exists st', store_inv (view (ts_db s')) /\ refines (view (ts_db s')) st' /\ R st a st' /\
                 kv_rev st <= kv_rev st' <= kv_rev st + n) ->
  steps h n (if wr : bool then Repository.write fmt ctx code else Repository.read fmt ctx code) R.
Proof.
  intros Hc Hcode w st a w' (db & Hh & Hi & Hr) Hb E.
  assert (Eg : GetQuerier ctx code w = (Ok a, w')).
  { destruct wr; apply wrapA_Ok in E.
    - rewrite (WithTx_in h) in E; [done|done|by exists db].
    - unfold WithReadTx, TxFromContext in E. by rewrite Hc in E. }
  rewrite (GetQuerier_in true h ctx code w db Hc Hh) in Eg.
  destruct (code _ _) as [r s] eqn:Es. injection Eg as -> <-.
  destruct (Hcode (mkTS db (w_tick w)) a s st) as (st' & ? & ? & ? & ?); [done..|].
  exists st'. split; [|done]. exists (ts_db s). split; [|done]. simpl.
  apply list_lookup_insert_eq. by apply lookup_lt_Some in Hh.
Qed.

(** ** The operations of the repository *)

Definition put_step (ns path value : bytes) (st : kvstate) (r : option KVPair * Z) (st' : kvstate) : Prop :=
  st' = spec_put (ns, path) value st /\ r = (entry_kv (ns, path) <$> kv_map st !! (ns, path), kv_rev st').

Lemma PutKey_steps h ctx ns path value :
  ctx_tx ctx = Some h -> name_ok ns -> name_ok path ->
  steps h 1 (Repository.PutKey ctx ns path value) (put_step ns path value).
Proof.
  intros Hc Hn Hp. apply (steps_code h 1 ctx _ true); [done|].
  intros s [prev rev] s' st Hi Hr Hb E. pose proof (ref_rev _ _ Hr) as Er. rewrite Er in Hb.
  pose proof E as Hput. eapply inv_put in E as [Hi' _]; [|done..].
  eapply put_refines in Hput as (-> & -> & Hr'); [|done..].
  exists (spec_put (ns, path) value st). split; [done|]. split; [done|].
  split; [done|]. unfold spec_put. simpl. lia.
Qed.

Definition delete_step (rp : rangeParams) (st : kvstate) (r : list KVPair * Z) (st' : kvstate) : Prop :=
  st' = spec_delete (range_of rp) st /\
  (r.2 = 0 /\ st' = st \/ r.2 = kv_rev st' /\ kv_rev st' = kv_rev st + 1).

Lemma DeleteRangeKeys_steps h ctx sn sp en ep prev :
  ctx_tx ctx = Some h ->
  steps h 1 (Repository.DeleteRangeKeys ctx sn sp en ep prev)
    (delete_step (buildRangeParams sn sp en ep)).
Proof.
  intros Hc. apply (steps_code h 1 ctx _ true); [done|].
  intros s [kvs rev] s' st Hi Hr Hb E. pose proof (ref_rev _ _ Hr) as Er. rewrite Er in Hb.
  pose proof E as Hdel. eapply inv_delete_range in E as [Hi' _]; [|done..].
  eapply delete_refines in Hdel as (_ & Hnil & Hz & Hnz & Hr'); [|done..].
  exists (spec_delete (range_of (buildRangeParams sn sp en ep)) st).
  split; [done|]. split; [done|]. unfold delete_step, spec_delete in *. simpl. case_decide as D.
  - apply Hnil in D as ->. split; [|lia]. split; [done|]. left. auto.
  - destruct kvs as [|kv kvs]; [by destruct D; apply Hnil|]. simpl. split; [|lia].
    split; [done|]. right. split; [by apply Hnz|done].
Qed.

Lemma CurrentRevision_steps h ctx :
  ctx_tx ctx = Some h ->
  steps h 0 (Repository.CurrentRevisionValue ctx) (fun st r st' => st' = st /\ r = kv_rev st).
Proof.
  intros Hc. apply (steps_code h 0 ctx _ false); [done|].
  intros s r s' st Hi Hr Hb. unfold currentRevisionTx.
  rewrite (bind_eval _ _ _ _ _ _ (bucket_Get_eval _ _ _ s)). intros [= <- <-].
  exists st. split; [done|]. split; [done|]. split; [|lia]. split; [done|].
  rewrite (ref_rev _ _ Hr). unfold cur_rev, counter. by destruct (view _ !! _).
Qed.

(** A range read changes nothing, at any revision. *)
Lemma rangeLoop_reads rp limit revision keysOnly l acc w s :
  (rangeLoop rp limit revision keysOnly l acc (QTx w) s).2 = s.
Proof.
  revert acc. induction l as [|[k d] l IH]; intros acc; [done|]. simpl.
  destruct (shouldBreakRange k rp); [done|]. destruct (bbolt.JSONCodec_Unmarshal d) as [e|m]; [done|].
  destruct (parseConfigKey k) as [ns path].
  assert (Hread : exists r, readKVValue k ns path m revision keysOnly (QTx w) s = (Ok r, s)).
  { unfold readKVValue. destruct keysOnly; [by eexists|]. destruct (_ && _).
    - unfold lookupHistoryAtRevision. erewrite bind_eval; [|erewrite bind_eval; [done|apply bucket_Cursor_eval]].
      by destruct (cur_kv _) as [[k' v']|]; [destruct (negb _)|]; eexists.
    - rewrite (bind_eval _ _ _ _ _ _ (bucket_Get_eval _ _ _ s)). by eexists. }
  destruct Hread as [r Hread]. rewrite (bind_eval _ _ _ _ _ _ Hread).
  destruct r as [[v rev]|]; [|apply IH]. destruct (_ && _); [done|apply IH].
Qed.

Lemma rangeQueryTx_reads sn sp en ep limit revision keysOnly w s :
  (rangeQueryTx sn sp en ep limit revision keysOnly (QTx w) s).2 = s.
Proof.
  unfold rangeQueryTx. rewrite (bind_eval _ _ _ _ _ _ (bucket_Cursor_eval _ w s)). apply rangeLoop_reads.
Qed.

Lemma RangeQuery_steps h ctx sn sp en ep limit revision keysOnly :
  ctx_tx ctx = Some h ->
  steps h 0 (Repository.RangeQuery ctx sn sp en ep limit revision keysOnly) (fun st _ st' => st' = st).
Proof.
  intros Hc. apply (steps_code h 0 ctx _ false); [done|].
  intros s r s' st Hi Hr Hb E. apply (f_equal snd) in E. rewrite rangeQueryTx_reads in E.
  simpl in E. subst s'. exists st. split; [done|]. split; [done|]. split; [done|lia].
Qed.

(** At the current revision it returns the entries of the range. *)
Lemma current_entries db st rp kvs kv :
  let v := view db in
  store_inv v -> refines v st -> Forall2 (current_row v false) (range_rows db rp) kvs ->
  kv ∈ kvs <-> exists key e, kv_map st !! key = Some e /\ range_of rp key /\ kv = entry_kv key e.
Proof.
  intros v Hinv Hst Hall. subst v. split.
  - intros [j Hj]%list_elem_of_lookup.
    destruct (Forall2_lookup_r _ _ _ _ _ Hall Hj) as ([k d] & Hk & m & Hm & ->).
    apply list_elem_of_lookup_2 in Hk. pose proof Hk as [_ Hd]%range_rows_elem.
    destruct (inv_key _ Hinv k) as (ns & path & Hn & Hp & _ & _ & ->); [by eexists|].
    destruct (row_entry db st rp ns path d) as (m' & c & Hm' & Hc & Hr & He); [done..|].
    exists (ns, path), (mkEntry c (m_CreateRevision m) (m_Revision m) (m_Version m)).
    simpl in Hm. rewrite Hm in Hm'. injection Hm' as <-. split; [done|]. split; [done|].
    unfold current_kv, entry_kv. simpl. rewrite parseConfigKey_configKey by done. by rewrite Hc.
  - intros ([ns path] & e & He & Hr & ->).
    destruct (entry_row db st rp ns path e) as (Hn & Hp & d & Hd); [done..|].
    destruct (row_entry db st rp ns path d) as (m & c & Hm & Hc & _ & He'); [done..|].
    rewrite He in He'. injection He' as ->. apply list_elem_of_lookup in Hd as [j Hj].
    destruct (Forall2_lookup_l _ _ _ _ _ Hall Hj) as (x & Hx & m' & Hm' & ->). simpl in Hm'.
    rewrite Hm in Hm'. injection Hm' as <-. apply list_elem_of_lookup_2 in Hx.
    unfold current_kv, entry_kv in *. simpl in *. rewrite parseConfigKey_configKey in Hx by done.
    by rewrite Hc in Hx.
Qed.

Definition compare_range (cmp : KVCompare) : rangeParams :=
  buildRangeParams (cmp_StartNS cmp) (cmp_StartPath cmp) (cmp_EndNS cmp) (cmp_EndPath cmp).

Lemma compare_entries db st cmp kvs :
  let v := view db in
  store_inv v -> refines v st ->
  Forall2 (current_row v false) (range_rows db (compare_range cmp)) kvs ->
  match kvs with
  | [] => Service.compareKV cmp None
  | _ :: _ => forallb (fun kv => Service.compareKV cmp (Some kv)) kvs
  end = spec_compare st cmp.
Proof.
  intros v Hinv Hst Hall. unfold spec_compare. fold (compare_range cmp). case_decide as D.
  - rewrite (range_rows_nil db st) in D by done. rewrite D in Hall.
    apply Forall2_nil_inv_l in Hall as ->. apply compareKV_satisfied.
  - destruct kvs as [|kv kvs0] eqn:Ek.
    { apply Forall2_nil_inv_r in Hall. by destruct D; apply (range_rows_nil db). }
    rewrite <- Ek in *. clear kv kvs0 Ek. apply eq_true_iff_eq.
    rewrite bool_decide_eq_true, forallb_forall. split.
    + intros Hf key e [He Hr]%map_lookup_filter_Some. rewrite <- compareKV_satisfied. apply Hf, list_elem_of_In.
      apply (current_entries db st (compare_range cmp)); eauto.
    + intros Hf kv Hin%list_elem_of_In. apply (current_entries db st (compare_range cmp)) in Hin as
        (key & e & He & Hr & ->); [|done..]. rewrite compareKV_satisfied. apply Hf. by apply map_lookup_filter_Some.
Qed.

Lemma compare_code_steps h ctx cmp :
  ctx_tx ctx = Some h ->
  steps h 0 (Repository.RangeQuery ctx (cmp_StartNS cmp) (cmp_StartPath cmp) (cmp_EndNS cmp)
               (cmp_EndPath cmp) 0 0 false)
    (fun st r st' => st' = st /\
       match r.1 with
       | [] => Service.compareKV cmp None
       | _ :: _ => forallb (fun kv => Service.compareKV cmp (Some kv)) r.1
       end = spec_compare st cmp).
Proof.
  intros Hc. apply (steps_code h 0 ctx _ false); [done|].
  intros s r s' st Hi Hr Hb E.
  destruct (rangeQueryTx_current (cmp_StartNS cmp) (cmp_StartPath cmp) (cmp_EndNS cmp)
              (cmp_EndPath cmp) 0 0 false true s Hi) as (xs & more & Hxs & Hx & _); [lia|].
  rewrite Hx in E. injection E as <- <-. exists st. split; [done|]. split; [done|].
  split; [|lia]. split; [done|]. simpl. by apply (compare_entries (ts_db s)).
Qed.
End steps.

(** ** The operations of the use case *)

Section service.
Context `{BoltSpec} `{Disk} `{CodecsSpec} `{ClockSpec} `{GoSort} `{UnicodeLower}.
Context `{!SchemaValidator} `{!SchemaValidatorSpec}.

Lemma boundary_steps {A} h p n fmt ctx (body : nat -> Context_ -> App A) R :
  ctx_tx ctx = Some h -> ctx_pending ctx = Some p ->
  steps h n (body p ctx) R -> steps h n (boundary fmt ctx body) R.
Proof.
  intros Hc Hp Hb w st a w' Hst Hn E. rewrite (boundary_in fmt ctx h p) in E;
    [|done|done|destruct Hst as (db & ? & _); by exists db].
  by eapply (steps_wrap h n _ _ _ R (steps_wrap h n _ _ _ R Hb)).
Qed.

Lemma Validate_steps h ctx ns path c f :
  ctx_tx ctx = Some h -> steps h 0 (Validate ctx ns path c f) (fun st _ st' => st' = st).
Proof. intros Hc. apply steps_same. intros w Hw. by apply (Validate_in true h). Qed.

Lemma put_body_steps h p ctx ns path value :
  ctx_tx ctx = Some h -> name_ok ns -> name_ok path ->
  steps h 1 (put_body ns path value p ctx) (put_step ns path value).
Proof.
  intros Hc Hn Hpa.
  apply (steps_bind h 1 0 _ _ (put_step ns path value) (fun r st a st' => st' = st /\ a = r));
    [lia|lia|by apply steps_wrap, PutKey_steps| |].
  - intros [prev rev]. apply steps_same'. done.
  - intros st a st1 b st' Hs [-> ->] _. done.
Qed.

Lemma Service_PutKey_steps h p ctx ns path value :
  ctx_tx ctx = Some h -> ctx_pending ctx = Some p -> name_ok ns -> name_ok path ->
  steps h 1 (Service.PutKey ctx ns path value) (put_step ns path value).
Proof.
  intros Hc Hp Hn Hpa. rewrite PutKey_boundary.
  apply (steps_bind h 0 1 _ _ (fun st _ st' => st' = st) (fun _ => put_step ns path value));
    [lia|lia|by apply steps_wrap, Validate_steps| |].
  - intros _. apply (boundary_steps h p); [done|done|]. by apply put_body_steps.
  - intros st a st1 b st' -> Hs _. done.
Qed.

(** A put at top level is a step of the machine on the committed store. *)
Lemma Service_PutKey_top ctx ns path value w st prev rev w' :
  let v := view (w_db w) in
  ctx_tx ctx = None -> ctx_pending ctx = None -> busy w = false -> (forall n, begin_fault n = None) ->
  store_inv v -> refines v st -> kv_rev st + 1 < two63 -> name_ok ns -> name_ok path ->
  Service.PutKey ctx ns path value w = (Ok (prev, rev), w') ->
  store_inv (view (w_db w')) /\ busy w' = false /\
  exists st', refines (view (w_db w')) st' /\ put_step ns path value st (prev, rev) st'.
Proof.
  intros v Hc Hp Hb Hf Hinv Href Hmax Hn Hpa Hr. rewrite PutKey_boundary in Hr.
  apply appbind_Ok in Hr as ([] & w1 & Hv%wrapA_Ok & Hr).
  destruct (Validate_top ctx ns path value (DetectFormatFromPath path) w Hc) as (Edb & _ & _ & Eb).
  rewrite Hv in Edb, Eb. cbn [snd] in Edb, Eb.
  apply (boundary_top _ ctx w1 (put_body ns path value) (fun _ _ => True)) in Hr as (Hok & _ & Hbusy);
    [|done|done|split; [by rewrite Eb|apply Hf]|].
  - destruct (Hok (prev, rev) eq_refl) as (evs & _ & _ & _ & w2 & Hrun & Hh).
    edestruct (put_body_steps (length (w_txs w1)) (length (w_pending w1)) (body_ctx ctx w1) ns path value)
      as (st' & (db & Hdb & Hinv' & Href') & Hs & _); [done|done|done| |exact Hmax|exact Hrun|].
    { exists (w_db w1). split; [simpl; by rewrite lookup_app_last|]. by rewrite Edb. }
    rewrite Hh in Hdb. injection Hdb as <-. split; [done|]. split; [by apply Hbusy|]. eauto.
  - eapply collects_mono; [done|]. by apply (put_body_collects _ _ _ (mkKVPutOp ns path value)).
Qed.

Lemma Service_DeleteRangeKeys_steps h p ctx sn sp en ep rp :
  ctx_tx ctx = Some h -> ctx_pending ctx = Some p ->
  steps h 1 (Service.DeleteRangeKeys ctx sn sp en ep rp) (delete_step (buildRangeParams sn sp en ep)).
Proof.
  intros Hc Hp. rewrite DeleteRangeKeys_boundary. apply (boundary_steps h p); [done|done|].
  apply (steps_bind h 1 0 _ _ (delete_step (buildRangeParams sn sp en ep))
           (fun r st a st' => st' = st /\ a = r));
    [lia|lia|by apply steps_wrap, DeleteRangeKeys_steps| |].
  - intros [d rev]. apply steps_same'.
    intros w. unfold mbind, App_bind. destruct (pending_add_all_eval p ((fun kv => NotifyDeleted (kv_Path kv) (kv_Namespace kv) rev) <$> d) w)
      as [ps ->]. done.
  - intros st a st1 b st' Hs [-> ->] _. done.
Qed.

Lemma Service_RangeQuery_steps h ctx sn sp en ep opts :
  ctx_tx ctx = Some h ->
  steps h 0 (Service.RangeQuery ctx sn sp en ep opts)
    (fun st r st' => st' = st /\ r.1.2 = kv_rev st).
Proof.
  intros Hc. apply (steps_bind h 0 0 _ _ (fun st _ st' => st' = st)
                      (fun _ st r st' => st' = st /\ r.1.2 = kv_rev st)); [lia|lia| | |].
  - by apply steps_wrap, RangeQuery_steps.
  - intros [kvs more]. apply (steps_bind h 0 0 _ _ (fun st r st' => st' = st /\ r = kv_rev st)
                      (fun rev st r st' => st' = st /\ r.1.2 = rev)); [lia|lia| | |].
    + by apply steps_wrap, CurrentRevision_steps.
    + intros rev. by apply steps_ret.
    + intros st a st1 b st' [-> ->] [-> ->] _. done.
  - intros st a st1 b st' -> Hs _. done.
Qed.

Lemma evalCompares_steps h ctx cs :
  ctx_tx ctx = Some h ->
  steps h 0 (Service.evalCompares ctx cs)
    (fun st ok st' => st' = st /\ ok = forallb (spec_compare st) cs).
Proof.
  intros Hc. induction cs as [|cmp cs IH]; simpl; [by apply steps_ret|].
  apply (steps_bind h 0 0 _ _ (fun st ok st' => st' = st /\ ok = spec_compare st cmp)
    (fun a st ok st' => st' = st /\ ok = a && forallb (spec_compare st) cs)); [lia|lia| | |].
  - unfold Service.evalCompare.
    eapply (steps_bind h 0 0 _ _ _ (fun r st ok st' => st' = st /\ ok =
       match r.1 with
       | [] => Service.compareKV cmp None
       | _ :: _ => forallb (fun kv => Service.compareKV cmp (Some kv)) r.1
       end)); [lia|lia|by apply steps_wrap, steps_wrap, compare_code_steps| |].
    + intros [kvs more]. by apply steps_ret.
    + intros st a st1 b st' [-> <-] [-> ->] _. done.
  - intros [|]; [exact IH|]. by apply steps_ret.
  - intros st a st1 b st' [-> ->] [-> ->] _. done.
Qed.

(** ** Branches and transactions *)

(** A read response carries the revision [r]. *)
Definition resp_at (r : Z) (res : KVOpResult) : Prop :=
  match res_Kind res with
  | KVOpRange => forall x, res_Range res = Some x -> rr_Revision x = r
  | KVOpTxn => forall t, res_Txn res = Some t -> txr_Revision t = r
  | _ => True
  end.

(** What an operation reports: a revision it moved the store to, or 0. *)
Definition op_step (op : KVOp) (st : kvstate) (r : KVOpResult * Z) (st' : kvstate) : Prop :=
  st' = spec_op spec_txn op st /\
  (r.2 = 0 /\ kv_rev st' = kv_rev st /\ resp_at (kv_rev st) r.1 \/ r.2 = kv_rev st' /\ 0 < r.2).

Definition txn_step (i : KVTxnInput) (st : kvstate) (r : KVTxnResult) (st' : kvstate) : Prop :=
  st' = spec_txn i st /\ txr_Succeeded r = spec_guard st i /\ txr_Revision r = kv_rev st'.

(** The revision collected so far, from a branch that started at revision [r0]. *)
Definition collected (r0 : Z) (st : kvstate) (rs : list KVOpResult) (last : Z) : Prop :=
  kv_rev st < two63 /\ 0 <= r0 <= kv_rev st /\
  (last <> 0 -> last = kv_rev st) /\ (last = 0 -> kv_rev st = r0 /\ Forall (resp_at r0) rs).

Lemma collected_snoc r0 st rs last op r st' :
  collected r0 st rs last -> op_step op st r st' -> kv_rev st <= kv_rev st' < two63 ->
  collected r0 st' (rs ++ [r.1]) (if last <? r.2 then r.2 else last).
Proof.
  intros (Hb & H0' & Hnz & Hz) (_ & Hr) Hle. unfold collected.
  assert (Hlast : 0 <= last <= kv_rev st) by (destruct (decide (last = 0)); [lia|rewrite Hnz; lia]).
  split; [lia|]. split; [lia|]. destruct Hr as [(E & Est & Hresp)|(E & Hpos)].
  - rewrite E. destruct (Z.ltb_spec last 0); [lia|]. split; [intros Hl; rewrite Hnz; lia|].
    intros El. destruct (Hz El) as [Er Hrs]. split; [lia|]. apply Forall_app. split; [done|].
    constructor; [by rewrite <- Er|done].
  - destruct (Z.ltb_spec last r.2); split; lia.
Qed.

Lemma op_writes_nonneg i : 0 <= txn_writes i.
Proof.
  induction i as [c s f Hs Hf] using KVTxnInput_nested_ind. simpl.
  assert (Hops : forall ops, Forall (on_nested (fun i => 0 <= txn_writes i)) ops ->
            0 <= sumZ (map (op_writes txn_writes) ops)).
  { intros ops. induction 1 as [|op ops Hop _ IH]; simpl; [lia|].
    assert (0 <= op_writes txn_writes op); [|lia].
    unfold op_writes, on_nested in *. destruct (op_Kind op), (op_Txn op); lia. }
  specialize (Hops s Hs) as Hs'. specialize (Hops f Hf). lia.
Qed.

Lemma sum_writes_nonneg ops : 0 <= sumZ (map (op_writes txn_writes) ops).
Proof.
  induction ops as [|op ops IH]; simpl; [lia|]. assert (0 <= op_writes txn_writes op); [|lia].
  unfold op_writes. destruct (op_Kind op), (op_Txn op) as [i|]; try lia; apply op_writes_nonneg.
Qed.

Section body.
Context (h p : nat) (ctx : Context_).
Context (Hc : ctx_tx ctx = Some h) (Hp : ctx_pending ctx = Some p).

Definition nested_ok (i : KVTxnInput) : Prop :=
  txn_names i = true -> steps h (txn_writes i) (Service.Txn ctx i) (txn_step i).

Lemma runOp_steps op :
  on_nested nested_ok op -> op_names txn_names op = true ->
  steps h (op_writes txn_writes op) (Service.runOp Service.Txn ctx op) (op_step op).
Proof.
  unfold Service.runOp, op_names, op_writes, op_step, spec_op, on_nested.
  destruct (op_Kind op) eqn:Ek; intros Hn Hnm.
  - by apply steps_never; intros w [? [=]].
  - unfold Service.runRangeOp. destruct (op_Range op) as [o|]; [|by apply steps_never; intros w [? [=]]].
    apply (steps_bind h 0 0 _ _ (fun st r st' => st' = st /\ r.1.2 = kv_rev st)
      (fun a st r st' => st' = st /\ r.2 = 0 /\ resp_at a.1.2 r.1)); [lia|lia| | |].
    + by apply steps_wrap, Service_RangeQuery_steps.
    + intros [[kvs rev] more]. apply steps_ret. intros st. split; [done|]. split; [done|].
      intros x [= <-]. done.
    + intros st a st1 b st' [-> E] (-> & Hb & Hr) _. split; [done|]. left. split; [done|].
      split; [done|]. by rewrite <- E.
  - unfold Service.runPutOp. destruct (op_Put op) as [o|].
    2:{ apply (steps_le h 0); [lia|]. by apply steps_never; intros w [? [=]]. }
    apply bool_decide_eq_true in Hnm as [? ?].
    apply (steps_bind h 1 0 _ _ (put_step (pop_Namespace o) (pop_Path o) (pop_Value o))
      (fun a st r st' => st' = st /\ r.2 = a.2)); [lia|lia| | |].
    + apply steps_wrap. by apply (Service_PutKey_steps h p).
    + intros [prev rev]. by apply steps_ret.
    + intros st a st1 b st' [-> ->] [-> ->] Hle. split; [done|]. right. simpl in *. split; [done|lia].
  - unfold Service.runDeleteRangeOp. destruct (op_DeleteRange op) as [o|].
    2:{ apply (steps_le h 0); [lia|]. by apply steps_never; intros w [? [=]]. }
    apply (steps_bind h 1 0 _ _ (delete_step (buildRangeParams (dop_StartNS o) (dop_StartPath o)
             (dop_EndNS o) (dop_EndPath o)))
      (fun a st r st' => st' = st /\ r.2 = a.2 /\ forall rv, resp_at rv r.1)); [lia|lia| | |].
    + apply steps_wrap. by apply (Service_DeleteRangeKeys_steps h p).
    + intros [d rev]. by apply steps_ret.
    + intros st a st1 b st' [E Hd] (-> & Eb & Hresp) Hle. split; [done|]. rewrite Eb.
      destruct Hd as [[-> ->]|[-> Hr]]; [by left|]. right. split; [done|lia].
  - unfold Service.runNestedTxnOp. destruct (op_Txn op) as [i|]; [|by apply steps_never; intros w [? [=]]].
    rewrite <- (Z.add_0_r (txn_writes i)).
    apply (steps_bind h (txn_writes i) 0 _ _ (txn_step i)
      (fun a st r st' => st' = st /\ r.2 = txr_Revision a /\ forall rv, txr_Revision a = rv -> resp_at rv r.1));
      [apply op_writes_nonneg|lia| | |].
    + by apply steps_wrap, Hn.
    + intros r. apply steps_ret. intros st. split; [done|]. split; [done|].
      intros rv E t [= <-]. done.
    + intros st a st1 b st' (E & _ & Er) (-> & Eb & Hresp) Hle. split; [done|].
      destruct (decide (b.2 = 0)) as [Ez|Enz]; [|right; rewrite Eb in *; split; lia].
      left. split; [done|]. assert (kv_rev st1 = kv_rev st) by lia. split; [done|]. apply Hresp. lia.
Qed.

Lemma runOps_steps r0 ops rs last :
  Forall (on_nested nested_ok) ops -> forallb (op_names txn_names) ops = true ->
  steps h (sumZ (map (op_writes txn_writes) ops)) (Service.runOps Service.Txn ctx ops rs last)
    (fun st r st' => st' = foldl (fun st op => spec_op spec_txn op st) st ops /\
       (collected r0 st rs last -> collected r0 st' r.1 r.2)).
Proof.
  intros Hn. revert rs last. induction Hn as [|op ops Hop Hn IH]; intros rs last; simpl.
  { intros _. by apply steps_ret. }
  intros [Hn1 Hn2]%andb_true_iff w st a w' Hst Hb (x & w1 & Hx & Hr)%appbind_Ok.
  pose proof (sum_writes_nonneg ops) as Hpos.
  destruct (runOp_steps op Hop Hn1 w st x w1) as (st1 & Hst1 & Hs1 & Hle1); [done|lia|done|].
  destruct x as [res rev].
  destruct (IH (rs ++ [res]) (if last <? rev then rev else last) Hn2 w1 st1 a w')
    as (st' & Hst' & (E & Hcol) & Hle2); [done|lia|done|].
  exists st'. split; [done|]. split; [|lia]. destruct Hs1 as [Es1 Hrev1]. split; [by rewrite E, Es1|].
  intros Hc0. apply Hcol. apply (collected_snoc r0 st rs last op (res, rev)); [done|by split|].
  pose proof (stands_rev h w1 st1 Hst1). lia.
Qed.

Lemma revisionFromResponses_at r0 rs :
  Forall (resp_at r0) rs -> Service.revisionFromResponses rs = 0 \/ Service.revisionFromResponses rs = r0.
Proof.
  induction 1 as [|res rs Hr _ IH]; [by left|]. simpl. unfold resp_at in Hr.
  destruct (res_Kind res); [done| |done|done|].
  - destruct (res_Range res) as [x|]; [|done]. destruct (_ <? _); [right; by apply Hr|done].
  - destruct (res_Txn res) as [x|]; [|done]. destruct (_ <? _); [right; by apply Hr|done].
Qed.

Lemma runTxn_steps c s f :
  Forall (on_nested nested_ok) s -> Forall (on_nested nested_ok) f ->
  txn_names (mkKVTxnInput c s f) = true ->
  steps h (txn_writes (mkKVTxnInput c s f)) (Service.runTxn Service.Txn ctx (mkKVTxnInput c s f))
    (txn_step (mkKVTxnInput c s f)).
Proof.
  intros Hs Hf [Hns Hnf]%andb_true_iff w st res w' Hst Hb (ok & w1 & Hok & Hr)%appbind_Ok.
  pose proof (sum_writes_nonneg s) as Ps. pose proof (sum_writes_nonneg f) as Pf. simpl in Hb.
  destruct (evalCompares_steps h ctx c Hc w st ok w1) as (st1 & Hst1 & [-> ->] & _); [done|lia|done|].
  apply appbind_Ok in Hr as ([rs last] & w2 & Hops & Hr).
  set (ops := if forallb (spec_compare st) c then s else f) in *.
  destruct (runOps_steps (kv_rev st) ops [] 0) with (w := w1) (st := st) (a := (rs, last)) (w' := w2)
    as (st2 & Hst2 & [Est2 Hcol] & Hle2); try done.
  { by unfold ops; destruct (forallb _ c). }
  { by unfold ops; destruct (forallb _ c). }
  { unfold ops. destruct (forallb _ c); lia. }
  pose proof (stands_rev h w st Hst) as Hrev0. pose proof (stands_rev h w2 st2 Hst2) as Hrev2.
  destruct Hcol as (_ & _ & Hnz & Hz). { split; [lia|]. split; [lia|]. done. }
  simpl in Hnz, Hz. apply appbind_Ok in Hr as (rev & w3 & Hrev & [= <- <-]).
  assert (Hfin : stands h w3 st2 /\ rev = kv_rev st2).
  { set (last' := if last =? 0 then Service.revisionFromResponses rs else last) in Hrev.
    destruct (Z.eqb_spec last' 0) as [E|E].
    - apply wrapA_Ok in Hrev. destruct (CurrentRevision_steps h ctx Hc w2 st2 rev w3)
        as (st3 & Hst3 & [-> ->] & _); [done|lia|done|]. done.
    - injection Hrev as <- <-. split; [done|]. unfold last' in E |- *.
      destruct (Z.eqb_spec last 0) as [El|El]; [|by apply Hnz].
      destruct (Hz El) as [E2 Hrs]. destruct (revisionFromResponses_at _ _ Hrs); lia. }
  destruct Hfin as [Hst3 ->]. exists st2. split; [done|]. split.
  - split; [|done]. simpl. exact Est2.
  - simpl. unfold ops in Hle2. destruct (forallb _ c); lia.
Qed.
End body.

Lemma Txn_steps i : forall h p ctx,
  ctx_tx ctx = Some h -> ctx_pending ctx = Some p -> txn_names i = true ->
  steps h (txn_writes i) (Service.Txn ctx i) (txn_step i).
Proof.
  induction i as [c s f Hs Hf] using KVTxnInput_nested_ind. intros h p ctx Hc Hp Hn.
  assert (Hops : forall ops, Forall (on_nested (fun i => forall h p ctx, ctx_tx ctx = Some h ->
              ctx_pending ctx = Some p -> txn_names i = true ->
              steps h (txn_writes i) (Service.Txn ctx i) (txn_step i))) ops ->
            Forall (on_nested (nested_ok h ctx)) ops).
  { intros ops Ho. eapply Forall_impl; [done|]. intros op. unfold on_nested, nested_ok.
    destruct (op_Txn op); eauto. }
  assert (Hbody : steps h (txn_writes (mkKVTxnInput c s f))
            (Service.runTxn Service.Txn ctx (mkKVTxnInput c s f)) (txn_step (mkKVTxnInput c s f)))
    by (apply (runTxn_steps h p); auto).
  change (Service.Txn ctx (mkKVTxnInput c s f)) with
    (Service.txnBody Service.Txn ctx (mkKVTxnInput c s f)).
  unfold Service.txnBody. destruct (negb _); [done|].
  apply (boundary_steps h p _ "txn tx: %w" ctx
    (fun _ ctx => Service.runTxn Service.Txn ctx (mkKVTxnInput c s f))); auto.
Qed.

(** A writing transaction at top level is a step of the machine. *)
Lemma Txn_top_steps ctx i w st res w' :
  let v := view (w_db w) in
  ctx_tx ctx = None -> ctx_pending ctx = None -> idle w -> Service.hasWrites i = true ->
  store_inv v -> refines v st -> kv_rev st + txn_writes i < two63 -> txn_names i = true ->
  Service.Txn ctx i w = (Ok res, w') ->
  store_inv (view (w_db w')) /\ refines (view (w_db w')) (spec_txn i st) /\
  txr_Succeeded res = spec_guard st i /\ txr_Revision res = kv_rev (spec_txn i st).
Proof.
  intros v Hc Hp Hi Hw Hinv Href Hb Hn Hr. destruct i as [c s f].
  change (Service.Txn ctx (mkKVTxnInput c s f)) with
    (Service.txnBody Service.Txn ctx (mkKVTxnInput c s f)) in Hr.
  unfold Service.txnBody in Hr. rewrite Hw in Hr.
  apply (boundary_top "txn tx: %w" ctx w (fun _ ctx => Service.runTxn Service.Txn ctx (mkKVTxnInput c s f))
           (fun _ _ => True)) in Hr as (Hok & _); [|done..|].
  - destruct (Hok res eq_refl) as (evs & _ & _ & _ & w1 & Hrun & Hh).
    destruct (runTxn_steps (length (w_txs w)) (length (w_pending w)) (body_ctx ctx w)) with
      (c := c) (s := s) (f := f) (w := begun true (collecting w)) (st := st) (a := res) (w' := w1)
      as (st' & (db & Hdb & Hinv' & Href') & (-> & Hs & Hrev) & _); try done.
    { apply Forall_true. intros op. unfold on_nested. destruct (op_Txn op); [|done].
      intros Hnm. by eapply Txn_steps. }
    { apply Forall_true. intros op. unfold on_nested. destruct (op_Txn op); [|done].
      intros Hnm. by eapply Txn_steps. }
    { exists (w_db w). split; [|done]. simpl. by rewrite lookup_app_last. }
    rewrite Hh in Hdb. injection Hdb as <-. done.
  - eapply collects_mono; [done|]. apply (runTxn_collects Service.Txn); [done|done|..];
      apply Forall_true; intros op; unfold on_nested;
      destruct (op_Txn op); [by apply Txn_collects|done|by apply Txn_collects|done].
Qed.
End service.

(** ** Properties *)

(** C22: a transaction of the use case refines the machine.  At top level, in a
    store that satisfies the invariant and refines a machine state, a Txn that
    returns a result decided its guard on that state, ran the operations of the
    chosen branch in order on it (puts, range deletes, nested transactions), and
    leaves a store that satisfies the invariant and refines the state after
    them; the revision in its response is the revision of that state. *)
Theorem txn_refinement `{BoltSpec} `{Disk} `{CodecsSpec} `{ClockSpec} `{GoSort} `{UnicodeLower}
    `{!SchemaValidator} `{!SchemaValidatorSpec} ctx i w st res w' :
  let v := view (w_db w) in
  ctx_tx ctx = None -> ctx_pending ctx = None -> idle w -> Service.hasWrites i = true ->
  store_inv v -> refines v st -> kv_rev st + txn_writes i < two63 -> txn_names i = true ->
  Service.Txn ctx i w = (Ok res, w') ->
  store_inv (view (w_db w')) /\ refines (view (w_db w')) (spec_txn i st) /\
  txr_Succeeded res = spec_guard st i /\ txr_Revision res = kv_rev (spec_txn i st).
Proof. intros v. intros. by eapply Txn_top_steps. Qed.

(** [if prod/a does not exist then put it and put prod/b else delete prod/a] *)
Definition txn_cas : KVTxnInput :=
  mkKVTxnInput
    [mkKVCompare (str "prod") (str "/a") [] [] KVCompareCreateRevision KVCompareEqual 0 []]
    [mkKVOp KVOpPut None (Some (mkKVPutOp (str "prod") (str "/a") (str "1"))) None None;
     mkKVOp KVOpPut None (Some (mkKVPutOp (str "prod") (str "/b") (str "2"))) None None]
    [mkKVOp KVOpDeleteRange None None
       (Some (mkKVDeleteRangeOp (str "prod") (str "/a") [] [] false)) None].

Lemma txn_refinement_witness :
  exists res, (Service.Txn ctx_background txn_cas world0).1 = Ok res /\
    txr_Succeeded res = true /\ txr_Revision res = 2 /\
    refines (view (w_db (Service.Txn ctx_background txn_cas world0).2)) (spec_txn txn_cas (mkKV 0 ∅)).
Proof.
  destruct (Service.Txn ctx_background txn_cas world0) as [r w'] eqn:E.
  destruct r as [res|e|c]; [|by apply (f_equal (fun x => match x.1 with Ok _ => true | _ => false end)) in E;
    vm_compute in E..].
  destruct (txn_refinement ctx_background txn_cas world0 (mkKV 0 ∅) res w') as (_ & Hr & Hs & Hv);
    [done|done|by_decide|by vm_compute|apply reachable_store_inv, world0_reachable|apply world0_refines
    |by vm_compute|by vm_compute|exact E|].
  exists res. split; [done|]. split; [rewrite Hs; by vm_compute|]. split; [rewrite Hv; by vm_compute|].
  exact Hr.
Defined.

(** A condition on one key reads that key's entry, or its absence. *)
Lemma spec_compare_key `{BoltSpec} `{CodecsSpec} v st ns path t r rev value :
  refines v st -> nul_free ns ->
  spec_compare st (mkKVCompare ns path [] [] t r rev value) =
  satisfied (mkKVCompare ns path [] [] t r rev value)
    (entry_kv (ns, path) <$> kv_map st !! (ns, path)).
Proof.
  intros Hst Hn. unfold spec_compare. cbn [cmp_StartNS cmp_StartPath cmp_EndNS cmp_EndPath].
  set (rp := buildRangeParams ns path [] []).
  assert (Hr : forall key e, kv_map st !! key = Some e -> range_of rp key <-> key = (ns, path)).
  { intros [n p] e He. destruct (ref_names _ _ Hst (n, p)) as [Hn' _]; [by eexists|]. simpl in Hn'.
    unfold range_of, rp. rewrite in_range_build, decide_True by done. simpl. split.
    - intros [-> ->]%configKey_inj; done.
    - by intros [= -> ->]. }
  destruct (kv_map st !! (ns, path)) as [e|] eqn:He; simpl.
  - assert (Hf : filter (fun kv => range_of rp kv.1) (kv_map st) !! (ns, path) = Some e).
    { apply map_lookup_filter_Some. split; [done|]. by apply (Hr _ e). }
    rewrite decide_False by (intros E; by rewrite E, lookup_empty in Hf).
    apply eq_true_iff_eq. rewrite bool_decide_eq_true. split.
    + intros Hall. by apply (Hall (ns, path) e).
    + intros Hc key e' [He' Hk]%map_lookup_filter_Some. simpl in Hk.
      apply (Hr _ _ He') in Hk as ->. rewrite He in He'. by injection He' as ->.
  - rewrite decide_True; [done|]. apply map_empty. intros key. apply eq_None_not_Some.
    intros [e' [He' Hk]%map_lookup_filter_Some]. simpl in Hk.
    apply (Hr _ _ He') in Hk as ->. congruence.
Qed.

(** The entries of a store that satisfies the invariant were created at a
    revision from 1 on. *)
Lemma refines_create `{BoltSpec} `{CodecsSpec} v st key e :
  store_inv v -> refines v st -> kv_map st !! key = Some e -> 1 <= e_create e.
Proof.
  destruct key as [ns path]. intros Hi Hst He.
  destruct (ref_names _ _ Hst (ns, path)) as [Hn Hp]; [by eexists|]. simpl in Hn, Hp.
  rewrite (ref_map _ _ Hst) in He by done. unfold entry_of in He.
  destruct (meta_row v (configKey ns path)) as [m|] eqn:Hm; [|done].
  destruct (v !! _) as [c|]; [|done]. injection He as <-. simpl.
  destruct (existing_meta v ns path m Hi Hn Hp Hm) as [_ (c' & _ & _ & _ & _ & Hb & _)]. lia.
Qed.

(** Put unless the key exists: the transaction etcd's locks and elections use. *)
Definition create_txn (ns path value : bytes) : KVTxnInput :=
  mkKVTxnInput
    [mkKVCompare ns path [] [] KVCompareCreateRevision KVCompareEqual 0 []]
    [mkKVOp KVOpPut None (Some (mkKVPutOp ns path value)) None None] [].

(** C24: compare-and-set creation.  The transaction "if the key's create revision
    is 0 then put it" that returns a result succeeded exactly when the committed
    store had no such key; then the store is the one after the put, and otherwise
    it is the same key-value state as before. *)
Theorem create_if_absent `{BoltSpec} `{Disk} `{CodecsSpec} `{ClockSpec} `{GoSort} `{UnicodeLower}
    `{!SchemaValidator} `{!SchemaValidatorSpec} ctx ns path value w st res w' :
  let v := view (w_db w) in
  ctx_tx ctx = None -> ctx_pending ctx = None -> idle w -> store_inv v -> refines v st ->
  kv_rev st + 1 < two63 -> name_ok ns -> name_ok path ->
  Service.Txn ctx (create_txn ns path value) w = (Ok res, w') ->
  (txr_Succeeded res = true <-> kv_map st !! (ns, path) = None) /\
  refines (view (w_db w'))
    (if txr_Succeeded res then spec_put (ns, path) value st else st).
Proof.
  intros v Hc Hp Hi Hinv Hst Hb Hn Hpa Hr.
  assert (Hnm : txn_names (create_txn ns path value) = true).
  { cbn [create_txn txn_names forallb op_names op_Kind op_Put pop_Namespace pop_Path].
    by rewrite bool_decide_true. }
  eapply (Txn_top_steps ctx _ w st) in Hr as (_ & Href & Hs & _); [|done..].
  assert (Hg : spec_guard st (create_txn ns path value) = bool_decide (kv_map st !! (ns, path) = None)).
  { unfold spec_guard. simpl. rewrite (spec_compare_key v) by (done || apply Hn).
    rewrite andb_true_r. destruct (kv_map st !! (ns, path)) as [e|] eqn:He; [|done].
    pose proof (refines_create v st _ e Hinv Hst He). unfold satisfied, field_order. simpl.
    destruct (Z.compare_spec (e_create e) 0); [lia|done..]. }
  rewrite Hs, Hg. split; [apply bool_decide_eq_true|].
  unfold spec_guard in Hg. change (in_Compare (create_txn ns path value)) with
    [mkKVCompare ns path [] [] KVCompareCreateRevision KVCompareEqual 0 []] in Hg.
  change (spec_txn (create_txn ns path value) st) with
    (foldl (fun st op => spec_op spec_txn op st) st
      (if forallb (spec_compare st)
            [mkKVCompare ns path [] [] KVCompareCreateRevision KVCompareEqual 0 []]
       then in_Success (create_txn ns path value) else [])) in Href.
  rewrite Hg in Href. by case_bool_decide.
Qed.

Lemma create_if_absent_witness :
  let w1 := (Service.Txn ctx_background (create_txn (str "prod") (str "/a") (str "1")) world0).2 in
  refines (view (w_db w1)) (spec_put (str "prod", str "/a") (str "1") (mkKV 0 ∅)).
Proof.
  cbv zeta. pose (t := create_txn (str "prod") (str "/a") (str "1")).
  change (create_txn (str "prod") (str "/a") (str "1")) with t.
  destruct (Service.Txn ctx_background t world0) as [r w'] eqn:E.
  destruct r as [res|e|c]; [|by apply (f_equal (fun x => match x.1 with Ok _ => true | _ => false end)) in E;
    vm_compute in E..].
  destruct (create_if_absent ctx_background (str "prod") (str "/a") (str "1") world0 (mkKV 0 ∅) res w')
    as [Hs Hr]; [done|done|by_decide|apply reachable_store_inv, world0_reachable|apply world0_refines
    |by vm_compute|by_decide|by_decide|exact E|].
  assert (Hok : txr_Succeeded res = true) by (apply Hs; apply lookup_empty). rewrite Hok in Hr. exact Hr.
Defined.
