(* ===== verification/EtcdKV.v ===== *)
(** * The KV service of the etcd API

    internal/handler/etcdv3/kv_server.go and kv_txn.go: wire requests are decoded,
    authorised, handed to the use case and its results encoded.  The messages of
    etcdserverpb are records of the fields the handlers read or set; a nil message
    reads as the zero message, as its generated getters do.  The rejected-write
    metric is not modelled. *)

From S2P Require Import Prelude.
From S2P Require Import Bolt.
From S2P Require Import Domain.
From S2P Require Import Manager.
From S2P Require Import ConfigKV.
From S2P Require Import EtcdKey.
From stdpp Require Import base list gmap strings.
From Stdlib Require Import Ascii ZArith Lia.
Open Scope Z_scope.

#[local] Set Warnings "-register-all".

(** ** Messages of etcdserverpb and mvccpb *)

Inductive SortOrder := SortOrder_NONE | SortOrder_ASCEND | SortOrder_DESCEND | SortOrder_other (n : Z).

Inductive SortTarget :=
| SortTarget_KEY | SortTarget_VERSION | SortTarget_CREATE | SortTarget_MOD | SortTarget_VALUE
| SortTarget_other (n : Z).

Record RangeRequest := mkRangeRequest {
  rreq_Key : bytes;
  rreq_RangeEnd : bytes;
  rreq_Limit : Z;
  rreq_Revision : Z;
  rreq_SortOrder : SortOrder;
  rreq_SortTarget : SortTarget;
  rreq_KeysOnly : bool;
  rreq_CountOnly : bool;
}.

Record PutRequest := mkPutRequest {
  preq_Key : bytes;
  preq_Value : bytes;
  preq_PrevKv : bool;
  preq_IgnoreValue : bool;
}.

Record DeleteRangeRequest := mkDeleteRangeRequest {
  dreq_Key : bytes;
  dreq_RangeEnd : bytes;
  dreq_PrevKv : bool;
}.

Inductive CompareTarget :=
| Compare_VERSION | Compare_CREATE | Compare_MOD | Compare_VALUE | Compare_LEASE
| Compare_target_other (n : Z).

Inductive CompareResult :=
| Compare_EQUAL | Compare_GREATER | Compare_LESS | Compare_NOT_EQUAL
| Compare_result_other (n : Z).

(** The oneof [target_union]. *)
Inductive CompareUnion :=
| Union_none
| Union_Version (z : Z)
| Union_CreateRevision (z : Z)
| Union_ModRevision (z : Z)
| Union_Value (b : bytes)
| Union_Lease (z : Z).

Record Compare := mkCompare {
  cmpr_Result : CompareResult;
  cmpr_Target : CompareTarget;
  cmpr_Key : bytes;
  cmpr_Union : CompareUnion;
  cmpr_RangeEnd : bytes;
}.

Definition GetVersion (c : Compare) : Z := match cmpr_Union c with Union_Version z => z | _ => 0 end.
Definition GetCreateRevision (c : Compare) : Z :=
  match cmpr_Union c with Union_CreateRevision z => z | _ => 0 end.
Definition GetModRevision (c : Compare) : Z :=
  match cmpr_Union c with Union_ModRevision z => z | _ => 0 end.
Definition GetValue (c : Compare) : bytes := match cmpr_Union c with Union_Value b => b | _ => [] end.

(** The oneof [request] of RequestOp, over the type of a nested TxnRequest. *)
Inductive RequestOpOf (T : Type) :=
| RequestNone
| RequestRange (r : RangeRequest)
| RequestPut (r : PutRequest)
| RequestDeleteRange (r : DeleteRangeRequest)
| RequestTxn (r : T).
Arguments RequestNone {T}.
Arguments RequestRange {T}.
Arguments RequestPut {T}.
Arguments RequestDeleteRange {T}.
Arguments RequestTxn {T}.

Inductive TxnRequest :=
  mkTxnRequest (compare : list Compare) (success failure : list (RequestOpOf TxnRequest)).

Definition RequestOp : Type := RequestOpOf TxnRequest.

Record KeyValue := mkKeyValue {
  mv_Key : bytes;
  mv_Value : bytes;
  mv_CreateRevision : Z;
  mv_ModRevision : Z;
  mv_Version : Z;
}.

Record ResponseHeader := mkResponseHeader {
  hdr_ClusterId : Z;
  hdr_MemberId : Z;
  hdr_Revision : Z;
  hdr_RaftTerm : Z;
}.

Record RangeResponse := mkRangeResponse {
  rresp_Header : ResponseHeader;
  rresp_Kvs : list KeyValue;
  rresp_More : bool;
  rresp_Count : Z;
}.

Record PutResponse := mkPutResponse {
  presp_Header : ResponseHeader;
  presp_PrevKv : option KeyValue;
}.

Record DeleteRangeResponse := mkDeleteRangeResponse {
  dresp_Header : ResponseHeader;
  dresp_Deleted : Z;
  dresp_PrevKvs : list KeyValue;
}.

Record CompactionResponse := mkCompactionResponse { cresp_Header : ResponseHeader }.

Inductive ResponseOpOf (T : Type) :=
| ResponseRange (r : RangeResponse)
| ResponsePut (r : PutResponse)
| ResponseDeleteRange (r : DeleteRangeResponse)
| ResponseTxn (r : T).
Arguments ResponseRange {T}.
Arguments ResponsePut {T}.
Arguments ResponseDeleteRange {T}.
Arguments ResponseTxn {T}.

Inductive TxnResponse :=
  mkTxnResponse (header : ResponseHeader) (succeeded : bool) (responses : list (ResponseOpOf TxnResponse)).

Definition ResponseOp : Type := ResponseOpOf TxnResponse.

(** ** constants.go *)

Definition clusterID : Z := 0xe16172610001.
Definition memberID : Z := 0xe16172610002.
Definition raftTerm : Z := 1.

(** ** Encoding results: kv_server.go *)

Definition newHeader (rev : Z) : ResponseHeader := mkResponseHeader clusterID memberID rev raftTerm.

(** A nil value and an empty one are the same field on the wire. *)
Definition kvPairToProto (kv : KVPair) : KeyValue :=
  mkKeyValue (JoinKey (kv_Namespace kv) (kv_Path kv)) (default [] (kv_Value kv))
    (kv_CreateRevision kv) (kv_ModRevision kv) (kv_Version kv).

Definition kvLess (target : SortTarget) (a b : KeyValue) : bool :=
  match target with
  | SortTarget_VERSION => mv_Version a <? mv_Version b
  | SortTarget_CREATE => mv_CreateRevision a <? mv_CreateRevision b
  | SortTarget_MOD => mv_ModRevision a <? mv_ModRevision b
  | SortTarget_VALUE => bytes_ltb (mv_Value a) (mv_Value b)
  | SortTarget_KEY | SortTarget_other _ => bytes_ltb (mv_Key a) (mv_Key b)
  end.

Definition sortKVs (kvs : list KeyValue) (order : SortOrder) (target : SortTarget) : list KeyValue :=
  match order with
  | SortOrder_NONE => kvs
  | SortOrder_DESCEND => sort_SliceStable (fun a b => kvLess target b a) kvs
  | SortOrder_ASCEND | SortOrder_other _ => sort_SliceStable (kvLess target) kvs
  end.

Definition buildRangeResponse (req : RangeRequest) (kvs : list KVPair) (revision : Z) (more : bool) :
    RangeResponse :=
  let protoKVs := sortKVs (kvPairToProto <$> kvs) (rreq_SortOrder req) (rreq_SortTarget req) in
  mkRangeResponse (newHeader revision) (if rreq_CountOnly req then [] else protoKVs) more
    (Z.of_nat (length protoKVs)).

Definition buildDeleteRangeResponse (newRev : Z) (deleted : list KVPair) (prevKv : bool) :
    DeleteRangeResponse :=
  mkDeleteRangeResponse (newHeader newRev) (Z.of_nat (length deleted))
    (if prevKv then kvPairToProto <$> deleted else []).

Definition toKVStatus (err : error) (op path : bytes) : error :=
  if errors_Is err (ESentinel DomainErrLocked)
  then EStatus FailedPrecondition "%s: config %q is locked" [FStr op; FStr path]
  else if as_schema_validation err then EStatusOf InvalidArgument "%s: %v" [FStr op] err
  else EStatusOf Internal "%s: %v" [FStr op] err.

Definition invalidKey {A} (key : bytes) : outcome A :=
  Err (EStatus InvalidArgument "invalid key encoding: %q" [FStr key]).

(** ** Decoding a transaction: kv_txn.go *)

Definition compareTarget (t : CompareTarget) : KVCompareTarget :=
  match t with
  | Compare_VERSION => KVCompareVersion
  | Compare_CREATE => KVCompareCreateRevision
  | Compare_MOD => KVCompareModRevision
  | Compare_VALUE => KVCompareValue
  | Compare_LEASE => KVCompareTarget_unknown
  | Compare_target_other _ => KVCompareTarget_unknown
  end.

Definition compareResult (r : CompareResult) : KVCompareResult :=
  match r with
  | Compare_EQUAL => KVCompareEqual
  | Compare_NOT_EQUAL => KVCompareNotEqual
  | Compare_GREATER => KVCompareGreater
  | Compare_LESS => KVCompareLess
  | Compare_result_other _ => KVCompareResult_unknown
  end.

Definition txnCompare (cmp : Compare) : outcome KVCompare :=
  match SplitRange (cmpr_Key cmp) (cmpr_RangeEnd cmp) with
  | None => Err (EStatus InvalidArgument "invalid compare key: %q" [FStr (cmpr_Key cmp)])
  | Some r =>
      let wantRevision :=
        match cmpr_Target cmp with
        | Compare_VERSION => GetVersion cmp
        | Compare_CREATE => GetCreateRevision cmp
        | Compare_MOD => GetModRevision cmp
        | _ => 0
        end in
      let wantValue := match cmpr_Target cmp with Compare_VALUE => GetValue cmp | _ => [] end in
      Ok (mkKVCompare (r_startNS r) (r_startPath r) (r_endNS r) (r_endPath r)
            (compareTarget (cmpr_Target cmp)) (compareResult (cmpr_Result cmp))
            wantRevision wantValue)
  end.

Definition txnRangeOp (req : RangeRequest) : outcome KVOp :=
  match SplitRange (rreq_Key req) (rreq_RangeEnd req) with
  | None => invalidKey (rreq_Key req)
  | Some r =>
      Ok (mkKVOp KVOpRange
            (Some (mkKVRangeOp (r_startNS r) (r_startPath r) (r_endNS r) (r_endPath r)
                     (mkKVRangeOpts (rreq_Limit req) (rreq_Revision req) (rreq_KeysOnly req))))
            None None None)
  end.

Definition txnPutOp (req : PutRequest) : outcome KVOp :=
  match SplitKey (preq_Key req) with
  | None => invalidKey (preq_Key req)
  | Some (namespace, path) =>
      if preq_IgnoreValue req
      then Err (EStatus Unimplemented "ignore_value is not supported" [])
      else Ok (mkKVOp KVOpPut None (Some (mkKVPutOp namespace path (preq_Value req))) None None)
  end.

Definition txnDeleteRangeOp (req : DeleteRangeRequest) : outcome KVOp :=
  match SplitRange (dreq_Key req) (dreq_RangeEnd req) with
  | None => invalidKey (dreq_Key req)
  | Some r =>
      Ok (mkKVOp KVOpDeleteRange None None
            (Some (mkKVDeleteRangeOp (r_startNS r) (r_startPath r) (r_endNS r) (r_endPath r)
                     (dreq_PrevKv req)))
            None)
  end.

(** A loop that converts every element and stops at the first error. *)
Definition convertAll {A B} (f : A -> outcome B) : list A -> outcome (list B) :=
  fix loop l :=
    match l with
    | [] => Ok []
    | x :: rest => y ← f x; ys ← loop rest; Ok (y :: ys)
    end.

Definition txnOp (txnInput : TxnRequest -> outcome KVTxnInput) (op : RequestOp) : outcome KVOp :=
  match op with
  | RequestRange r => txnRangeOp r
  | RequestPut r => txnPutOp r
  | RequestDeleteRange r => txnDeleteRangeOp r
  | RequestTxn r => nested ← txnInput r; Ok (mkKVOp KVOpTxn None None None (Some nested))
  | RequestNone => Err (EStatus InvalidArgument "unknown txn request op" [])
  end.

Definition txnOps (txnInput : TxnRequest -> outcome KVTxnInput) (ops : list RequestOp) :
    outcome (list KVOp) := convertAll (txnOp txnInput) ops.

Fixpoint txnInput (req : TxnRequest) : outcome KVTxnInput :=
  let 'mkTxnRequest compare success failure := req in
  compares ← convertAll txnCompare compare;
  success ← txnOps txnInput success;
  failure ← txnOps txnInput failure;
  Ok (mkKVTxnInput compares success failure).

(** ** Authorising it *)

(** [for ... { if err := f(x); err != nil { return err } }] *)
Definition checkAll {A} (f : A -> outcome unit) : list A -> outcome unit :=
  fix loop l :=
    match l with
    | [] => Ok tt
    | x :: rest => _ ← f x; loop rest
    end.

Definition checkOpAccess (checkTxnAccess : KVTxnInput -> outcome unit) (ctx : Context_) (op : KVOp) :
    outcome unit :=
  match op_Kind op with
  | KVOpRange =>
      match op_Range op with
      | None => Crash GoPanic
      | Some o => checkRangeAccess ctx (rop_StartNS o) (rop_EndNS o) ActionRead
      end
  | KVOpPut =>
      match op_Put op with
      | None => Crash GoPanic
      | Some o => checkAccess ctx (pop_Namespace o) ActionWrite
      end
  | KVOpDeleteRange =>
      match op_DeleteRange op with
      | None => Crash GoPanic
      | Some o => checkRangeAccess ctx (dop_StartNS o) (dop_EndNS o) ActionWrite
      end
  | KVOpTxn =>
      match op_Txn op with
      | None => Err (EStatus InvalidArgument "nested txn is empty" [])
      | Some i => checkTxnAccess i
      end
  | KVOpKind_unknown => Err (EStatus InvalidArgument "unknown txn request op" [])
  end.

Definition checkOpsAccess (checkTxnAccess : KVTxnInput -> outcome unit) (ctx : Context_)
    (ops : list KVOp) : outcome unit := checkAll (checkOpAccess checkTxnAccess ctx) ops.

Fixpoint checkTxnAccess (ctx : Context_) (i : KVTxnInput) : outcome unit :=
  let 'mkKVTxnInput compare success failure := i in
  _ ← checkAll (fun cmp => checkRangeAccess ctx (cmp_StartNS cmp) (cmp_EndNS cmp) ActionRead) compare;
  _ ← checkOpsAccess (checkTxnAccess ctx) ctx success;
  checkOpsAccess (checkTxnAccess ctx) ctx failure.

(** ** Encoding its result *)

Definition txnOpResponse (txnResponse : TxnRequest -> KVTxnResult -> outcome TxnResponse)
    (op : RequestOp) (result : KVOpResult) : outcome ResponseOp :=
  match op with
  | RequestRange r =>
      match res_Range result with
      | None => Crash GoPanic
      | Some x => Ok (ResponseRange (buildRangeResponse r (rr_KVs x) (rr_Revision x) (rr_More x)))
      end
  | RequestPut r =>
      match res_Put result with
      | None => Crash GoPanic
      | Some x =>
          Ok (ResponsePut (mkPutResponse (newHeader (pr_Revision x))
                (if preq_PrevKv r then kvPairToProto <$> pr_Prev x else None)))
      end
  | RequestDeleteRange r =>
      match res_DeleteRange result with
      | None => Crash GoPanic
      | Some x => Ok (ResponseDeleteRange
                        (buildDeleteRangeResponse (dr_Revision x) (dr_Deleted x) (dreq_PrevKv r)))
      end
  | RequestTxn r =>
      match res_Txn result with
      | None => Crash GoPanic
      | Some x => resp ← txnResponse r x; Ok (ResponseTxn resp)
      end
  | RequestNone => Err (EStatus InvalidArgument "unknown txn request op" [])
  end.

(** [for i, result := range res.Responses { ... ops[i] ... }] *)
Definition txnOpResponses (txnResponse : TxnRequest -> KVTxnResult -> outcome TxnResponse) :
    list RequestOp -> list KVOpResult -> outcome (list ResponseOp) :=
  fix loop ops results :=
    match ops, results with
    | op :: ops, result :: results =>
        x ← txnOpResponse txnResponse op result; xs ← loop ops results; Ok (x :: xs)
    | _, [] => Ok []
    | [], _ :: _ => Crash GoPanic
    end.

Fixpoint txnResponse (req : TxnRequest) (res : KVTxnResult) {struct req} : outcome TxnResponse :=
  let 'mkTxnRequest _ success failure := req in
  let 'mkKVTxnResult results revision succeeded := res in
  let ops := if succeeded then success else failure in
  if negb (length ops =? length results)%nat then
    Err (EStatus Internal "txn response mismatch: %d operations, %d results"
           [FInt (Z.of_nat (length ops)); FInt (Z.of_nat (length results))])
  else
    responses ← (if succeeded then txnOpResponses txnResponse success results
                 else txnOpResponses txnResponse failure results);
    Ok (mkTxnResponse (newHeader revision) succeeded responses).

(** The namespace of the first writing operation, the label of a metric. *)
Definition firstWriteOf (firstWriteNamespace : KVTxnInput -> outcome (option bytes)) :
    list KVOp -> outcome (option bytes) :=
  fix loop ops :=
    match ops with
    | [] => Ok None
    | op :: rest =>
        match op_Kind op with
        | KVOpPut => match op_Put op with Some o => Ok (Some (pop_Namespace o)) | None => Crash GoPanic end
        | KVOpDeleteRange =>
            match op_DeleteRange op with Some o => Ok (Some (dop_StartNS o)) | None => Crash GoPanic end
        | KVOpTxn =>
            match op_Txn op with
            | None => loop rest
            | Some i =>
                ns ← firstWriteNamespace i;
                match ns with Some ns => Ok (Some ns) | None => loop rest end
            end
        | KVOpRange | KVOpKind_unknown => loop rest
        end
    end.

Fixpoint firstWriteNamespace (i : KVTxnInput) : outcome (option bytes) :=
  let 'mkKVTxnInput _ success failure := i in
  ns ← firstWriteOf firstWriteNamespace success;
  match ns with
  | Some ns => Ok (Some ns)
  | None => firstWriteOf firstWriteNamespace failure
  end.

(** ** The handlers *)

Module KVServer.

Section server.
Context `{Bolt} `{Disk} `{Clock} `{Codecs} `{GoSort} `{UnicodeLower} `{!SchemaValidator}.

Definition Range (ctx : Context_) (req : RangeRequest) : App RangeResponse :=
  match SplitRange (rreq_Key req) (rreq_RangeEnd req) with
  | None => liftO (invalidKey (rreq_Key req))
  | Some r =>
      _ ← liftO (checkRangeAccess ctx (r_startNS r) (r_endNS r) ActionRead);
      '(kvs, currentRev, more) ←
        mapErrA (EStatusOf Internal "range query: %v" [])
          (Service.RangeQuery ctx (r_startNS r) (r_startPath r) (r_endNS r) (r_endPath r)
             (mkKVRangeOpts (rreq_Limit req) (rreq_Revision req) (rreq_KeysOnly req)));
      mret (buildRangeResponse req kvs currentRev more)
  end.

Definition Put (ctx : Context_) (req : PutRequest) : App PutResponse :=
  match SplitKey (preq_Key req) with
  | None => liftO (invalidKey (preq_Key req))
  | Some (namespace, path) =>
      _ ← liftO (checkAccess ctx namespace ActionWrite);
      if preq_IgnoreValue req
      then appfail (EStatus Unimplemented "ignore_value is not supported" [])
      else
        '(prev, newRev) ← mapErrA (fun err => toKVStatus err (str "put") path)
                            (Service.PutKey ctx namespace path (preq_Value req));
        mret (mkPutResponse (newHeader newRev)
                (if preq_PrevKv req then kvPairToProto <$> prev else None))
  end.

Definition DeleteRange (ctx : Context_) (req : DeleteRangeRequest) : App DeleteRangeResponse :=
  match SplitRange (dreq_Key req) (dreq_RangeEnd req) with
  | None => liftO (invalidKey (dreq_Key req))
  | Some r =>
      _ ← liftO (checkRangeAccess ctx (r_startNS r) (r_endNS r) ActionWrite);
      '(deleted, newRev) ← mapErrA (fun err => toKVStatus err (str "delete range") (r_startPath r))
        (Service.DeleteRangeKeys ctx (r_startNS r) (r_startPath r) (r_endNS r) (r_endPath r)
           (dreq_PrevKv req));
      newRev ← (if newRev =? 0
                then mapErrA (EStatusOf Internal "get revision: %v" []) (Service.CurrentRevisionValue ctx)
                else mret newRev);
      mret (buildDeleteRangeResponse newRev deleted (dreq_PrevKv req))
  end.

Definition Compact (ctx : Context_) : App CompactionResponse :=
  rev ← mapErrA (EStatusOf Internal "get revision: %v" []) (Service.CurrentRevisionValue ctx);
  mret (mkCompactionResponse (newHeader rev)).

Definition Txn (ctx : Context_) (req : TxnRequest) : App TxnResponse :=
  i ← liftO (txnInput req);
  _ ← liftO (checkTxnAccess ctx i);
  r ← attemptA (Service.Txn ctx i);
  match r with
  | inl err =>
      _ ← liftO (firstWriteNamespace i);
      appfail (toKVStatus err (str "txn") [])
  | inr res => liftO (txnResponse req res)
  end.
End server.
End KVServer.
