(* ===== verification/ApiSpec.v ===== *)
(** * What the etcd API promises its clients

    The encoding of keys and ranges, the access checks, the order of results and
    the answers of KVServer, proved of EtcdKey.v and EtcdKV.v over the use case. *)

From S2P Require Import Prelude.
From S2P Require Import Bolt.
From S2P Require Import Keys.
From S2P Require Import Domain.
From S2P Require Import Concrete.
From S2P Require Import Manager.
From S2P Require Import ConfigRepo.
From S2P Require Import ConfigReads.
From S2P Require Import EtcdRepo.
From S2P Require Import Repository.
From S2P Require Import Effects.
From S2P Require Import Store.
From S2P Require Import EtcdSpec.
From S2P Require Import ReadSpec.
From S2P Require Import ListSpec.
From S2P Require Import ConfigKV.
From S2P Require Import TxnSpec.
From S2P Require Import TxnRefine.
From S2P Require Import EtcdKey.
From S2P Require Import EtcdKV.
From stdpp Require Import base list gmap strings sorting.
From Stdlib Require Import Ascii ZArith Lia.
Open Scope Z_scope.

(** ** Ranges *)

(** The keys of an etcd range [key, rangeEnd), as etcd defines them. *)
Definition etcd_in_range (key rangeEnd k : bytes) : Prop :=
  if decide (rangeEnd = []) then k = key
  else ~ blt k key /\ (rangeEnd = zeroString \/ blt k rangeEnd).

(** Two namespaces whose keys the store orders as etcd does: equal, or without
    bytes up to the slash. *)
Definition comparable (ns ns' : bytes) : Prop := ns = ns' \/ above_slash ns /\ above_slash ns'.

Lemma JoinKey_blt ns p ns' p' :
  comparable ns ns' -> wire_path p -> wire_path p' ->
  blt (JoinKey ns p) (JoinKey ns' p') <-> blt (configKey ns p) (configKey ns' p').
Proof.
  intros [<-|[H H']] Hp Hp'; unfold blt.
  - by rewrite JoinKey_compare_same.
  - by rewrite JoinKey_compare.
Qed.

Lemma JoinKey_inj ns p ns' p' :
  wire_ns ns -> wire_path p -> wire_ns ns' -> wire_path p' ->
  JoinKey ns p = JoinKey ns' p' -> ns = ns' /\ p = p'.
Proof.
  intros Hn Hp Hn' Hp' E. apply (f_equal SplitKey) in E. rewrite !SplitKey_JoinKey in E by done.
  by injection E as -> ->.
Qed.

(** A key in the form the store lists it back. *)
Definition canonical (key ns path : bytes) : Prop := wire_ns ns /\ wire_path path /\ key = JoinKey ns path.

Lemma JoinKey_not_zero ns p : JoinKey ns p <> zeroString.
Proof. done. Qed.

(** C28: ranges on the wire and in the store agree.  For a key and a range end in
    canonical form (or no range end, or the one-byte end "all keys from here"),
    SplitRange succeeds, and a config is in the storage range it names exactly
    when its etcd key is in the etcd range, as long as its namespace and the
    boundary namespaces are the same or have no byte below or equal to the
    slash. *)
Theorem wire_range_faithful key sn sp rangeEnd ns path :
  canonical key sn sp -> wire_ns ns -> wire_path path -> comparable ns sn -> nul_free ns -> nul_free sn ->
  (rangeEnd = [] \/ rangeEnd = zeroString \/
   exists en ep, canonical rangeEnd en ep /\ comparable ns en /\ en <> zeroString) ->
  exists r, SplitRange key rangeEnd = Some r /\
    (etcd_in_range key rangeEnd (JoinKey ns path) <->
     in_range (buildRangeParams (r_startNS r) (r_startPath r) (r_endNS r) (r_endPath r))
       (configKey ns path)).
Proof.
  intros (Hsn & Hsp & ->) Hns Hpath Hcs Hz Hzs Hend.
  unfold SplitRange, etcd_in_range. rewrite SplitKey_JoinKey by done.
  destruct Hend as [->|[->|(en & ep & (Hen & Hep & ->) & Hce & Hez)]].
  - rewrite bool_decide_true by done. eexists. split; [done|]. cbn [r_startNS r_startPath r_endNS r_endPath].
    rewrite in_range_build, !decide_True by done. split.
    + by intros [-> ->]%JoinKey_inj.
    + by intros [-> ->]%configKey_inj.
  - rewrite bool_decide_false by done. eexists. split; [done|]. cbn [r_startNS r_startPath r_endNS r_endPath].
    rewrite in_range_build, !decide_False by naive_solver. rewrite JoinKey_blt by done. naive_solver.
  - rewrite bool_decide_false by done.
    assert (E0 : bytes_eqb (JoinKey en ep) zeroString = false)
      by (unfold bytes_eqb; by apply bool_decide_eq_false).
    rewrite E0, SplitKey_JoinKey by done. eexists. split; [done|].
    cbn [r_startNS r_startPath r_endNS r_endPath].
    rewrite in_range_build, !decide_False; [|intros [-> _]; by destruct Hen|done].
    rewrite !JoinKey_blt by done. naive_solver.
Qed.

Lemma wire_range_faithful_witness :
  exists r, SplitRange (str "/prod/a") (str "/prod/b") = Some r /\
    (etcd_in_range (str "/prod/a") (str "/prod/b") (JoinKey (str "prod") (str "/a1")) <->
     in_range (buildRangeParams (r_startNS r) (r_startPath r) (r_endNS r) (r_endPath r))
       (configKey (str "prod") (str "/a1"))).
Proof.
  assert (Hn : wire_ns (str "prod")) by by_decide. assert (Hz : nul_free (str "prod")) by by_decide.
  apply (wire_range_faithful (str "/prod/a") (str "prod") (str "/a") (str "/prod/b")).
  - split; [exact Hn|]. split; [by eexists|reflexivity].
  - exact Hn.
  - by eexists.
  - by left.
  - exact Hz.
  - exact Hz.
  - right. right. exists (str "prod"), (str "/b").
    split; [split; [exact Hn|]; split; [by eexists|reflexivity]|]. split; [by left|done].
Defined.

(** Keys survive the wire.  JoinKey then SplitKey returns the namespace and
    the path, for a non-empty namespace without a slash and a path that starts
    with one; and every key SplitKey accepts is joined back from its parts, up to
    the slash it adds to a bare namespace. *)
Theorem wire_key_roundtrip :
  (forall ns path, wire_ns ns -> wire_path path -> SplitKey (JoinKey ns path) = Some (ns, path)) /\
  (forall key ns path, SplitKey key = Some (ns, path) ->
     wire_ns ns /\ wire_path path /\ (JoinKey ns path = key \/ JoinKey ns path = key ++ str "/")).
Proof.
  split; [intros; by apply SplitKey_JoinKey|]. intros key ns path Hs.
  destruct (SplitKey_Some _ _ _ Hs) as (Hn & [t ->] & Hk). split; [done|]. split; [by exists t|].
  rewrite JoinKey_slash. destruct Hk as [->|[-> [= ->]]]; [by left|]. right. done.
Qed.

(** ** Access *)

Lemma checkAccess_Ok ctx ns action u :
  checkAccess ctx ns action = Ok u -> namespaceAllowed (ctx_claims ctx) ns action = true.
Proof. unfold checkAccess. by destruct (namespaceAllowed _ _ _). Qed.

(** Keys between two keys of one namespace belong to it. *)
Lemma same_namespace sn sp ep ns path :
  nul_free sn -> nul_free ns ->
  ~ blt (configKey ns path) (configKey sn sp) -> blt (configKey ns path) (configKey sn ep) -> ns = sn.
Proof.
  intros Hs Hn Hlo Hhi.
  assert (Hpre : forall p, has_prefix (configKey sn p) (sn ++ [keySep]) = true).
  { intros p. unfold configKey. rewrite app_assoc. apply has_prefix_app. }
  destruct (has_prefix (configKey ns path) (sn ++ [keySep])) eqn:E.
  - apply has_prefix_spec in E as [t Et]. unfold configKey in Et. rewrite <- app_assoc in Et. simpl in Et.
    by apply app_sep_inj in Et as [-> _].
  - exfalso. pose proof (has_prefix_interval (sn ++ [keySep]) (configKey ns path) (configKey sn ep)) as Hi.
    rewrite Hpre in Hi. discriminate Hi; [|done|].
    + intros Hlt. apply Hlo. eapply blt_nblt_trans; [exact Hlt|]. by apply has_prefix_ge.
    + intros Hlt. exact (blt_irrefl _ (blt_trans _ _ _ Hhi Hlt)).
Qed.

(** C29: within one namespace the access check is sound.  When checkRangeAccess
    accepts a single key or a range whose both ends are in one namespace, every
    config of the storage range is in a namespace the claims allow for that
    action. *)
Theorem range_access_within ctx sn sp en ep action ns path :
  nul_free sn -> nul_free ns -> (en = [] /\ ep = [] \/ en = sn /\ sn <> zeroString /\ sn <> []) ->
  checkRangeAccess ctx sn en action = Ok tt ->
  in_range (buildRangeParams sn sp en ep) (configKey ns path) ->
  namespaceAllowed (ctx_claims ctx) ns action = true.
Proof.
  intros Hs Hn Hen Hacc Hr. unfold checkRangeAccess, mbind, outcome_bind in Hacc.
  destruct (checkAccess ctx sn action) as [u| |] eqn:Ea; [|done..].
  apply checkAccess_Ok in Ea. rewrite in_range_build in Hr.
  destruct Hen as [[-> ->]|(-> & Hz & Hne)].
  - rewrite decide_True in Hr by done. by apply configKey_inj in Hr as [-> _].
  - rewrite decide_False in Hr by naive_solver. destruct Hr as [Hlo [?|Hhi]]; [done|].
    by rewrite (same_namespace sn sp ep ns path).
Qed.

Definition reader_of (ns : bytes) : Context_ :=
  mkContext None None (Some (mkClaims [] [] [ns] (str "reader"))).

Lemma range_access_within_witness :
  namespaceAllowed (ctx_claims (reader_of (str "prod"))) (str "prod") ActionRead = true.
Proof.
  apply (range_access_within (reader_of (str "prod")) (str "prod") (str "/a") (str "prod") (str "/b")
    ActionRead (str "prod") (str "/a1")); [by_decide|by_decide|by right|reflexivity|by_decide].
Defined.

(** ** The order of results *)

Lemma sort_stable_perm {A} (less : A -> A -> bool) l : Permutation (sort_SliceStable less l) l.
Proof. induction l as [|x l IH]; simpl; [done|]. by rewrite insert_stable_perm, IH. Qed.

Lemma sort_stable_sorted {A} (less : A -> A -> bool) l :
  strict_weak less -> StronglySorted (fun a b => less b a = false) (sort_SliceStable less l).
Proof. intros Hl. induction l as [|x l IH]; simpl; [constructor|]. by apply insert_stable_sorted. Qed.

(** An order that compares a field is a strict weak order. *)
Lemma strict_weak_field {A B} (lt : B -> B -> bool) (f : A -> B) :
  strict_weak lt -> strict_weak (fun a b => lt (f a) (f b)).
Proof. intros (Hi & Ht & He). split; [auto|]. split; [intros x y z; apply Ht|intros x y z; apply He]. Qed.

Lemma strict_weak_flip {A} (lt : A -> A -> bool) : strict_weak lt -> strict_weak (fun a b => lt b a).
Proof.
  intros (Hi & Ht & He). split; [auto|]. split; [intros x y z H1 H2; by apply (Ht z y x)|].
  intros x y z H1 H2 H3 H4. destruct (He x y z); auto.
Qed.

Lemma strict_weak_ltb : strict_weak Z.ltb.
Proof. split; [intros; apply Z.ltb_irrefl|]. split; intros x y z; lia. Qed.

Lemma strict_weak_bytes : strict_weak bytes_ltb.
Proof.
  split; [intros x; apply bytes_ltb_ge, blt_irrefl|].
  split; [intros x y z; rewrite !bytes_ltb_lt; apply blt_trans|].
  intros x y z. rewrite !bytes_ltb_ge. intros H1 H2 H3 H4. split; eapply nblt_trans; eauto.
Qed.

Lemma strict_weak_kvLess target : strict_weak (kvLess target).
Proof.
  destruct target; simpl; apply (strict_weak_field _ _ strict_weak_bytes)
    || apply (strict_weak_field _ _ strict_weak_ltb).
Qed.

(** The order a range request asks for. *)
Definition requested (order : SortOrder) (target : SortTarget) (a b : KeyValue) : Prop :=
  match order with
  | SortOrder_NONE => True
  | SortOrder_DESCEND => kvLess target a b = false
  | SortOrder_ASCEND | SortOrder_other _ => kvLess target b a = false
  end.

(** A range response has what was found, as it was asked for.  Its pairs are
    the encodings of the pairs the use case returned, all of them and each once
    (none for a count-only request), in the requested order of the requested
    field, and its count is their number. *)
Theorem range_response_sorted req kvs revision more :
  let resp := buildRangeResponse req kvs revision more in
  rresp_Count resp = Z.of_nat (length kvs) /\ hdr_Revision (rresp_Header resp) = revision /\
  (rreq_CountOnly req = true -> rresp_Kvs resp = []) /\
  (rreq_CountOnly req = false ->
     Permutation (rresp_Kvs resp) (kvPairToProto <$> kvs) /\
     StronglySorted (requested (rreq_SortOrder req) (rreq_SortTarget req)) (rresp_Kvs resp)).
Proof.
  intros resp. unfold resp, buildRangeResponse, sortKVs. cbn [rresp_Count rresp_Header rresp_Kvs].
  assert (Hp : Permutation (sortKVs (kvPairToProto <$> kvs) (rreq_SortOrder req) (rreq_SortTarget req))
                 (kvPairToProto <$> kvs))
    by (unfold sortKVs; destruct (rreq_SortOrder req); [done|apply sort_stable_perm..]).
  assert (Hs : StronglySorted (requested (rreq_SortOrder req) (rreq_SortTarget req))
                 (sortKVs (kvPairToProto <$> kvs) (rreq_SortOrder req) (rreq_SortTarget req))).
  { unfold sortKVs, requested. destruct (rreq_SortOrder req).
    - clear. induction (kvPairToProto <$> kvs) as [|x l IH]; constructor; [done|]. by apply Forall_true.
    - apply sort_stable_sorted, strict_weak_kvLess.
    - apply (sort_stable_sorted (fun a b => kvLess _ b a)), strict_weak_flip, strict_weak_kvLess.
    - apply sort_stable_sorted, strict_weak_kvLess. }
  unfold sortKVs in Hp, Hs. split; [by rewrite Hp, length_fmap|]. split; [done|].
  split; intros ->; done.
Qed.

(** ** The answer to a transaction *)

Section shape.
Context `{Bolt} `{Disk} `{Clock} `{Codecs} `{GoSort} `{UnicodeLower} `{!SchemaValidator}.

Lemma returns_WithTx {A} ctx (cb : Context_ -> App A) Q :
  (forall ctx, returns (cb ctx) Q) -> returns (Manager_WithTx ctx cb) Q.
Proof.
  intros Hcb. apply returns_wrap. intros w a w'. unfold WithTx.
  assert (Hnew : (h' ← wrapA "begin tx: %w" [] (Begin true); runTx ctx h' cb) w = (Ok a, w') -> Q a).
  { intros (h & w1 & _ & Hr)%appbind_Ok. apply runTx_Ok in Hr.
    eapply Hcb. by apply run_eq. }
  destruct (TxFromContext ctx) as [h|]; [|done]. destruct (Writable h w); [|done]. apply Hcb.
Qed.

(** The result has a response for each operation of the branch that ran. *)
Definition answers (i : KVTxnInput) (r : KVTxnResult) : Prop := exists evs, txn_events i r evs.
Definition answers_op (op : KVOp) (r : KVOpResult) : Prop := exists evs, op_events op r evs.

Lemma runOp_answers Txn ctx op :
  on_nested (fun i => returns (Txn ctx i) (answers i)) op ->
  returns (Service.runOp Txn ctx op) (fun r => answers_op op r.1).
Proof.
  intros Hn. unfold Service.runOp. destruct (op_Kind op) eqn:Ek; [done|..].
  - unfold Service.runRangeOp. destruct (op_Range op) as [o|] eqn:Eo; [|done].
    eapply returns_bind; [apply returns_any|]. intros [[kvs rev] more] _. apply returns_ret.
    eexists. by eapply op_events_range.
  - unfold Service.runPutOp. destruct (op_Put op) as [o|] eqn:Eo; [|done].
    eapply returns_bind; [apply returns_any|]. intros [prev rev] _. apply returns_ret.
    eexists. by apply (op_events_put _ o _ 0).
  - unfold Service.runDeleteRangeOp. destruct (op_DeleteRange op) as [o|] eqn:Eo; [|done].
    eapply returns_bind; [apply returns_any|]. intros [d rev] _. apply returns_ret.
    eexists. by eapply op_events_delete.
  - unfold Service.runNestedTxnOp. unfold on_nested in Hn. destruct (op_Txn op) as [i|] eqn:Eo; [|done].
    eapply returns_bind; [by apply returns_wrap|]. intros r [evs He]. apply returns_ret.
    exists evs. by eapply op_events_txn.
Qed.

Lemma runOps_answers Txn ctx ops ops0 rs0 e0 rev0 :
  Forall (on_nested (fun i => returns (Txn ctx i) (answers i))) ops ->
  ops_events ops0 rs0 e0 ->
  returns (Service.runOps Txn ctx ops rs0 rev0) (fun r => exists e, ops_events (ops0 ++ ops) r.1 e).
Proof.
  intros Hops. revert ops0 rs0 e0 rev0. induction Hops as [|op ops Hop Hops IH]; intros ops0 rs0 e0 rev0 He.
  - apply returns_ret. exists e0. by rewrite app_nil_r.
  - simpl. eapply returns_bind; [by apply runOp_answers|]. intros [r rev] [e He'].
    pose proof (ops_events_snoc _ _ _ _ _ _ He He') as Hs. simpl in Hs.
    intros w a w' Hr. eapply IH in Hr; [|exact Hs]. by rewrite <- app_assoc in Hr.
Qed.

Lemma Txn_answers i : forall ctx, returns (Service.Txn ctx i) (answers i).
Proof.
  induction i as [c s f Hs Hf] using KVTxnInput_nested_ind. intros ctx.
  assert (Hops : forall ctx ops, Forall (on_nested (fun i => forall ctx, returns (Service.Txn ctx i) (answers i))) ops ->
            Forall (on_nested (fun i => returns (Service.Txn ctx i) (answers i))) ops).
  { intros c' ops Ho. eapply Forall_impl; [done|]. intros op. unfold on_nested. by destruct (op_Txn op). }
  assert (Hbody : forall ctx, returns (Service.runTxn Service.Txn ctx (mkKVTxnInput c s f))
                                (answers (mkKVTxnInput c s f))).
  { intros c'. eapply returns_bind; [apply returns_any|]. intros ok _.
    eapply returns_bind; [apply (runOps_answers _ _ _ [] [] []); [|constructor]|].
    { destruct ok; by apply Hops. }
    intros [rs last] [e He]. eapply returns_bind; [apply returns_any|]. intros rev _.
    apply returns_ret. exists e. by constructor. }
  change (Service.Txn ctx (mkKVTxnInput c s f)) with
    (Service.txnBody Service.Txn ctx (mkKVTxnInput c s f)).
  unfold Service.txnBody. destruct (negb _); [done|].
  eapply returns_bind; [apply returns_any|]. intros [[outer p] owner] _.
  eapply returns_bind; [by apply returns_wrap, returns_WithTx|]. intros r Hr.
  eapply returns_bind; [apply returns_any|]. intros _ _. by apply returns_ret.
Qed.
End shape.

(** Induction over nested requests. *)
Definition on_request (P : TxnRequest -> Prop) (op : RequestOp) : Prop :=
  match op with RequestTxn r => P r | _ => True end.

Lemma TxnRequest_nested_ind (P : TxnRequest -> Prop) :
  (forall c s f, Forall (on_request P) s -> Forall (on_request P) f -> P (mkTxnRequest c s f)) ->
  forall r, P r.
Proof.
  intros HP. fix IH 1. intros [c s f].
  assert (Hops : forall ops : list RequestOp, Forall (on_request P) ops).
  { fix IHops 1. intros [|op ops]; [constructor|]. constructor; [|apply IHops].
    destruct op; simpl; [exact I|exact I|exact I|exact I|apply IH]. }
  apply HP; apply Hops.
Qed.

Lemma obind_Ok {A B} (m : outcome A) (f : A -> outcome B) b :
  (m ≫= f) = Ok b <-> exists a, m = Ok a /\ f a = Ok b.
Proof. destruct m; simpl; naive_solver. Qed.

Lemma convertAll_Ok {A B} (f : A -> outcome B) l l' :
  convertAll f l = Ok l' <-> Forall2 (fun x y => f x = Ok y) l l'.
Proof.
  revert l'. induction l as [|x l IH]; intros l'; simpl.
  - split; [by intros [= <-]|by intros ->%Forall2_nil_inv_l].
  - rewrite obind_Ok. setoid_rewrite obind_Ok. setoid_rewrite IH. split.
    + intros (y & Hy & ys & Hys & [= <-]). by constructor.
    + intros (y & ys & Hy & Hys & ->)%Forall2_cons_inv_l. eauto.
Qed.

Definition encodable (req : TxnRequest) : Prop := forall i res,
  txnInput req = Ok i -> answers i res -> exists resp, txnResponse req res = Ok resp.

Lemma op_encodable op kop r e :
  on_request encodable op -> txnOp txnInput op = Ok kop -> op_events kop r e ->
  exists x, txnOpResponse txnResponse op r = Ok x.
Proof.
  intros Hn Hop He. destruct op as [|q|q|q|q]; simpl in Hop; [done|..].
  - unfold txnRangeOp in Hop. destruct (SplitRange _ _); [|done]. injection Hop as <-.
    inversion He; simpl in *; simplify_eq; eauto.
  - unfold txnPutOp in Hop. destruct (SplitKey _) as [[]|]; [|done].
    destruct (preq_IgnoreValue q); [done|]. injection Hop as <-. inversion He; simpl in *; simplify_eq; eauto.
  - unfold txnDeleteRangeOp in Hop. destruct (SplitRange _ _); [|done]. injection Hop as <-.
    inversion He; simpl in *; simplify_eq; eauto.
  - apply obind_Ok in Hop as (i & Hi & [= <-]). inversion He; simpl in *; simplify_eq.
    match goal with Hte : txn_events ?j ?x _ |- _ =>
      destruct (Hn j x) as [resp ->]; [done|by eexists|] end. simpl. eauto.
Qed.

Lemma ops_encodable ops kops rs e :
  Forall (on_request encodable) ops -> Forall2 (fun x y => txnOp txnInput x = Ok y) ops kops ->
  ops_events kops rs e ->
  length ops = length rs /\ exists xs, txnOpResponses txnResponse ops rs = Ok xs.
Proof.
  intros Hn Hops. revert rs e Hn. induction Hops as [|op kop ops kops Hop Hops IH]; intros rs e Hn He.
  - inversion He; subst. split; [done|]. by exists [].
  - inversion He; subst. inversion_clear Hn as [|? ? Hn1 Hn2].
    destruct (op_encodable _ _ _ _ Hn1 Hop ltac:(eassumption)) as [x Hx].
    destruct (IH _ _ Hn2 ltac:(eassumption)) as (Hlen & xs & Hxs).
    split; [simpl; congruence|]. exists (x :: xs). simpl. by rewrite Hx, Hxs.
Qed.

Lemma all_encodable req : encodable req.
Proof.
  induction req as [c s f Hs Hf] using TxnRequest_nested_ind. intros i res Hi [evs He].
  simpl in Hi. apply obind_Ok in Hi as (kc & _ & Hi). apply obind_Ok in Hi as (ks & Hks & Hi).
  apply obind_Ok in Hi as (kf & Hkf & [= <-]). apply convertAll_Ok in Hks. apply convertAll_Ok in Hkf.
  inversion He as [i' rs rev ok evs' Hops]; subst. simpl in Hops. cbn [txnResponse].
  destruct ok; cbv iota.
  - destruct (ops_encodable _ _ _ _ Hs Hks Hops) as (Hlen & xs & Hxs).
    destruct (negb _) eqn:E; [apply negb_true_iff, Nat.eqb_neq in E; by destruct E|].
    rewrite Hxs. by eexists.
  - destruct (ops_encodable _ _ _ _ Hf Hkf Hops) as (Hlen & xs & Hxs).
    destruct (negb _) eqn:E; [apply negb_true_iff, Nat.eqb_neq in E; by destruct E|].
    rewrite Hxs. by eexists.
Qed.

(** C27: a transaction the use case completed is answered.  When a Txn request
    decodes, passes the access checks and the use case returns a result for it,
    the handler returns a response (with that world): the response never
    mismatches the request, at any nesting depth, so a client is never told of a
    failure after the commit. *)
Theorem txn_reply_total `{Bolt} `{Disk} `{Clock} `{Codecs} `{GoSort} `{UnicodeLower}
    `{!SchemaValidator} ctx req i res w w' :
  txnInput req = Ok i -> checkTxnAccess ctx i = Ok tt -> Service.Txn ctx i w = (Ok res, w') ->
  exists resp, KVServer.Txn ctx req w = (Ok resp, w').
Proof.
  intros Hi Ha Hr. destruct (all_encodable req i res Hi) as [resp Hresp].
  { by eapply Txn_answers. }
  exists resp. unfold KVServer.Txn, mbind, App_bind, liftO, attemptA. by rewrite Hi, Ha, Hr, Hresp.
Qed.

(** [txn { put /prod/a 1; range /prod/a }] on the wire *)
Definition req_put_range : TxnRequest :=
  mkTxnRequest []
    [RequestPut (mkPutRequest (str "/prod/a") (str "1") false false);
     RequestTxn (mkTxnRequest [] [RequestRange (mkRangeRequest (str "/prod/a") [] 0 0 SortOrder_NONE
                                     SortTarget_KEY false false)] [])] [].

Lemma txn_reply_total_witness :
  exists resp, (KVServer.Txn ctx_background req_put_range world0).1 = Ok resp.
Proof.
  destruct (txnInput req_put_range) as [i| |] eqn:Ei; [|by vm_compute in Ei..].
  destruct (Service.Txn ctx_background i world0) as [r w'] eqn:E.
  assert (Hok : match r with Ok _ => true | _ => false end = true).
  { injection Ei as <-. apply (f_equal (fun x => match x.1 with Ok _ => true | _ => false end)) in E.
    cbn [fst] in E. rewrite <- E. by vm_compute. }
  destruct r as [res| |]; [|done..].
  destruct (txn_reply_total ctx_background req_put_range i res world0 w') as [resp Hresp];
    [exact Ei|injection Ei as <-; by vm_compute|exact E|].
  exists resp. by rewrite Hresp.
Defined.

(** ** Reading back a put *)

Section readback.
Context `{BoltSpec} `{Disk} `{CodecsSpec} `{ClockSpec} `{GoSort} `{UnicodeLower}.
Context (Hbegin : forall n, begin_fault n = None).

(** The current revision, read at top level. *)
Lemma CurrentRevisionValue_top ctx w st :
  ctx_tx ctx = None -> refines (view (w_db w)) st ->
  exists w', Repository.CurrentRevisionValue ctx w = (Ok (kv_rev st), w').
Proof.
  intros Hc Hr. eexists. apply read_top_Ok; [done|done|]. eexists. split; [|done].
  unfold currentRevisionTx. rewrite (bind_eval _ _ _ _ _ _ (bucket_Get_eval _ _ _ _)).
  rewrite (ref_rev _ _ Hr). unfold cur_rev, counter. simpl. by destruct (view (w_db w) !! _).
Qed.

(** Rows of one key are one row. *)
Lemma single_row db rp :
  (forall x y, x ∈ range_rows db rp -> y ∈ range_rows db rp -> x.1 = y.1) ->
  (length (range_rows db rp) <= 1)%nat.
Proof.
  intros Hsame. pose proof (sorted_filter (fun kv => in_range rp kv.1) _ (db_pairs_sorted db bucketMeta)) as Hs.
  fold (range_rows db rp) in Hs. destruct (range_rows db rp) as [|x [|y l]]; simpl; [lia|lia|].
  exfalso. inversion_clear Hs as [|? ? _ Hx]. inversion_clear Hx as [|? ? Hxy _].
  rewrite (Hsame x y) in Hxy by set_solver. by apply blt_irrefl in Hxy.
Qed.

(** A key on its own, read at top level. *)
Lemma RangeQuery_key_top ctx ns path limit w st :
  ctx_tx ctx = None -> store_inv (view (w_db w)) -> refines (view (w_db w)) st -> nul_free ns ->
  exists more w', Service.RangeQuery ctx ns path [] [] (mkKVRangeOpts limit 0 false) w =
    (Ok (option_list (entry_kv (ns, path) <$> kv_map st !! (ns, path)), kv_rev st, more), w').
Proof.
  intros Hc Hi Hr Hn. set (db := w_db w) in *. set (rp := buildRangeParams ns path [] []).
  destruct (rangeQueryTx_current ns path [] [] limit 0 false false (mkTS db (w_tick w)) Hi)
    as (xs & more & Hxs & Hq & _); [lia|]. fold rp in Hxs. cbn [ts_db] in Hxs.
  assert (Hsame : forall kv, kv ∈ xs <-> entry_kv (ns, path) <$> kv_map st !! (ns, path) = Some kv).
  { intros kv. rewrite (current_entries db st rp xs kv Hi Hr Hxs). split.
    - intros ([n p] & e & He & Hrng & ->). unfold range_of, rp in Hrng. simpl in Hrng.
      rewrite in_range_build, decide_True in Hrng by done.
      destruct (ref_names _ _ Hr (n, p)) as [Hn' _]; [by eexists|].
      apply configKey_inj in Hrng as [-> ->]; [|done..]. by rewrite He.
    - intros (e & He & ->)%fmap_Some. exists (ns, path), e. split; [done|]. split; [|done].
      unfold range_of, rp. simpl. by rewrite in_range_build, decide_True. }
  assert (Hlen : (length xs <= 1)%nat).
  { rewrite <- (Forall2_length _ _ _ Hxs).
    apply single_row. intros [k d] [k' d'] [E1 _]%range_rows_elem [E2 _]%range_rows_elem. simpl in *.
    unfold rp in E1, E2. rewrite in_range_build, decide_True in E1, E2 by done. congruence. }
  assert (Exs : xs = option_list (entry_kv (ns, path) <$> kv_map st !! (ns, path))).
  { destruct xs as [|x [|y xs]]; simpl in Hlen; [|..|lia].
    - destruct (entry_kv (ns, path) <$> _) as [kv|] eqn:E; [|done].
      assert (kv ∈ []) by by apply Hsame. set_solver.
    - by rewrite (proj1 (Hsame x)) by set_solver. }
  assert (Eq : (if 0 <? limit then take (Z.to_nat limit) xs else xs) = xs).
  { destruct (Z.ltb_spec 0 limit); [|done]. apply take_ge. lia. }
  rewrite Eq, Exs in Hq. unfold Service.RangeQuery. exists more. unfold mbind, App_bind.
  edestruct (CurrentRevisionValue_top ctx) as [w2 Hrev]; [done| |].
  2:{ exists w2. unfold Service.RangeKVs.
      erewrite (proj2 (wrapA_Ok _ _ _ w _ _)).
      2:{ apply read_top_Ok; [done|apply Hbegin|]. eexists. split; [exact Hq|reflexivity]. }
      cbv beta iota. unfold wrapA. rewrite Hrev. reflexivity. }
  exact Hr.
Qed.
End readback.

Lemma allowed_write_read claims ns :
  namespaceAllowed claims ns ActionWrite = true -> namespaceAllowed claims ns ActionRead = true.
Proof.
  unfold namespaceAllowed. destruct claims as [c|]; [|done]. destruct (negb _); [done|]. done.
Qed.

(** The range request of one key, whatever its limit and order. *)
Definition get_request (key : bytes) (limit : Z) (o : SortOrder) (t : SortTarget) : RangeRequest :=
  mkRangeRequest key [] limit 0 o t false false.

Lemma sortKVs_one kv o t : sortKVs [kv] o t = [kv].
Proof. by destruct o. Qed.

(** C26: a put is read back.  After a Put on the wire that succeeded, a Range of
    that key by the same caller succeeds and returns one pair: the key, the value
    that was put, and as modification revision and header revision the revision
    the Put answered with; the previous pair the Put returned on request is the
    entry the key had. *)
Theorem put_then_range `{BoltSpec} `{Disk} `{CodecsSpec} `{ClockSpec} `{GoSort} `{UnicodeLower}
    `{!SchemaValidator} `{!SchemaValidatorSpec} ctx key ns path value limit o t w st resp w' :
  ctx_tx ctx = None -> ctx_pending ctx = None -> busy w = false -> (forall n, begin_fault n = None) ->
  store_inv (view (w_db w)) -> refines (view (w_db w)) st -> kv_rev st + 1 < two63 ->
  canonical key ns path -> name_ok ns -> name_ok path ->
  KVServer.Put ctx (mkPutRequest key value true false) w = (Ok resp, w') ->
  presp_PrevKv resp = (fun e => kvPairToProto (entry_kv (ns, path) e)) <$> kv_map st !! (ns, path) /\
  exists kv rresp w'', KVServer.Range ctx (get_request key limit o t) w' = (Ok rresp, w'') /\
    rresp_Kvs rresp = [kv] /\ mv_Key kv = key /\ mv_Value kv = value /\
    mv_ModRevision kv = hdr_Revision (presp_Header resp) /\
    hdr_Revision (rresp_Header rresp) = hdr_Revision (presp_Header resp).
Proof.
  intros Hc Hp Hb Hf Hi Hr Hmax (Hwn & Hwp & ->) Hn Hpa Hput.
  unfold KVServer.Put in Hput. cbn [preq_Key preq_IgnoreValue preq_Value preq_PrevKv] in Hput.
  rewrite SplitKey_JoinKey in Hput by done.
  apply appbind_Ok in Hput as ([] & w1 & Ha & Hput). injection Ha as Ha <-.
  apply checkAccess_Ok, allowed_write_read in Ha.
  apply appbind_Ok in Hput as ([prev rev] & w2 & Hput%mapErrA_Ok & [= <- <-]).
  eapply Service_PutKey_top in Hput as (Hi' & Hb' & st' & Hr' & -> & [= -> ->]); [|done..].
  split. { simpl. by destruct (kv_map st !! (ns, path)). }
  set (st1 := spec_put (ns, path) value st) in *.
  destruct (RangeQuery_key_top Hf ctx ns path limit w2 st1) as (more & w3 & Hq); [done|done|done|apply Hn|].
  assert (He : exists e, kv_map st1 !! (ns, path) = Some e /\ e_value e = value /\ e_mod e = kv_rev st1).
  { unfold st1, spec_put. simpl. eexists. rewrite lookup_insert_eq. split; [done|].
    by destruct (kv_map st !! (ns, path)). }
  destruct He as (e & He & Hv & Hm). rewrite He in Hq. simpl in Hq.
  exists (kvPairToProto (entry_kv (ns, path) e)), (buildRangeResponse (get_request (JoinKey ns path) limit o t)
     [entry_kv (ns, path) e] (kv_rev st1) more), w3.
  split; [|split; [simpl; apply sortKVs_one|]].
  - unfold KVServer.Range, SplitRange. cbn [get_request rreq_Key rreq_RangeEnd].
    rewrite SplitKey_JoinKey by done. rewrite bool_decide_true by done.
    apply appbind_Ok. exists tt, w2. split.
    { unfold checkRangeAccess, checkAccess, liftO. cbn [r_startNS r_endNS]. by rewrite Ha. }
    apply appbind_Ok. exists ([entry_kv (ns, path) e], kv_rev st1, more), w3. split; [|done].
    apply mapErrA_Ok. exact Hq.
  - simpl. by rewrite Hv, Hm.
Qed.

Lemma put_then_range_witness :
  exists kv rresp w'',
    KVServer.Range ctx_background (get_request (str "/prod/a") 1 SortOrder_DESCEND SortTarget_KEY)
      (KVServer.Put ctx_background (mkPutRequest (str "/prod/a") (str "1") true false) world0).2 =
      (Ok rresp, w'') /\
    rresp_Kvs rresp = [kv] /\ mv_Value kv = str "1" /\ mv_ModRevision kv = 1.
Proof.
  destruct (KVServer.Put ctx_background (mkPutRequest (str "/prod/a") (str "1") true false) world0)
    as [r w'] eqn:E.
  assert (Hok : match r with Ok x => hdr_Revision (presp_Header x) =? 1 | _ => false end = true).
  { apply (f_equal (fun x => match x.1 with Ok x => hdr_Revision (presp_Header x) =? 1 | _ => false end)) in E.
    cbn [fst] in E. rewrite <- E. by vm_compute. }
  destruct r as [resp| |]; [|done..]. apply Z.eqb_eq in Hok.
  edestruct (put_then_range ctx_background (str "/prod/a") (str "prod") (str "/a") (str "1") 1
    SortOrder_DESCEND SortTarget_KEY world0 (mkKV 0 ∅) resp w') as (_ & kv & rresp & w'' & Hr & Hk & _ & Hv & Hm & _);
    [done|done|by vm_compute|done|apply reachable_store_inv, world0_reachable|apply world0_refines
    |by vm_compute|split; [by_decide|split; [by eexists|reflexivity]]|by_decide|by_decide|exact E|].
  exists kv, rresp, w''. split; [exact Hr|]. split; [exact Hk|]. split; [exact Hv|]. by rewrite Hm.
Defined.

(** ** Where the checks of ranges end *)

Definition writer_of (ns : bytes) : Context_ :=
  mkContext None None (Some (mkClaims [] [] [ns] RoleWriter)).

(** What a range delete answered: the number of keys and the keys. *)
Definition deleted_keys (r : outcome DeleteRangeResponse) : option (Z * list bytes) :=
  match r with
  | Ok resp => Some (dresp_Deleted resp, mv_Key <$> dresp_PrevKvs resp)
  | _ => None
  end.


