(* ===== verification/Util.v ===== *)
(** * Utilities: internal/util

    The bounded ring buffer behind the client-event and webhook-delivery
    histories, pagination and set arithmetic on slices, and path normalisation.
    Slices are lists; an index or a slice expression out of range panics. *)

From S2P Require Import Prelude.
From stdpp Require Import base list gmap strings.
From Stdlib Require Import Ascii ZArith Lia.
Open Scope Z_scope.

(** ** Slices *)

(** [s[lo:hi]] of a slice whose capacity is its length. *)
Definition slice {A} (s : list A) (lo hi : Z) : outcome (list A) :=
  if (0 <=? lo) && (lo <=? hi) && (hi <=? Z.of_nat (length s))
  then Ok (take (Z.to_nat hi - Z.to_nat lo) (drop (Z.to_nat lo) s))
  else Crash GoPanic.

(** [copy(dst, src)]: [dst] afterwards. *)
Definition copy {A} (dst src : list A) : list A := take (length dst) src ++ drop (length src) dst.

(** [s[i] = v]. *)
Definition assign {A} (s : list A) (i : Z) (v : A) : outcome (list A) :=
  if (0 <=? i) && (i <? Z.of_nat (length s)) then Ok (<[Z.to_nat i := v]> s) else Crash GoPanic.

Lemma slice_all {A} (s : list A) lo :
  0 <= lo <= Z.of_nat (length s) -> slice s lo (Z.of_nat (length s)) = Ok (drop (Z.to_nat lo) s).
Proof.
  intros H. unfold slice. destruct (Z.leb_spec 0 lo), (Z.leb_spec lo (Z.of_nat (length s))); try lia.
  rewrite Z.leb_refl. simpl. f_equal. rewrite take_ge; [done|]. rewrite length_drop. lia.
Qed.

Lemma slice_prefix {A} (s : list A) hi :
  0 <= hi <= Z.of_nat (length s) -> slice s 0 hi = Ok (take (Z.to_nat hi) s).
Proof.
  intros H. unfold slice. destruct (Z.leb_spec 0 hi), (Z.leb_spec hi (Z.of_nat (length s))); try lia.
  simpl. by rewrite Nat.sub_0_r, drop_0.
Qed.

(** ** ringbuffer.go *)

Module RingBuffer.

Record Buffer (T : Type) := mkBuffer {
  capacity : Z;
  items : list T;
  head : Z;
  filled : bool;
}.
Arguments mkBuffer {T}.
Arguments capacity {T}.
Arguments items {T}.
Arguments head {T}.
Arguments filled {T}.

Section ring.
(** The zero value of the element type, with which [make] fills a slice. *)
Context {T : Type} (zero : T).

Definition New (cap : Z) : Buffer T :=
  let cap := if cap <? 1 then 1 else cap in
  mkBuffer cap (replicate (Z.to_nat cap) zero) 0 false.

Definition Push (v : T) (r : Buffer T) : outcome (Buffer T) :=
  items' ← assign (items r) (head r) v;
  let head' := Z.rem (head r + 1) (capacity r) in
  Ok (mkBuffer (capacity r) items' head' (if head' =? 0 then true else filled r)).

Definition Snapshot (r : Buffer T) : outcome (list T) :=
  if negb (filled r) then
    src ← slice (items r) 0 (head r);
    Ok (copy (replicate (Z.to_nat (head r)) zero) src)
  else
    let out := replicate (Z.to_nat (capacity r)) zero in
    newer ← slice (items r) 0 (head r);
    older ← slice (items r) (head r) (Z.of_nat (length (items r)));
    let out := copy out older in
    tail ← slice out (capacity r - head r) (Z.of_nat (length out));
    Ok (take (Z.to_nat (capacity r - head r)) out ++ copy tail newer).

Definition Len (r : Buffer T) : Z := if filled r then capacity r else head r.

(** The pushes of a list, oldest first. *)
Fixpoint pushes (l : list T) (r : Buffer T) : outcome (Buffer T) :=
  match l with
  | [] => Ok r
  | v :: l => r' ← Push v r; pushes l r'
  end.

(** What the buffer stands for: the last [capacity] values pushed.  [holds n l r]:
    the buffer of capacity [n] after pushing [l]. *)
Definition last_n (n : nat) (l : list T) : list T := drop (length l - n) l.

Record holds (n : nat) (l : list T) (r : Buffer T) : Prop := {
  h_cap : capacity r = Z.of_nat n;
  h_len : length (items r) = n;
  h_head : head r = Z.of_nat (length l mod n);
  h_filled : filled r = (n <=? length l)%nat;
  h_items : forall i, (i < n)%nat -> (i < length l)%nat ->
    exists k, (length l - n <= k < length l)%nat /\ (k mod n)%nat = i /\ items r !! i = l !! k;
}.

Lemma holds_New cap : let n := Z.to_nat (Z.max 1 cap) in holds n [] (New cap) /\ (0 < n)%nat.
Proof.
  intros n. assert (Hn : (if cap <? 1 then 1 else cap) = Z.of_nat n) by (destruct (Z.ltb_spec cap 1); lia).
  split; [|lia]. unfold New. rewrite Hn. split; simpl; [done| |by rewrite Nat.Div0.mod_0_l| |lia].
  - by rewrite length_replicate, Nat2Z.id.
  - symmetry. apply Nat.leb_gt. lia.
Qed.

Lemma mod_succ a n : (0 < n)%nat -> (S a mod n = if a mod n =? n - 1 then 0 else S (a mod n))%nat.
Proof.
  intros Hn. pose proof (Nat.mod_upper_bound a n ltac:(lia)).
  rewrite <- Nat.add_1_r, Nat.Div0.add_mod. destruct (decide (n = 1%nat)) as [->|H1].
  { by rewrite !Nat.mod_1_r. }
  rewrite (Nat.mod_small 1) by lia. destruct (Nat.eqb_spec (a mod n) (n - 1)) as [E|E].
  - rewrite E. replace (n - 1 + 1)%nat with n by lia. apply Nat.Div0.mod_same.
  - rewrite Nat.mod_small; lia.
Qed.

Lemma Push_holds n l r v :
  (0 < n)%nat -> holds n l r -> exists r', Push v r = Ok r' /\ holds n (l ++ [v]) r'.
Proof.
  intros Hn [Hc Hl Hh Hf Hi]. pose proof (Nat.mod_upper_bound (length l) n ltac:(lia)) as Hm.
  unfold Push, assign. rewrite Hl, Hh, Hc.
  destruct (Z.leb_spec 0 (Z.of_nat (length l mod n))), (Z.ltb_spec (Z.of_nat (length l mod n)) (Z.of_nat n)); try lia.
  simpl. rewrite Nat2Z.id. eexists. split; [done|].
  assert (Hh' : Z.rem (Z.of_nat (length l mod n) + 1) (Z.of_nat n) = Z.of_nat (S (length l) mod n)).
  { rewrite Z.rem_mod_nonneg by lia. rewrite mod_succ by done.
    destruct (Nat.eqb_spec (length l mod n) (n - 1)) as [E|E].
    - rewrite E. replace (Z.of_nat (n - 1) + 1) with (Z.of_nat n) by lia. by rewrite Z.mod_same by lia.
    - rewrite Z.mod_small; lia. }
  rewrite Hh'. split; simpl; rewrite ?length_app, ?Nat.add_1_r; try done.
  - by rewrite length_insert.
  - rewrite Hf. pose proof (Nat.div_mod_eq (length l) n) as Hdm.
    destruct (Z.eqb_spec (Z.of_nat (S (length l) mod n)) 0) as [E|E].
    + symmetry. apply Nat.leb_le. destruct (decide (S (length l) < n)%nat) as [Hlt|]; [|lia].
      rewrite Nat.mod_small in E by done. lia.
    + destruct (Nat.leb_spec n (length l)), (Nat.leb_spec n (S (length l))); try done; try lia.
      assert (S (length l) = n) as En by lia. rewrite En, Nat.Div0.mod_same in E. done.
  - intros i Hin Hil. destruct (decide (i = length l mod n)%nat) as [->|Hne].
    + exists (length l). rewrite list_lookup_insert_eq by lia.
      rewrite lookup_app_r, Nat.sub_diag by lia. split; [lia|done].
    + rewrite list_lookup_insert_ne by done.
      assert (Hil' : (i < length l)%nat).
      { destruct (decide (i = length l)) as [->|]; [|lia]. by rewrite Nat.mod_small in Hne. }
      destruct (Hi i Hin Hil') as (k & Hk & Hki & Hlk). exists k.
      rewrite lookup_app_l by lia. split; [|done]. split; [|lia].
      destruct (decide (k = length l - n)%nat) as [->|]; [|lia].
      destruct (decide (n <= length l)%nat) as [Hle|]; [|lia]. exfalso. apply Hne.
      rewrite <- Hki. rewrite <- (Nat.Div0.mod_add (length l - n) 1 n). f_equal. lia.
Qed.

Lemma pushes_holds n l l' r :
  (0 < n)%nat -> holds n l' r -> exists r', pushes l r = Ok r' /\ holds n (l' ++ l) r'.
Proof.
  intros Hn. revert l' r. induction l as [|v l IH]; intros l' r Hr; simpl.
  - exists r. by rewrite app_nil_r.
  - destruct (Push_holds n l' r v) as (r1 & E & Hr1); [done..|]. simpl. rewrite E. simpl.
    destruct (IH _ _ Hr1) as (r' & E' & Hr'). exists r'. split; [done|]. by rewrite <- app_assoc in Hr'.
Qed.

Lemma copy_exact (dst src : list T) : length dst = length src -> copy dst src = src.
Proof. intros E. unfold copy. rewrite E, take_ge by lia. by rewrite drop_ge, app_nil_r by lia. Qed.

(** The slot of a push index among the last [n]. *)
Lemma holds_lookup n l r k :
  (0 < n)%nat -> holds n l r -> (length l - n <= k < length l)%nat ->
  items r !! (k mod n)%nat = l !! k.
Proof.
  intros Hn Hr Hk. pose proof (Nat.mod_upper_bound k n ltac:(lia)) as Hm.
  destruct (h_items _ _ _ Hr (k mod n)) as (k' & Hk' & E & ->); [done| |].
  { pose proof (Nat.Div0.mod_le k n). lia. }
  f_equal. pose proof (Nat.div_mod_eq k n) as D1. pose proof (Nat.div_mod_eq k' n) as D2.
  rewrite E in D2. assert (k / n = k' / n)%nat; [|nia].
  destruct (Nat.lt_trichotomy (k / n) (k' / n)) as [?|[?|?]]; [nia|done|nia].
Qed.

Lemma Snapshot_holds n l r :
  (0 < n)%nat -> holds n l r ->
  Snapshot r = Ok (last_n n l) /\ Len r = Z.of_nat (Nat.min n (length l)).
Proof.
  intros Hn Hr. destruct Hr as [Hc Hl Hh Hf Hi] eqn:E0. clear E0.
  pose proof (Nat.mod_upper_bound (length l) n ltac:(lia)) as Hm.
  unfold Snapshot, Len, last_n. rewrite Hf, Hc, Hh. destruct (Nat.leb_spec n (length l)) as [Hge|Hlt]; simpl.
  - split; [|lia]. set (h := (length l mod n)%nat) in *.
    rewrite slice_prefix by lia. simpl. rewrite slice_all by lia. simpl. rewrite Nat2Z.id.
    rewrite Nat2Z.id. set (older := drop h (items r)).
    assert (Ho : length older = (n - h)%nat) by (unfold older; rewrite length_drop; lia).
    assert (Eout : copy (replicate n zero) older = older ++ replicate h zero).
    { unfold copy. rewrite length_replicate, take_ge by lia. f_equal.
      rewrite drop_replicate. f_equal. lia. }
    rewrite Eout. rewrite slice_all by (rewrite length_app, length_replicate; lia). simpl.
    replace (Z.to_nat (Z.of_nat n - Z.of_nat h)) with (length older) by lia.
    rewrite take_app_length, drop_app_length.
    rewrite copy_exact by (rewrite length_replicate, length_take; lia). f_equal.
    apply list_eq. intros j. rewrite lookup_drop.
    assert (Hmod : forall x, ((length l - n + x) mod n = (h + x) mod n)%nat).
    { intros x. rewrite <- (Nat.Div0.mod_add (length l - n + x) 1 n).
      replace (length l - n + x + 1 * n)%nat with (length l + x)%nat by lia.
      unfold h. by rewrite Nat.Div0.add_mod_idemp_l. }
    destruct (decide (j < n - h)%nat) as [Hj|Hj].
    + rewrite lookup_app_l by lia. unfold older. rewrite lookup_drop.
      rewrite <- (holds_lookup n l r) by (auto; lia). by rewrite Hmod, Nat.mod_small by lia.
    + rewrite lookup_app_r by lia. rewrite Ho. destruct (decide (j < n)%nat) as [Hjn|Hjn].
      * rewrite lookup_take_lt by lia. rewrite <- (holds_lookup n l r) by (auto; lia).
        rewrite Hmod. replace (h + j)%nat with (j - (n - h) + 1 * n)%nat by lia.
        rewrite Nat.Div0.mod_add, Nat.mod_small; [done|lia].
      * rewrite !lookup_ge_None_2; [done|lia|]. rewrite length_take. lia.
  - rewrite Nat.mod_small by done. split; [|lia]. rewrite slice_prefix by lia. simpl.
    rewrite Nat2Z.id, copy_exact by (rewrite length_replicate, length_take; lia). f_equal.
    replace (length l - n)%nat with 0%nat by lia. rewrite drop_0. apply list_eq. intros j.
    destruct (decide (j < length l)%nat) as [Hj|Hj].
    + rewrite lookup_take_lt by done. rewrite <- (holds_lookup n l r) by (auto; lia).
      by rewrite Nat.mod_small by lia.
    + rewrite !lookup_ge_None_2; [done|lia|]. rewrite length_take. lia.
Qed.
End ring.
End RingBuffer.

(** ** pagination.go, setops.go *)

Module SliceUtil.

(** A nil result and an empty one are the same to every caller. *)
Definition Paginate {T} (items : list T) (offset limit : Z) : outcome (list T) :=
  let total := Z.of_nat (length items) in
  if total <=? offset then Ok []
  else
    let sum := int64 (offset + limit) in
    slice items offset (Z.min sum total).

Section sets.
Context `{Countable T}.

Definition ToSet (s : list T) : gset T := foldl (fun out v => {[v]} ∪ out) ∅ s.

Definition NotIn (s : list T) (set : gset T) : list T :=
  foldl (fun out v => if bool_decide (v ∈ set) then out else out ++ [v]) [] s.

Definition In (s : list T) (set : gset T) : list T :=
  foldl (fun out v => if bool_decide (v ∈ set) then out ++ [v] else out) [] s.

(** The loop of FirstOverlap; [None] is the Go result with [ok == false]. *)
Fixpoint firstIn (set : gset T) (b : list T) : option T :=
  match b with
  | [] => None
  | v :: b => if bool_decide (v ∈ set) then Some v else firstIn set b
  end.

Definition FirstOverlap (a b : list T) : option T :=
  if (length a =? 0)%nat || (length b =? 0)%nat then None
  else firstIn (ToSet a) b.

Definition ComposePost (current added removed : list T) : list T :=
  let removeSet := ToSet removed in
  foldl (fun out v => if negb (bool_decide (v ∈ removeSet)) then out ++ [v] else out) [] current ++ added.

Lemma ToSet_elem s v : v ∈ ToSet s <-> v ∈ s.
Proof.
  unfold ToSet. assert (Hacc : forall out : gset T, v ∈ foldl (fun out v => {[v]} ∪ out) out s <-> v ∈ out \/ v ∈ s).
  { induction s as [|x s IH]; intros out; simpl; [set_solver|]. rewrite IH. set_solver. }
  rewrite Hacc. set_solver.
Qed.

(** The append loops are filters. *)
Lemma loop_filter (P : T -> bool) (s : list T) :
  foldl (fun out v => if P v then out ++ [v] else out) [] s = List.filter P s.
Proof.
  assert (Hacc : forall out, foldl (fun out v => if P v then out ++ [v] else out) out s = out ++ List.filter P s).
  { induction s as [|x s IH]; intros out; simpl; [by rewrite app_nil_r|].
    rewrite IH. destruct (P x); [by rewrite <- app_assoc|done]. }
  by rewrite Hacc.
Qed.
End sets.
End SliceUtil.

(** ** pathutil/normalize.go *)

(** [strings.TrimSuffix(s, suffix)]. *)
Definition trim_suffix (s suffix : bytes) : bytes :=
  if has_suffix s suffix then take (length s - length suffix) s else s.

Definition Normalize (path : bytes) : bytes :=
  if bool_decide (path = []) then str "/"
  else
    let path := if negb (has_prefix path (str "/")) then str "/" ++ path else path in
    trim_suffix path (str "/").

(** ** Properties *)

(** C34: the ring buffer is the bounded queue it stands for.  After any sequence of
    pushes into a new buffer no index is ever out of range, Snapshot returns
    exactly the last values pushed, oldest first, as many as the capacity (at
    least one), and Len is their number. *)
Theorem ring_buffer_last {T} (zero : T) cap l :
  let n := Z.to_nat (Z.max 1 cap) in
  exists r, RingBuffer.pushes l (RingBuffer.New zero cap) = Ok r /\
    RingBuffer.Snapshot zero r = Ok (drop (length l - n) l) /\
    RingBuffer.Len r = Z.of_nat (Nat.min n (length l)).
Proof.
  intros n. destruct (RingBuffer.holds_New zero cap) as [H0 Hn]. fold n in H0, Hn.
  destruct (RingBuffer.pushes_holds n l [] _ Hn H0) as (r & E & Hr). simpl in Hr.
  exists r. split; [done|]. by apply (RingBuffer.Snapshot_holds zero).
Qed.

(** C35: pagination within bounds.  For an offset and a limit that are not negative
    and whose sum fits 64 bits, Paginate returns the page, whatever the length;
    a sum that overflows, or a negative offset, inside the list panics. *)
Theorem paginate_bounds {T} (items : list T) offset limit :
  0 <= limit -> in_int64 offset -> in_int64 limit -> Z.of_nat (length items) < two63 ->
  SliceUtil.Paginate items offset limit =
  if decide (Z.of_nat (length items) <= offset) then Ok []
  else if decide (0 <= offset /\ offset + limit < two63)
  then Ok (take (Z.to_nat limit) (drop (Z.to_nat offset) items))
  else Crash GoPanic.
Proof.
  intros Hl Ho Hli Hlen. unfold SliceUtil.Paginate.
  destruct (Z.leb_spec (Z.of_nat (length items)) offset) as [Hge|Hlt];
    [by rewrite decide_True by lia|]. rewrite decide_False by lia. unfold slice.
  unfold in_int64, two63 in *. case_decide as Hd.
  - destruct Hd as [H0 Hs]. rewrite int64_id by (unfold in_int64, two63; lia).
    destruct (Z.leb_spec 0 offset), (Z.leb_spec offset (Z.min (offset + limit) (Z.of_nat (length items)))),
      (Z.leb_spec (Z.min (offset + limit) (Z.of_nat (length items))) (Z.of_nat (length items))); try lia.
    simpl. f_equal. apply list_eq. intros i.
    destruct (decide (i < Z.to_nat limit)%nat) as [Hi|Hi].
    + destruct (decide (i < Z.to_nat (Z.min (offset + limit) (Z.of_nat (length items))) - Z.to_nat offset)%nat).
      * by rewrite !lookup_take_lt by lia.
      * rewrite lookup_take_ge by lia. rewrite lookup_take_lt by lia.
        rewrite lookup_drop. symmetry. apply lookup_ge_None_2. lia.
    + by rewrite !lookup_take_ge by lia.
  - destruct (Z.leb_spec 0 offset) as [H0|H0]; [|done].
    assert (E : int64 (offset + limit) = offset + limit - two64).
    { unfold int64, two64, two63. rewrite <- (Z.mod_unique (offset + limit + 2 ^ 63) (2 ^ 64) 1
        (offset + limit + 2 ^ 63 - 2 ^ 64)); lia. }
    rewrite E. unfold two64. destruct (Z.leb_spec offset (Z.min (offset + limit - 2 ^ 64) (Z.of_nat (length items)))); [lia|done].
Qed.

Lemma paginate_bounds_witness : SliceUtil.Paginate [10; 20; 30] 1 5 = Ok [20; 30].
Proof.
  rewrite paginate_bounds; [reflexivity|lia|unfold in_int64, two63; lia|unfold in_int64, two63; lia
    |unfold two63; simpl; lia].
Defined.

(** Explicit deltas.  ComposePost is the current elements that are not
    removed, then the added ones: as a set (current minus removed) union added;
    and FirstOverlap finds an element exactly when the two lists share one, the
    first of its second list that is in the first. *)
Theorem delta_arithmetic `{Countable T} (current added removed : list T) :
  (forall v, v ∈ SliceUtil.ComposePost current added removed <->
     (v ∈ current /\ v ∉ removed) \/ v ∈ added) /\
  SliceUtil.ComposePost current added removed =
    SliceUtil.NotIn current (SliceUtil.ToSet removed) ++ added /\
  (SliceUtil.FirstOverlap added removed = None <-> forall v, v ∈ added -> v ∉ removed).
Proof.
  assert (Ecp : SliceUtil.ComposePost current added removed =
            List.filter (fun v => negb (bool_decide (v ∈ SliceUtil.ToSet removed))) current ++ added)
    by (unfold SliceUtil.ComposePost; by rewrite SliceUtil.loop_filter).
  split; [|split].
  - intros v. rewrite Ecp, elem_of_app, list_elem_of_In, filter_In, <- list_elem_of_In.
    rewrite negb_true_iff, bool_decide_eq_false, SliceUtil.ToSet_elem. done.
  - rewrite Ecp. f_equal. unfold SliceUtil.NotIn. rewrite <- SliceUtil.loop_filter.
    assert (Hx : forall s acc, foldl (fun out v => if negb (bool_decide (v ∈ SliceUtil.ToSet removed)) then out ++ [v] else out) acc s =
      foldl (fun out v => if bool_decide (v ∈ SliceUtil.ToSet removed) then out else out ++ [v]) acc s).
    { induction s as [|x s IH]; intros acc; simpl; [done|]. by case_bool_decide; simpl. }
    apply Hx.
  - unfold SliceUtil.FirstOverlap. destruct added as [|a added]; [split; [set_solver|done]|].
    destruct removed as [|b removed]; [split; [set_solver|done]|].
    change (SliceUtil.firstIn (SliceUtil.ToSet (a :: added)) (b :: removed) = None <->
            forall v, v ∈ a :: added -> v ∉ b :: removed).
    generalize (b :: removed). intros l. induction l as [|x l IH]; [split; [set_solver|done]|].
    simpl. case_bool_decide as D; rewrite SliceUtil.ToSet_elem in D.
    + split; [done|]. intros Hd. exfalso. apply (Hd x); set_solver.
    + rewrite IH. set_solver.
Qed.
