(* ===== verification/Publisher.v ===== *)
(** * The watch publisher: internal/transport/watch/publisher.go

    Subscriptions with a namespace and a path prefix, each with a buffered
    channel; a notification is offered to every matching one and dropped where
    the buffer is full.  Every method takes the publisher's mutex, so a run is a
    sequence of whole method calls and of receives by the subscribers.

    A channel is a heap object: its reader keeps it after the subscription is
    gone.  Sending on a closed channel and closing one twice panic. *)

From S2P Require Import Prelude.
From S2P Require Import Domain.
From S2P Require Import Concrete.
From S2P Require Import Manager.
From stdpp Require Import base list gmap strings.
From Stdlib Require Import Ascii ZArith Lia.
Open Scope Z_scope.

Definition defaultBufferSize : nat := 100.

(** A channel of WatchEvents: what is buffered, oldest first, and whether it is
    closed. *)
Record channel := mkChannel { ch_buf : list WatchEvent; ch_closed : bool }.

Record subscription := mkSubscription {
  s_pathPrefix : bytes;
  s_namespace : bytes;
  s_events : nat;      (* the channel, an index of the heap *)
}.

(** The keys of the Go map are the decimal forms of the numbers; [p_cleaned] are
    the ids whose sync.Once has run. *)
Record Publisher := mkPublisher {
  p_subscriptions : gmap Z subscription;
  p_nextID : Z;
  p_chans : list channel;
  p_cleaned : gset Z;
}.

Definition NewPublisher : Publisher := mkPublisher ∅ 0 [] ∅.

Definition set_chans (cs : list channel) (p : Publisher) : Publisher :=
  mkPublisher (p_subscriptions p) (p_nextID p) cs (p_cleaned p).

(** Subscribe: the id of the subscription (which stands for its cleanup function)
    and its channel. *)
Definition Subscribe (pathPrefix namespace : bytes) (p : Publisher) : Z * nat * Publisher :=
  let id := int64 (p_nextID p + 1) in
  let c := length (p_chans p) in
  (id, c,
   mkPublisher (<[id := mkSubscription pathPrefix namespace c]> (p_subscriptions p)) id
     (p_chans p ++ [mkChannel [] false]) (p_cleaned p)).

(** [close(c)]. *)
Definition close_chan (c : nat) (p : Publisher) : outcome Publisher :=
  match p_chans p !! c with
  | Some ch =>
      if ch_closed ch then Crash GoPanic
      else Ok (set_chans (<[c := mkChannel (ch_buf ch) true]> (p_chans p)) p)
  | None => Crash GoPanic
  end.

Definition forget (id : Z) (p : Publisher) : Publisher :=
  mkPublisher (delete id (p_subscriptions p)) (p_nextID p) (p_chans p) (p_cleaned p).

(** The cleanup function of a subscription, guarded by its sync.Once. *)
Definition cleanup (id : Z) (p : Publisher) : outcome Publisher :=
  if bool_decide (id ∈ p_cleaned p) then Ok p
  else
    let p := mkPublisher (p_subscriptions p) (p_nextID p) (p_chans p) ({[id]} ∪ p_cleaned p) in
    match p_subscriptions p !! id with
    | Some s => p ← close_chan (s_events s) p; Ok (forget id p)
    | None => Ok p
    end.

(** Shutdown closes every subscription. *)
Definition Shutdown `{RangeOrder} (p : Publisher) : outcome Publisher :=
  foldl (fun r kv => p ← r; p ← close_chan (s_events kv.2) p; Ok (forget kv.1 p))
        (Ok p) (rangeOrder (p_subscriptions p)).

Definition matches (sub : subscription) (event : WatchEvent) : bool :=
  if negb (bool_decide (s_namespace sub = [])) &&
     negb (bool_decide (s_namespace sub = ev_Namespace event)) then false
  else if bool_decide (ev_Path event = []) then true
  else if negb (bool_decide (s_pathPrefix sub = [])) &&
          negb (has_prefix (ev_Path event) (s_pathPrefix sub)) then false
  else true.

(** [select { case c <- event: default: }] *)
Definition offer (event : WatchEvent) (ch : channel) : channel :=
  if (length (ch_buf ch) <? defaultBufferSize)%nat
  then mkChannel (ch_buf ch ++ [event]) (ch_closed ch) else ch.

Definition send (c : nat) (event : WatchEvent) (p : Publisher) : outcome Publisher :=
  match p_chans p !! c with
  | Some ch =>
      if ch_closed ch then Crash GoPanic
      else Ok (set_chans (<[c := offer event ch]> (p_chans p)) p)
  | None => Crash GoPanic
  end.

Definition notify `{RangeOrder} (event : WatchEvent) (p : Publisher) : outcome Publisher :=
  foldl (fun r kv => p ← r;
           if negb (matches kv.2 event) then Ok p else send (s_events kv.2) event p)
        (Ok p) (rangeOrder (p_subscriptions p)).

(** The event each Notify method publishes, at the time [now]. *)
Definition event_of (n : notification) (now : Z) : WatchEvent :=
  match n with
  | NotifyCreated cfg =>
      mkWatchEvent EventTypeCreated (cfg_Path cfg) (cfg_Namespace cfg) (cfg_Revision cfg) (Some cfg) now
  | NotifyUpdated cfg =>
      mkWatchEvent EventTypeUpdated (cfg_Path cfg) (cfg_Namespace cfg) (cfg_Revision cfg) (Some cfg) now
  | NotifyDeleted path namespace revision =>
      mkWatchEvent EventTypeDeleted path namespace revision None now
  | NotifyConfigLocked cfg =>
      mkWatchEvent EventTypeLocked (cfg_Path cfg) (cfg_Namespace cfg) (cfg_Revision cfg) (Some cfg) now
  | NotifyConfigUnlocked cfg =>
      mkWatchEvent EventTypeUnlocked (cfg_Path cfg) (cfg_Namespace cfg) (cfg_Revision cfg) (Some cfg) now
  | NotifyNamespaceLocked namespace =>
      mkWatchEvent EventTypeNamespaceLocked [] namespace 0 None now
  | NotifyNamespaceUnlocked namespace =>
      mkWatchEvent EventTypeNamespaceUnlocked [] namespace 0 None now
  end.

(** A subscriber's receive: the next event, or that the channel is closed and
    drained; [None] would block. *)
Inductive received := Received (event : WatchEvent) | Drained | WouldBlock.

Definition receive (c : nat) (p : Publisher) : received * Publisher :=
  match p_chans p !! c with
  | None => (WouldBlock, p)
  | Some ch =>
      match ch_buf ch with
      | event :: rest => (Received event, set_chans (<[c := mkChannel rest (ch_closed ch)]> (p_chans p)) p)
      | [] => (if ch_closed ch then Drained else WouldBlock, p)
      end
  end.

(** ** Runs

    A cleanup function exists once its subscription was made: no call is made for
    an id that has not been handed out. *)

Inductive call :=
| CSubscribe (pathPrefix namespace : bytes)
| CCleanup (id : Z)
| CNotify (n : notification) (now : Z)
| CReceive (c : nat)
| CShutdown.

Definition run_call `{RangeOrder} (c : call) (p : Publisher) : outcome Publisher :=
  match c with
  | CSubscribe pathPrefix namespace => Ok (Subscribe pathPrefix namespace p).2
  | CCleanup id => if (1 <=? id) && (id <=? p_nextID p) then cleanup id p else Ok p
  | CNotify n now => notify (event_of n now) p
  | CReceive ch => Ok (receive ch p).2
  | CShutdown => Shutdown p
  end.

Fixpoint run `{RangeOrder} (cs : list call) (p : Publisher) : outcome Publisher :=
  match cs with
  | [] => Ok p
  | c :: cs => p' ← run_call c p; run cs p'
  end.

(** ** Invariant *)

(** The channel of every subscription is open and its own; buffers are bounded;
    every id was handed out. *)
Record pub_ok (p : Publisher) : Prop := {
  ok_open id s : p_subscriptions p !! id = Some s ->
    exists buf, p_chans p !! s_events s = Some (mkChannel buf false);
  ok_own id id' s s' : p_subscriptions p !! id = Some s -> p_subscriptions p !! id' = Some s' ->
    s_events s = s_events s' -> id = id';
  ok_bound : Forall (fun ch => (length (ch_buf ch) <= defaultBufferSize)%nat) (p_chans p);
  ok_id id : is_Some (p_subscriptions p !! id) -> 1 <= id <= p_nextID p;
  ok_next : 0 <= p_nextID p;
  ok_cleaned id : id ∈ p_cleaned p -> p_subscriptions p !! id = None /\ id <= p_nextID p;
}.

Lemma offer_bound event ch :
  (length (ch_buf ch) <= defaultBufferSize)%nat ->
  (length (ch_buf (offer event ch)) <= defaultBufferSize)%nat.
Proof.
  unfold offer. intros H. destruct (Nat.ltb_spec (length (ch_buf ch)) defaultBufferSize); simpl; [|done].
  rewrite length_app. simpl. lia.
Qed.

Lemma offer_closed event ch : ch_closed (offer event ch) = ch_closed ch.
Proof. unfold offer. by destruct (_ <? _)%nat. Qed.

(** Replacing the contents of a channel, not its state. *)
Lemma pub_ok_update p c ch ch' :
  pub_ok p -> p_chans p !! c = Some ch -> ch_closed ch' = ch_closed ch ->
  (length (ch_buf ch') <= defaultBufferSize)%nat ->
  pub_ok (set_chans (<[c := ch']> (p_chans p)) p).
Proof.
  intros [Ho Hown Hb Hid Hn Hcl0] Hc Hcl Hlen. split; simpl; try done.
  - intros id s Hs. destruct (Ho id s Hs) as [buf Hbuf].
    destruct (decide (s_events s = c)) as [<-|Hne].
    + rewrite list_lookup_insert_eq by by apply lookup_lt_Some in Hc.
      exists (ch_buf ch'). rewrite Hbuf in Hc. injection Hc as <-. simpl in Hcl. destruct ch'; simpl in *. congruence.
    + rewrite list_lookup_insert_ne by done. by exists buf.
  - by apply Forall_insert.
Qed.

Lemma send_ok p id s event :
  pub_ok p -> p_subscriptions p !! id = Some s ->
  exists ch, p_chans p !! s_events s = Some ch /\
    send (s_events s) event p = Ok (set_chans (<[s_events s := offer event ch]> (p_chans p)) p) /\
    pub_ok (set_chans (<[s_events s := offer event ch]> (p_chans p)) p).
Proof.
  intros Hp Hs. destruct (ok_open p Hp id s Hs) as [buf Hbuf]. eexists. split; [exact Hbuf|].
  unfold send. rewrite Hbuf. simpl. split; [done|].
  eapply pub_ok_update; [done|exact Hbuf|apply offer_closed|]. apply offer_bound.
  pose proof (ok_bound p Hp) as Hb. rewrite Forall_lookup in Hb. by apply (Hb _ _ Hbuf).
Qed.

(** What offering [event] to the subscriptions of [l] makes of the channels. *)
Definition delivered (event : WatchEvent) (l : list (Z * subscription)) (p p' : Publisher) : Prop :=
  p' = set_chans (p_chans p') p /\
  (forall id s, (id, s) ∈ l -> p_chans p' !! s_events s =
     (fun ch => if matches s event then offer event ch else ch) <$> p_chans p !! s_events s) /\
  (forall c, (forall id s, (id, s) ∈ l -> s_events s <> c) -> p_chans p' !! c = p_chans p !! c).

Lemma delivered_fold event l : forall p,
  pub_ok p -> NoDup l ->
  (forall id s, (id, s) ∈ l -> p_subscriptions p !! id = Some s) ->
  exists p', foldl (fun r kv => p ← r;
               if negb (matches kv.2 event) then Ok p else send (s_events kv.2) event p)
             (Ok p) l = Ok p' /\ pub_ok p' /\ delivered event l p p'.
Proof.
  induction l as [|[id s] l IH]; intros p Hp Hnd Hl.
  - exists p. split; [done|]. split; [done|]. split; [by destruct p|]. split; [|done].
    intros id s Hin. by apply not_elem_of_nil in Hin.
  - apply NoDup_cons in Hnd as [Hnin Hnd].
    assert (Hs : p_subscriptions p !! id = Some s) by (apply Hl; left).
    destruct (send_ok p id s event Hp Hs) as (ch & Hch & Hsend & Hp2).
    set (f := fun ch0 : channel => if matches s event then offer event ch0 else ch0).
    set (p2 := set_chans (<[s_events s := f ch]> (p_chans p)) p).
    assert (Hstep : (if negb (matches s event) then Ok p else send (s_events s) event p) = Ok p2).
    { unfold p2, f. destruct (matches s event); simpl; [done|].
      f_equal. rewrite list_insert_id by done. by destruct p. }
    assert (Hok2 : pub_ok p2).
    { unfold p2, f. destruct (matches s event); [done|].
      rewrite list_insert_id by done. by destruct p. }
    assert (Hown : forall id' s', (id', s') ∈ l -> s_events s' <> s_events s).
    { intros id' s' Hin He. assert (Hs' : p_subscriptions p !! id' = Some s') by (apply Hl; by right).
      assert (id' = id) as -> by (eapply (ok_own p Hp); eauto). rewrite Hs in Hs'. by simplify_eq. }
    destruct (IH p2 Hok2 Hnd) as (p' & Hrun & Hp' & Heq & Hin & Hout).
    { intros id' s' ?. apply Hl. by right. }
    exists p'. split; [cbn [foldl outcome_bind]; by rewrite <-Hrun, <-Hstep|]. split; [done|].
    split; [|split].
    + rewrite Heq at 1. by destruct p'.
    + intros id' s' [[= -> ->]|Hl']%elem_of_cons.
      * rewrite Hout by (intros ?? Hi; by eapply Hown). unfold p2. simpl.
        rewrite list_lookup_insert_eq by by apply lookup_lt_Some in Hch. by rewrite Hch.
      * rewrite (Hin _ _ Hl'). unfold p2. simpl. rewrite list_lookup_insert_ne; [done|].
        intros He. by apply (Hown _ _ Hl').
    + intros c Hc. rewrite Hout by (intros ?? Hi; eapply Hc; by right).
      unfold p2. simpl. rewrite list_lookup_insert_ne; [done|]. eapply Hc. left.
Qed.

Section Publishing.
Context `{RangeOrder}.

Lemma notify_ok p event :
  pub_ok p -> exists p', notify event p = Ok p' /\ pub_ok p' /\
    delivered event (rangeOrder (p_subscriptions p)) p p'.
Proof.
  intros Hp. unfold notify. apply delivered_fold; [done|apply NoDup_order|].
  intros id s. by rewrite elem_of_order.
Qed.

Lemma Subscribe_ok pathPrefix namespace p :
  pub_ok p -> p_nextID p + 1 < 2 ^ 63 -> pub_ok (Subscribe pathPrefix namespace p).2.
Proof.
  intros [Ho Hown Hb Hid Hn Hcl0] Hlt.
  assert (Hint : int64 (p_nextID p + 1) = p_nextID p + 1) by (apply int64_id; unfold in_int64, two63; lia).
  assert (Hfresh : forall id s, p_subscriptions p !! id = Some s -> id <> p_nextID p + 1).
  { intros id s Hs ->. destruct (Hid _ (mk_is_Some _ _ Hs)). lia. }
  assert (Hlen : forall id s, p_subscriptions p !! id = Some s -> (s_events s < length (p_chans p))%nat).
  { intros id s Hs. destruct (Ho _ _ Hs) as [buf Hbuf]. by apply lookup_lt_Some in Hbuf. }
  unfold Subscribe. rewrite Hint. split; cbn.
  - intros id s [[<- <-]|[Hne Hs]]%lookup_insert_Some; cbn.
    + exists []. by rewrite list_lookup_middle.
    + destruct (Ho _ _ Hs) as [buf Hbuf]. exists buf. by apply lookup_app_l_Some.
  - intros id id' s s' [[<- <-]|[Hne Hs]]%lookup_insert_Some [[<- <-]|[Hne' Hs']]%lookup_insert_Some; cbn.
    + done.
    + intros He. apply Hlen in Hs'. lia.
    + intros He. apply Hlen in Hs. lia.
    + by eapply Hown.
  - rewrite Forall_app. split; [done|]. constructor; [cbn; lia|constructor].
  - intros id [Hi|[_ Hi%Hid]]%lookup_insert_is_Some; lia.
  - lia.
  - intros id [Hn' Hle]%Hcl0. split; [|lia]. rewrite lookup_insert_ne by lia. done.
Qed.

(** Closing the channel of a subscription and forgetting it. *)
Lemma drop_ok p id s :
  pub_ok p -> p_subscriptions p !! id = Some s ->
  exists p', (p ← close_chan (s_events s) p; Ok (forget id p)) = Ok p' /\ pub_ok p' /\
    p_subscriptions p' = delete id (p_subscriptions p) /\ p_nextID p' = p_nextID p /\
    p_cleaned p' = p_cleaned p.
Proof.
  intros [Ho Hown Hb Hid Hn Hcl0] Hs. destruct (Ho _ _ Hs) as [buf Hbuf].
  unfold close_chan. rewrite Hbuf. cbn. eexists. split; [reflexivity|]. split; [|done].
  split; cbn; try done.
  - intros id' s' [Hne Hs']%lookup_delete_Some. destruct (Ho _ _ Hs') as [buf' Hbuf'].
    exists buf'. rewrite list_lookup_insert_ne; [done|]. intros He. by destruct Hne; eapply Hown.
  - intros id1 id2 s1 s2 [_ H1]%lookup_delete_Some [_ H2]%lookup_delete_Some. by eapply Hown.
  - apply Forall_insert; [done|]. cbn. rewrite Forall_lookup in Hb. by apply (Hb _ _ Hbuf).
  - intros id' [s' [_ Hs']%lookup_delete_Some]. by apply Hid.
  - intros id' [Hn' Hle]%Hcl0. split; [|done]. by apply lookup_delete_None; right.
Qed.

(** The sync.Once of a cleanup function has run. *)
Definition mark (id : Z) (p : Publisher) : Publisher :=
  mkPublisher (p_subscriptions p) (p_nextID p) (p_chans p) ({[id]} ∪ p_cleaned p).

Lemma mark_ok id p :
  pub_ok p -> p_subscriptions p !! id = None -> id <= p_nextID p -> pub_ok (mark id p).
Proof.
  intros [Ho Hown Hb Hid Hn Hcl0] Hs Hle. split; cbn; try done.
  intros id' [->%elem_of_singleton|?%Hcl0]%elem_of_union; done.
Qed.

Lemma drop_mark id c p p' :
  (p ← close_chan c p; Ok (forget id p)) = Ok p' ->
  (p ← close_chan c (mark id p); Ok (forget id p)) = Ok (mark id p').
Proof.
  unfold close_chan. cbn. destruct (p_chans p !! c) as [ch|]; [|done].
  destruct (ch_closed ch); [done|]. cbn. by intros [= <-].
Qed.

(** The first call of a cleanup function removes its subscription, later ones do
    nothing. *)
Lemma cleanup_live p id s :
  pub_ok p -> p_subscriptions p !! id = Some s ->
  exists p', cleanup id p = Ok p' /\ pub_ok p' /\ p_nextID p' = p_nextID p /\
    p_subscriptions p' = delete id (p_subscriptions p).
Proof.
  intros Hp Hs. unfold cleanup.
  rewrite bool_decide_false by (intros [Hno _]%(ok_cleaned p Hp); congruence).
  fold (mark id p). change (p_subscriptions (mark id p)) with (p_subscriptions p). rewrite Hs.
  destruct (drop_ok p id s Hp Hs) as (p' & Hr & Hp' & Hsub & Hn & _).
  exists (mark id p'). split; [by apply drop_mark|]. split; [|done].
  apply mark_ok; [done|by rewrite Hsub, lookup_delete_eq|].
  destruct (ok_id p Hp id (mk_is_Some _ _ Hs)). lia.
Qed.

Lemma cleanup_ok p id :
  pub_ok p -> id <= p_nextID p ->
  exists p', cleanup id p = Ok p' /\ pub_ok p' /\ p_nextID p' = p_nextID p.
Proof.
  intros Hp Hle. destruct (p_subscriptions p !! id) as [s|] eqn:Hs.
  - destruct (cleanup_live p id s Hp Hs) as (p' & ? & ? & ? & _). eauto.
  - unfold cleanup. case_bool_decide; [by exists p|]. fold (mark id p).
    change (p_subscriptions (mark id p)) with (p_subscriptions p). rewrite Hs.
    eexists. split; [reflexivity|]. split; [by apply mark_ok|done].
Qed.

Lemma Shutdown_fold l : forall p,
  pub_ok p -> NoDup l.*1 -> (forall id s, (id, s) ∈ l -> p_subscriptions p !! id = Some s) ->
  exists p', foldl (fun r kv => p ← r; p ← close_chan (s_events kv.2) p; Ok (forget kv.1 p)) (Ok p) l
             = Ok p' /\ pub_ok p' /\ p_nextID p' = p_nextID p /\
             (forall id, p_subscriptions p' !! id = if decide (id ∈ l.*1) then None else p_subscriptions p !! id).
Proof.
  induction l as [|[id s] l IH]; intros p Hp Hnd Hl.
  - exists p. split_and!; try done.
  - apply NoDup_cons in Hnd as [Hnin Hnd].
    destruct (drop_ok p id s Hp) as (p2 & Hr & Hp2 & Hsub & Hn2 & _); [apply Hl; left|].
    destruct (IH p2 Hp2 Hnd) as (p' & Hr' & Hp' & Hn' & Hsub').
    { intros id' s' Hin. rewrite Hsub, lookup_delete_Some. split; [|apply Hl; by right].
      intros ->. by apply Hnin, (list_elem_of_fmap_2' fst l (id', s') id' Hin). }
    exists p'. split_and!; [|done|congruence|].
    + cbn [foldl]. rewrite <-Hr'. f_equal. exact Hr.
    + intros id'. rewrite Hsub', Hsub. cbn [fmap list_fmap fst].
      destruct (decide (id' ∈ l.*1)), (decide (id' ∈ id :: l.*1)) as [Hi|Hi]; try done.
      * by destruct Hi; right.
      * apply elem_of_cons in Hi as [->|]; [|done]. by rewrite lookup_delete_eq.
      * rewrite lookup_delete_ne; [done|]. intros ->. by destruct Hi; left.
Qed.

Lemma Shutdown_ok p :
  pub_ok p -> exists p', Shutdown p = Ok p' /\ pub_ok p' /\ p_nextID p' = p_nextID p /\
    p_subscriptions p' = ∅.
Proof.
  intros Hp. destruct (Shutdown_fold (rangeOrder (p_subscriptions p)) p Hp) as (p' & ? & ? & ? & Hs).
  - rewrite rangeOrder_perm. apply NoDup_fst_map_to_list.
  - intros id s. by rewrite elem_of_order.
  - exists p'. split_and!; try done. apply map_eq. intros id. rewrite Hs, lookup_empty.
    destruct (decide _) as [|Hn]; [done|]. destruct (p_subscriptions p !! id) as [s|] eqn:He; [|done].
    destruct Hn. apply (list_elem_of_fmap_2' fst _ (id, s)); [|done]. by apply elem_of_order.
Qed.

Lemma receive_ok p c :
  pub_ok p -> pub_ok (receive c p).2 /\ p_nextID (receive c p).2 = p_nextID p.
Proof.
  intros Hp. unfold receive. destruct (p_chans p !! c) as [ch|] eqn:Hc; [|done].
  destruct (ch_buf ch) as [|event rest] eqn:Hb; [done|]. cbn. split; [|done].
  eapply pub_ok_update; [done|done|done|]. cbn.
  pose proof (ok_bound p Hp) as Hf. rewrite Forall_lookup in Hf. specialize (Hf _ _ Hc).
  rewrite Hb in Hf. cbn in Hf. lia.
Qed.
End Publishing.

Section Theorems.
Context `{RangeOrder}.

(** The number of subscriptions a call can add. *)
Definition subscribes (c : call) : Z := if c is CSubscribe _ _ then 1 else 0.

Lemma run_call_ok c p :
  pub_ok p -> p_nextID p + subscribes c < 2 ^ 63 ->
  exists p', run_call c p = Ok p' /\ pub_ok p' /\ p_nextID p' = p_nextID p + subscribes c.
Proof.
  intros Hp Hn. destruct c as [pathPrefix namespace|id|n now|ch|]; cbn [run_call subscribes] in *.
  - eexists. split; [reflexivity|]. split; [by apply Subscribe_ok|]. cbn.
    apply int64_id. unfold in_int64, two63. pose proof (ok_next p Hp). lia.
  - destruct (Z.leb_spec 1 id), (Z.leb_spec id (p_nextID p)); cbn; try (exists p; split_and!; [done|done|lia]).
    destruct (cleanup_ok p id Hp) as (p' & ? & ? & ?); [done|]. exists p'. split_and!; [done|done|lia].
  - destruct (notify_ok p (event_of n now) Hp) as (p' & ? & ? & Hd & _). exists p'.
    split_and!; [done|done|]. rewrite Hd. cbn. lia.
  - destruct (receive_ok p ch Hp). eexists. split; [reflexivity|]. split; [done|lia].
  - destruct (Shutdown_ok p Hp) as (p' & ? & ? & ? & _). exists p'. split_and!; [done|done|lia].
Qed.

Lemma run_ok cs : forall p,
  pub_ok p -> p_nextID p + Z.of_nat (length cs) < 2 ^ 63 ->
  exists p', run cs p = Ok p' /\ pub_ok p'.
Proof.
  induction cs as [|c cs IH]; intros p Hp Hn; [by exists p|].
  cbn [length] in Hn. assert (Hc : subscribes c <= 1) by (destruct c; cbn; lia).
  destruct (run_call_ok c p Hp) as (p2 & Hr & Hp2 & Hn2); [lia|].
  destruct (IH p2 Hp2) as (p' & Hr' & Hp'); [lia|].
  exists p'. split; [|done]. cbn [run]. rewrite Hr. exact Hr'.
Qed.

Lemma NewPublisher_ok : pub_ok NewPublisher.
Proof. split; cbn; try done. intros id [s Hs]. by rewrite lookup_empty in Hs. Qed.

(** C32: No sequence of calls - subscriptions, cleanups in any number and order,
    notifications, receives and shutdowns, with any iteration order of the map -
    makes a fresh publisher panic by sending on a closed channel or closing one
    twice; its subscriptions keep open channels of their own and no buffer
    passes its capacity.  The ids wrap only after 2^63 calls. *)
Theorem publisher_safe cs :
  Z.of_nat (length cs) < 2 ^ 63 ->
  exists p, run cs NewPublisher = Ok p /\ pub_ok p.
Proof. intros Hn. apply run_ok; [apply NewPublisher_ok|exact Hn]. Qed.

(** ** What a subscriber gets *)

Fixpoint notify_all (events : list WatchEvent) (p : Publisher) : outcome Publisher :=
  match events with
  | [] => Ok p
  | event :: events => p' ← notify event p; notify_all events p'
  end.

Lemma offer_take event ch b :
  ch_buf ch = take defaultBufferSize b ->
  ch_buf (offer event ch) = take defaultBufferSize (b ++ [event]).
Proof.
  intros Hb. unfold offer. rewrite Hb, length_take.
  destruct (Nat.ltb_spec (defaultBufferSize `min` length b) defaultBufferSize); cbn [ch_buf].
  - rewrite !take_ge; [done|rewrite length_app; cbn; lia|lia].
  - rewrite Hb, take_app_le; [done|lia].
Qed.

Lemma notify_all_ok events : forall p id s b,
  pub_ok p -> p_subscriptions p !! id = Some s ->
  p_chans p !! s_events s = Some (mkChannel (take defaultBufferSize b) false) ->
  exists p', notify_all events p = Ok p' /\ p_subscriptions p' = p_subscriptions p /\
    p_chans p' !! s_events s =
      Some (mkChannel (take defaultBufferSize (b ++ filter (matches s) events)) false).
Proof.
  induction events as [|event events IH]; intros p id s b Hp Hs Hc.
  - exists p. by rewrite filter_nil, app_nil_r.
  - destruct (notify_ok p event Hp) as (p2 & Hr & Hp2 & Heq & Hin & _).
    assert (Hsub : p_subscriptions p2 = p_subscriptions p) by (by rewrite Heq).
    specialize (Hin id s). rewrite elem_of_order, Hc in Hin. specialize (Hin Hs). cbn in Hin.
    destruct (IH p2 id s (if matches s event then b ++ [event] else b) Hp2) as (p' & Hr' & Hsub' & Hc').
    + by rewrite Hsub.
    + rewrite Hin. f_equal. destruct (matches s event) eqn:Hm; [|done].
      destruct (offer event _) as [buf cl] eqn:Ho. f_equal.
      * change buf with (ch_buf (mkChannel buf cl)). rewrite <-Ho. by apply offer_take.
      * change cl with (ch_closed (mkChannel buf cl)). by rewrite <-Ho, offer_closed.
    + exists p'. split; [cbn; rewrite Hr; exact Hr'|]. split; [congruence|]. rewrite Hc'.
      enough ((if matches s event then b ++ [event] else b) ++ filter (matches s) events =
              b ++ filter (matches s) (event :: events)) as -> by done.
      rewrite filter_cons. destruct (matches s event); [by rewrite <-app_assoc|done].
Qed.

(** C33: A subscriber that does not read gets exactly the events of its
    namespace and prefix, in the order they were published, up to the capacity
    of its channel: what no longer fits is dropped, newest first, and nothing
    else enters the channel. *)
Theorem subscriber_gets_matching pathPrefix namespace p events :
  pub_ok p -> p_nextID p + 1 < 2 ^ 63 ->
  let '(id, c, p1) := Subscribe pathPrefix namespace p in
  exists p2, notify_all events p1 = Ok p2 /\
    p_chans p2 !! c =
      Some (mkChannel (take defaultBufferSize
              (filter (matches (mkSubscription pathPrefix namespace c)) events)) false).
Proof.
  intros Hp Hn. destruct (Subscribe pathPrefix namespace p) as [[id c] p1] eqn:Hsub.
  pose proof (Subscribe_ok pathPrefix namespace p Hp Hn) as Hp1. rewrite Hsub in Hp1.
  unfold Subscribe in Hsub. simplify_eq.
  destruct (notify_all_ok events _ (int64 (p_nextID p + 1))
    (mkSubscription pathPrefix namespace (length (p_chans p))) [] Hp1) as (p2 & Hr & _ & Hc).
  - cbn. by rewrite lookup_insert_eq.
  - cbn. by rewrite list_lookup_middle.
  - by exists p2.
Qed.
End Theorems.

(** ** Witnesses *)

Definition sample_event (p : bytes) : WatchEvent := mkWatchEvent EventTypeDeleted p (str "ns") 3 None 0.

Lemma publisher_safe_witness :
  exists p, @run list_order
    [CSubscribe (str "/a") (str "ns"); CNotify (NotifyDeleted (str "/a/b") (str "ns") 3) 0; CCleanup 1;
     CNotify (NotifyDeleted (str "/a/b") (str "ns") 4) 0; CCleanup 1; CShutdown] NewPublisher = Ok p /\ pub_ok p.
Proof. apply (@publisher_safe list_order). vm_compute. reflexivity. Defined.

Lemma subscriber_gets_matching_witness :
  exists p2, @notify_all list_order (sample_event <$> [str "/a/b"; str "/c"; str "/a"])
               (Subscribe (str "/a") (str "ns") NewPublisher).2 = Ok p2 /\
    p_chans p2 !! 0%nat =
      Some (mkChannel (take defaultBufferSize (filter (matches (mkSubscription (str "/a") (str "ns") 0%nat))
              (sample_event <$> [str "/a/b"; str "/c"; str "/a"]))) false).
Proof.
  apply (@subscriber_gets_matching list_order (str "/a") (str "ns") NewPublisher); [apply NewPublisher_ok|].
  vm_compute. reflexivity.
Defined.
