(* ===== verification/WatchMatch.v ===== *)
(** * Which events a watch sees

    The pure part of internal/handler/etcdv3/watch_server.go: how a watch request
    becomes a subscription of the publisher and a matcher, and how an event or a
    changelog entry becomes a message.  The subscription is a coarse filter by
    namespace and path prefix; the matcher decides.  *)

From S2P Require Import Prelude.
From S2P Require Import Domain.
From S2P Require Import Manager.
From S2P Require Import EtcdRepo.
From S2P Require Import EtcdKey.
From S2P Require Import EtcdKV.
From S2P Require Import Publisher.
From stdpp Require Import base list gmap strings.
From Stdlib Require Import Ascii ZArith Lia.
Open Scope Z_scope.

(** ** Messages *)

Record WatchCreateRequest := mkWatchCreateRequest {
  wreq_Key : bytes;
  wreq_RangeEnd : bytes;
  wreq_StartRevision : Z;
  wreq_PrevKv : bool;
  wreq_ProgressNotify : bool;
}.

(** The oneof [request_union]. *)
Inductive WatchRequest :=
| CreateRequest (r : WatchCreateRequest)
| CancelRequest (watchID : Z)
| ProgressRequest
| NoRequest.

Inductive Event_EventType := mvccpb_PUT | mvccpb_DELETE.

Record Event := mkEvent { event_Type : Event_EventType; event_Kv : KeyValue }.

Record WatchResponse := mkWatchResponse {
  wresp_Header : ResponseHeader;
  wresp_WatchId : Z;
  wresp_Created : bool;
  wresp_Canceled : bool;
  wresp_Events : list Event;
}.

(** ** The watcher *)

(** [w_unsubscribe] is the id of the subscription its cleanup function removes;
    the cancel function is the context's. *)
Record watcher := mkWatcher {
  wa_id : Z;
  wa_start : bytes;
  wa_end : bytes;
  wa_namespace : bytes;
  wa_pathPrefix : bytes;
  wa_scanAll : bool;
  wa_singleKey : bool;
  wa_exactPath : bytes;
  wa_prevKv : bool;
  wa_progress : bool;
  wa_unsubscribe : option Z;
  wa_claims : option Claims;
  wa_tracked : bytes;
}.

(** The longest shared prefix of two paths. *)
Fixpoint commonPathPrefix (a b : bytes) : bytes :=
  match a, b with
  | x :: a, y :: b => if bool_decide (x = y) then x :: commonPathPrefix a b else []
  | _, _ => []
  end.

Definition subscribeFilter (scanAll singleKey : bool) (startNS startPath endNS endPath : bytes) :
    bytes * bytes :=
  if scanAll then ([], [])
  else if singleKey then (startNS, startPath)
  else if bytes_eqb startNS endNS then (startNS, commonPathPrefix startPath endPath)
  else ([], []).

(** The watcher createWatcher builds once its request has been decoded. *)
Definition newWatcher (id : Z) (req : WatchCreateRequest) (r : keyRange) (unsubscribe : Z)
    (claims : option Claims) : watcher :=
  let scanAll := bytes_eqb (r_endNS r) zeroString in
  let singleKey := bytes_eqb (r_endNS r) [] && bytes_eqb (r_endPath r) [] in
  let '(subNamespace, subPrefix) :=
    subscribeFilter scanAll singleKey (r_startNS r) (r_startPath r) (r_endNS r) (r_endPath r) in
  mkWatcher id (wreq_Key req) (wreq_RangeEnd req)
    (if singleKey then r_startNS r else subNamespace) subPrefix scanAll singleKey
    (if singleKey then r_startPath r else [])
    (wreq_PrevKv req) (wreq_ProgressNotify req) (Some unsubscribe) claims [].

Definition matchesKey (w : watcher) (namespace path : bytes) : bool :=
  if negb (namespaceAllowed (wa_claims w) namespace ActionRead) then false
  else if wa_scanAll w then true
  else if wa_singleKey w then bytes_eqb namespace (wa_namespace w) && bytes_eqb path (wa_exactPath w)
  else
    let encoded := JoinKey namespace path in
    if bytes_ltb encoded (wa_start w) then false
    else if negb (bool_decide (wa_end w = [])) && bytes_leb (wa_end w) encoded then false
    else true.

Definition matchesEvent (w : watcher) (ev : WatchEvent) : bool :=
  matchesKey w (ev_Namespace ev) (ev_Path ev).

Definition matchesChangelog (w : watcher) (e : ChangelogEntry) : bool :=
  matchesKey w (cl_Namespace e) (cl_Path e).

(** ** Encoding events *)

Definition eventToProto (ev : WatchEvent) : Event :=
  let key := JoinKey (ev_Namespace ev) (ev_Path ev) in
  if ev_Type ev =? EventTypeDeleted
  then mkEvent mvccpb_DELETE (mkKeyValue key [] 0 (ev_Revision ev) 0)
  else
    match ev_Config ev with
    | Some cfg => mkEvent mvccpb_PUT (mkKeyValue key (cfg_Content cfg) (cfg_CreateRevision cfg)
                                        (cfg_Revision cfg) (cfg_Version cfg))
    | None => mkEvent mvccpb_PUT (mkKeyValue key [] 0 (ev_Revision ev) 0)
    end.

(** A nil value and an empty one are the same field on the wire. *)
Definition changelogToEvent (e : ChangelogEntry) (value : option bytes) : Event :=
  let key := JoinKey (cl_Namespace e) (cl_Path e) in
  if cl_Type e =? EventTypeDeleted
  then mkEvent mvccpb_DELETE (mkKeyValue key [] 0 (cl_Revision e) 0)
  else mkEvent mvccpb_PUT (mkKeyValue key (default [] value) 0 (cl_Revision e) (cl_Version e)).

Definition revisionOfEvent (ev : WatchEvent) : Z :=
  if 0 <? ev_Revision ev then ev_Revision ev
  else match ev_Config ev with Some cfg => cfg_Revision cfg | None => 0 end.

(** ** Facts *)

Lemma commonPathPrefix_l a : forall b, exists t, a = commonPathPrefix a b ++ t.
Proof.
  induction a as [|x a IH]; intros [|y b]; cbn; try by eexists.
  case_bool_decide as Hxy; [|by eexists]. destruct (IH b) as [t Ht]. exists t. cbn. by rewrite <-Ht.
Qed.

Lemma commonPathPrefix_comm a : forall b, commonPathPrefix a b = commonPathPrefix b a.
Proof.
  induction a as [|x a IH]; intros [|y b]; cbn; try done.
  case_bool_decide as H1; case_bool_decide as H2; try congruence.
Qed.

Lemma commonPathPrefix_cons c a b : commonPathPrefix (c :: a) (c :: b) = c :: commonPathPrefix a b.
Proof. cbn. by rewrite bool_decide_true. Qed.

(** Two keys with a separator after the namespace: equal up to it. *)
Lemma JoinKey_sep_inj ns ns' p t :
  wire_ns ns -> slash ∉ ns' -> JoinKey ns' p = slash :: ns ++ slash :: t ->
  ns' = ns /\ (p = slash :: t \/ p <> [] /\ has_prefix p (str "/") = false /\ p = t \/ p = [] /\ t = []).
Proof.
  intros [_ Hns] Hns' E. unfold JoinKey in E.
  destruct (has_prefix p (str "/")) eqn:Hp.
  - apply has_prefix_spec in Hp as [u ->]. cbn in E. injection E as E.
    apply app_sep_inj in E as [-> ->]; [|done..]. split; [done|by left].
  - rewrite orb_true_r in E. cbn in E. injection E as E.
    apply app_sep_inj in E as [-> ->]; [|done..]. split; [done|]. right.
    destruct t; [by right|by left].
Qed.

(** The events and entries of the store: namespaces without a slash, paths that
    start with one; an event of a whole namespace has no path. *)
Definition event_shape (namespace path : bytes) : Prop :=
  (slash ∉ namespace) /\ (path = [] \/ wire_path path).

Lemma between_common ns ps pe enc :
  wire_path ps -> wire_path pe ->
  ~ blt enc (slash :: ns ++ ps) -> blt enc (slash :: ns ++ pe) ->
  has_prefix enc (slash :: ns ++ commonPathPrefix ps pe) = true.
Proof.
  intros _ _ Hlo Hhi. set (P := slash :: ns ++ commonPathPrefix ps pe).
  destruct (commonPathPrefix_l ps pe) as [u Hu], (commonPathPrefix_l pe ps) as [v Hv].
  rewrite commonPathPrefix_comm in Hv.
  assert (Hps : slash :: ns ++ ps = P ++ u) by (unfold P; rewrite Hu at 1; cbn; by rewrite app_assoc).
  assert (Hpe : slash :: ns ++ pe = P ++ v) by (unfold P; rewrite Hv at 1; cbn; by rewrite app_assoc).
  destruct (has_prefix enc P) eqn:Hp; [done|].
  rewrite <-(has_prefix_app P v), <-Hpe. symmetry. eapply has_prefix_interval; [|exact Hp|].
  - eapply nblt_trans; [|exact Hlo]. rewrite Hps. apply nblt_app_r.
  - intros Hlt. eapply blt_irrefl, blt_trans; eauto.
Qed.

Lemma SplitRange_Some key rangeEnd r :
  SplitRange key rangeEnd = Some r ->
  wire_ns (r_startNS r) /\ wire_path (r_startPath r) /\
  (rangeEnd = [] /\ r_endNS r = [] /\ r_endPath r = [] \/
   rangeEnd = zeroString /\ r_endNS r = zeroString \/
   rangeEnd <> [] /\ SplitKey rangeEnd = Some (r_endNS r, r_endPath r)).
Proof.
  unfold SplitRange. destruct (SplitKey key) as [[sns sp]|] eqn:Hk; [|done].
  apply SplitKey_Some in Hk as (? & ? & _). case_bool_decide as He; [intros [= <-]; split_and!; auto|].
  destruct (bytes_eqb rangeEnd zeroString) eqn:Hz.
  - intros [= <-]. apply bool_decide_eq_true in Hz. split_and!; auto.
  - destruct (SplitKey rangeEnd) as [[ens ep]|]; [|done]. intros [= <-]. split_and!; auto.
Qed.

(** A range of one namespace: what it contains is of the namespace, beneath the
    common prefix of its ends. *)
Lemma range_admits ns t rangeEnd pe ns' p :
  wire_ns ns -> SplitKey rangeEnd = Some (ns, pe) -> event_shape ns' p ->
  ~ blt (JoinKey ns' p) (slash :: ns ++ slash :: t) -> blt (JoinKey ns' p) rangeEnd ->
  ns' = ns /\ (p = [] \/ has_prefix p (commonPathPrefix (slash :: t) pe) = true).
Proof.
  intros Hns Hend [Hns' Hp] Hlo Hhi. apply SplitKey_Some in Hend as (_ & [te ->] & Hend).
  assert (rangeEnd = slash :: ns ++ slash :: te) as ->.
  { destruct Hend as [->|[-> _]]; [done|]. exfalso. eapply blt_irrefl, nblt_blt_trans; [|exact Hhi].
    eapply nblt_trans; [|exact Hlo]. change (~ blt ((slash :: ns) ++ slash :: t) (slash :: ns)). apply nblt_app_r. }
  pose proof (between_common ns (slash :: t) (slash :: te) _ ltac:(by eexists) ltac:(by eexists) Hlo Hhi) as Hpre.
  apply has_prefix_spec in Hpre as [u Hu]. rewrite commonPathPrefix_cons in Hu |- *.
  cbn [app] in Hu. rewrite <-app_assoc in Hu. cbn [app] in Hu.
  apply JoinKey_sep_inj in Hu as (-> & Hcase); [|done..]. split; [done|].
  destruct Hp as [->|[q ->]]; [by left|right].
  destruct Hcase as [[= ->]|[(_ & Hbad & _)|[[=] _]]]; [apply (has_prefix_app (slash :: _))|done].
Qed.

#[local] Ltac fields :=
  cbn [wa_claims wa_scanAll wa_singleKey wa_start wa_end wa_namespace wa_exactPath wa_pathPrefix negb andb].

Lemma filter_admits id req r unsub claims ns p :
  SplitRange (wreq_Key req) (wreq_RangeEnd req) = Some r ->
  wreq_Key req = JoinKey (r_startNS r) (r_startPath r) -> event_shape ns p ->
  let w := newWatcher id req r unsub claims in
  matchesKey w ns p = true ->
  wa_namespace w = ns /\ (p = [] \/ has_prefix p (wa_pathPrefix w) = true) \/
  wa_namespace w = [] /\ wa_pathPrefix w = [].
Proof.
  intros Hsplit Hkey Hev w. apply SplitRange_Some in Hsplit as (Hwns & [t Ht] & Hend).
  subst w. unfold newWatcher, matchesKey, subscribeFilter.
  destruct (bytes_eqb (r_endNS r) zeroString) eqn:Hscan.
  { apply bool_decide_eq_true in Hscan. rewrite Hscan. cbn. auto. }
  destruct (bytes_eqb (r_endNS r) [] && bytes_eqb (r_endPath r) []) eqn:Hsingle.
  { cbn. destruct (namespaceAllowed _ _ _); [|done]. cbn. intros [Hn Hp]%andb_true_iff.
    apply bool_decide_eq_true in Hn, Hp. left. rewrite Hn, Hp, has_prefix_refl. auto. }
  destruct (bytes_eqb (r_startNS r) (r_endNS r)) eqn:Heq; [|cbn; auto].
  apply bool_decide_eq_true in Heq. fields. destruct (namespaceAllowed _ _ _); [|done]. fields.
  destruct Hend as [(_ & Hns & Hp)|[(_ & Hns)|[Hne Hend]]]; [by rewrite Hns, Hp in Hsingle|by rewrite Hns in Hscan|].
  destruct (bytes_ltb _ (wreq_Key req)) eqn:Hlo; [done|]. rewrite bool_decide_false by done. fields.
  destruct (bytes_leb (wreq_RangeEnd req) (JoinKey ns p)) eqn:Hhi; [done|]. intros _. left.
  apply bytes_ltb_ge in Hlo. rewrite Hkey, Ht, JoinKey_slash in Hlo. rewrite <-Heq in Hend. rewrite Ht.
  assert (Hhi' : blt (JoinKey ns p) (wreq_RangeEnd req)).
  { apply dec_stable. intros Hn. apply bytes_leb_le in Hn. congruence. }
  by destruct (range_admits _ _ _ _ _ _ Hwns Hend Hev Hlo Hhi') as [-> ?].
Qed.

(** C39: The publisher's filter never hides an event of the watch.  For a request
    whose key has its path separator, every event the matcher accepts - a config's
    or a whole namespace's - passes the subscription the server asks for, for one
    key, a range of one namespace, a range across namespaces and the full scan. *)
Theorem subscription_covers id req r unsub claims c ev :
  SplitRange (wreq_Key req) (wreq_RangeEnd req) = Some r ->
  wreq_Key req = JoinKey (r_startNS r) (r_startPath r) ->
  event_shape (ev_Namespace ev) (ev_Path ev) ->
  let w := newWatcher id req r unsub claims in
  matchesEvent w ev = true ->
  matches (mkSubscription (wa_pathPrefix w) (wa_namespace w) c) ev = true.
Proof.
  intros Hsplit Hkey Hev w Hm.
  assert (Hfilter : wa_namespace w = ev_Namespace ev /\
            (ev_Path ev = [] \/ has_prefix (ev_Path ev) (wa_pathPrefix w) = true) \/
          wa_namespace w = [] /\ wa_pathPrefix w = []).
  { by eapply filter_admits. }
  unfold matches. cbn [s_namespace s_pathPrefix].
  destruct Hfilter as [[-> Hp]|[-> ->]]; [|cbn; by case_bool_decide].
  rewrite (bool_decide_eq_true_2 (ev_Namespace ev = ev_Namespace ev) eq_refl). cbn [negb].
  rewrite andb_false_r. case_bool_decide; [done|]. destruct Hp as [Hp|Hp]; [done|].
  by rewrite Hp, andb_false_r.
Qed.

Definition request (key rangeEnd : bytes) (startRevision : Z) : WatchCreateRequest :=
  mkWatchCreateRequest key rangeEnd startRevision false false.

Lemma subscription_covers_witness :
  matches (mkSubscription (str "/app") (str "prod") 0%nat)
    (mkWatchEvent EventTypeDeleted (str "/app.json") (str "prod") 7 None 0) = true.
Proof.
  pose (r := mkKeyRange (str "prod") (str "/app") (str "prod") (str "/app0")).
  apply (subscription_covers 1 (request (str "/prod/app") (str "/prod/app0") 0) r 1 None 0%nat
    (mkWatchEvent EventTypeDeleted (str "/app.json") (str "prod") 7 None 0)); [reflexivity|reflexivity| |reflexivity].
  split; [by_decide|]. right. by eexists.
Defined.

(** Without the separator the filter is narrower than the matcher: a range that
    starts at the bare name of a namespace contains keys of the namespaces whose
    name continues it with a hyphen; they are replayed from the history but their
    events do not pass the subscription. *)
Lemma bare_key_hidden :
  let req := request (str "/prod") (str "/prod/b") 0 in
  let ev := mkWatchEvent EventTypeDeleted (str "/a") (str "prod-eu") 7 None 0 in
  exists r, SplitRange (wreq_Key req) (wreq_RangeEnd req) = Some r /\
    let w := newWatcher 1 req r 1 None in
    matchesEvent w ev = true /\
    matches (mkSubscription (wa_pathPrefix w) (wa_namespace w) 0%nat) ev = false.
Proof. eexists. repeat split. Qed.
