(* ===== verification/WatchServer.v ===== *)
(** * The watch service of the etcd API

    internal/handler/etcdv3/watch_server.go: requests of a stream, the watchers
    they create and remove, the replay of the history and the forwarding of events.

    The outside world of a stream is what its context and its transport do: whether
    the [n]-th Send fails and whether the context is done at its [n]-th check.  A
    watcher's goroutine is a program over the messages sent so far; the history
    loop has fuel, one unit per batch.  Calls of the monitor's tracker return
    nothing, so the tracker is the list of the calls it has received. *)

From S2P Require Import Prelude.
From S2P Require Import Bolt.
From S2P Require Import Domain.
From S2P Require Import Manager.
From S2P Require Import ConfigReads.
From S2P Require Import EtcdRepo.
From S2P Require Import Repository.
From S2P Require Import EtcdKey.
From S2P Require Import EtcdKV.
From S2P Require Import Publisher.
From S2P Require Import WatchMatch.
From stdpp Require Import base list gmap strings.
From Stdlib Require Import Ascii ZArith Lia.
Open Scope Z_scope.

#[local] Set Warnings "-register-all".

(** ** Interfaces *)

(** The interface [WatchRepo]. *)
Class WatchRepo `{Bolt} := {
  repo_CurrentRevisionValue : Context_ -> App Z;
  repo_ListChanges : Context_ -> Z -> Z -> App (list ChangelogEntry);
  repo_GetKVAtRevision : Context_ -> bytes -> bytes -> Z -> App (option bytes);
}.

(** The server is given the config repository. *)
#[export] Instance ConfigRepo_WatchRepo `{Bolt} `{Disk} `{Clock} `{Codecs} `{GoSort} `{UnicodeLower} :
    WatchRepo := {
  repo_CurrentRevisionValue := Repository.CurrentRevisionValue;
  repo_ListChanges := Repository.ListChanges;
  repo_GetKVAtRevision := Repository.GetKVAtRevision;
}.

(** domain.ActiveWatch *)
Record ActiveWatch := mkActiveWatch {
  aw_WatchID : Z;
  aw_StartKey : bytes;
  aw_EndKey : bytes;
  aw_StartRevision : Z;
  aw_CreatedAt : Z;
  aw_PrevKv : bool;
  aw_ProgressNotify : bool;
}.

(** The calls of the interface [WatchTracker]. *)
Inductive tracker_call :=
| RegisterWatch (connID : bytes) (w : ActiveWatch)
| UnregisterWatch (connID : bytes) (watchID : Z).

Class Stream := {
  send_fault : nat -> option error;
  ctx_Err : nat -> option error;
}.

(** What WithTracker configured: nil, or the connection ID of a context. *)
Class Tracking := connID : option (Context_ -> bytes).

(** ** The messages of a stream *)

Record Session `{Bolt} := mkSession {
  ss_world : World;
  ss_sent : list WatchResponse;   (* oldest first *)
  ss_sends : nat;                 (* calls of Send *)
  ss_polls : nat;                 (* checks of the context *)
}.
Arguments mkSession {_} _ _ _ _.

Definition SM `{Bolt} (A : Type) : Type := Session -> outcome A * Session.

Section session.
Context `{Bolt} `{Stream}.

#[global] Instance SM_ret : MRet SM := fun A a s => (Ok a, s).
#[global] Instance SM_bind : MBind SM := fun A B f m s =>
  match m s with
  | (Ok a, s') => f a s'
  | (Err e, s') => (Err e, s')
  | (Crash c, s') => (Crash c, s')
  end.

Definition onWorld {A} (m : App A) : SM A := fun s =>
  let '(r, w) := m (ss_world s) in (r, mkSession w (ss_sent s) (ss_sends s) (ss_polls s)).

(** The [send] closure: [stream.Send] under its lock. *)
Definition send (resp : WatchResponse) : SM unit := fun s =>
  match send_fault (ss_sends s) with
  | Some e => (Err e, mkSession (ss_world s) (ss_sent s) (S (ss_sends s)) (ss_polls s))
  | None => (Ok tt, mkSession (ss_world s) (ss_sent s ++ [resp]) (S (ss_sends s)) (ss_polls s))
  end.

(** [if err := ctx.Err(); err != nil { return fmt.Errorf(fmt, err) }] *)
Definition checkCtx (fmt : string) : SM unit := fun s =>
  (match ctx_Err (ss_polls s) with Some e => Err (EWrap fmt [] e) | None => Ok tt end,
   mkSession (ss_world s) (ss_sent s) (ss_sends s) (S (ss_polls s))).

(** ** Forwarding and replay *)

Definition eventResponse (w : watcher) (rev : Z) (ev : Event) : WatchResponse :=
  mkWatchResponse (newHeader rev) (wa_id w) false false [ev].

Definition forwardEvent (w : watcher) (ev : WatchEvent) (lastSent : Z) : SM Z :=
  if negb (matchesEvent w ev) then mret lastSent
  else
    let rev := revisionOfEvent ev in
    if (0 <? rev) && (rev <=? lastSent) then mret lastSent
    else
      _ ← send (eventResponse w rev (eventToProto ev));
      mret (if lastSent <? rev then rev else lastSent).

Context `{!WatchRepo}.

Definition replayEntry (ctx : Context_) (w : watcher) (e : ChangelogEntry) (lastSent : Z) : SM Z :=
  if negb (matchesChangelog w e) then mret lastSent
  else
    value ← (if cl_Type e =? EventTypeDeleted then mret None
             else r ← onWorld (attemptA (repo_GetKVAtRevision ctx (cl_Namespace e) (cl_Path e) (cl_Revision e)));
                  mret (match r with inr v => v | inl _ => None end));
    _ ← send (eventResponse w (cl_Revision e) (changelogToEvent e value));
    mret (if lastSent <? cl_Revision e then cl_Revision e else lastSent).

(** The inner loop: the entries of a batch; the result is [since] and [lastSent]. *)
Fixpoint replayEntries (ctx : Context_) (w : watcher) (entries : list ChangelogEntry)
    (since lastSent : Z) : SM (Z * Z) :=
  match entries with
  | [] => mret (since, lastSent)
  | e :: entries =>
      _ ← checkCtx "replay entry: %w";
      lastSent ← replayEntry ctx w e lastSent;
      replayEntries ctx w entries (cl_Revision e) lastSent
  end.

Definition batchSize : Z := 256.

(** One round of the outer loop: the revision to return, or the next round's
    [since] and [lastSent].  The revision returned beside an error is not used. *)
Definition replayBatch (ctx : Context_) (w : watcher) (since lastSent : Z) : SM (Z + Z * Z) :=
  _ ← checkCtx "replay history: %w";
  entries ← onWorld (wrapA "list changes for replay: %w" [] (repo_ListChanges ctx since batchSize));
  if bool_decide (entries = []) then mret (inl lastSent)
  else
    r ← replayEntries ctx w entries since lastSent;
    if Z.of_nat (length entries) <? batchSize then mret (inl r.2) else mret (inr r).

(** [None]: the fuel ran out. *)
Fixpoint replayLoop (fuel : nat) (ctx : Context_) (w : watcher) (since lastSent : Z) (s : Session) :
    option (outcome Z * Session) :=
  match fuel with
  | O => None
  | S fuel =>
      match replayBatch ctx w since lastSent s with
      | (Ok (inl rev), s') => Some (Ok rev, s')
      | (Ok (inr (since, lastSent)), s') => replayLoop fuel ctx w since lastSent s'
      | (Err e, s') => Some (Err e, s')
      | (Crash c, s') => Some (Crash c, s')
      end
  end.

Definition replayHistory (fuel : nat) (ctx : Context_) (w : watcher) (startRevision : Z) (s : Session) :
    option (outcome Z * Session) :=
  replayLoop fuel ctx w (int64 (startRevision - 1)) 0 s.

(** What the realtime loop's [select] yields. *)
Inductive arrival := Arrived (ev : WatchEvent) | ChannelClosed | ContextDone.

(** The realtime loop over its next arrivals; it blocks when they are used up. *)
Fixpoint realtime (w : watcher) (arrivals : list arrival) (lastSent : Z) : SM unit :=
  match arrivals with
  | Arrived ev :: arrivals =>
      fun s =>
        match forwardEvent w ev lastSent s with
        | (Ok lastSent, s') => realtime w arrivals lastSent s'
        | (Err _, s') => (Ok tt, s')
        | (Crash c, s') => (Crash c, s')
        end
  | _ => mret tt
  end.

(** The goroutine of a watcher. *)
Definition runWatcher (fuel : nat) (ctx : Context_) (w : watcher) (startRevision currentRev : Z)
    (arrivals : list arrival) (s : Session) : option (outcome unit * Session) :=
  if (0 <? startRevision) && (startRevision <=? currentRev) then
    match replayHistory fuel ctx w startRevision s with
    | Some (Ok lastSent, s') => Some (realtime w arrivals lastSent s')
    | Some (Err _, s') => Some (Ok tt, s')
    | Some (Crash c, s') => Some (Crash c, s')
    | None => None
    end
  else Some (realtime w arrivals 0 s).

End session.

(** ** The stream *)

(** A watcher's goroutine, as createWatcher starts it. *)
Record goroutine := mkGoroutine {
  go_watcher : watcher;
  go_startRevision : Z;
  go_currentRev : Z;
  go_events : nat;      (* the channel of its subscription *)
}.

(** The variables of Watch, the publisher and what the tracker was told. *)
Record WatchState `{Bolt} := mkWatchState {
  wt_session : Session;
  wt_publisher : Publisher;
  wt_calls : list tracker_call;
  wt_watchers : gmap Z watcher;
  wt_nextID : Z;
  wt_goroutines : list goroutine;
}.
Arguments mkWatchState {_} _ _ _ _ _ _.

Definition HM `{Bolt} (A : Type) : Type := WatchState -> outcome A * WatchState.

Section stream.
Context `{Bolt} `{Stream} `{!WatchRepo} `{Clock} `{RangeOrder} `{Tracking}.

#[global] Instance HM_ret : MRet HM := fun A a s => (Ok a, s).
#[global] Instance HM_bind : MBind HM := fun A B f m s =>
  match m s with
  | (Ok a, s') => f a s'
  | (Err e, s') => (Err e, s')
  | (Crash c, s') => (Crash c, s')
  end.

Definition upd_session (f : Session -> Session) (s : WatchState) : WatchState :=
  mkWatchState (f (wt_session s)) (wt_publisher s) (wt_calls s) (wt_watchers s) (wt_nextID s) (wt_goroutines s).
Definition upd_publisher (f : Publisher -> Publisher) (s : WatchState) : WatchState :=
  mkWatchState (wt_session s) (f (wt_publisher s)) (wt_calls s) (wt_watchers s) (wt_nextID s) (wt_goroutines s).
Definition upd_calls (f : list tracker_call -> list tracker_call) (s : WatchState) : WatchState :=
  mkWatchState (wt_session s) (wt_publisher s) (f (wt_calls s)) (wt_watchers s) (wt_nextID s) (wt_goroutines s).
Definition upd_watchers (f : gmap Z watcher -> gmap Z watcher) (s : WatchState) : WatchState :=
  mkWatchState (wt_session s) (wt_publisher s) (wt_calls s) (f (wt_watchers s)) (wt_nextID s) (wt_goroutines s).
Definition upd_goroutines (f : list goroutine -> list goroutine) (s : WatchState) : WatchState :=
  mkWatchState (wt_session s) (wt_publisher s) (wt_calls s) (wt_watchers s) (wt_nextID s) (f (wt_goroutines s)).

Definition modify (f : WatchState -> WatchState) : HM unit := fun s => (Ok tt, f s).
Definition failH {A} (e : error) : HM A := fun s => (Err e, s).
Definition liftH {A} (r : outcome A) : HM A := fun s => (r, s).

Definition session {A} (m : SM A) : HM A := fun s =>
  let '(r, ss) := m (wt_session s) in (r, upd_session (fun _ => ss) s).

(** [nextID.Add(1)] *)
Definition nextWatchID : HM Z := fun s =>
  let id := int64 (wt_nextID s + 1) in
  (Ok id, mkWatchState (wt_session s) (wt_publisher s) (wt_calls s) (wt_watchers s) id (wt_goroutines s)).

Definition subscribe (pathPrefix namespace : bytes) : HM (nat * Z) := fun s =>
  let '(id, c, p) := Subscribe pathPrefix namespace (wt_publisher s) in
  (Ok (c, id), upd_publisher (fun _ => p) s).

Definition unsubscribe (id : Z) : HM unit := fun s =>
  match cleanup id (wt_publisher s) with
  | Ok p => (Ok tt, upd_publisher (fun _ => p) s)
  | Err e => (Err e, s)
  | Crash c => (Crash c, s)
  end.

Definition set_tracked (cid : bytes) (w : watcher) : watcher :=
  mkWatcher (wa_id w) (wa_start w) (wa_end w) (wa_namespace w) (wa_pathPrefix w) (wa_scanAll w)
    (wa_singleKey w) (wa_exactPath w) (wa_prevKv w) (wa_progress w) (wa_unsubscribe w) (wa_claims w) cid.

Definition trackWatcher (ctx : Context_) (w : watcher) (req : WatchCreateRequest) : HM watcher :=
  match connID with
  | None => mret w
  | Some extractor =>
      let cid := extractor ctx in
      if bool_decide (cid = []) then mret w
      else
        now ← session (onWorld NowA);
        _ ← modify (upd_calls (fun l => l ++ [RegisterWatch cid
               (mkActiveWatch (wa_id w) (wreq_Key req) (wreq_RangeEnd req) (wreq_StartRevision req)
                  now (wreq_PrevKv req) (wreq_ProgressNotify req))]));
        mret (set_tracked cid w)
  end.

(** A released watcher is out of the map, so the cleared [tracked] of the Go
    struct has no reader left. *)
Definition releaseWatcher (w : watcher) : HM unit :=
  _ ← (match wa_unsubscribe w with Some id => unsubscribe id | None => mret tt end);
  if negb (bool_decide (wa_tracked w = [])) && bool_decide (is_Some connID)
  then modify (upd_calls (fun l => l ++ [UnregisterWatch (wa_tracked w) (wa_id w)]))
  else mret tt.

Fixpoint releaseWatchers (ws : list watcher) : HM unit :=
  match ws with
  | [] => mret tt
  | w :: ws => _ ← releaseWatcher w; releaseWatchers ws
  end.

Definition createWatcher (ctx : Context_) (req : WatchCreateRequest) (id : Z) : HM watcher :=
  match SplitRange (wreq_Key req) (wreq_RangeEnd req) with
  | None => failH (EStatus InvalidArgument "invalid watch key: %q" [FStr (wreq_Key req)])
  | Some r =>
      let scanAll := bytes_eqb (r_endNS r) zeroString in
      let singleKey := bytes_eqb (r_endNS r) [] && bytes_eqb (r_endPath r) [] in
      let claims := ctx_claims ctx in
      _ ← liftH (checkWatchAccess claims scanAll (r_startNS r) (r_endNS r));
      let '(subNamespace, subPrefix) :=
        subscribeFilter scanAll singleKey (r_startNS r) (r_startPath r) (r_endNS r) (r_endPath r) in
      currentRev ← session (onWorld (mapErrA (EStatusOf Internal "get revision: %v" [])
                                   (repo_CurrentRevisionValue ctx)));
      _ ← session (send (mkWatchResponse (newHeader currentRev) id true false []));
      '(events, unsub) ← subscribe subPrefix subNamespace;
      w ← trackWatcher ctx (newWatcher id req r unsub claims) req;
      _ ← modify (upd_goroutines (fun l => l ++ [mkGoroutine w (wreq_StartRevision req) currentRev events]));
      mret w
  end.

(** [rev, _ := s.repo.CurrentRevisionValue(ctx)] *)
Definition revisionOrZero (ctx : Context_) : HM Z :=
  r ← session (onWorld (attemptA (repo_CurrentRevisionValue ctx)));
  mret (match r with inr rev => rev | inl _ => 0 end).

Definition handleWatchRequest (ctx : Context_) (req : WatchRequest) : HM unit :=
  match req with
  | CreateRequest r =>
      id ← nextWatchID;
      w ← createWatcher ctx r id;
      modify (upd_watchers <[wa_id w := w]>)
  | CancelRequest id =>
      fun s =>
        let w := wt_watchers s !! id in
        (_ ← modify (upd_watchers (delete id));
         _ ← (match w with Some w => releaseWatcher w | None => mret tt end);
         rev ← revisionOrZero ctx;
         session (send (mkWatchResponse (newHeader rev) id false true []))) s
  | ProgressRequest =>
      rev ← revisionOrZero ctx;
      session (send (mkWatchResponse (newHeader rev) (-1) false false []))
  | NoRequest => mret tt
  end.

(** The loop of Watch over what [stream.Recv] yields: requests, then an error. *)
Fixpoint serve (ctx : Context_) (reqs : list WatchRequest) (recvErr : error) : HM unit :=
  match reqs with
  | req :: reqs => _ ← handleWatchRequest ctx req; serve ctx reqs recvErr
  | [] =>
      if errors_Is recvErr (ESentinel (OtherErr "io.EOF"))
         || errors_Is recvErr (ESentinel (OtherErr "context.Canceled"))
      then mret tt else failH (EWrap "recv watch request: %w" [] recvErr)
  end.

(** The deferred function. *)
Definition teardown : HM unit := fun s =>
  let toRelease := (rangeOrder (wt_watchers s)).*2 in
  releaseWatchers toRelease (upd_watchers (fun _ => ∅) s).

(** Deferred functions run on every return, and when a panic unwinds. *)
Definition Watch (ctx : Context_) (reqs : list WatchRequest) (recvErr : error) : HM unit := fun s =>
  let '(r, s1) := serve ctx reqs recvErr
                    (mkWatchState (wt_session s) (wt_publisher s) (wt_calls s) ∅ 0 (wt_goroutines s)) in
  match teardown s1 with
  | (Crash c, s2) => (Crash c, s2)
  | (_, s2) => (r, s2)
  end.

End stream.
