(* ===== verification/WatchSpec.v ===== *)
(** * What a watch delivers

    Proofs about WatchServer.v against its interface to the storage: the messages
    of one watcher are ordered and authorised whatever fails; a replay ends and
    misses nothing; the stream gives back every subscription and every tracked
    watch it took. *)

From S2P Require Import Prelude.
From S2P Require Import Bolt.
From S2P Require Import Domain.
From S2P Require Import Concrete.
From S2P Require Import Manager.
From S2P Require Import ConfigReads.
From S2P Require Import EtcdRepo.
From S2P Require Import Repository.
From S2P Require Import Effects.
From S2P Require Import Store.
From S2P Require Import WriteSpec.
From S2P Require Import ReadSpec.
From S2P Require Import ConfigKV.
From S2P Require Import TxnSpec.
From S2P Require Import EtcdKey.
From S2P Require Import EtcdKV.
From S2P Require Import Publisher.
From S2P Require Import WatchMatch.
From S2P Require Import WatchServer.
From stdpp Require Import base list gmap strings sorting.
From Stdlib Require Import Ascii ZArith Lia.
Open Scope Z_scope.

#[local] Set Warnings "-register-all".

(** What the server relies on of its storage: a property of the process that the
    reads keep, under which ListChanges lists later revisions in order. *)
Class WatchRepoSpec `{Bolt} `{!WatchRepo} := {
  repo_ok : World -> Prop;
  repo_ListChanges_ok ctx since limit w :
    repo_ok w -> ctx_tx ctx = None -> 0 <= since -> since + 1 < two63 ->
    repo_ok (repo_ListChanges ctx since limit w).2 /\
    forall es, (repo_ListChanges ctx since limit w).1 = Ok es ->
      StronglySorted Z.lt (since :: (cl_Revision <$> es)) /\
      Forall (fun e => cl_Revision e + 1 < two63) es;
  repo_GetKVAtRevision_ok ctx ns path r w :
    repo_ok w -> ctx_tx ctx = None -> repo_ok (repo_GetKVAtRevision ctx ns path r w).2;
}.

(** ** Order and authorisation *)

(** The revisions of some messages, without the zero of namespace events. *)
Definition revs (out : list WatchResponse) : list Z :=
  filter (fun r => 0 < r) ((fun resp => hdr_Revision (wresp_Header resp)) <$> out).

(** One event of the watcher, for a key its request covers and its claims allow. *)
Definition authorised (w : watcher) (resp : WatchResponse) : Prop :=
  exists ev ns p, resp = eventResponse w (hdr_Revision (wresp_Header resp)) ev /\
    mv_Key (event_Kv ev) = JoinKey ns p /\ matchesKey w ns p = true.

(** What was sent between two states, with [lastSent] before and after. *)
Definition progress `{Bolt} (w : watcher) (last : Z) (s : Session) (last' : Z) (s' : Session) : Prop :=
  last <= last' /\
  exists out, ss_sent s' = ss_sent s ++ out /\ Forall (authorised w) out /\
    StronglySorted Z.lt (revs out) /\ Forall (fun r => last < r <= last') (revs out).

Section ordered.
Context `{Bolt} `{Stream} `{!WatchRepo} `{!WatchRepoSpec}.

Lemma progress_refl w last s s' : ss_sent s' = ss_sent s -> progress w last s last s'.
Proof. intros Hs. split; [lia|]. exists []. rewrite app_nil_r. split_and!; [done|constructor..]. Qed.

Lemma progress_trans w l1 s1 l2 s2 l3 s3 :
  progress w l1 s1 l2 s2 -> progress w l2 s2 l3 s3 -> progress w l1 s1 l3 s3.
Proof.
  intros (Hl1 & A & Ha & Hauth & Hsa & Hba) (Hl2 & B & Hb & Hauthb & Hsb & Hbb). split; [lia|].
  exists (A ++ B). unfold revs in *. rewrite fmap_app, filter_app. split_and!.
  - by rewrite Hb, Ha, app_assoc.
  - by apply Forall_app.
  - apply StronglySorted_app_2; [|done..]. intros x1 x2 Hx1 Hx2.
    rewrite Forall_forall in Hba, Hbb. specialize (Hba _ Hx1). specialize (Hbb _ Hx2). lia.
  - apply Forall_app. split; eapply Forall_impl; try done; cbn; lia.
Qed.

Lemma send_progress w rev ev ns p last s r s' :
  0 <= last -> (0 < rev -> last < rev) ->
  mv_Key (event_Kv ev) = JoinKey ns p -> matchesKey w ns p = true ->
  send (eventResponse w rev ev) s = (r, s') ->
  ss_world s' = ss_world s /\ (forall c, r <> Crash c) /\
  progress w last s (if r is Ok _ then Z.max last rev else last) s'.
Proof.
  intros Hlast Hrev Hk Hm. unfold send. destruct (send_fault _); intros [= <- <-].
  - split; [done|]. split; [done|]. by apply progress_refl.
  - split; [done|]. split; [done|]. split; [lia|]. exists [eventResponse w rev ev]. cbn.
    unfold revs. cbn.
    split_and!; [done|constructor; [by exists ev, ns, p|constructor]|..];
      case_decide; repeat constructor; lia.
Qed.

Lemma max_lastSent last rev : (if last <? rev then rev else last) = Z.max last rev.
Proof. destruct (Z.ltb_spec last rev); lia. Qed.

Lemma forwardEvent_progress w ev last s r s' :
  0 <= last -> forwardEvent w ev last s = (r, s') ->
  (forall c, r <> Crash c) /\
  progress w last s (if r is Ok last' then last' else last) s'.
Proof.
  intros Hlast. unfold forwardEvent. destruct (matchesEvent w ev) eqn:Hm; cbn [negb];
    [|intros [= <- <-]; split; [done|by apply progress_refl]].
  destruct ((0 <? revisionOfEvent ev) && (revisionOfEvent ev <=? last)) eqn:Hd.
  { intros [= <- <-]. split; [done|by apply progress_refl]. }
  unfold mbind, SM_bind. destruct (send _ s) as [r1 s1] eqn:Hs.
  eapply (send_progress w _ _ (ev_Namespace ev) (ev_Path ev) last) in Hs as (_ & Hc & Hp); [|lia|lia|..].
  - destruct r1 as [[]|e|c]; intros [= <- <-]; [|done|by destruct (Hc c)].
    rewrite max_lastSent. done.
  - unfold eventToProto. destruct (_ =? _); [done|]. by destruct (ev_Config ev).
  - done.
Qed.

Lemma realtime_progress w arrivals : forall last s r s',
  0 <= last -> realtime w arrivals last s = (r, s') ->
  r = Ok tt /\ exists last', progress w last s last' s'.
Proof.
  induction arrivals as [|[ev| |] arrivals IH]; intros last s r s' Hlast; cbn [realtime];
    try (intros [= <- <-]; split; [done|]; exists last; by apply progress_refl).
  destruct (forwardEvent w ev last s) as [r1 s1] eqn:Hf.
  apply forwardEvent_progress in Hf as [Hc Hp]; [|done].
  destruct r1 as [last1|e|c]; [|intros [= <- <-]; eauto|by destruct (Hc c)].
  intros Hr. apply IH in Hr as (-> & last' & Hp'); [|destruct Hp; lia].
  split; [done|]. exists last'. by eapply progress_trans.
Qed.

Section replay.
Context (ctx : Context_) (w : watcher) (Hctx : ctx_tx ctx = None).

Lemma replayEntry_progress e last s r s' :
  repo_ok (ss_world s) -> 0 <= last < cl_Revision e ->
  replayEntry ctx w e last s = (r, s') ->
  repo_ok (ss_world s') /\ progress w last s (if r is Ok last' then last' else last) s' /\
  (forall last', r = Ok last' -> last' <= cl_Revision e).
Proof.
  intros Hok Hlast. unfold replayEntry. destruct (matchesChangelog w e) eqn:Hm; cbn [negb];
    [|intros [= <- <-]; split_and!; [done|by apply progress_refl|intros ? [= <-]; lia]].
  assert (Hval : exists r1 s1, (if cl_Type e =? EventTypeDeleted then mret None
             else r ← onWorld (attemptA (repo_GetKVAtRevision ctx (cl_Namespace e) (cl_Path e) (cl_Revision e)));
                  mret (match r with inr v => v | inl _ => None end)) s = (r1, s1) /\
             repo_ok (ss_world s1) /\ ss_sent s1 = ss_sent s).
  { destruct (_ =? _); [by eexists _, _|]. unfold mbind, SM_bind, onWorld, attemptA.
    pose proof (repo_GetKVAtRevision_ok ctx (cl_Namespace e) (cl_Path e) (cl_Revision e) _ Hok Hctx) as Hok'.
    destruct (repo_GetKVAtRevision _ _ _ _ _) as [[v|x|c] w1]; by eexists _, _. }
  destruct Hval as (r1 & s1 & Heq & Hok1 & Hsent1). unfold mbind at 1, SM_bind at 1. rewrite Heq.
  assert (Hskip : progress w last s last s1) by by apply progress_refl.
  destruct r1 as [v|x|c]; [|intros [= <- <-]; done..].
  unfold mbind, SM_bind. destruct (send _ s1) as [r2 s2] eqn:Hs.
  eapply (send_progress w _ _ (cl_Namespace e) (cl_Path e) last) in Hs as (Hw & Hc & Hp); [|lia|lia|..].
  - destruct r2 as [[]|x|c]; intros [= <- <-]; [|rewrite Hw; split_and!; [done|by eapply progress_trans|done]
      |by destruct (Hc c)].
    rewrite max_lastSent, Hw. split_and!; [done|by eapply progress_trans|intros ? [= <-]; lia].
  - unfold changelogToEvent. by destruct (_ =? _).
  - done.
Qed.

Lemma replayEntries_progress es : forall since last s r s',
  repo_ok (ss_world s) -> 0 <= last <= since -> StronglySorted Z.lt (since :: (cl_Revision <$> es)) ->
  replayEntries ctx w es since last s = (r, s') ->
  repo_ok (ss_world s') /\ exists last',
    progress w last s last' s' /\
    forall since2 last2, r = Ok (since2, last2) ->
      last2 = last' /\ last' <= since2 /\ (since2 = since \/ since2 ∈ cl_Revision <$> es).
Proof.
  induction es as [|e es IH]; intros since last s r s' Hok Hlast Hs; cbn [replayEntries].
  { intros [= <- <-]. split; [done|]. exists last. split; [by apply progress_refl|].
    intros ?? [= <- <-]. split_and!; [done|lia|by left]. }
  apply StronglySorted_inv in Hs as [Hs Hlt]. apply Forall_cons in Hlt as [Hlt _].
  unfold mbind, SM_bind. destruct (checkCtx _ s) as [r1 s1] eqn:Hp.
  assert (Hq : ss_world s1 = ss_world s /\ ss_sent s1 = ss_sent s /\ forall c, r1 <> Crash c).
  { unfold checkCtx in Hp. injection Hp as <- <-. by destruct (ctx_Err _). }
  destruct Hq as (Hw1 & Hsent1 & Hc1).
  assert (Hp1 : progress w last s last s1) by by apply progress_refl.
  destruct r1 as [[]|x|c]; [|intros [= <- <-]; rewrite Hw1; split; [done|]; exists last; split; done|by destruct (Hc1 c)].
  destruct (replayEntry ctx w e last s1) as [r2 s2] eqn:Hr2.
  apply replayEntry_progress in Hr2 as (Hok2 & Hp2 & Hle); [|by rewrite Hw1|lia].
  destruct r2 as [last2|x|c];
    [|intros [= <- <-]; split; [done|]; exists last; split; [by eapply progress_trans|done]..].
  intros Hr. apply IH in Hr as (Hok3 & last' & Hp3 & Hres); [|done| |done].
  - split; [done|]. exists last'. split; [by eapply progress_trans, progress_trans|].
    intros since3 last3 ->. destruct (Hres _ _ eq_refl) as (-> & ? & Hin). split_and!; [done|done|].
    right. destruct Hin as [->|Hin]; [left|by right].
  - specialize (Hle _ eq_refl). destruct Hp2. lia.
Qed.

Lemma replayLoop_progress fuel : forall since last s r s',
  repo_ok (ss_world s) -> 0 <= last <= since -> since + 1 < two63 ->
  replayLoop fuel ctx w since last s = Some (r, s') ->
  exists last', progress w last s last' s' /\ forall last2, r = Ok last2 -> last2 = last'.
Proof.
  induction fuel as [|fuel IH]; intros since last s r s' Hok Hlast Hmax; cbn [replayLoop]; [done|].
  unfold replayBatch, mbind, SM_bind. destruct (checkCtx _ s) as [r1 s1] eqn:Hp.
  assert (Hq : ss_world s1 = ss_world s /\ ss_sent s1 = ss_sent s /\ forall c, r1 <> Crash c).
  { unfold checkCtx in Hp. injection Hp as <- <-. by destruct (ctx_Err _). }
  destruct Hq as (Hw1 & Hsent1 & Hc1).
  assert (Hp1 : progress w last s last s1) by by apply progress_refl.
  destruct r1 as [[]|x|c]; [|intros [= <- <-]; eexists; split; [done|done]|by destruct (Hc1 c)].
  unfold onWorld, wrapA. rewrite Hw1.
  pose proof (repo_ListChanges_ok ctx since batchSize _ Hok Hctx ltac:(lia) Hmax) as [Hok2 Hlist].
  destruct (repo_ListChanges ctx since batchSize (ss_world s)) as [rl w2] eqn:Hl. cbn [fst snd] in *.
  set (s2 := mkSession w2 _ _ _).
  assert (Hp2 : progress w last s last s2) by by apply progress_refl.
  destruct rl as [es|x|c]; cbn [map_err]; [|intros [= <- <-]; eexists; split; [done|done]..].
  destruct (Hlist es eq_refl) as [Hsorted Hbound].
  case_bool_decide; [intros [= <- <-]; exists last; split; [done|by intros ? [= <-]]|].
  destruct (replayEntries ctx w es since last s2) as [r3 s3] eqn:Hr3.
  apply replayEntries_progress in Hr3 as (Hok3 & last3 & Hp3 & Hres); [|done..].
  destruct r3 as [[since3 last3']|x|c];
    [|intros [= <- <-]; exists last3; split; [by eapply progress_trans|done]..].
  destruct (Hres _ _ eq_refl) as (-> & Hle & Hin). cbn [fst snd].
  destruct (_ <? batchSize); cbn.
  - intros [= <- <-]. exists last3. split; [by eapply progress_trans|by intros ? [= <-]].
  - intros Hr. apply IH in Hr as (last' & Hp' & Hres'); [|done|destruct Hp3; lia|].
    + exists last'. split; [by eapply progress_trans, progress_trans|done].
    + destruct Hin as [->|[e [-> He]]%list_elem_of_fmap]; [done|].
      rewrite Forall_forall in Hbound. by apply Hbound.
Qed.
End replay.

End ordered.

(** ** The config repository is such a storage *)

Section repository.
Context `{BoltSpec} `{Disk} `{CodecsSpec} `{Clock} `{GoSort} `{UnicodeLower}.

Lemma read_db {A} fmt ctx (code : TxM A) w :
  ctx_tx ctx = None ->
  w_db (Repository.read fmt ctx code w).2 = w_db w /\
  forall a, (Repository.read fmt ctx code w).1 = Ok a ->
    exists s, code (QTx false) (mkTS (w_db w) (w_tick w)) = (Ok a, s).
Proof.
  intros Hc. unfold Repository.read, wrapA.
  destruct (begin_fault (length (w_txs w))) as [e|] eqn:Hb.
  - unfold WithReadTx, TxFromContext. rewrite Hc. unfold mbind, App_bind, wrapA, Begin. by rewrite Hb.
  - rewrite WithReadTx_top by done. unfold read_outcome.
    destruct (code _ _) as [[a|e|[]] s]; cbn; split; try done. intros ? [= <-]. eauto.
Qed.

Lemma Forall2_change_revs v l es : Forall2 (change_at v) l es -> cl_Revision <$> es = l.
Proof. induction 1 as [|r e l es (row & _ & ->) _ IH]; [done|]. cbn. by f_equal. Qed.

Lemma seqZ_sorted a n : StronglySorted Z.lt (a :: seqZ (a + 1) n).
Proof.
  destruct (decide (0 <= n)) as [Hn|Hn]; [|rewrite seqZ_nil by lia; repeat constructor].
  rewrite <-(Z2Nat.id n) by done. generalize (Z.to_nat n). clear n Hn. intros n. revert a.
  induction n as [|n IH]; intros a; [rewrite seqZ_nil by lia; repeat constructor|].
  rewrite seqZ_cons by lia. replace (Z.pred (Z.of_nat (S n))) with (Z.of_nat n) by lia.
  replace (Z.succ (a + 1)) with (a + 1 + 1) by lia. specialize (IH (a + 1)). constructor; [done|].
  apply StronglySorted_inv in IH as [_ Hall]. constructor; [lia|]. eapply Forall_impl; [done|]. cbn. lia.
Qed.

Lemma StronglySorted_take {A} (R : relation A) n l : StronglySorted R l -> StronglySorted R (take n l).
Proof.
  revert n. induction l as [|x l IH]; intros [|n] Hs; cbn; try by constructor.
  apply StronglySorted_inv in Hs as [Hs Hx]. constructor; [by apply IH|by apply Forall_take].
Qed.

(** The store invariant, with room for a next revision. *)
Definition room_store (w : World) : Prop :=
  store_inv (view (w_db w)) /\ cur_rev (view (w_db w)) + 1 < two63.

#[export] Program Instance ConfigRepo_WatchRepoSpec : WatchRepoSpec := {| repo_ok := room_store |}.
Next Obligation.
  intros ctx since limit w [Hinv Hroom] Hctx Hs Hmax. cbn [repo_ListChanges ConfigRepo_WatchRepo].
  destruct (read_db "list changes: %w" ctx (listChangesTx since limit) w Hctx) as [Hdb Hok].
  unfold Repository.ListChanges. split; [unfold room_store; by rewrite Hdb|].
  intros es Hes. apply Hok in Hes as [s Hcode].
  destruct (listChangesTx_eval since limit false (mkTS (w_db w) (w_tick w))) as (es' & He & Hf); [done..|].
  rewrite Hcode in He. injection He as -> _. cbn [ts_db] in Hf.
  apply Forall2_change_revs in Hf as Hrevs. split.
  - rewrite fmap_take, Hrevs. apply (StronglySorted_take _ (S _) (since :: seqZ _ _)). apply seqZ_sorted.
  - apply Forall_take. apply Forall_forall. intros e He.
    assert (Hr : cl_Revision e ∈ cl_Revision <$> es') by (by apply list_elem_of_fmap_2).
    rewrite Hrevs in Hr. apply elem_of_seqZ in Hr. lia.
Qed.
Next Obligation.
  intros ctx ns path r w Hok Hctx. unfold repo_GetKVAtRevision, ConfigRepo_WatchRepo, Repository.GetKVAtRevision.
  unfold room_store. by rewrite (proj1 (read_db _ _ _ w Hctx)).
Qed.
End repository.

(** ** The replay *)

Section complete.
Context `{BoltSpec} `{Disk} `{CodecsSpec} `{Clock} `{GoSort} `{UnicodeLower} `{Stream}.
Context (Hbegin : forall n, begin_fault n = None) (Hsend : forall n, send_fault n = None)
  (Hlive : forall n, ctx_Err n = None) (ctx : Context_) (Hctx : ctx_tx ctx = None) (w : watcher).

(** The content GetKVAtRevision finds in a database. *)
Definition value_at (db : DB) (ns path : bytes) (r : Z) : option bytes :=
  match (lookupHistoryAtRevision ns path r (QTx false) (mkTS db 0)).1 with Ok v => v | _ => None end.

(** The message for an entry of the changelog, if the watcher wants it. *)
Definition reply (db : DB) (e : ChangelogEntry) : list WatchResponse :=
  if matchesChangelog w e
  then [eventResponse w (cl_Revision e)
          (changelogToEvent e (if cl_Type e =? EventTypeDeleted then None
                               else value_at db (cl_Namespace e) (cl_Path e) (cl_Revision e)))]
  else [].

(** The revision after the entries: that of the last one sent. *)
Definition lastAfter (es : list ChangelogEntry) (last : Z) : Z :=
  foldl (fun last e => if matchesChangelog w e then Z.max last (cl_Revision e) else last) last es.

(** A step of the goroutine that succeeded, left the database alone and sent [out]. *)
Definition sends {A} (m : SM A) (a : A) (out : list WatchResponse) (s : Session) : Prop :=
  exists s', m s = (Ok a, s') /\ w_db (ss_world s') = w_db (ss_world s) /\ ss_sent s' = ss_sent s ++ out.

Lemma sends_ret {A} (a : A) s : sends (mret a) a [] s.
Proof. exists s. by rewrite app_nil_r. Qed.

Lemma sends_bind {A B} (m : SM A) (f : A -> SM B) a b out out' s :
  sends m a out s ->
  (forall s', w_db (ss_world s') = w_db (ss_world s) -> sends (f a) b out' s') ->
  sends (m ≫= f) b (out ++ out') s.
Proof.
  intros (s1 & Hm & Hdb & Ho) Hf. destruct (Hf s1 Hdb) as (s2 & Hm2 & Hdb2 & Ho2).
  exists s2. unfold mbind, SM_bind. rewrite Hm. split_and!; [done|congruence|by rewrite Ho2, Ho, app_assoc].
Qed.

Lemma sends_checkCtx fmt s : sends (checkCtx fmt) tt [] s.
Proof. unfold checkCtx, sends. rewrite Hlive, app_nil_r. by eexists. Qed.

Lemma sends_send resp s : sends (send resp) tt [resp] s.
Proof. unfold send, sends. rewrite Hsend. by eexists. Qed.

Lemma sends_value ns path r s :
  sends (onWorld (attemptA (repo_GetKVAtRevision ctx ns path r))) (inr (value_at (w_db (ss_world s)) ns path r)) [] s.
Proof.
  unfold sends, onWorld, attemptA. cbn [repo_GetKVAtRevision ConfigRepo_WatchRepo].
  set (v := value_at _ _ _ _).
  assert (Hr : exists w', Repository.GetKVAtRevision ctx ns path r (ss_world s) = (Ok v, w') /\ w_db w' = w_db (ss_world s)).
  { eexists. split; [apply read_top_Ok; [done|done|]; eexists; split; [|reflexivity]|done].
    rewrite lookupHistory_eval. cbn [ts_db]. f_equal. unfold v, value_at. by rewrite lookupHistory_eval. }
  destruct Hr as (w' & -> & Hdb). eexists. split; [reflexivity|]. by rewrite app_nil_r.
Qed.

Lemma sends_replayEntry e last s :
  sends (replayEntry ctx w e last) (if matchesChangelog w e then Z.max last (cl_Revision e) else last)
    (reply (w_db (ss_world s)) e) s.
Proof.
  unfold replayEntry, reply. destruct (matchesChangelog w e); cbn [negb]; [|apply sends_ret].
  set (v := if cl_Type e =? EventTypeDeleted then None else _). change [?x] with ([] ++ [x]).
  apply (sends_bind _ _ v).
  - unfold v. destruct (_ =? _); [apply sends_ret|]. rewrite <-(app_nil_r []).
    eapply sends_bind; [apply sends_value|]. intros s' Hs. apply sends_ret.
  - intros s1 _. rewrite <-(app_nil_r [_]). eapply sends_bind; [apply sends_send|].
    intros s2 _. rewrite max_lastSent. apply sends_ret.
Qed.

Lemma sends_replayEntries es : forall since last s,
  sends (replayEntries ctx w es since last) (default since (list.last (cl_Revision <$> es)), lastAfter es last)
    (es ≫= reply (w_db (ss_world s))) s.
Proof.
  induction es as [|e es IH]; intros since last s; [apply sends_ret|].
  cbn [replayEntries]. rewrite <-(app_nil_l (_ ≫= _)). eapply sends_bind; [apply sends_checkCtx|].
  intros s1 Hs1. cbn [mbind list_bind]. rewrite <-Hs1. eapply sends_bind; [apply sends_replayEntry|].
  intros s2 Hs2. rewrite <-Hs2. cbn [lastAfter foldl fmap list_fmap].
  specialize (IH (cl_Revision e) (if matchesChangelog w e then Z.max last (cl_Revision e) else last) s2).
  rewrite last_cons. destruct (list.last (cl_Revision <$> es)); exact IH.
Qed.
Lemma lastAfter_app es es' last : lastAfter (es ++ es') last = lastAfter es' (lastAfter es last).
Proof. apply foldl_app. Qed.

(** The entries of the changelog after a revision. *)
Definition entries_after (db : DB) (since : Z) (es : list ChangelogEntry) : Prop :=
  Forall2 (change_at (view db)) (seqZ (since + 1) (cur_rev (view db) - since)) es.

Lemma entries_after_app db since es n :
  entries_after db since es -> (0 < n <= length es)%nat ->
  list.last (cl_Revision <$> take n es) = Some (since + Z.of_nat n) /\
  entries_after db (since + Z.of_nat n) (drop n es).
Proof.
  unfold entries_after. intros Hf Hn. set (m := cur_rev (view db) - since) in *.
  assert (Hlen : length es = Z.to_nat m) by (by rewrite <-(Forall2_length _ _ _ Hf), length_seqZ).
  split.
  - apply (Forall2_take _ _ _ n) in Hf. apply Forall2_change_revs in Hf. rewrite Hf.
    rewrite last_lookup, length_take, length_seqZ, Nat.min_l by lia.
    rewrite lookup_take_lt, lookup_seqZ_lt by lia. f_equal. lia.
  - apply (Forall2_drop _ _ _ n) in Hf.
    replace (seqZ (since + Z.of_nat n + 1) (cur_rev (view db) - (since + Z.of_nat n)))
      with (drop n (seqZ (since + 1) m)); [done|].
    apply list_eq. intros i. rewrite lookup_drop.
    destruct (decide (Z.of_nat (n + i) < m)).
    + rewrite !lookup_seqZ_lt by lia. f_equal. lia.
    + by rewrite !lookup_seqZ_ge by lia.
Qed.

Lemma change_at_unique v l es es' : Forall2 (change_at v) l es -> Forall2 (change_at v) l es' -> es = es'.
Proof.
  intros Hf. revert es'. induction Hf as [|r e l es (row & Hrow & ->) _ IH]; intros es' Hf'.
  - by apply Forall2_nil_inv_l in Hf' as ->.
  - apply Forall2_cons_inv_l in Hf' as (e' & es2 & (row' & Hrow' & ->) & Hf' & ->).
    rewrite Hrow in Hrow'. injection Hrow' as <-. f_equal. by apply IH.
Qed.

Lemma sends_replayBatch since last es s :
  store_inv (view (w_db (ss_world s))) -> 0 <= since -> since + 1 < two63 ->
  entries_after (w_db (ss_world s)) since es ->
  sends (replayBatch ctx w since last)
    (if bool_decide (256 <= length es)%nat
     then inr (since + 256, lastAfter (take 256 es) last) else inl (lastAfter es last))
    (take 256 es ≫= reply (w_db (ss_world s))) s.
Proof.
  intros Hinv Hs Hmax Hes. unfold replayBatch. rewrite <-(app_nil_l (_ ≫= _)).
  eapply sends_bind; [apply sends_checkCtx|]. intros s1 Hs1. rewrite <-Hs1 in *.
  rewrite <-(app_nil_l (_ ≫= _)). apply (sends_bind _ _ (take 256 es)).
  { unfold onWorld, wrapA, sends. cbn [repo_ListChanges ConfigRepo_WatchRepo].
    destruct (listChangesTx_eval since batchSize false (mkTS (w_db (ss_world s1)) (w_tick (ss_world s1))))
      as (es' & He & Hf); [done..|]. cbn [ts_db] in Hf.
    assert (es' = es) as ->.
    { eapply change_at_unique; [exact Hf|exact Hes]. }
    assert (Hr : exists w', Repository.ListChanges ctx since batchSize (ss_world s1) = (Ok (take 256 es), w') /\
              w_db w' = w_db (ss_world s1)).
    { eexists. split; [apply read_top_Ok; [done|done|]; eexists; split; [exact He|reflexivity]|done]. }
    destruct Hr as (w' & -> & Hdb). eexists. split; [reflexivity|]. by rewrite app_nil_r. }
  intros s2 Hs2. rewrite <-Hs2. case_bool_decide as Hnil.
  { destruct es; [|done]. apply sends_ret. }
  rewrite <-(app_nil_r (_ ≫= _)). eapply sends_bind; [apply sends_replayEntries|].
  intros s3 _. unfold batchSize. rewrite length_take.
  destruct (Z.ltb_spec (Z.of_nat (256 `min` length es)) 256), (bool_decide_reflect (256 <= length es)%nat); try lia.
  - rewrite take_ge by lia. apply sends_ret.
  - destruct (entries_after_app _ _ _ 256 Hes) as [-> _]; [lia|]. apply sends_ret.
Qed.

Lemma sends_replayLoop fuel : forall since last es s,
  store_inv (view (w_db (ss_world s))) -> cur_rev (view (w_db (ss_world s))) + 1 < two63 -> 0 <= since ->
  since + 1 < two63 ->
  entries_after (w_db (ss_world s)) since es -> (length es / 256 < fuel)%nat ->
  exists s', replayLoop fuel ctx w since last s = Some (Ok (lastAfter es last), s') /\
    w_db (ss_world s') = w_db (ss_world s) /\
    ss_sent s' = ss_sent s ++ (es ≫= reply (w_db (ss_world s))).
Proof.
  induction fuel as [|fuel IH]; intros since last es s Hinv Hroom Hs Hmax Hes Hfuel; [lia|].
  cbn [replayLoop]. destruct (sends_replayBatch since last es s Hinv Hs Hmax Hes) as (s1 & -> & Hdb & Ho).
  case_bool_decide as Hlen.
  - destruct (entries_after_app _ _ _ 256 Hes) as [_ Hes']; [lia|].
    destruct (IH (since + 256) (lastAfter (take 256 es) last) (drop 256 es) s1) as (s2 & Hr & Hdb2 & Ho2);
      rewrite ?Hdb; try done.
    + lia.
    + apply Forall2_length in Hes. rewrite length_seqZ in Hes. lia.
    + rewrite length_drop. pose proof (Nat.div_mod_eq (length es) 256).
      assert (length es = (length es - 256) + 1 * 256)%nat as He by lia.
      rewrite He, Nat.div_add in Hfuel by done. lia.
    + exists s2. rewrite Hr, <-lastAfter_app, take_drop. split_and!; [done|congruence|].
      rewrite Ho2, Ho, Hdb, <-app_assoc, <-bind_app, take_drop. done.
  - exists s1. rewrite take_ge in Ho by lia. done.
Qed.
End complete.

(** C37: A replay ends and is complete.  When the store is sound and neither the
    stream nor the context fails, a goroutine that starts at a revision of the
    past returns from the history within one round per 256 revisions: it sends one
    message for every change from that revision on whose key the watcher matches,
    in revision order and nothing else, with the content the key had at that
    revision, and leaves the store as it was. *)
Theorem replay_complete `{BoltSpec} `{Disk} `{CodecsSpec} `{Clock} `{GoSort} `{UnicodeLower} `{Stream}
    fuel ctx w startRevision s :
  let db := w_db (ss_world s) in let v := view db in
  (forall n, begin_fault n = None) -> (forall n, send_fault n = None) -> (forall n, ctx_Err n = None) ->
  ctx_tx ctx = None -> store_inv v -> cur_rev v + 1 < two63 -> 1 <= startRevision <= cur_rev v ->
  (cur_rev v - startRevision + 1) / 256 < Z.of_nat fuel ->
  exists es s', Forall2 (change_at v) (seqZ startRevision (cur_rev v - startRevision + 1)) es /\
    replayHistory fuel ctx w startRevision s = Some (Ok (lastAfter w es 0), s') /\
    w_db (ss_world s') = db /\ ss_sent s' = ss_sent s ++ (es ≫= reply w db).
Proof.
  intros db v Hbegin Hsend Hlive Hctx Hinv Hroom Hstart Hfuel.
  destruct (listChangesTx_eval (startRevision - 1) 0 false (mkTS db 0)) as (es & _ & Hes);
    [done|lia|lia|]. cbn [ts_db] in Hes. fold v in Hes.
  unfold replayHistory. rewrite int64_id by (unfold in_int64, two63 in *; lia).
  destruct (sends_replayLoop Hbegin Hsend Hlive ctx Hctx w fuel (startRevision - 1) 0 es s) as (s' & ? & ? & ?);
    [done|done|lia|lia|done| |].
  - apply Nat2Z.inj_lt. rewrite Nat2Z.inj_div. rewrite <-(Forall2_length _ _ _ Hes), length_seqZ, Z2Nat.id by lia.
    replace (cur_rev v - (startRevision - 1)) with (cur_rev v - startRevision + 1) by lia. exact Hfuel.
  - exists es, s'. split; [|done].
    replace (seqZ startRevision (cur_rev v - startRevision + 1))
      with (seqZ (startRevision - 1 + 1) (cur_rev v - (startRevision - 1))) by (f_equal; lia). done.
Qed.


(** ** Witnesses *)

Definition good_stream : Stream := {| send_fault _ := None; ctx_Err _ := None |}.

(** The watch of a whole namespace. *)
Definition prod_watcher : watcher :=
  newWatcher 1 (request (str "/prod/") (str "/prod0") 1)
    (mkKeyRange (str "prod") (str "/") (str "prod0") (str "/")) 1 None.


Lemma world_ab_room : room_store world_ab.
Proof. split; [apply reachable_store_inv, world_ab_reachable|by vm_compute]. Qed.

Lemma replay_complete_witness :
  exists w es s', w = world_ab /\
    @replayHistory _ good_stream _ 1 ctx_background prod_watcher 1 (mkSession w [] 0 0)
      = Some (Ok (lastAfter prod_watcher es 0), s') /\
    ss_sent s' = (es ≫= reply prod_watcher (w_db w)) /\ revs (ss_sent s') = [1; 2].
Proof.
  assert (Hroom : exists w, w = world_ab /\ room_store w /\ cur_rev (view (w_db w)) = 2 /\
    (fun x => revs (ss_sent x.2)) <$> @replayHistory _ good_stream _ 1 ctx_background prod_watcher 1 (mkSession w [] 0 0)
      = Some [1; 2]).
  { exists world_ab. split; [reflexivity|]. split; [apply world_ab_room|]. by split; vm_compute. }
  destruct Hroom as (w & Hw & [Hinv Hroom] & Hcur & Hc). exists w.
  destruct (@replay_complete _ _ _ _ _ _ _ _ good_stream 1 ctx_background prod_watcher 1 (mkSession w [] 0 0))
    as (es & s' & _ & Hr & _ & Ho);
    [done|done|done|done|exact Hinv|exact Hroom|cbn; rewrite Hcur; lia|cbn; by rewrite Hcur|].
  exists es, s'. split; [exact Hw|]. split; [exact Hr|]. split; [exact Ho|].
  rewrite Hr in Hc. cbn in Hc. by injection Hc.
Defined.

