(* ===== verification/WatchStream.v ===== *)
(** * A watch stream gives back what it takes

    Proofs about WatchServer.v and Publisher.v together: the state of Watch - the
    map of watchers, the subscriptions behind them and the watches the tracker has
    been told of - through creations, cancellations and the final release. *)

From S2P Require Import Prelude.
From S2P Require Import Bolt.
From S2P Require Import Domain.
From S2P Require Import Concrete.
From S2P Require Import Manager.
From S2P Require Import Store.
From S2P Require Import EtcdRepo.
From S2P Require Import EtcdKey.
From S2P Require Import EtcdKV.
From S2P Require Import Publisher.
From S2P Require Import WatchMatch.
From S2P Require Import WatchServer.
From stdpp Require Import base list gmap strings.
From Stdlib Require Import Ascii ZArith Lia.
Open Scope Z_scope.

#[local] Set Warnings "-register-all".

(** The watches open after some calls of the tracker; [None] when a watch was
    registered twice or an unknown one unregistered. *)
Fixpoint open_watches (calls : list tracker_call) (open : gset (bytes * Z)) : option (gset (bytes * Z)) :=
  match calls with
  | [] => Some open
  | RegisterWatch c w :: calls =>
      if bool_decide ((c, aw_WatchID w) ∈ open) then None
      else open_watches calls ({[(c, aw_WatchID w)]} ∪ open)
  | UnregisterWatch c id :: calls =>
      if bool_decide ((c, id) ∈ open) then open_watches calls (open ∖ {[(c, id)]}) else None
  end.

Lemma open_watches_app l l' open :
  open_watches (l ++ l') open = open' ← open_watches l open; open_watches l' open'.
Proof.
  revert open. induction l as [|[c w|c id] l IH]; intros open; cbn; [done|..];
    case_bool_decide; cbn; auto.
Qed.

Section stream.
Context `{Bolt} `{Stream} `{!WatchRepo} `{Clock} `{RangeOrder} `{Tracking}.

(** The watchers [m] own subscriptions [p0] does not have, one each, and are the
    watches open with the tracker since [c0]. *)
Record owned (p0 : Publisher) (c0 : list tracker_call) (m : gmap Z watcher) (s : WatchState) : Prop := {
  own_pub : pub_ok (wt_publisher s);
  own_sub id w : m !! id = Some w -> wa_id w = id /\
    exists sid sub, wa_unsubscribe w = Some sid /\ p_subscriptions (wt_publisher s) !! sid = Some sub /\
      p_subscriptions p0 !! sid = None;
  own_inj id id' w w' : m !! id = Some w -> m !! id' = Some w' ->
    wa_unsubscribe w = wa_unsubscribe w' -> id = id';
  own_rest sid : (forall id w, m !! id = Some w -> wa_unsubscribe w <> Some sid) ->
    p_subscriptions (wt_publisher s) !! sid = p_subscriptions p0 !! sid;
  own_calls : exists l open, wt_calls s = c0 ++ l /\ open_watches l ∅ = Some open /\
    forall x, x ∈ open <-> exists id w, m !! id = Some w /\ wa_tracked w <> [] /\ x = (wa_tracked w, id);
  own_tracked id w : m !! id = Some w -> wa_tracked w <> [] -> is_Some connID;
}.

(** Steps that touch neither the publisher nor the tracker. *)
Definition same_holdings (s s' : WatchState) : Prop :=
  wt_publisher s' = wt_publisher s /\ wt_calls s' = wt_calls s /\ wt_watchers s' = wt_watchers s /\
  wt_nextID s' = wt_nextID s.

Lemma owned_same p0 c0 m s s' : owned p0 c0 m s -> same_holdings s s' -> owned p0 c0 m s'.
Proof. intros [? ? ? ? ? ?] (Hp & Hc & _). split; rewrite ?Hp, ?Hc; done. Qed.

Lemma session_same {A} (m : SM A) s : same_holdings s (session m s).2.
Proof. unfold session. destruct (m _). done. Qed.

Lemma revisionOrZero_same ctx s : same_holdings s (revisionOrZero ctx s).2.
Proof.
  unfold revisionOrZero, mbind, HM_bind.
  set (m := onWorld _). pose proof (session_same m s) as Hs. destruct (session m s) as [[r|e|c] s1]; exact Hs.
Qed.

Lemma releaseWatcher_owned p0 c0 m s id w :
  owned p0 c0 m s -> m !! id = Some w ->
  exists s', releaseWatcher w s = (Ok tt, s') /\ owned p0 c0 (delete id m) s' /\
    wt_watchers s' = wt_watchers s /\ wt_nextID s' = wt_nextID s /\
    p_nextID (wt_publisher s') = p_nextID (wt_publisher s).
Proof.
  intros Ho Hw. destruct (own_sub _ _ _ _ Ho id w Hw) as (Hid & sid & sub & Hun & Hsub & Hfresh).
  destruct (cleanup_live _ sid sub (own_pub _ _ _ _ Ho) Hsub) as (p' & Hcl & Hp' & Hn & Hdel).
  unfold releaseWatcher, mbind, HM_bind, unsubscribe. rewrite Hun, Hcl.
  set (s1 := upd_publisher (fun _ => p') s).
  assert (Hpub : forall s', wt_publisher s' = p' ->
    (exists l open, wt_calls s' = c0 ++ l /\ open_watches l ∅ = Some open /\
       forall x, x ∈ open <-> exists i v, delete id m !! i = Some v /\ wa_tracked v <> [] /\ x = (wa_tracked v, i)) ->
    owned p0 c0 (delete id m) s').
  { intros s' Hs' Hc. split; rewrite ?Hs'; try done.
    - intros i v [Hne Hv]%lookup_delete_Some. destruct (own_sub _ _ _ _ Ho i v Hv) as (? & sid' & sub' & Hun' & Hsub' & ?).
      split; [done|]. exists sid', sub'. split_and!; [done| |done]. rewrite Hdel, lookup_delete_ne; [done|].
      intros <-. apply Hne, (own_inj _ _ _ _ Ho id i w v Hw Hv). congruence.
    - intros i i' v v' [_ Hv]%lookup_delete_Some [_ Hv']%lookup_delete_Some. by eapply (own_inj _ _ _ _ Ho).
    - intros sid' Hno. rewrite Hdel. destruct (decide (sid' = sid)) as [->|Hne]; [by rewrite lookup_delete_eq|].
      rewrite lookup_delete_ne by done. apply (own_rest _ _ _ _ Ho). intros i v Hv.
      destruct (decide (i = id)) as [->|Hne']; [rewrite Hw in Hv; simplify_eq; congruence|].
      apply (Hno i). by rewrite lookup_delete_ne.
    - intros i v [_ Hv]%lookup_delete_Some. by eapply (own_tracked _ _ _ _ Ho). }
  destruct (own_calls _ _ _ _ Ho) as (l & open & Hl & Hopen & Hiff).
  case_bool_decide as Ht; cbn [negb andb].
  - eexists. split; [reflexivity|]. split; [|done]. apply Hpub; [done|]. exists l, open.
    split_and!; [done|done|]. intros x. rewrite Hiff. split; intros (i & v & Hv & ? & ->); exists i, v.
    + split_and!; [|done|done]. rewrite lookup_delete_ne; [done|]. intros ->. congruence.
    + by apply lookup_delete_Some in Hv as [_ Hv].
  - rewrite bool_decide_true by by eapply (own_tracked _ _ _ _ Ho). cbn.
    eexists. split; [reflexivity|]. split; [|done]. apply Hpub; [done|].
    exists (l ++ [UnregisterWatch (wa_tracked w) (wa_id w)]), (open ∖ {[(wa_tracked w, id)]}).
    split_and!; [cbn; by rewrite Hl, app_assoc| |].
    + rewrite open_watches_app, Hopen. cbn. rewrite Hid, bool_decide_true; [done|]. apply Hiff. by exists id, w.
    + intros x. rewrite elem_of_difference, elem_of_singleton, Hiff. split.
      * intros [(i & v & Hv & ? & ->) Hne]. exists i, v. split_and!; [|done|done].
        rewrite lookup_delete_ne; [done|]. intros ->. apply Hne. congruence.
      * intros (i & v & [Hne Hv]%lookup_delete_Some & ? & ->). split; [by exists i, v|congruence].
Qed.

(** What a step leaves of the counters. *)
Definition counters (k : Z) (s s' : WatchState) : Prop :=
  wt_watchers s' = wt_watchers s /\ wt_nextID s' = wt_nextID s /\
  p_nextID (wt_publisher s) <= p_nextID (wt_publisher s') <= p_nextID (wt_publisher s) + k.

Lemma same_counters k s s' : 0 <= k -> same_holdings s s' -> counters k s s'.
Proof. intros Hk (Hp & _ & Hw & Hn). unfold counters. rewrite Hp. split_and!; [done|done|lia|lia]. Qed.

Lemma newWatcher_fields id req r unsub claims :
  wa_id (newWatcher id req r unsub claims) = id /\
  wa_unsubscribe (newWatcher id req r unsub claims) = Some unsub /\
  wa_tracked (newWatcher id req r unsub claims) = [].
Proof. unfold newWatcher. by destruct (subscribeFilter _ _ _ _ _ _). Qed.

(** A new subscription, not yet tracked. *)
Lemma subscribe_owned p0 c0 m s id w pathPrefix namespace :
  owned p0 c0 m s -> pub_ok p0 -> p_nextID p0 <= p_nextID (wt_publisher s) ->
  p_nextID (wt_publisher s) + 1 < 2 ^ 63 -> m !! id = None ->
  wa_id w = id -> wa_unsubscribe w = Some (p_nextID (wt_publisher s) + 1) -> wa_tracked w = [] ->
  exists c s', subscribe pathPrefix namespace s = (Ok (c, p_nextID (wt_publisher s) + 1), s') /\
    owned p0 c0 (<[id := w]> m) s' /\ counters 1 s s'.
Proof.
  intros Ho Hp0 Hle Hmax Hfresh Hid Hun Htr. pose proof (own_pub _ _ _ _ Ho) as Hp.
  pose proof (Subscribe_ok pathPrefix namespace _ Hp Hmax) as Hp'. pose proof (ok_next _ Hp) as Hn.
  unfold subscribe, Subscribe in *. rewrite int64_id in * by (unfold in_int64, two63; lia).
  set (n := p_nextID (wt_publisher s) + 1) in *.
  assert (Hnew : forall sid sub, p_subscriptions (wt_publisher s) !! sid = Some sub -> sid <> n).
  { intros sid sub Hs. destruct (ok_id _ Hp sid (mk_is_Some _ _ Hs)). lia. }
  assert (Hold : p_subscriptions p0 !! n = None).
  { destruct (p_subscriptions p0 !! n) eqn:E; [|done]. destruct (ok_id _ Hp0 n (mk_is_Some _ _ E)). lia. }
  eexists _, _. split; [reflexivity|]. split; [|split_and!; [done|done|cbn; lia|cbn; lia]].
  split; cbn.
  - exact Hp'.
  - intros i v [[<- <-]|[Hne Hv]]%lookup_insert_Some.
    + split; [done|]. eexists n, _. split_and!; [done|by rewrite lookup_insert_eq|done].
    + destruct (own_sub _ _ _ _ Ho i v Hv) as (? & sid & sub & ? & Hs & ?). split; [done|]. exists sid, sub.
      split_and!; [done| |done]. rewrite lookup_insert_ne; [done|]. intros <-. by apply (Hnew _ _ Hs).
  - intros i i' v v' [[<- <-]|[Hne Hv]]%lookup_insert_Some [[<- <-]|[Hne' Hv']]%lookup_insert_Some; [done|..].
    + destruct (own_sub _ _ _ _ Ho _ _ Hv') as (? & sid & sub & ? & Hs & ?). intros He.
      destruct (Hnew _ _ Hs). congruence.
    + destruct (own_sub _ _ _ _ Ho _ _ Hv) as (? & sid & sub & ? & Hs & ?). intros He.
      destruct (Hnew _ _ Hs). congruence.
    + by eapply (own_inj _ _ _ _ Ho).
  - intros sid Hno. assert (sid <> n) as Hne.
    { intros ->. apply (Hno id w); [by rewrite lookup_insert_eq|done]. }
    rewrite lookup_insert_ne by done. apply (own_rest _ _ _ _ Ho). intros i v Hv. apply (Hno i).
    rewrite lookup_insert_ne; [done|]. intros <-. congruence.
  - destruct (own_calls _ _ _ _ Ho) as (l & open & Hl & Hopen & Hiff). exists l, open.
    split_and!; [done|done|]. intros x. rewrite Hiff. split; intros (i & v & Hv & Ht & ->); exists i, v.
    + split_and!; [|done|done]. rewrite lookup_insert_ne; [done|]. intros <-. congruence.
    + apply lookup_insert_Some in Hv as [[<- <-]|[_ Hv]]; done.
  - intros i v [[<- <-]|[Hne Hv]]%lookup_insert_Some; [done|]. by eapply (own_tracked _ _ _ _ Ho).
Qed.

Lemma trackWatcher_owned p0 c0 m s id w ctx req :
  owned p0 c0 (<[id := w]> m) s -> m !! id = None -> wa_id w = id -> wa_tracked w = [] ->
  exists w' s', trackWatcher ctx w req s = (Ok w', s') /\ wa_id w' = id /\
    owned p0 c0 (<[id := w']> m) s' /\ counters 0 s s'.
Proof.
  intros Ho Hfresh Hid Htr. unfold trackWatcher. destruct connID as [extractor|] eqn:Hconn.
  2:{ exists w, s. split_and!; try done. unfold counters. split_and!; [done|done|lia|lia]. }
  case_bool_decide as Hcid.
  { exists w, s. split_and!; try done. unfold counters. split_and!; [done|done|lia|lia]. }
  unfold mbind, HM_bind, session, onWorld, NowA, modify.
  eexists (set_tracked (extractor ctx) w), _. split; [reflexivity|]. split; [done|]. split.
  2:{ unfold counters. cbn. split_and!; [done|done|lia|lia]. }
  split; cbn.
  - apply (own_pub _ _ _ _ Ho).
  - intros i v [[<- <-]|[Hne Hv]]%lookup_insert_Some.
    + apply (own_sub _ _ _ _ Ho id w). by rewrite lookup_insert_eq.
    + apply (own_sub _ _ _ _ Ho i v). by rewrite lookup_insert_ne.
  - intros i i' v v' Hv Hv'. 
    assert (Hback : forall j x, <[id:=set_tracked (extractor ctx) w]> m !! j = Some x ->
              exists y, <[id:=w]> m !! j = Some y /\ wa_unsubscribe y = wa_unsubscribe x).
    { intros j x [[<- <-]|[Hne Hx]]%lookup_insert_Some; [exists w|exists x];
        [by rewrite lookup_insert_eq|by rewrite lookup_insert_ne]. }
    destruct (Hback _ _ Hv) as (y & Hy & <-), (Hback _ _ Hv') as (y' & Hy' & <-). by eapply (own_inj _ _ _ _ Ho).
  - intros sid Hno. apply (own_rest _ _ _ _ Ho). intros i v [[<- <-]|[Hne Hv]]%lookup_insert_Some.
    + apply (Hno id (set_tracked (extractor ctx) w)). by rewrite lookup_insert_eq.
    + apply (Hno i v). by rewrite lookup_insert_ne.
  - destruct (own_calls _ _ _ _ Ho) as (l & open & Hl & Hopen & Hiff).
    eexists (l ++ [_]), ({[(extractor ctx, id)]} ∪ open). split; [by rewrite Hl, app_assoc|]. split.
    + rewrite open_watches_app, Hopen. cbn. rewrite Hid, bool_decide_false; [done|].
      intros (i & v & Hv & Ht & [= Hx <-])%Hiff. rewrite lookup_insert_eq in Hv. by injection Hv as <-.
    + intros x. rewrite elem_of_union, elem_of_singleton, Hiff. split.
      * intros [->|(i & v & Hv & Ht & ->)]; [exists id; eexists; by rewrite lookup_insert_eq|].
        exists i, v. split_and!; [|done|done]. apply lookup_insert_Some in Hv as [[<- <-]|[Hne Hv]]; [done|].
        by rewrite lookup_insert_ne.
      * intros (i & v & [[<- <-]|[Hne Hv]]%lookup_insert_Some & Ht & ->); [by left|right].
        exists i, v. by rewrite lookup_insert_ne.
  - rewrite Hconn. by intros.
Qed.

Lemma owned_goroutines p0 c0 m f s : owned p0 c0 m s -> owned p0 c0 m (upd_goroutines f s).
Proof. intros [? ? ? ? ? ?]. by split. Qed.

Lemma createWatcher_owned p0 c0 m ctx req id s r s' :
  owned p0 c0 m s -> pub_ok p0 -> p_nextID p0 <= p_nextID (wt_publisher s) ->
  p_nextID (wt_publisher s) + 1 < 2 ^ 63 -> m !! id = None ->
  createWatcher ctx req id s = (r, s') ->
  counters 1 s s' /\
  match r with Ok w => wa_id w = id /\ owned p0 c0 (<[id := w]> m) s' | _ => owned p0 c0 m s' end.
Proof.
  intros Ho Hp0 Hle Hmax Hfresh.
  assert (Hstop : forall s1, same_holdings s s1 -> counters 1 s s1 /\ owned p0 c0 m s1).
  { intros s1 Hs. split; [by apply same_counters|by eapply owned_same]. }
  unfold createWatcher. destruct (SplitRange _ _) as [kr|]; [|intros [= <- <-]; by apply Hstop].
  unfold mbind, HM_bind, liftH. destruct (checkWatchAccess _ _ _ _) as [[]|e|c];
    [|intros [= <- <-]; by apply Hstop..].
  destruct (subscribeFilter _ _ _ _ _ _) as [subNamespace subPrefix].
  match goal with |- context [session (onWorld ?m) s] => set (m1 := onWorld m) end.
  pose proof (session_same m1 s) as Hs1. destruct (session m1 s) as [[rev|e|c] s1]; cbn [snd] in Hs1;
    [|intros [= <- <-]; by apply Hstop..].
  match goal with |- context [session (send ?m) s1] => set (m2 := send m) end.
  pose proof (session_same m2 s1) as Hs2. destruct (session m2 s1) as [[[]|e|c] s2]; cbn [snd] in Hs2.
  2,3: intros [= <- <-]; apply Hstop; destruct Hs1 as (?&?&?&?), Hs2 as (?&?&?&?); split_and!; congruence.
  assert (Hs : same_holdings s s2) by (destruct Hs1 as (?&?&?&?), Hs2 as (?&?&?&?); split_and!; congruence).
  clear Hs1 Hs2 s1. pose proof Hs as (Hpub & _ & Hwat & Hnext).
  destruct (newWatcher_fields id req kr (p_nextID (wt_publisher s2) + 1) (ctx_claims ctx)) as (Hid & Hun & Htr).
  destruct (subscribe_owned p0 c0 m s2 id (newWatcher id req kr (p_nextID (wt_publisher s2) + 1) (ctx_claims ctx)) subPrefix subNamespace (owned_same _ _ _ _ _ Ho Hs) Hp0)
    as (c & s3 & -> & Ho3 & Hc3); [by rewrite Hpub|by rewrite Hpub|done|exact Hid|exact Hun|exact Htr|].
  destruct (trackWatcher_owned p0 c0 m s3 id _ ctx req Ho3 Hfresh Hid Htr) as (w & s4 & -> & Hid4 & Ho4 & Hc4).
  intros [= <- <-]. split; [|split; [done|by apply owned_goroutines]].
  destruct Hc3 as (?&?&?&?), Hc4 as (?&?&?&?). unfold counters. cbn. rewrite Hpub in *.
  split_and!; [congruence|congruence|lia|lia].
Qed.

(** The state of the loop before [k] more requests. *)
Record serving (p0 : Publisher) (c0 : list tracker_call) (k : Z) (s : WatchState) : Prop := {
  sv_owned : owned p0 c0 (wt_watchers s) s;
  sv_ids id w : wt_watchers s !! id = Some w -> id <= wt_nextID s;
  sv_next : 0 <= wt_nextID s /\ wt_nextID s + k < two63;
  sv_pub : p_nextID p0 <= p_nextID (wt_publisher s) /\ p_nextID (wt_publisher s) + k < 2 ^ 63;
}.

Lemma owned_watchers p0 c0 m f s : owned p0 c0 m s -> owned p0 c0 m (upd_watchers f s).
Proof. intros [? ? ? ? ? ?]. by split. Qed.

Lemma serving_same p0 c0 k k' s s' : k' <= k -> same_holdings s s' -> serving p0 c0 k s -> serving p0 c0 k' s'.
Proof.
  intros Hk Hs [Ho Hi Hn Hp]. pose proof Hs as (Hpub & _ & Hw & Hnx).
  split; rewrite ?Hpub, ?Hw, ?Hnx; [by eapply owned_same|done|lia|lia].
Qed.

Lemma reply_same ctx (f : Z -> WatchResponse) s r s' :
  (rev ← revisionOrZero ctx; session (send (f rev))) s = (r, s') -> same_holdings s s'.
Proof.
  unfold mbind, HM_bind. pose proof (revisionOrZero_same ctx s) as Hs1.
  destruct (revisionOrZero ctx s) as [[rev|e|c] s1]; cbn [snd] in Hs1; [|by intros [= <- <-]..].
  intros Hr. pose proof (session_same (send (f rev)) s1) as Hs2. rewrite Hr in Hs2. cbn [snd] in Hs2.
  destruct Hs1 as (?&?&?&?), Hs2 as (?&?&?&?). split_and!; congruence.
Qed.

Lemma handle_serving p0 c0 k ctx req s r s' :
  pub_ok p0 -> 0 <= k -> serving p0 c0 (k + 1) s -> handleWatchRequest ctx req s = (r, s') -> serving p0 c0 k s'.
Proof.
  intros Hp0 Hk Hsv. destruct req as [req|id| |]; cbn [handleWatchRequest].
  - unfold mbind, HM_bind, nextWatchID, modify. destruct Hsv as [Ho Hi Hn Hp].
    rewrite int64_id by (unfold in_int64, two63 in *; lia). set (id := wt_nextID s + 1).
    set (s1 := mkWatchState _ _ _ _ _ _).
    assert (Hfresh : wt_watchers s !! id = None).
    { destruct (wt_watchers s !! id) eqn:E; [|done]. apply Hi in E. lia. }
    destruct (createWatcher ctx req id s1) as [r2 s2] eqn:Hcr.
    eapply (createWatcher_owned p0 c0 (wt_watchers s)) in Hcr as [(Hw2 & Hn2 & Hp2) Hres];
      [|by destruct Ho; split|done|cbn; lia|cbn; lia|done]. cbn [s1 wt_watchers wt_nextID wt_publisher] in *.
    destruct r2 as [w|e|c]; [|intros [= <- <-]; split;
      [by rewrite Hw2|rewrite Hw2, Hn2; intros i v Hv%Hi; lia|rewrite Hn2; lia|lia]..].
    destruct Hres as [Hid Ho2]. intros [= <- <-]. split; cbn.
    + rewrite Hw2, Hid. by apply owned_watchers.
    + rewrite Hw2, Hn2, Hid. intros i v [[<- <-]|[_ Hv%Hi]]%lookup_insert_Some; lia.
    + rewrite Hn2. lia.
    + lia.
  - unfold mbind at 1, HM_bind at 1, modify. set (s1 := upd_watchers (delete id) s).
    assert (Hrel : exists s2, (match wt_watchers s !! id with Some w => releaseWatcher w | None => mret tt end) s1
              = (Ok tt, s2) /\ serving p0 c0 k s2).
    { destruct Hsv as [Ho Hi Hn Hp]. assert (Ho1 : owned p0 c0 (wt_watchers s) s1) by by apply owned_watchers.
      destruct (wt_watchers s !! id) as [w|] eqn:Hw.
      - destruct (releaseWatcher_owned _ _ _ _ _ _ Ho1 Hw) as (s2 & -> & Ho2 & Hw2 & Hn2 & Hp2).
        exists s2. split; [done|]. split; rewrite ?Hw2, ?Hn2, ?Hp2; cbn; [done| |lia|lia].
        intros i v [_ Hv]%lookup_delete_Some. by eapply Hi.
      - exists s1. split; [done|]. assert (Hdel : delete id (wt_watchers s) = wt_watchers s) by by apply delete_id.
        split; cbn; rewrite ?Hdel; [done|done|lia|lia]. }
    destruct Hrel as (s2 & Hr2 & Hsv2). unfold mbind at 1, HM_bind at 1. rewrite Hr2.
    intros Hr. apply (reply_same ctx (fun rev => mkWatchResponse (newHeader rev) id false true [])) in Hr.
    eapply serving_same; [|exact Hr|exact Hsv2]. lia.
  - intros Hr. apply (reply_same ctx (fun rev => mkWatchResponse (newHeader rev) (-1) false false [])) in Hr.
    eapply serving_same; [|exact Hr|exact Hsv]. lia.
  - intros [= <- <-]. eapply serving_same; [|done|exact Hsv]. lia.
Qed.

Lemma serve_serving p0 c0 ctx reqs recvErr : forall s r s',
  pub_ok p0 -> serving p0 c0 (Z.of_nat (length reqs)) s -> serve ctx reqs recvErr s = (r, s') -> serving p0 c0 0 s'.
Proof.
  induction reqs as [|req reqs IH]; intros s r s' Hp0 Hsv; cbn [serve].
  - destruct (_ || _); intros [= <- <-]; exact Hsv.
  - unfold mbind, HM_bind. destruct (handleWatchRequest ctx req s) as [r1 s1] eqn:Hr1.
    apply (handle_serving p0 c0 (Z.of_nat (length reqs))) in Hr1; [|done|lia|].
    + destruct r1 as [[]|e|c]; [by apply IH|intros [= <- <-]; eapply serving_same; [|done|exact Hr1]; lia..].
    + eapply serving_same; [|done|exact Hsv]. cbn [length]. lia.
Qed.

Lemma releaseWatchers_owned p0 c0 l : forall m s,
  owned p0 c0 m s -> NoDup l.*1 -> (forall id w, (id, w) ∈ l -> m !! id = Some w) ->
  exists s', releaseWatchers l.*2 s = (Ok tt, s') /\
    owned p0 c0 (foldr (fun kv m => delete kv.1 m) m l) s'.
Proof.
  induction l as [|[id w] l IH]; intros m s Ho Hnd Hl; [by exists s|].
  apply NoDup_cons in Hnd as [Hnin Hnd].
  assert (Hlw : forall i v, (i, v) ∈ l -> id <> i).
  { intros i v Hin <-. by apply Hnin, (list_elem_of_fmap_2' fst l (id, v) id Hin). }
  cbn [fmap list_fmap releaseWatchers foldr fst snd].
  destruct (releaseWatcher_owned p0 c0 m s id w Ho) as (s1 & Hr & Ho1 & _); [apply Hl; left|].
  destruct (IH (delete id m) s1 Ho1 Hnd) as (s2 & Hr2 & Ho2).
  { intros i v Hin. rewrite lookup_delete_ne by by eapply Hlw. apply Hl. by right. }
  exists s2. unfold mbind, HM_bind. rewrite Hr. split; [exact Hr2|].
  replace (delete id (foldr (fun kv m => delete kv.1 m) m l))
    with (foldr (fun (kv : Z * watcher) m => delete kv.1 m) (delete id m) l); [done|].
  clear. induction l as [|[i v] l IH]; cbn; [done|]. by rewrite IH, delete_delete.
Qed.

Lemma delete_all (m : gmap Z watcher) : foldr (fun kv m => delete kv.1 m) m (rangeOrder m) = ∅.
Proof.
  assert (Hgen : forall (l : list (Z * watcher)) (m' : gmap Z watcher) id,
    foldr (fun kv m => delete kv.1 m) m' l !! id = if decide (id ∈ l.*1) then None else m' !! id).
  { induction l as [|[i w] l IH]; intros m' id; cbn.
    - by rewrite decide_False by apply not_elem_of_nil.
    - destruct (decide (id ∈ i :: l.*1)) as [[->|Hin]%elem_of_cons|Hnin].
      + by rewrite lookup_delete_eq.
      + destruct (decide (id = i)) as [->|]; [by rewrite lookup_delete_eq|].
        by rewrite lookup_delete_ne, IH, decide_True.
      + apply not_elem_of_cons in Hnin as [? ?]. by rewrite lookup_delete_ne, IH, decide_False. }
  apply map_eq. intros id. rewrite Hgen, lookup_empty. destruct (decide _) as [|Hnin]; [done|].
  destruct (m !! id) as [w|] eqn:Hw; [|done]. destruct Hnin.
  apply (list_elem_of_fmap_2' fst _ (id, w)); [|done]. by apply elem_of_order.
Qed.
End stream.

(** C38: A watch stream gives back everything it takes.  Whatever requests arrive,
    wherever the storage or the transport fails and however the stream ends, once
    Watch returns the publisher has exactly the subscriptions it had before, and
    for the monitor every watch registered was open once and has been
    unregistered: none is lost, none is unregistered twice. *)
Theorem watch_teardown `{Bolt} `{Stream} `{!WatchRepo} `{Clock} `{RangeOrder} `{Tracking}
    ctx reqs recvErr s :
  pub_ok (wt_publisher s) -> p_nextID (wt_publisher s) + Z.of_nat (length reqs) < 2 ^ 63 ->
  let s' := (Watch ctx reqs recvErr s).2 in
  pub_ok (wt_publisher s') /\ p_subscriptions (wt_publisher s') = p_subscriptions (wt_publisher s) /\
  exists calls, wt_calls s' = wt_calls s ++ calls /\ open_watches calls ∅ = Some ∅.
Proof.
  intros Hp0 Hmax. unfold Watch. set (s0 := mkWatchState _ _ _ _ _ _).
  assert (Hsv : serving (wt_publisher s) (wt_calls s) (Z.of_nat (length reqs)) s0).
  { split; cbn; [|by intros ?? ?%lookup_empty_Some| |]; [|pose proof (ok_next _ Hp0); unfold two63; lia|lia].
    split; cbn; try by intros ?? ?%lookup_empty_Some.
    - done.
    - by intros ???? ?%lookup_empty_Some.
    - done.
    - exists [], ∅. rewrite app_nil_r. split_and!; [done|done|]. intros x. split; [set_solver|].
      by intros (? & ? & ?%lookup_empty_Some & _). }
  destruct (serve ctx reqs recvErr s0) as [r s1] eqn:Hserve.
  apply (serve_serving (wt_publisher s) (wt_calls s)) in Hserve as [Ho _ _ _]; [|done..].
  unfold teardown.
  destruct (releaseWatchers_owned (wt_publisher s) (wt_calls s) (rangeOrder (wt_watchers s1)) (wt_watchers s1)
    (upd_watchers (fun _ => ∅) s1)) as (s2 & -> & Ho2).
  - by apply owned_watchers.
  - rewrite rangeOrder_perm. apply NoDup_fst_map_to_list.
  - intros id w. by rewrite elem_of_order.
  - rewrite delete_all in Ho2. cbn [snd]. split; [apply (own_pub _ _ _ _ Ho2)|]. split.
    + apply map_eq. intros sid. apply (own_rest _ _ _ _ Ho2). intros id w Hw. by apply lookup_empty_Some in Hw.
    + destruct (own_calls _ _ _ _ Ho2) as (l & open & Hl & Hopen & Hiff). exists l. split; [done|].
      rewrite Hopen. f_equal. apply set_eq. intros x. rewrite Hiff. split; [|set_solver].
      by intros (? & ? & ?%lookup_empty_Some & _).
Qed.

(** ** Witness *)

Definition no_repo : WatchRepo := {|
  repo_CurrentRevisionValue _ := mret 4;
  repo_ListChanges _ _ _ := mret [];
  repo_GetKVAtRevision _ _ _ _ := mret None;
|}.
Definition one_conn : Tracking := Some (fun _ => str "conn-1").
Definition fault_third : Stream := {| send_fault n := if (n =? 2)%nat then Some (ESentinel (OtherErr "send")) else None;
                                      ctx_Err _ := None |}.

(** Two watches are opened, one is cancelled and the reply fails to be sent. *)
Lemma watch_teardown_witness :
  let s := mkWatchState (mkSession world0 [] 0 0) NewPublisher [] ∅ 0 [] in
  let reqs := [CreateRequest (request (str "/prod/a") [] 0); CreateRequest (request (str "/prod/b") [] 0);
               CancelRequest 1] in
  let s' := (@Watch _ fault_third no_repo _ list_order one_conn ctx_background reqs (ESentinel (OtherErr "io.EOF")) s).2 in
  length (wt_calls s') = 4%nat /\ p_nextID (wt_publisher s') = 2 /\ p_subscriptions (wt_publisher s') = ∅ /\
  open_watches (wt_calls s') ∅ = Some ∅.
Proof.
  intros s reqs s'. split; [by vm_compute|]. split; [by vm_compute|].
  destruct (@watch_teardown _ fault_third no_repo _ list_order one_conn ctx_background reqs
    (ESentinel (OtherErr "io.EOF")) s) as (_ & Hsub & calls & Hc & Hopen); [apply NewPublisher_ok|by vm_compute|].
  split; [exact Hsub|]. fold s' in Hc. rewrite Hc. exact Hopen.
Defined.
