(* ===== verification/Rbac.v ===== *)
(** * Permissions

    internal/domain/rbac.go and permission.go: objects, actions, resource domains
    and subjects; internal/service/authz/domain_set.go: sets of domains. *)

From S2P Require Import Prelude.
From S2P Require Import Util.
From stdpp Require Import base list gmap strings.
From Stdlib Require Import Ascii ZArith Lia.
Open Scope Z_scope.

(** [type Object string], [type Action string]. *)
Abbreviation RObject := bytes (only parsing).
Abbreviation RAction := bytes (only parsing).

Definition DomainAll : bytes := str "*".
Definition MembershipDomain : bytes := str "*".
Definition ObjectAll : RObject := str "*".
Definition ObjectNamespace : RObject := str "namespace".
Definition ObjectUser : RObject := str "user".
Definition ObjectGroup : RObject := str "group".
Definition ActAll : RAction := str "*".
Definition ActCreate : RAction := str "create".
Definition ActRead : RAction := str "read".
Definition ActWrite : RAction := str "write".

(** domain.Permission *)
Record Permission := mkPermission { perm_Object : RObject; perm_Action : RAction; perm_Domain : bytes }.

#[global] Instance Permission_eq_dec : EqDecision Permission.
Proof. solve_decision. Defined.

#[global] Program Instance Permission_countable : Countable Permission :=
  inj_countable' (fun p => (perm_Object p, perm_Action p, perm_Domain p)) (fun '(o, a, d) => mkPermission o a d) _.
Next Obligation. by intros []. Qed.

Definition ObjectGrants (granted required : RObject) : bool :=
  bytes_eqb granted ObjectAll || bytes_eqb granted required.

Definition ActionGrants (granted required : RAction) : bool :=
  if bytes_eqb granted ActAll || bytes_eqb granted required then true
  else if bytes_eqb granted ActWrite && bytes_eqb required ActRead then true
  else false.

(** ** Resource domains *)

Definition NamespaceResourcePrefix : bytes := str "namespace:".
Definition GroupResourcePrefix : bytes := str "group:".

Definition GroupResource (name : bytes) : bytes :=
  if bytes_eqb name DomainAll then DomainAll else GroupResourcePrefix ++ name.

Definition NamespaceResource (name : bytes) : bytes :=
  if bytes_eqb name DomainAll then DomainAll else NamespaceResourcePrefix ++ name.

(** [strings.TrimPrefix] *)
Definition TrimPrefix (s prefix : bytes) : bytes := if has_prefix s prefix then drop (length prefix) s else s.

Definition IsGroupSubject (subject : bytes) : bool := has_prefix subject GroupResourcePrefix.
Definition GroupNameFromSubject (subject : bytes) : bytes := TrimPrefix subject GroupResourcePrefix.
Definition IsUserSubject (subject : bytes) : bool := negb (has_prefix subject GroupResourcePrefix).

(** ** domain_set.go *)

Record DomainSet := mkDomainSet { ds_Wildcard : bool; ds_Explicit : gset bytes }.

Definition NewDomainSet (explicit : list bytes) : DomainSet :=
  foldl (fun ds d => if bytes_eqb d DomainAll then mkDomainSet true (ds_Explicit ds)
                     else mkDomainSet (ds_Wildcard ds) ({[d]} ∪ ds_Explicit ds))
        (mkDomainSet false ∅) explicit.

Definition Contains (ds : DomainSet) (domain : bytes) : bool :=
  if ds_Wildcard ds then true else bool_decide (domain ∈ ds_Explicit ds).

Definition IsEmpty (ds : DomainSet) : bool := negb (ds_Wildcard ds) && bool_decide (ds_Explicit ds = ∅).

(** ** Facts *)

Lemma ActionGrants_spec granted required :
  ActionGrants granted required = true <->
  granted = ActAll \/ granted = required \/ granted = ActWrite /\ required = ActRead.
Proof. unfold ActionGrants, bytes_eqb. repeat case_bool_decide; cbn; naive_solver. Qed.

Lemma ObjectGrants_spec granted required :
  ObjectGrants granted required = true <-> granted = ObjectAll \/ granted = required.
Proof. unfold ObjectGrants, bytes_eqb. repeat case_bool_decide; cbn; naive_solver. Qed.

Lemma GroupResource_prefixed name : name <> DomainAll -> GroupResource name = GroupResourcePrefix ++ name.
Proof. intros H. unfold GroupResource, bytes_eqb. by rewrite bool_decide_false. Qed.

Lemma GroupNameFromSubject_resource name : name <> DomainAll -> GroupNameFromSubject (GroupResource name) = name.
Proof.
  intros H. rewrite GroupResource_prefixed by done. unfold GroupNameFromSubject, TrimPrefix.
  rewrite has_prefix_app. apply drop_app_length.
Qed.

Lemma IsGroupSubject_resource name : name <> DomainAll -> IsGroupSubject (GroupResource name) = true.
Proof. intros H. rewrite GroupResource_prefixed by done. apply has_prefix_app. Qed.

Lemma GroupResource_inj a b : a <> DomainAll -> b <> DomainAll -> GroupResource a = GroupResource b -> a = b.
Proof.
  intros Ha Hb E. by rewrite <-(GroupNameFromSubject_resource a), E, GroupNameFromSubject_resource.
Qed.

Lemma TrimPrefix_namespace name : name <> DomainAll -> TrimPrefix (NamespaceResource name) NamespaceResourcePrefix = name.
Proof.
  intros H. unfold NamespaceResource, bytes_eqb. rewrite bool_decide_false by done.
  unfold TrimPrefix. rewrite has_prefix_app. apply drop_app_length.
Qed.

Lemma NewDomainSet_spec l :
  ds_Wildcard (NewDomainSet l) = bool_decide (DomainAll ∈ l) /\
  forall d, d ∈ ds_Explicit (NewDomainSet l) <-> d ∈ l /\ d <> DomainAll.
Proof.
  unfold NewDomainSet.
  assert (Hgen : forall ds0,
    let ds := foldl (fun ds d => if bytes_eqb d DomainAll then mkDomainSet true (ds_Explicit ds)
                 else mkDomainSet (ds_Wildcard ds) ({[d]} ∪ ds_Explicit ds)) ds0 l in
    ds_Wildcard ds = ds_Wildcard ds0 || bool_decide (DomainAll ∈ l) /\
    forall d, d ∈ ds_Explicit ds <-> d ∈ ds_Explicit ds0 \/ d ∈ l /\ d <> DomainAll).
  { induction l as [|x l IH]; intros ds0; cbn [foldl].
    - split; [by rewrite orb_false_r|set_solver].
    - destruct (bytes_eqb x DomainAll) eqn:Hx; [apply bool_decide_eq_true in Hx|apply bool_decide_eq_false in Hx].
      + destruct (IH (mkDomainSet true (ds_Explicit ds0))) as [Hw He]. split.
        * rewrite Hw. cbn. rewrite (bool_decide_true (DomainAll ∈ x :: l)) by (subst; left).
          by rewrite orb_true_r.
        * intros d. rewrite He. cbn. set_solver.
      + destruct (IH (mkDomainSet (ds_Wildcard ds0) ({[x]} ∪ ds_Explicit ds0))) as [Hw He]. split.
        * rewrite Hw. cbn. f_equal. apply bool_decide_ext. set_solver.
        * intros d. rewrite He. cbn. set_solver. }
  destruct (Hgen (mkDomainSet false ∅)) as [Hw He]. split; [exact Hw|]. intros d. rewrite He. set_solver.
Qed.

Lemma Contains_NewDomainSet l d :
  Contains (NewDomainSet l) d = true <-> DomainAll ∈ l \/ d ∈ l /\ d <> DomainAll.
Proof.
  destruct (NewDomainSet_spec l) as [Hw He]. unfold Contains. rewrite Hw.
  case_bool_decide; [naive_solver|]. rewrite bool_decide_eq_true, He. naive_solver.
Qed.
