(* ===== verification/NamespaceRepo.v ===== *)
(** * Namespaces: storage and use case

    internal/storage/bbolt/namespace/repository.go, the repository (module
    Repo), and internal/usecase/namespace, the operations served to the API
    (module Service).  The repository's own methods join the caller's transaction;
    called outside one they run operation by operation on the database. *)

From S2P Require Import Prelude.
From S2P Require Import Bolt.
From S2P Require Import Keys.
From S2P Require Import Domain.
From S2P Require Import Manager.
From S2P Require Import ConfigRepo.
From S2P Require Import ConfigKV.
From S2P Require Import Repository.
From S2P Require Import Util.
From S2P Require Import Rbac.
From stdpp Require Import base list gmap strings.
From Stdlib Require Import Ascii ZArith Lia.
Open Scope Z_scope.

#[local] Set Warnings "-register-all".

(** domain.NamespaceFilter and domain.NamespaceListParams; a nil set of names is
    the empty one. *)
Record NamespaceFilter := mkNamespaceFilter {
  nf_Names : gset bytes;
  nf_Wildcard : bool;
  nf_Search : bytes;
}.

Record NamespaceListParams := mkNamespaceListParams {
  nlp_Limit : Z;
  nlp_Offset : Z;
  nlp_Sort : SortParams;
}.

(** ** Shaping a list *)

Section shaping.
Context `{UnicodeLower} `{GoSort}.

Definition matchesSearch (name search : bytes) : bool :=
  if bool_decide (search = []) then true else contains (ToLower name) (ToLower search).

(** The function given to [sort.Slice]. *)
Definition namespaceLess (params : SortParams) (a b : Namespace) : bool :=
  let less := if bytes_eqb (sort_Field params) (str "modified") then ns_UpdatedAt a <? ns_UpdatedAt b
              else bytes_ltb (ns_Name a) (ns_Name b) in
  if sort_Desc params then negb less else less.

Definition sortNamespaces (out : list Namespace) (params : SortParams) : list Namespace :=
  sort_Slice (namespaceLess params) out.

Definition paginate (out : list Namespace) (offset limit : Z) : outcome (list Namespace) :=
  let offset := if offset <? 0 then 0 else offset in
  let n := Z.of_nat (length out) in
  if n <=? offset then Ok []
  else
    let end_ := if (0 <? limit) && (int64 (offset + limit) <? n) then int64 (offset + limit) else n in
    slice out offset end_.
End shaping.

Module Repo.
Section repo.
Context `{Bolt} `{Disk} `{Clock} `{Codecs} `{GoSort} `{UnicodeLower} `{RangeOrder}.

(** ** Programs against the querier *)

Definition createTx (ns : Namespace) : TxM unit :=
  exists_ ← bbolt.Exists bucketNamespaces (ns_Name ns);
  if (exists_ : bool)
  then txfail (EWrap "namespace %s exists: %w" [FStr (ns_Name ns)] ErrResourceAlreadyExists)
  else wrapE "put: %w" [] (bbolt.Put bucketNamespaces (ns_Name ns) (DomainToNamespaceMeta ns)).

Definition getTx (name : bytes) : TxM Namespace :=
  r ← attempt (bbolt.Get (T:=NamespaceMeta) bucketNamespaces name);
  match r with
  | inr m => mret (NamespaceMetaToDomain m name)
  | inl e =>
      if errors_Is e (ESentinel BboltErrNotFound)
      then txfail (EWrap "namespace %s: %w" [FStr name] ErrResourceNotFound)
      else txfail (EWrap "get: %w" [] e)
  end.

Definition updateTx (ns : Namespace) : TxM unit :=
  exists_ ← bbolt.Exists bucketNamespaces (ns_Name ns);
  if negb exists_
  then txfail (EWrap "namespace %s: %w" [FStr (ns_Name ns)] ErrResourceNotFound)
  else wrapE "put: %w" [] (bbolt.Put bucketNamespaces (ns_Name ns) (DomainToNamespaceMeta ns)).

Definition deleteTx (name : bytes) : TxM unit :=
  exists_ ← bbolt.Exists bucketNamespaces name;
  if negb exists_
  then txfail (EWrap "namespace %s: %w" [FStr name] ErrResourceNotFound)
  else wrapE "delete: %w" [] (bbolt.Delete bucketNamespaces name).

Definition decodeNamespace (name data : bytes) : TxM Namespace :=
  match bbolt.JSONCodec_Unmarshal (T:=NamespaceMeta) data with
  | inl e => txfail (EWrap "decode %s: %w" [FStr name] e)
  | inr m => mret (NamespaceMetaToDomain m name)
  end.

Definition keepMatch (search : bytes) (ns : Namespace) (matches : list Namespace) : list Namespace :=
  if matchesSearch (ns_Name ns) search then matches ++ [ns] else matches.

(** The loop over the explicit names. *)
Fixpoint lookupNames (search : bytes) (names : list bytes) (matches : list Namespace) :
    TxM (list Namespace) :=
  match names with
  | [] => mret matches
  | name :: names =>
      data ← bucket_Get bucketNamespaces name;
      match data with
      | None => lookupNames search names matches
      | Some d =>
          ns ← decodeNamespace name d;
          lookupNames search names (keepMatch search ns matches)
      end
  end.

Definition matchesTx (filter : NamespaceFilter) : TxM (list Namespace) :=
  if nf_Wildcard filter then
    bucket_ForEach bucketNamespaces (fun k v matches =>
      ns ← decodeNamespace k v; mret (keepMatch (nf_Search filter) ns matches)) []
  else lookupNames (nf_Search filter) (rangeSet (nf_Names filter)) [].

Definition updateTimestampTx (name : bytes) : TxM unit :=
  r ← attempt (bbolt.Get (T:=NamespaceMeta) bucketNamespaces name);
  match r with
  | inl e =>
      if errors_Is e (ESentinel BboltErrNotFound)
      then txfail (EWrap "namespace %s: %w" [FStr name] ErrResourceNotFound)
      else txfail (EWrap "get: %w" [] e)
  | inr m =>
      now ← Now;
      bbolt.Put bucketNamespaces name
        (mkNamespaceMeta (nm_Description m) (nm_Locked m) (nm_CreatedAt m) now)
  end.

(** ** Locking *)

Definition nextLockSeq : TxM Z :=
  b ← bucket_Get bucketSys (str sysLockSeqKeyName);
  let current := parseRevision (default [] b) in
  let next := int64 (current + 1) in
  _ ← wrapE "update lock seq: %w" [] (bucket_Put bucketSys (str sysLockSeqKeyName) (revisionBytes next));
  mret next.

Definition writeLockEvent (namespace path : bytes) (eventType : Z) : TxM unit :=
  seq ← nextLockSeq;
  now ← Now;
  let entry := mkLockHistoryEntry eventType now in
  let histKey := historyPrefix namespace path ++ revisionBytes seq in
  _ ← wrapE "put lock history: %w" [] (bbolt.Put bucketLockHistory histKey entry);
  let cl := mkStoredChange eventType path namespace 0 now in
  wrapE "put lock changelog: %w" [] (bbolt.Put bucketLockChangelog (revisionBytes seq) cl).

Definition toggleLockTx (name : bytes) (locked : bool) (eventType : Z) : TxM unit :=
  let verb := if locked then str "lock" else str "unlock" in
  r ← attempt (bbolt.Get (T:=NamespaceMeta) bucketNamespaces name);
  match r with
  | inl e =>
      if errors_Is e (ESentinel BboltErrNotFound)
      then txfail (EWrap "%s namespace %s: %w" [FStr verb; FStr name] ErrResourceNotFound)
      else txfail (EWrap "%s namespace: %w" [FStr verb] e)
  | inr m =>
      if Bool.eqb (nm_Locked m) locked then mret tt
      else
        _ ← wrapE "%s namespace: %w" [FStr verb]
              (bbolt.Put bucketNamespaces name
                 (mkNamespaceMeta (nm_Description m) locked (nm_CreatedAt m) (nm_UpdatedAt m)));
        wrapE "%s namespace: %w" [FStr verb] (writeLockEvent name [] eventType)
  end.

(** ** Methods *)

Definition Create (ctx : Context_) (ns : Namespace) : App unit := GetQuerier ctx (createTx ns).
Definition Get (ctx : Context_) (name : bytes) : App Namespace := GetQuerier ctx (getTx name).
Definition Update (ctx : Context_) (ns : Namespace) : App unit := GetQuerier ctx (updateTx ns).
Definition Delete (ctx : Context_) (name : bytes) : App unit := GetQuerier ctx (deleteTx name).

Definition List (ctx : Context_) (filter : NamespaceFilter) (params : NamespaceListParams) :
    App (list Namespace * Z) :=
  matches ← wrapA "list: %w" [] (WithReadTx ctx (fun ctx => GetQuerier ctx (matchesTx filter)));
  let sorted := sortNamespaces matches (nlp_Sort params) in
  page ← liftO (paginate sorted (nlp_Offset params) (nlp_Limit params));
  mret (page, Z.of_nat (length sorted)).

Definition ListAll (ctx : Context_) : App (list Namespace) :=
  '(out, _) ← List ctx (mkNamespaceFilter ∅ true []) (mkNamespaceListParams 0 0 (mkSortParams [] false));
  mret out.

Definition UpdateTimestamp (ctx : Context_) (name : bytes) : App unit :=
  wrapA "update timestamp: %w" [] (WithTx ctx (fun ctx => GetQuerier ctx (updateTimestampTx name))).

Definition toggleLock (ctx : Context_) (name : bytes) (locked : bool) (eventType : Z) : App unit :=
  GetQuerier ctx (toggleLockTx name locked eventType).

Definition LockNamespace (ctx : Context_) (name : bytes) : App unit :=
  toggleLock ctx name true EventTypeNamespaceLocked.

Definition UnlockNamespace (ctx : Context_) (name : bytes) : App unit :=
  toggleLock ctx name false EventTypeNamespaceUnlocked.

End repo.
End Repo.

(** ** The use case *)

(** The interface [pdp] of usecase/namespace: what a caller may do. *)
Class NamespacePDP := {
  HasNamespace : bytes -> bytes -> RAction -> bool;
  EffectiveNamespaces : bytes -> RAction -> DomainSet;
}.

Record ListParams := mkListParams { lp_Limit : Z; lp_Offset : Z; lp_Sort : SortParams; lp_Query : bytes }.

Record ListResult := mkListResult {
  lr_Namespaces : list Namespace;
  lr_Total : Z;
  lr_Limit : Z;
  lr_Offset : Z;
}.

Definition defaultListLimit : Z := 20.

Definition set_times (t : Z) (n : Namespace) : Namespace :=
  mkNamespace (ns_Name n) (ns_DisplayName n) (ns_Description n) (ns_ConfigCount n) (ns_Locked n) t t
    (ns_CanRead n) (ns_CanWrite n).
Definition set_count (c : Z) (n : Namespace) : Namespace :=
  mkNamespace (ns_Name n) (ns_DisplayName n) (ns_Description n) c (ns_Locked n) (ns_CreatedAt n)
    (ns_UpdatedAt n) (ns_CanRead n) (ns_CanWrite n).
Definition set_description (d : bytes) (t : Z) (n : Namespace) : Namespace :=
  mkNamespace (ns_Name n) (ns_DisplayName n) d (ns_ConfigCount n) (ns_Locked n) (ns_CreatedAt n) t
    (ns_CanRead n) (ns_CanWrite n).
Definition set_access (r w : bool) (n : Namespace) : Namespace :=
  mkNamespace (ns_Name n) (ns_DisplayName n) (ns_Description n) (ns_ConfigCount n) (ns_Locked n)
    (ns_CreatedAt n) (ns_UpdatedAt n) r w.

Module NamespaceService.
Section service.
Context `{Bolt} `{Disk} `{Clock} `{Codecs} `{GoSort} `{UnicodeLower} `{RangeOrder}.

(** [if errors.Is(err, from) { return fmt.Errorf(fmt, to) }; return fmt.Errorf(fmt, err)] *)
Definition mapTo (from to : error) (fmt : string) (err : error) : error :=
  if errors_Is err from then EWrap fmt [] to else EWrap fmt [] err.

Definition populateConfigCount (ctx : Context_) (ns : Namespace) : App Namespace :=
  wrapA "populate config count: %w" []
    (Manager_WithTx ctx (fun ctx =>
       count ← wrapA "count configs: %w" [] (Repository.CountByNamespace ctx (ns_Name ns));
       mret (set_count count ns))).

Fixpoint populateConfigCounts (ctx : Context_) (namespaces : list Namespace) : App (list Namespace) :=
  match namespaces with
  | [] => mret []
  | ns :: namespaces =>
      ns ← populateConfigCount ctx ns;
      rest ← populateConfigCounts ctx namespaces;
      mret (ns :: rest)
  end.

Definition Create (ctx : Context_) (ns : Namespace) : App Namespace :=
  _ ← liftO (map_err (EWrap "validate namespace: %w" []) (Namespace_Validate ns));
  now ← NowA;
  let ns := set_times now ns in
  wrapA "create namespace tx: %w" []
    (Manager_WithTx ctx (fun ctx =>
       _ ← mapErrA (mapTo ErrResourceAlreadyExists ErrAlreadyExists "create namespace: %w") (Repo.Create ctx ns);
       wrapA "get created namespace: %w" [] (Repo.Get ctx (ns_Name ns)))).

Definition Delete (ctx : Context_) (name : bytes) : App unit :=
  wrapA "delete namespace tx: %w" []
    (Manager_WithTx ctx (fun ctx =>
       existing ← mapErrA (mapTo ErrResourceNotFound ErrNotFound "get namespace: %w") (Repo.Get ctx name);
       if ns_Locked existing then appfail (EWrap "namespace %q: %w" [FStr name] ErrNamespaceLocked)
       else
         count ← wrapA "count configs in namespace: %w" [] (Repository.CountByNamespace ctx name);
         if 0 <? count
         then appfail (NewValidationError (str "name") (str "namespace contains configs"))
         else wrapA "delete namespace: %w" [] (Repo.Delete ctx name))).

Definition Get (ctx : Context_) (name : bytes) : App Namespace :=
  ns ← mapErrA (mapTo ErrResourceNotFound ErrNotFound "get namespace: %w") (Repo.Get ctx name);
  populateConfigCount ctx ns.

Definition Update (ctx : Context_) (name description : bytes) : App Namespace :=
  wrapA "update namespace tx: %w" []
    (Manager_WithTx ctx (fun ctx =>
       existing ← mapErrA (mapTo ErrResourceNotFound ErrNotFound "get namespace: %w") (Repo.Get ctx name);
       if ns_Locked existing then appfail (EWrap "namespace %q: %w" [FStr name] ErrNamespaceLocked)
       else
         now ← NowA;
         let existing := set_description description now existing in
         _ ← wrapA "update namespace: %w" [] (Repo.Update ctx existing);
         populateConfigCount ctx existing)).

Definition notify_ (fn : notification) : App unit := fun w => (Ok tt, publish fn w).

Definition Lock (ctx : Context_) (name : bytes) : App unit :=
  _ ← mapErrA (mapTo ErrResourceNotFound ErrNotFound "lock namespace: %w")
        (Manager_WithTx ctx (fun ctx => Repo.LockNamespace ctx name));
  notify_ (NotifyNamespaceLocked name).

Definition Unlock (ctx : Context_) (name : bytes) : App unit :=
  _ ← mapErrA (mapTo ErrResourceNotFound ErrNotFound "unlock namespace: %w")
        (Manager_WithTx ctx (fun ctx => Repo.UnlockNamespace ctx name));
  notify_ (NotifyNamespaceUnlocked name).

Context `{NamespacePDP}.

Definition annotatePermissions (callerID : bytes) (namespaces : list Namespace) : list Namespace :=
  (fun ns => set_access true (HasNamespace callerID (ns_Name ns) ActWrite) ns) <$> namespaces.

(** [caller] is the user of the context's auth information, if it has one. *)
Definition List (ctx : Context_) (caller : option bytes) (params : ListParams) : App ListResult :=
  match caller with
  | None => appfail (ESentinel DomainErrUnauthorized)
  | Some userID =>
      let limit := if lp_Limit params <=? 0 then defaultListLimit else lp_Limit params in
      let scope := EffectiveNamespaces userID ActRead in
      if IsEmpty scope then mret (mkListResult [] 0 limit (lp_Offset params))
      else
        let filter := mkNamespaceFilter (ds_Explicit scope) (ds_Wildcard scope) (lp_Query params) in
        let repoParams := mkNamespaceListParams limit (lp_Offset params) (lp_Sort params) in
        '(namespaces, total) ← wrapA "list namespaces: %w" [] (Repo.List ctx filter repoParams);
        namespaces ← populateConfigCounts ctx namespaces;
        mret (mkListResult (annotatePermissions userID namespaces) total limit (lp_Offset params))
  end.
End service.
End NamespaceService.
