(* ===== verification/Fusion.v ===== *)
(** * A transaction of many calls is one program

    A use case runs several repository calls in one transaction.  Inside it every
    call runs against the same view of the database, so the whole callback equals
    one program over the querier: [fuses].  At top level such a callback commits
    or rolls back as that program's [tx_outcome]. *)

From S2P Require Import Prelude.
From S2P Require Import Bolt.
From S2P Require Import Domain.
From S2P Require Import Manager.
From S2P Require Import ConfigRepo.
From S2P Require Import Repository.
From stdpp Require Import base list gmap strings.
From Stdlib Require Import Ascii ZArith Lia.
Open Scope Z_scope.

Section fusion.
Context `{Bolt} `{Disk}.

(** [if err != nil { return f(err) }] in a program over the querier. *)
Definition mapErrT {A} (f : error -> error) (m : TxM A) : TxM A := fun q s =>
  let '(r, s') := m q s in (map_err f r, s').

(** The world after a program ran in the open transaction [h]. *)
Definition in_place {A} (wr : bool) (h : nat) (x : outcome A * TS) (w : World) : outcome A * World :=
  (x.1, set_tick (ts_tick x.2) (set_txs (<[h := mkTx _ wr TxOpen (ts_db x.2)]> (w_txs w)) w)).

Definition fuses {A} (wr : bool) (h : nat) (m : App A) (code : TxM A) : Prop :=
  forall w db, w_txs w !! h = Some (mkTx _ wr TxOpen db) ->
    m w = in_place wr h (code (QTx wr) (mkTS db (w_tick w))) w.

Lemma in_place_same {A} wr h (r : outcome A) w db :
  w_txs w !! h = Some (mkTx _ wr TxOpen db) -> in_place wr h (r, mkTS db (w_tick w)) w = (r, w).
Proof.
  intros Hh. unfold in_place. cbn. rewrite list_insert_id by done. by destruct w.
Qed.

Lemma fuses_ret {A} wr h (a : A) : fuses wr h (mret a) (mret a).
Proof. intros w db Hh. symmetry. by apply (in_place_same wr h (Ok a)). Qed.

Lemma fuses_fail {A} wr h e : fuses (A:=A) wr h (appfail e) (txfail e).
Proof. intros w db Hh. symmetry. by apply (in_place_same wr h (Err e)). Qed.

Lemma fuses_lift {A} wr h (r : outcome A) : fuses wr h (liftO r) (liftT r).
Proof. intros w db Hh. symmetry. by apply (in_place_same wr h r). Qed.

Lemma fuses_Now `{Clock} wr h : fuses wr h NowA Now.
Proof.
  intros w db Hh. unfold NowA, Now, in_place, set_tick, set_txs. cbn. by rewrite list_insert_id.
Qed.

Lemma fuses_bind {A B} wr h (m : App A) (code : TxM A) (f : A -> App B) (g : A -> TxM B) :
  fuses wr h m code -> (forall a, fuses wr h (f a) (g a)) -> fuses wr h (m ≫= f) (code ≫= g).
Proof.
  intros Hm Hf w db Hh. unfold mbind, App_bind, TxM_bind. rewrite (Hm w db Hh). unfold in_place at 1.
  destruct (code _ _) as [[a|e|c] s]; cbn [fst snd]; [|done..].
  assert (Hlt : (h < length (w_txs w))%nat) by by apply lookup_lt_Some in Hh.
  erewrite (Hf a) by (cbn; by apply list_lookup_insert_eq).
  unfold in_place, set_tick, set_txs. cbn. by destruct s; rewrite list_insert_insert_eq.
Qed.

Lemma fuses_mapErr {A} wr h f (m : App A) code : fuses wr h m code -> fuses wr h (mapErrA f m) (mapErrT f code).
Proof.
  intros Hm w db Hh. unfold mapErrA, mapErrT. rewrite (Hm w db Hh). unfold in_place. by destruct (code _ _).
Qed.

Lemma fuses_wrap {A} wr h fmt args (m : App A) code :
  fuses wr h m code -> fuses wr h (wrapA fmt args m) (wrapE fmt args code).
Proof. apply fuses_mapErr. Qed.

Lemma fuses_GetQuerier {A} wr h ctx (code : TxM A) :
  ctx_tx ctx = Some h -> fuses wr h (GetQuerier ctx code) code.
Proof. intros Hc w db Hh. rewrite (GetQuerier_in wr h ctx code w db) by done. unfold in_place. by destruct (code _ _). Qed.

Lemma fuses_WithTx {A} h ctx (cb : Context_ -> App A) code :
  ctx_tx ctx = Some h -> fuses true h (cb ctx) code -> fuses true h (WithTx ctx cb) code.
Proof.
  intros Hc Hcb w db Hh. unfold WithTx, TxFromContext, Writable. rewrite Hc, Hh. cbn. by apply Hcb.
Qed.

Lemma fuses_Manager_WithTx {A} h ctx (cb : Context_ -> App A) code :
  ctx_tx ctx = Some h -> fuses true h (cb ctx) code ->
  fuses true h (Manager_WithTx ctx cb) (wrapE "bbolt: with tx: %w" [] code).
Proof. intros Hc Hcb. apply fuses_wrap. by apply fuses_WithTx. Qed.

Lemma fuses_WithReadTx {A} wr h ctx (cb : Context_ -> App A) code :
  ctx_tx ctx = Some h -> fuses wr h (cb ctx) code -> fuses wr h (WithReadTx ctx cb) code.
Proof. intros Hc Hcb w db Hh. unfold WithReadTx, TxFromContext. rewrite Hc. by apply Hcb. Qed.

Lemma fuses_write {A} h fmt ctx (code : TxM A) :
  ctx_tx ctx = Some h -> fuses true h (Repository.write fmt ctx code) (wrapE fmt [] code).
Proof. intros Hc. apply fuses_wrap, fuses_WithTx, fuses_GetQuerier; done. Qed.

Lemma fuses_read {A} wr h fmt ctx (code : TxM A) :
  ctx_tx ctx = Some h -> fuses wr h (Repository.read fmt ctx code) (wrapE fmt [] code).
Proof. intros Hc. apply fuses_wrap, fuses_WithReadTx, fuses_GetQuerier; done. Qed.

(** A top-level transaction. *)
Lemma WithTx_fused {A} ctx (cb : Context_ -> App A) code w :
  ctx_tx ctx = None -> idle w ->
  (forall h, fuses true h (cb (with_tx_handle h ctx)) code) ->
  WithTx ctx cb w = tx_outcome code w.
Proof.
  intros Hc Hi Hf. rewrite <-(WithTx_top ctx code w) by done.
  destruct Hi as [Hb Hbf]. unfold WithTx, TxFromContext. rewrite Hc. unfold mbind, App_bind, wrapA.
  rewrite Begin_eval by (rewrite ?Hb; done). cbn. unfold runTx.
  rewrite (Hf _ (begun true w) (w_db w)) by (unfold begun; cbn; apply lookup_app_last).
  by rewrite <-(fuses_GetQuerier true (length (w_txs w)) (with_tx_handle (length (w_txs w)) ctx) code eq_refl
    (begun true w) (w_db w)) by (unfold begun; cbn; apply lookup_app_last).
Qed.

Lemma Manager_WithTx_fused {A} ctx (cb : Context_ -> App A) code w :
  ctx_tx ctx = None -> idle w ->
  (forall h, fuses true h (cb (with_tx_handle h ctx)) code) ->
  Manager_WithTx ctx cb w = (map_err (EWrap "bbolt: with tx: %w" []) (tx_outcome code w).1, (tx_outcome code w).2).
Proof.
  intros Hc Hi Hf. unfold Manager_WithTx, wrapA. rewrite (WithTx_fused ctx cb code) by done.
  by destruct (tx_outcome code w).
Qed.

(** What a successful transaction leaves. *)
Lemma Manager_WithTx_Ok {A} ctx (cb : Context_ -> App A) code w a w' :
  ctx_tx ctx = None -> idle w ->
  (forall h, fuses true h (cb (with_tx_handle h ctx)) code) ->
  Manager_WithTx ctx cb w = (Ok a, w') ->
  exists s, code (QTx true) (mkTS (w_db w) (w_tick w)) = (Ok a, s) /\
    w' = ended true TxCommitted (ts_db s) (ts_db s) (ts_tick s) w.
Proof.
  intros Hc Hi Hf. rewrite (Manager_WithTx_fused ctx cb code) by done. unfold tx_outcome.
  destruct (code _ _) as [[x|e|[]] s]; cbn; [|naive_solver..].
  destruct (commit_fault _); cbn; [naive_solver|]. intros [= -> <-]. eauto.
Qed.

End fusion.

Create HintDb fuses.
#[export] Hint Resolve fuses_ret fuses_fail fuses_lift fuses_Now fuses_mapErr fuses_wrap fuses_GetQuerier
  fuses_WithTx fuses_Manager_WithTx fuses_WithReadTx fuses_write fuses_read : fuses.

(** Finds the program of a callback. *)
Ltac fuse :=
  lazymatch goal with
  | |- fuses _ _ (mbind _ _) _ => eapply fuses_bind; [fuse|intros; cbv beta; fuse]
  | |- fuses _ _ (match ?x with _ => _ end) _ => destruct x; fuse
  | |- fuses _ _ (wrapA _ _ _) _ => apply fuses_wrap; fuse
  | |- fuses _ _ (mapErrA _ _) _ => apply fuses_mapErr; fuse
  | |- fuses _ _ (Manager_WithTx _ _) _ => apply fuses_Manager_WithTx; [done|cbv beta; fuse]
  | |- fuses _ _ (WithTx _ _) _ => apply fuses_WithTx; [done|cbv beta; fuse]
  | |- fuses _ _ (WithReadTx _ _) _ => apply fuses_WithReadTx; [done|cbv beta; fuse]
  | |- fuses _ _ _ _ => eauto 10 with fuses
  | |- _ => idtac
  end.
