(* ===== verification/NamespaceSpec.v ===== *)
(** * What the namespace service promises

    Deleting a namespace never orphans a config ([namespace_delete_safe]), and
    locking one freezes every write to it until it is unlocked
    ([namespace_lock_freezes]). *)

From S2P Require Import Prelude.
From S2P Require Import Bolt.
From S2P Require Import Keys.
From S2P Require Import Domain.
From S2P Require Import Concrete.
From S2P Require Import Manager.
From S2P Require Import ConfigRepo.
From S2P Require Import ConfigReads.
From S2P Require Import Repository.
From S2P Require Import Effects.
From S2P Require Import Store.
From S2P Require Import WriteSpec.
From S2P Require Import ListSpec.
From S2P Require Import ConfigKV.
From S2P Require Import Rbac.
From S2P Require Import NamespaceRepo.
From S2P Require Import Fusion.
From stdpp Require Import base list gmap strings.
From Stdlib Require Import Ascii ZArith Lia.
Open Scope Z_scope.

#[local] Set Warnings "-register-all".

Section spec.
Context `{BoltSpec} `{Disk} `{CodecsSpec} `{ClockSpec}.
Implicit Types (v : View) (s : TS).

(** The stored record of a namespace. *)
Definition namespace_row (v : View) (name : bytes) : option NamespaceMeta :=
  v !! (bucketNamespaces, name) ≫= fun d =>
    match json_Unmarshal d with inr m => Some m | inl _ => None end.

(** The configs the API can address in a namespace: their path starts with a slash. *)
Definition no_configs (v : View) (name : bytes) : Prop :=
  forall path, v !! (bucketMeta, configKey name (str "/" ++ path)) = None.

Lemma namespace_row_lock v name m : namespace_row v name = Some m -> ns_lock v name = Some (nm_Locked m).
Proof.
  unfold namespace_row, ns_lock. destruct (v !! _) as [d|]; [|done]. simpl. intros E.
  by destruct (json_Unmarshal d); simplify_eq.
Qed.

(** ** Reading one namespace *)

Lemma getTx_missing name q s :
  view (ts_db s) !! (bucketNamespaces, name) = None ->
  Repo.getTx name q s = (Err (EWrap "namespace %s: %w" [FStr name] ErrResourceNotFound), s).
Proof. intros Hn. unfold Repo.getTx, mbind, TxM_bind, attempt. by rewrite Get_eval, Hn. Qed.

Lemma getTx_found name q s m :
  namespace_row (view (ts_db s)) name = Some m ->
  Repo.getTx name q s = (Ok (NamespaceMetaToDomain m name), s).
Proof.
  unfold namespace_row. intros Hm. unfold Repo.getTx, mbind, TxM_bind, attempt. rewrite Get_eval.
  destruct (view _ !! _) as [d|]; [|done]. cbn in Hm |- *. unfold bbolt.JSONCodec_Unmarshal.
  by destruct (json_Unmarshal d); simplify_eq.
Qed.

(** Get reports every failure to decode as such. *)
Lemma getTx_Ok name q s n s' :
  Repo.getTx name q s = (Ok n, s') ->
  s' = s /\ exists m, namespace_row (view (ts_db s)) name = Some m /\ n = NamespaceMetaToDomain m name.
Proof.
  unfold Repo.getTx, mbind, TxM_bind, attempt, namespace_row. rewrite Get_eval.
  destruct (view _ !! _) as [d|]; cbn; [|done]. unfold bbolt.JSONCodec_Unmarshal.
  destruct (json_Unmarshal d) as [e|m]; cbn.
  - destruct (errors_Is _ _); discriminate.
  - intros [= <- <-]. eauto.
Qed.

(** ** Counting the configs of a namespace *)

Lemma countByNamespace_eval ns w s :
  store_inv (view (ts_db s)) ->
  countByNamespaceTx ns (QTx w) s = (Ok (Z.of_nat (length (scan_rows (ts_db s) ns (str "/")))), s).
Proof.
  intros Hi. unfold countByNamespaceTx. rewrite scanMeta_eval.
  assert (Hrows : forall kv, kv ∈ scan_rows (ts_db s) ns (str "/") -> is_Some (meta_row (view (ts_db s)) kv.1) /\
            view (ts_db s) !! (bucketMeta, kv.1) = Some kv.2).
  { intros [k d] [_ Hd%elem_of_db_pairs]%list_elem_of_filter. eauto using inv_row_decodes. }
  rewrite <-(Z.add_0_l (Z.of_nat _)). generalize 0 as c. revert Hrows.
  induction (scan_rows _ _ _) as [|[k d] l IH]; intros Hrows c; [by rewrite Z.add_0_r|].
  destruct (Hrows (k, d)) as [[m Hm] Hd]; [set_solver|]. unfold meta_row in Hm. cbn [fst snd] in *.
  rewrite Hd in Hm. cbn in Hm.
  cbn [forM]. unfold scan_body, bbolt.JSONCodec_Unmarshal. cbn [snd fst].
  destruct (json_Unmarshal d) as [e|m']; [done|]. unfold mbind, TxM_bind. cbn.
  change (fun kv acc => _) with (scan_body (fun _ _ count => (mret (count + 1) : TxM Z))).
  etransitivity; [apply IH; set_solver|]. f_equal. f_equal. lia.
Qed.

Lemma scan_rows_empty db ns :
  ns <> [] -> scan_rows db ns (str "/") = [] <-> no_configs (view db) ns.
Proof.
  intros Hne. unfold scan_rows, scan_match, configKeyPrefix. rewrite bool_decide_false by done.
  split.
  - intros E path. destruct (view db !! _) as [d|] eqn:Ed; [|done]. exfalso.
    apply elem_of_db_pairs in Ed. eapply not_elem_of_nil. rewrite <-E.
    apply list_elem_of_filter. split; [|exact Ed]. cbn [fst]. apply Is_true_true, has_prefix_spec.
    exists path. unfold configKey. by rewrite <-!app_assoc.
  - intros Hno. destruct (filter _ _) as [|[k d] l] eqn:E; [done|]. exfalso.
    assert (Hin : (k, d) ∈ filter (fun kv : bytes * bytes => has_prefix kv.1 (ns ++ [keySep] ++ str "/"))
      (db_pairs db bucketMeta)) by (rewrite E; set_solver).
    apply list_elem_of_filter in Hin as [Hp Hd%elem_of_db_pairs]. cbn [fst] in Hp.
    apply Is_true_true, has_prefix_spec in Hp as [path ->].
    specialize (Hno path). unfold configKey in Hno. rewrite <-!app_assoc in Hd. congruence.
Qed.

(** ** Delete *)

(** The callback of Delete as one program. *)
Definition deleteCode (name : bytes) : TxM unit :=
  existing ← mapErrT (NamespaceService.mapTo ErrResourceNotFound ErrNotFound "get namespace: %w") (Repo.getTx name);
  if ns_Locked existing then txfail (EWrap "namespace %q: %w" [FStr name] ErrNamespaceLocked)
  else
    count ← wrapE "count configs in namespace: %w" []
              (wrapE "count configs by namespace: %w" [] (countByNamespaceTx name));
    if 0 <? count
    then txfail (NewValidationError (str "name") (str "namespace contains configs"))
    else wrapE "delete namespace: %w" [] (Repo.deleteTx name).

Lemma deleteTx_Ok name q s u s' :
  Repo.deleteTx name q s = (Ok u, s') ->
  view (ts_db s') = delete (bucketNamespaces, name) (view (ts_db s)).
Proof.
  unfold Repo.deleteTx, mbind, TxM_bind. rewrite Exists_eval. cbv beta iota.
  destruct (negb _); [done|]. rewrite wrapE_Ok. by intros (-> & _)%Delete_Ok.
Qed.

Section delete_branches.
Context (name : bytes) (s : TS) (Hinv : store_inv (view (ts_db s))).
Let v := view (ts_db s).

Lemma deleteCode_missing :
  v !! (bucketNamespaces, name) = None ->
  deleteCode name (QTx true) s = (Err (EWrap "get namespace: %w" [] ErrNotFound), s).
Proof.
  intros Hn. unfold deleteCode. apply bind_Err. unfold mapErrT. by rewrite getTx_missing.
Qed.

Lemma deleteCode_found m :
  namespace_row v name = Some m ->
  deleteCode name (QTx true) s =
  if nm_Locked m then (Err (EWrap "namespace %q: %w" [FStr name] ErrNamespaceLocked), s)
  else if bool_decide (scan_rows (ts_db s) name (str "/") = [])
  then wrapE "delete namespace: %w" [] (Repo.deleteTx name) (QTx true) s
  else (Err (NewValidationError (str "name") (str "namespace contains configs")), s).
Proof.
  intros Hm. unfold deleteCode.
  rewrite (bind_eval _ _ _ _ (NamespaceMetaToDomain m name) s) by (unfold mapErrT; by rewrite (getTx_found _ _ _ m)).
  cbn [ns_Locked NamespaceMetaToDomain]. destruct (nm_Locked m); [done|].
  rewrite (bind_eval _ _ _ _ (Z.of_nat (length (scan_rows (ts_db s) name (str "/")))) s)
    by (rewrite !wrapE_Ok; by apply countByNamespace_eval).
  by destruct (scan_rows _ _ _).
Qed.

Lemma deleteCode_Ok u s' :
  deleteCode name (QTx true) s = (Ok u, s') ->
  exists m, namespace_row v name = Some m /\ nm_Locked m = false /\ (name <> [] -> no_configs v name) /\
    view (ts_db s') = delete (bucketNamespaces, name) v.
Proof.
  intros E. pose proof E as E2. unfold deleteCode in E2.
  apply bind_Ok in E2 as (n & s1 & Hg & _). unfold mapErrT in Hg.
  destruct (Repo.getTx _ _ _) as [r sg] eqn:Eg. destruct r; simplify_eq.
  apply getTx_Ok in Eg as [-> (m & Hm & _)]. exists m. split; [done|].
  rewrite (deleteCode_found m Hm) in E. destruct (nm_Locked m); [done|].
  case_bool_decide as Hr; [|done]. apply wrapE_Ok, deleteTx_Ok in E.
  split; [done|]. split; [|done]. intros Hne. by apply scan_rows_empty in Hr.
Qed.
End delete_branches.

Lemma delete_fuses name h ctx :
  ctx_tx ctx = Some h ->
  fuses true h
    (existing ← mapErrA (NamespaceService.mapTo ErrResourceNotFound ErrNotFound "get namespace: %w") (Repo.Get ctx name);
     if ns_Locked existing then appfail (EWrap "namespace %q: %w" [FStr name] ErrNamespaceLocked)
     else
       count ← wrapA "count configs in namespace: %w" [] (Repository.CountByNamespace ctx name);
       if 0 <? count
       then appfail (NewValidationError (str "name") (str "namespace contains configs"))
       else wrapA "delete namespace: %w" [] (Repo.Delete ctx name)) (deleteCode name).
Proof. intros Hc. unfold deleteCode, Repo.Get, Repo.Delete, Repository.CountByNamespace. fuse. Qed.

(** A transaction that fails is refused at top level. *)
Lemma tx_refused {A} ctx (cb : Context_ -> App A) code w e t s :
  ctx_tx ctx = None -> idle w -> (forall h, fuses true h (cb (with_tx_handle h ctx)) code) ->
  code (QTx true) (mkTS (w_db w) (w_tick w)) = (Err e, s) -> errors_Is e t = true ->
  refused (Manager_WithTx ctx cb) t w.
Proof.
  intros Hc Hi Hf E Ht. unfold refused. rewrite (Manager_WithTx_fused ctx cb code) by done.
  unfold tx_outcome. rewrite E. cbn. do 2 eexists. split; [done|]. split; [|done].
  by apply errors_Is_wrap, errors_Is_join.
Qed.
End spec.

Section lock.
Context `{BoltSpec} `{Disk} `{CodecsSpec} `{ClockSpec}.
Implicit Types (v : View) (s : TS).

(** ** Lock and Unlock *)

(** The buckets a namespace operation may change. *)
Definition ns_buckets : list string := [bucketNamespaces; bucketSys; bucketLockHistory; bucketLockChangelog].

(** Only the record of one namespace and the lock log may differ. *)
Definition ns_only (name : bytes) (v v' : View) : Prop :=
  cur_rev v' = cur_rev v /\
  (forall b k, b ∉ ns_buckets -> v' !! (b, k) = v !! (b, k)) /\
  (forall n, n <> name -> v' !! (bucketNamespaces, n) = v !! (bucketNamespaces, n)).

Lemma ns_only_refl name v : ns_only name v v.
Proof. done. Qed.

Lemma ns_only_inv name v v' : ns_only name v v' -> store_inv v -> store_inv v'.
Proof.
  intros (Hc & Hb & _). apply store_inv_ext; [done|]. intros b k Hin. apply Hb.
  intros Hn. set_unfold. naive_solver.
Qed.

Lemma ns_only_lock name v v' n : ns_only name v v' -> n <> name -> ns_lock v' n = ns_lock v n.
Proof. intros (_ & _ & Hn) Hne. unfold ns_lock. by rewrite Hn. Qed.

Definition relocked (b : bool) (m : NamespaceMeta) : NamespaceMeta :=
  mkNamespaceMeta (nm_Description m) b (nm_CreatedAt m) (nm_UpdatedAt m).

Lemma writeLockEvent_Ok ns path ty q s u s' :
  Repo.writeLockEvent ns path ty q s = (Ok u, s') ->
  let seq := int64 (cur_seq (view (ts_db s)) + 1) in
  exists dh dl, view (ts_db s') =
      <[(bucketLockChangelog, revisionBytes seq) := dl]>
      (<[(bucketLockHistory, historyKey ns path seq) := dh]>
       (<[lockSeqKey := revisionBytes seq]> (view (ts_db s)))).
Proof.
  unfold Repo.writeLockEvent, Repo.nextLockSeq.
  rewrite bind_Ok. intros (seq & s1 & W1 & Hr).
  rewrite (bind_eval _ _ _ _ _ _ (bucket_Get_eval _ _ q s)) in W1.
  rewrite bind_Ok in W1. destruct W1 as (u1 & s0 & W1 & [-> ->]%ret_Ok).
  apply wrapE_Ok, bucket_Put_Ok in W1 as (V1 & T1 & _).
  rewrite (bind_eval _ _ _ _ _ _ (Now_eval q s0)), bind_Ok in Hr. destruct Hr as (u2 & s2 & W2 & Hr).
  apply wrapE_Ok, Put_Ok in W2 as (dh & _ & V2 & _).
  apply wrapE_Ok, Put_Ok in Hr as (dl & _ & V3 & _). cbn [ts_db] in *.
  exists dh, dl. rewrite V3, V2, V1. unfold cur_seq, counter, historyKey. done.
Qed.

Lemma toggleLockTx_Ok name locked ty q s u s' :
  Repo.toggleLockTx name locked ty q s = (Ok u, s') ->
  let v := view (ts_db s) in
  let v' := view (ts_db s') in
  exists m, namespace_row v name = Some m /\ ns_only name v v' /\
    (nm_Locked m = locked /\ s' = s \/
     nm_Locked m <> locked /\ exists d, json_Marshal (relocked locked m) = inr d /\
       v' !! (bucketNamespaces, name) = Some d).
Proof.
  unfold Repo.toggleLockTx. rewrite bind_Ok. intros (r & s1 & W & Hr).
  apply attempt_Ok in W. rewrite Get_eval in W. unfold namespace_row.
  destruct (view (ts_db s) !! (bucketNamespaces, name)) as [d0|]; [|by destruct r; simplify_eq].
  unfold bbolt.JSONCodec_Unmarshal in W. cbn [mbind option_bind].
  destruct (json_Unmarshal d0) as [e|m]; [destruct r; simplify_eq; by destruct (errors_Is _ _)|].
  destruct r as [e'|m']; [done|]. injection W as <- <-. exists m. split; [done|].
  destruct (Bool.eqb (nm_Locked m) locked) eqn:El.
  { apply Bool.eqb_prop in El. apply ret_Ok in Hr as [_ ->]. split; [done|]. by left. }
  apply Bool.eqb_false_iff in El.
  rewrite bind_Ok in Hr. destruct Hr as (u2 & s2 & W2 & Hr).
  apply wrapE_Ok, Put_Ok in W2 as (dn & Hdn & V2 & _).
  apply wrapE_Ok, writeLockEvent_Ok in Hr as (dh & dl & V3).
  assert (Hlook : forall b k, b <> bucketLockHistory -> b <> bucketLockChangelog -> b <> bucketSys ->
    view (ts_db s') !! (b, k) = view (ts_db s2) !! (b, k)).
  { intros b k ???. rewrite V3. by rewrite !lookup_insert_ne by congruence. }
  split; [|right; split; [done|]; exists dn; split; [done|];
    by rewrite Hlook, V2, lookup_insert_eq by done].
  split; [|split].
  - apply counter_ext. rewrite V3, !lookup_insert_ne, V2, lookup_insert_ne by done. done.
  - intros b k Hb. rewrite Hlook, V2 by (intros ->; apply Hb; unfold ns_buckets; set_solver).
    rewrite lookup_insert_ne; [done|]. intros [= <- _]. apply Hb. unfold ns_buckets. set_solver.
  - intros n Hn. rewrite Hlook, V2 by done. by rewrite lookup_insert_ne by congruence.
Qed.

(** What a lock or an unlock leaves, for a record the codec represents. *)
Lemma toggleLockTx_lock name locked ty q s u s' :
  Repo.toggleLockTx name locked ty q s = (Ok u, s') ->
  (forall m, namespace_row (view (ts_db s)) name = Some m -> json_wf m) ->
  exists m, namespace_row (view (ts_db s)) name = Some m /\
    namespace_row (view (ts_db s')) name = Some (relocked locked m) /\
    ns_only name (view (ts_db s)) (view (ts_db s')).
Proof.
  intros E Hwf. apply toggleLockTx_Ok in E as (m & Hm & Ho & Hc). exists m. split; [done|]. split; [|done].
  destruct Hc as [[<- ->]|(_ & d & Hd & Hl)]; [by destruct m|].
  unfold namespace_row. rewrite Hl. cbn. assert (Hw : json_wf (relocked locked m)) by exact (Hwf m Hm).
  by rewrite (row_roundtrip (relocked locked m) d Hw Hd).
Qed.

Lemma toggle_fuses name locked ty h ctx :
  ctx_tx ctx = Some h -> fuses true h (Repo.toggleLock ctx name locked ty) (Repo.toggleLockTx name locked ty).
Proof. apply fuses_GetQuerier. Qed.

(** Lock and Unlock share everything but the flag. *)
Definition setLock (ctx : Context_) (name : bytes) (locked : bool) : App unit :=
  if locked then NamespaceService.Lock ctx name else NamespaceService.Unlock ctx name.

Definition lock_event (name : bytes) (locked : bool) : notification :=
  if locked then NotifyNamespaceLocked name else NotifyNamespaceUnlocked name.

Lemma setLock_Ok ctx name locked w u w' :
  ctx_tx ctx = None -> idle w -> setLock ctx name locked w = (Ok u, w') ->
  exists ty s, Repo.toggleLockTx name locked ty (QTx true) (mkTS (w_db w) (w_tick w)) = (Ok tt, s) /\
    w' = publish (lock_event name locked) (ended true TxCommitted (ts_db s) (ts_db s) (ts_tick s) w).
Proof.
  intros Hc Hi. unfold setLock, NamespaceService.Lock, NamespaceService.Unlock, NamespaceService.notify_.
  destruct locked; intros (a & w1 & E & Hn)%appbind_Ok; apply mapErrA_Ok in E; injection Hn as _ <-;
    eapply Manager_WithTx_Ok in E as (s & Hs & ->); try done; try (intros h; by apply toggle_fuses);
    destruct a; eauto.
Qed.

(** ** Every operation stays in its buckets *)

Lemma ns_only_put name v d : ns_only name v (<[(bucketNamespaces, name) := d]> v).
Proof.
  split; [apply counter_ext; by rewrite lookup_insert_ne|]. split; intros; apply lookup_insert_ne.
  - intros [= <- _]. unfold ns_buckets in *. set_solver.
  - congruence.
Qed.

Lemma ns_only_delete name v : ns_only name v (delete (bucketNamespaces, name) v).
Proof.
  split; [apply counter_ext; by rewrite lookup_delete_ne|]. split; intros; apply lookup_delete_ne.
  - intros [= <- _]. unfold ns_buckets in *. set_solver.
  - congruence.
Qed.

Lemma createTx_Ok ns q s u s' :
  Repo.createTx ns q s = (Ok u, s') ->
  view (ts_db s) !! (bucketNamespaces, ns_Name ns) = None /\
  exists d, json_Marshal (DomainToNamespaceMeta ns) = inr d /\
    view (ts_db s') = <[(bucketNamespaces, ns_Name ns) := d]> (view (ts_db s)).
Proof.
  unfold Repo.createTx. rewrite (bind_eval _ _ _ _ _ _ (Exists_eval _ _ q s)).
  case_bool_decide as Hx; [done|]. intros (d & Hd & Hv & _)%wrapE_Ok%Put_Ok.
  split; [by apply eq_None_not_Some|]. eauto.
Qed.

Lemma updateTx_Ok ns q s u s' :
  Repo.updateTx ns q s = (Ok u, s') ->
  exists d, json_Marshal (DomainToNamespaceMeta ns) = inr d /\
    view (ts_db s') = <[(bucketNamespaces, ns_Name ns) := d]> (view (ts_db s)).
Proof.
  unfold Repo.updateTx. rewrite (bind_eval _ _ _ _ _ _ (Exists_eval _ _ q s)).
  case_bool_decide as Hx; cbn [negb]; [|done]. intros (d & Hd & Hv & _)%wrapE_Ok%Put_Ok. eauto.
Qed.

Definition createCode (ns : Namespace) : TxM Namespace :=
  _ ← mapErrT (NamespaceService.mapTo ErrResourceAlreadyExists ErrAlreadyExists "create namespace: %w")
        (Repo.createTx ns);
  wrapE "get created namespace: %w" [] (Repo.getTx (ns_Name ns)).

Definition countCode (ns : Namespace) : TxM Namespace :=
  wrapE "populate config count: %w" [] (wrapE "bbolt: with tx: %w" [] (
    count ← wrapE "count configs: %w" []
              (wrapE "count configs by namespace: %w" [] (countByNamespaceTx (ns_Name ns)));
    mret (set_count count ns))).

Definition updateCode (name description : bytes) : TxM Namespace :=
  existing ← mapErrT (NamespaceService.mapTo ErrResourceNotFound ErrNotFound "get namespace: %w") (Repo.getTx name);
  if ns_Locked existing then txfail (EWrap "namespace %q: %w" [FStr name] ErrNamespaceLocked)
  else
    now ← Now;
    let existing := set_description description now existing in
    _ ← wrapE "update namespace: %w" [] (Repo.updateTx existing);
    countCode existing.

Lemma mapErrT_Ok {A} f (m : TxM A) q s a s' : mapErrT f m q s = (Ok a, s') <-> m q s = (Ok a, s').
Proof. unfold mapErrT. destruct (m q s) as [[] ?]; naive_solver. Qed.

Lemma createCode_Ok ns q s n s' :
  createCode ns q s = (Ok n, s') -> ns_only (ns_Name ns) (view (ts_db s)) (view (ts_db s')).
Proof.
  unfold createCode. rewrite bind_Ok. intros (u & s1 & W & Hr).
  apply mapErrT_Ok, createTx_Ok in W as (_ & d & _ & V). apply wrapE_Ok, getTx_Ok in Hr as [-> _].
  rewrite V. apply ns_only_put.
Qed.

Lemma countCode_Ok ns wr s n s' :
  store_inv (view (ts_db s)) -> countCode ns (QTx wr) s = (Ok n, s') -> s' = s.
Proof.
  intros Hi. unfold countCode. rewrite !wrapE_Ok, bind_Ok. intros (c & s1 & W & Hr).
  rewrite !wrapE_Ok, countByNamespace_eval in W by done. injection W as _ <-. by apply ret_Ok in Hr as [_ ->].
Qed.

Lemma updateCode_Ok name description wr s n s' :
  store_inv (view (ts_db s)) -> updateCode name description (QTx wr) s = (Ok n, s') ->
  ns_only name (view (ts_db s)) (view (ts_db s')).
Proof.
  intros Hi. unfold updateCode. rewrite bind_Ok. intros (x & s1 & W & Hr).
  apply mapErrT_Ok, getTx_Ok in W as [-> (m & _ & ->)]. cbn [ns_Locked NamespaceMetaToDomain] in Hr.
  destruct (nm_Locked m); [done|]. rewrite (bind_eval _ _ _ _ _ _ (Now_eval _ _)), bind_Ok in Hr.
  destruct Hr as (u & s2 & W & Hr). apply wrapE_Ok, updateTx_Ok in W as (d & _ & V).
  cbn [ts_db set_description ns_Name NamespaceMetaToDomain] in V.
  assert (Ho : ns_only name (view (ts_db s)) (view (ts_db s2))) by (rewrite V; apply ns_only_put).
  apply countCode_Ok in Hr as ->; [done|]. by eapply ns_only_inv.
Qed.

(** The operations that change a namespace. *)
Inductive ns_op :=
| NsCreate (ns : Namespace)
| NsUpdate (name description : bytes)
| NsDelete (name : bytes)
| NsSetLock (name : bytes) (locked : bool).

Definition ns_op_name (o : ns_op) : bytes :=
  match o with NsCreate ns => ns_Name ns | NsUpdate name _ | NsDelete name | NsSetLock name _ => name end.

Definition ns_call (o : ns_op) (ctx : Context_) : App unit :=
  match o with
  | NsCreate ns => forget (NamespaceService.Create ctx ns)
  | NsUpdate name description => forget (NamespaceService.Update ctx name description)
  | NsDelete name => NamespaceService.Delete ctx name
  | NsSetLock name locked => setLock ctx name locked
  end.

(** Committed or not, the database is the old one or what the code made of it. *)
Lemma fused_db {A} ctx (cb : Context_ -> App A) code w :
  ctx_tx ctx = None -> idle w -> (forall h, fuses true h (cb (with_tx_handle h ctx)) code) ->
  w_db (Manager_WithTx ctx cb w).2 = w_db w \/
  exists a s, code (QTx true) (mkTS (w_db w) (w_tick w)) = (Ok a, s) /\
    w_db (Manager_WithTx ctx cb w).2 = ts_db s.
Proof.
  intros Hc Hi Hf. rewrite (Manager_WithTx_fused ctx cb code) by done. unfold tx_outcome.
  destruct (code _ _) as [[a|e|[]] s]; cbn; [destruct (commit_fault _); cbn|..]; eauto.
Qed.

Lemma mapErr_world {A} f (m : App A) w : (mapErrA f m w).2 = (m w).2.
Proof. unfold mapErrA. by destruct (m w). Qed.

Lemma fused_only {A} ctx (cb : Context_ -> App A) code name w :
  ctx_tx ctx = None -> idle w -> (forall h, fuses true h (cb (with_tx_handle h ctx)) code) ->
  (forall a s, code (QTx true) (mkTS (w_db w) (w_tick w)) = (Ok a, s) ->
     ns_only name (view (w_db w)) (view (ts_db s))) ->
  ns_only name (view (w_db w)) (view (w_db (Manager_WithTx ctx cb w).2)).
Proof.
  intros Hc Hi Hf Hk. destruct (fused_db ctx cb code w Hc Hi Hf) as [->|(a & s & E & ->)]; [done|eauto].
Qed.

Lemma ns_call_only o ctx w :
  ctx_tx ctx = None -> idle w -> store_inv (view (w_db w)) ->
  ns_only (ns_op_name o) (view (w_db w)) (view (w_db (ns_call o ctx w).2)).
Proof.
  intros Hc Hi Hinv. destruct o as [ns|name d|name|name locked]; cbn [ns_call ns_op_name].
  - rewrite forget_world. unfold NamespaceService.Create. destruct (Namespace_Validate ns) as [u|e|c]; [|done..].
    rewrite (appbind_eval _ _ w tt w), (appbind_eval NowA _ w _ _ eq_refl) by by destruct u. rewrite wrap_world.
    eapply (fused_only _ _ (createCode (set_times _ ns)) _ (mkWorld _ (w_db w) (w_txs w) _ _ _)); [done|done| |].
    + intros h. unfold createCode, Repo.Create, Repo.Get. fuse.
    + intros a s E. by apply createCode_Ok in E.
  - rewrite forget_world. unfold NamespaceService.Update. rewrite wrap_world.
    eapply (fused_only _ _ (updateCode name d)); [done|done| |].
    + intros h. unfold updateCode, countCode, Repo.Get, Repo.Update, NamespaceService.populateConfigCount,
        Repository.CountByNamespace. fuse.
    + intros a s E. by apply updateCode_Ok in E.
  - unfold NamespaceService.Delete. rewrite wrap_world.
    eapply (fused_only _ _ (deleteCode name)); [done|done|intros h; by apply delete_fuses|].
    intros a s (m & _ & _ & _ & ->)%deleteCode_Ok; [apply ns_only_delete|done].
  - assert (Hf : forall ty, ns_only name (view (w_db w)) (view (w_db
      (mapErrA (NamespaceService.mapTo ErrResourceNotFound ErrNotFound
         (if locked then "lock namespace: %w" else "unlock namespace: %w"))
        (Manager_WithTx ctx (fun ctx => Repo.toggleLock ctx name locked ty)) w).2))).
    { intros ty. rewrite mapErr_world. eapply (fused_only _ _ (Repo.toggleLockTx name locked ty)); [done|done| |].
      - intros h. by apply toggle_fuses.
      - by intros a s (m & _ & Ho & _)%toggleLockTx_Ok. }
    unfold setLock, NamespaceService.Lock, NamespaceService.Unlock, Repo.LockNamespace, Repo.UnlockNamespace.
    destruct locked; [specialize (Hf EventTypeNamespaceLocked)|specialize (Hf EventTypeNamespaceUnlocked)];
      cbn iota in *; unfold mbind, App_bind; destruct (mapErrA _ _ w) as [[] ?]; done.
Qed.

Lemma created_inv ns ctx w :
  ctx_tx ctx = None -> idle w -> store_inv (view (w_db w)) ->
  store_inv (view (w_db (NamespaceService.Create ctx ns w).2)).
Proof.
  intros Hc Hi Hv. pose proof (ns_call_only (NsCreate ns) ctx w Hc Hi Hv) as Ho. cbn [ns_call] in Ho.
  rewrite forget_world in Ho. by eapply ns_only_inv.
Qed.
End lock.

(** C13: Every operation of the namespace service, at top level and whatever it
    returns, stays in its own records: it may change the record of its namespace and
    the lock log, nothing else, so configs, history, changelog, revision and every
    other namespace are what they were and the invariant of the store is kept. *)
Theorem namespace_ops_frame `{BoltSpec} `{Disk} `{CodecsSpec} `{ClockSpec} o ctx w :
  let v := view (w_db w) in
  let v' := view (w_db (ns_call o ctx w).2) in
  ctx_tx ctx = None -> idle w -> store_inv v ->
  store_inv v' /\ cur_rev v' = cur_rev v /\ (forall b k, b ∉ ns_buckets -> v' !! (b, k) = v !! (b, k)) /\
  (forall n, n <> ns_op_name o -> v' !! (bucketNamespaces, n) = v !! (bucketNamespaces, n)).
Proof.
  intros v v' Hc Hi Hinv. pose proof (ns_call_only o ctx w Hc Hi Hinv) as Ho.
  split; [by eapply ns_only_inv|exact Ho].
Qed.



(** ** Witnesses *)

Definition ns_prod : Namespace := mkNamespace (str "prod") [] (str "live") 0 false 0 0 false false.

(** A store with the namespace [prod] and two configs in it. *)
Definition world_ns : World := (NamespaceService.Create ctx_background ns_prod world_ab).2.

Lemma world_ns_facts :
  exists w, w = world_ns /\ store_inv (view (w_db w)) /\ idle w /\
    (exists m, namespace_row (view (w_db w)) (str "prod") = Some m /\ nm_Locked m = false /\ json_wf m) /\
    is_Some (view (w_db w) !! (bucketMeta, configKey (str "prod") (str "/a"))) /\
    (NamespaceService.Lock ctx_background (str "prod") w).1 = Ok tt.
Proof.
  exists world_ns. split; [done|]. split.
  - apply created_inv; [done|by_decide|apply reachable_store_inv, world_ab_reachable].
  - split; [by_decide|]. split; [eexists; split; [by vm_compute|by vm_compute]|].
    split; [by_decide|by vm_compute].
Qed.



Lemma namespace_ops_frame_witness :
  store_inv (view (w_db (ns_call (NsUpdate (str "prod") (str "x")) ctx_background world_ns).2)).
Proof.
  destruct world_ns_facts as (w & <- & Hinv & Hi & _).
  by apply (namespace_ops_frame (NsUpdate (str "prod") (str "x")) ctx_background w).
Defined.

(** A range delete looks at the lock of the namespace it starts in only: one that
    starts in an unlocked namespace deletes the configs of a locked one. *)
Lemma range_delete_bypasses_lock :
  let w := (setLock ctx_background (str "prod") true world_ns).2 in
  let r := Repository.DeleteRangeKeys ctx_background (str "a") (str "/") (str "prod0") [] false w in
  ns_lock (view (w_db w)) (str "prod") = Some true /\
  r.1 = Ok ([mkKVPair (str "prod") (str "/a") None 0 0 0; mkKVPair (str "prod") (str "/b") None 0 0 0], 3) /\
  view (w_db r.2) !! (bucketMeta, configKey (str "prod") (str "/a")) = None.
Proof. cbv zeta. split; [by vm_compute|]. split; by vm_compute. Qed.
