(* ===== verification/Frame.v ===== *)
(** * Programs that stay in one bucket

    [stays n code]: whatever it returns, [code] changes no bucket but [n].  The rules
    follow the operators programs are built with. *)

From S2P Require Import Prelude.
From S2P Require Import Bolt.
From stdpp Require Import base list gmap strings.
From Stdlib Require Import Ascii ZArith Lia.
Open Scope Z_scope.

Section frame.
Context `{BoltSpec}.
Implicit Types (n : string) (v : View).

(** Nothing outside bucket [n] differs. *)
Definition same_but n v v' : Prop := forall b k, b <> n -> v' !! (b, k) = v !! (b, k).

Definition stays {A} n (code : TxM A) : Prop := forall q s r s',
  code q s = (r, s') -> same_but n (view (ts_db s)) (view (ts_db s')).

Lemma same_but_trans n v1 v2 v3 : same_but n v1 v2 -> same_but n v2 v3 -> same_but n v1 v3.
Proof. intros H1 H2 b k Hb. by rewrite H2, H1. Qed.

Lemma stays_same {A} n (code : TxM A) : (forall q s, ts_db (code q s).2 = ts_db s) -> stays n code.
Proof. intros Hs q s r s' E b k _. specialize (Hs q s). rewrite E in Hs. cbn in Hs. by rewrite Hs. Qed.

Lemma stays_ret {A} n (a : A) : stays n (mret a).
Proof. by apply stays_same. Qed.

Lemma stays_fail {A} n e : stays (A:=A) n (txfail e).
Proof. by apply stays_same. Qed.

Lemma stays_Now `{Clock} n : stays n Now.
Proof. by apply stays_same. Qed.

Lemma stays_Get n b k : stays n (bucket_Get b k).
Proof. apply stays_same. intros q s. by rewrite bucket_Get_eval. Qed.

Lemma stays_Exists n b k : stays n (bbolt.Exists b k).
Proof. apply stays_same. intros q s. by rewrite Exists_eval. Qed.

Lemma stays_get {T} `{JSON T} n b k : stays n (bbolt.Get (T:=T) b k).
Proof. apply stays_same. intros q s. by rewrite Get_eval. Qed.

Lemma stays_bind {A B} n (m : TxM A) (f : A -> TxM B) :
  stays n m -> (forall a, stays n (f a)) -> stays n (m ≫= f).
Proof.
  intros Hm Hf q s r s'. unfold mbind, TxM_bind. destruct (m q s) as [[a|e|c] s1] eqn:E; apply Hm in E.
  - intros E2%Hf. by eapply same_but_trans.
  - by intros [= _ <-].
  - by intros [= _ <-].
Qed.

Lemma stays_wrap {A} n fmt args (m : TxM A) : stays n m -> stays n (wrapE fmt args m).
Proof. intros Hm q s r s' E. unfold wrapE in E. destruct (m q s) eqn:Em. injection E as _ <-. by eapply Hm. Qed.

Lemma stays_attempt {A} n (m : TxM A) : stays n m -> stays n (attempt m).
Proof.
  intros Hm q s r s' E. unfold attempt in E. destruct (m q s) as [[] s1] eqn:Em;
    injection E as _ <-; by eapply Hm.
Qed.

Lemma stays_write n fmt op : stays n (bucket_write fmt op n).
Proof.
  intros q s r s' E b k Hb. rewrite !lookup_view.
  enough (Hd : ts_db s' !! b = ts_db s !! b) by by rewrite Hd.
  unfold bucket_write, set_bucket in E.
  repeat case_match; injection E as _ <-; try done; cbn; by rewrite lookup_insert_ne.
Qed.

Lemma stays_Put n k x : stays n (bucket_Put n k x).
Proof. by apply stays_write. Qed.

Lemma stays_Delete n k : stays n (bucket_Delete n k).
Proof. by apply stays_write. Qed.

Lemma stays_put {T} `{JSON T} n k (x : T) : stays n (bbolt.Put n k x).
Proof. unfold bbolt.Put. destruct (bbolt.JSONCodec_Marshal x); [apply stays_fail|apply stays_wrap, stays_Put]. Qed.

Lemma stays_delete n k : stays n (bbolt.Delete n k).
Proof. apply stays_wrap, stays_Delete. Qed.

Lemma stays_forM {A X} n (l : list X) (body : X -> A -> TxM (flow A)) acc :
  (forall x a, stays n (body x a)) -> stays n (forM l body acc).
Proof.
  intros Hb. revert acc. induction l as [|x l IH]; intros acc; [apply stays_ret|].
  apply stays_bind; [apply Hb|]. intros [a|a]; [apply IH|apply stays_ret].
Qed.

Lemma stays_ForEach {A} n b (fn : bytes -> bytes -> A -> TxM A) acc :
  (forall k x a, stays n (fn k x a)) -> stays n (bucket_ForEach b fn acc).
Proof.
  intros Hf q s r s'. unfold bucket_ForEach. destruct (lookup_bucket b s).
  - apply stays_wrap, stays_forM. intros kv a. apply stays_bind; [apply Hf|]. intros. apply stays_ret.
  - by destruct q; intros [= _ <-].
Qed.
End frame.

Create HintDb stays.
#[export] Hint Resolve stays_ret stays_fail stays_Now stays_Get stays_Exists stays_get stays_wrap stays_attempt
  stays_Put stays_Delete stays_put stays_delete : stays.

(** Follows the structure of a program. *)
Ltac stay :=
  lazymatch goal with
  | |- stays _ (mbind _ _) => apply stays_bind; [stay|intros; cbv beta zeta; stay]
  | |- stays _ (match ?x with _ => _ end) => destruct x; stay
  | |- stays _ (let _ := _ in _) => cbv zeta; stay
  | |- stays _ (wrapE _ _ _) => apply stays_wrap; stay
  | |- stays _ (attempt _) => apply stays_attempt; stay
  | |- stays _ (bucket_ForEach _ _ _) => apply stays_ForEach; intros; cbv beta zeta; stay
  | |- stays _ _ => auto with stays
  | |- _ => idtac
  end.
