(* ===== verification/PolicyRepo.v ===== *)
(** * The policy repository

    internal/storage/bbolt/policy/repository.go: the Casbin rules in their bucket.
    A rule is one key, the JSON array [sec, ptype, fields...], with an empty value.
    The bodies are programs against the querier of the caller's context; the logged
    warnings are left out. *)

From S2P Require Import Prelude.
From S2P Require Import Bolt.
From S2P Require Import Domain.
From S2P Require Import Manager.
From stdpp Require Import base list gmap strings.
From Stdlib Require Import Ascii ZArith Lia.
Open Scope Z_scope.

Definition bucketPolicy : string := "auth_policy".
Definition minPartsLen : nat := 3.

(** The section names of the rules. *)
Definition secP : bytes := str "p".
Definition secG : bytes := str "g".

(** Strings that encoding/json writes and reads back unchanged. *)
#[global] Instance parts_repr : Representable (list bytes) :=
  {| json_wf l := forallb utf8_valid l = true; json_canon l := l |}.

(** The loop [for i, val := range fieldValues]. *)
Fixpoint matchesFrom (fields : list bytes) (idx : nat) (fieldValues : list bytes) : bool :=
  match fieldValues with
  | [] => true
  | val :: fieldValues =>
      if bool_decide (val = []) then matchesFrom fields (S idx) fieldValues
      else
        match fields !! idx with
        | None => false
        | Some f => if bytes_eqb f val then matchesFrom fields (S idx) fieldValues else false
        end
  end.

Definition matchesFilter (fields : list bytes) (fieldIndex : nat) (fieldValues : list bytes) : bool :=
  if (length fieldValues =? 0)%nat then true else matchesFrom fields fieldIndex fieldValues.

Section repo.
Context `{Bolt} `{JSON (list bytes)}.

Definition ruleKey (sec ptype : bytes) (rule : list bytes) : error + bytes :=
  match json_Marshal (sec :: ptype :: rule) with
  | inl e => inl (EWrap "marshal rule key: %w" [] e)
  | inr key => inr key
  end.

(** The parts of a key, when a scan does not skip it. *)
Definition keyParts (k : bytes) : option (list bytes) :=
  match json_Unmarshal (A:=list bytes) k with
  | inl _ => None
  | inr parts => if (length parts <? minPartsLen)%nat then None else Some parts
  end.

Definition AddPolicyTx (sec ptype : bytes) (rule : list bytes) : TxM unit :=
  match ruleKey sec ptype rule with
  | inl e => txfail e
  | inr key => wrapE "add policy rule: %w" [] (bucket_Put bucketPolicy key [])
  end.

Definition RemovePolicyTx (sec ptype : bytes) (rule : list bytes) : TxM unit :=
  match ruleKey sec ptype rule with
  | inl e => txfail e
  | inr key => wrapE "remove policy rule: %w" [] (bucket_Delete bucketPolicy key)
  end.

Definition filterMatches (sec ptype : bytes) (fieldIndex : nat) (fieldValues : list bytes) (k : bytes) : bool :=
  match keyParts k with
  | Some (s :: p :: fields) => bytes_eqb s sec && bytes_eqb p ptype && matchesFilter fields fieldIndex fieldValues
  | _ => false
  end.

Fixpoint deleteKeys (fmt : string) (keys : list bytes) : TxM unit :=
  match keys with
  | [] => mret tt
  | k :: keys => _ ← wrapE fmt [] (bucket_Delete bucketPolicy k); deleteKeys fmt keys
  end.

Definition RemoveFilteredPolicyTx (sec ptype : bytes) (fieldIndex : nat) (fieldValues : list bytes) : TxM unit :=
  toDelete ← wrapE "remove filtered policy: scan: %w" []
    (bucket_ForEach bucketPolicy (fun k _ toDelete =>
       mret (if filterMatches sec ptype fieldIndex fieldValues k then toDelete ++ [k] else toDelete)) []);
  deleteKeys "remove filtered policy: delete: %w" toDelete.

Definition subjectRule (subject k : bytes) : option (list bytes) :=
  match keyParts k with
  | Some (s :: p :: fields) =>
      if bytes_eqb s secP && bytes_eqb p secP then
        match fields with
        | f :: _ => if bytes_eqb f subject then Some fields else None
        | [] => None
        end
      else None
  | _ => None
  end.

Definition ListPermissionsForSubjectTx (subject : bytes) : TxM (list (list bytes)) :=
  wrapE "list permissions: %w" []
    (bucket_ForEach bucketPolicy (fun k _ rules =>
       mret (match subjectRule subject k with Some r => rules ++ [r] | None => rules end)) []).

(** LoadPolicyCtx: every rule is handed to Casbin's [persist.LoadPolicyArray]; one it
    refuses is skipped. *)
Definition LoadPolicyTx {Model} (LoadPolicyArray : list bytes -> Model -> error + Model) (model : Model) :
    TxM Model :=
  wrapE "load policy: %w" []
    (bucket_ForEach bucketPolicy (fun k _ model =>
       mret (match keyParts k with
             | Some (_ :: rule) => match LoadPolicyArray rule model with inl _ => model | inr model' => model' end
             | _ => model
             end)) model).

Fixpoint putRules (rules : list (bytes * bytes * list bytes)) : TxM unit :=
  match rules with
  | [] => mret tt
  | (sec, ptype, rule) :: rules =>
      match ruleKey sec ptype rule with
      | inl e => txfail e
      | inr key => _ ← wrapE "save policy: put: %w" [] (bucket_Put bucketPolicy key []); putRules rules
      end
  end.

(** SavePolicyCtx of a model with these rules, in the order of its iteration. *)
Definition SavePolicyTx (rules : list (bytes * bytes * list bytes)) : TxM unit :=
  existing ← wrapE "save policy: scan: %w" []
    (bucket_ForEach bucketPolicy (fun k _ existing => mret (existing ++ [k])) []);
  _ ← deleteKeys "save policy: clear: %w" existing;
  putRules rules.
End repo.

(** The methods that take the caller's context; the adapter's LoadPolicy passes the
    background context. *)
Module PolicyRepository.
Section methods.
Context `{Bolt} `{Disk} `{JSON (list bytes)}.

Definition AddPolicyCtx (ctx : Context_) (sec ptype : bytes) (rule : list bytes) : App unit :=
  GetQuerier ctx (AddPolicyTx sec ptype rule).

Definition RemovePolicyCtx (ctx : Context_) (sec ptype : bytes) (rule : list bytes) : App unit :=
  GetQuerier ctx (RemovePolicyTx sec ptype rule).

Definition RemoveFilteredPolicyCtx (ctx : Context_) (sec ptype : bytes) (fieldIndex : nat)
    (fieldValues : list bytes) : App unit :=
  GetQuerier ctx (RemoveFilteredPolicyTx sec ptype fieldIndex fieldValues).

Definition ListPermissionsForSubject (ctx : Context_) (subject : bytes) : App (list (list bytes)) :=
  GetQuerier ctx (ListPermissionsForSubjectTx subject).

Definition LoadPolicyCtx {Model} (load : list bytes -> Model -> error + Model) (ctx : Context_) (model : Model) :
    App Model :=
  GetQuerier ctx (LoadPolicyTx load model).

Definition LoadPolicy {Model} (load : list bytes -> Model -> error + Model) (model : Model) : App Model :=
  LoadPolicyCtx load ctx_background model.

Definition SavePolicyCtx (ctx : Context_) (rules : list (bytes * bytes * list bytes)) : App unit :=
  GetQuerier ctx (SavePolicyTx rules).
End methods.
End PolicyRepository.

(** ** What the bucket holds *)

Section facts.
Context `{BoltSpec} `{!JSON (list bytes)} `{!JSONSpec (list bytes)}.
Implicit Types (v : View) (s : TS).

Definition rule_wf (rule : list bytes) : Prop := forallb utf8_valid rule = true.

(** A stored rule. *)
Definition on_disk (v : View) (sec : bytes) (rule : list bytes) : Prop :=
  exists k, json_Marshal (sec :: sec :: rule) = inr k /\ is_Some (v !! (bucketPolicy, k)).

(** Every key is the encoding of a representable rule of one of the two sections. *)
Definition policy_ok (v : View) : Prop :=
  forall k, is_Some (v !! (bucketPolicy, k)) ->
    exists sec rule, (sec = secP \/ sec = secG) /\ rule <> [] /\ rule_wf rule /\
      json_Marshal (sec :: sec :: rule) = inr k.

Lemma parts_wf sec rule : sec = secP \/ sec = secG -> rule_wf rule -> json_wf (sec :: sec :: rule).
Proof. intros [-> | ->] Hr; exact Hr. Qed.

Lemma keyParts_rule sec rule k :
  sec = secP \/ sec = secG -> rule_wf rule -> rule <> [] -> json_Marshal (sec :: sec :: rule) = inr k ->
  keyParts k = Some (sec :: sec :: rule).
Proof.
  intros Hs Hw Hne Hk. unfold keyParts. rewrite (json_roundtrip _ k (parts_wf sec rule Hs Hw) Hk).
  by destruct rule.
Qed.

Lemma rule_key_inj sec sec' rule rule' k :
  sec = secP \/ sec = secG -> sec' = secP \/ sec' = secG -> rule_wf rule -> rule_wf rule' ->
  json_Marshal (sec :: sec :: rule) = inr k -> json_Marshal (sec' :: sec' :: rule') = inr k ->
  sec = sec' /\ rule = rule'.
Proof.
  intros Hs Hs' Hw Hw' Hk Hk'.
  apply json_roundtrip in Hk; [|by apply parts_wf]. apply json_roundtrip in Hk'; [|by apply parts_wf].
  rewrite Hk in Hk'. by injection Hk' as <- _ <-.
Qed.

Lemma ruleKey_Ok sec ptype rule k : ruleKey sec ptype rule = inr k <-> json_Marshal (sec :: ptype :: rule) = inr k.
Proof. unfold ruleKey. destruct (json_Marshal _); naive_solver. Qed.

(** *** One rule *)

Lemma AddPolicyTx_Ok sec rule q s u s' :
  sec = secP \/ sec = secG -> rule_wf rule -> rule <> [] ->
  AddPolicyTx sec sec rule q s = (Ok u, s') ->
  let v := view (ts_db s) in
  let v' := view (ts_db s') in
  (policy_ok v -> policy_ok v') /\
  forall sec' rule', sec' = secP \/ sec' = secG -> rule_wf rule' ->
    on_disk v' sec' rule' <-> (sec' = sec /\ rule' = rule) \/ on_disk v sec' rule'.
Proof.
  intros Hs Hw Hne. unfold AddPolicyTx. destruct (ruleKey sec sec rule) as [|k] eqn:Hk; [done|].
  apply ruleKey_Ok in Hk. rewrite wrapE_Ok. intros (Hv & _)%bucket_Put_Ok. cbv zeta. rewrite Hv.
  split.
  - intros Hok k' Hk'. destruct (decide (k' = k)) as [->|Hne']; [by exists sec, rule|].
    apply Hok. by rewrite lookup_insert_ne in Hk' by congruence.
  - intros sec' rule' Hs' Hw'. unfold on_disk. split.
    + intros (k' & Hk' & Hl). destruct (decide (k' = k)) as [->|Hne'].
      * left. by eapply rule_key_inj.
      * right. exists k'. by rewrite lookup_insert_ne in Hl by congruence.
    + intros [[-> ->]|(k' & Hk' & Hl)]; [exists k|exists k']; (split; [done|]).
      * rewrite lookup_insert_eq. by eexists.
      * destruct (decide (k' = k)) as [->|]; [rewrite lookup_insert_eq; by eexists|].
        by rewrite lookup_insert_ne by congruence.
Qed.

Lemma RemovePolicyTx_Ok sec rule q s u s' :
  sec = secP \/ sec = secG -> rule_wf rule ->
  RemovePolicyTx sec sec rule q s = (Ok u, s') ->
  let v := view (ts_db s) in
  let v' := view (ts_db s') in
  (policy_ok v -> policy_ok v') /\
  forall sec' rule', sec' = secP \/ sec' = secG -> rule_wf rule' ->
    on_disk v' sec' rule' <-> on_disk v sec' rule' /\ ~ (sec' = sec /\ rule' = rule).
Proof.
  intros Hs Hw. unfold RemovePolicyTx. destruct (ruleKey sec sec rule) as [|k] eqn:Hk; [done|].
  apply ruleKey_Ok in Hk. rewrite wrapE_Ok. intros (Hv & _)%bucket_Delete_Ok. cbv zeta. rewrite Hv.
  split.
  - intros Hok k' Hk'. apply Hok. destruct (decide (k' = k)) as [->|]; [|by rewrite lookup_delete_ne in Hk' by congruence].
    rewrite lookup_delete_eq in Hk'. by destruct Hk'.
  - intros sec' rule' Hs' Hw'. unfold on_disk. split.
    + intros (k' & Hk' & Hl). destruct (decide (k' = k)) as [->|Hne'];
        [rewrite lookup_delete_eq in Hl; by destruct Hl|]. rewrite lookup_delete_ne in Hl by congruence.
      split; [by exists k'|]. intros [-> ->]. congruence.
    + intros [(k' & Hk' & Hl) Hno]. exists k'. split; [done|]. rewrite lookup_delete_ne; [done|].
      intros [= <-]. apply Hno. by eapply rule_key_inj.
Qed.

(** *** Scans *)

Lemma ForEach_pure {A} n (f : A -> bytes -> A) acc q s r s' :
  bucket_ForEach n (fun k _ a => mret (f a k)) acc q s = (Ok r, s') ->
  s' = s /\ r = foldl f acc (db_pairs (ts_db s) n).*1.
Proof.
  unfold bucket_ForEach, lookup_bucket, db_pairs. destruct (ts_db s !! n) as [b|]; [|by destruct q].
  rewrite wrapE_Ok. rewrite (forM_pure (fun a (kv : bytes * bytes) => f a kv.1)) by done.
  intros [= <- <-]. split; [done|]. generalize acc. induction (bolt_pairs b) as [|[k v] l IH]; intros a; [done|].
  apply IH.
Qed.

Lemma policy_keys db k : k ∈ (db_pairs db bucketPolicy).*1 <-> is_Some (view db !! (bucketPolicy, k)).
Proof.
  rewrite list_elem_of_fmap. split.
  - intros ([k' d] & -> & Hin%elem_of_db_pairs). by eexists.
  - intros [d Hd%elem_of_db_pairs]. by exists (k, d).
Qed.

Lemma deleteKeys_Ok fmt keys q s u s' :
  deleteKeys fmt keys q s = (Ok u, s') ->
  forall k, view (ts_db s') !! (bucketPolicy, k) =
    if decide (k ∈ keys) then None else view (ts_db s) !! (bucketPolicy, k).
Proof.
  revert s. induction keys as [|k keys IH]; intros s; cbn [deleteKeys].
  - intros [_ ->]%ret_Ok k. by rewrite decide_False by set_solver.
  - rewrite bind_Ok. intros (u1 & s1 & (Hv & _)%wrapE_Ok%bucket_Delete_Ok & Hk) k'.
    rewrite (IH _ Hk), Hv. destruct (decide (k' = k)) as [->|Hne].
    + rewrite lookup_delete_eq, (decide_True (P := k ∈ k :: keys)) by left. by case_decide.
    + rewrite lookup_delete_ne by congruence. apply decide_ext. set_solver.
Qed.

Lemma foldl_keep {A} (P : A -> bool) l acc :
  foldl (fun acc x => if P x then acc ++ [x] else acc) acc l = acc ++ List.filter P l.
Proof.
  revert acc. induction l as [|x l IH]; intros acc; cbn; [by rewrite app_nil_r|].
  rewrite IH. destruct (P x); [by rewrite <-app_assoc|done].
Qed.

Lemma filterMatches_rule sec sec' rule i vals k :
  sec' = secP \/ sec' = secG -> rule_wf rule -> rule <> [] -> json_Marshal (sec' :: sec' :: rule) = inr k ->
  filterMatches sec sec i vals k = true <-> sec' = sec /\ matchesFilter rule i vals = true.
Proof.
  intros Hs Hw Hne Hk. unfold filterMatches. rewrite (keyParts_rule sec' rule k) by done.
  rewrite !andb_true_iff. unfold bytes_eqb. rewrite !bool_decide_eq_true. naive_solver.
Qed.

Lemma RemoveFilteredPolicyTx_Ok sec i vals q s u s' :
  policy_ok (view (ts_db s)) -> RemoveFilteredPolicyTx sec sec i vals q s = (Ok u, s') ->
  let v := view (ts_db s) in
  let v' := view (ts_db s') in
  policy_ok v' /\
  forall sec' rule', sec' = secP \/ sec' = secG -> rule_wf rule' -> rule' <> [] ->
    on_disk v' sec' rule' <-> on_disk v sec' rule' /\ ~ (sec' = sec /\ matchesFilter rule' i vals = true).
Proof.
  intros Hok. unfold RemoveFilteredPolicyTx. rewrite bind_Ok.
  intros (keys & s1 & [-> ->]%wrapE_Ok%(ForEach_pure bucketPolicy
    (fun acc k => if filterMatches sec sec i vals k then acc ++ [k] else acc)) & Hd).
  rewrite foldl_keep in Hd. cbn [app] in Hd. pose proof (deleteKeys_Ok _ _ _ _ _ _ Hd) as Hk. cbv zeta.
  assert (Hin : forall k, k ∈ List.filter (filterMatches sec sec i vals) (db_pairs (ts_db s) bucketPolicy).*1 <->
    is_Some (view (ts_db s) !! (bucketPolicy, k)) /\ filterMatches sec sec i vals k = true).
  { intros k. rewrite list_elem_of_In, List.filter_In, <-list_elem_of_In, policy_keys. done. }
  assert (Hl : forall k, is_Some (view (ts_db s') !! (bucketPolicy, k)) <->
    is_Some (view (ts_db s) !! (bucketPolicy, k)) /\ filterMatches sec sec i vals k = false).
  { intros k. rewrite Hk. case_decide as Hc; rewrite Hin in Hc.
    - split; [by intros []|]. intros [_ ?]. destruct Hc. congruence.
    - split; [|naive_solver]. intros Hs. split; [done|]. apply not_true_is_false. naive_solver. }
  split; [intros k Hs; apply Hok; by apply Hl|].
  intros sec' rule' Hs Hw Hne. unfold on_disk. setoid_rewrite Hl. split.
  - intros (k & Hm & Hx & Hf). split; [by exists k|]. rewrite <-(filterMatches_rule sec sec' rule' i vals k) by done.
    by rewrite Hf.
  - intros [(k & Hm & Hx) Hno]. exists k. split; [done|]. split; [done|]. apply not_true_is_false.
    by rewrite (filterMatches_rule sec sec' rule' i vals k) by done.
Qed.

Lemma matchesFilter_one rule i val : val <> [] -> matchesFilter rule i [val] = true <-> rule !! i = Some val.
Proof.
  intros Hv. unfold matchesFilter. cbn. rewrite bool_decide_false by done.
  destruct (rule !! i) as [f|]; [|done]. unfold bytes_eqb. case_bool_decide; naive_solver.
Qed.

(** An empty value filters nothing out: every rule of the section matches. *)
Lemma matchesFilter_empty rule i : matchesFilter rule i [[]] = true.
Proof. done. Qed.

Lemma ListPermissionsForSubjectTx_Ok subject q s rules s' :
  policy_ok (view (ts_db s)) -> ListPermissionsForSubjectTx subject q s = (Ok rules, s') ->
  s' = s /\ forall rule, rule ∈ rules <-> on_disk (view (ts_db s)) secP rule /\ rule_wf rule /\ rule !! 0%nat = Some subject.
Proof.
  intros Hok. unfold ListPermissionsForSubjectTx.
  intros [-> ->]%wrapE_Ok%(ForEach_pure bucketPolicy
    (fun rules k => match subjectRule subject k with Some r => rules ++ [r] | None => rules end)).
  split; [done|].
  assert (Hf : forall l acc rule,
    rule ∈ foldl (fun rules k => match subjectRule subject k with Some r => rules ++ [r] | None => rules end) acc l <->
    rule ∈ acc \/ exists k, k ∈ l /\ subjectRule subject k = Some rule).
  { induction l as [|k l IH]; intros acc rule; cbn [foldl]; [set_solver|]. rewrite IH.
    destruct (subjectRule subject k) eqn:E; set_solver. }
  intros rule. rewrite Hf. split.
  - intros [?%elem_of_nil|(k & Hk%policy_keys & Hr)]; [done|].
    destruct (Hok k Hk) as (sec & r & Hs & Hne & Hw & Hm). unfold subjectRule in Hr.
    rewrite (keyParts_rule sec r k) in Hr by done. unfold bytes_eqb in Hr.
    case_bool_decide as E1; [|done]. cbn [andb] in Hr. subst sec. destruct r as [|f r]; [done|].
    case_bool_decide; [|done]. simplify_eq. split; [by exists k|done].
  - intros [(k & Hm & Hk) [Hw Hl]]. right. exists k. rewrite policy_keys. split; [done|].
    unfold subjectRule. destruct rule as [|f r]; [done|]. injection Hl as ->.
    rewrite (keyParts_rule secP (subject :: r) k) by (done || by left). unfold bytes_eqb.
    by rewrite !bool_decide_true.
Qed.
End facts.
