(* ===== verification/Casbin.v ===== *)
(** * The policy enforcer

    internal/service/auth/casbin: enforcer.go and tx_enforcer.go.  A rule change goes
    to the policy repository inside the caller's transaction and is recorded; after
    the commit the recorded operations are replayed on the in-memory model of the
    Casbin library, which answers the queries.  The library is a parameter
    ([Casbin]) with its documented behaviour as laws ([CasbinSpec]). *)

From S2P Require Import Prelude.
From S2P Require Import Bolt.
From S2P Require Import Domain.
From S2P Require Import Manager.
From S2P Require Import PolicyRepo.
From S2P Require Import Rbac.
From stdpp Require Import base list gmap strings.
From Stdlib Require Import Ascii ZArith Lia.
Open Scope Z_scope.

#[local] Set Warnings "-register-all".

(** ** The library

    [Model] is the state of a [gocasbin.Enforcer] built from [casbinModel], with the
    domain matching function and the two matcher functions of NewEnforcer registered.
    A call returns its error and the state it leaves. *)
Class Casbin := {
  Model : Type;
  cas_new : Model;
  (** [persist.LoadPolicyArray] *)
  cas_LoadPolicyArray : list bytes -> Model -> error + Model;
  (** [e.LoadPolicy()] with the adapter's LoadPolicy, which may use a state of its own *)
  cas_LoadPolicy : forall S : Type, (Model -> S -> outcome Model * S) -> Model -> S -> outcome unit * Model * S;
  cas_AddPolicy : list bytes -> Model -> outcome unit * Model;
  cas_RemovePolicy : list bytes -> Model -> outcome unit * Model;
  cas_AddGroupingPolicy : list bytes -> Model -> outcome unit * Model;
  cas_RemoveGroupingPolicy : list bytes -> Model -> outcome unit * Model;
  cas_DeleteUser : bytes -> Model -> outcome unit * Model;
  cas_RemoveFilteredGroupingPolicy : nat -> bytes -> Model -> outcome unit * Model;
  cas_Enforce : Model -> bytes -> bytes -> bytes -> bytes -> error + bool;
  cas_GetPolicy : Model -> error + list (list bytes);
  cas_GetGroupingPolicy : Model -> error + list (list bytes);
  cas_GetRolesForUser : Model -> bytes -> bytes -> error + list bytes;
  cas_GetImplicitPermissionsForUser : Model -> bytes -> error + list (list bytes);
}.
Arguments cas_LoadPolicy {_ S}.

(** ** Rules *)

Abbreviation RuleSet := (gset (list bytes)).

(** The p-rules and the g-rules of a policy. *)
Record Rules := mkRules { ru_p : RuleSet; ru_g : RuleSet }.

(** The value Go leaves when the error is dropped: [rules, _ := ...]. *)
Definition orNil {A} (r : error + list A) : list A := match r with inl _ => [] | inr l => l end.

(** The rules the library reports. *)
Definition rules_of `{Casbin} (m : Model) : Rules :=
  mkRules (list_to_set (orNil (cas_GetPolicy m))) (list_to_set (orNil (cas_GetGroupingPolicy m))).

(** The rule does not have [u] in column [i]. *)
Definition not_at (i : nat) (u : bytes) (r : list bytes) : Prop := r !! i <> Some u.

#[global] Instance not_at_dec i u r : Decision (not_at i u r).
Proof. unfold not_at. apply _. Defined.

(** Policies whose memberships are flat: a p-rule has four fields, a g-rule is
    [member, group, "*"] and no group is a member. *)
Record flat (R : Rules) : Prop := {
  flat_p r : r ∈ ru_p R -> length r = 4%nat;
  flat_g r : r ∈ ru_g R -> exists u g, r = [u; g; MembershipDomain] /\
    forall r', r' ∈ ru_g R -> r' !! 0%nat <> Some g;
}.

(** [g(sub, role, dom)] of the matcher. *)
Definition has_role (R : Rules) (sub role : bytes) : bool :=
  bytes_eqb sub role || bool_decide ([sub; role; MembershipDomain] ∈ ru_g R).

(** The matcher of [casbinModel] on one p-rule. *)
Definition matcher (R : Rules) (sub dom obj act : bytes) (r : list bytes) : bool :=
  match r with
  | [psub; pdom; pobj; pact] =>
      has_role R sub psub && (bytes_eqb pdom DomainAll || bytes_eqb dom pdom) &&
      ObjectGrants pobj obj && ActionGrants pact act
  | _ => false
  end.

(** [some(where (p.eft == allow))]. *)
Definition holds (R : Rules) (sub dom obj act : bytes) : bool :=
  existsb (matcher R sub dom obj act) (elements (ru_p R)).

Class CasbinSpec `{Casbin} : Prop := {
  cas_new_rules : rules_of cas_new = mkRules ∅ ∅;
  cas_LoadPolicyArray_p r m : length r = 4%nat -> exists m',
    cas_LoadPolicyArray (secP :: r) m = inr m' /\
    rules_of m' = mkRules ({[r]} ∪ ru_p (rules_of m)) (ru_g (rules_of m));
  cas_LoadPolicyArray_g r m : length r = 3%nat -> exists m',
    cas_LoadPolicyArray (secG :: r) m = inr m' /\
    rules_of m' = mkRules (ru_p (rules_of m)) ({[r]} ∪ ru_g (rules_of m));
  (** a load starts from no rules, and a failed one keeps the old policy *)
  cas_LoadPolicy_law S (adapter : Model -> S -> outcome Model * S) m s :
    exists m0, rules_of m0 = mkRules ∅ ∅ /\
    match adapter m0 s with
    | (Ok m1, s') => exists m2, cas_LoadPolicy adapter m s = (Ok tt, m2, s') /\ rules_of m2 = rules_of m1
    | (Err e, s') => exists e', cas_LoadPolicy adapter m s = (Err e', m, s')
    | (Crash c, s') => cas_LoadPolicy adapter m s = (Crash c, m, s')
    end;
  cas_AddPolicy_law r m : length r = 4%nat -> exists m', cas_AddPolicy r m = (Ok tt, m') /\
    rules_of m' = mkRules ({[r]} ∪ ru_p (rules_of m)) (ru_g (rules_of m));
  cas_RemovePolicy_law r m : length r = 4%nat -> exists m', cas_RemovePolicy r m = (Ok tt, m') /\
    rules_of m' = mkRules (ru_p (rules_of m) ∖ {[r]}) (ru_g (rules_of m));
  cas_AddGroupingPolicy_law r m : length r = 3%nat -> exists m', cas_AddGroupingPolicy r m = (Ok tt, m') /\
    rules_of m' = mkRules (ru_p (rules_of m)) ({[r]} ∪ ru_g (rules_of m));
  cas_RemoveGroupingPolicy_law r m : length r = 3%nat -> exists m', cas_RemoveGroupingPolicy r m = (Ok tt, m') /\
    rules_of m' = mkRules (ru_p (rules_of m)) (ru_g (rules_of m) ∖ {[r]});
  (** the g-rules of the subject and the p-rules naming it *)
  cas_DeleteUser_law u m : u <> [] -> exists m', cas_DeleteUser u m = (Ok tt, m') /\
    rules_of m' = mkRules (filter (not_at 0 u) (ru_p (rules_of m))) (filter (not_at 0 u) (ru_g (rules_of m)));
  cas_RemoveFilteredGroupingPolicy_law i u m : u <> [] -> exists m',
    cas_RemoveFilteredGroupingPolicy i u m = (Ok tt, m') /\
    rules_of m' = mkRules (ru_p (rules_of m)) (filter (not_at i u) (ru_g (rules_of m)));
  cas_Enforce_law m sub dom obj act : flat (rules_of m) ->
    cas_Enforce m sub dom obj act = inr (holds (rules_of m) sub dom obj act);
  cas_GetRolesForUser_law m user : flat (rules_of m) -> exists l,
    cas_GetRolesForUser m user MembershipDomain = inr l /\
    forall g, g ∈ l <-> [user; g; MembershipDomain] ∈ ru_g (rules_of m);
  cas_GetImplicitPermissionsForUser_law m user : flat (rules_of m) -> exists l,
    cas_GetImplicitPermissionsForUser m user = inr l /\
    forall r, r ∈ l <-> r ∈ ru_p (rules_of m) /\ exists s, r !! 0%nat = Some s /\ has_role (rules_of m) user s = true;
}.

(** ** tx_enforcer.go *)

(** A recorded operation: its kind with [args] or [user]. *)
Inductive op :=
| opAddP (args : list bytes)
| opRemoveP (args : list bytes)
| opAddG (args : list bytes)
| opRemoveG (args : list bytes)
| opDeleteUser (user : bytes).

(** Code with a TxEnforcer: the operations recorded so far are passed along. *)
Definition TxE `{Bolt} (A : Type) : Type := list op -> App (A * list op).

Section txe.
Context `{Bolt} `{Disk} `{JSON (list bytes)}.

#[global] Instance TxE_ret : MRet TxE := fun A a ops => mret (a, ops).
#[global] Instance TxE_bind : MBind TxE := fun A B f m ops => ao ← m ops; f ao.1 ao.2.

Definition liftTx {A} (m : App A) : TxE A := fun ops => a ← m; mret (a, ops).
Definition record (o : op) : TxE unit := fun ops => mret (tt, ops ++ [o]).
Definition failTx {A} (e : error) : TxE A := fun _ => appfail e.
Definition crashTx {A} (c : crash) : TxE A := fun _ w => (Crash c, w).
Definition wrapTx {A} (fmt : string) (args : list farg) (m : TxE A) : TxE A := fun ops => wrapA fmt args (m ops).
End txe.

Module TxEnforcer.
Section methods.
Context `{Bolt} `{Disk} `{JSON (list bytes)}.

Definition AddPolicy (ctx : Context_) (sub dom obj act : bytes) : TxE unit :=
  let rule := [sub; dom; obj; act] in
  _ ← liftTx (wrapA "tx add policy: %w" [] (PolicyRepository.AddPolicyCtx ctx secP secP rule));
  record (opAddP rule).

Definition RemovePolicy (ctx : Context_) (sub dom obj act : bytes) : TxE unit :=
  let rule := [sub; dom; obj; act] in
  _ ← liftTx (wrapA "tx remove policy: %w" [] (PolicyRepository.RemovePolicyCtx ctx secP secP rule));
  record (opRemoveP rule).

Definition AddRoleForUser (ctx : Context_) (user role dom : bytes) : TxE unit :=
  let rule := [user; role; dom] in
  _ ← liftTx (wrapA "tx add role for user: %w" [] (PolicyRepository.AddPolicyCtx ctx secG secG rule));
  record (opAddG rule).

Definition RemoveRoleForUser (ctx : Context_) (user role dom : bytes) : TxE unit :=
  let rule := [user; role; dom] in
  _ ← liftTx (wrapA "tx remove role for user: %w" [] (PolicyRepository.RemovePolicyCtx ctx secG secG rule));
  record (opRemoveG rule).

Definition DeleteUser (ctx : Context_) (userID : bytes) : TxE unit :=
  _ ← liftTx (wrapA "tx delete user (subject): %w" []
        (PolicyRepository.RemoveFilteredPolicyCtx ctx secG secG 0 [userID]));
  _ ← liftTx (wrapA "tx delete user (role): %w" []
        (PolicyRepository.RemoveFilteredPolicyCtx ctx secG secG 1 [userID]));
  record (opDeleteUser userID).

Definition GetPermissionsForSubject (ctx : Context_) (subject : bytes) : TxE (list (list bytes)) :=
  liftTx (wrapA "list permissions for subject: %w" [] (PolicyRepository.ListPermissionsForSubject ctx subject)).
End methods.
End TxEnforcer.

(** ** enforcer.go

    Code with the enforcer: the in-memory model is the cache, next to the world of
    the database. *)
Definition EM `{Bolt} `{Casbin} (A : Type) : Type := Model -> World -> outcome A * Model * World.

Section em.
Context `{Bolt} `{Casbin}.

#[global] Instance EM_ret : MRet EM := fun A a m w => (Ok a, m, w).
#[global] Instance EM_bind : MBind EM := fun A B f c m w =>
  match c m w with
  | (Ok a, m', w') => f a m' w'
  | (Err e, m', w') => (Err e, m', w')
  | (Crash c, m', w') => (Crash c, m', w')
  end.

Definition emFail {A} (e : error) : EM A := fun m w => (Err e, m, w).
Definition emWrap {A} (fmt : string) (args : list farg) (c : EM A) : EM A := fun m w =>
  let '(r, m', w') := c m w in (map_err (EWrap fmt args) r, m', w').
(** A read of the cache. *)
Definition emAsk : EM Model := fun m w => (Ok m, m, w).
(** Code that only concerns the database. *)
Definition emLift {A} (c : App A) : EM A := fun m w => let '(r, w') := c w in (r, m, w').
End em.

Module Enforcer.
Section methods.
Context `{Bolt} `{Disk} `{Casbin} `{JSON (list bytes)}.

Definition GetRolesForUser (m : Model) (user domainStr : bytes) : outcome (list bytes) :=
  match cas_GetRolesForUser m user domainStr with
  | inl e => Err (EWrap "get roles for user: %w" [] e)
  | inr roles => Ok roles
  end.

Definition Enforce (m : Model) (subject domainStr object action : bytes) : outcome bool :=
  match cas_Enforce m subject domainStr object action with
  | inl e => Err (EWrap "enforce: %w" [] e)
  | inr ok => Ok ok
  end.

Definition GetPolicy (m : Model) : list (list bytes) := orNil (cas_GetPolicy m).
Definition GetGroupingPolicy (m : Model) : list (list bytes) := orNil (cas_GetGroupingPolicy m).

Definition gRuleNativeLen : nat := 3.
Definition domainIdx : nat := 2.

(** The first occurrence of every role, in the order of the rules. *)
Definition GetAllRoles (m : Model) (domainStr : bytes) : outcome (list bytes) :=
  match cas_GetGroupingPolicy m with
  | inl e => Err (EWrap "get grouping policy: %w" [] e)
  | inr grouping =>
      Ok (foldl (fun '(seen, roles) rule =>
            if (length rule <? gRuleNativeLen)%nat then (seen, roles)
            else if bool_decide (rule !! domainIdx = Some domainStr) || bytes_eqb domainStr DomainAll then
              let role := default [] (rule !! 1%nat) in
              if bool_decide (role ∈ seen) then (seen, roles) else ({[role]} ∪ seen, roles ++ [role])
            else (seen, roles)) ((∅ : gset bytes), []) grouping).2
  end.

Definition GetRulesForSubject (m : Model) (subject : bytes) : list (list bytes) :=
  foldl (fun result rule =>
    if (length rule =? gRuleNativeLen)%nat && bool_decide (rule !! 0%nat = Some subject)
    then result ++ [rule] else result) [] (GetGroupingPolicy m).

Definition GetImplicitPermissionsForUser (m : Model) (user : bytes) : outcome (list (list bytes)) :=
  match cas_GetImplicitPermissionsForUser m user with
  | inl e => Err (EWrap "get implicit permissions for user: %w" [] e)
  | inr rules => Ok rules
  end.

Definition GetMembersOfGroup (m : Model) (groupSubject : bytes) : list bytes :=
  foldl (fun members rule =>
    if (length rule =? gRuleNativeLen)%nat && bool_decide (rule !! 1%nat = Some groupSubject)
    then members ++ [default [] (rule !! 0%nat)] else members) [] (GetGroupingPolicy m).

(** [if _, err := ...; err != nil { return fmt.Errorf(fmt, err) }] on the model. *)
Definition cacheStep (fmt : string) (call : Model -> outcome unit * Model) (m : Model) : outcome unit * Model :=
  let '(r, m') := call m in (map_err (EWrap fmt []) r, m').

Definition applyOp (o : op) (m : Model) : outcome unit * Model :=
  match o with
  | opAddP args => cacheStep "cache add policy: %w" (cas_AddPolicy args) m
  | opRemoveP args => cacheStep "cache remove policy: %w" (cas_RemovePolicy args) m
  | opAddG args => cacheStep "cache add grouping policy: %w" (cas_AddGroupingPolicy args) m
  | opRemoveG args => cacheStep "cache remove grouping policy: %w" (cas_RemoveGroupingPolicy args) m
  | opDeleteUser user =>
      match cacheStep "cache delete user: %w" (cas_DeleteUser user) m with
      | (Ok _, m') => cacheStep "cache delete user (role): %w" (cas_RemoveFilteredGroupingPolicy 1 user) m'
      | r => r
      end
  end.

Fixpoint applyOpsToCache (ops : list op) (m : Model) : outcome unit * Model :=
  match ops with
  | [] => (Ok tt, m)
  | o :: ops => match applyOp o m with (Ok _, m') => applyOpsToCache ops m' | r => r end
  end.

Definition LoadPolicy : EM unit := fun m w =>
  let '(r, m', w') := cas_LoadPolicy (PolicyRepository.LoadPolicy cas_LoadPolicyArray) m w in
  (map_err (EWrap "load policy: %w" []) r, m', w').

(** NewEnforcer on an empty model; building the model from its text is the library's. *)
Definition NewEnforcer : App Model := fun w =>
  match cas_LoadPolicy (PolicyRepository.LoadPolicy cas_LoadPolicyArray) cas_new w with
  | (Ok _, m, w') => (Ok m, w')
  | (Err e, _, w') => (Err (EWrap "create casbin enforcer: %w" [] e), w')
  | (Crash c, _, w') => (Crash c, w')
  end.

Definition WriteTx {A} (ctx : Context_) (fn : Context_ -> TxE A) : EM A := fun m w =>
  match Manager_WithTx ctx (fun ctx => fn ctx []) w with
  | (Err e, w') => (Err (EWrap "write tx: %w" [] e), m, w')
  | (Crash c, w') => (Crash c, m, w')
  | (Ok (a, ops), w') =>
      match applyOpsToCache ops m with
      | (Ok _, m') => (Ok a, m', w')
      | (Crash c, m') => (Crash c, m', w')
      | (Err e, m') =>
          match LoadPolicy m' w' with
          | (Ok _, m'', w'') => (Err (EWrap "sync casbin cache (recovered via LoadPolicy): %w" [] e), m'', w'')
          | (Err _, m'', w'') => (Crash GoPanic, m'', w'')
          | (Crash c, m'', w'') => (Crash c, m'', w'')
          end
      end
  end.
End methods.
End Enforcer.
