(* ===== verification/PolicySync.v ===== *)
(** * The cache follows the disk

    A write transaction of the enforcer changes the stored rules and then replays
    the recorded operations on the cache.  [tracks]: what a callback did to the
    stored rules is what the operations it recorded say.  So the two agree after
    every transaction ([write_tx_sync]) except for one operation: deleting a subject
    drops its p-rules from the cache and leaves them on disk
    ([delete_user_forgets_rules]). *)

From S2P Require Import Prelude.
From S2P Require Import Bolt.
From S2P Require Import Domain.
From S2P Require Import Manager.
From S2P Require Import Frame.
From S2P Require Import Repository.
From S2P Require Import Rbac.
From S2P Require Import PolicyRepo.
From S2P Require Import Casbin.
From stdpp Require Import base list gmap strings.
From Stdlib Require Import Ascii ZArith Lia.
Open Scope Z_scope.

#[local] Set Warnings "-register-all".

(** ** Operations on rules *)

Lemma rules_ext (R R' : Rules) : ru_p R = ru_p R' -> ru_g R = ru_g R' -> R = R'.
Proof. destruct R, R'. cbn. by intros -> ->. Qed.

(** The operation on the stored rules. *)
Definition disk_step (R : Rules) (o : op) : Rules :=
  match o with
  | opAddP r => mkRules ({[r]} ∪ ru_p R) (ru_g R)
  | opRemoveP r => mkRules (ru_p R ∖ {[r]}) (ru_g R)
  | opAddG r => mkRules (ru_p R) ({[r]} ∪ ru_g R)
  | opRemoveG r => mkRules (ru_p R) (ru_g R ∖ {[r]})
  | opDeleteUser u => mkRules (ru_p R) (filter (not_at 1 u) (filter (not_at 0 u) (ru_g R)))
  end.

(** The operation on the rules of the cache. *)
Definition cache_step (R : Rules) (o : op) : Rules :=
  match o with
  | opDeleteUser u => mkRules (filter (not_at 0 u) (ru_p R)) (filter (not_at 1 u) (filter (not_at 0 u) (ru_g R)))
  | _ => disk_step R o
  end.

Definition op_wf (o : op) : Prop :=
  match o with
  | opAddP r | opRemoveP r => length r = 4%nat /\ rule_wf r
  | opAddG r | opRemoveG r => length r = 3%nat /\ rule_wf r
  | opDeleteUser u => u <> [] /\ utf8_valid u = true
  end.

Definition is_delete (o : op) : bool := match o with opDeleteUser _ => true | _ => false end.

(** The arity of the two sections. *)
Definition shaped (R : Rules) : Prop :=
  (forall r, r ∈ ru_p R -> length r = 4%nat) /\ (forall r, r ∈ ru_g R -> length r = 3%nat).

Lemma disk_step_shaped R o : shaped R -> op_wf o -> shaped (disk_step R o).
Proof.
  intros [Hp Hg]. destruct o; cbn; intros Ho; split; cbn; set_unfold; try naive_solver.
Qed.

Lemma cache_step_disk R o : is_delete o = false -> cache_step R o = disk_step R o.
Proof. by destruct o. Qed.

Lemma foldl_cache_disk ops R :
  Forall (fun o => is_delete o = false) ops -> foldl cache_step R ops = foldl disk_step R ops.
Proof. intros Ho. revert R. induction Ho as [|o ops Hd _ IH]; intros R; cbn; [done|]. by rewrite cache_step_disk. Qed.

(** ** The cache *)

Section cache.
Context `{CasbinSpec}.
Implicit Types (m : Model).

Lemma applyOp_rules o m :
  op_wf o -> exists m', Enforcer.applyOp o m = (Ok tt, m') /\ rules_of m' = cache_step (rules_of m) o.
Proof.
  assert (Hs : forall fmt call r, (exists m', call m = (Ok tt, m') /\ rules_of m' = r) ->
    exists m', Enforcer.cacheStep fmt call m = (Ok tt, m') /\ rules_of m' = r).
  { intros fmt call r (m' & E & Hr). exists m'. unfold Enforcer.cacheStep. by rewrite E. }
  destruct o as [r|r|r|r|u]; cbn [op_wf Enforcer.applyOp cache_step disk_step]; intros [Hl Hw].
  - by apply Hs, cas_AddPolicy_law.
  - by apply Hs, cas_RemovePolicy_law.
  - by apply Hs, cas_AddGroupingPolicy_law.
  - by apply Hs, cas_RemoveGroupingPolicy_law.
  - destruct (Hs "cache delete user: %w" _ _ (cas_DeleteUser_law u m Hl)) as (m1 & E1 & R1). rewrite E1.
    destruct (cas_RemoveFilteredGroupingPolicy_law 1 u m1 Hl) as (m2 & E2 & R2).
    exists m2. unfold Enforcer.cacheStep. rewrite E2. split; [done|]. by rewrite R2, R1.
Qed.

Lemma applyOps_rules ops m :
  Forall op_wf ops ->
  exists m', Enforcer.applyOpsToCache ops m = (Ok tt, m') /\ rules_of m' = foldl cache_step (rules_of m) ops.
Proof.
  intros Ho. revert m. induction Ho as [|o ops Hw _ IH]; intros m; cbn; [eauto|].
  destruct (applyOp_rules o m Hw) as (m1 & -> & <-). apply IH.
Qed.
End cache.

(** ** The stored rules *)

Section disk.
Context `{BoltSpec} `{!JSON (list bytes)} `{!JSONSpec (list bytes)}.
Implicit Types (v : View) (s : TS).

(** The rule a key of the policy bucket stands for. *)
Definition key_rule (sec : bytes) (bk : string * bytes) : option (list bytes) :=
  if decide (bk.1 = bucketPolicy) then
    match keyParts bk.2 with
    | Some (s :: p :: rule) => if decide (s = sec /\ p = sec) then Some rule else None
    | _ => None
    end
  else None.

Definition section_rules (v : View) (sec : bytes) : RuleSet :=
  list_to_set (omap (key_rule sec) (elements (dom v))).

Definition disk_rules (v : View) : Rules := mkRules (section_rules v secP) (section_rules v secG).

Lemma elem_section_rules v (sec : bytes) r :
  sec = secP \/ sec = secG -> policy_ok v ->
  r ∈ section_rules v sec <-> on_disk v sec r /\ rule_wf r /\ r <> [].
Proof.
  intros Hs Hok. unfold section_rules. rewrite elem_of_list_to_set, list_elem_of_omap. split.
  - intros ([b k] & Hin & Hr). rewrite elem_of_elements, elem_of_dom in Hin. unfold key_rule in Hr. cbn in Hr.
    case_decide as E; [|done]. subst b. destruct (Hok k Hin) as (sec' & rule & Hs' & Hne & Hw & Hk).
    rewrite (keyParts_rule sec' rule k) in Hr by done. case_decide as Ed; [|done]. destruct Ed as [-> _].
    injection Hr as ->. split; [by exists k|done].
  - intros ((k & Hk & Hin) & Hw & Hne). exists (bucketPolicy, k).
    rewrite elem_of_elements, elem_of_dom. split; [done|]. unfold key_rule. cbn.
    rewrite decide_True by done. rewrite (keyParts_rule sec r k) by done. by rewrite decide_True.
Qed.

(** The stored rules only depend on the policy bucket. *)
Lemma section_rules_ext v v' (sec : bytes) :
  (forall k, v' !! (bucketPolicy, k) = v !! (bucketPolicy, k)) -> section_rules v' sec = section_rules v sec.
Proof.
  intros Hv. apply set_eq. intros r. unfold section_rules. rewrite !elem_of_list_to_set, !list_elem_of_omap.
  assert (Hk : forall bk, key_rule sec bk = Some r ->
    bk ∈ elements (dom v') <-> bk ∈ elements (dom v)).
  { intros [b k]. unfold key_rule. cbn. case_decide as E; [|done]. subst b. intros _.
    rewrite !elem_of_elements, !elem_of_dom, Hv. reflexivity. }
  split; intros (bk & Hin & Hr); exists bk; (split; [by apply (Hk bk Hr)|done]).
Qed.

Lemma disk_rules_ext v v' :
  (forall k, v' !! (bucketPolicy, k) = v !! (bucketPolicy, k)) ->
  disk_rules v' = disk_rules v /\ (policy_ok v -> policy_ok v').
Proof.
  intros Hv. split; [by apply rules_ext; apply section_rules_ext|].
  intros Hok k. rewrite Hv. apply Hok.
Qed.

(** The rules of a section, by their membership. *)
Lemma section_rules_step v' (sec : bytes) (X : RuleSet) :
  sec = secP \/ sec = secG -> policy_ok v' ->
  (forall r, r ∈ X -> rule_wf r /\ r <> []) ->
  (forall r, rule_wf r -> r <> [] -> on_disk v' sec r <-> r ∈ X) -> section_rules v' sec = X.
Proof.
  intros Hs Hok Hw Hx. apply set_eq. intros r. rewrite elem_section_rules by done. split.
  - intros (Hd & Hr & Hne). by apply Hx.
  - intros Hr. destruct (Hw r Hr). split; [by apply Hx|done].
Qed.

(** The rules of one program of the repository. *)
Definition does (code : TxM unit) (o : op) : Prop := forall s u s',
  policy_ok (view (ts_db s)) -> code (QTx true) s = (Ok u, s') ->
  policy_ok (view (ts_db s')) /\ disk_rules (view (ts_db s')) = disk_step (disk_rules (view (ts_db s))) o.

Lemma secP_ne_secG : secP <> secG.
Proof. done. Qed.

Ltac in_section :=
  rewrite ?elem_of_union, ?elem_of_difference, ?elem_of_singleton, ?elem_section_rules by tauto.

Ltac solve_section Hd :=
  apply section_rules_step; [tauto|done|intros r; in_section; naive_solver|];
  intros r Hr Hn; rewrite Hd by tauto;
  in_section; naive_solver.

Lemma add_does sec rule :
  sec = secP \/ sec = secG -> rule_wf rule -> rule <> [] ->
  does (AddPolicyTx sec sec rule) (if decide (sec = secP) then opAddP rule else opAddG rule).
Proof.
  intros Hs Hw Hne s u s' Hok E. apply AddPolicyTx_Ok in E as (Hok' & Hd); [|done..].
  specialize (Hok' Hok). split; [done|]. pose proof secP_ne_secG.
  destruct Hs as [-> | ->]; [rewrite decide_True by done|rewrite decide_False by done];
    apply rules_ext; cbn [ru_p ru_g disk_step disk_rules]; solve_section Hd.
Qed.

Lemma add_p_does rule : rule_wf rule -> rule <> [] -> does (AddPolicyTx secP secP rule) (opAddP rule).
Proof. apply (add_does secP). by left. Qed.

Lemma add_g_does rule : rule_wf rule -> rule <> [] -> does (AddPolicyTx secG secG rule) (opAddG rule).
Proof. apply (add_does secG). by right. Qed.

Lemma remove_does sec rule :
  sec = secP \/ sec = secG -> rule_wf rule ->
  does (RemovePolicyTx sec sec rule) (if decide (sec = secP) then opRemoveP rule else opRemoveG rule).
Proof.
  intros Hs Hw s u s' Hok E. apply RemovePolicyTx_Ok in E as (Hok' & Hd); [|done..].
  specialize (Hok' Hok). split; [done|]. pose proof secP_ne_secG.
  destruct Hs as [-> | ->]; [rewrite decide_True by done|rewrite decide_False by done];
    apply rules_ext; cbn [ru_p ru_g disk_step disk_rules]; solve_section Hd.
Qed.

(** Removing the g-rules with [u] in one column. *)
Lemma remove_filtered_rules i u s x s' :
  u <> [] -> policy_ok (view (ts_db s)) ->
  RemoveFilteredPolicyTx secG secG i [u] (QTx true) s = (Ok x, s') ->
  policy_ok (view (ts_db s')) /\
  disk_rules (view (ts_db s')) =
    mkRules (ru_p (disk_rules (view (ts_db s)))) (filter (not_at i u) (ru_g (disk_rules (view (ts_db s))))).
Proof.
  intros Hu Hok E. apply RemoveFilteredPolicyTx_Ok in E as (Hok' & Hd); [|done]. split; [done|].
  pose proof secP_ne_secG. setoid_rewrite matchesFilter_one in Hd; [|done].
  apply rules_ext; cbn [ru_p ru_g disk_rules]; apply section_rules_step; try tauto; unfold not_at.
  - intros r. rewrite elem_section_rules by tauto. tauto.
  - intros r Hr Hn. rewrite Hd by tauto. rewrite elem_section_rules by tauto. naive_solver.
  - intros r. rewrite elem_of_filter, elem_section_rules by tauto. tauto.
  - intros r Hr Hn. rewrite Hd by tauto. rewrite elem_of_filter, elem_section_rules by tauto. naive_solver.
Qed.
End disk.

(** ** Callbacks *)

Section tracked.
Context `{BoltSpec} `{Disk} `{!JSON (list bytes)} `{!JSONSpec (list bytes)}.

(** A call inside the transaction [h] that leaves the stored rules alone. *)
Definition keeps {A} (h : nat) (c : App A) : Prop :=
  confined true h c /\
  forall w db r w', w_txs w !! h = Some (mkTx _ true TxOpen db) -> c w = (r, w') ->
    exists db', w_txs w' !! h = Some (mkTx _ true TxOpen db') /\
      forall k, view db' !! (bucketPolicy, k) = view db !! (bucketPolicy, k).

(** A callback whose recorded operations say what it did to the stored rules.  [Q]
    is what its result and the new operations satisfy, given the database it started
    with. *)
Definition tracked {A} (h : nat) (t : TxE A) (Q : View -> A -> list op -> Prop) : Prop :=
  forall ops w db a ops' w',
    w_txs w !! h = Some (mkTx _ true TxOpen db) -> policy_ok (view db) -> t ops w = (Ok (a, ops'), w') ->
    exists db' new, w_txs w' !! h = Some (mkTx _ true TxOpen db') /\ ops' = ops ++ new /\ Forall op_wf new /\
      policy_ok (view db') /\ disk_rules (view db') = foldl disk_step (disk_rules (view db)) new /\
      Q (view db) a new.

(** It stays inside its transaction. *)
Definition confinedT {A} (h : nat) (t : TxE A) : Prop := forall ops, confined true h (t ops).

Implicit Types (v : View) (h : nat) (o : op) (ctx : Context_) (fmt : string).

Lemma tracked_ret {A} h (a : A) (Q : View -> A -> list op -> Prop) : (forall v, Q v a []) -> tracked h (mret a) Q.
Proof.
  intros HQ ops w db x ops' w' Hh Hok [= <- <- <-]. exists db, []. rewrite app_nil_r. auto 8.
Qed.

Lemma tracked_fail {A} h e Q : tracked (A:=A) h (failTx e) Q.
Proof. done. Qed.

Lemma tracked_crash {A} h c Q : tracked (A:=A) h (crashTx c) Q.
Proof. done. Qed.

Lemma tracked_mono {A} h (t : TxE A) (Q Q' : View -> A -> list op -> Prop) :
  tracked h t Q -> (forall v a n, Q v a n -> Q' v a n) -> tracked h t Q'.
Proof.
  intros Ht HQ ops w db a ops' w' Hh Hok E.
  destruct (Ht _ _ _ _ _ _ Hh Hok E) as (db' & n & ? & ? & ? & ? & ? & ?). exists db', n. auto 8.
Qed.

Lemma tracked_bind {A B} h (t : TxE A) (f : A -> TxE B) (Q1 : View -> A -> list op -> Prop) (Q : View -> B -> list op -> Prop) :
  tracked h t Q1 ->
  (forall v a n1, Q1 v a n1 ->
     tracked h (f a) (fun v' b n2 => disk_rules v' = foldl disk_step (disk_rules v) n1 -> Q v b (n1 ++ n2))) ->
  tracked h (t ≫= f) Q.
Proof.
  intros Ht Hf ops w db b ops' w' Hh Hok E. apply appbind_Ok in E as ([a ops1] & w1 & E1 & E2).
  destruct (Ht _ _ _ _ _ _ Hh Hok E1) as (db1 & n1 & Hh1 & -> & Hw1 & Hok1 & R1 & HQ1).
  destruct (Hf _ _ _ HQ1 _ _ _ _ _ _ Hh1 Hok1 E2) as (db2 & n2 & Hh2 & -> & Hw2 & Hok2 & R2 & HQ2).
  exists db2, (n1 ++ n2). rewrite foldl_app, <-R1.
  split_and!; try done; [by rewrite app_assoc|by apply Forall_app|by apply HQ2].
Qed.

Lemma tracked_wrap {A} h fmt args (t : TxE A) Q : tracked h t Q -> tracked h (wrapTx fmt args t) Q.
Proof. intros Ht ops w db a ops' w' Hh Hok E%wrapA_Ok. by eapply Ht. Qed.

(** What [c] returns in the transaction [h]. *)
Definition returns_in {A} (h : nat) (c : App A) (P : View -> A -> Prop) : Prop := forall w db a w',
  w_txs w !! h = Some (mkTx _ true TxOpen db) -> c w = (Ok a, w') -> P (view db) a.

Lemma returns_in_any {A} h (c : App A) (P : A -> Prop) : returns c P -> returns_in h c (fun _ => P).
Proof. intros Hr w db a w' _ E. by eapply Hr. Qed.

Lemma tracked_lift {A} h (c : App A) (P : View -> A -> Prop) (Q : View -> A -> list op -> Prop) :
  keeps h c -> returns_in h c P -> (forall v a, P v a -> Q v a []) -> tracked h (liftTx c) Q.
Proof.
  intros [Cc Hc] Hr HQ ops w db a ops' w' Hh Hok E. apply appbind_Ok in E as (x & w1 & E1 & [= <- <- <-]).
  pose proof (Hr _ _ _ _ Hh E1) as HP. destruct (Hc _ _ _ _ Hh E1) as (db' & Hh' & Hk). exists db', [].
  destruct (disk_rules_ext _ _ Hk) as [Hd Hp]. rewrite app_nil_r. auto 8.
Qed.

Lemma confinedT_ret {A} h (a : A) : confinedT h (mret a).
Proof. intros ops. apply confined_ret. Qed.

Lemma confinedT_fail {A} h e : confinedT (A:=A) h (failTx e).
Proof. intros ops. apply confined_fail. Qed.

Lemma confinedT_crash {A} h c : confinedT (A:=A) h (crashTx c).
Proof. intros ops w Hw. by apply tx_local_refl. Qed.

Lemma confinedT_bind {A B} h (t : TxE A) (f : A -> TxE B) :
  confinedT h t -> (forall a, confinedT h (f a)) -> confinedT h (t ≫= f).
Proof. intros Ct Hf ops. apply confined_bind; [apply Ct|]. intros [a ops1]. apply Hf. Qed.

Lemma confinedT_wrap {A} h fmt args (t : TxE A) : confinedT h t -> confinedT h (wrapTx fmt args t).
Proof. intros Ct ops. by apply confined_wrap. Qed.

Lemma confinedT_lift {A} h (c : App A) : confined true h c -> confinedT h (liftTx c).
Proof. intros Cc ops. apply confined_bind; [done|]. intros a. apply confined_ret. Qed.

Lemma confinedT_record h o : confinedT h (record o).
Proof. intros ops. apply confined_ret. Qed.

(** *** Calls that keep the rules *)

Lemma keeps_mapErr {A} h f (c : App A) : keeps h c -> keeps h (mapErrA f c).
Proof.
  intros [Cc Hc]. split; [by apply confined_mapErr|]. intros w db a w' Hh E. unfold mapErrA in E.
  destruct (c w) eqn:Ec. injection E as _ <-. by eapply Hc.
Qed.

Lemma keeps_wrap {A} h fmt args (c : App A) : keeps h c -> keeps h (wrapA fmt args c).
Proof. apply keeps_mapErr. Qed.

Lemma keeps_attempt {A} h (c : App A) : keeps h c -> keeps h (attemptA c).
Proof.
  intros [Cc Hc]. split; [by apply confined_attempt|]. intros w db a w' Hh E. unfold attemptA in E.
  destruct (c w) as [[] w1] eqn:Ec; injection E as _ <-; by eapply Hc.
Qed.

Lemma keeps_liftO {A} h (r : outcome A) : keeps h (liftO r).
Proof.
  split; [|intros w db a w' Hh [= _ <-]; eauto]. destruct r; [apply confined_ret|apply confined_fail|].
  intros w Hw. by apply tx_local_refl.
Qed.

Lemma keeps_ret {A} h (a : A) : keeps h (mret a).
Proof. apply (keeps_liftO h (Ok a)). Qed.

Lemma keeps_fail {A} h e : keeps (A:=A) h (appfail e).
Proof. apply (keeps_liftO h (Err e)). Qed.

Lemma keeps_Now `{Clock} h : keeps h NowA.
Proof. split; [apply confined_Now|]. intros w db a w' Hh [= _ <-]. eauto. Qed.

Lemma keeps_bind {A B} h (c : App A) (f : A -> App B) :
  keeps h c -> (forall a, keeps h (f a)) -> keeps h (c ≫= f).
Proof.
  intros [Cc Hc] Hf. split; [apply confined_bind; [done|apply Hf]|].
  intros w db r w' Hh. unfold mbind, App_bind. destruct (c w) as [[a|e|x] w1] eqn:E1;
    apply (Hc _ _ _ _ Hh) in E1 as (db1 & Hh1 & K1); [|intros [= _ <-]; eauto..].
  intros E2. destruct (proj2 (Hf a) _ _ _ _ Hh1 E2) as (db2 & Hh2 & K2).
  exists db2. split; [done|]. intros k. by rewrite K2.
Qed.

Lemma GetQuerier_state {A} h ctx (code : TxM A) w db r w' :
  ctx_tx ctx = Some h -> w_txs w !! h = Some (mkTx _ true TxOpen db) ->
  GetQuerier ctx code w = (r, w') ->
  exists s', code (QTx true) (mkTS db (w_tick w)) = (r, s') /\
    w_txs w' !! h = Some (mkTx _ true TxOpen (ts_db s')).
Proof.
  intros Hc Hh. rewrite (GetQuerier_in true h ctx code w db) by done.
  destruct (code _ _) as [r' s] eqn:E. intros [= -> <-]. exists s. split; [done|]. cbn.
  apply list_lookup_insert_eq. by apply lookup_lt_Some in Hh.
Qed.

(** A program of another bucket. *)
Lemma keeps_GetQuerier {A} h ctx n (code : TxM A) :
  ctx_tx ctx = Some h -> n <> bucketPolicy -> stays n code -> keeps h (GetQuerier ctx code).
Proof.
  intros Hc Hn Hk. split; [by apply confined_GetQuerier|]. intros w db a w' Hh E.
  apply (GetQuerier_state h ctx code w db) in E as (s' & E & Hh'); [|done..]. exists (ts_db s').
  split; [done|]. intros k. by apply (Hk _ _ _ _ E).
Qed.

(** *** The operations of the TxEnforcer *)

Lemma tracked_does h ctx fmt (code : TxM unit) o (Q : View -> unit -> list op -> Prop) :
  ctx_tx ctx = Some h -> does code o -> op_wf o -> (forall v, Q v tt [o]) ->
  tracked h (_ ← liftTx (wrapA fmt [] (GetQuerier ctx code)); record o) Q.
Proof.
  intros Hc Hd Hw HQ ops w db [] ops' w' Hh Hok E.
  apply appbind_Ok in E as ([[] ops1] & w1 & E1 & [= <- <-]).
  apply appbind_Ok in E1 as ([] & w2 & E1%wrapA_Ok & [= <- <-]).
  apply (GetQuerier_state h ctx code w db) in E1 as (s' & E & Hh'); [|done..].
  destruct (Hd (mkTS db (w_tick w)) tt s' Hok E) as [Hok' Hr]. exists (ts_db s'), [o].
  rewrite Forall_singleton. auto 8.
Qed.

Section ops.
Context (h : nat) (ctx : Context_) (Hc : ctx_tx ctx = Some h).
Implicit Types (Q : View -> unit -> list op -> Prop).

Lemma tracked_AddPolicy a b c d Q :
  op_wf (opAddP [a; b; c; d]) -> (forall v, Q v tt [opAddP [a; b; c; d]]) ->
  tracked h (TxEnforcer.AddPolicy ctx a b c d) Q.
Proof. intros [Hl Hw] HQ. by apply tracked_does; [|apply (add_does secP)| |]; try by left. Qed.

Lemma tracked_RemovePolicy a b c d Q :
  op_wf (opRemoveP [a; b; c; d]) -> (forall v, Q v tt [opRemoveP [a; b; c; d]]) ->
  tracked h (TxEnforcer.RemovePolicy ctx a b c d) Q.
Proof. intros [Hl Hw] HQ. by apply tracked_does; [|apply (remove_does secP)| |]; try by left. Qed.

Lemma tracked_AddRoleForUser a b c Q :
  op_wf (opAddG [a; b; c]) -> (forall v, Q v tt [opAddG [a; b; c]]) ->
  tracked h (TxEnforcer.AddRoleForUser ctx a b c) Q.
Proof. intros [Hl Hw] HQ. by apply tracked_does; [|apply (add_does secG)| |]; try by right. Qed.

Lemma tracked_RemoveRoleForUser a b c Q :
  op_wf (opRemoveG [a; b; c]) -> (forall v, Q v tt [opRemoveG [a; b; c]]) ->
  tracked h (TxEnforcer.RemoveRoleForUser ctx a b c) Q.
Proof. intros [Hl Hw] HQ. by apply tracked_does; [|apply (remove_does secG)| |]; try by right. Qed.

Lemma tracked_DeleteUser u Q :
  op_wf (opDeleteUser u) -> (forall v, Q v tt [opDeleteUser u]) -> tracked h (TxEnforcer.DeleteUser ctx u) Q.
Proof.
  intros Hw HQ ops w db [] ops' w' Hh Hok E. pose proof Hw as [Hu _]. unfold TxEnforcer.DeleteUser in E.
  apply appbind_Ok in E as ([[] o1] & w1 & E1 & E). apply appbind_Ok in E as ([[] o2] & w2 & E2 & [= <- <-]).
  apply appbind_Ok in E1 as ([] & w3 & E1%wrapA_Ok & [= <- <-]).
  apply appbind_Ok in E2 as ([] & w4 & E2%wrapA_Ok & [= <- <-]).
  apply (GetQuerier_state h ctx _ w db) in E1 as (s1 & E1 & Hh1); [|done..].
  apply remove_filtered_rules in E1 as [Hok1 R1]; [|done..]. cbn [fst] in E2.
  apply (GetQuerier_state h ctx _ w3 (ts_db s1)) in E2 as (s2 & E2 & Hh2); [|done..].
  apply remove_filtered_rules in E2 as [Hok2 R2]; [|done..]. cbn [ts_db] in *.
  exists (ts_db s2), [opDeleteUser u]. rewrite Forall_singleton. split_and!; try done.
  by rewrite R2, R1.
Qed.

(** The rules of a subject, as the transaction sees them. *)
Lemma tracked_GetPermissions (subject : bytes) (P : View -> list (list bytes) -> list op -> Prop) :
  (forall v rules, (forall r, r ∈ rules <-> r ∈ ru_p (disk_rules v) /\ r !! 0%nat = Some subject) -> P v rules []) ->
  tracked h (TxEnforcer.GetPermissionsForSubject ctx subject) P.
Proof.
  intros HQ ops w db rules ops' w' Hh Hok E. unfold TxEnforcer.GetPermissionsForSubject in E.
  apply appbind_Ok in E as (x & w1 & E1%wrapA_Ok & [= <- <- <-]).
  apply (GetQuerier_state h ctx _ w db) in E1 as (s1 & E1 & Hh1); [|done..].
  apply ListPermissionsForSubjectTx_Ok in E1 as [-> Hr]; [|done]. cbn [ts_db] in *.
  exists db, []. rewrite app_nil_r. split_and!; try done. apply HQ. intros r. rewrite Hr. cbn [ru_p disk_rules].
  rewrite elem_section_rules by auto. split; [|naive_solver]. intros (? & ? & Hl). by destruct r.
Qed.

Lemma confinedT_does fmt (code : TxM unit) o : confinedT h (_ ← liftTx (wrapA fmt [] (GetQuerier ctx code)); record o).
Proof.
  apply confinedT_bind; [|intros []; apply confinedT_record].
  by apply confinedT_lift, confined_wrap, confined_GetQuerier.
Qed.

Lemma confinedT_AddPolicy a b c d : confinedT h (TxEnforcer.AddPolicy ctx a b c d).
Proof. apply confinedT_does. Qed.

Lemma confinedT_RemovePolicy a b c d : confinedT h (TxEnforcer.RemovePolicy ctx a b c d).
Proof. apply confinedT_does. Qed.

Lemma confinedT_AddRoleForUser a b c : confinedT h (TxEnforcer.AddRoleForUser ctx a b c).
Proof. apply confinedT_does. Qed.

Lemma confinedT_RemoveRoleForUser a b c : confinedT h (TxEnforcer.RemoveRoleForUser ctx a b c).
Proof. apply confinedT_does. Qed.

Lemma confinedT_DeleteUser u : confinedT h (TxEnforcer.DeleteUser ctx u).
Proof.
  apply confinedT_bind; [|intros []; apply confinedT_does].
  by apply confinedT_lift, confined_wrap, confined_GetQuerier.
Qed.

Lemma confinedT_GetPermissions subject : confinedT h (TxEnforcer.GetPermissionsForSubject ctx subject).
Proof. by apply confinedT_lift, confined_wrap, confined_GetQuerier. Qed.
End ops.
End tracked.

Create HintDb tracked.
#[export] Hint Resolve confinedT_ret confinedT_fail confinedT_crash confinedT_wrap confinedT_lift confinedT_record
  confinedT_AddPolicy confinedT_RemovePolicy confinedT_AddRoleForUser confinedT_RemoveRoleForUser
  confinedT_DeleteUser confinedT_GetPermissions
  keeps_wrap keeps_mapErr keeps_attempt keeps_ret keeps_fail keeps_liftO keeps_Now : tracked.

(** ** Transactions and reloads *)

Section transactions.
Context `{BoltSpec} `{Disk} `{!JSON (list bytes)} `{!JSONSpec (list bytes)} `{CasbinSpec}.
Implicit Types (v : View) (ctx : Context_) (m : Model) (w : World).

(** The cache holds the stored rules. *)
Definition synced (v : View) (m : Model) : Prop := rules_of m = disk_rules v.

(** What a write transaction comes to: it committed and both sides took the recorded
    operations, or nothing changed. *)
Lemma WriteTx_outcome {A} ctx (fn : Context_ -> TxE A) (Q : View -> A -> list op -> Prop) m w r m' w' :
  let h := length (w_txs w) in
  ctx_tx ctx = None -> policy_ok (view (w_db w)) ->
  confinedT h (fn (with_tx_handle h ctx)) -> tracked h (fn (with_tx_handle h ctx)) Q ->
  Enforcer.WriteTx ctx fn m w = (r, m', w') ->
  (exists a ops, r = Ok a /\ Q (view (w_db w)) a ops /\ Forall op_wf ops /\ rules_of m' = foldl cache_step (rules_of m) ops /\
     policy_ok (view (w_db w')) /\
     disk_rules (view (w_db w')) = foldl disk_step (disk_rules (view (w_db w))) ops) \/
  (~ is_Ok r /\ m' = m /\ w_db w' = w_db w).
Proof.
  intros h Hc Hok Cf Ht. unfold Enforcer.WriteTx, Manager_WithTx, wrapA.
  destruct (decide (idle w)) as [Hi|Hi]; cycle 1.
  { destruct (WithTx_busy ctx (fun ctx => fn ctx []) w Hc Hi) as (r1 & -> & Hr1).
    destruct r1 as [[a ops]|e|c]; [destruct Hr1; by eexists|..]; intros [= <- <- <-]; right; (split; [by intros [? ?]|done]). }
  rewrite (WithTx_begins ctx (fun ctx => fn ctx []) w Hc Hi).
  destruct (runTx ctx (length (w_txs w)) (fun ctx => fn ctx []) (begun true w)) as [r0 w1] eqn:Er.
  pose proof (runTx_confined true ctx (fun ctx => fn ctx []) w r0 w1 (Cf []) Er) as
    (_ & st & db & Htx & Hin & _ & Hcom & Hrb & Hiff). fold h in Hin.
  destruct r0 as [[a ops]|e|c]; cbn [map_err].
  - apply runTx_Ok in Er as Ef. apply run_eq in Ef. fold h in Ef.
    assert (Hst : st = TxCommitted) by (apply Hiff; split; [done|by eexists]).
    destruct (Ht [] (begun true w) (w_db w) a ops _ (lookup_app_last _ _) Hok Ef)
      as (db' & new & Hh' & -> & Hw & Hok' & Hr & HQ). cbn [app] in *.
    rewrite Hh' in Hin. injection Hin as ->. rewrite <-(Hcom Hst) in *.
    destruct (applyOps_rules new m Hw) as (m1 & Em & Rm). rewrite Em. intros [= <- <- <-].
    left. exists a, new. eauto 8.
  - intros [= <- <- <-]. right. split; [by intros [? ?]|]. split; [done|]. apply Hrb. intros ->.
    destruct (proj1 Hiff eq_refl) as [_ [? ?]]. done.
  - intros [= <- <- <-]. right. split; [by intros [? ?]|]. split; [done|]. apply Hrb. intros ->.
    destruct (proj1 Hiff eq_refl) as [_ [? ?]]. done.
Qed.

(** *** Loading *)

Definition load_rule (k : bytes) (m : Model) : Model :=
  match keyParts k with
  | Some (_ :: rule) => match cas_LoadPolicyArray rule m with inl _ => m | inr m' => m' end
  | _ => m
  end.

Lemma load_rules v keys m :
  policy_ok v -> shaped (disk_rules v) -> (forall k, k ∈ keys -> is_Some (v !! (bucketPolicy, k))) ->
  let R := rules_of (foldl (fun m k => load_rule k m) m keys) in
  (forall r, r ∈ ru_p R <-> r ∈ ru_p (rules_of m) \/ exists k, k ∈ keys /\ keyParts k = Some (secP :: secP :: r)) /\
  (forall r, r ∈ ru_g R <-> r ∈ ru_g (rules_of m) \/ exists k, k ∈ keys /\ keyParts k = Some (secG :: secG :: r)).
Proof.
  intros Hok [Sp Sg] Hkeys. revert m. induction keys as [|k keys IH]; intros m; cbn [foldl]; [set_solver|].
  destruct (Hok k) as (sec & rule & Hs & Hne & Hw & Hk); [apply Hkeys; set_solver|].
  pose proof (keyParts_rule sec rule k Hs Hw Hne Hk) as Hp.
  assert (Hd : on_disk v sec rule) by (exists k; split; [done|apply Hkeys; set_solver]).
  destruct (IH (fun k' Hk' => Hkeys k' (list_elem_of_further _ _ _ Hk')) (load_rule k m)) as [Ip Ig].
  cbv zeta. setoid_rewrite Ip. setoid_rewrite Ig.
  assert (Hl : rules_of (load_rule k m) =
    if decide (sec = secP) then mkRules ({[rule]} ∪ ru_p (rules_of m)) (ru_g (rules_of m))
    else mkRules (ru_p (rules_of m)) ({[rule]} ∪ ru_g (rules_of m))).
  { unfold load_rule. rewrite Hp. destruct Hs as [-> | ->].
    - rewrite decide_True by done. destruct (cas_LoadPolicyArray_p rule m) as (m' & -> & ->); [|done].
      apply Sp. cbn. apply elem_section_rules; auto.
    - rewrite decide_False by done. destruct (cas_LoadPolicyArray_g rule m) as (m' & -> & ->); [|done].
      apply Sg. cbn. apply elem_section_rules; auto. }
  rewrite Hl. pose proof secP_ne_secG.
  assert (Hone : forall s r, keyParts k = Some (s :: s :: r) <-> s = sec /\ r = rule)
    by (intros s r; rewrite Hp; naive_solver).
  setoid_rewrite elem_of_cons.
  destruct Hs as [-> | ->]; [rewrite decide_True by done|rewrite decide_False by done]; cbn [ru_p ru_g];
    split; intros r; rewrite ?elem_of_union, ?elem_of_singleton; naive_solver.
Qed.

Lemma adapter_rules m w r w' :
  policy_ok (view (w_db w)) -> shaped (disk_rules (view (w_db w))) ->
  rules_of m = mkRules ∅ ∅ ->
  PolicyRepository.LoadPolicy cas_LoadPolicyArray m w = (r, w') ->
  w' = w /\ forall m', r = Ok m' -> rules_of m' = disk_rules (view (w_db w)).
Proof.
  intros Hok Hs Hm. unfold PolicyRepository.LoadPolicy, PolicyRepository.LoadPolicyCtx, GetQuerier. cbn [TxFromContext].
  change (TxFromContext ctx_background) with (@None nat). cbv iota.
  destruct (LoadPolicyTx _ _ _ _) as [r0 s] eqn:E. intros [= <- <-].
  assert (Hst : s = mkTS (w_db w) (w_tick w)).
  { unfold LoadPolicyTx, wrapE, bucket_ForEach, lookup_bucket in E. cbn [ts_db] in E.
    destruct (w_db w !! bucketPolicy); [|by injection E as _ <-].
    unfold wrapE in E. rewrite (forM_pure (fun a (kv : bytes * bytes) => load_rule kv.1 a)) in E by done.
    by injection E as _ <-. }
  subst s. split; [by destruct w|]. intros m' ->.
  apply wrapE_Ok, (ForEach_pure bucketPolicy (fun m k => load_rule k m)) in E as [_ ->]. cbn [ts_db].
  destruct (load_rules (view (w_db w)) (db_pairs (w_db w) bucketPolicy).*1 m Hok Hs) as [Hp Hg].
  { intros k. by rewrite policy_keys. }
  apply rules_ext; apply set_eq; intros x; cbn [disk_rules ru_p ru_g].
  - rewrite Hp, Hm. cbn. rewrite elem_of_empty. rewrite elem_section_rules by auto. split.
    + intros [[]|(k & Hk%policy_keys & Hx)]. destruct (Hok k Hk) as (sec & rule & Hs' & Hne & Hw & Hm').
      rewrite (keyParts_rule sec rule k) in Hx by done. simplify_eq. split; [by exists k|done].
    + intros ((k & Hm' & Hk) & Hw & Hne). right. exists k. rewrite policy_keys. split; [done|].
      apply keyParts_rule; auto.
  - rewrite Hg, Hm. cbn. rewrite elem_of_empty. rewrite elem_section_rules by auto. split.
    + intros [[]|(k & Hk%policy_keys & Hx)]. destruct (Hok k Hk) as (sec & rule & Hs' & Hne & Hw & Hm').
      rewrite (keyParts_rule sec rule k) in Hx by done. simplify_eq. split; [by exists k|done].
    + intros ((k & Hm' & Hk) & Hw & Hne). right. exists k. rewrite policy_keys. split; [done|].
      apply keyParts_rule; auto.
Qed.

(** A load that succeeds leaves exactly the stored rules. *)
Lemma load_syncs m w u m' w' :
  policy_ok (view (w_db w)) -> shaped (disk_rules (view (w_db w))) ->
  Enforcer.LoadPolicy m w = (Ok u, m', w') -> w' = w /\ synced (view (w_db w)) m'.
Proof.
  intros Hok Hs. unfold Enforcer.LoadPolicy.
  destruct (cas_LoadPolicy_law World (PolicyRepository.LoadPolicy cas_LoadPolicyArray) m w) as (m0 & Hm0 & Hl).
  destruct (PolicyRepository.LoadPolicy cas_LoadPolicyArray m0 w) as [r w1] eqn:E.
  apply adapter_rules in E as [-> Hr]; [|done..]. destruct r as [m1|e|c].
  - destruct Hl as (m2 & -> & Hm2). intros [= _ <- <-]. split; [done|]. unfold synced. by rewrite Hm2, (Hr m1).
  - destruct Hl as (e' & ->). done.
  - by rewrite Hl.
Qed.
End transactions.
