(* ===== verification/GroupRepo.v ===== *)
(** * Groups: entity and storage

    internal/domain/group.go, internal/storage/internal/group.go and
    internal/storage/bbolt/group/repository.go.  Members and permissions of a group
    are rules of the policy, not part of this record. *)

From S2P Require Import Prelude.
From S2P Require Import Bolt.
From S2P Require Import Domain.
From S2P Require Import Manager.
From S2P Require Import ConfigRepo.
From S2P Require Import Util.
From S2P Require Import Frame.
From stdpp Require Import base list gmap strings.
From Stdlib Require Import Ascii ZArith Lia.
Open Scope Z_scope.

(** ** The entity *)

Record Group := mkGroup {
  gr_Name : bytes;
  gr_DisplayName : bytes;
  gr_Description : bytes;
  gr_System : bool;
  gr_MetadataVersion : Z;
  gr_MembersVersion : Z;
  gr_PermissionsVersion : Z;
  gr_CreatedAt : Z;
  gr_UpdatedAt : Z;
}.

Record GroupFilter := mkGroupFilter { gf_Names : gset bytes; gf_Wildcard : bool; gf_Search : bytes }.
Record GroupListParams := mkGroupListParams { glp_Limit : Z; glp_Offset : Z; glp_Sort : SortParams }.

Definition maxDescriptionLen : nat := 1024.

Definition ErrSystemImmutable : error := ESentinel (OtherErr "system entity is immutable").
Definition ErrPermissionEscalation : error := ESentinel (OtherErr "permission escalation").
Definition ErrForbidden : error := ESentinel (OtherErr "forbidden").

Definition EnsureMutable (g : Group) : outcome unit := if gr_System g then Err ErrSystemImmutable else Ok tt.

Definition Group_Validate (g : Group) : outcome unit :=
  match ValidateCanonicalName (str "name") (gr_Name g) with
  | Ok _ =>
      if (maxDisplayNameLen <? length (gr_DisplayName g))%nat then
        Err (NewValidationError (str "displayName") (str "display name must be at most 128 characters"))
      else if (maxDescriptionLen <? length (gr_Description g))%nat then
        Err (NewValidationError (str "description") (str "group description must be at most 1024 characters"))
      else Ok tt
  | r => r
  end.

(** The stored record has the same fields. *)
Record GroupMeta := mkGroupMeta {
  gm_Name : bytes;
  gm_DisplayName : bytes;
  gm_Description : bytes;
  gm_System : bool;
  gm_MetadataVersion : Z;
  gm_MembersVersion : Z;
  gm_PermissionsVersion : Z;
  gm_CreatedAt : Z;
  gm_UpdatedAt : Z;
}.

Definition DomainToGroupMeta (g : Group) : GroupMeta :=
  mkGroupMeta (gr_Name g) (gr_DisplayName g) (gr_Description g) (gr_System g) (gr_MetadataVersion g)
    (gr_MembersVersion g) (gr_PermissionsVersion g) (gr_CreatedAt g) (gr_UpdatedAt g).

Definition GroupMetaToDomain (m : GroupMeta) : Group :=
  mkGroup (gm_Name m) (gm_DisplayName m) (gm_Description m) (gm_System m) (gm_MetadataVersion m)
    (gm_MembersVersion m) (gm_PermissionsVersion m) (gm_CreatedAt m) (gm_UpdatedAt m).

Definition group_meta_ok (m : GroupMeta) : bool :=
  utf8_valid (gm_Name m) && utf8_valid (gm_DisplayName m) && utf8_valid (gm_Description m) &&
  int64_ok (gm_MetadataVersion m) && int64_ok (gm_MembersVersion m) && int64_ok (gm_PermissionsVersion m) &&
  time_ok (gm_CreatedAt m) && time_ok (gm_UpdatedAt m).

#[global] Instance GroupMeta_repr : Representable GroupMeta :=
  {| json_wf m := group_meta_ok m = true; json_canon m := m |}.

(** Unmarshal only makes valid UTF-8 strings. *)
Class GroupText `{JSON GroupMeta} : Prop :=
  group_text : forall d m, json_Unmarshal d = inr m -> utf8_valid (gm_Name m) = true.

(** ** The repository *)

Definition bucketGroups : string := "auth_groups".

(** The writes to a group through the caller's pointer. *)
Definition set_group_times (created updated : Z) (g : Group) : Group :=
  mkGroup (gr_Name g) (gr_DisplayName g) (gr_Description g) (gr_System g) (gr_MetadataVersion g)
    (gr_MembersVersion g) (gr_PermissionsVersion g) created updated.
Definition set_versions (metadata members permissions : Z) (g : Group) : Group :=
  mkGroup (gr_Name g) (gr_DisplayName g) (gr_Description g) (gr_System g) metadata members permissions
    (gr_CreatedAt g) (gr_UpdatedAt g).
Definition set_system (b : bool) (g : Group) : Group :=
  mkGroup (gr_Name g) (gr_DisplayName g) (gr_Description g) b (gr_MetadataVersion g)
    (gr_MembersVersion g) (gr_PermissionsVersion g) (gr_CreatedAt g) (gr_UpdatedAt g).
Definition set_text (display description : bytes) (g : Group) : Group :=
  mkGroup (gr_Name g) display description (gr_System g) (gr_MetadataVersion g)
    (gr_MembersVersion g) (gr_PermissionsVersion g) (gr_CreatedAt g) (gr_UpdatedAt g).

Section shaping.
Context `{UnicodeLower} `{GoSort}.

Definition matchesGroupSearch (name search : bytes) : bool :=
  if bool_decide (search = []) then true else contains (ToLower name) (ToLower search).

Definition groupLess (params : SortParams) (a b : Group) : bool :=
  let less := if bytes_eqb (sort_Field params) (str "modified") then gr_UpdatedAt a <? gr_UpdatedAt b
              else bytes_ltb (gr_Name a) (gr_Name b) in
  if sort_Desc params then negb less else less.

Definition sortGroups (groups : list Group) (params : SortParams) : list Group :=
  sort_Slice (groupLess params) groups.

Definition paginateGroups (groups : list Group) (offset limit : Z) : outcome (list Group) :=
  let offset := if offset <? 0 then 0 else offset in
  let n := Z.of_nat (length groups) in
  if n <=? offset then Ok []
  else
    let end_ := if (0 <? limit) && (int64 (offset + limit) <? n) then int64 (offset + limit) else n in
    slice groups offset end_.
End shaping.

Section repo.
Context `{Bolt} `{Clock} `{JSON GroupMeta} `{GoSort} `{UnicodeLower}.

(** Create and Update also return the group as they leave the caller's. *)
Definition createGroupTx (group : Group) : TxM Group :=
  exists_ ← bbolt.Exists bucketGroups (gr_Name group);
  if (exists_ : bool) then txfail (EWrap "group %s: %w" [FStr (gr_Name group)] ErrResourceAlreadyExists)
  else
    now ← Now;
    let group := set_group_times now now group in
    let group := if gr_MetadataVersion group =? 0
                 then set_versions 1 (gr_MembersVersion group) (gr_PermissionsVersion group) group else group in
    _ ← wrapE "create group: %w" [] (bbolt.Put bucketGroups (gr_Name group) (DomainToGroupMeta group));
    mret group.

Definition getGroupTx (name : bytes) : TxM Group :=
  r ← attempt (bbolt.Get (T:=GroupMeta) bucketGroups name);
  match r with
  | inr m => mret (GroupMetaToDomain m)
  | inl e =>
      if errors_Is e (ESentinel BboltErrNotFound)
      then txfail (EWrap "group %s: %w" [FStr name] ErrResourceNotFound)
      else txfail (EWrap "get group: %w" [] e)
  end.

Definition updateGroupTx (group : Group) : TxM Group :=
  r ← attempt (bbolt.Get (T:=GroupMeta) bucketGroups (gr_Name group));
  match r with
  | inl e =>
      if errors_Is e (ESentinel BboltErrNotFound)
      then txfail (EWrap "group %s: %w" [FStr (gr_Name group)] ErrResourceNotFound)
      else txfail (EWrap "update group: %w" [] e)
  | inr existing =>
      now ← Now;
      let existing := mkGroupMeta (gm_Name existing) (gr_DisplayName group) (gr_Description group)
        (gm_System existing) (gr_MetadataVersion group) (gr_MembersVersion group) (gr_PermissionsVersion group)
        (gm_CreatedAt existing) now in
      let group := set_system (gm_System existing)
        (set_group_times (gm_CreatedAt existing) (gm_UpdatedAt existing) group) in
      _ ← wrapE "update group: %w" [] (bbolt.Put bucketGroups (gr_Name group) existing);
      mret group
  end.

Definition deleteGroupTx (name : bytes) : TxM unit :=
  exists_ ← bbolt.Exists bucketGroups name;
  if negb exists_ then txfail (EWrap "group %s: %w" [FStr name] ErrResourceNotFound)
  else wrapE "delete group: %w" [] (bbolt.Delete bucketGroups name).

Definition listGroupsTx (filter : GroupFilter) : TxM (list Group) :=
  wrapE "list groups: %w" []
    (bucket_ForEach bucketGroups (fun _ v matches =>
       match bbolt.JSONCodec_Unmarshal (T:=GroupMeta) v with
       | inl e => txfail (EWrap "decode group: %w" [] e)
       | inr m =>
           let g := GroupMetaToDomain m in
           if negb (gf_Wildcard filter) && negb (bool_decide (gr_Name g ∈ gf_Names filter)) then mret matches
           else if negb (matchesGroupSearch (gr_Name g) (gf_Search filter)) then mret matches
           else mret (matches ++ [g])
       end) []).
End repo.

Module GroupRepo.
Section methods.
Context `{Bolt} `{Disk} `{Clock} `{JSON GroupMeta} `{GoSort} `{UnicodeLower}.

Definition Create (ctx : Context_) (group : Group) : App Group := GetQuerier ctx (createGroupTx group).
Definition Get (ctx : Context_) (name : bytes) : App Group := GetQuerier ctx (getGroupTx name).
Definition Update (ctx : Context_) (group : Group) : App Group := GetQuerier ctx (updateGroupTx group).
Definition Delete (ctx : Context_) (name : bytes) : App unit := GetQuerier ctx (deleteGroupTx name).

Definition List (ctx : Context_) (filter : GroupFilter) (params : GroupListParams) : App (list Group * Z) :=
  matches ← GetQuerier ctx (listGroupsTx filter);
  let sorted := sortGroups matches (glp_Sort params) in
  page ← liftO (paginateGroups sorted (glp_Offset params) (glp_Limit params));
  mret (page, Z.of_nat (length sorted)).

Definition ListAll (ctx : Context_) : App (list Group) :=
  '(groups, _) ← List ctx (mkGroupFilter ∅ true []) (mkGroupListParams 0 0 (mkSortParams [] false));
  mret groups.
End methods.
End GroupRepo.

(** ** Every program stays in its bucket *)

Section facts.
Context `{BoltSpec} `{Clock} `{JSON GroupMeta} `{GoSort} `{UnicodeLower}.

Lemma stays_createGroup g : stays bucketGroups (createGroupTx g).
Proof. unfold createGroupTx. stay. Qed.

Lemma stays_getGroup n name : stays n (getGroupTx name).
Proof. unfold getGroupTx. stay. Qed.

Lemma stays_updateGroup g : stays bucketGroups (updateGroupTx g).
Proof. unfold updateGroupTx. stay. Qed.

Lemma stays_deleteGroup name : stays bucketGroups (deleteGroupTx name).
Proof. unfold deleteGroupTx. stay. Qed.

Lemma stays_listGroups n filter : stays n (listGroupsTx filter).
Proof. unfold listGroupsTx. stay. Qed.
End facts.
