(* ===== verification/Authz.v ===== *)
(** * Decisions and administration

    internal/service/authz: pdp.go (who may do what), pap.go and pap_tx.go (changes of
    rules in the language of groups and permissions), scope.go (rules that span an
    actor and a target) and authz.go (the gates of the handlers).  The queries are
    functions of the cache; logged errors are left out. *)

From S2P Require Import Prelude.
From S2P Require Import Bolt.
From S2P Require Import Domain.
From S2P Require Import Manager.
From S2P Require Import Rbac.
From S2P Require Import PolicyRepo.
From S2P Require Import Casbin.
From S2P Require Import GroupRepo.
From stdpp Require Import base list gmap strings.
From Stdlib Require Import Ascii ZArith Lia.
Open Scope Z_scope.

#[local] Set Warnings "-register-all".

Definition pRuleLen : nat := 4.

(** Column [i] of a rule the code has checked the length of. *)
Definition col (i : nat) (r : list bytes) : bytes := default [] (r !! i).

Definition rule_permission (r : list bytes) : Permission := mkPermission (col 2 r) (col 3 r) (col 1 r).

(** ** pdp.go

    [skip] is the option WithSkipPermissions. *)
Module PDP.
Section pdp.
Context `{Casbin} (skip : bool) (m : Model).

Definition EffectiveDomains (principal : bytes) (object : RObject) (action : RAction) : DomainSet :=
  if skip then mkDomainSet true ∅
  else
    match Enforcer.GetImplicitPermissionsForUser m principal with
    | Ok rules =>
        NewDomainSet (foldl (fun domains rule =>
          if (length rule <? pRuleLen)%nat then domains
          else if ObjectGrants (col 2 rule) object && ActionGrants (col 3 rule) action
          then domains ++ [col 1 rule] else domains) [] rules)
    | _ => NewDomainSet []
    end.

Definition Has (principal : bytes) (perm : Permission) : bool :=
  if skip then true
  else
    match Enforcer.Enforce m principal (perm_Domain perm) (perm_Object perm) (perm_Action perm) with
    | Ok ok => ok
    | _ => false
    end.

Definition HasGroup (actor groupID : bytes) (action : RAction) : bool :=
  Has actor (mkPermission ObjectGroup action (GroupResource groupID)).

Definition HasNamespace (actor name : bytes) (action : RAction) : bool :=
  Has actor (mkPermission ObjectNamespace action (NamespaceResource name)).

Definition EffectiveNamespaces (actor : bytes) (action : RAction) : DomainSet :=
  let raw := EffectiveDomains actor ObjectNamespace action in
  if ds_Wildcard raw then mkDomainSet true ∅
  else mkDomainSet false (set_map (fun d => TrimPrefix d NamespaceResourcePrefix) (ds_Explicit raw)).

Definition HasGlobal (actor : bytes) (object : RObject) (action : RAction) : bool :=
  Has actor (mkPermission object action DomainAll).

Definition HasForGroup (groupName : bytes) (perm : Permission) : bool := Has (GroupResource groupName) perm.

Context `{GoSort}.

Definition permissionLess (a b : Permission) : bool :=
  if negb (bytes_eqb (perm_Object a) (perm_Object b)) then bytes_ltb (perm_Object a) (perm_Object b)
  else if negb (bytes_eqb (perm_Action a) (perm_Action b)) then bytes_ltb (perm_Action a) (perm_Action b)
  else bytes_ltb (perm_Domain a) (perm_Domain b).

(** The loop that drops malformed rules and duplicates. *)
Definition dedupPermissions (rules : list (list bytes)) : list Permission :=
  (foldl (fun '(seen, permissions) rule =>
     if (length rule <? pRuleLen)%nat then (seen, permissions)
     else
       let perm := rule_permission rule in
       if bool_decide (perm ∈ seen) then (seen, permissions) else ({[perm]} ∪ seen, permissions ++ [perm]))
     ((∅ : gset Permission), []) rules).2.

Definition ListPermissions (principal : bytes) : outcome (list Permission) :=
  if skip then Ok [mkPermission ObjectAll ActAll DomainAll]
  else
    match Enforcer.GetImplicitPermissionsForUser m principal with
    | Err e => Err (EWrap "list permissions: %w" [] e)
    | Crash c => Crash c
    | Ok rules => Ok (sort_Slice permissionLess (dedupPermissions rules))
    end.
End pdp.
End PDP.

(** ** pap_tx.go

    [ctx] is the context of the transaction the TxEnforcer is bound to. *)
Module PAPTx.
Section methods.
Context `{Bolt} `{Disk} `{JSON (list bytes)}.

(** [for _, x := range l { if err := f(x); err != nil { return ... } }] *)
Fixpoint each {A} (f : A -> TxE unit) (l : list A) : TxE unit :=
  match l with
  | [] => mret tt
  | x :: l => _ ← f x; each f l
  end.

(** Indexing a shorter rule panics; the repository returns only full ones. *)
Definition GroupPermissions (ctx : Context_) (name : bytes) : TxE (list Permission) :=
  rules ← wrapTx "get group permissions: %w" []
            (TxEnforcer.GetPermissionsForSubject ctx (GroupResource name));
  if forallb (fun r : list bytes => (pRuleLen <=? length r)%nat) rules
  then mret (rule_permission <$> rules) else crashTx GoPanic.

Definition ApplyPermissionDeltas (ctx : Context_) (name : bytes) (added removed : list Permission) : TxE unit :=
  let subject := GroupResource name in
  _ ← each (fun p => wrapTx "remove policy: %w" []
        (TxEnforcer.RemovePolicy ctx subject (perm_Domain p) (perm_Object p) (perm_Action p))) removed;
  each (fun p => wrapTx "add policy: %w" []
        (TxEnforcer.AddPolicy ctx subject (perm_Domain p) (perm_Object p) (perm_Action p))) added.

Definition ApplyMemberDeltas (ctx : Context_) (name : bytes) (added removed : list bytes) : TxE unit :=
  let subject := GroupResource name in
  _ ← each (fun userID => wrapTx "remove membership: %w" []
        (TxEnforcer.RemoveRoleForUser ctx userID subject MembershipDomain)) removed;
  each (fun userID => wrapTx "add membership: %w" []
        (TxEnforcer.AddRoleForUser ctx userID subject MembershipDomain)) added.

Definition ApplyUserMembershipDeltas (ctx : Context_) (userID : bytes) (added removed : list bytes) : TxE unit :=
  _ ← each (fun name => wrapTx "remove membership %s: %w" [FStr name]
        (TxEnforcer.RemoveRoleForUser ctx userID (GroupResource name) MembershipDomain)) removed;
  each (fun name => wrapTx "add membership %s: %w" [FStr name]
        (TxEnforcer.AddRoleForUser ctx userID (GroupResource name) MembershipDomain)) added.

Definition DeleteGroup (ctx : Context_) (name : bytes) : TxE unit :=
  wrapTx "delete group: %w" [] (TxEnforcer.DeleteUser ctx (GroupResource name)).

Definition DeleteUser (ctx : Context_) (userID : bytes) : TxE unit :=
  wrapTx "delete user: %w" [] (TxEnforcer.DeleteUser ctx userID).
End methods.
End PAPTx.

(** ** pap.go *)
Module PAP.
Section write.
Context `{Bolt} `{Disk} `{Casbin} `{JSON (list bytes)}.

(** The callback gets the transaction's context and works through PAPTx with it. *)
Definition Write {A} (ctx : Context_) (fn : Context_ -> TxE A) : EM A :=
  emWrap "pap write: %w" [] (Enforcer.WriteTx ctx fn).
End write.

Section reads.
Context `{Casbin} `{RangeOrder} (m : Model).

Definition GroupNamesFromScope (scope : DomainSet) : gset bytes :=
  foldl (fun names d => if IsGroupSubject d then {[GroupNameFromSubject d]} ∪ names else names) ∅
    (rangeSet (ds_Explicit scope)).

Definition MembersOfScope (scope : DomainSet) : gset bytes :=
  foldl (fun users d =>
    if negb (IsGroupSubject d) then users
    else foldl (fun users u => if negb (IsGroupSubject u) then {[u]} ∪ users else users) users
           (Enforcer.GetMembersOfGroup m d)) ∅ (rangeSet (ds_Explicit scope)).

Definition GroupPermissions (name : bytes) : list Permission :=
  let subject := GroupResource name in
  foldl (fun out r =>
    if (length r <? pRuleLen)%nat || negb (bytes_eqb (col 0 r) subject) then out
    else out ++ [rule_permission r]) [] (Enforcer.GetPolicy m).

Definition GroupMembers (name : bytes) : list bytes :=
  foldl (fun out u => if negb (IsGroupSubject u) then out ++ [u] else out) []
    (Enforcer.GetMembersOfGroup m (GroupResource name)).

Definition UserGroupNames (userID : bytes) : outcome (list bytes) :=
  match Enforcer.GetRolesForUser m userID MembershipDomain with
  | Err e => Err (EWrap "get user memberships: %w" [] e)
  | Crash c => Crash c
  | Ok subjects =>
      Ok (foldl (fun out subject =>
            if negb (IsGroupSubject subject) then out else out ++ [GroupNameFromSubject subject]) [] subjects)
  end.
End reads.
End PAP.

(** ** scope.go *)
Module Scope.
Section scope.
Context `{Bolt} `{Disk} `{Casbin} `{Clock} `{JSON GroupMeta} `{GoSort} `{UnicodeLower}.
Context (skip : bool) (m : Model).

Fixpoint resolveGroups (ctx : Context_) (names : list bytes) : App (list Group) :=
  match names with
  | [] => mret []
  | name :: names =>
      g ← wrapA "find group by name %s: %w" [FStr name] (GroupRepo.Get ctx name);
      rest ← resolveGroups ctx names;
      mret (g :: rest)
  end.

Definition resolveTargetGroups (ctx : Context_) (target : bytes) : App (list Group) :=
  names ← liftO (map_err (EWrap "pap user group names: %w" []) (PAP.UserGroupNames m target));
  resolveGroups ctx names.

Definition targetInGroupScope (ctx : Context_) (actor target : bytes) (action : RAction) : App bool :=
  groups ← resolveTargetGroups ctx target;
  mret (existsb (fun g => PDP.HasGroup skip m actor (gr_Name g) action) groups).

(** [ok, _ := s.targetInGroupScope(...)]: an error denies. *)
Definition inScope (ctx : Context_) (actor target : bytes) (action : RAction) : App bool :=
  r ← attemptA (targetInGroupScope ctx actor target action);
  mret (match r with inr ok => ok | inl _ => false end).

Definition CanReadUser (ctx : Context_) (actor target : bytes) : App bool :=
  if PDP.HasGlobal skip m actor ObjectUser ActRead then mret true
  else inScope ctx actor target ActRead.

Fixpoint visible (ctx : Context_) (actor : bytes) (candidates : list bytes) (out : list bytes) : App (list bytes) :=
  match candidates with
  | [] => mret out
  | c :: candidates =>
      ok ← inScope ctx actor c ActRead;
      visible ctx actor candidates (if (ok : bool) then out ++ [c] else out)
  end.

Definition FilterVisibleUsers (ctx : Context_) (actor : bytes) (candidates : list bytes) : App (list bytes) :=
  if (length candidates =? 0)%nat then mret candidates
  else if PDP.HasGlobal skip m actor ObjectUser ActRead then mret candidates
  else visible ctx actor candidates [].

Definition VisibleUserGroupNames (ctx : Context_) (actor target : bytes) : App (list bytes) :=
  groups ← resolveTargetGroups ctx target;
  mret (foldl (fun out g => if PDP.HasGroup skip m actor (gr_Name g) ActRead then out ++ [gr_Name g] else out)
          [] groups).

Definition RequireMembershipGrant (actor groupName : bytes) : outcome unit :=
  if forallb (PDP.Has skip m actor) (PAP.GroupPermissions m groupName) then Ok tt
  else Err ErrPermissionEscalation.

Definition RequireWriteUser (ctx : Context_) (actor target : bytes) : App unit :=
  if PDP.HasGlobal skip m actor ObjectUser ActWrite then mret tt
  else
    ok ← targetInGroupScope ctx actor target ActWrite;
    if negb ok then appfail ErrForbidden else mret tt.
End scope.
End Scope.

(** ** authz.go

    [caller] is the user of the context's auth information, if it has one;
    [connect.NewError(code, err)] is a status with a cause. *)
Module Authz.
Section authz.
Context `{Casbin} (skip : bool) (m : Model).

Definition connectError (c : code) (e : error) : error := EStatusOf c "%s" [] e.

Definition RequireUser (user : bytes) (object : RObject) (action : RAction) (domainStr : bytes) : outcome unit :=
  if negb (PDP.Has skip m user (mkPermission object action domainStr))
  then Err (connectError PermissionDenied ErrForbidden) else Ok tt.

Definition Require (caller : option bytes) (object : RObject) (action : RAction) (domainStr : bytes) : outcome unit :=
  match caller with
  | None => Err (connectError Unauthenticated (ESentinel DomainErrUnauthorized))
  | Some user =>
      if negb (PDP.Has skip m user (mkPermission object action domainStr))
      then Err (connectError PermissionDenied ErrForbidden) else Ok tt
  end.

Definition RequireNamespace (caller : option bytes) (action : RAction) (name : bytes) : outcome unit :=
  Require caller ObjectNamespace action (NamespaceResource name).

Definition RequireGroup (caller : option bytes) (action : RAction) (id : bytes) : outcome unit :=
  Require caller ObjectGroup action (GroupResource id).

Definition RequireAuthenticated (caller : option bytes) : outcome unit :=
  match caller with
  | None => Err (connectError Unauthenticated (ESentinel DomainErrUnauthorized))
  | Some _ => Ok tt
  end.
End authz.
End Authz.
