(* ===== verification/GroupService.v ===== *)
(** * The group use case

    internal/usecase/group: the life of a group, its members and its permissions, with
    the checks that keep an actor from handing out more than the actor has; and the
    permission catalog of internal/usecase/filter/service_catalog.go that the checks
    consult.  The offending values quoted in a validation message are left out of it. *)

From S2P Require Import Prelude.
From S2P Require Import Bolt.
From S2P Require Import Domain.
From S2P Require Import Manager.
From S2P Require Import Util.
From S2P Require Import Rbac.
From S2P Require Import PolicyRepo.
From S2P Require Import Casbin.
From S2P Require Import GroupRepo.
From S2P Require Import Authz.
From stdpp Require Import base list gmap strings.
From Stdlib Require Import Ascii ZArith Lia.
Open Scope Z_scope.

#[local] Set Warnings "-register-all".

(** ** The catalog *)

Inductive ObjectScope := ScopeUnspecified | ScopeGlobal | ScopeNamespace | ScopeGroup.

Record CatalogEntry := mkCatalogEntry { ce_Object : RObject; ce_Scope : ObjectScope; ce_Actions : list RAction }.

Definition ObjectToken : RObject := str "token".
Definition ObjectWebhook : RObject := str "webhook".
Definition ObjectClient : RObject := str "client".
Definition ActDelete : RAction := str "delete".

Definition buildCatalog : list CatalogEntry :=
  [ mkCatalogEntry ObjectNamespace ScopeNamespace [ActRead; ActWrite; ActCreate; ActDelete; ActAll];
    mkCatalogEntry ObjectGroup ScopeGroup [ActRead; ActWrite; ActCreate; ActDelete; ActAll];
    mkCatalogEntry ObjectUser ScopeGlobal [ActRead; ActWrite; ActCreate; ActAll];
    mkCatalogEntry ObjectToken ScopeGlobal [ActRead; ActWrite; ActCreate; ActDelete; ActAll];
    mkCatalogEntry ObjectWebhook ScopeGlobal [ActRead; ActWrite; ActCreate; ActDelete; ActAll];
    mkCatalogEntry ObjectClient ScopeGlobal [ActRead] ].

Fixpoint findEntry (obj : RObject) (catalog : list CatalogEntry) : option CatalogEntry :=
  match catalog with
  | [] => None
  | e :: catalog => if bytes_eqb (ce_Object e) obj then Some e else findEntry obj catalog
  end.

Definition LookupCatalogEntry (obj : RObject) : option CatalogEntry := findEntry obj buildCatalog.

(** ** Validation of assignments *)

Definition permissionsError (message : string) : error := NewValidationError (str "permissions") (str message).

Definition validateAssignmentAction (entry : CatalogEntry) (action : RAction) : outcome unit :=
  if bool_decide (action ∈ ce_Actions entry) then Ok tt
  else Err (permissionsError "action is not allowed for object").

Definition validateGlobalDomain (dom : bytes) : outcome unit :=
  if bytes_eqb dom DomainAll then Ok tt else Err (permissionsError "object is global").

Definition validatePrefixedDomain (dom prefix : bytes) : outcome unit :=
  if bool_decide (dom = []) then Err (permissionsError "object requires a domain")
  else if bytes_eqb dom DomainAll || has_prefix dom prefix then Ok tt
  else Err (permissionsError "object domain must be prefixed").

Definition validateAssignmentDomain (scope : ObjectScope) (dom : bytes) : outcome unit :=
  match scope with
  | ScopeGlobal => validateGlobalDomain dom
  | ScopeNamespace => validatePrefixedDomain dom NamespaceResourcePrefix
  | ScopeGroup => validatePrefixedDomain dom GroupResourcePrefix
  | ScopeUnspecified => Err (permissionsError "object has an unspecified scope")
  end.

Definition validatePermissionAssignment (p : Permission) : outcome unit :=
  match LookupCatalogEntry (perm_Object p) with
  | None => Err (permissionsError "object is not assignable")
  | Some entry =>
      _ ← validateAssignmentAction entry (perm_Action p);
      validateAssignmentDomain (ce_Scope entry) (perm_Domain p)
  end.

Fixpoint validateAll (adds : list Permission) : outcome unit :=
  match adds with
  | [] => Ok tt
  | p :: adds => _ ← validatePermissionAssignment p; validateAll adds
  end.

Definition validatePermissionDeltas (adds removes : list Permission) : outcome unit :=
  match SliceUtil.FirstOverlap adds removes with
  | Some _ => Err (permissionsError "appears in both add and remove")
  | None => validateAll adds
  end.

(** ** Requests and results *)

Record CreateData := mkCreateData {
  cd_Name : bytes;
  cd_Description : bytes;
  cd_InitialMembers : list bytes;
  cd_InitialPermissions : list Permission;
  cd_InitialManagerGroupNames : list bytes;
}.

Record CreateResult := mkCreateResult {
  cr_Group : Group; cr_VisibleMembers : list bytes; cr_Permissions : list Permission }.

Record UpdateData := mkUpdateData {
  ud_Name : bytes; ud_DisplayName : bytes; ud_Description : bytes; ud_ExpectedMetadataVersion : option Z }.

Record UpdateMembersData := mkUpdateMembersData {
  um_GroupName : bytes; um_AddEmails : list bytes; um_RemoveEmails : list bytes; um_ExpectedMembersVersion : option Z }.

Record UpdateMembersResult := mkUpdateMembersResult { umr_Group : Group; umr_VisibleMembers : list bytes }.

Record UpdatePermissionsData := mkUpdatePermissionsData {
  up_GroupName : bytes; up_Add : list Permission; up_Remove : list Permission;
  up_ExpectedPermissionsVersion : option Z }.

Record UpdatePermissionsResult := mkUpdatePermissionsResult { upr_Group : Group; upr_Permissions : list Permission }.

Record GetResult := mkGetResult {
  gt_Group : Group; gt_VisibleMembers : list bytes; gt_Permissions : list Permission }.

Record ListParams := mkListParams { lp_Limit : Z; lp_Offset : Z; lp_Sort : SortParams; lp_Query : bytes }.
Record ListResult := mkListResult { lr_Groups : list Group; lr_Total : Z; lr_Limit : Z; lr_Offset : Z }.

Definition defaultListLimit : Z := 20.

(** ** The service

    [actor] is the caller's user ID; the cache [m] read by a callback is the one the
    write transaction starts with. *)
Module GroupService.
Section service.
Context `{Bolt} `{Disk} `{Casbin} `{Clock} `{JSON (list bytes)} `{JSON GroupMeta} `{GoSort} `{UnicodeLower}.
Context (skip : bool).

Definition notFoundGroup (name : bytes) (err : error) : error :=
  if errors_Is err ErrResourceNotFound then NewNotFoundError (str "group") name else err.

Definition loadMutableGroup (ctx : Context_) (name : bytes) : App Group :=
  existing ← mapErrA (fun err => EWrap "get group: %w" [] (notFoundGroup name err)) (GroupRepo.Get ctx name);
  _ ← liftO (map_err (EWrap "ensure mutable: %w" []) (EnsureMutable existing));
  mret existing.

Definition filterVisibleMembers (m : Model) (ctx : Context_) (actor : bytes) (members : list bytes) :
    App (list bytes) :=
  Scope.FilterVisibleUsers skip m ctx actor members.

(** *** Create *)

Fixpoint managers (m : Model) (ctx : Context_) (actor : bytes) (initial : list Permission) (names : list bytes) :
    App (list Group) :=
  match names with
  | [] => mret []
  | name :: names =>
      if negb (PDP.HasGroup skip m actor name ActWrite) then appfail ErrForbidden
      else
        mg ← mapErrA (fun err => EWrap "get manager group %s: %w" [FStr name] (notFoundGroup name err))
               (GroupRepo.Get ctx name);
        if negb (forallb (PDP.HasForGroup skip m (gr_Name mg)) initial)
        then appfail (EWrap "manager group %s does not dominate: %w" [FStr (gr_Name mg)] ErrPermissionEscalation)
        else
          rest ← managers m ctx actor initial names;
          mret (mg :: rest)
  end.

Definition authorizeCreate (m : Model) (ctx : Context_) (actor : bytes) (data : CreateData) : App (list Group) :=
  if negb (forallb (PDP.Has skip m actor) (cd_InitialPermissions data)) then appfail ErrPermissionEscalation
  else managers m ctx actor (cd_InitialPermissions data) (cd_InitialManagerGroupNames data).

Definition persistEntity (ctx : Context_) (data : CreateData) : App Group :=
  r ← attemptA (GroupRepo.Get ctx (cd_Name data));
  _ ← (match r with
       | inr _ => appfail (EWrap "check name uniqueness: %w" [] (NewAlreadyExistsError (str "group") (cd_Name data)))
       | inl err =>
           if negb (errors_Is err ErrResourceNotFound) then appfail (EWrap "check name uniqueness: %w" [] err)
           else mret tt
       end : App unit);
  now ← NowA;
  let group := mkGroup (cd_Name data) [] (cd_Description data) false 1 0 0 now now in
  _ ← liftO (map_err (EWrap "validate group: %w" []) (Group_Validate group));
  mapErrA (fun err => EWrap "create group: %w" []
    (if errors_Is err ErrResourceAlreadyExists then NewAlreadyExistsError (str "group") (cd_Name data) else err))
    (GroupRepo.Create ctx group).

Definition applyInitialPermissions (ctx : Context_) (group : Group) (perms : list Permission) : TxE Group :=
  if (length perms =? 0)%nat then mret group
  else
    _ ← wrapTx "apply initial permissions: %w" [] (PAPTx.ApplyPermissionDeltas ctx (gr_Name group) perms []);
    mret (set_versions (gr_MetadataVersion group) (gr_MembersVersion group) 1 group).

Definition applyInitialMembers (ctx : Context_) (group : Group) (members : list bytes) : TxE Group :=
  if (length members =? 0)%nat then mret group
  else
    _ ← wrapTx "apply initial members: %w" [] (PAPTx.ApplyMemberDeltas ctx (gr_Name group) members []);
    mret (set_versions (gr_MetadataVersion group) 1 (gr_PermissionsVersion group) group).

Definition wireInitialManagers (ctx : Context_) (group : Group) (managers : list Group) : TxE unit :=
  let grant := [mkPermission ObjectGroup ActWrite (GroupResource (gr_Name group))] in
  PAPTx.each (fun mg => wrapTx "grant manager %s: %w" [FStr (gr_Name mg)]
    (PAPTx.ApplyPermissionDeltas ctx (gr_Name mg) grant [])) managers.

Definition createCallback (m : Model) (actor : bytes) (data : CreateData) (ctx : Context_) : TxE CreateResult :=
  managerGroups ← liftTx (authorizeCreate m ctx actor data);
  group ← liftTx (persistEntity ctx data);
  group ← applyInitialPermissions ctx group (cd_InitialPermissions data);
  group ← applyInitialMembers ctx group (cd_InitialMembers data);
  _ ← wireInitialManagers ctx group managerGroups;
  group ← (if (0 <? gr_PermissionsVersion group) || (0 <? gr_MembersVersion group)
           then liftTx (wrapA "persist initial versions: %w" [] (GroupRepo.Update ctx group))
           else mret group);
  visible ← liftTx (filterVisibleMembers m ctx actor (cd_InitialMembers data));
  mret (mkCreateResult group visible (cd_InitialPermissions data)).

Definition Create (ctx : Context_) (actor : bytes) (data : CreateData) : EM CreateResult :=
  m ← emAsk;
  emWrap "create group transaction: %w" [] (PAP.Write ctx (createCallback m actor data)).

(** *** Update *)

Definition updateCallback (data : UpdateData) (ctx : Context_) : TxE Group :=
  existing ← liftTx (loadMutableGroup ctx (ud_Name data));
  _ ← liftTx (liftO (map_err (EWrap "check version: %w" [])
        (CheckVersion (ud_ExpectedMetadataVersion data) (gr_MetadataVersion existing))));
  now ← liftTx NowA;
  let existing := set_text (ud_DisplayName data) (ud_Description data) existing in
  let existing := set_versions (int64 (gr_MetadataVersion existing + 1)) (gr_MembersVersion existing)
    (gr_PermissionsVersion existing) existing in
  let existing := set_group_times (gr_CreatedAt existing) now existing in
  liftTx (wrapA "update group: %w" [] (GroupRepo.Update ctx existing)).

Definition Update (ctx : Context_) (data : UpdateData) : EM Group :=
  emWrap "update group: %w" [] (PAP.Write ctx (updateCallback data)).

(** *** Members *)

Definition commitMemberDelta (ctx : Context_) (existing : Group) (added removed : list bytes) : TxE Group :=
  _ ← wrapTx "apply member deltas: %w" [] (PAPTx.ApplyMemberDeltas ctx (gr_Name existing) added removed);
  now ← liftTx NowA;
  let existing := set_group_times (gr_CreatedAt existing) now
    (set_versions (gr_MetadataVersion existing) (int64 (gr_MembersVersion existing + 1))
       (gr_PermissionsVersion existing) existing) in
  liftTx (wrapA "update group: %w" [] (GroupRepo.Update ctx existing)).

Definition updateMembersCallback (m : Model) (actor : bytes) (data : UpdateMembersData) (ctx : Context_) :
    TxE UpdateMembersResult :=
  existing ← liftTx (loadMutableGroup ctx (um_GroupName data));
  _ ← liftTx (liftO (map_err (EWrap "check version: %w" [])
        (CheckVersion (um_ExpectedMembersVersion data) (gr_MembersVersion existing))));
  let current := PAP.GroupMembers m (gr_Name existing) in
  let currentSet := SliceUtil.ToSet current in
  let added := SliceUtil.NotIn (um_AddEmails data) currentSet in
  let removed := SliceUtil.In (um_RemoveEmails data) currentSet in
  _ ← liftTx (if (0 <? length added)%nat
        then liftO (map_err (EWrap "require membership grant: %w" [])
               (Scope.RequireMembershipGrant skip m actor (gr_Name existing)))
        else mret tt);
  if ((length added =? 0)%nat && (length removed =? 0)%nat)
  then
    visible ← liftTx (filterVisibleMembers m ctx actor current);
    mret (mkUpdateMembersResult existing visible)
  else
    existing ← commitMemberDelta ctx existing added removed;
    let post := SliceUtil.ComposePost current added removed in
    visible ← liftTx (filterVisibleMembers m ctx actor post);
    mret (mkUpdateMembersResult existing visible).

Definition UpdateMembers (ctx : Context_) (actor : bytes) (data : UpdateMembersData) : EM UpdateMembersResult :=
  match SliceUtil.FirstOverlap (um_AddEmails data) (um_RemoveEmails data) with
  | Some _ => emFail (NewValidationError (str "email") (str "appears in both add and remove"))
  | None =>
      m ← emAsk;
      emWrap "update group members: %w" [] (PAP.Write ctx (updateMembersCallback m actor data))
  end.

(** *** Permissions *)

Definition boundaryCheckPerms (m : Model) (actor : bytes) (added : list Permission) : outcome unit :=
  if forallb (PDP.Has skip m actor) added then Ok tt else Err ErrPermissionEscalation.

Definition cascadeCheckPerms (m : Model) (actor groupName : bytes) (post : list Permission) : outcome unit :=
  if (length (PAP.GroupMembers m groupName) =? 0)%nat then Ok tt
  else if forallb (PDP.Has skip m actor) post then Ok tt else Err ErrPermissionEscalation.

Definition commitPermissionDelta (ctx : Context_) (existing : Group) (added removed : list Permission) : TxE Group :=
  _ ← wrapTx "apply permission deltas: %w" [] (PAPTx.ApplyPermissionDeltas ctx (gr_Name existing) added removed);
  now ← liftTx NowA;
  let existing := set_group_times (gr_CreatedAt existing) now
    (set_versions (gr_MetadataVersion existing) (gr_MembersVersion existing)
       (int64 (gr_PermissionsVersion existing + 1)) existing) in
  liftTx (wrapA "update group: %w" [] (GroupRepo.Update ctx existing)).

Definition updatePermissionsCallback (m : Model) (actor : bytes) (data : UpdatePermissionsData) (ctx : Context_) :
    TxE UpdatePermissionsResult :=
  existing ← liftTx (loadMutableGroup ctx (up_GroupName data));
  _ ← liftTx (liftO (map_err (EWrap "check version: %w" [])
        (CheckVersion (up_ExpectedPermissionsVersion data) (gr_PermissionsVersion existing))));
  current ← wrapTx "pap group permissions: %w" [] (PAPTx.GroupPermissions ctx (gr_Name existing));
  let currentSet := SliceUtil.ToSet current in
  let added := SliceUtil.NotIn (up_Add data) currentSet in
  let removed := SliceUtil.In (up_Remove data) currentSet in
  _ ← liftTx (liftO (boundaryCheckPerms m actor added));
  if (length added + length removed =? 0)%nat
  then mret (mkUpdatePermissionsResult existing current)
  else
    let post := SliceUtil.ComposePost current added removed in
    _ ← liftTx (liftO (cascadeCheckPerms m actor (gr_Name existing) post));
    existing ← commitPermissionDelta ctx existing added removed;
    mret (mkUpdatePermissionsResult existing post).

Definition UpdatePermissions (ctx : Context_) (actor : bytes) (data : UpdatePermissionsData) :
    EM UpdatePermissionsResult :=
  match validatePermissionDeltas (up_Add data) (up_Remove data) with
  | Err e => emFail e
  | Crash c => fun m w => (Crash c, m, w)
  | Ok _ =>
      m ← emAsk;
      emWrap "update group permissions: %w" [] (PAP.Write ctx (updatePermissionsCallback m actor data))
  end.

(** *** Delete *)

Definition deleteCallback (name : bytes) (ctx : Context_) : TxE unit :=
  group ← liftTx (loadMutableGroup ctx name);
  _ ← wrapTx "pap delete group: %w" [] (PAPTx.DeleteGroup ctx (gr_Name group));
  liftTx (wrapA "delete group: %w" [] (GroupRepo.Delete ctx name)).

Definition Delete (ctx : Context_) (name : bytes) : EM unit :=
  emWrap "delete group transaction: %w" [] (PAP.Write ctx (deleteCallback name)).

(** *** Get and List *)

Definition Get (ctx : Context_) (actor name : bytes) : EM GetResult :=
  m ← emAsk;
  group ← emLift (mapErrA (fun err => EWrap "get group: %w" [] (notFoundGroup name err)) (GroupRepo.Get ctx name));
  visible ← emLift (filterVisibleMembers m ctx actor (PAP.GroupMembers m (gr_Name group)));
  mret (mkGetResult group visible (PAP.GroupPermissions m (gr_Name group))).

Context `{RangeOrder}.

Definition List (ctx : Context_) (actor : bytes) (params : ListParams) : EM ListResult :=
  m ← emAsk;
  let limit := if lp_Limit params <=? 0 then defaultListLimit else lp_Limit params in
  let scope := PDP.EffectiveDomains skip m actor ObjectGroup ActRead in
  if IsEmpty scope then mret (mkListResult [] 0 limit (lp_Offset params))
  else
    let filter := mkGroupFilter (PAP.GroupNamesFromScope scope) (ds_Wildcard scope) (lp_Query params) in
    let repoParams := mkGroupListParams limit (lp_Offset params) (lp_Sort params) in
    '(groups, total) ← emLift (wrapA "list groups: %w" [] (GroupRepo.List ctx filter repoParams));
    mret (mkListResult groups total limit (lp_Offset params)).
End service.
End GroupService.
