(* ===== verification/AuthConcrete.v ===== *)
(** * Executable instances for the policy

    A policy library that is the pair of rule sets, and field codecs for rule keys and
    group records: the laws of Casbin.v and of the codecs hold together, and the
    examples run on them. *)

From S2P Require Import Prelude.
From S2P Require Import Bolt.
From S2P Require Import Domain.
From S2P Require Import Concrete.
From S2P Require Import Rbac.
From S2P Require Import PolicyRepo.
From S2P Require Import Casbin.
From S2P Require Import GroupRepo.
From stdpp Require Import base list gmap strings.
From Stdlib Require Import Ascii ZArith Lia.
Open Scope Z_scope.

#[local] Set Warnings "-register-all".

(** ** Codecs *)

Definition put_list (l : list bytes) : bytes := foldr (fun x r => Ascii.one :: put_bytes x ++ r) [Ascii.zero] l.

Fixpoint get_list (fuel : nat) (s : bytes) : option (list bytes * bytes) :=
  match fuel, s with
  | S fuel', x :: r =>
      if bool_decide (x = Ascii.zero) then Some ([], r)
      else '(b, r) ← get_bytes r; '(l, r) ← get_list fuel' r; Some (b :: l, r)
  | _, _ => None
  end.

Lemma reads_list l r n : (length l < n)%nat -> get_list n (put_list l ++ r) = Some (l, r).
Proof.
  revert n. induction l as [|x l IH]; intros [|n] Hn; simpl in *; try lia; [done|].
  rewrite <-app_assoc, reads_bytes. simpl. by rewrite IH by lia.
Qed.

Lemma length_put_list l : (length l < length (put_list l))%nat.
Proof. unfold put_list. induction l as [|x l IH]; simpl; [lia|]. rewrite length_app. lia. Qed.

#[global] Instance list_codec : JSON (list bytes) :=
  mk_json (fun l => forallb utf8_valid l) put_list (fun s => get_list (length s) s).

#[global] Instance list_codec_spec : JSONSpec (list bytes).
Proof.
  apply mk_json_spec; [done|]. intros l _. cbn [json_canon parts_repr].
  pose proof (reads_list l [] (length (put_list l)) (length_put_list l)) as E. by rewrite app_nil_r in E.
Qed.

Definition put_group (m : GroupMeta) : bytes :=
  put_bytes (gm_Name m) ++ put_bytes (gm_DisplayName m) ++ put_bytes (gm_Description m) ++
  put_bool (gm_System m) ++ put_Z (gm_MetadataVersion m) ++ put_Z (gm_MembersVersion m) ++
  put_Z (gm_PermissionsVersion m) ++ put_Z (gm_CreatedAt m) ++ put_Z (gm_UpdatedAt m).

Definition get_group (s : bytes) : option (GroupMeta * bytes) :=
  '(nm, s) ← get_bytes s; '(dn, s) ← get_bytes s; '(d, s) ← get_bytes s; '(sy, s) ← get_bool s;
  '(v1, s) ← get_Z s; '(v2, s) ← get_Z s; '(v3, s) ← get_Z s; '(ca, s) ← get_Z s; '(ua, s) ← get_Z s;
  let m := mkGroupMeta nm dn d sy v1 v2 v3 ca ua in
  if group_meta_ok m then Some (m, s) else None.

#[global] Instance group_codec : JSON GroupMeta := mk_json group_meta_ok put_group get_group.

#[global] Instance group_codec_spec : JSONSpec GroupMeta.
Proof.
  apply mk_json_spec; [done|]. intros m. unfold group_meta_ok. rewrite ?andb_true_iff.
  intros Hv; repeat match type of Hv with _ /\ _ => destruct Hv as [Hv ?] end.
  apply app_nil_reads. unfold put_group, get_group. cbn [json_canon GroupMeta_repr].
  read_fields. destruct m; cbn in *. unfold group_meta_ok. cbn. by rewrite Hv, ?H, ?H0, ?H1, ?H2, ?H3, ?H4, ?H5, ?H6.
Qed.

#[global] Instance group_codec_text : GroupText.
Proof.
  intros d m. cbn. destruct (get_group d) as [[m' [|]]|] eqn:E; [|done..]. intros [= ->].
  unfold get_group in E. repeat (apply bind_Some in E as ([] & _ & E)). cbv zeta in E.
  destruct (group_meta_ok _) eqn:Eok; [|done]. injection E as <- _.
  unfold group_meta_ok in Eok. rewrite !andb_true_iff in Eok. tauto.
Qed.

(** ** The library *)

Definition set_p (f : RuleSet -> RuleSet) (R : Rules) : outcome unit * Rules := (Ok tt, mkRules (f (ru_p R)) (ru_g R)).
Definition set_g (f : RuleSet -> RuleSet) (R : Rules) : outcome unit * Rules := (Ok tt, mkRules (ru_p R) (f (ru_g R))).

Definition load_array (rule : list bytes) (R : Rules) : error + Rules :=
  match rule with
  | s :: r =>
      if bytes_eqb s secP && (length r =? 4)%nat then inr (mkRules ({[r]} ∪ ru_p R) (ru_g R))
      else if bytes_eqb s secG && (length r =? 3)%nat then inr (mkRules (ru_p R) ({[r]} ∪ ru_g R))
      else inl (ESentinel (OtherErr "invalid policy rule size"))
  | [] => inl (ESentinel (OtherErr "invalid policy rule size"))
  end.

#[global] Instance set_casbin : Casbin := {|
  Model := Rules;
  cas_new := mkRules ∅ ∅;
  cas_LoadPolicyArray := load_array;
  cas_LoadPolicy S adapter m s :=
    match adapter (mkRules ∅ ∅) s with
    | (Ok m', s') => (Ok tt, m', s')
    | (Err e, s') => (Err e, m, s')
    | (Crash c, s') => (Crash c, m, s')
    end;
  cas_AddPolicy r := set_p (fun P => {[r]} ∪ P);
  cas_RemovePolicy r := set_p (fun P => P ∖ {[r]});
  cas_AddGroupingPolicy r := set_g (fun G => {[r]} ∪ G);
  cas_RemoveGroupingPolicy r := set_g (fun G => G ∖ {[r]});
  cas_DeleteUser u R := (Ok tt, mkRules (filter (not_at 0 u) (ru_p R)) (filter (not_at 0 u) (ru_g R)));
  cas_RemoveFilteredGroupingPolicy i u := set_g (filter (not_at i u));
  cas_Enforce R sub dom obj act := inr (holds R sub dom obj act);
  cas_GetPolicy R := inr (elements (ru_p R));
  cas_GetGroupingPolicy R := inr (elements (ru_g R));
  cas_GetRolesForUser R user dom :=
    inr (omap (fun r => match r with [u; g; d] => if decide (u = user /\ d = dom) then Some g else None | _ => None end)
           (elements (ru_g R)));
  cas_GetImplicitPermissionsForUser R user :=
    inr (List.filter (fun r => match r with s :: _ => has_role R user s | [] => false end) (elements (ru_p R)));
|}.

Lemma rules_of_set (R : Rules) : rules_of R = R.
Proof. destruct R. unfold rules_of. cbn. by rewrite !list_to_set_elements_L. Qed.

#[global] Instance set_casbin_spec : CasbinSpec.
Proof.
  split; intros; rewrite ?rules_of_set.
  - done.
  - eexists. cbn. rewrite H. cbn. split; [done|]. by rewrite rules_of_set.
  - eexists. cbn. rewrite H. cbn. split; [done|]. by rewrite rules_of_set.
  - exists (mkRules ∅ ∅). split; [by rewrite rules_of_set|]. cbn.
    destruct (adapter _ s) as [[m1|e|c] s']; eauto.
  - eexists. split; [done|]. by rewrite rules_of_set.
  - eexists. split; [done|]. by rewrite rules_of_set.
  - eexists. split; [done|]. by rewrite rules_of_set.
  - eexists. split; [done|]. by rewrite rules_of_set.
  - eexists. split; [done|]. by rewrite rules_of_set.
  - eexists. split; [done|]. by rewrite rules_of_set.
  - done.
  - rewrite rules_of_set in H. eexists. split; [done|]. intros g. rewrite list_elem_of_omap. split.
    + intros (r & Hr%elem_of_elements & E). destruct (flat_g _ H r Hr) as (u & g' & -> & _).
      case_decide as Hd; [|done]. destruct Hd as [-> _]. by injection E as ->.
    + intros Hg. exists [user; g; MembershipDomain]. rewrite elem_of_elements. split; [done|]. by rewrite decide_True.
  - eexists. split; [done|]. intros r.
    rewrite list_elem_of_In, List.filter_In, <-list_elem_of_In, elem_of_elements. destruct r; naive_solver.
Qed.
