(* ===== verification/PdpSpec.v ===== *)
(** * Decisions

    What the queries of the PDP and the PAP return, in terms of the rules of the
    cache: a scan and a check agree ([scan_agrees]), and a permission the actor holds
    implies every permission it grants ([has_closed]). *)

From S2P Require Import Prelude.
From S2P Require Import Bolt.
From S2P Require Import Domain.
From S2P Require Import Rbac.
From S2P Require Import PolicyRepo.
From S2P Require Import Casbin.
From S2P Require Import GroupRepo.
From S2P Require Import Authz.
From S2P Require Import AuthConcrete.
From stdpp Require Import base list gmap strings.
From Stdlib Require Import Ascii ZArith Lia.
Open Scope Z_scope.

#[local] Set Warnings "-register-all".

(** [p] as a grant satisfies the request [q]. *)
Definition grants (p q : Permission) : bool :=
  (bytes_eqb (perm_Domain p) DomainAll || bytes_eqb (perm_Domain q) (perm_Domain p)) &&
  ObjectGrants (perm_Object p) (perm_Object q) && ActionGrants (perm_Action p) (perm_Action q).

(** The rule that grants [p] to [s]. *)
Definition p_rule (s : bytes) (p : Permission) : list bytes := [s; perm_Domain p; perm_Object p; perm_Action p].

Lemma grants_trans p q r : grants p q = true -> grants q r = true -> grants p r = true.
Proof.
  unfold grants. rewrite !andb_true_iff, !orb_true_iff, !ObjectGrants_spec, !ActionGrants_spec.
  unfold bytes_eqb. rewrite !bool_decide_eq_true.
  intros [[Hd Ho] Ha] [[Hd' Ho'] Ha']. split_and!.
  - destruct Hd as [|Hd]; [by left|]. destruct Hd' as [Hd'|Hd']; [left|right]; congruence.
  - destruct Ho as [|Ho]; [by left|]. destruct Ho' as [Ho'|Ho']; [left|right]; congruence.
  - destruct Ha as [|[Ha|[Ha Ha2]]]; [by left| |].
    + rewrite Ha. done.
    + rewrite Ha2 in Ha'. destruct Ha' as [Ha'|[Ha'|[Ha' _]]]; [done| |done]. right. right. by rewrite <-Ha'.
Qed.

Lemma grants_refl p : grants p p = true.
Proof.
  unfold grants. rewrite !andb_true_iff, !orb_true_iff, ObjectGrants_spec, ActionGrants_spec.
  unfold bytes_eqb. rewrite !bool_decide_eq_true. tauto.
Qed.

(** A policy grants [q] to [sub] exactly when one of the roles of [sub] has a rule for it. *)
Lemma holds_spec R sub q :
  holds R sub (perm_Domain q) (perm_Object q) (perm_Action q) = true <->
  exists s p, p_rule s p ∈ ru_p R /\ has_role R sub s = true /\ grants p q = true.
Proof.
  unfold holds. rewrite existsb_exists. split.
  - intros (r & Hr & Hm). apply list_elem_of_In, elem_of_elements in Hr.
    destruct r as [|s [|d [|o [|a [|]]]]]; try done. cbn in Hm.
    exists s, (mkPermission o a d). unfold p_rule, grants. cbn.
    rewrite !andb_true_iff in Hm. rewrite !andb_true_iff. tauto.
  - intros (s & p & Hp & Hs & Hg). exists (p_rule s p). split; [by apply list_elem_of_In, elem_of_elements|].
    cbn. unfold grants in Hg. rewrite !andb_true_iff in Hg. rewrite !andb_true_iff. tauto.
Qed.

Section decisions.
Context `{CasbinSpec}.
Implicit Types (m : Model).

Lemma Has_spec m sub q :
  flat (rules_of m) ->
  PDP.Has false m sub q = true <->
  exists s p, p_rule s p ∈ ru_p (rules_of m) /\ has_role (rules_of m) sub s = true /\ grants p q = true.
Proof.
  intros Hf. unfold PDP.Has, Enforcer.Enforce. rewrite cas_Enforce_law by done. apply holds_spec.
Qed.

Lemma Has_grants m sub p q :
  flat (rules_of m) -> PDP.Has false m sub p = true -> grants p q = true -> PDP.Has false m sub q = true.
Proof.
  intros Hf Hp Hg. apply Has_spec in Hp as (s & p0 & Hr & Hs & Hg0); [|done]. apply Has_spec; [done|].
  exists s, p0. split_and!; [done..|]. by eapply grants_trans.
Qed.

Lemma loop_collect {A B} (f : A -> option B) (g : list B -> A -> list B) l :
  (forall acc x, g acc x = match f x with Some y => acc ++ [y] | None => acc end) ->
  forall acc, foldl g acc l = acc ++ omap f l.
Proof.
  intros Hg. induction l as [|x l IH]; intros acc; cbn [foldl]; [by rewrite app_nil_r|].
  rewrite IH, Hg. cbn. destruct (f x); [by rewrite <-app_assoc|done].
Qed.

(** The domains of a scan. *)
Lemma EffectiveDomains_elem m sub obj act d :
  flat (rules_of m) ->
  exists l, PDP.EffectiveDomains false m sub obj act = NewDomainSet l /\
    (d ∈ l <-> exists s p, p_rule s p ∈ ru_p (rules_of m) /\ has_role (rules_of m) sub s = true /\
       perm_Domain p = d /\ ObjectGrants (perm_Object p) obj = true /\ ActionGrants (perm_Action p) act = true).
Proof.
  intros Hf. unfold PDP.EffectiveDomains, Enforcer.GetImplicitPermissionsForUser.
  destruct (cas_GetImplicitPermissionsForUser_law m sub Hf) as (rules & -> & Hr).
  set (f := fun r : list bytes => if (length r <? pRuleLen)%nat then None
    else if ObjectGrants (col 2 r) obj && ActionGrants (col 3 r) act then Some (col 1 r) else None).
  rewrite (loop_collect f) by (intros acc r; unfold f; by repeat case_match).
  eexists. split; [done|]. cbn [app]. rewrite list_elem_of_omap. split.
  - intros (r & Hin & E). apply Hr in Hin as (Hin & s & Hs & Hrole).
    pose proof (flat_p _ Hf r Hin) as Hl. destruct r as [|x1 [|x2 [|x3 [|x4 [|]]]]]; try done.
    unfold f in E. cbn in E. destruct (ObjectGrants x3 obj) eqn:Eo; [|done].
    destruct (ActionGrants x4 act) eqn:Ea; [|done]. cbn in E. injection E as <-. injection Hs as ->.
    by exists s, (mkPermission x3 x4 x2).
  - intros (s & p & Hin & Hrole & <- & Eo & Ea). exists (p_rule s p). split; [apply Hr; eauto|].
    unfold f. cbn. by rewrite Eo, Ea.
Qed.

(** The domains the catalog allows for namespaces and groups. *)
Definition tagged (d : bytes) : Prop :=
  d = DomainAll \/ has_prefix d NamespaceResourcePrefix = true \/ has_prefix d GroupResourcePrefix = true.

(** A namespace name that does not look like a tagged domain; canonical names have no
    colon at all. *)
Definition bare (name : bytes) : Prop :=
  name <> DomainAll /\ has_prefix name GroupResourcePrefix = false.

Lemma trim_tagged d name :
  tagged d -> bare name -> TrimPrefix d NamespaceResourcePrefix = name -> d <> DomainAll -> d = NamespaceResource name.
Proof.
  intros [->|[Hp|Hp]] [Hn Hg] Ht Hd; [done| |].
  - apply has_prefix_spec in Hp as [t ->]. unfold TrimPrefix in Ht. rewrite has_prefix_app, drop_app_length in Ht.
    subst t. unfold NamespaceResource, bytes_eqb. by rewrite bool_decide_false.
  - apply has_prefix_spec in Hp as [t ->]. unfold TrimPrefix in Ht.
    assert (has_prefix (GroupResourcePrefix ++ t) NamespaceResourcePrefix = false) as E by done.
    rewrite E in Ht. subst name. by rewrite has_prefix_app in Hg.
Qed.

Lemma Contains_effective m sub obj act d :
  flat (rules_of m) ->
  Contains (PDP.EffectiveDomains false m sub obj act) d = PDP.Has false m sub (mkPermission obj act d).
Proof.
  intros Hf. apply eq_true_iff_eq.
  destruct (EffectiveDomains_elem m sub obj act d Hf) as (l & El & Hd).
  destruct (EffectiveDomains_elem m sub obj act DomainAll Hf) as (l' & El' & Hall).
  rewrite El, Contains_NewDomainSet, Has_spec by done. rewrite El in El'.
  assert (Hall' : DomainAll ∈ l <-> DomainAll ∈ l').
  { apply (f_equal ds_Wildcard) in El'. destruct (NewDomainSet_spec l) as [-> _] in El'.
    destruct (NewDomainSet_spec l') as [W _]. rewrite W in El'.
    rewrite <-(bool_decide_eq_true (DomainAll ∈ l)), El'. by rewrite bool_decide_eq_true. }
  rewrite Hall', Hall, Hd. unfold grants. cbn [perm_Domain perm_Object perm_Action].
  setoid_rewrite andb_true_iff. setoid_rewrite andb_true_iff. setoid_rewrite orb_true_iff.
  unfold bytes_eqb. setoid_rewrite bool_decide_eq_true. split.
  - intros [(s & p & ? & ? & ? & ? & ?)|[(s & p & ? & ? & ? & ? & ?) _]]; exists s, p; auto 8.
  - intros (s & p & Hin & Hs & [[Hdom|Hdom] Ho] & Ha).
    + left. exists s, p. auto 8.
    + destruct (decide (d = DomainAll)) as [->|Hne]; [left|right; split; [|done]]; exists s, p; auto 8.
Qed.

Lemma Contains_namespaces m sub act name :
  flat (rules_of m) -> bare name ->
  (forall s p, p_rule s p ∈ ru_p (rules_of m) -> ObjectGrants (perm_Object p) ObjectNamespace = true ->
     tagged (perm_Domain p)) ->
  Contains (PDP.EffectiveNamespaces false m sub act) name = PDP.HasNamespace false m sub name act.
Proof.
  intros Hf Hb Ht. unfold PDP.HasNamespace. rewrite <-Contains_effective by done.
  unfold PDP.EffectiveNamespaces.
  destruct (ds_Wildcard (PDP.EffectiveDomains false m sub ObjectNamespace act)) eqn:Ew.
  { unfold Contains. by rewrite Ew. }
  unfold Contains. rewrite Ew. cbn [ds_Wildcard ds_Explicit]. apply bool_decide_ext. rewrite elem_of_map.
  split.
  - intros (d & -> & Hd). destruct (EffectiveDomains_elem m sub ObjectNamespace act d Hf) as (l & El & Hl).
    pose proof Hd as Hd0. rewrite El in Hd. apply NewDomainSet_spec in Hd as [Hin Hne].
    apply Hl in Hin as (s & p & Hin & _ & <- & Ho & _).
    by rewrite <-(trim_tagged (perm_Domain p) (TrimPrefix (perm_Domain p) NamespaceResourcePrefix)
      (Ht s p Hin Ho) Hb eq_refl Hne).
  - intros Hd. exists (NamespaceResource name). split; [|done]. symmetry. apply TrimPrefix_namespace, Hb.
Qed.
End decisions.

(** C11: A scan and a check agree.  For a policy with flat memberships, a domain is in
    the set EffectiveDomains returns exactly when Has allows the same object and action
    in that domain; and for rules with tagged domains a namespace is in
    EffectiveNamespaces exactly when HasNamespace allows it, so the lists the API shows
    and the gates it enforces never differ. *)
Theorem scan_agrees `{CasbinSpec} m sub :
  flat (rules_of m) ->
  (forall obj act d, Contains (PDP.EffectiveDomains false m sub obj act) d =
                     PDP.Has false m sub (mkPermission obj act d)) /\
  ((forall s p, p_rule s p ∈ ru_p (rules_of m) -> ObjectGrants (perm_Object p) ObjectNamespace = true ->
      tagged (perm_Domain p)) ->
   forall act name, bare name ->
     Contains (PDP.EffectiveNamespaces false m sub act) name = PDP.HasNamespace false m sub name act).
Proof.
  intros Hf. split; [intros; by apply Contains_effective|]. intros Ht act name Hb. by apply Contains_namespaces.
Qed.

(** Two groups, one user in each of them. *)
Definition rules_ab : Rules := mkRules
  {[ [str "group:devs"; str "namespace:prod"; str "namespace"; str "write"];
     [str "group:ops"; str "*"; str "*"; str "*"] ]}
  {[ [str "alice"; str "group:devs"; str "*"]; [str "root"; str "group:ops"; str "*"] ]}.

Lemma rules_ab_flat : flat rules_ab.
Proof.
  split; cbn.
  - intros r. rewrite elem_of_union, !elem_of_singleton. by intros [->| ->].
  - intros r. rewrite elem_of_union, !elem_of_singleton.
    intros [->| ->]; eexists _, _; (split; [done|]); intros r';
      rewrite elem_of_union, !elem_of_singleton; by intros [->| ->].
Qed.

(** A cache with these rules. *)
Definition cache_ab : Model (Casbin:=set_casbin) := rules_ab.

Lemma scan_agrees_witness :
  Contains (PDP.EffectiveNamespaces false cache_ab (str "alice") ActRead) (str "prod") = true /\
  PDP.HasNamespace false cache_ab (str "alice") (str "prod") ActRead = true.
Proof.
  destruct (scan_agrees cache_ab (str "alice")) as [_ H].
  - rewrite (rules_of_set cache_ab). apply rules_ab_flat.
  - assert (E : PDP.HasNamespace false cache_ab (str "alice") (str "prod") ActRead = true)
      by by vm_compute.
    split; [|exact E]. rewrite H; [exact E| |by split].
    rewrite (rules_of_set cache_ab). intros s p. cbn. rewrite elem_of_union, !elem_of_singleton.
    unfold tagged. by intros [[= _ -> _ _]|[= _ -> _ _]]; auto.
Defined.
