(* ===== verification/GroupTrack.v ===== *)
(** * What the group use case does to the policy

    Every callback of the group use case stays in its transaction and records exactly
    the rule changes it makes.  The specifications say which: the rules of a group's
    permissions and memberships, after the checks that guard them. *)

From S2P Require Import Prelude.
From S2P Require Import Bolt.
From S2P Require Import Frame.
From S2P Require Import Domain.
From S2P Require Import Manager.
From S2P Require Import Repository.
From S2P Require Import Util.
From S2P Require Import Rbac.
From S2P Require Import PolicyRepo.
From S2P Require Import Casbin.
From S2P Require Import PolicySync.
From S2P Require Import GroupRepo.
From S2P Require Import Authz.
From S2P Require Import GroupService.
From S2P Require Import PdpSpec.
From stdpp Require Import base list gmap strings.
From Stdlib Require Import Ascii ZArith Lia.
Open Scope Z_scope.

#[local] Set Warnings "-register-all".

(** Follows the structure of a call of another bucket. *)
Ltac keep :=
  lazymatch goal with
  | |- keeps _ (mbind _ _) => apply keeps_bind; [keep|intros; cbv beta zeta; keep]
  | |- keeps _ (match ?x with _ => _ end) => destruct x; keep
  | |- keeps _ (let _ := _ in _) => cbv zeta; keep
  | |- keeps _ (wrapA _ _ _) => apply keeps_wrap; keep
  | |- keeps _ (mapErrA _ _) => apply keeps_mapErr; keep
  | |- keeps _ (attemptA _) => apply keeps_attempt; keep
  | |- keeps _ _ => auto with tracked
  | |- _ => idtac
  end.

(** Follows the structure of a callback. *)
Ltac confineT :=
  lazymatch goal with
  | |- confinedT _ (mbind _ _) => apply confinedT_bind; [confineT|intros; cbv beta zeta; confineT]
  | |- confinedT _ (match ?x with _ => _ end) => destruct x; confineT
  | |- confinedT _ (let _ := _ in _) => cbv zeta; confineT
  | |- confinedT _ (wrapTx _ _ _) => apply confinedT_wrap; confineT
  | |- confinedT _ (liftTx _) => apply confinedT_lift; match goal with |- confined _ ?h ?c => cut (keeps h c); [intros [? _]; done|keep] end
  | |- confinedT _ _ => auto with tracked
  | |- _ => idtac
  end.

Section track.
Context `{BoltSpec} `{Disk} `{!JSON (list bytes)} `{!JSONSpec (list bytes)} `{CasbinSpec}.
Context `{Clock} `{!JSON GroupMeta} `{!GroupText} `{GoSort} `{UnicodeLower}.
Context (h : nat) (ctx : Context_) (Hc : ctx_tx ctx = Some h).
Implicit Types (m : Model) (v : View).

(** ** Calls that do not touch the rules *)

Lemma keeps_group_Get name : keeps h (GroupRepo.Get ctx name).
Proof. by eapply keeps_GetQuerier, (stays_getGroup bucketGroups). Qed.

Lemma keeps_group_Create g : keeps h (GroupRepo.Create ctx g).
Proof. by eapply keeps_GetQuerier, stays_createGroup. Qed.

Lemma keeps_group_Update g : keeps h (GroupRepo.Update ctx g).
Proof. by eapply keeps_GetQuerier, stays_updateGroup. Qed.

Lemma keeps_group_Delete name : keeps h (GroupRepo.Delete ctx name).
Proof. by eapply keeps_GetQuerier, stays_deleteGroup. Qed.

#[local] Hint Resolve keeps_group_Get keeps_group_Create keeps_group_Update keeps_group_Delete : tracked.

Lemma keeps_loadMutable name : keeps h (GroupService.loadMutableGroup ctx name).
Proof. unfold GroupService.loadMutableGroup. keep. Qed.

Lemma keeps_resolveGroups names : keeps h (Scope.resolveGroups ctx names).
Proof. induction names; cbn; keep. Qed.

#[local] Hint Resolve keeps_resolveGroups : tracked.

Lemma keeps_inScope m actor target act : keeps h (Scope.inScope false m ctx actor target act).
Proof. unfold Scope.inScope, Scope.targetInGroupScope, Scope.resolveTargetGroups. keep. Qed.

#[local] Hint Resolve keeps_inScope : tracked.

Lemma keeps_visible m actor l out : keeps h (Scope.visible false m ctx actor l out).
Proof. revert out. induction l; intros out; cbn; keep. Qed.

#[local] Hint Resolve keeps_visible : tracked.

Lemma keeps_filter m actor l : keeps h (GroupService.filterVisibleMembers false m ctx actor l).
Proof. unfold GroupService.filterVisibleMembers, Scope.FilterVisibleUsers. keep. Qed.

Lemma keeps_managers m actor initial names : keeps h (GroupService.managers false m ctx actor initial names).
Proof. induction names; cbn; keep. Qed.

#[local] Hint Resolve keeps_managers : tracked.

Lemma keeps_authorize m actor data : keeps h (GroupService.authorizeCreate false m ctx actor data).
Proof. unfold GroupService.authorizeCreate. keep. Qed.

Lemma keeps_persist data : keeps h (GroupService.persistEntity ctx data).
Proof. unfold GroupService.persistEntity. keep. Qed.

#[local] Hint Resolve keeps_loadMutable keeps_filter keeps_authorize keeps_persist : tracked.

(** ** Staying inside the transaction *)

Lemma confined_each {A} (f : A -> TxE unit) l : (forall x, confinedT h (f x)) -> confinedT h (PAPTx.each f l).
Proof. intros Hf. induction l; cbn; confineT. Qed.

Lemma confined_permDeltas name added removed : confinedT h (PAPTx.ApplyPermissionDeltas ctx name added removed).
Proof. unfold PAPTx.ApplyPermissionDeltas. confineT; apply confined_each; intros; confineT. Qed.

Lemma confined_memberDeltas name added removed : confinedT h (PAPTx.ApplyMemberDeltas ctx name added removed).
Proof. unfold PAPTx.ApplyMemberDeltas. confineT; apply confined_each; intros; confineT. Qed.

Lemma confined_groupPerms name : confinedT h (PAPTx.GroupPermissions ctx name).
Proof. unfold PAPTx.GroupPermissions. confineT. Qed.

#[local] Hint Resolve confined_permDeltas confined_memberDeltas confined_groupPerms : tracked.

Lemma confined_delete name : confinedT h (GroupService.deleteCallback name ctx).
Proof. unfold GroupService.deleteCallback, PAPTx.DeleteGroup. confineT. Qed.

Lemma confined_update data : confinedT h (GroupService.updateCallback data ctx).
Proof. unfold GroupService.updateCallback. confineT. Qed.

Lemma confined_updateMembers m actor data : confinedT h (GroupService.updateMembersCallback false m actor data ctx).
Proof. unfold GroupService.updateMembersCallback, GroupService.commitMemberDelta. confineT. Qed.

Lemma confined_updatePermissions m actor data :
  confinedT h (GroupService.updatePermissionsCallback false m actor data ctx).
Proof. unfold GroupService.updatePermissionsCallback, GroupService.commitPermissionDelta. confineT. Qed.

Lemma confined_create m actor data : confinedT h (GroupService.createCallback false m actor data ctx).
Proof.
  unfold GroupService.createCallback, GroupService.applyInitialPermissions, GroupService.applyInitialMembers,
    GroupService.wireInitialManagers. confineT. apply confined_each. intros. confineT.
Qed.

(** ** The rules a callback changes *)

(** The stored record of a group. *)
Definition group_row (v : View) (name : bytes) : option GroupMeta :=
  v !! (bucketGroups, name) ≫= fun d => match json_Unmarshal d with inr g => Some g | inl _ => None end.

Lemma group_Get_returns name :
  returns_in h (GroupRepo.Get ctx name) (fun v g => GroupMetaToDomain <$> group_row v name = Some g).
Proof.
  intros w db g w' Hh E. apply (GetQuerier_state h ctx _ w db) in E as (s & E & _); [|done..].
  unfold getGroupTx, mbind, TxM_bind, attempt in E. rewrite Get_eval in E. cbn [ts_db] in E. unfold group_row.
  destruct (view db !! (bucketGroups, name)) as [d|]; cbn in *; [|done]. unfold bbolt.JSONCodec_Unmarshal in E.
  destruct (json_Unmarshal d) as [e|g']; cbn in *; [by destruct (errors_Is _ _)|]. by injection E as <- _.
Qed.

Lemma group_Update_returns g : returns (GroupRepo.Update ctx g) (fun g' => gr_Name g' = gr_Name g).
Proof.
  intros w g' w'. unfold GroupRepo.Update, GetQuerier.
  assert (Hq : forall q s s', updateGroupTx g q s = (Ok g', s') -> gr_Name g' = gr_Name g).
  { intros q s s'. unfold updateGroupTx. rewrite bind_Ok. intros (r & s1 & _ & E).
    destruct r as [e|x]; [by destruct (errors_Is _ _)|].
    rewrite (bind_eval _ _ _ _ _ _ (Now_eval q s1)), bind_Ok in E. destruct E as (u & s2 & _ & [-> _]%ret_Ok). done. }
  destruct (TxFromContext ctx); [destruct (w_txs w !! _) as [tx|]; [destruct (is_open tx)|]|]; try done;
    destruct (updateGroupTx g _ _) as [r s] eqn:E; intros [= -> _]; eauto.
Qed.

Lemma group_Create_returns g : returns (GroupRepo.Create ctx g) (fun g' => gr_Name g' = gr_Name g).
Proof.
  intros w g' w'. unfold GroupRepo.Create, GetQuerier.
  assert (Hq : forall q s s', createGroupTx g q s = (Ok g', s') -> gr_Name g' = gr_Name g).
  { intros q s s'. unfold createGroupTx. rewrite (bind_eval _ _ _ _ _ _ (Exists_eval _ _ q s)).
    case_bool_decide; [done|]. rewrite (bind_eval _ _ _ _ _ _ (Now_eval q s)), bind_Ok.
    intros (u & s1 & _ & [-> _]%ret_Ok). by destruct (_ =? 0). }
  destruct (TxFromContext ctx); [destruct (w_txs w !! _) as [tx|]; [destruct (is_open tx)|]|]; try done;
    destruct (createGroupTx g _ _) as [r s] eqn:E; intros [= -> _]; eauto.
Qed.

Lemma returns_in_bind {A B} (c : App A) (f : A -> App B) (P : View -> A -> Prop) (Q : View -> B -> Prop) :
  returns_in h c P -> (forall v a, P v a -> returns (f a) (Q v)) -> returns_in h (c ≫= f) Q.
Proof. intros Hr Hf w db b w' Hh (a & w1 & Ha & Hb)%appbind_Ok. eapply Hf; [by eapply Hr|done]. Qed.

Lemma returns_in_mapErr {A} (f : error -> error) (c : App A) (P : View -> A -> Prop) : returns_in h c P -> returns_in h (mapErrA f c) P.
Proof. intros Hr w db a w' Hh E%mapErrA_Ok. by eapply Hr. Qed.

Lemma returns_mapErr {A} (f : error -> error) (c : App A) (P : A -> Prop) : returns c P -> returns (mapErrA f c) P.
Proof. intros Hr w a w' E%mapErrA_Ok. by eapply Hr. Qed.

Lemma returns_liftO {A} (r : outcome A) (P : A -> Prop) : (forall a, r = Ok a -> P a) -> returns (liftO r) P.
Proof. intros HP w a w' [= E _]. auto. Qed.

Lemma returns_mono {A} (c : App A) (P P' : A -> Prop) : returns c P -> (forall a, P a -> P' a) -> returns c P'.
Proof. intros Hr HP w a w' E. by eapply HP, Hr. Qed.

Lemma loadMutable_returns name :
  returns_in h (GroupService.loadMutableGroup ctx name)
    (fun v g => gr_System g = false /\ GroupMetaToDomain <$> group_row v name = Some g).
Proof.
  unfold GroupService.loadMutableGroup. eapply returns_in_bind; [apply returns_in_mapErr, group_Get_returns|].
  intros v g Hg. eapply returns_bind; [apply (returns_liftO _ (fun _ => gr_System g = false))|].
  - intros []. unfold EnsureMutable. by destruct (gr_System g).
  - intros [] Hs. by apply returns_ret.
Qed.

Lemma tracked_each {A} (f : A -> TxE unit) (o : A -> op) l :
  (forall x, x ∈ l -> tracked h (f x) (fun _ _ n => n = [o x])) ->
  tracked h (PAPTx.each f l) (fun _ _ n => n = o <$> l).
Proof.
  intros Hf. induction l as [|x l IH]; cbn; [by apply tracked_ret|].
  eapply tracked_bind; [apply Hf; set_solver|]. intros v [] n1 ->.
  eapply tracked_mono; [apply IH; set_solver|]. by intros v' [] n -> _.
Qed.

Definition perm_text (p : Permission) : Prop :=
  utf8_valid (perm_Domain p) = true /\ utf8_valid (perm_Object p) = true /\ utf8_valid (perm_Action p) = true.

Definition member_rule (subject u : bytes) : list bytes := [u; subject; MembershipDomain].

(** Removals come first. *)
Definition perm_ops (subject : bytes) (added removed : list Permission) : list op :=
  ((fun p => opRemoveP (p_rule subject p)) <$> removed) ++ ((fun p => opAddP (p_rule subject p)) <$> added).

Definition member_ops (subject : bytes) (added removed : list bytes) : list op :=
  ((fun u => opRemoveG (member_rule subject u)) <$> removed) ++ ((fun u => opAddG (member_rule subject u)) <$> added).

Lemma GroupResource_text name : utf8_valid name = true -> utf8_valid (GroupResource name) = true.
Proof. intros Hn. unfold GroupResource. by destruct (bytes_eqb name DomainAll). Qed.

Lemma p_rule_wf s p : utf8_valid s = true -> perm_text p -> length (p_rule s p) = 4%nat /\ rule_wf (p_rule s p).
Proof. intros Hs (Hd & Ho & Ha). split; [done|]. unfold rule_wf. cbn. by rewrite Hs, Hd, Ho, Ha. Qed.

Lemma member_rule_wf s u : utf8_valid s = true -> utf8_valid u = true ->
  length (member_rule s u) = 3%nat /\ rule_wf (member_rule s u).
Proof. intros Hs Hu. split; [done|]. unfold rule_wf. cbn. by rewrite Hu, Hs. Qed.

Lemma tracked_permDeltas name added removed :
  utf8_valid name = true -> Forall perm_text added -> Forall perm_text removed ->
  tracked h (PAPTx.ApplyPermissionDeltas ctx name added removed)
    (fun _ _ n => n = perm_ops (GroupResource name) added removed).
Proof.
  intros Hn Ha Hr. rewrite Forall_forall in Ha. rewrite Forall_forall in Hr. unfold PAPTx.ApplyPermissionDeltas.
  eapply tracked_bind; [apply (tracked_each _ (fun p => opRemoveP (p_rule (GroupResource name) p)))|].
  - intros p Hp. apply tracked_wrap, tracked_RemovePolicy; [done| |done].
    apply p_rule_wf; [by apply GroupResource_text|auto].
  - intros v [] n1 ->. eapply tracked_mono; [apply (tracked_each _ (fun p => opAddP (p_rule (GroupResource name) p)))|].
    + intros p Hp. apply tracked_wrap, tracked_AddPolicy; [done| |done].
      apply p_rule_wf; [by apply GroupResource_text|auto].
    + by intros v' [] n -> _.
Qed.

Lemma tracked_memberDeltas name added removed :
  utf8_valid name = true -> Forall (fun u => utf8_valid u = true) added ->
  Forall (fun u => utf8_valid u = true) removed ->
  tracked h (PAPTx.ApplyMemberDeltas ctx name added removed)
    (fun _ _ n => n = member_ops (GroupResource name) added removed).
Proof.
  intros Hn Ha Hr. rewrite Forall_forall in Ha. rewrite Forall_forall in Hr. unfold PAPTx.ApplyMemberDeltas.
  eapply tracked_bind; [apply (tracked_each _ (fun u => opRemoveG (member_rule (GroupResource name) u)))|].
  - intros u Hu. apply tracked_wrap, tracked_RemoveRoleForUser; [done| |done].
    apply member_rule_wf; [by apply GroupResource_text|auto].
  - intros v [] n1 ->. eapply tracked_mono; [apply (tracked_each _ (fun u => opAddG (member_rule (GroupResource name) u)))|].
    + intros u Hu. apply tracked_wrap, tracked_AddRoleForUser; [done| |done].
      apply member_rule_wf; [by apply GroupResource_text|auto].
    + by intros v' [] n -> _.
Qed.

(** *** The callbacks *)

Lemma row_text v name g : group_row v name = Some g -> utf8_valid (gm_Name g) = true.
Proof.
  unfold group_row. destruct (v !! _) as [d|]; [|done]. cbn. destruct (json_Unmarshal d) eqn:E; [done|].
  intros [= <-]. by eapply group_text.
Qed.

Lemma tracked_quiet {A} (c : App A) : keeps h c -> tracked h (liftTx c) (fun _ _ n => n = []).
Proof. intros Hk. apply (tracked_lift h c (fun _ _ => True)); [done|done|done]. Qed.

Lemma tracked_returns {A} (c : App A) (P : A -> Prop) :
  keeps h c -> returns c P -> tracked h (liftTx c) (fun _ a n => P a /\ n = []).
Proof. intros Hk Hr. apply (tracked_lift h c (fun _ => P)); [done|by apply returns_in_any|done]. Qed.

Lemma tracked_loadMutable name :
  tracked h (liftTx (GroupService.loadMutableGroup ctx name))
    (fun v g n => n = [] /\ exists r, group_row v name = Some r /\ g = GroupMetaToDomain r /\ gm_System r = false /\
                    utf8_valid (gm_Name r) = true).
Proof.
  eapply tracked_lift; [apply keeps_loadMutable|apply loadMutable_returns|]. intros v g [Hs Hg]. split; [done|].
  destruct (group_row v name) as [r|] eqn:Er; [|done]. injection Hg as <-. exists r.
  split_and!; try done. by eapply row_text.
Qed.

(** A step without rules, then a step whose specification does not look at the view. *)
Lemma tracked_after {A B} (c : App A) (f : A -> TxE B) (P : A -> Prop) (Q : B -> list op -> Prop) :
  keeps h c -> returns c P -> (forall a, P a -> tracked h (f a) (fun _ b n => Q b n)) ->
  tracked h (a ← liftTx c; f a) (fun _ b n => Q b n).
Proof.
  intros Hk Hr Hf. eapply tracked_bind; [by apply tracked_returns|]. intros v a n1 [HP ->].
  eapply tracked_mono; [by apply Hf|]. by intros v' b n HQ _.
Qed.

Lemma tracked_delete name :
  tracked h (GroupService.deleteCallback name ctx)
    (fun v _ n => exists r, group_row v name = Some r /\ gm_System r = false /\
                    n = [opDeleteUser (GroupResource (gm_Name r))]).
Proof.
  unfold GroupService.deleteCallback. eapply tracked_bind; [apply tracked_loadMutable|].
  intros v g n1 (-> & r & Hr & -> & Hs & Hw). cbn [gr_Name GroupMetaToDomain app].
  eapply tracked_bind.
  { apply tracked_wrap. unfold PAPTx.DeleteGroup. apply tracked_wrap.
    apply (tracked_DeleteUser h ctx Hc _ (fun _ _ n => n = [opDeleteUser (GroupResource (gm_Name r))])); [|done].
    split; [|by apply GroupResource_text]. unfold GroupResource. by destruct (bytes_eqb _ _). }
  intros v1 [] n2 ->. eapply tracked_mono; [apply tracked_quiet, keeps_wrap; auto with tracked|].
  intros v2 [] n3 -> _ _. exists r. by rewrite app_nil_r.
Qed.

Lemma tracked_update data :
  tracked h (GroupService.updateCallback data ctx) (fun _ _ n => n = []).
Proof.
  unfold GroupService.updateCallback. eapply tracked_bind; [apply tracked_loadMutable|].
  intros v g n1 (-> & _). cbn [app]. eapply tracked_mono; [|by intros v' b n HQ _; exact HQ].
  eapply tracked_after; [auto with tracked|apply returns_any|]. intros [] _.
  eapply tracked_after; [auto with tracked|apply returns_any|]. intros now _. cbv zeta.
  apply tracked_quiet, keeps_wrap. auto with tracked.
Qed.

(** The group is stored again with a new time. *)
Lemma tracked_touch fmt (f : Z -> Group) (name : bytes) :
  (forall now, gr_Name (f now) = name) ->
  tracked h (now ← liftTx NowA; liftTx (wrapA fmt [] (GroupRepo.Update ctx (f now))))
    (fun _ g n => gr_Name g = name /\ n = []).
Proof.
  intros Hf. eapply tracked_after; [auto with tracked|apply returns_any|]. intros now _.
  apply (tracked_returns _ (fun g => gr_Name g = name)); [apply keeps_wrap; auto with tracked|].
  apply returns_wrap. rewrite <-(Hf now). apply group_Update_returns.
Qed.

(** What the checks of UpdateMembers ensure. *)
Definition members_spec (m : Model) (actor : bytes) (data : UpdateMembersData) (name : bytes) (n : list op) : Prop :=
  let current := SliceUtil.ToSet (PAP.GroupMembers m name) in
  let added := SliceUtil.NotIn (um_AddEmails data) current in
  let removed := SliceUtil.In (um_RemoveEmails data) current in
  n = member_ops (GroupResource name) added removed /\
  (added <> [] -> forallb (PDP.Has false m actor) (PAP.GroupPermissions m name) = true).

Lemma Forall_NotIn {A} `{Countable A} (P : A -> Prop) l X : Forall P l -> Forall P (SliceUtil.NotIn l X).
Proof.
  unfold SliceUtil.NotIn. assert (Hg : forall acc : list A, Forall P acc -> Forall P l ->
    Forall P (foldl (fun out y => if bool_decide (y ∈ X) then out else out ++ [y]) acc l)).
  { induction l as [|x l IH]; intros acc Ha Hl; cbn; [done|]. inversion Hl; subst. apply IH; [|done].
    case_bool_decide; [done|]. by apply Forall_app; rewrite Forall_singleton. }
  by apply Hg.
Qed.

Lemma Forall_In {A} `{Countable A} (P : A -> Prop) l X : Forall P l -> Forall P (SliceUtil.In l X).
Proof.
  unfold SliceUtil.In. assert (Hg : forall acc : list A, Forall P acc -> Forall P l ->
    Forall P (foldl (fun out y => if bool_decide (y ∈ X) then out ++ [y] else out) acc l)).
  { induction l as [|x l IH]; intros acc Ha Hl; cbn; [done|]. inversion Hl; subst. apply IH; [|done].
    case_bool_decide; [|done]. by apply Forall_app; rewrite Forall_singleton. }
  by apply Hg.
Qed.

Lemma tracked_updateMembers m actor data :
  Forall (fun u => utf8_valid u = true) (um_AddEmails data) ->
  Forall (fun u => utf8_valid u = true) (um_RemoveEmails data) ->
  tracked h (GroupService.updateMembersCallback false m actor data ctx)
    (fun v res n => exists r, group_row v (um_GroupName data) = Some r /\
       gr_Name (umr_Group res) = gm_Name r /\ members_spec m actor data (gm_Name r) n).
Proof.
  intros Ha Hr. unfold GroupService.updateMembersCallback.
  eapply tracked_bind; [apply tracked_loadMutable|]. intros v g n1 (-> & r & Hrow & -> & _ & Hw).
  cbn [app gr_Name GroupMetaToDomain].
  eapply tracked_mono; [|intros v' res n HQ _; exists r; split; [exact Hrow|exact HQ]].
  eapply tracked_after; [auto with tracked|apply returns_any|]. intros [] _. cbv zeta.
  set (X := SliceUtil.ToSet (PAP.GroupMembers m (gm_Name r))).
  set (added := SliceUtil.NotIn (um_AddEmails data) X). set (removed := SliceUtil.In (um_RemoveEmails data) X).
  assert (Hwa : Forall (fun u => utf8_valid u = true) added) by by apply Forall_NotIn.
  assert (Hwr : Forall (fun u => utf8_valid u = true) removed) by by apply Forall_In.
  eapply (tracked_after _ _ (fun _ => added <> [] ->
    forallb (PDP.Has false m actor) (PAP.GroupPermissions m (gm_Name r)) = true)).
  { destruct (0 <? length added)%nat; auto with tracked. }
  { destruct added as [|x l]; cbn [length]; [by apply returns_ret|].
    change (0 <? S (length l))%nat with true. cbv iota. apply returns_liftO. intros [] E _.
    unfold Scope.RequireMembershipGrant in E. by destruct (forallb _ _). }
  intros [] Hgrant. destruct ((length added =? 0)%nat && (length removed =? 0)%nat) eqn:Ez.
  - eapply tracked_after; [apply keeps_filter|apply returns_any|]. intros vis _. apply tracked_ret. intros v'.
    split; [done|]. split; [|exact Hgrant]. cbv zeta. fold X added removed.
    apply andb_true_iff in Ez as [E1%Nat.eqb_eq%nil_length_inv E2%Nat.eqb_eq%nil_length_inv]. by rewrite E1, E2.
  - eapply tracked_bind.
    { instantiate (1 := fun _ g n => gr_Name g = gm_Name r /\
        n = member_ops (GroupResource (gm_Name r)) added removed).
      unfold GroupService.commitMemberDelta. eapply tracked_bind.
      { apply tracked_wrap. by apply tracked_memberDeltas. }
      intros v' [] n1 ->. cbv zeta. eapply tracked_mono.
      { by apply (tracked_touch _ _ (gm_Name r)). }
      intros v2 g n2 [Hg ->] _. split; [exact Hg|by rewrite app_nil_r]. }
    intros v' g n1 [Hg ->]. cbv zeta. eapply tracked_mono.
    { eapply (tracked_after _ _ (fun _ => True) (fun res n => gr_Name (umr_Group res) = gm_Name r /\ n = []));
        [apply keeps_filter|done|]. intros vis _. by apply tracked_ret. }
    intros v2 res n2 [Hn ->] _. split; [exact Hn|]. rewrite app_nil_r. by split.
Qed.

(** [perms] are the permissions of the stored p-rules of a group. *)
Definition lists_perms (v : View) (name : bytes) (perms : list Permission) : Prop := forall p,
  p ∈ perms <-> exists r, r ∈ ru_p (disk_rules v) /\ r !! 0%nat = Some (GroupResource name) /\ p = rule_permission r.

Lemma tracked_groupPerms (name : bytes) :
  tracked h (PAPTx.GroupPermissions ctx name) (fun v perms n => n = [] /\ lists_perms v name perms).
Proof.
  unfold PAPTx.GroupPermissions. eapply tracked_bind.
  { apply tracked_wrap. apply (tracked_GetPermissions h ctx Hc _ (fun v rules n => n = [] /\
      forall r, r ∈ rules <-> r ∈ ru_p (disk_rules v) /\ r !! 0%nat = Some (GroupResource name))).
    intros v rules Hr. split; [done|]. exact Hr. }
  intros v rules n1 [-> Hr]. destruct (forallb _ rules) eqn:Ef; [|apply tracked_crash].
  apply tracked_ret. intros v' _. split; [done|]. intros p. rewrite list_elem_of_fmap. setoid_rewrite Hr.
  split; [intros (r & -> & ? & ?)|intros (r & ? & ? & ->)]; eauto.
Qed.

Definition perms_held (m : Model) (actor : bytes) (l : list Permission) : Prop :=
  forall p, p ∈ l -> PDP.Has false m actor p = true.

Lemma perms_held_forallb m actor l : forallb (PDP.Has false m actor) l = true -> perms_held m actor l.
Proof. rewrite forallb_forall. intros Hf p Hp%list_elem_of_In. auto. Qed.

(** What the checks of UpdatePermissions ensure. *)
Definition perms_spec m (actor : bytes) (data : UpdatePermissionsData) (name : bytes)
    (current : list Permission) (n : list op) : Prop :=
  let added := SliceUtil.NotIn (up_Add data) (SliceUtil.ToSet current) in
  let removed := SliceUtil.In (up_Remove data) (SliceUtil.ToSet current) in
  n = perm_ops (GroupResource name) added removed /\ perms_held m actor added /\
  (n <> [] -> PAP.GroupMembers m name <> [] -> perms_held m actor (SliceUtil.ComposePost current added removed)).

Lemma tracked_updatePermissions m actor data :
  Forall perm_text (up_Add data) -> Forall perm_text (up_Remove data) ->
  tracked h (GroupService.updatePermissionsCallback false m actor data ctx)
    (fun v res n => exists r current, group_row v (up_GroupName data) = Some r /\
       lists_perms v (gm_Name r) current /\
       gr_Name (upr_Group res) = gm_Name r /\ perms_spec m actor data (gm_Name r) current n).
Proof.
  intros Ha Hr. unfold GroupService.updatePermissionsCallback.
  eapply tracked_bind; [apply tracked_loadMutable|]. intros v g n1 (-> & r & Hrow & -> & _ & Hw).
  cbn [app gr_Name GroupMetaToDomain].
  set (Post := fun (v : View) res n => exists current, lists_perms v (gm_Name r) current /\
    gr_Name (upr_Group res) = gm_Name r /\ perms_spec m actor data (gm_Name r) current n).
  assert (Hpost : forall v v' res n, disk_rules v' = disk_rules v -> Post v' res n -> Post v res n).
  { intros v0 v0' res n Hd (current & Hl & HQ). exists current. split; [|exact HQ].
    intros p. rewrite <-Hd. apply Hl. }
  apply (tracked_mono _ _ (fun v' res n => Post v' res n)); [|intros v' res n HQ Hd;
    destruct (Hpost v v' res n Hd HQ) as (current & ? & ? & ?); exists r, current; auto].
  eapply tracked_bind; [apply tracked_quiet; auto with tracked|]. intros v0 [] n0 ->. cbv zeta. cbn [app].
  apply (tracked_mono _ _ (fun v' res n => Post v' res n)); [|intros v' res n HQ Hd; by apply (Hpost v0 v')].
  eapply tracked_bind; [apply tracked_wrap, tracked_groupPerms|]. intros v1 current n1 [-> Hl]. cbn [app].
  apply (tracked_mono _ _ (fun _ res n => gr_Name (upr_Group res) = gm_Name r /\
    perms_spec m actor data (gm_Name r) current n)); [|intros v' res n HQ _; by exists current].
  clear Post Hpost.
  set (X := SliceUtil.ToSet current).
  set (added := SliceUtil.NotIn (up_Add data) X). set (removed := SliceUtil.In (up_Remove data) X).
  assert (Hwa : Forall perm_text added) by by apply Forall_NotIn.
  assert (Hwr : Forall perm_text removed) by by apply Forall_In.
  eapply (tracked_after _ _ (fun _ => perms_held m actor added)); [auto with tracked| |].
  { apply returns_liftO. intros [] E. unfold GroupService.boundaryCheckPerms in E.
    destruct (forallb _ _) eqn:Ef; [by apply perms_held_forallb|done]. }
  intros [] Hheld. destruct (length added + length removed =? 0)%nat eqn:Ez.
  - apply tracked_ret. intros _. split; [done|]. unfold perms_spec. fold X added removed.
    apply Nat.eqb_eq, Nat.eq_add_0 in Ez as [E1%nil_length_inv E2%nil_length_inv]. rewrite E1, E2. split; [done|]. 
    split; [set_solver|done].
  - eapply (tracked_after _ _ (fun _ => PAP.GroupMembers m (gm_Name r) <> [] ->
      perms_held m actor (SliceUtil.ComposePost current added removed))); [auto with tracked| |].
    { apply returns_liftO. intros [] E Hne. unfold GroupService.cascadeCheckPerms in E.
      destruct (PAP.GroupMembers m (gm_Name r)); [done|]. cbn [length] in E.
      change (S _ =? 0)%nat with false in E. destruct (forallb _ _) eqn:Ef; [by apply perms_held_forallb|done]. }
    intros [] Hpost. eapply tracked_bind.
    { unfold GroupService.commitPermissionDelta. eapply tracked_bind.
      { apply tracked_wrap. by apply tracked_permDeltas. }
      intros v' [] n1 ->. cbv zeta. eapply tracked_mono.
      { by apply (tracked_touch _ _ (gm_Name r)). }
      intros v2 g n2 [Hg ->] _. rewrite app_nil_r.
      instantiate (1 := fun _ g n => gr_Name g = gm_Name r /\
        n = perm_ops (GroupResource (gm_Name r)) added removed). by split. }
    intros v' g n1 [Hg ->]. apply tracked_ret. intros v2 _. rewrite app_nil_r. split; [exact Hg|].
    unfold perms_spec. fold X added removed. split; [done|]. split; [exact Hheld|]. intros _. exact Hpost.
Qed.

(** *** Create *)

Lemma group_Get_text name : returns (GroupRepo.Get ctx name) (fun g => utf8_valid (gr_Name g) = true).
Proof.
  intros w g w'. unfold GroupRepo.Get, GetQuerier.
  assert (Hq : forall q s s', getGroupTx name q s = (Ok g, s') -> utf8_valid (gr_Name g) = true).
  { intros q s s'. unfold getGroupTx, mbind, TxM_bind, attempt. rewrite Get_eval.
    destruct (view (ts_db s) !! (bucketGroups, name)) as [d|]; [|by destruct q].
    cbn. unfold bbolt.JSONCodec_Unmarshal. destruct (json_Unmarshal d) as [e|m] eqn:Ed; cbn.
    - by destruct (errors_Is _ _).
    - intros [= <- _]. by eapply group_text. }
  destruct (TxFromContext ctx); [destruct (w_txs w !! _) as [tx|]; [destruct (is_open tx)|]|]; try done;
    destruct (getGroupTx name _ _) as [r s] eqn:E; intros [= -> _]; eauto.
Qed.

(** What a manager group was checked for. *)
Definition manages (m : Model) (actor : bytes) (initial : list Permission) (names : list bytes) (g : Group) : Prop :=
  utf8_valid (gr_Name g) = true /\ (forall p, p ∈ initial -> PDP.HasForGroup false m (gr_Name g) p = true) /\
  exists name, name ∈ names /\ PDP.HasGroup false m actor name ActWrite = true.

Lemma managers_returns m actor initial names :
  returns (GroupService.managers false m ctx actor initial names) (Forall (manages m actor initial names)).
Proof.
  induction names as [|name names IH]; cbn [GroupService.managers]; [by apply returns_ret|].
  destruct (PDP.HasGroup false m actor name ActWrite) eqn:Eg; [|done]. cbn [negb].
  eapply returns_bind; [apply returns_mapErr, group_Get_text|]. intros mg Ht.
  destruct (forallb _ initial) eqn:Ef; [|done]. cbn [negb].
  eapply returns_bind; [exact IH|]. intros rest Hrest. apply returns_ret. constructor.
  - split; [done|]. split; [|exists name; split; [set_solver|done]].
    rewrite forallb_forall in Ef. intros p Hp%list_elem_of_In. by apply Ef.
  - eapply Forall_impl; [exact Hrest|]. intros g (? & ? & nm & ? & ?). split_and!; try done. exists nm. set_solver.
Qed.

Lemma authorize_returns m actor data :
  returns (GroupService.authorizeCreate false m ctx actor data) (fun mgs =>
    perms_held m actor (cd_InitialPermissions data) /\
    Forall (manages m actor (cd_InitialPermissions data) (cd_InitialManagerGroupNames data)) mgs).
Proof.
  unfold GroupService.authorizeCreate. destruct (forallb _ _) eqn:Ef; [|done]. cbn [negb].
  eapply returns_mono; [apply managers_returns|]. intros mgs Hm. split; [by apply perms_held_forallb|done].
Qed.

Lemma persist_returns data :
  returns (GroupService.persistEntity ctx data) (fun g => gr_Name g = cd_Name data /\ cd_Name data <> DomainAll).
Proof.
  unfold GroupService.persistEntity. eapply returns_bind; [apply returns_any|]. intros r _.
  eapply returns_bind; [apply returns_any|]. intros [] _. eapply returns_bind; [apply returns_any|]. intros now _.
  cbv zeta. eapply (returns_bind _ _ (fun _ => cd_Name data <> DomainAll)).
  { apply returns_liftO. intros [] E Hn. unfold Group_Validate in E. cbn [gr_Name] in E. by rewrite Hn in E. }
  intros [] Hn. apply returns_mapErr. eapply returns_mono; [apply group_Create_returns|]. by intros g ->.
Qed.

(** The permission of a manager group on the group it manages. *)
Definition manager_grant (name : bytes) : Permission := mkPermission ObjectGroup ActWrite (GroupResource name).

(** What Create records: the rules of the initial permissions and members, and a
    grant for every manager group. *)
Definition create_spec m (actor : bytes) (data : CreateData) (n : list op) : Prop := exists mgs,
  cd_Name data <> DomainAll /\
  Forall (manages m actor (cd_InitialPermissions data) (cd_InitialManagerGroupNames data)) mgs /\
  perms_held m actor (cd_InitialPermissions data) /\
  n = perm_ops (GroupResource (cd_Name data)) (cd_InitialPermissions data) [] ++
      member_ops (GroupResource (cd_Name data)) (cd_InitialMembers data) [] ++
      ((fun g => opAddP (p_rule (GroupResource (gr_Name g)) (manager_grant (cd_Name data)))) <$> mgs).

Lemma tracked_initialPermissions g perms :
  utf8_valid (gr_Name g) = true -> Forall perm_text perms ->
  tracked h (GroupService.applyInitialPermissions ctx g perms)
    (fun _ g' n => gr_Name g' = gr_Name g /\ n = perm_ops (GroupResource (gr_Name g)) perms []).
Proof.
  intros Hn Hp. unfold GroupService.applyInitialPermissions.
  destruct perms as [|p perms]; cbn [length]; [by apply tracked_ret|]. change (S _ =? 0)%nat with false. cbv iota.
  eapply tracked_bind; [apply tracked_wrap; by apply tracked_permDeltas|]. intros v [] n ->.
  apply tracked_ret. intros v' _. by rewrite app_nil_r.
Qed.

Lemma tracked_initialMembers g members :
  utf8_valid (gr_Name g) = true -> Forall (fun u => utf8_valid u = true) members ->
  tracked h (GroupService.applyInitialMembers ctx g members)
    (fun _ g' n => gr_Name g' = gr_Name g /\ n = member_ops (GroupResource (gr_Name g)) members []).
Proof.
  intros Hn Hp. unfold GroupService.applyInitialMembers.
  destruct members as [|u members]; cbn [length]; [by apply tracked_ret|]. change (S _ =? 0)%nat with false. cbv iota.
  eapply tracked_bind; [apply tracked_wrap; by apply tracked_memberDeltas|]. intros v [] n ->.
  apply tracked_ret. intros v' _. by rewrite app_nil_r.
Qed.

Lemma tracked_managers g mgs :
  utf8_valid (gr_Name g) = true -> Forall (fun mg => utf8_valid (gr_Name mg) = true) mgs ->
  tracked h (GroupService.wireInitialManagers ctx g mgs)
    (fun _ _ n => n = (fun mg => opAddP (p_rule (GroupResource (gr_Name mg)) (manager_grant (gr_Name g)))) <$> mgs).
Proof.
  intros Hn Hm. rewrite Forall_forall in Hm. apply tracked_each. intros mg Hmg. apply tracked_wrap.
  eapply tracked_mono; [apply tracked_permDeltas; [by apply Hm| |done]|by intros v [] n ->].
  rewrite Forall_singleton. split_and!; [by apply GroupResource_text|done..].
Qed.

Lemma tracked_create m actor data :
  utf8_valid (cd_Name data) = true -> Forall perm_text (cd_InitialPermissions data) ->
  Forall (fun u => utf8_valid u = true) (cd_InitialMembers data) ->
  tracked h (GroupService.createCallback false m actor data ctx) (fun _ _ n => create_spec m actor data n).
Proof.
  intros Hn Hp Hm. unfold GroupService.createCallback.
  eapply tracked_after; [auto with tracked|apply authorize_returns|]. intros mgs [Hheld Hmgs].
  eapply tracked_after; [auto with tracked|apply persist_returns|]. intros g [Hg Hd]. rewrite <-Hg in Hn.
  eapply tracked_bind; [by apply tracked_initialPermissions|]. intros v g1 n1 [Hg1 ->].
  eapply tracked_bind; [apply tracked_initialMembers; by rewrite ?Hg1|]. intros v1 g2 n2 [Hg2 ->].
  eapply tracked_bind; [apply tracked_managers; [by rewrite Hg2, Hg1|]|].
  { eapply Forall_impl; [exact Hmgs|]. by intros mg [? _]. }
  intros v2 [] n3 ->. eapply tracked_mono.
  { eapply (tracked_bind _ _ _ (fun _ _ n => n = [])).
    - destruct (_ || _); [|by apply tracked_ret]. apply tracked_quiet, keeps_wrap. auto with tracked.
    - intros v3 g3 n3 ->. eapply tracked_mono.
      + eapply (tracked_after _ _ (fun _ => True) (fun _ n => n = [])); [apply keeps_filter|done|].
        intros vis _. by apply tracked_ret.
      + intros v4 res n -> _. by instantiate (1 := fun _ _ n => n = []). }
  intros v3 res n4 -> _ _ _. exists mgs. rewrite app_nil_r. rewrite Hg2, Hg1, Hg. auto.
Qed.
End track.
