(* ===== verification/UserRepo.v ===== *)
(** * Users: entity and storage

    internal/domain/user.go, user_status.go and identity.go,
    internal/storage/internal/user.go and internal/storage/bbolt/user: the record of a
    user with its two secondary indexes, by identity and by e-mail address.

    A [uuid.UUID] of github.com/google/uuid is a value of a type left open with its
    text form.  Fields the code only carries are byte strings. *)

From S2P Require Import Prelude.
From S2P Require Import Bolt.
From S2P Require Import Domain.
From S2P Require Import Manager.
From S2P Require Import ConfigRepo.
From S2P Require Import Repository.
From S2P Require Import Util.
From S2P Require Import GroupRepo.
From stdpp Require Import base list gmap strings.
From Stdlib Require Import Ascii ZArith Lia.
Open Scope Z_scope.

#[local] Set Warnings "-register-all".

(** ** Identifiers *)

Class UUID := {
  uuid : Type;
  #[global] uuid_eq_dec :: EqDecision uuid;
  uuid_String : uuid -> bytes;
  uuid_Parse : bytes -> error + uuid;
  uuid_Nil : uuid;
  (** [uuid.New()] at the n-th reading of the clock and the random source *)
  uuid_New : nat -> uuid;
}.

Class UUIDSpec `{UUID} : Prop := {
  uuid_Parse_String u : uuid_Parse (uuid_String u) = inr u;
  uuid_String_text u : utf8_valid (uuid_String u) = true;
  (** 36 characters, hexadecimal digits and hyphens *)
  uuid_String_chars u : uuid_String u <> [] /\ Ascii.zero ∉ uuid_String u;
}.

(** ** The entity *)

Abbreviation UserStatus := bytes (only parsing).
Definition UserStatusActive : UserStatus := str "active".
Definition UserStatusDeactivated : UserStatus := str "deactivated".

Definition UserStatus_Valid (s : UserStatus) : bool :=
  bytes_eqb s UserStatusActive || bytes_eqb s UserStatusDeactivated.

Record Identity := mkIdentity { id_Provider : bytes; id_Subject : bytes }.

#[global] Instance Identity_eq_dec : EqDecision Identity.
Proof. solve_decision. Defined.

Definition ProviderBasic : bytes := str "basic".
Definition ProviderOIDC : bytes := str "oidc".
Definition oidcMultiIssuerPrefix : bytes := str "oidc:".

Definition ErrIdentityTaken : error := ESentinel (OtherErr "identity already taken").
Definition ErrEmailTaken : error := ESentinel (OtherErr "email already taken").
Definition ErrInvalidIdentityProvider : error := ESentinel (OtherErr "invalid identity provider").

Record User `{UUID} := mkUser {
  us_ID : uuid;
  us_Email : bytes;
  us_DisplayName : bytes;
  us_Picture : bytes;
  us_Status : UserStatus;
  us_Identities : list Identity;
  us_System : bool;
  us_CreatedAt : Z;
  us_LastLoginAt : Z;
  us_PasswordHash : bytes;
  us_PasswordChangeRequired : bool;
  us_MembershipVersion : Z;
}.

Record UserFilter := mkUserFilter { uf_UserIDs : gset bytes; uf_AnyUser : bool; uf_Search : bytes }.
Record UserListParams := mkUserListParams { ulp_Limit : Z; ulp_Offset : Z; ulp_Sort : SortParams }.

Section entity.
Context `{UUID}.

(** The assignments to a user through the caller's pointer. *)
Definition set_user_id (i : uuid) (u : User) : User :=
  mkUser _ i (us_Email u) (us_DisplayName u) (us_Picture u) (us_Status u) (us_Identities u) (us_System u)
    (us_CreatedAt u) (us_LastLoginAt u) (us_PasswordHash u) (us_PasswordChangeRequired u) (us_MembershipVersion u).
Definition set_email (e : bytes) (u : User) : User :=
  mkUser _ (us_ID u) e (us_DisplayName u) (us_Picture u) (us_Status u) (us_Identities u) (us_System u)
    (us_CreatedAt u) (us_LastLoginAt u) (us_PasswordHash u) (us_PasswordChangeRequired u) (us_MembershipVersion u).
Definition set_user_status (s : UserStatus) (u : User) : User :=
  mkUser _ (us_ID u) (us_Email u) (us_DisplayName u) (us_Picture u) s (us_Identities u) (us_System u)
    (us_CreatedAt u) (us_LastLoginAt u) (us_PasswordHash u) (us_PasswordChangeRequired u) (us_MembershipVersion u).
Definition set_identities (l : list Identity) (u : User) : User :=
  mkUser _ (us_ID u) (us_Email u) (us_DisplayName u) (us_Picture u) (us_Status u) l (us_System u)
    (us_CreatedAt u) (us_LastLoginAt u) (us_PasswordHash u) (us_PasswordChangeRequired u) (us_MembershipVersion u).
Definition set_user_times (created login : Z) (u : User) : User :=
  mkUser _ (us_ID u) (us_Email u) (us_DisplayName u) (us_Picture u) (us_Status u) (us_Identities u) (us_System u)
    created login (us_PasswordHash u) (us_PasswordChangeRequired u) (us_MembershipVersion u).
Definition set_membership_version (n : Z) (u : User) : User :=
  mkUser _ (us_ID u) (us_Email u) (us_DisplayName u) (us_Picture u) (us_Status u) (us_Identities u) (us_System u)
    (us_CreatedAt u) (us_LastLoginAt u) (us_PasswordHash u) (us_PasswordChangeRequired u) n.

Definition User_EnsureMutable (u : User) : outcome unit := if us_System u then Err ErrSystemImmutable else Ok tt.

Definition User_Validate (u : User) : outcome unit :=
  if bool_decide (us_ID u = uuid_Nil) then Err (NewValidationError (str "id") (str "user id is required"))
  else if bool_decide (us_Email u = []) then Err (NewValidationError (str "email") (str "email is required"))
  else if (maxDisplayNameLen <? length (us_DisplayName u))%nat then
    Err (NewValidationError (str "displayName") (str "display name must be at most 128 characters"))
  else if negb (UserStatus_Valid (us_Status u)) then
    Err (NewValidationError (str "status") (str "invalid user status"))
  else Ok tt.

(** The user after the method; unchanged on an error. *)
Definition User_Deactivate (u : User) : outcome User :=
  _ ← User_EnsureMutable u;
  if bytes_eqb (us_Status u) UserStatusDeactivated
  then Err (NewValidationError (str "status") (str "user is already deactivated"))
  else Ok (set_user_status UserStatusDeactivated u).

Definition User_Reactivate (u : User) : outcome User :=
  _ ← User_EnsureMutable u;
  if bytes_eqb (us_Status u) UserStatusActive
  then Err (NewValidationError (str "status") (str "user is already active"))
  else Ok (set_user_status UserStatusActive u).
End entity.

(** ** The stored record *)

Record AuthUserMeta := mkAuthUserMeta {
  am_ID : bytes;
  am_Email : bytes;
  am_DisplayName : bytes;
  am_Picture : bytes;
  am_Status : UserStatus;
  am_Identities : list Identity;
  am_System : bool;
  am_CreatedAt : Z;
  am_LastLoginAt : Z;
  am_PasswordHash : bytes;
  am_PasswordChangeRequired : bool;
  am_MembershipVersion : Z;
}.

Definition identity_ok (i : Identity) : bool := utf8_valid (id_Provider i) && utf8_valid (id_Subject i).

Definition user_meta_ok (m : AuthUserMeta) : bool :=
  utf8_valid (am_ID m) && utf8_valid (am_Email m) && utf8_valid (am_DisplayName m) && utf8_valid (am_Picture m) &&
  utf8_valid (am_Status m) && forallb identity_ok (am_Identities m) && utf8_valid (am_PasswordHash m) &&
  time_ok (am_CreatedAt m) && time_ok (am_LastLoginAt m) && int64_ok (am_MembershipVersion m).

#[global] Instance AuthUserMeta_repr : Representable AuthUserMeta :=
  {| json_wf m := user_meta_ok m = true; json_canon m := m |}.

Definition DomainToAuthUserMeta `{UUID} (u : User) : AuthUserMeta :=
  mkAuthUserMeta (uuid_String (us_ID u)) (us_Email u) (us_DisplayName u) (us_Picture u) (us_Status u)
    (us_Identities u) (us_System u) (us_CreatedAt u) (us_LastLoginAt u) (us_PasswordHash u)
    (us_PasswordChangeRequired u) (us_MembershipVersion u).

(** [id, _ := uuid.Parse(m.ID)] *)
Definition AuthUserMetaToDomain `{UUID} (m : AuthUserMeta) : User :=
  mkUser _ (match uuid_Parse (am_ID m) with inr i => i | inl _ => uuid_Nil end) (am_Email m) (am_DisplayName m)
    (am_Picture m) (am_Status m) (am_Identities m) (am_System m) (am_CreatedAt m) (am_LastLoginAt m)
    (am_PasswordHash m) (am_PasswordChangeRequired m) (am_MembershipVersion m).

(** ** The repository *)

Definition bucketUsers : string := "auth_users".
Definition bucketIdentities : string := "users_by_identity".
Definition bucketEmails : string := "users_by_email".
Definition identitySep : bytes := [Ascii.zero].

Definition identityKey (i : Identity) : bytes := id_Provider i ++ identitySep ++ id_Subject i.
Definition identityKeySet (identities : list Identity) : gset bytes := list_to_set (identityKey <$> identities).

Section shaping.
Context `{UUID} `{UnicodeLower} `{GoSort}.

Definition matchesUserSearch (u : User) (search : bytes) : bool :=
  if bool_decide (search = []) then true
  else
    let needle := ToLower search in
    contains (ToLower (us_Email u)) needle || contains (ToLower (us_DisplayName u)) needle.

Definition userLess (params : SortParams) (a b : User) : bool :=
  let less := if bytes_eqb (sort_Field params) (str "name") then bytes_ltb (us_DisplayName a) (us_DisplayName b)
              else if bytes_eqb (sort_Field params) (str "last_login") then us_LastLoginAt a <? us_LastLoginAt b
              else bytes_ltb (us_Email a) (us_Email b) in
  if sort_Desc params then negb less else less.

Definition sortUsers (users : list User) (params : SortParams) : list User := sort_Slice (userLess params) users.

Definition paginateUsers (users : list User) (offset limit : Z) : outcome (list User) :=
  let offset := if offset <? 0 then 0 else offset in
  let n := Z.of_nat (length users) in
  if n <=? offset then Ok []
  else
    let end_ := if (0 <? limit) && (int64 (offset + limit) <? n) then int64 (offset + limit) else n in
    slice users offset end_.
End shaping.

Section repo.
Context `{Bolt} `{Clock} `{JSON AuthUserMeta} `{UUID} `{RangeOrder} `{GoSort} `{UnicodeLower}.

(** *** The indexes *)

Definition ensureEmailFree (email ownerKey : bytes) : TxM unit :=
  if bool_decide (email = []) then mret tt
  else
    owner ← bucket_Get bucketEmails email;
    match owner with
    | Some o => if bytes_eqb o ownerKey then mret tt
                else txfail (EWrap "email %s: %w" [FStr email] ErrEmailTaken)
    | None => mret tt
    end.

Fixpoint ensureIdentitiesFree (identities : list Identity) (ownerKey : bytes) : TxM unit :=
  match identities with
  | [] => mret tt
  | i :: identities =>
      owner ← bucket_Get bucketIdentities (identityKey i);
      match owner with
      | Some o => if bytes_eqb o ownerKey then ensureIdentitiesFree identities ownerKey
                  else txfail (EWrap "identity %s:%s: %w" [FStr (id_Provider i); FStr (id_Subject i)] ErrIdentityTaken)
      | None => ensureIdentitiesFree identities ownerKey
      end
  end.

Fixpoint writeIdentityIndex (identities : list Identity) (ownerKey : bytes) : TxM unit :=
  match identities with
  | [] => mret tt
  | i :: identities =>
      _ ← wrapE "put identity index: %w" [] (bucket_Put bucketIdentities (identityKey i) ownerKey);
      writeIdentityIndex identities ownerKey
  end.

Definition writeEmailIndex (email ownerKey : bytes) : TxM unit :=
  if bool_decide (email = []) then mret tt
  else wrapE "put email index: %w" [] (bucket_Put bucketEmails email ownerKey).

(** The two loops of reconcileIdentityIndex. *)
Fixpoint deleteStale (newKeys : gset bytes) (keys : list bytes) : TxM unit :=
  match keys with
  | [] => mret tt
  | k :: keys =>
      if bool_decide (k ∈ newKeys) then deleteStale newKeys keys
      else
        _ ← wrapE "delete stale identity index %q: %w" [FStr k] (bucket_Delete bucketIdentities k);
        deleteStale newKeys keys
  end.

Fixpoint putNew (oldKeys : gset bytes) (ownerKey : bytes) (keys : list bytes) : TxM unit :=
  match keys with
  | [] => mret tt
  | k :: keys =>
      if bool_decide (k ∈ oldKeys) then putNew oldKeys ownerKey keys
      else
        owner ← bucket_Get bucketIdentities k;
        if match owner with Some o => negb (bytes_eqb o ownerKey) | None => false end
        then txfail (EWrap "identity %q: %w" [FStr k] ErrIdentityTaken)
        else
          _ ← wrapE "put identity index %q: %w" [FStr k] (bucket_Put bucketIdentities k ownerKey);
          putNew oldKeys ownerKey keys
  end.

Definition reconcileIdentityIndex (prev next : list Identity) (ownerKey : bytes) : TxM unit :=
  let oldKeys := identityKeySet prev in
  let newKeys := identityKeySet next in
  _ ← deleteStale newKeys (rangeSet oldKeys);
  putNew oldKeys ownerKey (rangeSet newKeys).

Definition reconcileEmailIndex (prev next ownerKey : bytes) : TxM unit :=
  if bytes_eqb prev next then mret tt
  else
    _ ← (if bool_decide (prev = []) then mret tt
         else wrapE "delete old email index: %w" [] (bucket_Delete bucketEmails prev));
    if bool_decide (next = []) then mret tt
    else
      _ ← ensureEmailFree next ownerKey;
      writeEmailIndex next ownerKey.

(** *** The programs *)

Definition userNotFound (key : bytes) : error := EWrap "user %s: %w" [FStr key] ErrResourceNotFound.

(** [Get] of a user's record, with the two error paths of the callers. *)
Definition getMeta (fmt : string) (key : bytes) : TxM AuthUserMeta :=
  r ← attempt (bbolt.Get (T:=AuthUserMeta) bucketUsers key);
  match r with
  | inr m => mret m
  | inl e => if errors_Is e (ESentinel BboltErrNotFound) then txfail (userNotFound key) else txfail (EWrap fmt [] e)
  end.

(** Create also returns the user as it leaves the caller's. *)
Definition createUserTx (user : User) : TxM User :=
  let key := uuid_String (us_ID user) in
  exists_ ← bbolt.Exists bucketUsers key;
  if (exists_ : bool) then txfail (EWrap "user %s: %w" [FStr key] ErrResourceAlreadyExists)
  else
    _ ← ensureEmailFree (us_Email user) key;
    _ ← ensureIdentitiesFree (us_Identities user) key;
    user ← (if bool_decide (us_CreatedAt user = timeZero)
            then now ← Now; mret (set_user_times now (us_LastLoginAt user) user)
            else mret user);
    _ ← wrapE "put user: %w" [] (bbolt.Put bucketUsers key (DomainToAuthUserMeta user));
    _ ← writeIdentityIndex (us_Identities user) key;
    _ ← writeEmailIndex (us_Email user) key;
    mret user.

Definition updateUserTx (user : User) : TxM unit :=
  let key := uuid_String (us_ID user) in
  prev ← getMeta "get: %w" key;
  _ ← reconcileIdentityIndex (am_Identities prev) (us_Identities user) key;
  _ ← reconcileEmailIndex (am_Email prev) (us_Email user) key;
  wrapE "put user: %w" [] (bbolt.Put bucketUsers key (DomainToAuthUserMeta user)).

Definition with_membership_version (n : Z) (m : AuthUserMeta) : AuthUserMeta :=
  mkAuthUserMeta (am_ID m) (am_Email m) (am_DisplayName m) (am_Picture m) (am_Status m) (am_Identities m)
    (am_System m) (am_CreatedAt m) (am_LastLoginAt m) (am_PasswordHash m) (am_PasswordChangeRequired m) n.

Definition with_password (hash : bytes) (changeRequired : bool) (m : AuthUserMeta) : AuthUserMeta :=
  mkAuthUserMeta (am_ID m) (am_Email m) (am_DisplayName m) (am_Picture m) (am_Status m) (am_Identities m)
    (am_System m) (am_CreatedAt m) (am_LastLoginAt m) hash changeRequired (am_MembershipVersion m).

Definition setMembershipVersionTx (userID : uuid) (version : Z) : TxM unit :=
  let key := uuid_String userID in
  m ← getMeta "get: %w" key;
  wrapE "put user membership metadata: %w" [] (bbolt.Put bucketUsers key (with_membership_version version m)).

Definition setPasswordTx (userID : uuid) (hash : bytes) (changeRequired : bool) : TxM unit :=
  let key := uuid_String userID in
  m ← getMeta "get: %w" key;
  wrapE "put user: %w" [] (bbolt.Put bucketUsers key (with_password hash changeRequired m)).

Definition getUserTx (id : uuid) : TxM User :=
  m ← getMeta "get user by id: %w" (uuid_String id);
  mret (AuthUserMetaToDomain m).

Definition getByIdentityTx (provider subject : bytes) : TxM User :=
  userID ← bucket_Get bucketIdentities (provider ++ identitySep ++ subject);
  match userID with
  | None => txfail (EWrap "user identity %s:%s: %w" [FStr provider; FStr subject] ErrResourceNotFound)
  | Some key => m ← getMeta "get: %w" key; mret (AuthUserMetaToDomain m)
  end.

Definition getByEmailTx (email : bytes) : TxM User :=
  userID ← bucket_Get bucketEmails email;
  match userID with
  | None => txfail (userNotFound email)
  | Some key => m ← getMeta "get: %w" key; mret (AuthUserMetaToDomain m)
  end.

Definition decodeUser (data : bytes) : TxM AuthUserMeta :=
  match bbolt.JSONCodec_Unmarshal (T:=AuthUserMeta) data with
  | inl e => txfail (EWrap "unmarshal user: %w" [] e)
  | inr m => mret m
  end.

Definition getSystemUserTx : TxM (option User) :=
  bucket_ForEach bucketUsers (fun _ v user =>
    match user with
    | Some _ => mret user
    | None => m ← decodeUser v; mret (if am_System m then Some (AuthUserMetaToDomain m) else None)
    end) None.

Fixpoint deleteIdentities (identities : list Identity) : TxM unit :=
  match identities with
  | [] => mret tt
  | i :: identities =>
      _ ← wrapE "delete identity index: %w" [] (bucket_Delete bucketIdentities (identityKey i));
      deleteIdentities identities
  end.

Definition deleteUserTx (id : uuid) : TxM unit :=
  let key := uuid_String id in
  m ← getMeta "get: %w" key;
  _ ← wrapE "delete user: %w" [] (bbolt.Delete bucketUsers key);
  _ ← deleteIdentities (am_Identities m);
  if bool_decide (am_Email m = []) then mret tt
  else wrapE "delete email index: %w" [] (bucket_Delete bucketEmails (am_Email m)).

Definition listUsersTx (filter : UserFilter) : TxM (list User) :=
  bucket_ForEach bucketUsers (fun _ v matches =>
    m ← decodeUser v;
    let u := AuthUserMetaToDomain m in
    if negb (uf_AnyUser filter) && negb (bool_decide (uuid_String (us_ID u) ∈ uf_UserIDs filter)) then mret matches
    else if negb (matchesUserSearch u (uf_Search filter)) then mret matches
    else mret (matches ++ [u])) [].
End repo.

Module UserRepo.
Section methods.
Context `{Bolt} `{Disk} `{Clock} `{JSON AuthUserMeta} `{UUID} `{RangeOrder} `{GoSort} `{UnicodeLower}.

Definition Create (ctx : Context_) (user : User) : App User :=
  Repository.write "create user: %w" ctx (createUserTx user).
Definition Update (ctx : Context_) (user : User) : App unit :=
  Repository.write "update user: %w" ctx (updateUserTx user).
Definition SetMembershipVersion (ctx : Context_) (userID : uuid) (version : Z) : App unit :=
  Repository.write "set membership version: %w" ctx (setMembershipVersionTx userID version).
Definition SetPassword (ctx : Context_) (userID : uuid) (hash : bytes) (changeRequired : bool) : App unit :=
  Repository.write "set password: %w" ctx (setPasswordTx userID hash changeRequired).
Definition GetByID (ctx : Context_) (id : uuid) : App User := GetQuerier ctx (getUserTx id).
Definition GetByIdentity (ctx : Context_) (provider subject : bytes) : App User :=
  Repository.read "get user by identity: %w" ctx (getByIdentityTx provider subject).
Definition GetByEmail (ctx : Context_) (email : bytes) : App User :=
  Repository.read "get user by email: %w" ctx (getByEmailTx email).
Definition GetSystemUser (ctx : Context_) : App User :=
  user ← Repository.read "get system user: %w" ctx getSystemUserTx;
  match user with
  | None => appfail (EWrap "system user: %w" [] ErrResourceNotFound)
  | Some u => mret u
  end.
Definition Delete (ctx : Context_) (id : uuid) : App unit :=
  Repository.write "delete user: %w" ctx (deleteUserTx id).

Definition List (ctx : Context_) (filter : UserFilter) (params : UserListParams) : App (list User * Z) :=
  matches ← Repository.read "list users: %w" ctx (listUsersTx filter);
  let sorted := sortUsers matches (ulp_Sort params) in
  page ← liftO (paginateUsers sorted (ulp_Offset params) (ulp_Limit params));
  mret (page, Z.of_nat (length sorted)).

Definition ListAll (ctx : Context_) : App (list User) :=
  '(users, _) ← List ctx (mkUserFilter ∅ true []) (mkUserListParams 0 0 (mkSortParams [] false));
  mret users.
End methods.
End UserRepo.
